(* ===== verification/_CoqProject ===== *)
-Q . S2P
Prelude.v
Effects.v
Errors.v
Subjects.v
Bindings.v
Json.v
World.v
IdemKV.v
KVContract.v
KVGuard.v
IdemKVSafe.v
MemKV.v
IdemKVSystem.v
IdemKVTraces.v
IdemKVSpec.v
IdemExec.v
LeaseRenewal.v
Streams.v
StreamsProofs.v
Delivery.v
DeliveryProofs.v
KVOps.v
Objects.v
Watch.v
WatchProofs.v
Headers.v
Publish.v
Topic.v
PublishProofs.v
Micro.v
Runner.v
RunnerProofs.v
GoText.v
Flow.v
FlowProofs.v
Embedded.v
Options.v
FlowLibrary.v
FlowLibraryProofs.v
Lifecycle.v
LifecycleSystem.v
LifecycleProofs.v
