(* ===== verification/Prelude.v ===== *)
(** * Verification of the NATS transport (src/tnats)

    The transport connects actions (package kernel/action) to NATS: it subscribes
    actions to subjects, streams and work queues, runs them for each message - under a
    lease on the message's idempotency key, which one node holds at a time - and settles
    each message with the broker.  This library models that code and proves it correct.

    ** How the code is modelled

    Go code that only computes is a Rocq function.  Code that calls the broker, the
    clock, a context, the mounted action or another interface is a [prog] (Effects):
    a finite tree of calls ([World.req]) with a branch for every answer.  Theorems
    quantify over the answers, so they cover every failure and, for the multi-node
    system, every interleaving; [Effects.exec] runs the same programs against a
    concrete world (MemKV).  A [(T, error)] result is [result], a lone [error] is
    [option error], a panic is [gores].  Integers are [Z] with the wrap-around of the
    code written out where it matters; times are nanoseconds since the Unix epoch;
    strings and byte slices are byte strings.  Code of other packages is abstract:
    classes [ErrorModel] (errors, xerr), [Kernel] (codec, header access, SHA-256),
    [JsonText] and [EntryJson] (encoding/json at the text level, the kernel's entry),
    with the laws the proofs use in separate law classes and a concrete instance of
    each.  Logging is left out.

    ** Files

    - Prelude, Effects: results, integers, strings, automation; programs with calls.
    - Errors: error.go (MapError, mapJetStreamAPIError, mapAPIStatus) and mapKVError
      of kv_operations.go.  MapError keeps the cause and is idempotent; each sentinel
      falls under exactly one case of the switch.
    - Subjects: subjectPatternCovers (tnats_stream.go) and objectNameMatches
      (objectstore.go), index loops proved equal to token-level definitions (the
      loops recurse on fuel: one more than the bytes left is always enough, which the
      equality shows).  Coverage is exact on subjects without a trailing '>'.
    - Bindings: every binding type, constructor, builder and validation (what the
      builders of a consumer change, and which results are accepted: StreamsProofs).
    - Json, World: documents and their decoding into structs; contexts, NATS data,
      the external calls.
    - IdemKV: all of idempotency_kv.go.  KVContract states what a JetStream bucket
      promises (fresh revisions, compare-and-set, errors that may or may not have
      taken effect).  KVGuard is a rely-guarantee judgement for programs on a shared
      bucket; IdemKVSafe proves it of every method; IdemKVSystem builds the system of
      nodes, threads, crashes and time, and derives exclusivity and lease stability
      by induction on steps.  IdemKVTraces says which writes a method makes, in which
      order, for which result.  IdemKVSpec is the functional specification on a
      working bucket: replay, takeover, renewal, release, and the expiry arithmetic.
    - IdemExec: idempotency.go, from the request hash to completion or release.
      LeaseRenewal: its goroutine and stopRenewal as two interleaved programs over a
      mutex and three channels (safety and absence of deadlock).
    - Streams, StreamsProofs: ensureStream, provisioning, subscribing, the fetch loop
      of consumer.go, tnats_durable.go and tnats_stream.go: the configuration a stream is
      created or extended with, the options of a subscription, its worker.  The fetch loop takes a
      number of turns; its theorem holds for every number, and a run that used them
      all is reported as still running.
    - Delivery, DeliveryProofs: handling of one delivered message (consumer.go,
      tnats_durable.go): disposition, dead-lettering, and the bound on executions
      over all redeliveries.
    - MemKV: a concrete world, used to evaluate programs and to show that the
      hypotheses of the theorems hold somewhere.
    - KVOps: kv_operations.go, every write truthfully reported.  Objects: the transfers
      of objectstore.go, a read that is whole and bounded for every int64 limit.  Watch, WatchProofs: the
      watchers of tnats_kv.go and objectstore.go (one loop over two kinds of watcher),
      at most one watcher open at a time.
    - Headers: tnats_context.go and identity.go, the round trip of the identifiers.
      Publish, Topic, PublishProofs: tnats_publish.go and the handler of
      tnats_runner.go; what is sent, when streams are provisioned, and that a requester
      learns the outcome of the action.
    - Micro: micro.go, every service added with its own endpoints; Runner, RunnerProofs:
      Do with its deferred functions, and readiness (tnats_runner.go, tnats.go,
      from_conn.go).  Every run whose calls return ends by cancelling its context,
      releasing what it opened, waiting for the workers and closing, in this order; it
      reports ready only when every binding is mounted; the run of a transport made by
      FromConn does not return.
    - Embedded, Options: embedded.go; New and its options (tnats.go, auth.go), and
      ValidateProduction (tnats_production.go).
    - GoText: the parts of strings, encoding/base64 and time that the flow reads its
      input with.  ParseDuration is complete, with the binary64 arithmetic of its
      fractions; its loop has one more unit of fuel than the text has bytes, and
      duration_terms_fuel shows that more makes no difference.
    - Flow, FlowProofs: jetstream_actions.go of src/nexssflow, with the round trips of
      values and objects.  FlowLibrary, FlowLibraryProofs: library.go - bundles,
      annotations, nats.listen and the publishing actions.
    - Lifecycle, LifecycleSystem, LifecycleProofs: lazy.go and ensureJetStream.  The
      programs run interleaved, call by call, on the fields of one transport; a
      typestate discipline says what each goroutine owns, and the invariant of every
      reachable state follows from it: no connection is lost, only dialed connections
      are closed, one goroutine dials at a time, and Close reaches a dial in progress.
      The wait for the first connection takes a number of turns; it needs one more than
      the signals it receives.

    Clients of the connection (KVOps, Publish, Runner, ...) see EnsureConn and
    ensureJetStream as two calls that may answer anything of their type; Lifecycle has
    what they do.

    ** What the model assumes

    All nodes of IdemKVSystem read one clock; random tokens are not drawn twice; a
    node passes to Complete, Release and RenewClaim only tokens it drew itself.
    Revisions and delivery counts have the ranges of their Go types.  A store that is
    not a coordinator (executeWithLegacyStore) makes no promise between nodes.
    Every external call returns, with any answer of its type: the blocking ones return
    when what they wait for happens, so that Do returns depends on workersWg.Wait, which
    returns once the workers have ended (the run context they watch is cancelled and their
    subscriptions are closed before it is called; that they then end is not proved).
    Context values and headers obey HeaderLaws (what was set is got).  A watcher's Stop,
    shared by a goroutine and the loop through a sync.Once, is one call.  Where several
    goroutines work for one message or run, each is a program of its own and the theorem
    is about that program; only LifecycleSystem, LeaseRenewal and IdemKVSystem interleave
    them.

    ** What the proofs found

    Claim looks for a stored result before it creates the claim and not after, so a
    request that another node completes in between is executed twice
    (IdemKVTraces.Claim_reacquires_completed_request); subjectPatternCovers reports
    events.* to cover events.>; objectNameMatches ignores a trailing dot; Do on a
    transport made by FromConn panics or deadlocks
    (RunnerProofs.FromConn_Do_never_returns); the cache of PublishDurable confuses
    bindings (PublishProofs.cacheKey_ambiguous); nats.listen of everything drops an
    action with a malformed annotation silently
    (FlowLibraryProofs.listen_all_ignores_invalid); the README calls the dead-letter
    subject of DurableWork optional, and validateDurableBinding requires it.

    ** Not modelled

    The retry options and callbacks that dialConnection hands to nats.Connect (they
    configure the library; the wait for the connection receives what they signal); the
    body of the nkey callback of auth.go, which runs inside the client; sanitizeURL,
    String, AsAction and the logger, which only shape text or log; the registration of
    the flow bundle; the test kit.  Next: the composition of nats.listen with the runner
    and of the runner with the lifecycle in one system, and a specification of the
    fetch loop together with the handling of its messages. *)

From stdpp Require Export base list strings gmap pretty sorting.
From Stdlib Require Export ZArith Lia.


(** ** Go results

    A Go function returning [(T, error)] is a [result]; a function returning
    only [error] is an [option error] ([None] is [nil]). *)
Inductive result (E A : Type) : Type :=
| Ok (a : A)
| Err (e : E).
Arguments Ok {E A} a.
Arguments Err {E A} e.

(** A call that can panic yields a [gores]. *)
Inductive gores (A : Type) : Type :=
| Done (a : A)
| Panic.
Arguments Done {A} a.
Arguments Panic {A}.

Definition is_ok {E A} (r : result E A) : bool :=
  match r with Ok _ => true | Err _ => false end.

Definition is_some {A} (o : option A) : bool :=
  match o with Some _ => true | None => false end.

(** ** Machine integers *)
Declare Scope go_scope.
Delimit Scope go_scope with go.

Definition int64_max : Z := (2 ^ 63 - 1)%Z.
Definition int64_min : Z := (- 2 ^ 63)%Z.
Definition uint64_max : Z := (2 ^ 64 - 1)%Z.

Definition in_int64 (z : Z) : Prop := (int64_min <= z <= int64_max)%Z.
Definition in_uint64 (z : Z) : Prop := (0 <= z <= uint64_max)%Z.

(** Wrap-around of a signed and of an unsigned 64-bit integer. *)
Definition wrap_int64 (z : Z) : Z := ((z + 2 ^ 63) mod 2 ^ 64 - 2 ^ 63)%Z.
Definition wrap_uint64 (z : Z) : Z := (z mod 2 ^ 64)%Z.

Lemma wrap_int64_id z : in_int64 z → wrap_int64 z = z.
Proof.
  unfold in_int64, int64_min, int64_max, wrap_int64. intros H.
  rewrite Z.mod_small; lia.
Qed.

Lemma wrap_uint64_id z : in_uint64 z → wrap_uint64 z = z.
Proof.
  unfold in_uint64, uint64_max, wrap_uint64. intros H.
  rewrite Z.mod_small; lia.
Qed.

(** [time.Duration] values are nanoseconds. *)
Definition time_Millisecond : Z := 1000000.
Definition time_Second : Z := 1000000000.

(** A [time.Time] is the number of nanoseconds since the Unix epoch; the zero
    [time.Time] is January 1, year 1, 00:00:00 UTC. *)
Definition time_zero : Z := (- 62135596800 * 1000000000)%Z.
Definition time_IsZero (t : Z) : bool := (t =? time_zero)%Z.

(** ** Strings

    Go strings and byte slices are byte sequences: [string]. *)
Definition str_eqb (a b : string) : bool := bool_decide (a = b).
Definition str_empty (s : string) : bool := str_eqb s "".

Notation "a =s b" := (str_eqb a b) (at level 70, no associativity) : go_scope.

Lemma str_eqb_eq a b : str_eqb a b = true ↔ a = b.
Proof. unfold str_eqb. apply bool_decide_eq_true. Qed.

Lemma str_eqb_neq a b : str_eqb a b = false ↔ a ≠ b.
Proof. unfold str_eqb. apply bool_decide_eq_false. Qed.

Lemma str_eqb_refl a : str_eqb a a = true.
Proof. by apply str_eqb_eq. Qed.

Lemma str_empty_true s : str_empty s = true ↔ s = "".
Proof. apply str_eqb_eq. Qed.

Lemma str_empty_false s : str_empty s = false ↔ s ≠ "".
Proof. apply str_eqb_neq. Qed.

(** ** Automation *)
Create HintDb tnats.
Create Rewrite HintDb go_bool.

#[export] Hint Resolve str_eqb_refl : tnats.
#[export] Hint Rewrite str_eqb_eq str_eqb_neq str_empty_true str_empty_false
  bool_decide_eq_true bool_decide_eq_false Bool.andb_true_iff Bool.orb_true_iff Bool.andb_false_iff Bool.orb_false_iff
  Bool.negb_true_iff Bool.negb_false_iff
  Z.eqb_eq Z.eqb_neq Z.leb_le Z.leb_gt Z.ltb_lt Z.ltb_ge : go_bool.

(** Turn boolean tests of the code into propositions. *)
Ltac go_bool := autorewrite with go_bool in *.

(** Split every conjunction, existential and disjunction of the context. *)
Ltac destr_all :=
  repeat match goal with
  | H : _ ∧ _ |- _ => destruct H
  | H : ∃ _, _ |- _ => destruct H
  | H : _ ∨ _ |- _ => destruct H
  end.

(** Case analysis on the scrutinee of a match or the test of an if in the goal,
    remembering the equation. *)
Ltac go_case :=
  match goal with
  | |- context [match ?x with _ => _ end] =>
      lazymatch x with
      | context [match _ with _ => _ end] => fail
      | _ => destruct x eqn:?
      end
  end.
