(* ===== verification/Effects.v ===== *)
(** * Programs with external calls

    The transport is glue between an application and the NATS client: nearly
    every function calls the broker, the clock, the context or the mounted
    action.  A Go function of that kind is a [prog]: a finite tree whose nodes
    are calls to code outside the repository (a [req]uest) and whose branches
    are the possible [resp]onses.  Pure Go code is the Rocq code between the
    calls, so a [prog] is executable: [exec] runs it against any handler.

    - [runs p tr a]: the program [p] can produce the call trace [tr] and return
      [a]; every environment is covered, since every response is allowed.
    - [sat p Q]: every run of [p] satisfies [Q]; the proof method for [runs].
    - [exec h p s]: the run of [p] against a concrete handler. *)

From S2P Require Import Prelude.

Section Prog.
Context {req : Type} {resp : req → Type}.

Inductive prog (A : Type) : Type :=
| Ret (a : A)
| Vis (r : req) (k : resp r → prog A).
Arguments Ret {A} a.
Arguments Vis {A} r k.

(** One call with the response it received. *)
Record event := Ev { ev_req : req; ev_resp : resp ev_req }.

Fixpoint prog_bind {A B} (f : A → prog B) (p : prog A) : prog B :=
  match p with
  | Ret a => f a
  | Vis r k => Vis r (λ x, prog_bind f (k x))
  end.

#[global] Instance prog_mret : MRet prog := @Ret.
#[global] Instance prog_mbind : MBind prog := @prog_bind.

(** A single external call. *)
Definition call (r : req) : prog (resp r) := Vis r Ret.

(** ** Traces *)
Fixpoint runs {A} (p : prog A) (tr : list event) (a : A) : Prop :=
  match p with
  | Ret b => tr = [] ∧ a = b
  | Vis r k => ∃ x tr', tr = Ev r x :: tr' ∧ runs (k x) tr' a
  end.

Fixpoint sat {A} (p : prog A) (Q : list event → A → Prop) : Prop :=
  match p with
  | Ret a => Q [] a
  | Vis r k => ∀ x, sat (k x) (λ tr a, Q (Ev r x :: tr) a)
  end.

Lemma sat_runs {A} (p : prog A) Q :
  sat p Q ↔ ∀ tr a, runs p tr a → Q tr a.
Proof.
  revert Q. induction p as [b|r k IH]; intros Q; simpl.
  - split; [by intros ? ? ? [-> ->]|auto].
  - split.
    + intros Hs tr a (x & tr' & -> & Hr). apply (proj1 (IH x _) (Hs x) _ _ Hr).
    + intros Hq x. apply IH. intros tr a Hr. apply Hq. by exists x, tr.
Qed.

Lemma sat_mono {A} (p : prog A) (Q Q' : list event → A → Prop) :
  (∀ tr a, Q tr a → Q' tr a) → sat p Q → sat p Q'.
Proof.
  revert Q Q'. induction p as [b|r k IH]; simpl; intros Q Q' HQ; [by auto|].
  intros Hs x. apply (IH x _ _ (λ tr a, HQ (Ev r x :: tr) a)). auto.
Qed.

Lemma sat_bind {A B} (p : prog A) (f : A → prog B) (Q : list event → B → Prop) :
  sat p (λ tr a, sat (f a) (λ tr' b, Q (tr ++ tr') b)) → sat (p ≫= f) Q.
Proof.
  revert Q. induction p as [b|r k IH]; simpl; intros Q Hs; [done|].
  intros x. apply IH, Hs.
Qed.

Lemma sat_and {A} (p : prog A) (Q Q' : list event → A → Prop) :
  sat p Q → sat p Q' → sat p (λ tr a, Q tr a ∧ Q' tr a).
Proof. rewrite !sat_runs. auto. Qed.

Lemma sat_vis {A} r (f : resp r → prog A) (Q : list event → A → Prop) :
  (∀ x, sat (f x) (λ t b, Q (Ev r x :: t) b)) → sat (call r ≫= f) Q.
Proof. intros H. exact H. Qed.

(** Sequencing when only the trace of the first program matters. *)
Lemma sat_then {A B} (p : prog A) (f : A → prog B) (P : list event → Prop) Q :
  sat p (λ t _, P t) → (∀ t a, P t → sat (f a) (λ t' b, Q (t ++ t') b)) → sat (p ≫= f) Q.
Proof. intros Hp Hf. apply sat_bind. eapply sat_mono; [|exact Hp]. cbn. auto. Qed.

Lemma runs_bind {A B} (p : prog A) (f : A → prog B) tr b :
  runs (p ≫= f) tr b ↔
  ∃ tr1 tr2 a, tr = tr1 ++ tr2 ∧ runs p tr1 a ∧ runs (f a) tr2 b.
Proof.
  revert tr. induction p as [a|r k IH]; intros tr; simpl.
  - split; [intros H; by exists [], tr, a|].
    intros (tr1 & tr2 & a' & -> & [-> ->] & H). done.
  - split.
    + intros (x & tr' & -> & H). apply IH in H as (tr1 & tr2 & a & -> & H1 & H2).
      exists (Ev r x :: tr1), tr2, a. split; [done|]. split; [by exists x, tr1|done].
    + intros (tr1 & tr2 & a & -> & (x & tr' & -> & H1) & H2).
      exists x, (tr' ++ tr2). split; [done|]. apply IH. by exists tr', tr2, a.
Qed.

(** ** Programs that make only certain calls *)
Fixpoint calls_only {A} (P : req → Prop) (p : prog A) : Prop :=
  match p with
  | Ret _ => True
  | Vis r k => P r ∧ ∀ x, calls_only P (k x)
  end.

Lemma calls_only_bind {A B} P (p : prog A) (f : A → prog B) :
  calls_only P p → (∀ a, calls_only P (f a)) → calls_only P (p ≫= f).
Proof.
  intros Hp Hf. induction p as [a|r k IH]; [apply Hf|]. destruct Hp as [Hr Hk].
  split; [exact Hr|]. intros x. exact (IH x (Hk x)).
Qed.

Lemma calls_only_call {A} P r (f : resp r → prog A) :
  P r → (∀ x, calls_only P (f x)) → calls_only P (call r ≫= f).
Proof. by split. Qed.

Lemma calls_only_mono {A} (P P' : req → Prop) (p : prog A) :
  (∀ r, P r → P' r) → calls_only P p → calls_only P' p.
Proof. intros HP. induction p as [a|r k IH]; [done|]. intros [Hr Hk]. split; [auto|]. intros x. exact (IH x (Hk x)). Qed.

Lemma calls_only_sat {A} P (p : prog A) :
  calls_only P p → sat p (λ tr _, Forall (λ e, P (ev_req e)) tr).
Proof.
  intros Hp. induction p as [a|r k IH]; [constructor|]. destruct Hp as [Hr Hk]. intros x.
  eapply sat_mono; [|exact (IH x (Hk x))]. cbn beta. intros t a Ht. by constructor.
Qed.

(** ** Execution against a handler *)
Definition handler (S : Type) : Type := ∀ r : req, S → resp r * S.

Fixpoint exec {A S} (h : handler S) (p : prog A) (s : S) : A * list event * S :=
  match p with
  | Ret a => (a, [], s)
  | Vis r k =>
      let '(x, s1) := h r s in
      let '(a, tr, s2) := exec h (k x) s1 in
      (a, Ev r x :: tr, s2)
  end.

(** A handler's run is one of the runs. *)
Lemma exec_runs {A S} (h : handler S) (p : prog A) s a tr s' :
  exec h p s = (a, tr, s') → runs p tr a.
Proof.
  revert s tr s'. induction p as [b|r k IH]; simpl; intros s tr s' E.
  - by simplify_eq.
  - destruct (h r s) as [x s1] eqn:Eh. destruct (exec h (k x) s1) as [[a1 t1] s2] eqn:Ek.
    simplify_eq. exists x, t1. split; [done|]. eapply IH, Ek.
Qed.

Definition exec_result {A S} (h : handler S) (p : prog A) (s : S) : A := (exec h p s).1.1.
Definition exec_trace {A S} (h : handler S) (p : prog A) (s : S) : list event := (exec h p s).1.2.
Definition exec_state {A S} (h : handler S) (p : prog A) (s : S) : S := (exec h p s).2.

Lemma exec_is_run {A S} (h : handler S) (p : prog A) s :
  runs p (exec_trace h p s) (exec_result h p s).
Proof.
  unfold exec_trace, exec_result. destruct (exec h p s) as [[a tr] s'] eqn:E.
  by eapply exec_runs.
Qed.

Lemma exec_bind {A B S} (h : handler S) (p : prog A) (f : A → prog B) s :
  exec h (p ≫= f) s =
  let '(a, t1, s1) := exec h p s in
  let '(b, t2, s2) := exec h (f a) s1 in (b, t1 ++ t2, s2).
Proof.
  unfold mbind, prog_mbind.
  revert s. induction p as [a|r k IH]; cbn [prog_bind exec]; intros s.
  - by destruct (exec h (f a) s) as [[b t2] s2].
  - destruct (h r s) as [x s1]. rewrite IH. destruct (exec h (k x) s1) as [[a t1] s2].
    by destruct (exec h (f a) s2) as [[b t2] s3].
Qed.
End Prog.

Arguments prog {req} resp A.
Arguments Ret {req resp A} a.
Arguments Vis {req resp A} r k.
Arguments event {req} resp.
Arguments Ev {req resp} ev_req ev_resp.
Arguments handler {req} resp S.
Arguments call {req resp} r.

(** A [calls_only] goal, call by call and test by test. *)
Ltac calls_step :=
  match goal with
  | |- calls_only _ (Ret _) => exact I
  | |- calls_only _ (mret _) => exact I
  | |- calls_only _ (call _ ≫= _) => apply calls_only_call; [try done|intros ?]
  | |- calls_only _ (call _) => split; [try done|intros ?; exact I]
  | |- calls_only _ (_ ≫= _) => apply calls_only_bind; [|intros ?]
  | |- calls_only _ (match ?x with _ => _ end) => destruct x
  end.

(** Symbolic execution of a [sat] goal: introduce each response and split each
    test until a trace and a result are left. *)
Ltac sat_step :=
  match goal with
  | |- sat (Ret _) _ => cbn [sat]
  | |- sat (Vis _ _) _ => cbn [sat]; intros ?
  | |- sat (_ ≫= _) _ => apply sat_bind
  | |- sat (if ?b then _ else _) _ => destruct b eqn:?
  | |- sat (match ?x with _ => _ end) _ => destruct x eqn:?
  end.
