(* ===== verification/Errors.v ===== *)
(** * Errors (src/tnats/error.go, mapKVError of src/tnats/kv_operations.go)

    Go errors are interface values, so their carrier is abstract: [ErrorModel]
    lists the operations of package [errors], of [fmt] and of the kernel's
    [xerr] package that the transport uses, and [ErrorLaws] what it relies on.
    [goerr] is a concrete instance (error trees) that satisfies the laws; the
    witnesses and the examples evaluate with it. *)

From S2P Require Import Prelude.

(** The error kinds of the kernel's taxonomy that the transport names. *)
Inductive Kind : Set :=
| KindBadRequest | KindUnauthorized | KindForbidden | KindNotFound | KindConflict
| KindTimeout | KindCanceled | KindTooManyRequests | KindUnavailable | KindInternal.

#[global] Instance Kind_eq_dec : EqDecision Kind.
Proof. solve_decision. Defined.

(** The sentinel errors the transport compares with [errors.Is]. *)
Inductive sentinel : Set :=
| context_Canceled | context_DeadlineExceeded | nats_ErrTimeout | nats_ErrDrainTimeout
| nats_ErrAsyncPublishTimeout | nats_ErrNoHeartbeat | nats_ErrNoResponders
| nats_ErrNoStreamResponse | nats_ErrFetchDisconnected | nats_ErrConnectionClosed
| nats_ErrConnectionDraining | nats_ErrConnectionReconnecting | nats_ErrDisconnected
| nats_ErrStaleConnection | nats_ErrNoServers | nats_ErrReconnectBufExceeded
| nats_ErrHeadersNotSupported | nats_ErrConsumerDeleted
| nats_ErrConsumerLeadershipChanged | nats_ErrSubscriptionClosed
| nats_ErrJetStreamPublisherClosed | nats_ErrConsumerMultipleFilterSubjectsNotSupported
| jetstream_ErrJetStreamNotEnabled | jetstream_ErrJetStreamNotEnabledForAccount
| jetstream_ErrConsumerMultipleFilterSubjectsNotSupported | nats_ErrAuthorization
| nats_ErrAuthExpired | nats_ErrAuthRevoked | nats_ErrAccountAuthExpired
| nats_ErrPermissionViolation | nats_ErrMaxConnectionsExceeded
| nats_ErrMaxAccountConnectionsExceeded | nats_ErrMaxSubscriptionsExceeded
| nats_ErrSlowConsumer | jetstream_ErrTooManyStalledMsgs | nats_ErrStreamNotFound
| nats_ErrConsumerNotFound | nats_ErrMsgNotFound | nats_ErrNoMatchingStream
| nats_ErrBucketNotFound | nats_ErrKeyNotFound | nats_ErrObjectNotFound
| jetstream_ErrStreamNotFound | jetstream_ErrConsumerNotFound
| jetstream_ErrMsgNotFound | jetstream_ErrBucketNotFound | jetstream_ErrKeyNotFound
| jetstream_ErrKeyDeleted | jetstream_ErrNoKeysFound | jetstream_ErrObjectNotFound
| jetstream_ErrNoObjectsFound | nats_ErrStreamNameAlreadyInUse
| nats_ErrConsumerNameAlreadyInUse | nats_ErrMsgAlreadyAckd | nats_ErrKeyExists
| nats_ErrKeyRevisionMismatch | jetstream_ErrStreamNameAlreadyInUse
| jetstream_ErrConsumerExists | jetstream_ErrKeyExists
| jetstream_ErrKeyRevisionMismatch | jetstream_ErrBucketExists | nats_ErrMaxPayload
| nats_ErrBadSubject | nats_ErrBadQueueName | nats_ErrInvalidArg | nats_ErrInvalidMsg
| nats_ErrBadTimeout | nats_ErrInvalidContext | nats_ErrNoDeadlineContext
| nats_ErrBadHeaderMsg | nats_ErrMsgNoReply | nats_ErrMsgNotBound
| nats_ErrContextAndTimeout | nats_ErrInvalidStreamName | nats_ErrInvalidConsumerName
| nats_ErrInvalidFilterSubject | nats_ErrSubjectMismatch | nats_ErrStreamConfigRequired
| nats_ErrStreamNameRequired | nats_ErrConsumerNameRequired
| nats_ErrConsumerConfigRequired | jetstream_ErrInvalidBucketName
| jetstream_ErrInvalidKey | jetstream_ErrBadBucket | jetstream_ErrBadObjectMeta
| jetstream_ErrInvalidStoreName | jetstream_ErrObjectConfigRequired
| nats_ErrKeyDeleted | io_EOF.

Definition all_sentinels : list sentinel :=
  [context_Canceled; context_DeadlineExceeded; nats_ErrTimeout; nats_ErrDrainTimeout;
   nats_ErrAsyncPublishTimeout; nats_ErrNoHeartbeat; nats_ErrNoResponders;
   nats_ErrNoStreamResponse; nats_ErrFetchDisconnected; nats_ErrConnectionClosed;
   nats_ErrConnectionDraining; nats_ErrConnectionReconnecting; nats_ErrDisconnected;
   nats_ErrStaleConnection; nats_ErrNoServers; nats_ErrReconnectBufExceeded;
   nats_ErrHeadersNotSupported; nats_ErrConsumerDeleted;
   nats_ErrConsumerLeadershipChanged; nats_ErrSubscriptionClosed;
   nats_ErrJetStreamPublisherClosed;
   nats_ErrConsumerMultipleFilterSubjectsNotSupported;
   jetstream_ErrJetStreamNotEnabled; jetstream_ErrJetStreamNotEnabledForAccount;
   jetstream_ErrConsumerMultipleFilterSubjectsNotSupported; nats_ErrAuthorization;
   nats_ErrAuthExpired; nats_ErrAuthRevoked; nats_ErrAccountAuthExpired;
   nats_ErrPermissionViolation; nats_ErrMaxConnectionsExceeded;
   nats_ErrMaxAccountConnectionsExceeded; nats_ErrMaxSubscriptionsExceeded;
   nats_ErrSlowConsumer; jetstream_ErrTooManyStalledMsgs; nats_ErrStreamNotFound;
   nats_ErrConsumerNotFound; nats_ErrMsgNotFound; nats_ErrNoMatchingStream;
   nats_ErrBucketNotFound; nats_ErrKeyNotFound; nats_ErrObjectNotFound;
   jetstream_ErrStreamNotFound; jetstream_ErrConsumerNotFound;
   jetstream_ErrMsgNotFound; jetstream_ErrBucketNotFound; jetstream_ErrKeyNotFound;
   jetstream_ErrKeyDeleted; jetstream_ErrNoKeysFound; jetstream_ErrObjectNotFound;
   jetstream_ErrNoObjectsFound; nats_ErrStreamNameAlreadyInUse;
   nats_ErrConsumerNameAlreadyInUse; nats_ErrMsgAlreadyAckd; nats_ErrKeyExists;
   nats_ErrKeyRevisionMismatch; jetstream_ErrStreamNameAlreadyInUse;
   jetstream_ErrConsumerExists; jetstream_ErrKeyExists;
   jetstream_ErrKeyRevisionMismatch; jetstream_ErrBucketExists; nats_ErrMaxPayload;
   nats_ErrBadSubject; nats_ErrBadQueueName; nats_ErrInvalidArg; nats_ErrInvalidMsg;
   nats_ErrBadTimeout; nats_ErrInvalidContext; nats_ErrNoDeadlineContext;
   nats_ErrBadHeaderMsg; nats_ErrMsgNoReply; nats_ErrMsgNotBound;
   nats_ErrContextAndTimeout; nats_ErrInvalidStreamName; nats_ErrInvalidConsumerName;
   nats_ErrInvalidFilterSubject; nats_ErrSubjectMismatch; nats_ErrStreamConfigRequired;
   nats_ErrStreamNameRequired; nats_ErrConsumerNameRequired;
   nats_ErrConsumerConfigRequired; jetstream_ErrInvalidBucketName;
   jetstream_ErrInvalidKey; jetstream_ErrBadBucket; jetstream_ErrBadObjectMeta;
   jetstream_ErrInvalidStoreName; jetstream_ErrObjectConfigRequired;
   nats_ErrKeyDeleted; io_EOF].

(** The position of a sentinel in [all_sentinels], its decidable equality. *)
Definition sentinel_code (s : sentinel) : nat :=
  match s with
  | context_Canceled => 0
  | context_DeadlineExceeded => 1
  | nats_ErrTimeout => 2
  | nats_ErrDrainTimeout => 3
  | nats_ErrAsyncPublishTimeout => 4
  | nats_ErrNoHeartbeat => 5
  | nats_ErrNoResponders => 6
  | nats_ErrNoStreamResponse => 7
  | nats_ErrFetchDisconnected => 8
  | nats_ErrConnectionClosed => 9
  | nats_ErrConnectionDraining => 10
  | nats_ErrConnectionReconnecting => 11
  | nats_ErrDisconnected => 12
  | nats_ErrStaleConnection => 13
  | nats_ErrNoServers => 14
  | nats_ErrReconnectBufExceeded => 15
  | nats_ErrHeadersNotSupported => 16
  | nats_ErrConsumerDeleted => 17
  | nats_ErrConsumerLeadershipChanged => 18
  | nats_ErrSubscriptionClosed => 19
  | nats_ErrJetStreamPublisherClosed => 20
  | nats_ErrConsumerMultipleFilterSubjectsNotSupported => 21
  | jetstream_ErrJetStreamNotEnabled => 22
  | jetstream_ErrJetStreamNotEnabledForAccount => 23
  | jetstream_ErrConsumerMultipleFilterSubjectsNotSupported => 24
  | nats_ErrAuthorization => 25
  | nats_ErrAuthExpired => 26
  | nats_ErrAuthRevoked => 27
  | nats_ErrAccountAuthExpired => 28
  | nats_ErrPermissionViolation => 29
  | nats_ErrMaxConnectionsExceeded => 30
  | nats_ErrMaxAccountConnectionsExceeded => 31
  | nats_ErrMaxSubscriptionsExceeded => 32
  | nats_ErrSlowConsumer => 33
  | jetstream_ErrTooManyStalledMsgs => 34
  | nats_ErrStreamNotFound => 35
  | nats_ErrConsumerNotFound => 36
  | nats_ErrMsgNotFound => 37
  | nats_ErrNoMatchingStream => 38
  | nats_ErrBucketNotFound => 39
  | nats_ErrKeyNotFound => 40
  | nats_ErrObjectNotFound => 41
  | jetstream_ErrStreamNotFound => 42
  | jetstream_ErrConsumerNotFound => 43
  | jetstream_ErrMsgNotFound => 44
  | jetstream_ErrBucketNotFound => 45
  | jetstream_ErrKeyNotFound => 46
  | jetstream_ErrKeyDeleted => 47
  | jetstream_ErrNoKeysFound => 48
  | jetstream_ErrObjectNotFound => 49
  | jetstream_ErrNoObjectsFound => 50
  | nats_ErrStreamNameAlreadyInUse => 51
  | nats_ErrConsumerNameAlreadyInUse => 52
  | nats_ErrMsgAlreadyAckd => 53
  | nats_ErrKeyExists => 54
  | nats_ErrKeyRevisionMismatch => 55
  | jetstream_ErrStreamNameAlreadyInUse => 56
  | jetstream_ErrConsumerExists => 57
  | jetstream_ErrKeyExists => 58
  | jetstream_ErrKeyRevisionMismatch => 59
  | jetstream_ErrBucketExists => 60
  | nats_ErrMaxPayload => 61
  | nats_ErrBadSubject => 62
  | nats_ErrBadQueueName => 63
  | nats_ErrInvalidArg => 64
  | nats_ErrInvalidMsg => 65
  | nats_ErrBadTimeout => 66
  | nats_ErrInvalidContext => 67
  | nats_ErrNoDeadlineContext => 68
  | nats_ErrBadHeaderMsg => 69
  | nats_ErrMsgNoReply => 70
  | nats_ErrMsgNotBound => 71
  | nats_ErrContextAndTimeout => 72
  | nats_ErrInvalidStreamName => 73
  | nats_ErrInvalidConsumerName => 74
  | nats_ErrInvalidFilterSubject => 75
  | nats_ErrSubjectMismatch => 76
  | nats_ErrStreamConfigRequired => 77
  | nats_ErrStreamNameRequired => 78
  | nats_ErrConsumerNameRequired => 79
  | nats_ErrConsumerConfigRequired => 80
  | jetstream_ErrInvalidBucketName => 81
  | jetstream_ErrInvalidKey => 82
  | jetstream_ErrBadBucket => 83
  | jetstream_ErrBadObjectMeta => 84
  | jetstream_ErrInvalidStoreName => 85
  | jetstream_ErrObjectConfigRequired => 86
  | nats_ErrKeyDeleted => 87
  | io_EOF => 88
  end.

Lemma sentinel_code_spec s : all_sentinels !! sentinel_code s = Some s.
Proof. by destruct s. Qed.

#[global] Instance sentinel_code_inj : Inj (=) (=) sentinel_code.
Proof.
  intros s1 s2 H. pose proof (sentinel_code_spec s1) as H1. rewrite H in H1.
  rewrite sentinel_code_spec in H1. by simplify_eq.
Qed.

#[global] Instance sentinel_eq_dec : EqDecision sentinel.
Proof.
  intros s1 s2. destruct (decide (sentinel_code s1 = sentinel_code s2)) as [H|H].
  - left. by apply (inj sentinel_code).
  - right. by intros ->.
Defined.

(** ** The operations on errors *)
Class ErrorModel := {
  error : Type;
  sentinel_error : sentinel → error;
  errors_New : string → error;                     (* errors.New *)
  errors_Is : error → sentinel → bool;             (* errors.Is(err, sentinel) *)
  errors_AsAppError : error → option error;        (* errors.AsType[*xerr.AppError] *)
  fmt_Errorf_w : string → error → error;           (* fmt.Errorf("<msg>: %w", err) *)
  errors_Join : error → option error → error;      (* errors.Join, the first not nil *)
  xerr_new : Kind → string → option error → error; (* xerr.BadRequest(msg, cause...) *)
  xerr_KindFrom : error → Kind;                    (* xerr.KindFrom *)
  error_Error : error → string;                    (* err.Error() *)
  (* errors.AsType[nats.JetStreamError], then APIError(): the code, if any *)
  as_nats_JetStreamError : error → option (option Z);
  as_jetstream_JetStreamError : error → option (option Z);
  (* errors.As(err, &interface{ RetryAfter() time.Duration }) *)
  as_RetryAfter : error → option Z;
  strconv_Quote : string → string                  (* the verb %q *)
}.

(** What the classification relies on: an [AppError] is found by [errors.As],
    carries the kind of its constructor and wraps its cause. *)
Class ErrorLaws (EM : ErrorModel) : Prop := {
  as_new k m c : errors_AsAppError (xerr_new k m c) = Some (xerr_new k m c);
  as_idem e a : errors_AsAppError e = Some a → errors_AsAppError a = Some a;
  kind_new k m c : xerr_KindFrom (xerr_new k m c) = k;
  is_cause k m c s : errors_Is c s = true → errors_Is (xerr_new k m (Some c)) s = true;
  is_sentinel s : errors_Is (sentinel_error s) s = true
}.

Section MapError.
Context {EM : ErrorModel}.

(** The cases of the switch of MapError, in order. *)
Definition mapErrorCases : list (list sentinel * Kind * string) :=
  [
   ([context_Canceled],
    KindCanceled, "nats: operation canceled");
   ([context_DeadlineExceeded; nats_ErrTimeout; nats_ErrDrainTimeout;
     nats_ErrAsyncPublishTimeout; nats_ErrNoHeartbeat],
    KindTimeout, "nats: operation timed out");
   ([nats_ErrNoResponders],
    KindUnavailable, "nats: no responder is subscribed to the request subject");
   ([nats_ErrNoStreamResponse; nats_ErrFetchDisconnected; nats_ErrConnectionClosed;
     nats_ErrConnectionDraining; nats_ErrConnectionReconnecting; nats_ErrDisconnected;
     nats_ErrStaleConnection; nats_ErrNoServers; nats_ErrReconnectBufExceeded;
     nats_ErrHeadersNotSupported; nats_ErrConsumerDeleted;
     nats_ErrConsumerLeadershipChanged; nats_ErrSubscriptionClosed;
     nats_ErrJetStreamPublisherClosed;
     nats_ErrConsumerMultipleFilterSubjectsNotSupported;
     jetstream_ErrJetStreamNotEnabled; jetstream_ErrJetStreamNotEnabledForAccount;
     jetstream_ErrConsumerMultipleFilterSubjectsNotSupported],
    KindUnavailable, "nats: service or required server capability is unavailable");
   ([nats_ErrAuthorization; nats_ErrAuthExpired; nats_ErrAuthRevoked;
     nats_ErrAccountAuthExpired],
    KindUnauthorized, "nats: authentication failed");
   ([nats_ErrPermissionViolation],
    KindForbidden, "nats: permission denied");
   ([nats_ErrMaxConnectionsExceeded; nats_ErrMaxAccountConnectionsExceeded;
     nats_ErrMaxSubscriptionsExceeded; nats_ErrSlowConsumer;
     jetstream_ErrTooManyStalledMsgs],
    KindTooManyRequests, "nats: server or client resource limit reached");
   ([nats_ErrStreamNotFound; nats_ErrConsumerNotFound; nats_ErrMsgNotFound;
     nats_ErrNoMatchingStream; nats_ErrBucketNotFound; nats_ErrKeyNotFound;
     nats_ErrObjectNotFound; jetstream_ErrStreamNotFound;
     jetstream_ErrConsumerNotFound; jetstream_ErrMsgNotFound;
     jetstream_ErrBucketNotFound; jetstream_ErrKeyNotFound; jetstream_ErrKeyDeleted;
     jetstream_ErrNoKeysFound; jetstream_ErrObjectNotFound; jetstream_ErrNoObjectsFound],
    KindNotFound, "nats: requested stream, consumer, key, or object was not found");
   ([nats_ErrStreamNameAlreadyInUse; nats_ErrConsumerNameAlreadyInUse;
     nats_ErrMsgAlreadyAckd; nats_ErrKeyExists; nats_ErrKeyRevisionMismatch;
     jetstream_ErrStreamNameAlreadyInUse; jetstream_ErrConsumerExists;
     jetstream_ErrKeyExists; jetstream_ErrKeyRevisionMismatch;
     jetstream_ErrBucketExists],
    KindConflict, "nats: resource already exists or its revision changed");
   ([nats_ErrMaxPayload; nats_ErrBadSubject; nats_ErrBadQueueName; nats_ErrInvalidArg;
     nats_ErrInvalidMsg; nats_ErrBadTimeout; nats_ErrInvalidContext;
     nats_ErrNoDeadlineContext; nats_ErrBadHeaderMsg; nats_ErrMsgNoReply;
     nats_ErrMsgNotBound; nats_ErrContextAndTimeout; nats_ErrInvalidStreamName;
     nats_ErrInvalidConsumerName; nats_ErrInvalidFilterSubject;
     nats_ErrSubjectMismatch; nats_ErrStreamConfigRequired; nats_ErrStreamNameRequired;
     nats_ErrConsumerNameRequired; nats_ErrConsumerConfigRequired;
     jetstream_ErrInvalidBucketName; jetstream_ErrInvalidKey; jetstream_ErrBadBucket;
     jetstream_ErrBadObjectMeta; jetstream_ErrInvalidStoreName;
     jetstream_ErrObjectConfigRequired],
    KindBadRequest, "nats: invalid request or resource configuration")
  ].

(** The first case one of whose sentinels the error is. *)
Fixpoint mapErrorSwitch (cs : list (list sentinel * Kind * string)) (err : error)
    : option (Kind * string) :=
  match cs with
  | [] => None
  | (ss, k, m) :: cs' =>
      if existsb (errors_Is err) ss then Some (k, m) else mapErrorSwitch cs' err
  end.

Definition mapAPIStatus (err : error) (status : Z) : option error :=
  if (status =? 400)%Z then Some (xerr_new KindBadRequest "nats: JetStream rejected the request" (Some err))
  else if (status =? 401)%Z then Some (xerr_new KindUnauthorized "nats: JetStream authentication failed" (Some err))
  else if (status =? 403)%Z then Some (xerr_new KindForbidden "nats: JetStream permission denied" (Some err))
  else if (status =? 404)%Z then Some (xerr_new KindNotFound "nats: JetStream resource was not found" (Some err))
  else if ((status =? 408)%Z || (status =? 504)%Z)%bool
       then Some (xerr_new KindTimeout "nats: JetStream request timed out" (Some err))
  else if (status =? 409)%Z then Some (xerr_new KindConflict "nats: JetStream resource conflict" (Some err))
  else if (status =? 429)%Z then Some (xerr_new KindTooManyRequests "nats: JetStream resource limit reached" (Some err))
  else if (status =? 503)%Z then Some (xerr_new KindUnavailable "nats: JetStream is unavailable" (Some err))
  else None.

Definition mapJetStreamAPIError (err : error) : option error :=
  match as_nats_JetStreamError err with
  | Some (Some code) => mapAPIStatus err code
  | _ =>
      match as_jetstream_JetStreamError err with
      | Some (Some code) => mapAPIStatus err code
      | _ => None
      end
  end.

(** MapError on a non-nil error. *)
Definition mapError (err : error) : error :=
  match errors_AsAppError err with
  | Some appErr => appErr
  | None =>
      match mapErrorSwitch mapErrorCases err with
      | Some (k, m) => xerr_new k m (Some err)
      | None =>
          match mapJetStreamAPIError err with
          | Some mapped => mapped
          | None => xerr_new KindInternal "nats: transport error" (Some err)
          end
      end
  end.

Definition MapError (err : option error) : option error :=
  match err with
  | None => None
  | Some e => Some (mapError e)
  end.

(** mapKVError of kv_operations.go, on a non-nil error and in general. *)
Definition mapKVErr (err : error) (bucket key : string) : error :=
  let q := strconv_Quote in
  if errors_Is err jetstream_ErrBucketNotFound then
    xerr_new KindNotFound ("nats kv: bucket " +:+ q bucket +:+ " not found") (Some err)
  else if errors_Is err jetstream_ErrKeyNotFound then
    xerr_new KindNotFound
      ("nats kv: key " +:+ q key +:+ " not found in bucket " +:+ q bucket) (Some err)
  else if errors_Is err jetstream_ErrKeyExists then
    xerr_new KindConflict
      ("nats kv: key " +:+ q key +:+ " already exists in bucket " +:+ q bucket) (Some err)
  else if errors_Is err jetstream_ErrKeyRevisionMismatch then
    xerr_new KindConflict
      ("nats kv: revision conflict for key " +:+ q key +:+ " in bucket " +:+ q bucket) (Some err)
  else if (errors_Is err jetstream_ErrInvalidKey || errors_Is err jetstream_ErrInvalidBucketName)%bool
  then xerr_new KindBadRequest "nats kv: invalid bucket or key" (Some err)
  else mapError err.

Definition mapKVError (err : option error) (bucket key : string) : option error :=
  match err with
  | None => None
  | Some e => Some (mapKVErr e bucket key)
  end.

(** ** Properties *)
Context {EL : ErrorLaws EM}.

Lemma mapErrorSwitch_none cs e :
  mapErrorSwitch cs e = None ↔ ∀ s, In s (concat (map (λ c, c.1.1) cs)) → errors_Is e s = false.
Proof.
  induction cs as [|[[ss k] m] cs IH]; simpl; [naive_solver|].
  destruct (existsb (errors_Is e) ss) eqn:E.
  - split; [done|]. intros H. apply existsb_exists in E as (s & Hs & E).
    rewrite H in E; [done|]. apply in_app_iff; auto.
  - rewrite IH. split; intros H s Hin.
    + apply in_app_iff in Hin as [Hin|Hin]; [|auto].
      destruct (errors_Is e s) eqn:Es; [|done].
      assert (existsb (errors_Is e) ss = true) by (apply existsb_exists; eauto). congruence.
    + apply H, in_app_iff. auto.
Qed.

(** The case that lists the only sentinel an error is. *)
Lemma mapErrorSwitch_single cs ss k m s e :
  NoDup (concat (map (λ c, c.1.1) cs)) → In (ss, k, m) cs → In s ss →
  (∀ s', errors_Is e s' = true ↔ s' = s) → mapErrorSwitch cs e = Some (k, m).
Proof.
  intros Hnd Hc Hs He. induction cs as [|[[ss1 k1] m1] cs IH]; [done|].
  simpl in *. apply NoDup_app in Hnd as (_ & Hdisj & Hnd).
  destruct Hc as [Hc|Hc].
  - simplify_eq. assert (existsb (errors_Is e) ss = true) as ->; [|done].
    apply existsb_exists. exists s. split; [done|]. by apply He.
  - destruct (existsb (errors_Is e) ss1) eqn:E; [|by auto].
    apply existsb_exists in E as (s' & Hs' & E). apply He in E as ->.
    exfalso. apply (Hdisj s); [by apply list_elem_of_In|].
    apply list_elem_of_In, in_concat. exists ss. split; [|done].
    apply in_map_iff. by exists (ss, k, m).
Qed.

Lemma mapErrorCases_nodup : NoDup (concat (map (λ c, c.1.1) mapErrorCases)).
Proof. by apply (bool_decide_eq_true_1 _). Qed.

Lemma mapAPIStatus_as e c a : mapAPIStatus e c = Some a → ∃ k m, a = xerr_new k m (Some e).
Proof. unfold mapAPIStatus. repeat case_match; intros; simplify_eq; eauto. Qed.

(** The result of MapError: the AppError found in the chain, or a new AppError
    that wraps the whole error. *)
Lemma mapError_shape e :
  errors_AsAppError e = Some (mapError e) ∨
  errors_AsAppError e = None ∧ ∃ k m, mapError e = xerr_new k m (Some e).
Proof.
  unfold mapError. destruct (errors_AsAppError e) as [a|]; [by left|]. right. split; [done|].
  destruct (mapErrorSwitch _ e) as [[k m]|]; [by eauto|].
  destruct (mapJetStreamAPIError e) as [a|] eqn:E; [|by eauto].
  unfold mapJetStreamAPIError in E. repeat case_match; simplify_eq; by eapply mapAPIStatus_as.
Qed.
End MapError.

(** ** A concrete error model: error trees *)
Module GoErr.
Inductive goerr : Type :=
| ESentinel (s : sentinel)
| ENew (msg : string)
| EWrap (msg : string) (e : goerr)
| EJoin (e f : goerr)
| EApp (k : Kind) (msg : string)
| EAppWrap (k : Kind) (msg : string) (e : goerr)
| EApi (legacy : bool) (code : option Z)
| ERetry (d : Z).

Fixpoint go_is (e : goerr) (s : sentinel) : bool :=
  match e with
  | ESentinel s' => bool_decide (s' = s)
  | EWrap _ e' | EAppWrap _ _ e' => go_is e' s
  | EJoin e f => (go_is e s || go_is f s)%bool
  | _ => false
  end.

Fixpoint as_app (e : goerr) : option goerr :=
  match e with
  | EApp _ _ | EAppWrap _ _ _ => Some e
  | EWrap _ e' => as_app e'
  | EJoin e f => match as_app e with Some a => Some a | None => as_app f end
  | _ => None
  end.

Fixpoint as_api (legacy : bool) (e : goerr) : option (option Z) :=
  match e with
  | EApi l c => if Bool.eqb l legacy then Some c else None
  | EWrap _ e' | EAppWrap _ _ e' => as_api legacy e'
  | EJoin e f => match as_api legacy e with Some c => Some c | None => as_api legacy f end
  | _ => None
  end.

Fixpoint retry (e : goerr) : option Z :=
  match e with
  | ERetry d => Some d
  | EWrap _ e' | EAppWrap _ _ e' => retry e'
  | EJoin e f => match retry e with Some d => Some d | None => retry f end
  | _ => None
  end.

Fixpoint message (e : goerr) : string :=
  match e with
  | ESentinel _ => "sentinel"
  | ENew m | EApp _ m => m
  | EWrap m e' | EAppWrap _ m e' => m +:+ ": " +:+ message e'
  | EJoin e f => message e +:+ "; " +:+ message f
  | EApi _ _ => "api error"
  | ERetry _ => "retry later"
  end.

#[export] Instance model : ErrorModel := {|
  error := goerr;
  sentinel_error := ESentinel;
  errors_New := ENew;
  errors_Is := go_is;
  errors_AsAppError := as_app;
  fmt_Errorf_w := EWrap;
  errors_Join e c := match c with Some f => EJoin e f | None => EWrap "" e end;
  xerr_new k m c := match c with Some e => EAppWrap k m e | None => EApp k m end;
  xerr_KindFrom e :=
    match as_app e with
    | Some (EApp k _) | Some (EAppWrap k _ _) => k
    | _ => KindInternal
    end;
  error_Error := message;
  as_nats_JetStreamError := as_api true;
  as_jetstream_JetStreamError := as_api false;
  as_RetryAfter := retry;
  strconv_Quote s := String (Ascii.ascii_of_nat 34) s +:+ String (Ascii.ascii_of_nat 34) ""
|}.

#[export] Instance laws : ErrorLaws model.
Proof.
  split; simpl.
  - by intros k m [].
  - intros e a. induction e as [| | |e IHe f IHf| | | |]; simpl; intros; simplify_eq; eauto.
    destruct (as_app e); simplify_eq; eauto.
  - by intros k m [].
  - by intros k m c s.
  - intros s. by apply bool_decide_eq_true.
Qed.
End GoErr.

(** ** Theorems *)
Section Theorems.
Context {EM : ErrorModel} {EL : ErrorLaws EM}.

(** C21: MapError is idempotent, keeps nil, never turns an error into nil, and
    keeps the cause: an error that is not yet classified still is every sentinel
    it was, so callers can go on testing the mapped error with errors.Is. *)
Theorem MapError_idempotent_keeps_cause (err : option error) :
  MapError (MapError err) = MapError err ∧
  (MapError err = None ↔ err = None) ∧
  (∀ e s, err = Some e → errors_AsAppError e = None → errors_Is e s = true →
     ∃ e', MapError err = Some e' ∧ errors_Is e' s = true).
Proof.
  destruct err as [e|]; [|naive_solver]. simpl.
  destruct (mapError_shape e) as [Ha|(Ha & k & m & Hm)].
  - repeat split; [|done..|]; [|intros; simplify_eq; congruence].
    f_equal. unfold mapError at 1. by rewrite (as_idem _ _ Ha).
  - repeat split; [|done..|].
    + rewrite Hm. f_equal. unfold mapError at 1. by rewrite as_new.
    + intros e' s ? _ His. simplify_eq. rewrite Hm. eauto using is_cause.
Qed.

(** MapError classifies each known sentinel by the one case of its switch
    that lists it: the cases are disjoint, so the classification of a single
    broker error does not depend on their order. *)
Theorem MapError_classifies ss k m s e :
  In (ss, k, m) mapErrorCases → In s ss → errors_AsAppError e = None →
  (∀ s', errors_Is e s' = true ↔ s' = s) →
  MapError (Some e) = Some (xerr_new k m (Some e)) ∧ xerr_KindFrom (mapError e) = k.
Proof.
  intros Hc Hs Ha Hi.
  assert (mapError e = xerr_new k m (Some e)) as Heq.
  { unfold mapError. rewrite Ha.
    by rewrite (mapErrorSwitch_single _ ss k m s e mapErrorCases_nodup). }
  simpl. rewrite Heq. split; [done|apply kind_new].
Qed.
End Theorems.

Section Witnesses.
Import GoErr.

Lemma MapError_classifies_witness :
  MapError (Some (GoErr.EWrap "upstream" (GoErr.ESentinel nats_ErrTimeout)) : option error)
  = Some (GoErr.EAppWrap KindTimeout "nats: operation timed out"
            (GoErr.EWrap "upstream" (GoErr.ESentinel nats_ErrTimeout)))
  ∧ xerr_KindFrom (mapError (GoErr.EWrap "upstream" (GoErr.ESentinel nats_ErrTimeout) : error))
    = KindTimeout.
Proof.
  apply (MapError_classifies (EM := GoErr.model)
    [context_DeadlineExceeded; nats_ErrTimeout; nats_ErrDrainTimeout;
     nats_ErrAsyncPublishTimeout; nats_ErrNoHeartbeat]
    KindTimeout "nats: operation timed out" nats_ErrTimeout
    (GoErr.EWrap "upstream" (GoErr.ESentinel nats_ErrTimeout))).
  - simpl. auto.
  - simpl. auto.
  - reflexivity.
  - intros s'. simpl. rewrite bool_decide_eq_true. split; congruence.
Defined.

Lemma MapError_idempotent_keeps_cause_witness :
  let e : error := GoErr.EWrap "upstream" (GoErr.ESentinel nats_ErrTimeout) in
  MapError (MapError (Some e)) = MapError (Some e) ∧
  ∃ e', MapError (Some e) = Some e' ∧ errors_Is e' nats_ErrTimeout = true.
Proof.
  pose proof (MapError_idempotent_keeps_cause (EM := GoErr.model)
    (Some (GoErr.EWrap "upstream" (GoErr.ESentinel nats_ErrTimeout)))) as (H1 & _ & H2).
  split; [exact H1|]. eapply H2; reflexivity.
Defined.
End Witnesses.
