(* ===== verification/Subjects.v ===== *)
(** * Subject wildcards (src/tnats/tnats_stream.go subjectPatternCovers,
      src/tnats/objectstore.go objectNameMatches)

    Both functions walk two dot-separated strings with index arithmetic.  They
    are modelled with the same indices over byte lists ([list ascii]), each
    `for` loop with a fuel that the lemmas below show to be enough, and related
    to token-list matchers: [covers_tokens] and [match_tokens].  [matches] is the
    documented meaning of NATS wildcards ('*' is one token, '>' one or more
    trailing tokens), against which both are judged. *)

From S2P Require Import Prelude.
From Stdlib Require Import Ascii.

Abbreviation byte_list := (list Ascii.ascii).
Definition bytes (s : string) : byte_list := String.list_ascii_of_string s.

Definition dot : Ascii.ascii := "."%char.
Definition star : byte_list := ["*"%char].
Definition gt : byte_list := [">"%char].

(** ** The code *)

(** for end < len(s) && s[end] != '.' { end++ } *)
Fixpoint scan_token (fuel : nat) (s : byte_list) (i : nat) : nat :=
  match fuel with
  | O => i
  | S f =>
      match s !! i with
      | Some c => if bool_decide (c = dot) then i else scan_token f s (S i)
      | None => i
      end
  end.

(** s[a:b] *)
Definition slice (s : byte_list) (a b : nat) : byte_list := take (b - a) (drop a s).

Fixpoint covers_loop (fuel : nat) (pattern subject : byte_list)
    (patternStart subjectStart : nat) : bool :=
  match fuel with
  | O => false
  | S f =>
      let patternEnd := scan_token (length pattern) pattern patternStart in
      let subjectEnd := scan_token (length subject) subject subjectStart in
      let patternToken := slice pattern patternStart patternEnd in
      if bool_decide (patternToken = gt) then subjectStart <? length subject
      else if ((length subject <=? subjectStart) ||
               (negb (bool_decide (patternToken = star)) &&
                negb (bool_decide (patternToken = slice subject subjectStart subjectEnd))))%bool
      then false
      else if ((patternEnd =? length pattern) || (subjectEnd =? length subject))%bool
      then ((patternEnd =? length pattern) && (subjectEnd =? length subject))%bool
      else covers_loop f pattern subject (S patternEnd) (S subjectEnd)
  end%nat.

Definition subjectPatternCovers (pattern subject : string) : bool :=
  if str_eqb pattern subject then true
  else covers_loop (S (String.length pattern)) (bytes pattern) (bytes subject) 0 0.

Fixpoint object_loop (fuel : nat) (name pattern : byte_list) (nIdx pIdx : nat) : bool :=
  let nLen := length name in
  let pLen := length pattern in
  match fuel with
  | O => false
  | S f =>
      if (pIdx <? pLen)%nat then
        let pEnd := scan_token pLen pattern pIdx in
        let pToken := slice pattern pIdx pEnd in
        if bool_decide (pToken = gt) then (nIdx <? nLen)%nat
        else if (nLen <=? nIdx)%nat then false
        else
          let nEnd := scan_token nLen name nIdx in
          let nToken := slice name nIdx nEnd in
          if (negb (bool_decide (pToken = star)) && negb (bool_decide (pToken = nToken)))%bool
          then false
          else object_loop f name pattern
                 (if (nEnd <? nLen)%nat then S nEnd else nLen)
                 (if (pEnd <? pLen)%nat then S pEnd else pLen)
      else ((nIdx =? nLen) && (pIdx =? pLen))%nat%bool
  end.

Definition objectNameMatches (name pattern : string) : bool :=
  if (str_empty pattern || str_eqb pattern ">")%bool then true
  else object_loop (S (String.length pattern)) (bytes name) (bytes pattern) 0 0.

(** ** Token lists *)

(** The tokens between the dots (a trailing dot leaves an empty last token). *)
Fixpoint split_dots (s : byte_list) : list byte_list :=
  match s with
  | [] => [[]]
  | c :: s' =>
      if bool_decide (c = dot) then [] :: split_dots s'
      else match split_dots s' with
           | [] => [[c]]
           | t :: ts => (c :: t) :: ts
           end
  end.

Definition tokens (s : string) : list byte_list := split_dots (bytes s).

(** The tokens of a string read until its end is reached, so that a trailing dot
    adds none. *)
Definition chunks (s : byte_list) : list byte_list :=
  match s with
  | [] => []
  | _ => let ts := split_dots s in
         match last ts with
         | Some [] => take (length ts - 1) ts
         | _ => ts
         end
  end.

(** The matcher subjectPatternCovers implements.  [ended ss] is the test
    subjectStart >= len(subject): nothing is left after the last dot. *)
Definition ended (ss : list byte_list) : bool := bool_decide (ss = [[]]).

Fixpoint covers_tokens (ps ss : list byte_list) : bool :=
  match ps, ss with
  | p :: ps', s :: ss' =>
      if bool_decide (p = gt) then negb (ended ss)
      else if ended ss then false
      else if (bool_decide (p = star) || bool_decide (p = s))%bool then
        match ps', ss' with
        | [], [] => true
        | [], _ | _, [] => false
        | _, _ => covers_tokens ps' ss'
        end
      else false
  | _, _ => false
  end.

(** The matcher objectNameMatches implements. *)
Fixpoint match_tokens (ps ns : list byte_list) : bool :=
  match ps, ns with
  | [], [] => true
  | [], _ => false
  | p :: ps', ns =>
      if bool_decide (p = gt) then negb (bool_decide (ns = []))
      else match ns with
           | [] => false
           | n :: ns' => (bool_decide (p = star) || bool_decide (p = n)) && match_tokens ps' ns'
           end
  end%bool.

(** ** The meaning of NATS wildcards *)
Inductive matches : list byte_list → list byte_list → Prop :=
| matches_nil : matches [] []
| matches_token t p s : t ≠ gt → t ≠ star → matches p s → matches (t :: p) (t :: s)
| matches_star t p s : matches p s → matches (star :: p) (t :: s)
| matches_rest t s : matches [gt] (t :: s).

(** ** The loops read tokens *)
Lemma length_bytes s : length (String.list_ascii_of_string s) = String.length s.
Proof. induction s; simpl; congruence. Qed.

(** The longest dot-free prefix. *)
Fixpoint tok (s : byte_list) : byte_list :=
  match s with
  | [] => []
  | c :: s' => if bool_decide (c = dot) then [] else c :: tok s'
  end.

Lemma split_dots_tok s :
  split_dots s =
  tok s :: (if decide (length (tok s) = length s) then []
            else split_dots (drop (S (length (tok s))) s)).
Proof.
  induction s as [|c s IH]; [done|]. simpl. case_bool_decide as Hc; simpl.
  - done.
  - rewrite IH. simpl. f_equal. repeat case_decide; auto; lia.
Qed.

Lemma tok_take s : take (length (tok s)) s = tok s.
Proof. induction s as [|c s IH]; simpl; [done|]. case_bool_decide; simpl; congruence. Qed.

Lemma tok_length s : length (tok s) ≤ length s.
Proof. rewrite <- (tok_take s) at 1. rewrite length_take. lia. Qed.

Lemma split_dots_nonnil s : split_dots s ≠ [].
Proof. rewrite split_dots_tok. done. Qed.

(** Expose the head of a [split_dots]. *)
Ltac split_nonnil :=
  match goal with
  | |- context [match split_dots ?x with _ => _ end] =>
      let E := fresh "E" in
      destruct (split_dots x) eqn:E; [by destruct (split_dots_nonnil _ E)|]
  end.

Lemma split_dots_ended s : ended (split_dots s) = bool_decide (s = []).
Proof.
  unfold ended. apply bool_decide_ext. split; [|by intros ->].
  rewrite split_dots_tok. pose proof (tok_length s). intros H'. injection H' as Ht Hr.
  destruct (decide _) as [E|E] in Hr.
  - rewrite Ht in E. destruct s; done.
  - by destruct (split_dots_nonnil _ Hr).
Qed.

Lemma scan_token_spec fuel s i :
  length s - i ≤ fuel → scan_token fuel s i = i + length (tok (drop i s)).
Proof.
  revert i. induction fuel as [|f IH]; intros i Hf; simpl.
  - rewrite drop_ge by lia. simpl. lia.
  - destruct (s !! i) as [c|] eqn:E.
    + rewrite (drop_S _ _ _ E). simpl. case_bool_decide; simpl; [lia|].
      rewrite IH; [|lia]. lia.
    + apply lookup_ge_None in E. rewrite drop_ge by done. simpl. lia.
Qed.

Lemma slice_tok s i : slice s i (i + length (tok (drop i s))) = tok (drop i s).
Proof.
  unfold slice. replace (i + length (tok (drop i s)) - i) with (length (tok (drop i s))) by lia.
  apply tok_take.
Qed.

Lemma covers_loop_spec fuel p s i j :
  i ≤ length p → j ≤ length s → length p - i < fuel →
  covers_loop fuel p s i j = covers_tokens (split_dots (drop i p)) (split_dots (drop j s)).
Proof.
  revert i j. induction fuel as [|f IH]; intros i j Hi Hj Hf; [lia|].
  cbn [covers_loop]. rewrite !scan_token_spec by lia. rewrite !slice_tok.
  pose proof (length_drop p i) as Lp. pose proof (length_drop s j) as Ls.
  pose proof (tok_length (drop i p)) as Tp. pose proof (tok_length (drop j s)) as Ts.
  assert (ended (split_dots (drop j s)) = (length s <=? j)%nat) as He.
  { rewrite split_dots_ended. destruct (Nat.leb_spec (length s) j).
    - rewrite bool_decide_eq_true_2; [done|]. apply nil_length_inv. lia.
    - rewrite bool_decide_eq_false_2; [done|]. intros E. rewrite E in Ls. simpl in Ls. lia. }
  rewrite (split_dots_tok (drop i p)). rewrite (split_dots_tok (drop j s)) in He |- *.
  cbn [covers_tokens]. case_bool_decide as Hgt.
  { rewrite He, Nat.leb_antisym, negb_involutive. done. }
  rewrite He. destruct (Nat.leb_spec (length s) j) as [Hend|Hend]; [done|].
  assert ((i + length (tok (drop i p)) =? length p) = bool_decide (length (tok (drop i p)) = length (drop i p)))%nat as ->.
  { case_bool_decide; [apply Nat.eqb_eq|apply Nat.eqb_neq]; lia. }
  assert ((j + length (tok (drop j s)) =? length s) = bool_decide (length (tok (drop j s)) = length (drop j s)))%nat as ->.
  { case_bool_decide; [apply Nat.eqb_eq|apply Nat.eqb_neq]; lia. }
  rewrite orb_false_l, <- negb_orb.
  destruct (bool_decide (tok (drop i p) = star) || bool_decide (tok (drop i p) = tok (drop j s)))%bool;
    [|done]. simpl.
  repeat case_decide; repeat case_bool_decide; try done; simpl; try (by split_nonnil).
  rewrite IH by lia. rewrite !drop_drop, !Nat.add_succ_r.
  split_nonnil. by split_nonnil.
Qed.

(** subjectPatternCovers is the token matcher: the index loops always find the
    answer within their fuel. *)
Lemma subjectPatternCovers_tokens pattern subject :
  subjectPatternCovers pattern subject =
  (str_eqb pattern subject || covers_tokens (tokens pattern) (tokens subject))%bool.
Proof.
  unfold subjectPatternCovers, tokens. destruct (str_eqb pattern subject); [done|]. simpl orb.
  rewrite covers_loop_spec; rewrite ?drop_0; [done|lia..|].
  unfold bytes. rewrite length_bytes. lia.
Qed.

Lemma chunks_unfold s :
  chunks s = match s with [] => [] | _ => tok s :: chunks (drop (S (length (tok s))) s) end.
Proof.
  destruct s as [|c s]; [done|]. unfold chunks at 1.
  rewrite split_dots_tok. remember (c :: s) as l eqn:El.
  case_decide as Hlen.
  - rewrite drop_ge by lia. simpl.
    assert (tok l = l) as -> by (rewrite <- tok_take, Hlen; by rewrite take_ge).
    by subst.
  - set (r := drop (S (length (tok l))) l).
    assert (last (tok l :: split_dots r) = last (split_dots r)) as ->.
    { destruct (split_dots r) eqn:E; [by destruct (split_dots_nonnil _ E)|done]. }
    unfold chunks. destruct r as [|c' r'] eqn:Er; [done|].
    pose proof (split_dots_nonnil (c' :: r')) as Hn.
    destruct (last (split_dots (c' :: r'))) as [[|]|]; [|done..].
    destruct (split_dots (c' :: r')) as [|t ts]; [done|]. simpl. by rewrite Nat.sub_0_r.
Qed.

Lemma chunks_nil s : chunks s = [] ↔ s = [].
Proof. rewrite chunks_unfold. by destruct s. Qed.

Lemma chunks_drop_nil k (l : byte_list) :
  k ≤ length l → chunks (drop k l) = [] ↔ length l ≤ k.
Proof. intros Hk. rewrite chunks_nil, <- length_zero_iff_nil, length_drop. lia. Qed.

(** The index where the next token starts, as objectNameMatches computes it. *)
Lemma chunks_next k (l : byte_list) :
  k + length (tok (drop k l)) ≤ length l →
  chunks (drop (if (k + length (tok (drop k l)) <? length l)%nat
                then S (k + length (tok (drop k l))) else length l) l)
  = chunks (drop (S (length (tok (drop k l)))) (drop k l)).
Proof.
  intros Hk. rewrite drop_drop, Nat.add_succ_r.
  destruct (Nat.ltb_spec (k + length (tok (drop k l))) (length l)); [done|].
  rewrite !drop_ge by lia. done.
Qed.

Lemma chunks_cons k (l : byte_list) :
  k < length l →
  chunks (drop k l) = tok (drop k l) :: chunks (drop (S (length (tok (drop k l)))) (drop k l)).
Proof.
  intros Hk. rewrite chunks_unfold at 1. destruct (drop k l) eqn:E; [|done].
  apply (f_equal length) in E. rewrite length_drop in E. simpl in E. lia.
Qed.

Lemma object_loop_spec fuel n p i j :
  i ≤ length n → j ≤ length p → length p - j < fuel →
  object_loop fuel n p i j = match_tokens (chunks (drop j p)) (chunks (drop i n)).
Proof.
  revert i j. induction fuel as [|f IH]; intros i j Hi Hj Hf; [lia|]. cbn [object_loop].
  pose proof (length_drop p j) as Lp. pose proof (length_drop n i) as Ln.
  destruct (Nat.ltb_spec j (length p)) as [Hlt|Hge].
  - rewrite (chunks_cons j p Hlt). cbn [match_tokens].
    rewrite !scan_token_spec by lia. rewrite !slice_tok.
    pose proof (tok_length (drop j p)). pose proof (tok_length (drop i n)).
    case_bool_decide as Hgt.
    { destruct (Nat.ltb_spec i (length n)); symmetry;
        [apply negb_true_iff, bool_decide_eq_false_2|apply negb_false_iff, bool_decide_eq_true_2];
        rewrite chunks_drop_nil; lia. }
    destruct (Nat.leb_spec (length n) i) as [Hen|Hen].
    { rewrite (proj2 (chunks_drop_nil i n Hi)) by lia. done. }
    rewrite (chunks_cons i n Hen), <- negb_orb.
    destruct (bool_decide (tok (drop j p) = star) || bool_decide (tok (drop j p) = tok (drop i n)))%bool;
      [|done]. simpl negb. cbv iota. rewrite andb_true_l.
    rewrite IH; [by rewrite !chunks_next by lia|..];
      repeat match goal with |- context [Nat.ltb ?a ?b] => destruct (Nat.ltb_spec a b) end; lia.
  - rewrite (drop_ge p j) by lia. simpl.
    destruct (chunks (drop i n)) as [|t ts] eqn:E.
    + apply chunks_drop_nil in E; [|done]. apply andb_true_intro. split; apply Nat.eqb_eq; lia.
    + apply andb_false_iff. left. apply Nat.eqb_neq. intros ->.
      rewrite drop_ge in E by lia. done.
Qed.

(** objectNameMatches is the token matcher on the chunks. *)
Lemma objectNameMatches_tokens name pattern :
  pattern ≠ "" → pattern ≠ ">" →
  objectNameMatches name pattern = match_tokens (chunks (bytes pattern)) (chunks (bytes name)).
Proof.
  intros H1 H2. unfold objectNameMatches.
  rewrite (proj2 (str_empty_false _) H1), (proj2 (str_eqb_neq _ _) H2). simpl orb. cbv iota.
  rewrite object_loop_spec; rewrite ?drop_0; [done|lia..|].
  unfold bytes. rewrite length_bytes. lia.
Qed.

(** ** Well-formed subjects and patterns *)

(** No empty token. *)
Definition valid_subject (s : string) : Prop := Forall (λ t, t ≠ []) (tokens s).
(** No '>' token: the subject or filter names subjects of one length. *)
Definition no_gt (s : string) : Prop := gt ∉ tokens s.
(** The token '>' occurs last only. *)
Fixpoint gt_last (ps : list byte_list) : Prop :=
  match ps with
  | [] => True
  | p :: ps' => (p = gt → ps' = []) ∧ gt_last ps'
  end.
(** The subject of a message: no empty token and no wildcard. *)
Definition concrete (cs : list byte_list) : Prop :=
  Forall (λ t, t ≠ [] ∧ t ≠ star ∧ t ≠ gt) cs.

Lemma not_ended t ts : t ≠ [] → ended (t :: ts) = false.
Proof. intros H. apply bool_decide_eq_false_2. congruence. Qed.

Lemma covers_tokens_sound ps ss :
  Forall (λ t, t ≠ []) ss → gt ∉ ss → gt_last ps → covers_tokens ps ss = true →
  ∀ cs, matches ss cs → matches ps cs.
Proof.
  revert ps. induction ss as [|s ss IH]; intros ps Hv Hg Hl Hc cs Hm; [by destruct ps|].
  destruct ps as [|p ps]; [done|]. apply Forall_cons in Hv as [Hs Hv].
  apply not_elem_of_cons in Hg as [Hsg Hg]. cbn [covers_tokens] in Hc.
  destruct Hl as [Hp Hl]. rewrite not_ended in Hc by done.
  case_bool_decide as Hgt.
  { rewrite Hgt, (Hp Hgt). inversion Hm; subst; constructor. }
  destruct (bool_decide (p = star) || bool_decide (p = s))%bool eqn:E; [|done].
  assert (∀ cs', matches ss cs' → matches ps cs') as Hrec.
  { intros cs' Hm'. destruct ps as [|p' ps], ss as [|s' ss]; [done..|]. eapply IH; eauto. }
  apply orb_true_iff in E. rewrite !bool_decide_eq_true in E. destruct E as [E|E]; subst p;
    inversion Hm; subst; try done; constructor; auto.
Qed.

(** A filter with every '*' replaced by the token [f]. *)
Definition inst (f : byte_list) (ss : list byte_list) : list byte_list :=
  map (λ t, if bool_decide (t = star) then f else t) ss.

Lemma inst_matches f ss : gt ∉ ss → matches ss (inst f ss).
Proof.
  induction ss as [|s ss IH]; simpl; intros Hg; [constructor|].
  apply not_elem_of_cons in Hg as [? ?]. case_bool_decide; subst; constructor; auto.
Qed.

Lemma covers_tokens_complete f ps ss :
  Forall (λ t, t ≠ []) ss → gt ∉ ss → ss ≠ [] → f ∉ ps → matches ps (inst f ss) →
  covers_tokens ps ss = true.
Proof.
  revert ps. induction ss as [|s ss IH]; intros ps Hv Hg Hne Hf Hm; [done|].
  apply Forall_cons in Hv as [Hs Hv]. apply not_elem_of_cons in Hg as [Hsg Hg]. simpl in Hm.
  destruct ps as [|p ps]; [inversion Hm|]. apply not_elem_of_cons in Hf as [Hfp Hf].
  cbn [covers_tokens]. rewrite not_ended by done.
  destruct (bool_decide (p = gt)) eqn:Hgt; [done|]. apply bool_decide_eq_false in Hgt.
  assert ((bool_decide (p = star) || bool_decide (p = s))%bool = true ∧ matches ps (inst f ss))
    as [-> Hm'].
  { rewrite orb_true_iff, !bool_decide_eq_true.
    destruct (decide (s = star)) as [Es|Es].
    - rewrite bool_decide_eq_true_2 in Hm by done. inversion Hm; subst; try done. auto.
    - rewrite bool_decide_eq_false_2 in Hm by done. inversion Hm; subst; try done; auto. }
  destruct ps as [|p' ps], ss as [|s' ss]; try (by inversion Hm').
  by apply IH.
Qed.

(** A token longer than every token of a pattern. *)
Definition fresh_token (ps : list byte_list) : byte_list :=
  replicate (S (max_list_with length ps)) "a"%char.

Lemma length_le_max t (ps : list byte_list) : t ∈ ps → length t ≤ max_list_with length ps.
Proof. induction 1; simpl; lia. Qed.

Lemma fresh_token_spec ps : (fresh_token ps ∉ ps) ∧ concrete [fresh_token ps].
Proof.
  assert (fresh_token ps ∉ ps) as Hf.
  { intros Hin. apply length_le_max in Hin. unfold fresh_token in Hin.
    rewrite length_replicate in Hin. lia. }
  split; [done|]. repeat constructor; unfold fresh_token, star, gt; simpl; congruence.
Qed.

Lemma inst_concrete f ss :
  concrete [f] → Forall (λ t, t ≠ []) ss → gt ∉ ss → concrete (inst f ss).
Proof.
  intros Hf Hv Hg. apply Forall_forall. intros t Ht. apply list_elem_of_fmap in Ht as (s & -> & Hs).
  pose proof (proj1 (Forall_forall _ _) Hv s Hs). simpl. case_bool_decide.
  - by inversion Hf.
  - split; [done|split; [done|by intros ->]].
Qed.

Lemma match_tokens_matches ps ns :
  gt_last ps → match_tokens ps ns = true ↔ matches ps ns.
Proof.
  revert ns. induction ps as [|p ps IH]; intros ns Hl.
  { destruct ns; simpl; split; intros H; try done; [constructor|inversion H]. }
  destruct Hl as [Hp Hl]. simpl. destruct (decide (p = gt)) as [->|Hgt].
  { rewrite bool_decide_eq_true_2, (Hp eq_refl) by done.
    destruct ns; simpl; split; intros H; try done; [inversion H|constructor]. }
  rewrite bool_decide_eq_false_2 by done. destruct ns as [|n ns].
  { split; intros H; [done|inversion H]. }
  rewrite andb_true_iff, orb_true_iff, !bool_decide_eq_true, IH by done. split.
  - intros [[->| ->] H]; [by constructor|]. destruct (decide (n = star)) as [->|]; by constructor.
  - intros H; inversion H; subst; try done; auto.
Qed.

(** Without empty tokens the two matchers agree and reading stops at the end. *)
Lemma match_covers_tokens ps ns :
  ps ≠ [] → ns ≠ [] → Forall (λ t, t ≠ []) ns → match_tokens ps ns = covers_tokens ps ns.
Proof.
  revert ns. induction ps as [|p ps IH]; intros ns Hp Hn Hv; [done|].
  destruct ns as [|n ns]; [done|]. apply Forall_cons in Hv as [Hn' Hv].
  cbn [match_tokens covers_tokens]. rewrite not_ended by done.
  destruct (bool_decide (p = gt)); [done|].
  destruct (bool_decide (p = star) || bool_decide (p = n))%bool; [|done]. simpl.
  destruct ps as [|p' ps], ns as [|n' ns]; [done..| |by apply IH].
  simpl. by destruct (bool_decide (p' = gt)).
Qed.

Lemma match_tokens_refl ts : match_tokens ts ts = true.
Proof.
  induction ts as [|t ts IH]; simpl; [done|]. rewrite IH.
  rewrite (bool_decide_eq_true_2 (t = t)), orb_true_r by done. by destruct (bool_decide (t = gt)).
Qed.

Lemma chunks_valid s : Forall (λ t, t ≠ []) (split_dots s) → chunks s = split_dots s.
Proof.
  intros Hv. destruct s as [|c s].
  - by apply Forall_cons in Hv as [? _].
  - unfold chunks. destruct (last (split_dots (c :: s))) as [[|]|] eqn:E; [|done..].
    apply last_Some_elem_of in E. by destruct (proj1 (Forall_forall _ _) Hv [] E).
Qed.

(** The token-level test has the meaning of coverage. *)
Lemma covers_tokens_iff pattern subject :
  valid_subject subject → no_gt subject → gt_last (tokens pattern) →
  (pattern = subject ∨ covers_tokens (tokens pattern) (tokens subject) = true) ↔
  (∀ cs, concrete cs → matches (tokens subject) cs → matches (tokens pattern) cs).
Proof.
  intros Hv Hg Hl. split.
  - intros [->|Hc] cs _ Hm; [done|]. by eapply covers_tokens_sound.
  - intros H. right. destruct (fresh_token_spec (tokens pattern)) as [Hf Hc].
    apply (covers_tokens_complete (fresh_token (tokens pattern))); [done..|apply split_dots_nonnil|done|].
    apply H; [by apply inst_concrete|by apply inst_matches].
Qed.

(** ** Theorems *)

(** C35: subjectPatternCovers decides coverage: for a well-formed subject or
    filter without the wildcard '>', and a pattern with '>' at most in last
    position, it returns true exactly when every message subject that the filter
    matches is matched by the pattern. *)
Theorem subjectPatternCovers_iff pattern subject :
  valid_subject subject → no_gt subject → gt_last (tokens pattern) →
  subjectPatternCovers pattern subject = true ↔
  (∀ cs, concrete cs → matches (tokens subject) cs → matches (tokens pattern) cs).
Proof.
  intros Hv Hg Hl. rewrite subjectPatternCovers_tokens, orb_true_iff, str_eqb_eq.
  by apply covers_tokens_iff.
Qed.

Lemma subjectPatternCovers_iff_witness :
  subjectPatternCovers "events.>" "events.*.v1" = true ∧
  (∀ cs, concrete cs → matches (tokens "events.*.v1") cs → matches (tokens "events.>") cs).
Proof.
  split; [reflexivity|].
  apply (subjectPatternCovers_iff "events.>" "events.*.v1"); [..|reflexivity].
  - repeat constructor; discriminate.
  - apply (bool_decide_eq_true_1 _). reflexivity.
  - repeat split; discriminate.
Defined.

(** A filter with the wildcard '>' can be reported as covered by a pattern
    that does not cover it: '*' is compared with the token '>' and accepts it. *)
Theorem subjectPatternCovers_full_wildcard :
  subjectPatternCovers "events.*" "events.>" = true ∧
  ∃ cs, concrete cs ∧ matches (tokens "events.>") cs ∧ ¬ matches (tokens "events.*") cs.
Proof.
  split; [reflexivity|]. exists (tokens "events.created.v1"). split; [|split].
  - repeat constructor; discriminate.
  - apply match_tokens_matches; [repeat split; discriminate|reflexivity].
  - intros H. apply match_tokens_matches in H; [done|repeat split; discriminate].
Qed.

(** C36: objectNameMatches decides NATS wildcard matching: for a name without empty
    tokens, the empty pattern matches, and a pattern without empty tokens and with '>' at
    most in last position matches exactly by the meaning of its wildcards ('*' one token,
    '>' one or more tokens, any other token itself). *)
Theorem objectNameMatches_iff name pattern :
  valid_subject name → pattern = "" ∨ valid_subject pattern ∧ gt_last (tokens pattern) →
  objectNameMatches name pattern = true ↔ pattern = "" ∨ matches (tokens pattern) (tokens name).
Proof.
  intros Hn [->|[Hp Hl]]; [split; [by left|done]|].
  assert (pattern ≠ "") by (intros ->; by apply Forall_cons in Hp as [? _]).
  transitivity (matches (tokens pattern) (tokens name)); [|naive_solver].
  destruct (decide (pattern = ">")) as [->|Hgt].
  - split; [|done]. intros _. unfold tokens. rewrite (split_dots_tok (bytes name)). constructor.
  - rewrite objectNameMatches_tokens by done. rewrite !chunks_valid by done.
    by apply match_tokens_matches.
Qed.

Lemma objectNameMatches_iff_witness :
  (objectNameMatches "a.b.c" "a.*.c" = true ↔ "a.*.c" = "" ∨ matches (tokens "a.*.c") (tokens "a.b.c")) ∧
  (objectNameMatches "a.b.c" "" = true ↔ "" = "" ∨ matches (tokens "") (tokens "a.b.c")).
Proof.
  split; [apply (objectNameMatches_iff "a.b.c" "a.*.c")|apply (objectNameMatches_iff "a.b.c" "")].
  - repeat constructor; discriminate.
  - right. split; [repeat constructor; discriminate|repeat split; discriminate].
  - repeat constructor; discriminate.
  - by left.
Defined.

(** The two independent matchers of the transport, the one for stream
    subjects and the one for object names, agree on every name and pattern
    without empty tokens. *)
Theorem matchers_agree name pattern :
  valid_subject name → valid_subject pattern →
  objectNameMatches name pattern = subjectPatternCovers pattern name.
Proof.
  intros Hn Hp. rewrite subjectPatternCovers_tokens.
  assert (pattern ≠ "") by (intros ->; by apply Forall_cons in Hp as [? _]).
  assert (match_tokens (tokens pattern) (tokens name) = covers_tokens (tokens pattern) (tokens name))
    as Hm by (apply match_covers_tokens; [apply split_dots_nonnil..|done]).
  assert (objectNameMatches name pattern = covers_tokens (tokens pattern) (tokens name)) as ->.
  { rewrite <- Hm. destruct (decide (pattern = ">")) as [->|].
    - symmetry. unfold tokens. by rewrite (split_dots_tok (bytes name)).
    - rewrite objectNameMatches_tokens by done. by rewrite !chunks_valid by done. }
  destruct (str_eqb pattern name) eqn:E; [|done]. apply str_eqb_eq in E as ->. simpl.
  rewrite <- Hm. apply match_tokens_refl.
Qed.

Lemma matchers_agree_witness :
  objectNameMatches "a.b" "a.*" = subjectPatternCovers "a.*" "a.b".
Proof. apply matchers_agree; repeat constructor; discriminate. Defined.

(** With a trailing dot they do not agree: objectNameMatches ignores the
    empty last token of a name, which is not NATS wildcard matching. *)
Theorem objectNameMatches_trailing_dot :
  objectNameMatches "a." "a" = true ∧ subjectPatternCovers "a" "a." = false ∧
  ¬ matches (tokens "a") (tokens "a.").
Proof. repeat split. intros H. apply match_tokens_matches in H; [done|repeat split; discriminate]. Qed.
