(* ===== verification/Bindings.v ===== *)
(** * Bindings (src/tnats/binding.go, and the bindings of consumer.go,
      objectstore.go and micro.go)

    A binding is the route of an action: a value built by a constructor and
    refined by builder methods, then validated when the transport mounts it.
    Go methods on value receivers return a changed copy, so each builder is a
    function on records.  Enumerations of Go are [uint8] values: the last
    constructor of each stands for the values without a name. *)

From S2P Require Import Prelude Errors.

Local Open Scope Z_scope.

(** ** Topic, request and key-value bindings *)
Record TopicBinding := mkTopic { t_Subject : string; t_QueueGroup : string }.

Definition TopicBinding_String (b : TopicBinding) : string :=
  if negb (str_empty (t_QueueGroup b)) then
    "nats pubsub: " +:+ t_Subject b +:+ " (queue: " +:+ t_QueueGroup b +:+ ")"
  else "nats pubsub: " +:+ t_Subject b.

Definition Topic (subject : string) (queueGroup : list string) : TopicBinding :=
  match queueGroup with
  | [] => {| t_Subject := subject; t_QueueGroup := "" |}
  | q :: _ => {| t_Subject := subject; t_QueueGroup := q |}
  end.

Definition Listen (subject : string) (queueGroup : list string) : TopicBinding :=
  Topic subject queueGroup.

Record RequestBinding := mkRequest { r_Subject : string; r_Timeout : Z }.

Definition RequestBinding_String (b : RequestBinding) : string :=
  "nats rpc: " +:+ r_Subject b.

Definition Request (subject : string) (timeout : list Z) : RequestBinding :=
  match timeout with
  | [] => {| r_Subject := subject; r_Timeout := 0 |}
  | d :: _ => {| r_Subject := subject; r_Timeout := d |}
  end.

Record KVBinding := mkKV { kv_Bucket : string; kv_Key : string }.

Definition KVBinding_String (b : KVBinding) : string :=
  "nats kv: " +:+ kv_Bucket b +:+ "/" +:+ kv_Key b.

Definition KV (bucket key : string) : KVBinding := {| kv_Bucket := bucket; kv_Key := key |}.
Definition WatchKV (bucket key : string) : KVBinding := KV bucket key.

(** ** Durable work *)
Record DurableBinding := mkDurable {
  d_Stream : string;
  d_Subject : string;
  d_Durable : string;
  d_DeadLetterSubject : string;
  d_MaxDeliver : Z;
  d_AckWait : Z;
  d_RetryDelay : Z;
  d_MaxAckPending : Z
}.

Definition DurableBinding_String (b : DurableBinding) : string :=
  "nats durable work: " +:+ d_Subject b +:+ " (stream: " +:+ d_Stream b
  +:+ ", durable: " +:+ d_Durable b +:+ ")".

Definition DurableWork (stream subject durable deadLetterSubject : string) : DurableBinding :=
  {| d_Stream := stream;
     d_Subject := subject;
     d_Durable := durable;
     d_DeadLetterSubject := deadLetterSubject;
     d_MaxDeliver := 5;
     d_AckWait := 30 * time_Second;
     d_RetryDelay := time_Second;
     d_MaxAckPending := 64 |}.

Definition WithDeliveryPolicy (b : DurableBinding)
    (maxDeliver ackWait retryDelay maxAckPending : Z) : DurableBinding :=
  {| d_Stream := d_Stream b;
     d_Subject := d_Subject b;
     d_Durable := d_Durable b;
     d_DeadLetterSubject := d_DeadLetterSubject b;
     d_MaxDeliver := if 0 <? maxDeliver then maxDeliver else d_MaxDeliver b;
     d_AckWait := if 0 <? ackWait then ackWait else d_AckWait b;
     d_RetryDelay := if 0 <? retryDelay then retryDelay else d_RetryDelay b;
     d_MaxAckPending := if 0 <? maxAckPending then maxAckPending else d_MaxAckPending b |}.

(** ** Pull consumers *)
Inductive DeliverPolicy :=
| DeliverAll | DeliverLast | DeliverNew | DeliverByStartSequence | DeliverByStartTime
| DeliverLastPerSubject | DeliverPolicyOther (n : Z).

Inductive AckPolicy := AckExplicit | AckNone | AckAll | AckPolicyOther (n : Z).

Inductive ReplayPolicy := ReplayInstant | ReplayOriginal | ReplayPolicyOther (n : Z).

#[global] Instance DeliverPolicy_eq_dec : EqDecision DeliverPolicy.
Proof. solve_decision. Defined.
#[global] Instance AckPolicy_eq_dec : EqDecision AckPolicy.
Proof. solve_decision. Defined.
#[global] Instance ReplayPolicy_eq_dec : EqDecision ReplayPolicy.
Proof. solve_decision. Defined.

Record ConsumerBinding := mkConsumer {
  c_Stream : string;
  c_Subject : string;
  c_FilterSubjects : list string;
  c_Durable : string;
  c_DeliverPolicy : DeliverPolicy;
  c_OptStartSeq : Z;
  c_OptStartTime : Z;
  c_AckPolicy : AckPolicy;
  c_ReplayPolicy : ReplayPolicy;
  c_MaxDeliver : Z;
  c_AckWait : Z;
  c_MaxAckPending : Z;
  c_BackOff : list Z;
  c_RateLimitBits : Z;
  c_HeadersOnly : bool;
  c_DeadLetterSubject : string
}.

Definition ConsumerBinding_String (b : ConsumerBinding) : string :=
  "nats consumer: " +:+ c_Stream b +:+ "/" +:+ c_Subject b +:+ " [" +:+ c_Durable b +:+ "]".

Definition Consumer (stream subject durable : string) : ConsumerBinding :=
  {| c_Stream := stream;
     c_Subject := subject;
     c_FilterSubjects := [];
     c_Durable := durable;
     c_DeliverPolicy := DeliverAll;
     c_OptStartSeq := 0;
     c_OptStartTime := time_zero;
     c_AckPolicy := AckExplicit;
     c_ReplayPolicy := ReplayInstant;
     c_MaxDeliver := 5;
     c_AckWait := 30 * time_Second;
     c_MaxAckPending := 256;
     c_BackOff := [];
     c_RateLimitBits := 0;
     c_HeadersOnly := false;
     c_DeadLetterSubject := "" |}.

(** Assignments [b.Field = v] on the copy a builder returns. *)
Definition set_DeliverPolicy (p : DeliverPolicy) (b : ConsumerBinding) : ConsumerBinding :=
  let 'mkConsumer st su fi du _ sq ti ak re md aw mp bo ra ho dl := b in
  mkConsumer st su fi du p sq ti ak re md aw mp bo ra ho dl.
Definition set_OptStartSeq (q : Z) (b : ConsumerBinding) : ConsumerBinding :=
  let 'mkConsumer st su fi du de _ ti ak re md aw mp bo ra ho dl := b in
  mkConsumer st su fi du de q ti ak re md aw mp bo ra ho dl.
Definition set_OptStartTime (t : Z) (b : ConsumerBinding) : ConsumerBinding :=
  let 'mkConsumer st su fi du de sq _ ak re md aw mp bo ra ho dl := b in
  mkConsumer st su fi du de sq t ak re md aw mp bo ra ho dl.
Definition set_AckPolicy (p : AckPolicy) (b : ConsumerBinding) : ConsumerBinding :=
  let 'mkConsumer st su fi du de sq ti _ re md aw mp bo ra ho dl := b in
  mkConsumer st su fi du de sq ti p re md aw mp bo ra ho dl.
Definition set_FilterSubjects (l : list string) (b : ConsumerBinding) : ConsumerBinding :=
  let 'mkConsumer st su _ du de sq ti ak re md aw mp bo ra ho dl := b in
  mkConsumer st su l du de sq ti ak re md aw mp bo ra ho dl.
Definition set_BackOff (l : list Z) (b : ConsumerBinding) : ConsumerBinding :=
  let 'mkConsumer st su fi du de sq ti ak re md aw mp _ ra ho dl := b in
  mkConsumer st su fi du de sq ti ak re md aw mp l ra ho dl.
Definition set_RateLimitBits (r : Z) (b : ConsumerBinding) : ConsumerBinding :=
  let 'mkConsumer st su fi du de sq ti ak re md aw mp bo _ ho dl := b in
  mkConsumer st su fi du de sq ti ak re md aw mp bo r ho dl.
Definition set_HeadersOnly (h : bool) (b : ConsumerBinding) : ConsumerBinding :=
  let 'mkConsumer st su fi du de sq ti ak re md aw mp bo ra _ dl := b in
  mkConsumer st su fi du de sq ti ak re md aw mp bo ra h dl.
Definition set_DeadLetterSubject (s : string) (b : ConsumerBinding) : ConsumerBinding :=
  let 'mkConsumer st su fi du de sq ti ak re md aw mp bo ra ho _ := b in
  mkConsumer st su fi du de sq ti ak re md aw mp bo ra ho s.

Definition FromSequence (b : ConsumerBinding) (seq : Z) : ConsumerBinding :=
  set_OptStartSeq seq (set_DeliverPolicy DeliverByStartSequence b).
Definition FromTime (b : ConsumerBinding) (t : Z) : ConsumerBinding :=
  set_OptStartTime t (set_DeliverPolicy DeliverByStartTime b).
Definition NewOnly (b : ConsumerBinding) : ConsumerBinding := set_DeliverPolicy DeliverNew b.
Definition LastPerSubject (b : ConsumerBinding) : ConsumerBinding :=
  set_DeliverPolicy DeliverLastPerSubject b.
Definition WithAckPolicy (b : ConsumerBinding) (p : AckPolicy) : ConsumerBinding :=
  set_AckPolicy p b.
Definition WithFilters (b : ConsumerBinding) (subjects : list string) : ConsumerBinding :=
  set_FilterSubjects subjects b.
Definition WithBackOff (b : ConsumerBinding) (backoff : list Z) : ConsumerBinding :=
  set_BackOff backoff b.
Definition WithRateLimit (b : ConsumerBinding) (bitsPerSecond : Z) : ConsumerBinding :=
  set_RateLimitBits bitsPerSecond b.
Definition WithHeadersOnly (b : ConsumerBinding) : ConsumerBinding := set_HeadersOnly true b.
Definition ToDeadLetter (b : ConsumerBinding) (subject : string) : ConsumerBinding :=
  set_DeadLetterSubject subject b.

(** ** Object store *)
Record ObjectBinding := mkObject {
  o_Bucket : string; o_Pattern : string; o_IncludeData : bool; o_MaxBytes : Z }.

Definition ObjectBinding_String (b : ObjectBinding) : string :=
  "nats objectstore: " +:+ o_Bucket b +:+ "/" +:+ o_Pattern b.

Definition ObjectStore (bucket pattern : string) : ObjectBinding :=
  {| o_Bucket := bucket; o_Pattern := pattern; o_IncludeData := false;
     o_MaxBytes := 8 * 1024 * 1024 |}.

Definition WithData (b : ObjectBinding) (maxBytes : Z) : ObjectBinding :=
  {| o_Bucket := o_Bucket b; o_Pattern := o_Pattern b; o_IncludeData := true;
     o_MaxBytes := if 0 <? maxBytes then maxBytes else o_MaxBytes b |}.

(** The event that an object watcher hands to its action. *)
Inductive ObjectEventType := ObjectPut | ObjectDelete | ObjectEventTypeOther (n : Z).

Definition ObjectEventType_String (e : ObjectEventType) : string :=
  match e with
  | ObjectPut => "PUT"
  | ObjectDelete => "DELETE"
  | ObjectEventTypeOther _ => "UNKNOWN"
  end.

Record ObjectEvent := mkObjectEvent {
  ev_Bucket : string;
  ev_Name : string;
  ev_Type : ObjectEventType;
  ev_Size : Z;
  ev_Chunks : Z;
  ev_Timestamp : Z;
  ev_Data : option string     (* nil: no data *)
}.

(** ** Micro services *)
Record ServiceBinding := mkService {
  s_Service : string;
  s_Version : string;
  s_Description : string;
  s_Endpoint : string;
  s_Subject : string;
  s_QueueGroup : string;
  s_Timeout : Z;
  s_Metadata : gmap string string
}.

Definition ServiceBinding_String (b : ServiceBinding) : string :=
  "nats micro: " +:+ s_Service b +:+ "@" +:+ s_Version b +:+ " -> " +:+ s_Subject b.

Definition Service (service version endpoint subject : string) : ServiceBinding :=
  {| s_Service := service; s_Version := version; s_Endpoint := endpoint; s_Subject := subject;
     s_Description := "Nexss action " +:+ endpoint; s_QueueGroup := ""; s_Timeout := 0;
     s_Metadata := ∅ |}.

Definition WithQueueGroup (b : ServiceBinding) (qg : string) : ServiceBinding :=
  {| s_Service := s_Service b; s_Version := s_Version b; s_Endpoint := s_Endpoint b;
     s_Subject := s_Subject b; s_Description := s_Description b; s_QueueGroup := qg;
     s_Timeout := s_Timeout b; s_Metadata := s_Metadata b |}.
Definition WithTimeout (b : ServiceBinding) (d : Z) : ServiceBinding :=
  {| s_Service := s_Service b; s_Version := s_Version b; s_Endpoint := s_Endpoint b;
     s_Subject := s_Subject b; s_Description := s_Description b; s_QueueGroup := s_QueueGroup b;
     s_Timeout := d; s_Metadata := s_Metadata b |}.
Definition WithMetadata (b : ServiceBinding) (md : gmap string string) : ServiceBinding :=
  {| s_Service := s_Service b; s_Version := s_Version b; s_Endpoint := s_Endpoint b;
     s_Subject := s_Subject b; s_Description := s_Description b; s_QueueGroup := s_QueueGroup b;
     s_Timeout := s_Timeout b; s_Metadata := md |}.

(** ** A binding of any transport

    action.Binding is an interface: the transport recognises its own types by a
    type switch, and [OtherBinding] is a binding of another package. *)
Inductive Binding :=
| BTopic (b : TopicBinding) | BKV (b : KVBinding) | BRequest (b : RequestBinding)
| BDurable (b : DurableBinding) | BConsumer (b : ConsumerBinding) | BObject (b : ObjectBinding)
| BService (b : ServiceBinding) | OtherBinding (description : string).

Definition CanHandle (b : Binding) : bool :=
  match b with
  | BTopic _ | BKV _ | BRequest _ | BDurable _ | BConsumer _ | BObject _ | BService _ => true
  | OtherBinding _ => false
  end.

(** ** Validation *)
Section Validation.
Context {EM : ErrorModel}.

Definition bad (m : string) : option error := Some (xerr_new KindBadRequest m None).

Definition validateConsumerBinding (b : ConsumerBinding) : option error :=
  if (str_empty (c_Stream b) || str_empty (c_Subject b) || str_empty (c_Durable b))%bool then
    bad "consumer requires stream, subject and durable"
  else if ((c_MaxDeliver b <=? 0) || (c_AckWait b <=? 0) || (c_MaxAckPending b <=? 0))%bool then
    bad "consumer delivery parameters must be positive"
  else if (bool_decide (c_AckPolicy b = AckNone) && negb (str_empty (c_DeadLetterSubject b)))%bool then
    bad "consumer dead-lettering requires an acknowledgement policy that supports redelivery"
  else
    match c_DeliverPolicy b with
    | DeliverPolicyOther _ => bad "consumer delivery policy is invalid"
    | _ =>
        match c_AckPolicy b with
        | AckPolicyOther _ => bad "consumer acknowledgement policy is invalid"
        | _ =>
            match c_ReplayPolicy b with
            | ReplayPolicyOther _ => bad "consumer replay policy is invalid"
            | _ =>
                if (bool_decide (c_DeliverPolicy b = DeliverByStartSequence)
                    && (c_OptStartSeq b =? 0))%bool
                then bad "consumer start sequence must be positive"
                else if (bool_decide (c_DeliverPolicy b = DeliverByStartTime)
                         && time_IsZero (c_OptStartTime b))%bool
                then bad "consumer start time is required"
                else if c_MaxDeliver b <? Z.of_nat (length (c_BackOff b))
                then bad "consumer backoff length must not exceed MaxDeliver"
                else if existsb (λ delay, delay <=? 0) (c_BackOff b)
                then bad "consumer backoff delays must be positive"
                else None
            end
        end
    end.

Definition validateDurableBinding (b : DurableBinding) : option error :=
  if (str_empty (d_Stream b) || str_empty (d_Subject b) || str_empty (d_Durable b)
      || str_empty (d_DeadLetterSubject b))%bool then
    bad "durable work requires stream, subject, durable consumer, and dead-letter subject"
  else if ((d_MaxDeliver b <=? 0) || (d_AckWait b <=? 0) || (d_RetryDelay b <=? 0)
           || (d_MaxAckPending b <=? 0))%bool then
    bad "durable delivery policy parameters must be positive"
  else None.

Definition validateObjectBinding (b : ObjectBinding) : option error :=
  if str_empty (o_Bucket b) then bad "objectstore requires a bucket name" else None.

End Validation.

(** ** What a valid binding is *)
Record consumer_valid (b : ConsumerBinding) : Prop := {
  cv_stream : c_Stream b ≠ "";
  cv_subject : c_Subject b ≠ "";
  cv_durable : c_Durable b ≠ "";
  cv_maxDeliver : 0 < c_MaxDeliver b;
  cv_ackWait : 0 < c_AckWait b;
  cv_maxAckPending : 0 < c_MaxAckPending b;
  cv_deadLetter : c_AckPolicy b = AckNone → c_DeadLetterSubject b = "";
  cv_deliver : ∀ n, c_DeliverPolicy b ≠ DeliverPolicyOther n;
  cv_ack : ∀ n, c_AckPolicy b ≠ AckPolicyOther n;
  cv_replay : ∀ n, c_ReplayPolicy b ≠ ReplayPolicyOther n;
  cv_startSeq : c_DeliverPolicy b = DeliverByStartSequence → c_OptStartSeq b ≠ 0;
  cv_startTime : c_DeliverPolicy b = DeliverByStartTime → c_OptStartTime b ≠ time_zero;
  cv_backoffLen : Z.of_nat (length (c_BackOff b)) ≤ c_MaxDeliver b;
  cv_backoff : Forall (λ d, 0 < d) (c_BackOff b)
}.

Record durable_valid (b : DurableBinding) : Prop := {
  dv_stream : d_Stream b ≠ "";
  dv_subject : d_Subject b ≠ "";
  dv_durable : d_Durable b ≠ "";
  dv_deadLetter : d_DeadLetterSubject b ≠ "";
  dv_maxDeliver : 0 < d_MaxDeliver b;
  dv_ackWait : 0 < d_AckWait b;
  dv_retryDelay : 0 < d_RetryDelay b;
  dv_maxAckPending : 0 < d_MaxAckPending b
}.

Lemma backoff_nonpositive l :
  existsb (λ delay, delay <=? 0) l = false ↔ Forall (λ d, 0 < d) l.
Proof.
  induction l as [|d l IH]; simpl; [split; [constructor|done]|].
  rewrite orb_false_iff, IH, Forall_cons, Z.leb_gt. done.
Qed.

Section Theorems.
Context {EM : ErrorModel}.

Lemma validateConsumerBinding_none b : validateConsumerBinding b = None ↔ consumer_valid b.
Proof.
  unfold validateConsumerBinding, bad, time_IsZero. split.
  - destruct b as [st su fi du de sq ti ak re md aw mp bo ra ho dl]; simpl.
    intros H. repeat case_match; try done; go_bool;
      repeat match goal with H : _ ∧ _ |- _ => destruct H end;
      constructor; simpl; try done; try lia; try congruence;
      try (by apply backoff_nonpositive).
    all: intros; subst; destr_all; congruence.
  - intros []. destruct b as [st su fi du de sq ti ak re md aw mp bo ra ho dl]; simpl in *.
    apply backoff_nonpositive in cv_backoff0.
    repeat case_match; try done; go_bool; destr_all; subst; try done; try lia; try congruence;
      exfalso; unfold not in *; eauto 3.
Qed.

Lemma validateDurableBinding_none b : validateDurableBinding b = None ↔ durable_valid b.
Proof.
  unfold validateDurableBinding, bad. split.
  - intros H. repeat case_match; simplify_eq; go_bool. destr_all. split; try done; lia.
  - intros []. repeat case_match; go_bool; destr_all; done || lia.
Qed.

Lemma validate_rejects b e : validateConsumerBinding b = Some e → ∃ m, e = xerr_new KindBadRequest m None.
Proof. unfold validateConsumerBinding, bad. intros H. repeat case_match; simplify_eq; eauto. Qed.

(** validateConsumerBinding accepts exactly the valid consumer bindings, and
    rejects every other one with a BadRequest error. *)
Theorem validateConsumerBinding_iff {EL : ErrorLaws EM} b :
  (validateConsumerBinding b = None ↔ consumer_valid b) ∧
  (¬ consumer_valid b → ∃ e, validateConsumerBinding b = Some e ∧ xerr_KindFrom e = KindBadRequest).
Proof.
  split; [apply validateConsumerBinding_none|]. intros Hn.
  destruct (validateConsumerBinding b) as [e|] eqn:E.
  - exists e. split; [done|]. apply validate_rejects in E as [m ->]. apply kind_new.
  - destruct Hn. by apply validateConsumerBinding_none.
Qed.

(** The fresh binding of Consumer is valid as soon as its three names are
    not empty, and a DurableWork binding with non-empty names stays accepted
    under every delivery policy, since WithDeliveryPolicy ignores nonpositive
    parameters. *)
Theorem default_bindings_valid stream subject durable dlq md aw rd mp :
  (consumer_valid (Consumer stream subject durable) ↔ stream ≠ "" ∧ subject ≠ "" ∧ durable ≠ "") ∧
  (validateDurableBinding (WithDeliveryPolicy (DurableWork stream subject durable dlq) md aw rd mp) = None
   ↔ stream ≠ "" ∧ subject ≠ "" ∧ durable ≠ "" ∧ dlq ≠ "").
Proof.
  split.
  - split; [intros []; simpl in *; auto|]. intros (? & ? & ?).
    constructor; simpl; unfold time_Second; try done; try lia; by constructor.
  - unfold validateDurableBinding, WithDeliveryPolicy, DurableWork, time_Second, bad. cbn.
    repeat case_match; go_bool; destr_all; split; intros; destr_all; try done; try lia; auto.
Qed.
End Theorems.

Section Witnesses.
Import GoErr.

Lemma validateConsumerBinding_iff_witness :
  consumer_valid (Consumer "EVENTS" "events.created" "worker") ∧
  ∃ e, validateConsumerBinding (EM := GoErr.model) (Consumer "" "events.created" "worker") = Some e
       ∧ xerr_KindFrom e = KindBadRequest.
Proof.
  split.
  - apply (proj1 (validateConsumerBinding_iff (EM := GoErr.model) (Consumer "EVENTS" "events.created" "worker"))).
    reflexivity.
  - apply (proj2 (validateConsumerBinding_iff (EM := GoErr.model) (Consumer "" "events.created" "worker"))).
    intros []. simpl in *. auto.
Defined.
End Witnesses.
