(* ===== verification/Json.v ===== *)
(** * JSON documents and byte-string encodings

    The part of encoding/json, encoding/hex and unicode/utf8 the transport uses.
    A document is a [json] tree; how a Go struct is written to and read from a
    tree (field names, missing and null fields, type mismatches, case-insensitive
    field names) is modelled by the components that own the struct with the
    helpers below.  The text level is the class [JsonText]: Marshal and Unmarshal
    with the round trip for documents whose strings are valid UTF-8 (both replace
    invalid bytes).  [JsonModel] is a concrete instance. *)

From S2P Require Import Prelude Errors.
From Stdlib Require Import Ascii.

Local Open Scope Z_scope.

(** A number literal that is not a plain integer is kept as text. *)
Inductive json : Type :=
| JNull
| JBool (b : bool)
| JInt (z : Z)
| JNum (literal : string)
| JStr (s : string)
| JArr (l : list json)
| JObj (fields : list (string * json)).

(** ** Reading struct fields *)

(** A JSON object member fills the struct field whose name it equals up to ASCII
    case. *)
Definition ascii_lower (c : ascii) : ascii :=
  let n := nat_of_ascii c in
  if ((65 <=? n) && (n <=? 90))%nat%bool then ascii_of_nat (n + 32) else c.

Fixpoint str_lower (s : string) : string :=
  match s with
  | EmptyString => EmptyString
  | String c s' => String (ascii_lower c) (str_lower s')
  end.

Definition field_is (name key : string) : bool := str_eqb (str_lower key) name.

(** Fold the members of an object into a struct; an error stops the decoding. *)
Fixpoint decode_fields {A} (step : string → json → A → option A)
    (fs : list (string * json)) (acc : A) : option A :=
  match fs with
  | [] => Some acc
  | (k, v) :: fs' =>
      match step k v acc with
      | Some acc' => decode_fields step fs' acc'
      | None => None
      end
  end.

(** Unmarshal into a struct: null leaves it alone, anything else but an object is
    an error. *)
Definition decode_struct {A} (step : string → json → A → option A) (zero : A) (j : json)
    : option A :=
  match j with
  | JObj fs => decode_fields step fs zero
  | JNull => Some zero
  | _ => None
  end.

(** Unmarshal into a string and an int64 field that holds [old]. *)
Definition decode_string (old : string) (j : json) : option string :=
  match j with JStr s => Some s | JNull => Some old | _ => None end.

Definition decode_int64 (old : Z) (j : json) : option Z :=
  match j with
  | JInt z => if ((int64_min <=? z) && (z <=? int64_max))%bool then Some z else None
  | JNull => Some old
  | _ => None
  end.

(** ** UTF-8 (unicode/utf8.Valid) *)
Definition byte_in (lo hi : nat) (c : ascii) : bool :=
  ((lo <=? nat_of_ascii c) && (nat_of_ascii c <=? hi))%nat%bool.

Definition cont := byte_in 128 191.

(** The well-formed byte sequences of the Unicode standard, table 3-7. *)
Fixpoint utf8_valid (s : string) : bool :=
  match s with
  | EmptyString => true
  | String c s1 =>
      if byte_in 0 127 c then utf8_valid s1
      else match s1 with
      | EmptyString => false
      | String c1 s2 =>
          if byte_in 194 223 c then cont c1 && utf8_valid s2
          else match s2 with
          | EmptyString => false
          | String c2 s3 =>
              if byte_in 224 224 c then byte_in 160 191 c1 && cont c2 && utf8_valid s3
              else if (byte_in 225 236 c || byte_in 238 239 c)%bool
                   then cont c1 && cont c2 && utf8_valid s3
              else if byte_in 237 237 c then byte_in 128 159 c1 && cont c2 && utf8_valid s3
              else match s3 with
              | EmptyString => false
              | String c3 s4 =>
                  if byte_in 240 240 c
                  then byte_in 144 191 c1 && cont c2 && cont c3 && utf8_valid s4
                  else if byte_in 241 243 c then cont c1 && cont c2 && cont c3 && utf8_valid s4
                  else if byte_in 244 244 c
                       then byte_in 128 143 c1 && cont c2 && cont c3 && utf8_valid s4
                  else false
              end
          end
      end
  end%bool.

(** Every string of the document is valid UTF-8. *)
Fixpoint json_utf8 (j : json) : bool :=
  match j with
  | JStr s => utf8_valid s
  | JArr l => forallb json_utf8 l
  | JObj fs => forallb (λ kv, utf8_valid kv.1 && json_utf8 kv.2) fs
  | _ => true
  end%bool.

(** ** Hexadecimal (encoding/hex.EncodeToString) *)
Definition hex_digit (n : nat) : ascii :=
  if (n <? 10)%nat then ascii_of_nat (48 + n) else ascii_of_nat (87 + n).

Fixpoint hex_encode (s : string) : string :=
  match s with
  | EmptyString => EmptyString
  | String c s' =>
      let n := nat_of_ascii c in
      String (hex_digit (n / 16)) (String (hex_digit (n mod 16)) (hex_encode s'))
  end.

Lemma hex_digit_ascii n : (n < 16)%nat → byte_in 0 127 (hex_digit n) = true.
Proof. intros H. do 16 (destruct n as [|n]; [reflexivity|]). lia. Qed.

Lemma hex_digit_inj n m : (n < 16)%nat → (m < 16)%nat → hex_digit n = hex_digit m → n = m.
Proof.
  intros Hn Hm. do 16 (destruct n as [|n]; [do 16 (destruct m as [|m]; [done|]); lia|]). lia.
Qed.

Lemma nibbles c : (nat_of_ascii c / 16 < 16 ∧ nat_of_ascii c mod 16 < 16)%nat.
Proof.
  pose proof (nat_ascii_bounded c). split; [|apply Nat.mod_upper_bound; lia].
  apply Nat.Div0.div_lt_upper_bound. lia.
Qed.

Lemma hex_utf8 s : utf8_valid (hex_encode s) = true.
Proof.
  induction s as [|c s IH]; [done|]. destruct (nibbles c).
  cbn [hex_encode utf8_valid]. rewrite hex_digit_ascii by done. cbn [utf8_valid].
  by rewrite hex_digit_ascii.
Qed.

(** EncodeToString loses nothing. *)
#[global] Instance hex_encode_inj : Inj (=) (=) hex_encode.
Proof.
  intros s1. induction s1 as [|c1 s1 IH]; intros [|c2 s2] H; try done.
  cbn [hex_encode] in H. injection H as H1 H2 H3.
  destruct (nibbles c1), (nibbles c2).
  apply (hex_digit_inj (nat_of_ascii c1 / 16) (nat_of_ascii c2 / 16)) in H1; [|done..].
  apply (hex_digit_inj (nat_of_ascii c1 mod 16) (nat_of_ascii c2 mod 16)) in H2; [|done..].
  apply IH in H3 as ->. f_equal.
  rewrite <- (ascii_nat_embedding c1), <- (ascii_nat_embedding c2). f_equal.
  pose proof (Nat.div_mod_eq (nat_of_ascii c1) 16). pose proof (Nat.div_mod_eq (nat_of_ascii c2) 16). lia.
Qed.

Lemma hex_length s : String.length (hex_encode s) = (2 * String.length s)%nat.
Proof. induction s as [|c s IH]; simpl in *; lia. Qed.

(** ** Base64 (a []byte field of a marshalled struct) *)
Definition b64_digit (n : nat) : ascii :=
  if (n <? 26)%nat then ascii_of_nat (65 + n)
  else if (n <? 52)%nat then ascii_of_nat (97 + (n - 26))
  else if (n <? 62)%nat then ascii_of_nat (48 + (n - 52))
  else if (n =? 62)%nat then "+"%char else "/"%char.

Fixpoint b64_encode (s : string) : string :=
  let v := nat_of_ascii in
  match s with
  | EmptyString => EmptyString
  | String a EmptyString =>
      String (b64_digit (v a / 4)) (String (b64_digit (v a mod 4 * 16)) "==")
  | String a (String b EmptyString) =>
      String (b64_digit (v a / 4)) (String (b64_digit (v a mod 4 * 16 + v b / 16))
        (String (b64_digit (v b mod 16 * 4)) "="))
  | String a (String b (String c s')) =>
      String (b64_digit (v a / 4)) (String (b64_digit (v a mod 4 * 16 + v b / 16))
        (String (b64_digit (v b mod 16 * 4 + v c / 64)) (String (b64_digit (v c mod 64)) (b64_encode s'))))
  end%nat.

(** A map[string]string is written with its keys in order. *)
Definition key_le (a b : string * string) : Prop := String.leb a.1 b.1 = true.

#[export] Instance key_le_dec : RelDecision key_le.
Proof. intros a b. unfold key_le. apply _. Defined.

Definition map_to_json (m : gmap string string) : json :=
  JObj (map (λ kv, (kv.1, JStr kv.2)) (merge_sort key_le (map_to_list m))).

(** ** Text *)
Class JsonText (EM : ErrorModel) := {
  json_Marshal : json → result error string;
  json_Unmarshal : string → result error json
}.

Class JsonTextLaws {EM} (JT : JsonText EM) : Prop := {
  json_roundtrip j s :
    json_utf8 j = true → json_Marshal j = Ok s → json_Unmarshal s = Ok j;
  json_decoded_utf8 s j : json_Unmarshal s = Ok j → json_utf8 j = true
}.

(** ** A concrete text level

    An injective encoding of documents as strings of binary digits: it satisfies
    the laws, so that statements that assume them can be evaluated. *)
Module JsonModel.
Fixpoint to_tree (j : json) : gen_tree (string + (Z + bool)) :=
  match j with
  | JNull => GenNode 0 []
  | JBool b => GenNode 1 [GenLeaf (inr (inr b))]
  | JInt z => GenNode 2 [GenLeaf (inr (inl z))]
  | JNum s => GenNode 3 [GenLeaf (inl s)]
  | JStr s => GenNode 4 [GenLeaf (inl s)]
  | JArr l => GenNode 5 (map to_tree l)
  | JObj fs => GenNode 6 (map (λ kv, GenNode 7 [GenLeaf (inl kv.1); to_tree kv.2]) fs)
  end.

Fixpoint of_tree (t : gen_tree (string + (Z + bool))) : json :=
  match t with
  | GenNode 1 [GenLeaf (inr (inr b))] => JBool b
  | GenNode 2 [GenLeaf (inr (inl z))] => JInt z
  | GenNode 3 [GenLeaf (inl s)] => JNum s
  | GenNode 4 [GenLeaf (inl s)] => JStr s
  | GenNode 5 l => JArr (map of_tree l)
  | GenNode 6 l =>
      JObj (map (λ t', match t' with
                       | GenNode 7 [GenLeaf (inl k); v] => (k, of_tree v)
                       | _ => ("", JNull)
                       end) l)
  | _ => JNull
  end.

Fixpoint of_to_tree (j : json) : of_tree (to_tree j) = j.
Proof.
  destruct j as [|b|z|s|s|l|fs]; simpl; try done.
  - f_equal. induction l as [|j l IH]; simpl; [done|]. by rewrite of_to_tree, IH.
  - f_equal. induction fs as [|[k v] fs IH]; simpl; [done|]. by rewrite of_to_tree, IH.
Qed.

Fixpoint digits (p : positive) : string :=
  match p with
  | xH => EmptyString
  | xO p' => String "0" (digits p')
  | xI p' => String "1" (digits p')
  end.

Fixpoint undigits (s : string) : option positive :=
  match s with
  | EmptyString => Some xH
  | String c s' =>
      match undigits s' with
      | Some p => if bool_decide (c = "0"%char) then Some (xO p)
                  else if bool_decide (c = "1"%char) then Some (xI p) else None
      | None => None
      end
  end.

Lemma undigits_digits p : undigits (digits p) = Some p.
Proof. induction p as [p IH|p IH|]; simpl; [by rewrite IH..|done]. Qed.

Definition marshal (j : json) : string := digits (encode (to_tree j)).

Definition unmarshal (s : string) : option json :=
  of_tree <$> (undigits s ≫= decode).

Lemma unmarshal_marshal j : unmarshal (marshal j) = Some j.
Proof.
  unfold unmarshal, marshal. rewrite undigits_digits. simpl. rewrite decode_encode. simpl.
  by rewrite of_to_tree.
Qed.

Definition unmarshal_text (s : string) : result GoErr.goerr json :=
  match unmarshal s with
  | Some j => if json_utf8 j then Ok j else Err (GoErr.ENew "invalid UTF-8")
  | None => Err (GoErr.ENew "invalid character")
  end.

#[export] Instance text : JsonText GoErr.model :=
  @Build_JsonText GoErr.model (λ j, Ok (marshal j)) unmarshal_text.

#[export] Instance laws : JsonTextLaws text.
Proof.
  split; simpl; unfold unmarshal_text.
  - intros j s Hj H. simplify_eq. by rewrite unmarshal_marshal, Hj.
  - intros s j. destruct (unmarshal s); [|done].
    destruct (json_utf8 _) eqn:E; intros; by simplify_eq.
Qed.
End JsonModel.
