(* ===== verification/World.v ===== *)
(** * The outside world of the transport

    The data the transport exchanges with the NATS client and with the kernel,
    and the external calls it makes, as the request type of [Effects.prog].
    Everything here is an interface: [Kernel] lists the functions of other
    packages that the code calls without observable effect, [req] the calls that
    depend on or change something outside. *)

From S2P Require Import Prelude Effects Errors Bindings Json.

(** ** Contexts

    A context is described by how the code derives it. *)
Inductive context :=
| Background
| Caller (id : nat)
| CtxTimeout (parent : context) (d : Z)
| CtxCancel (parent : context)
| WithoutCancel (parent : context).

(** No cancellation of the caller reaches such a context before its own timeout. *)
Fixpoint detached (c : context) : bool :=
  match c with
  | Background | WithoutCancel _ => true
  | Caller _ => false
  | CtxTimeout p _ | CtxCancel p => detached p
  end.

(** ** Kernel data (package action) *)
Record IdempotencyEntry := mkEntry {
  e_Status : Z; e_Body : string; e_StoredAt : Z; e_RequestHash : string }.

Definition empty_entry : IdempotencyEntry :=
  {| e_Status := 0; e_Body := ""; e_StoredAt := time_zero; e_RequestHash := "" |}.

Inductive ClaimState :=
| ClaimAcquired | ClaimInProgress | ClaimCompleted | ClaimConflict | ClaimStateOther (n : Z).

Record IdempotencyClaim := mkClaim {
  cl_State : ClaimState; cl_Entry : IdempotencyEntry; cl_Token : string }.

(** ** NATS data *)
Abbreviation header := (gmap string (list string)).

Record Msg := mkMsg {
  msg_Subject : string; msg_Reply : string; msg_Data : string; msg_Header : option header }.

Record MsgMetadata := mkMeta { md_NumDelivered : Z; md_Stream : string; md_StreamSeq : Z }.

(** The fields of a stream configuration that the transport reads or writes;
    [sc_Other] stands for the remaining ones. *)
Inductive StorageType := FileStorage | MemoryStorage.
Inductive RetentionPolicy := LimitsPolicy | InterestPolicy | WorkQueuePolicy.
Inductive DiscardPolicy := DiscardOld | DiscardNew.

Record StreamConfig := mkStream {
  sc_Name : string;
  sc_Subjects : list string;
  sc_Storage : StorageType;
  sc_Retention : RetentionPolicy;
  sc_Discard : DiscardPolicy;
  sc_MaxAge : Z;
  sc_Other : string
}.

Record ConsumerConfig := mkConsumerConfig { cc_MaxDeliver : Z; cc_Other : string }.

Record KeyValueConfig := mkKVConfig {
  kc_Bucket : string; kc_Description : string; kc_History : Z; kc_TTL : Z; kc_Storage : StorageType }.

(** A jetstream.KeyValueEntry, an update of a key-value watcher, an object's info. *)
Record KeyValueEntry := mkKVEntry {
  ke_Bucket : string; ke_Key : string; ke_Value : string; ke_Revision : Z; ke_Created : Z }.

Record KeyUpdate := mkUpdate { ku_Key : string; ku_Value : string }.

Record ObjectInfo := mkObjectInfo {
  oi_Name : string; oi_Size : Z; oi_Chunks : Z; oi_Digest : string; oi_ModTime : Z; oi_Deleted : bool }.

(** micro.Config and the options of an endpoint. *)
Record ServiceConfig := mkServiceConfig {
  sv_Name : string; sv_Version : string; sv_Description : string; sv_Metadata : gmap string string }.

Inductive EndpointOpt :=
| EndpointSubject (s : string) | EndpointQueueGroup (q : string) | EndpointMetadata (m : gmap string string).

(** What the decoder of ExecuteDecoded hands to an action: bytes for the codec, or an
    object event. *)
Inductive input := InData (data : string) | InEvent (ev : ObjectEvent).

(** Options of js.PullSubscribe. *)
Inductive SubOpt :=
| OptBindStream (s : string) | OptAckWait (d : Z) | OptMaxDeliver (n : Z) | OptMaxAckPending (n : Z)
| OptConsumerFilterSubjects (l : list string)
| OptAckNone | OptAckAll | OptAckExplicit
| OptDeliverLast | OptDeliverNew | OptStartSequence (n : Z) | OptStartTime (t : Z)
| OptDeliverLastPerSubject | OptDeliverAll | OptReplayOriginal | OptReplayInstant
| OptBackOff (l : list Z) | OptRateLimit (n : Z) | OptHeadersOnly.

(** ** Functions of other packages *)
Class Kernel (EM : ErrorModel) := {
  value : Type;                                  (* any *)
  codec_Default : value → result error string;   (* codec.Default.Marshal *)
  json_Marshal_any : value → result error string;  (* json.Marshal of a kernel value *)
  xerr_Public : error → value;                   (* xerr.From(err).Public("") *)
  time_MarshalJSON : Z → result error json;      (* a time.Time in a document *)
  header_Get : header → string → string;         (* nats.Header.Get *)
  sha256_Sum256 : string → string;               (* crypto/sha256 *)
  DefaultIdempotencyLeaseTTL : Z                 (* action.DefaultIdempotencyLeaseTTL *)
}.

(** A codec.Codec; the transport only calls Marshal. *)
Definition codec {EM : ErrorModel} {K : Kernel EM} : Type := value → result error string.

(** ** External calls *)
Inductive req :=
(* context, clock, randomness *)
| RCtxErr (c : context)
| RNow
| RRandRead (n : nat)
(* nats.KeyValue, on a bucket *)
| RKvGet (bucket key : string)
| RKvCreate (bucket key val : string)
| RKvUpdate (bucket key val : string) (revision : Z)
| RKvPut (bucket key val : string)
| RKvDelete (bucket key : string) (lastRevision : Z)
(* nats.JetStreamContext: buckets, streams, consumers *)
| RKeyValue (bucket : string)
| RCreateKeyValue (cfg : KeyValueConfig)
| RKvStatusTTL (bucket : string)
| RStreamInfo (name : string)
| RAddStream (cfg : StreamConfig)
| RUpdateStream (cfg : StreamConfig)
| RConsumerInfo (stream durable : string)
| RUpdateConsumer (stream : string) (cfg : ConsumerConfig)
| RPullSubscribe (subject durable : string) (opts : list SubOpt)
| RUnsubscribe (sub : nat)
| RFetch (c : context) (sub : nat) (batch : Z)
(* action.IdempotencyStore, IdempotencyCoordinator and lease renewal *)
| RStoreGet (c : context) (key : string)
| RStoreSet (c : context) (key : string) (entry : IdempotencyEntry) (ttl : Z)
| RClaim (c : context) (key hash : string) (ttl : Z)
| RComplete (c : context) (key token : string) (entry : IdempotencyEntry) (ttl : Z)
| RRelease (c : context) (key token : string)
| RStartRenewal (key token : string) (leaseTTL : Z)
| RStopRenewal
(* action.Executable *)
| RExecute (c : context)
(* nats.Msg and publishing *)
| RMetadata
| RAckSync (c : context)
| RNakWithDelay (c : context) (delay : Z)
| RTerm (c : context)
| RJsPublish (c : context) (subject data msgID : string)
(* the pull loop *)
| RConnIsClosed
| RSleep (c : context) (d : Z)
(* Transport.EnsureConn and ensureJetStream (Lifecycle), for their clients *)
| REnsureConn (c : context)
| REnsureJetStream
(* package jetstream: key-value and object buckets *)
| RJetstreamNew (nc : nat)
| RJsKeyValue (c : context) (bucket : string)
| RJkGet (c : context) (bucket key : string)
| RJkPut (c : context) (bucket key val : string)
| RJkCreate (c : context) (bucket key val : string) (keyTTL : option Z)
| RJkUpdate (c : context) (bucket key val : string) (revision : Z)
| RJkDelete (c : context) (bucket key : string) (lastRevision : option Z)
| RJsObjectStore (c : context) (bucket : string)
| RJoDelete (c : context) (bucket name : string)
(* nats.ObjectStore *)
| RObjectStore (bucket : string)
| RObjGet (c : context) (bucket name : string)
| RObjRead (obj : nat) (n : Z)   (* no more than [n] bytes are taken *)
| RObjClose (obj : nat)
| RObjPutBytes (c : context) (bucket name data : string)
(* watchers *)
| RKvWatch (bucket : string) (key : option string)   (* None: WatchAll *)
| RObjWatch (bucket : string)
| RKvNext (watcher : nat)
| RObjNext (watcher : nat)
| RWatcherStop (watcher : nat)
| RExecuteInput (c : context) (i : input)
(* publishing and requests *)
| RPublishMsg (m : Msg)
| RJsPublishMsg (c : context) (m : Msg)
| RRequestMsg (c : context) (m : Msg)
(* micro services *)
| RAddService (cfg : ServiceConfig)
| RAddEndpoint (svc : nat) (endpoint : string) (opts : list EndpointOpt)
| RServiceStop (svc : nat)
| RRespond (payload : string)
| RRespondError (code description : string)
(* the runner *)
| RSubscribe (subject : string) (queue : option string)
| RFlush (c : context)
| RStartEmbedded
| RStopEmbedded
| RCancelRun
| RWaitClosed (c : context)
| RLastError
| RWorkersWait
| RCloseTransport.

Section World.
Context {EM : ErrorModel} {K : Kernel EM}.

Definition resp (r : req) : Type :=
  match r with
  | RCtxErr _ => option error
  | RNow => Z
  | RRandRead _ => result error string
  | RKvGet _ _ => result error (string * Z)
  | RKvCreate _ _ _ | RKvUpdate _ _ _ _ | RKvPut _ _ _ => result error Z
  | RKvDelete _ _ _ => option error
  | RKeyValue _ | RCreateKeyValue _ => option error
  | RKvStatusTTL _ => result error Z
  | RStreamInfo _ => result error StreamConfig
  | RAddStream _ | RUpdateStream _ => option error
  | RConsumerInfo _ _ => result error ConsumerConfig
  | RUpdateConsumer _ _ => option error
  | RPullSubscribe _ _ _ => result error nat
  | RUnsubscribe _ => option error
  | RFetch _ _ _ => result error (list Msg)
  | RStoreGet _ _ => option IdempotencyEntry
  | RStoreSet _ _ _ _ => unit
  | RClaim _ _ _ _ => result error IdempotencyClaim
  | RComplete _ _ _ _ _ | RRelease _ _ _ => option error
  | RStartRenewal _ _ _ => unit
  | RStopRenewal => option error
  | RExecute _ => gores (result error value)
  | RMetadata => result error MsgMetadata
  | RAckSync _ | RNakWithDelay _ _ | RTerm _ | RJsPublish _ _ _ _ => option error
  | RConnIsClosed => bool
  | RSleep _ _ => bool   (* false: the context ended first *)
  | REnsureConn _ => result error nat
  | REnsureJetStream | RJetstreamNew _ | RJsKeyValue _ _ | RJsObjectStore _ _ => option error
  | RJkGet _ _ _ => result error KeyValueEntry
  | RJkPut _ _ _ _ | RJkCreate _ _ _ _ _ | RJkUpdate _ _ _ _ _ => result error Z
  | RJkDelete _ _ _ _ | RJoDelete _ _ _ => option error
  | RObjectStore _ | RObjClose _ => option error
  | RObjGet _ _ _ => result error nat
  | RObjRead _ _ => string * option error   (* what the reader holds, and how it ends (None: EOF) *)
  | RObjPutBytes _ _ _ _ => result error ObjectInfo
  | RKvWatch _ _ | RObjWatch _ => result error nat
  | RKvNext _ => option (option KeyUpdate)     (* None: the channel is closed *)
  | RObjNext _ => option (option ObjectInfo)
  | RWatcherStop _ => option error
  | RExecuteInput _ _ => gores (result error value)
  | RPublishMsg _ | RJsPublishMsg _ _ => option error
  | RRequestMsg _ _ => result error Msg
  | RAddService _ | RSubscribe _ _ => result error nat
  | RAddEndpoint _ _ _ | RServiceStop _ | RRespond _ | RRespondError _ _ => option error
  | RFlush _ | RStartEmbedded | RLastError | RCloseTransport => option error
  | RStopEmbedded | RCancelRun | RWorkersWait => unit
  | RWaitClosed _ => bool  (* true: the connection closed; false: the run context ended *)
  end.

(** ctx.Err(): nil without a call where no cancellation can reach the context. *)
Definition ctx_Err (c : context) : prog resp (option error) :=
  match c with
  | Background | WithoutCancel _ => Ret None
  | _ => call (RCtxErr c)
  end.

Lemma sat_call {A} (r : req) (f : resp r → prog resp A) (Q : list (event resp) → A → Prop) :
  (∀ x, sat (f x) (λ t b, Q (Ev r x :: t) b)) → sat (call r ≫= f) Q.
Proof. apply sat_vis. Qed.
End World.
