(* ===== verification/IdemKV.v ===== *)
(** * The distributed idempotency coordinator (src/tnats/idempotency_kv.go)

    KVIdempotencyCoordinator keeps, in one JetStream key-value bucket, a claim
    document under "claim.<key>" while a request is being executed and an entry
    document under "entry.<key>" once it has a result.  Every method is a program
    over the bucket calls of [World]: the early returns, the context checks and
    the order of the calls are those of the source. *)

From S2P Require Import Prelude Effects Errors World Json.

Local Open Scope Z_scope.

Definition defaultIdempotencyBucket : string := "NEXSS_IDEMPOTENCY".
Definition claimPrefix : string := "claim.".
Definition entryPrefix : string := "entry.".

Record kvClaimPayload := mkClaimPayload {
  cp_Token : string; cp_RequestHash : string; cp_ExpiresAt : Z }.

Record kvEntryPayload := mkEntryPayload {
  ep_Entry : option IdempotencyEntry; ep_ExpiresAt : Z }.

Record KVIdempotencyCoordinator := mkCoordinator { coord_kv : option string }.

(** The bucket of a coordinator, unless c == nil || c.kv == nil. *)
Definition bucket_of (c : option KVIdempotencyCoordinator) : option string :=
  match c with
  | Some c' => coord_kv c'
  | None => None
  end.

(** The JSON form of action.IdempotencyEntry is defined by the kernel. *)
Class EntryJson := {
  entry_to_json : IdempotencyEntry → json;
  entry_of_json : json → option IdempotencyEntry
}.

Class EntryJsonLaws (EJ : EntryJson) : Prop := {
  entry_roundtrip e : entry_of_json (entry_to_json e) = Some e;
  entry_not_null e : entry_to_json e ≠ JNull
}.

(** ** Documents *)
Definition claim_to_json (p : kvClaimPayload) : json :=
  JObj [("token", JStr (cp_Token p)); ("req_hash", JStr (cp_RequestHash p));
        ("exp", JInt (cp_ExpiresAt p))].

Definition claim_step (k : string) (v : json) (p : kvClaimPayload) : option kvClaimPayload :=
  if field_is "token" k then
    (λ s, mkClaimPayload s (cp_RequestHash p) (cp_ExpiresAt p)) <$> decode_string (cp_Token p) v
  else if field_is "req_hash" k then
    (λ s, mkClaimPayload (cp_Token p) s (cp_ExpiresAt p)) <$> decode_string (cp_RequestHash p) v
  else if field_is "exp" k then
    (λ z, mkClaimPayload (cp_Token p) (cp_RequestHash p) z) <$> decode_int64 (cp_ExpiresAt p) v
  else Some p.

Definition claim_of_json (j : json) : option kvClaimPayload :=
  decode_struct claim_step (mkClaimPayload "" "" 0) j.

Section Entries.
Context {EJ : EntryJson}.

Definition payload_to_json (p : kvEntryPayload) : json :=
  JObj [("entry", match ep_Entry p with Some e => entry_to_json e | None => JNull end);
        ("exp", JInt (ep_ExpiresAt p))].

Definition payload_step (k : string) (v : json) (p : kvEntryPayload) : option kvEntryPayload :=
  if field_is "entry" k then
    match v with
    | JNull => Some (mkEntryPayload None (ep_ExpiresAt p))
    | _ => (λ e, mkEntryPayload (Some e) (ep_ExpiresAt p)) <$> entry_of_json v
    end
  else if field_is "exp" k then
    (λ z, mkEntryPayload (ep_Entry p) z) <$> decode_int64 (ep_ExpiresAt p) v
  else Some p.

Definition payload_of_json (j : json) : option kvEntryPayload :=
  decode_struct payload_step (mkEntryPayload None 0) j.
End Entries.

Section Coordinator.
Context {EM : ErrorModel} {K : Kernel EM} {JT : JsonText EM} {EJ : EntryJson}.

Definition app (k : Kind) (m : string) : error := xerr_new k m None.
Definition appw (k : Kind) (m : string) (cause : error) : error := xerr_new k m (Some cause).

(** Text decoding into the two structs: a syntax error, then a type mismatch. *)
Definition unmarshalClaim (data : string) : result error kvClaimPayload :=
  match json_Unmarshal data with
  | Err e => Err e
  | Ok j => match claim_of_json j with
            | Some p => Ok p
            | None => Err (errors_New "json: cannot unmarshal into kvClaimPayload")
            end
  end.

(** ** Small helpers *)
Definition idempotencyContext (ctx : option context) : context :=
  match ctx with None => Background | Some c => c end.

Definition mapIdempotencyKVError (ctx : context) (err : option error) : prog resp (option error) :=
  ctxErr ← ctx_Err ctx;
  match ctxErr with
  | Some e => mret (Some e)
  | None => mret (MapError err)
  end.

(** The same on a non-nil error, for the (T, error) results. *)
Definition mapKVFailure (ctx : context) (err : error) : prog resp error :=
  ctxErr ← ctx_Err ctx;
  match ctxErr with
  | Some e => mret e
  | None => mret (mapError err)
  end.

Definition time_UnixNano (t : Z) : Z := wrap_int64 t.

(** t.Sub(u) saturates. *)
Definition time_Sub (t u : Z) : Z := Z.max int64_min (Z.min int64_max (t - u)).

Definition idempotencyExpiry (now ttl : Z) : result error Z :=
  if ttl <=? 0 then Ok 0
  else if time_Sub int64_max now <? ttl then Err (app KindBadRequest "idempotency TTL is too large")
  else Ok (time_UnixNano (now + ttl)).

Definition newKVClaimToken : prog resp (result error string) :=
  r ← call (RRandRead 16);
  match r with
  | Err e => mret (Err e)
  | Ok token => mret (Ok (hex_encode token))
  end.

Definition marshalKVEntry (entry : IdempotencyEntry) (ttl : Z) : prog resp (result error string) :=
  now ← call RNow;
  match idempotencyExpiry now ttl with
  | Err e => mret (Err e)
  | Ok expiresAt => mret (json_Marshal (payload_to_json (mkEntryPayload (Some entry) expiresAt)))
  end.

(** (entry, found, error) *)
Definition decodeKVEntry (data : string) : prog resp (IdempotencyEntry * bool * option error) :=
  match json_Unmarshal data with
  | Err e => mret (empty_entry, true, Some (appw KindInternal "corrupted idempotency entry in KV" e))
  | Ok j =>
      let legacy :=
        match entry_of_json j with
        | Some e => mret (e, true, None)
        | None => mret (empty_entry, true,
                    Some (appw KindInternal "corrupted legacy idempotency entry in KV"
                            (errors_New "json: cannot unmarshal into IdempotencyEntry")))
        end in
      match j with
      | JNull => legacy
      | JObj fs =>
          if existsb (λ kv, str_eqb kv.1 "entry") fs then
            match payload_of_json j with
            | None => mret (empty_entry, true,
                        Some (appw KindInternal "corrupted idempotency entry in KV"
                                (errors_New "json: cannot unmarshal into kvEntryPayload")))
            | Some stored =>
                match ep_Entry stored with
                | None => mret (empty_entry, true,
                            Some (app KindInternal "corrupted idempotency entry in KV"))
                | Some e =>
                    if ep_ExpiresAt stored =? 0 then mret (e, true, None)
                    else
                      now ← call RNow;
                      if ep_ExpiresAt stored <=? time_UnixNano now
                      then mret (empty_entry, false, None)
                      else mret (e, true, None)
                end
            end
          else legacy
      | _ => mret (empty_entry, true,
               Some (appw KindInternal "corrupted idempotency entry in KV"
                       (errors_New "json: cannot unmarshal into map")))
      end
  end.

(** ** Methods *)
Definition not_initialized : error :=
  app KindUnavailable "idempotency KV coordinator is not initialized".

Definition loadEntry (c : option KVIdempotencyCoordinator) (ctx : context) (key : string)
    : prog resp (IdempotencyEntry * bool * option error) :=
  ctxErr ← ctx_Err ctx;
  match ctxErr with
  | Some e => mret (empty_entry, false, Some e)
  | None =>
      match bucket_of c with
      | None => mret (empty_entry, false, Some not_initialized)
      | Some b =>
          if str_empty key then
            mret (empty_entry, false, Some (app KindBadRequest "idempotency key is required"))
          else
            item ← call (RKvGet b (entryPrefix +:+ key));
            match item with
            | Err err =>
                if (errors_Is err nats_ErrKeyNotFound || errors_Is err nats_ErrKeyDeleted)%bool
                then mret (empty_entry, false, None)
                else e ← mapKVFailure ctx err; mret (empty_entry, false, Some e)
            | Ok (val, _) =>
                ctxErr ← ctx_Err ctx;
                match ctxErr with
                | Some e => mret (empty_entry, false, Some e)
                | None => decodeKVEntry val
                end
            end
      end
  end.

Definition Get (c : option KVIdempotencyCoordinator) (ctx : option context) (key : string)
    : prog resp (IdempotencyEntry * bool) :=
  r ← loadEntry c (idempotencyContext ctx) key;
  match r with
  | (_, _, Some _) => mret (empty_entry, true)
  | (entry, found, None) => mret (entry, found)
  end.

Definition Set_ (c : option KVIdempotencyCoordinator) (ctx : option context) (key : string)
    (entry : IdempotencyEntry) (ttl : Z) : prog resp unit :=
  let ctx := idempotencyContext ctx in
  match bucket_of c with
  | None => mret tt
  | Some b =>
      if str_empty key then mret tt
      else
        data ← marshalKVEntry entry ttl;
        match data with
        | Err _ => mret tt
        | Ok data =>
            ctxErr ← ctx_Err ctx;
            match ctxErr with
            | Some _ => mret tt
            | None => _ ← call (RKvPut b (entryPrefix +:+ key) data); mret tt
            end
        end
  end.

Definition claim_of (s : ClaimState) : IdempotencyClaim :=
  {| cl_State := s; cl_Entry := empty_entry; cl_Token := "" |}.
Definition acquired (token : string) : IdempotencyClaim :=
  {| cl_State := ClaimAcquired; cl_Entry := empty_entry; cl_Token := token |}.

Definition retryCreateClaim (ctx : context) (b claimKey token data : string)
    : prog resp (result error IdempotencyClaim) :=
  r ← call (RKvCreate b claimKey data);
  match r with
  | Ok _ => mret (Ok (acquired token))
  | Err createErr =>
      if errors_Is createErr nats_ErrKeyExists then mret (Ok (claim_of ClaimInProgress))
      else e ← mapKVFailure ctx createErr; mret (Err e)
  end.

Definition replaceExpiredClaim (ctx : context) (b claimKey token data : string) (revision : Z)
    : prog resp (result error IdempotencyClaim) :=
  r ← call (RKvUpdate b claimKey data revision);
  match r with
  | Ok _ => mret (Ok (acquired token))
  | Err updateErr =>
      if errors_Is updateErr nats_ErrKeyRevisionMismatch then mret (Ok (claim_of ClaimInProgress))
      else if (errors_Is updateErr nats_ErrKeyNotFound || errors_Is updateErr nats_ErrKeyDeleted)%bool
      then
        ctxErr ← ctx_Err ctx;
        match ctxErr with
        | Some e => mret (Err e)
        | None => retryCreateClaim ctx b claimKey token data
        end
      else e ← mapKVFailure ctx updateErr; mret (Err e)
  end.

Definition corrupted_claim : string := "corrupted idempotency claim in KV".

Definition resolveExistingClaim (ctx : context) (b claimKey requestHash token : string) (now : Z)
    (data existing : string) (revision : Z) : prog resp (result error IdempotencyClaim) :=
  match unmarshalClaim existing with
  | Err err => mret (Err (appw KindInternal corrupted_claim err))
  | Ok activeClaim =>
      if (str_empty (cp_Token activeClaim) || (cp_ExpiresAt activeClaim <=? 0))%bool then
        mret (Err (app KindInternal corrupted_claim))
      else if (negb (str_empty (cp_RequestHash activeClaim))
               && negb (str_eqb (cp_RequestHash activeClaim) requestHash))%bool then
        mret (Ok (claim_of ClaimConflict))
      else if time_UnixNano now <? cp_ExpiresAt activeClaim then
        mret (Ok (claim_of ClaimInProgress))
      else replaceExpiredClaim ctx b claimKey token data revision
  end.

Definition createClaim (ctx : context) (b claimKey requestHash token : string) (now : Z)
    (data : string) : prog resp (result error IdempotencyClaim) :=
  r ← call (RKvCreate b claimKey data);
  match r with
  | Ok _ => mret (Ok (acquired token))
  | Err createErr =>
      ctxErr ← ctx_Err ctx;
      match ctxErr with
      | Some e => mret (Err e)
      | None =>
          existing ← call (RKvGet b claimKey);
          match existing with
          | Err getErr =>
              if (errors_Is getErr nats_ErrKeyNotFound || errors_Is getErr nats_ErrKeyDeleted)%bool
              then
                if negb (errors_Is createErr nats_ErrKeyExists) then
                  e ← mapKVFailure ctx createErr; mret (Err e)
                else retryCreateClaim ctx b claimKey token data
              else e ← mapKVFailure ctx getErr; mret (Err e)
          | Ok (val, revision) =>
              resolveExistingClaim ctx b claimKey requestHash token now data val revision
          end
      end
  end.

Definition Claim (c : option KVIdempotencyCoordinator) (ctx : option context)
    (key requestHash : string) (leaseTTL : Z) : prog resp (result error IdempotencyClaim) :=
  let ctx := idempotencyContext ctx in
  ctxErr ← ctx_Err ctx;
  match ctxErr with
  | Some e => mret (Err e)
  | None =>
  match bucket_of c with
  | None => mret (Err not_initialized)
  | Some b =>
  if str_empty key then mret (Err (app KindBadRequest "idempotency key is required"))
  else
    let leaseTTL := if leaseTTL <=? 0 then DefaultIdempotencyLeaseTTL else leaseTTL in
    loaded ← loadEntry c ctx key;
    match loaded with
    | (_, _, Some err) => mret (Err err)
    | (entry, true, None) =>
        if (negb (str_empty (e_RequestHash entry))
            && negb (str_eqb (e_RequestHash entry) requestHash))%bool
        then mret (Ok (claim_of ClaimConflict))
        else mret (Ok {| cl_State := ClaimCompleted; cl_Entry := entry; cl_Token := "" |})
    | (_, false, None) =>
        now ← call RNow;
        match idempotencyExpiry now leaseTTL with
        | Err err => mret (Err err)
        | Ok expiresAt =>
            tok ← newKVClaimToken;
            match tok with
            | Err err =>
                mret (Err (appw KindInternal "failed to generate idempotency claim token" err))
            | Ok token =>
                match json_Marshal (claim_to_json (mkClaimPayload token requestHash expiresAt)) with
                | Err err =>
                    mret (Err (appw KindInternal "failed to marshal idempotency claim" err))
                | Ok data =>
                    ctxErr ← ctx_Err ctx;
                    match ctxErr with
                    | Some e => mret (Err e)
                    | None => createClaim ctx b (claimPrefix +:+ key) requestHash token now data
                    end
                end
            end
        end
    end
  end
  end.

(** The checks that extendClaimForCompletion and RenewClaim share on the stored
    claim, in this order: corrupted, foreign token, expired. *)
Definition owned_claim (item token : string) : result error kvClaimPayload :=
  match unmarshalClaim item with
  | Err decodeErr => Err (appw KindInternal corrupted_claim decodeErr)
  | Ok activeClaim =>
      if (str_empty (cp_Token activeClaim) || (cp_ExpiresAt activeClaim <=? 0))%bool then
        Err (app KindInternal corrupted_claim)
      else if negb (str_eqb (cp_Token activeClaim) token) then
        Err (app KindConflict "idempotency claim is owned by another token")
      else Ok activeClaim
  end.

Definition extendClaimForCompletion (b : string) (ctx : context) (key token : string)
    : prog resp (result error Z) :=
  let claimKey := claimPrefix +:+ key in
  item ← call (RKvGet b claimKey);
  match item with
  | Err err => e ← mapKVFailure ctx err; mret (Err e)
  | Ok (val, revision) =>
      match owned_claim val token with
      | Err e => mret (Err e)
      | Ok activeClaim =>
          now ← call RNow;
          if cp_ExpiresAt activeClaim <=? time_UnixNano now then
            mret (Err (app KindConflict "idempotency claim has expired"))
          else
            match idempotencyExpiry now DefaultIdempotencyLeaseTTL with
            | Err err => mret (Err err)
            | Ok expiresAt =>
                match json_Marshal (claim_to_json
                        (mkClaimPayload (cp_Token activeClaim) (cp_RequestHash activeClaim) expiresAt)) with
                | Err err => mret (Err (appw KindInternal "failed to marshal idempotency claim" err))
                | Ok claimData =>
                    ctxErr ← ctx_Err ctx;
                    match ctxErr with
                    | Some e => mret (Err e)
                    | None =>
                        r ← call (RKvUpdate b claimKey claimData revision);
                        match r with
                        | Err err => e ← mapKVFailure ctx err; mret (Err e)
                        | Ok claimInfo => mret (Ok claimInfo)
                        end
                    end
                end
            end
      end
  end.

Definition key_token_required : error :=
  app KindBadRequest "idempotency key and claim token are required".

Definition Complete (c : option KVIdempotencyCoordinator) (ctx : option context)
    (key token : string) (entry : IdempotencyEntry) (ttl : Z) : prog resp (option error) :=
  let ctx := idempotencyContext ctx in
  ctxErr ← ctx_Err ctx;
  match ctxErr with
  | Some e => mret (Some e)
  | None =>
  match bucket_of c with
  | None => mret (Some not_initialized)
  | Some b =>
  if (str_empty key || str_empty token)%bool then mret (Some key_token_required)
  else
    data ← marshalKVEntry entry ttl;
    match data with
    | Err err => mret (Some err)
    | Ok entryData =>
        ext ← extendClaimForCompletion b ctx key token;
        match ext with
        | Err err => mret (Some err)
        | Ok claimRevision =>
            ctxErr ← ctx_Err ctx;
            match ctxErr with
            | Some e => mret (Some e)
            | None =>
                put ← call (RKvPut b (entryPrefix +:+ key) entryData);
                match put with
                | Err err => e ← mapKVFailure ctx err; mret (Some e)
                | Ok _ =>
                    ctxErr ← ctx_Err ctx;
                    match ctxErr with
                    | Some e => mret (Some e)
                    | None =>
                        del ← call (RKvDelete b (claimPrefix +:+ key) claimRevision);
                        match del with
                        | Some err => mapIdempotencyKVError ctx (Some err)
                        | None => mret None
                        end
                    end
                end
            end
        end
    end
  end
  end.

Definition Release (c : option KVIdempotencyCoordinator) (ctx : option context) (key token : string)
    : prog resp (option error) :=
  let ctx := idempotencyContext ctx in
  ctxErr ← ctx_Err ctx;
  match ctxErr with
  | Some e => mret (Some e)
  | None =>
  match bucket_of c with
  | None => mret (Some not_initialized)
  | Some b =>
  if (str_empty key || str_empty token)%bool then mret (Some key_token_required)
  else
    let claimKey := claimPrefix +:+ key in
    item ← call (RKvGet b claimKey);
    match item with
    | Err err =>
        if (errors_Is err nats_ErrKeyNotFound || errors_Is err nats_ErrKeyDeleted)%bool
        then mret None
        else mapIdempotencyKVError ctx (Some err)
    | Ok (val, revision) =>
        match unmarshalClaim val with
        | Err err => mret (Some (appw KindInternal corrupted_claim err))
        | Ok activeClaim =>
            if str_eqb (cp_Token activeClaim) token then
              err ← call (RKvDelete b claimKey revision);
              match err with
              | Some e =>
                  if (errors_Is e nats_ErrKeyNotFound || errors_Is e nats_ErrKeyDeleted)%bool
                  then mret None
                  else mapIdempotencyKVError ctx (Some e)
              | None => mapIdempotencyKVError ctx None
              end
            else mret None
        end
    end
  end
  end.

Definition RenewClaim (c : option KVIdempotencyCoordinator) (ctx : option context)
    (key token : string) (leaseTTL : Z) : prog resp (option error) :=
  let ctx := idempotencyContext ctx in
  ctxErr ← ctx_Err ctx;
  match ctxErr with
  | Some e => mret (Some e)
  | None =>
  match bucket_of c with
  | None => mret (Some not_initialized)
  | Some b =>
  if (str_empty key || str_empty token)%bool then mret (Some key_token_required)
  else
    let leaseTTL := if leaseTTL <=? 0 then DefaultIdempotencyLeaseTTL else leaseTTL in
    let claimKey := claimPrefix +:+ key in
    item ← call (RKvGet b claimKey);
    match item with
    | Err err => mapIdempotencyKVError ctx (Some err)
    | Ok (val, revision) =>
        match owned_claim val token with
        | Err e => mret (Some e)
        | Ok activeClaim =>
            now ← call RNow;
            if cp_ExpiresAt activeClaim <=? time_UnixNano now then
              mret (Some (app KindConflict "idempotency claim has expired"))
            else
              match idempotencyExpiry now leaseTTL with
              | Err err => mret (Some err)
              | Ok expiresAt =>
                  match json_Marshal (claim_to_json
                          (mkClaimPayload (cp_Token activeClaim) (cp_RequestHash activeClaim) expiresAt)) with
                  | Err err => mret (Some (appw KindInternal "failed to marshal idempotency claim" err))
                  | Ok data =>
                      ctxErr ← ctx_Err ctx;
                      match ctxErr with
                      | Some e => mret (Some e)
                      | None =>
                          r ← call (RKvUpdate b claimKey data revision);
                          match r with
                          | Err err => mapIdempotencyKVError ctx (Some err)
                          | Ok _ => mret None
                          end
                      end
                  end
              end
        end
    end
  end
  end.

(** ** Provisioning the bucket *)
Definition removeIdempotencyBucketMaxAge (name : string) : prog resp (option error) :=
  status ← call (RKvStatusTTL name);
  match status with
  | Err err => mret (Some (mapError err))
  | Ok ttl =>
      if ttl <=? 0 then mret None
      else
        info ← call (RStreamInfo ("KV_" +:+ name));
        match info with
        | Err err => mret (Some (mapError err))
        | Ok cfg =>
            let cfg' := {| sc_Name := sc_Name cfg; sc_Subjects := sc_Subjects cfg;
                           sc_Storage := sc_Storage cfg; sc_Retention := sc_Retention cfg;
                           sc_Discard := sc_Discard cfg; sc_MaxAge := 0; sc_Other := sc_Other cfg |} in
            updateErr ← call (RUpdateStream cfg');
            match updateErr with
            | Some err => mret (Some (mapError err))
            | None =>
                status ← call (RKvStatusTTL name);
                match status with
                | Err err => mret (Some (mapError err))
                | Ok ttl =>
                    if 0 <? ttl then
                      mret (Some (app KindInternal "idempotency KV bucket still has a physical TTL"))
                    else mret None
                end
            end
        end
  end.

Definition ledger_description : string := "Nexss Distributed Idempotency Ledger".

Definition NewKVIdempotencyCoordinator (js : bool) (bucketName : list string)
    : prog resp (result error KVIdempotencyCoordinator) :=
  if negb js then mret (Err (app KindBadRequest "idempotency JetStream context is required"))
  else if (1 <? length bucketName)%nat then
    mret (Err (app KindBadRequest "at most one idempotency bucket name may be specified"))
  else
    let name := match bucketName with
                | [n] => if str_empty n then defaultIdempotencyBucket else n
                | _ => defaultIdempotencyBucket
                end in
    err ← call (RKeyValue name);
    err ← match err with
          | Some e =>
              if errors_Is e nats_ErrBucketNotFound then
                call (RCreateKeyValue {| kc_Bucket := name; kc_Description := ledger_description;
                                         kc_History := 1; kc_TTL := 0; kc_Storage := FileStorage |})
              else mret (Some e)
          | None => mret None
          end;
    match err with
    | Some e => mret (Err (mapError e))
    | None =>
        err ← removeIdempotencyBucketMaxAge name;
        match err with
        | Some e => mret (Err e)
        | None => mret (Ok {| coord_kv := Some name |})
        end
    end.

Definition EnsureIdempotencyBucket (js : bool) (name : string) (ttl : Z) : prog resp (option error) :=
  if negb js then mret (Some (app KindBadRequest "idempotency JetStream context is required"))
  else if str_empty name then mret (Some (app KindBadRequest "idempotency bucket name is required"))
  else if ttl <? 0 then mret (Some (app KindBadRequest "idempotency bucket TTL must not be negative"))
  else
    err ← call (RCreateKeyValue {| kc_Bucket := name; kc_Description := ledger_description;
                                   kc_History := 0; kc_TTL := ttl; kc_Storage := FileStorage |});
    match err with
    | Some e =>
        if negb (errors_Is e nats_ErrStreamNameAlreadyInUse) then
          mret (Some (mapError (fmt_Errorf_w "tnats: failed to ensure idempotency bucket" e)))
        else mret None
    | None => mret None
    end.
End Coordinator.
