(* ===== verification/KVContract.v ===== *)
(** * What a JetStream key-value bucket promises

    The bucket is code outside the repository: its state is abstract and only its
    documented contract is used.  [kvview] is what a client can know of it: the
    live value of each key, the revision of the last change of each key (a delete
    marker has one too) and the last revision given out.  Revisions are stream
    sequence numbers, so each change gets a fresh, larger one.

    [kv_contract] allows every failure: a call that returns an error may or may
    not have been applied. *)

From S2P Require Import Prelude Effects Errors World.

Local Open Scope Z_scope.

Abbreviation kvkey := (string * string)%type.   (* bucket, key *)

Record kvview := mkView {
  live : gmap kvkey string;
  rev : gmap kvkey Z;
  seqno : Z
}.

Definition put_view (k : kvkey) (v : string) (r : Z) (a : kvview) : kvview :=
  {| live := <[k := v]> (live a); rev := <[k := r]> (rev a); seqno := r |}.

Definition del_view (k : kvkey) (r : Z) (a : kvview) : kvview :=
  {| live := delete k (live a); rev := <[k := r]> (rev a); seqno := r |}.

(** A revision is assigned to every key that was ever written. *)
Record view_ok (a : kvview) : Prop := {
  vo_live k v : live a !! k = Some v → is_Some (rev a !! k);
  vo_rev k r : rev a !! k = Some r → 0 < r ≤ seqno a;
  vo_seq : 0 ≤ seqno a
}.

Section Contract.
Context {EM : ErrorModel} {K : Kernel EM}.

(** An expected revision: 0 stands for no precondition. *)
Definition expected (k : kvkey) (r0 : Z) (a : kvview) : Prop :=
  r0 = 0 ∨ rev a !! k = Some r0.

Definition kv_contract (r : req) : resp r → kvview → kvview → Prop :=
  match r with
  | RKvGet b k => λ x a a',
      a' = a ∧
      match x with
      | Ok (v, n) => live a !! (b, k) = Some v ∧ rev a !! (b, k) = Some n
      | Err e => errors_Is e nats_ErrKeyNotFound = true ∨ errors_Is e nats_ErrKeyDeleted = true →
                 live a !! (b, k) = None
      end
  | RKvCreate b k v => λ x a a',
      match x with
      | Ok n => live a !! (b, k) = None ∧ seqno a < n ∧ a' = put_view (b, k) v n a
      | Err _ => a' = a ∨
          ∃ n, live a !! (b, k) = None ∧ seqno a < n ∧ a' = put_view (b, k) v n a
      end
  | RKvUpdate b k v r0 => λ x a a',
      match x with
      | Ok n => expected (b, k) r0 a ∧ seqno a < n ∧ a' = put_view (b, k) v n a
      | Err _ => a' = a ∨
          ∃ n, expected (b, k) r0 a ∧ seqno a < n ∧ a' = put_view (b, k) v n a
      end
  | RKvPut b k v => λ x a a',
      match x with
      | Ok n => seqno a < n ∧ a' = put_view (b, k) v n a
      | Err _ => a' = a ∨ ∃ n, seqno a < n ∧ a' = put_view (b, k) v n a
      end
  | RKvDelete b k r0 => λ x a a',
      let deleted := ∃ n, expected (b, k) r0 a ∧ seqno a < n ∧ a' = del_view (b, k) n a in
      match x with
      | None => deleted
      | Some _ => a' = a ∨ deleted
      end
  | _ => λ _ a a', a' = a
  end.

(** A key-value server: hidden state, its view, and its answers. *)
Class KVServer := {
  kvstate : Type;
  kv_view : kvstate → kvview;
  kv_answer : kvstate → ∀ r : req, resp r → kvstate → Prop
}.

Class KVServerLaws (SV : KVServer) : Prop := {
  kv_sound s r x s' : kv_answer s r x s' → kv_contract r x (kv_view s) (kv_view s')
}.
End Contract.
