(* ===== verification/KVGuard.v ===== *)
(** * Proving programs against a shared key-value bucket

    The clients of a bucket interleave: between two calls of one program any
    other client may change any key.  [safe p w Q] is a rely-guarantee judgement
    on a [prog]: under any interference ([wle]) every call it makes satisfies the
    [guard] - it does not change an unexpired claim whose token the caller does
    not own - and its result satisfies [Q].

    The one fact about the bucket that survives interference is [knows]: while
    key [k] still has revision [r], its value is [v]. *)

From S2P Require Import Prelude Effects Errors World Json IdemKV KVContract.

Local Open Scope Z_scope.

(** ** Interference on the bucket *)
Definition untouched (k : kvkey) (a a' : kvview) : Prop :=
  live a' !! k = live a !! k ∧ rev a' !! k = rev a !! k.

Record evolves (a a' : kvview) : Prop := {
  ev_seq : seqno a ≤ seqno a';
  ev_key k : untouched k a a' ∨ ∃ r, rev a' !! k = Some r ∧ seqno a < r
}.

#[export] Instance evolves_preorder : PreOrder evolves.
Proof.
  split.
  - intros a. split; [lia|]. intros k. left. done.
  - intros a b c [S1 K1] [S2 K2]. split; [lia|]. intros k.
    destruct (K2 k) as [[L R]|(r & R & Hr)]; [|right; exists r; split; [done|lia]].
    destruct (K1 k) as [[L' R']|(r & R' & Hr)].
    + left. split; congruence.
    + right. exists r. split; [congruence|lia].
Qed.

Lemma put_untouched k k' v n a : k ≠ k' → untouched k a (put_view k' v n a).
Proof. intros. split; cbn; by rewrite lookup_insert_ne. Qed.

Lemma del_untouched k k' n a : k ≠ k' → untouched k a (del_view k' n a).
Proof. intros. split; cbn; [by rewrite lookup_delete_ne|by rewrite lookup_insert_ne]. Qed.

Lemma put_evolves k v n a : seqno a < n → evolves a (put_view k v n a).
Proof.
  intros Hn. split; [cbn; lia|]. intros k'. destruct (decide (k' = k)) as [->|Hk].
  - right. exists n. split; [apply lookup_insert_eq|done].
  - left. by apply put_untouched.
Qed.

Lemma del_evolves k n a : seqno a < n → evolves a (del_view k n a).
Proof.
  intros Hn. split; [cbn; lia|]. intros k'. destruct (decide (k' = k)) as [->|Hk].
  - right. exists n. split; [apply lookup_insert_eq|done].
  - left. by apply del_untouched.
Qed.

Lemma put_ok k v n a : seqno a < n → view_ok a → view_ok (put_view k v n a).
Proof.
  intros Hn [L R S]. split; cbn; [| |lia].
  - intros k' v'. destruct (decide (k = k')) as [->|].
    + rewrite !lookup_insert_eq. eauto.
    + rewrite !lookup_insert_ne by done. eauto.
  - intros k' r. destruct (decide (k = k')) as [->|].
    + rewrite lookup_insert_eq. intros. simplify_eq. lia.
    + rewrite lookup_insert_ne by done. intros H. apply R in H. lia.
Qed.

Lemma del_ok k n a : seqno a < n → view_ok a → view_ok (del_view k n a).
Proof.
  intros Hn [L R S]. split; cbn; [| |lia].
  - intros k' v' [Hk H]%lookup_delete_Some. rewrite lookup_insert_ne by done. eauto.
  - intros k' r. destruct (decide (k = k')) as [->|].
    + rewrite lookup_insert_eq. intros. simplify_eq. lia.
    + rewrite lookup_insert_ne by done. intros H. apply R in H. lia.
Qed.

(** Revisions identify values, under any interference. *)
Record knows (a : kvview) (k : kvkey) (r : Z) (v : string) : Prop := {
  kn_range : 0 < r ≤ seqno a;
  kn_value : rev a !! k = Some r → live a !! k = Some v
}.

Lemma knows_mono a a' k r v : evolves a a' → knows a k r v → knows a' k r v.
Proof.
  intros [S K] [R V]. split; [lia|]. intros Hr.
  destruct (K k) as [[L R']|(r' & R' & Hr')]; [rewrite L; apply V; congruence|].
  rewrite Hr in R'. simplify_eq. lia.
Qed.

(** Only a call whose expected revision is current can change the key. *)
Lemma knows_expected a k r v : knows a k r v → expected k r a → live a !! k = Some v.
Proof. intros [R V] [->|H]; [lia|auto]. Qed.

Section Guard.
Context {EM : ErrorModel} {K : Kernel EM} {JT : JsonText EM}.

Lemma contract_evolves r x a a' :
  kv_contract r x a a' → view_ok a → evolves a a' ∧ view_ok a'.
Proof.
  destruct r; cbn; intros C Ha; try (subst; split; [reflexivity|done]).
  - destruct C as [-> _]. split; [reflexivity|done].
  - destruct x; destr_all; subst; split;
      try reflexivity; auto using put_evolves, put_ok.
  - destruct x; destr_all; subst; split;
      try reflexivity; auto using put_evolves, put_ok.
  - destruct x; destr_all; subst; split;
      try reflexivity; auto using put_evolves, put_ok.
  - destruct x; destr_all; subst; split;
      try reflexivity; auto using del_evolves, del_ok.
Qed.

(** ** Claims in the bucket *)
Definition claim_key (b key : string) : kvkey := (b, claimPrefix +:+ key).
Definition entry_key (b key : string) : kvkey := (b, entryPrefix +:+ key).

(** The bucket holds a readable claim under [key] that has not expired at [now]. *)
Definition active (a : kvview) (now : Z) (b key : string) (p : kvClaimPayload) : Prop :=
  ∃ v, live a !! claim_key b key = Some v ∧ unmarshalClaim v = Ok p
       ∧ time_UnixNano now < cp_ExpiresAt p.

Lemma claim_not_entry b b' key key' : claim_key b key ≠ entry_key b' key'.
Proof. unfold claim_key, entry_key. intros H. by simplify_eq. Qed.

(** ** The judgement *)
Record world := mkWorld { w_own : gset string; w_view : kvview; w_now : Z }.

Record wle (w w' : world) : Prop := {
  wle_own : w_own w ⊆ w_own w';
  wle_view : evolves (w_view w) (w_view w');
  wle_now : w_now w ≤ w_now w';
  wle_ok : view_ok (w_view w');
  wle_clock : in_int64 (w_now w')
}.

Definition guard (r : req) (w : world) : Prop :=
  ∀ x a', kv_contract r x (w_view w) a' →
  ∀ b key p, active (w_view w) (w_now w) b key p → cp_Token p ∉ w_own w →
  untouched (claim_key b key) (w_view w) a'.

(** The clock answers with the current time. *)
Definition clock_ok (now : Z) (r : req) : resp r → Prop :=
  match r with RNow => λ x, x = now | _ => λ _, True end.

(** The tokens a random read gives to the caller. *)
Definition drawn (r : req) : resp r → gset string :=
  match r with
  | RRandRead _ => λ x, match x with Ok s => {[ hex_encode s ]} | Err _ => ∅ end
  | _ => λ _, ∅
  end.

Record answered (w : world) (r : req) (x : resp r) (w' : world) : Prop := {
  an_contract : kv_contract r x (w_view w) (w_view w');
  an_now : w_now w' = w_now w;
  an_clock : clock_ok (w_now w) r x;
  an_own : w_own w' = w_own w ∪ drawn r x
}.

Fixpoint safe {A} (p : prog resp A) (w : world) (Q : A → world → Prop) : Prop :=
  match p with
  | Ret a => Q a w
  | Vis r k => ∀ w1, wle w w1 →
      guard r w1 ∧ ∀ x w2, answered w1 r x w2 → wle w1 w2 → safe (k x) w2 Q
  end.

Lemma safe_bind {A B} (p : prog resp A) (f : A → prog resp B) w Q :
  safe p w (λ a w', safe (f a) w' Q) → safe (p ≫= f) w Q.
Proof.
  unfold mbind, prog_mbind. revert w. induction p as [a|r k IH]; intros w; cbn; [done|].
  intros H w1 Hw. destruct (H w1 Hw) as [G N]. split; [done|].
  intros x w2 An Hw2. apply IH. eauto.
Qed.

Lemma wle_trans w1 w2 w3 : wle w1 w2 → wle w2 w3 → wle w1 w3.
Proof.
  intros [] []. split; [set_solver|by etrans|lia|done|done].
Qed.

(** A program in progress stays safe when the others move. *)
Lemma safe_wle p w w' : wle w w' → safe p w (λ (_ : unit) _, True) → safe p w' (λ _ _, True).
Proof.
  destruct p as [a|r k]; cbn; [done|]. intros Hw H w1 Hw1. apply H. by eapply wle_trans.
Qed.

Lemma answered_wle w r x w' :
  answered w r x w' → view_ok (w_view w) → in_int64 (w_now w) → wle w w'.
Proof.
  intros [C N Cl O] V T. destruct (contract_evolves _ _ _ _ C V) as [E V'].
  split; [rewrite O; set_solver|done|lia|done|by rewrite N].
Qed.

(** ** Guards of the calls *)

(** Calls that write nothing, or write a key only when it is free. *)
Definition harmless (r : req) : bool :=
  match r with
  | RKvUpdate _ _ _ _ | RKvPut _ _ _ | RKvDelete _ _ _ => false
  | _ => true
  end.

Lemma guard_harmless r w : harmless r = true → guard r w.
Proof.
  intros Hr x a' C b key p (v & Hl & _) _.
  destruct r; cbn in *; try done; try (subst; done).
  - by destruct C as [-> _].
  - assert (Hput : ∀ n, live (w_view w) !! (bucket, key0) = None →
      untouched (claim_key b key) (w_view w) (put_view (bucket, key0) val n (w_view w))).
    { intros n Hn. apply put_untouched. intros Hk. rewrite <- Hk in Hn. congruence. }
    destruct x; destr_all; subst; auto. done.
Qed.

Lemma guard_put b key v w : guard (RKvPut b (entryPrefix +:+ key) v) w.
Proof.
  intros x a' C b' key' p _ _.
  assert (Hput : ∀ n, untouched (claim_key b' key') (w_view w)
                        (put_view (entry_key b key) v n (w_view w))).
  { intros n. apply put_untouched, claim_not_entry. }
  destruct x; cbn in C; destr_all; subst; auto. done.
Qed.

(** A write or delete at a known revision is allowed when the value it replaces is
    the caller's claim or has expired. *)
Definition replaceable (w : world) (v : string) : Prop :=
  ∀ p, unmarshalClaim v = Ok p →
    cp_Token p ∈ w_own w ∨ cp_ExpiresAt p ≤ time_UnixNano (w_now w).

Lemma replaceable_key w b k r v b' key' p :
  knows (w_view w) (b, k) r v → replaceable w v → expected (b, k) r (w_view w) →
  active (w_view w) (w_now w) b' key' p → cp_Token p ∉ w_own w →
  claim_key b' key' ≠ (b, k).
Proof.
  intros Hk Hr He (v' & Hl & Hu & Ha) Ho Heq. pose proof (knows_expected _ _ _ _ Hk He) as Hv.
  rewrite Heq, Hv in Hl. simplify_eq. destruct (Hr p Hu); [done|lia].
Qed.

Lemma guard_update w b k v r v0 :
  knows (w_view w) (b, k) r v0 → replaceable w v0 → guard (RKvUpdate b k v r) w.
Proof.
  intros Hk Hr x a' C b' key' p Ha Ho.
  assert (Hput : ∀ n, expected (b, k) r (w_view w) →
    untouched (claim_key b' key') (w_view w) (put_view (b, k) v n (w_view w))).
  { intros n He. apply put_untouched. by eapply replaceable_key. }
  destruct x; cbn in C; destr_all; subst; auto. done.
Qed.

Lemma guard_delete w b k r v0 :
  knows (w_view w) (b, k) r v0 → replaceable w v0 → guard (RKvDelete b k r) w.
Proof.
  intros Hk Hr x a' C b' key' p Ha Ho.
  assert (Hdel : ∀ n, expected (b, k) r (w_view w) →
    untouched (claim_key b' key') (w_view w) (del_view (b, k) n (w_view w))).
  { intros n He. apply del_untouched. by eapply replaceable_key. }
  destruct x; cbn in C; destr_all; subst; auto. done.
Qed.

Lemma unixnano_mono t t' : in_int64 t → in_int64 t' → t ≤ t' → time_UnixNano t ≤ time_UnixNano t'.
Proof. intros. unfold time_UnixNano. rewrite !wrap_int64_id; done. Qed.

Lemma replaceable_mono w w' v :
  in_int64 (w_now w) → wle w w' → replaceable w v → replaceable w' v.
Proof.
  intros Ht Hw H p Hp. destruct (H p Hp) as [Ho|He].
  - left. destruct Hw. set_solver.
  - right. pose proof (unixnano_mono _ _ Ht (wle_clock _ _ Hw) (wle_now _ _ Hw)). lia.
Qed.

Lemma replaceable_own w v p :
  unmarshalClaim v = Ok p → cp_Token p ∈ w_own w → replaceable w v.
Proof. intros H Ho p' Hp. left. congruence. Qed.

(** ** What a successful call teaches *)
Lemma get_knows w b k v n w' :
  answered w (RKvGet b k) (Ok (v, n)) w' → view_ok (w_view w') →
  knows (w_view w') (b, k) n v.
Proof.
  intros [C _ _ _] V. cbn in C. destruct C as (E & Hl & Hr). rewrite E in V |- *.
  split; [|done]. by eapply vo_rev.
Qed.

Lemma update_knows w b k v r n w' :
  answered w (RKvUpdate b k v r) (Ok n) w' → view_ok (w_view w) →
  knows (w_view w') (b, k) n v.
Proof.
  intros [C _ _ _] V. cbn in C. destruct C as (_ & Hn & ->). destruct V. split; cbn; [lia|].
  intros _. apply lookup_insert_eq.
Qed.
End Guard.
