(* ===== verification/IdemKVSafe.v ===== *)
(** * Every coordinator method respects foreign claims

    [safe] for each method of KVIdempotencyCoordinator: whatever the other clients
    do between its calls and however its own calls fail, it never changes an
    unexpired claim whose token it does not own. *)

From S2P Require Import Prelude Effects Errors World Json IdemKV KVContract KVGuard.

Local Open Scope Z_scope.

(** ** The claim document *)
Lemma claim_roundtrip p :
  in_int64 (cp_ExpiresAt p) → claim_of_json (claim_to_json p) = Some p.
Proof.
  destruct p as [tok h e]. unfold in_int64. cbn [cp_ExpiresAt]. intros He.
  unfold claim_of_json, decode_struct, claim_to_json. cbn [decode_fields].
  unfold claim_step at 1. change (field_is "token" "token") with true. cbn [decode_string fmap option_fmap option_map].
  unfold claim_step at 1. change (field_is "token" "req_hash") with false.
  change (field_is "req_hash" "req_hash") with true. cbn [decode_string fmap option_fmap option_map].
  unfold claim_step at 1. change (field_is "token" "exp") with false.
  change (field_is "req_hash" "exp") with false. change (field_is "exp" "exp") with true.
  cbn [decode_int64 cp_Token cp_RequestHash cp_ExpiresAt]. unfold decode_int64.
  destruct (int64_min <=? e) eqn:E1; [|go_bool; lia].
  destruct (e <=? int64_max) eqn:E2; [|go_bool; lia]. done.
Qed.

Definition payload_utf8 (p : kvClaimPayload) : bool :=
  (utf8_valid (cp_Token p) && utf8_valid (cp_RequestHash p))%bool.

Lemma claim_step_utf8 k v p p' :
  json_utf8 v = true → payload_utf8 p = true → claim_step k v p = Some p' → payload_utf8 p' = true.
Proof.
  unfold claim_step, payload_utf8, decode_string, decode_int64. intros Hv Hp H. go_bool.
  destruct Hp. repeat case_match; simplify_eq/=; go_bool; auto.
Qed.

Lemma decode_fields_utf8 fs p p' :
  json_utf8 (JObj fs) = true → payload_utf8 p = true →
  decode_fields claim_step fs p = Some p' → payload_utf8 p' = true.
Proof.
  revert p. induction fs as [|[k v] fs IH]; intros p; cbn; [by intros; simplify_eq|].
  intros Hf Hp H. go_bool. destruct Hf as [[_ Hv] Hf].
  destruct (claim_step k v p) as [q|] eqn:E; [|done].
  eapply IH; [exact Hf| |exact H]. by eapply claim_step_utf8.
Qed.

Lemma claim_of_json_utf8 j p :
  json_utf8 j = true → claim_of_json j = Some p → payload_utf8 p = true.
Proof.
  unfold claim_of_json, decode_struct. destruct j; try done; [by intros; simplify_eq|].
  intros Hj. by apply decode_fields_utf8.
Qed.

Section Safe.
Context {EM : ErrorModel} {K : Kernel EM} {JT : JsonText EM} {JL : JsonTextLaws JT} {EJ : EntryJson}.

Lemma unmarshal_utf8 v p : unmarshalClaim v = Ok p → payload_utf8 p = true.
Proof.
  unfold unmarshalClaim. destruct (json_Unmarshal v) as [j|] eqn:E; [|done].
  destruct (claim_of_json j) eqn:Ej; [|done]. intros. simplify_eq.
  eapply claim_of_json_utf8; [|done]. by eapply json_decoded_utf8.
Qed.

(** What was written is what is read. *)
Lemma claim_text_roundtrip p s :
  payload_utf8 p = true → in_int64 (cp_ExpiresAt p) →
  json_Marshal (claim_to_json p) = Ok s → unmarshalClaim s = Ok p.
Proof.
  intros Hp He Hs. unfold unmarshalClaim. rewrite (json_roundtrip (claim_to_json p) s).
  - by rewrite claim_roundtrip.
  - unfold payload_utf8 in Hp. go_bool. destruct Hp as [H1 H2]. cbn.
    change (utf8_valid "token") with true. change (utf8_valid "req_hash") with true.
    change (utf8_valid "exp") with true. by rewrite H1, H2.
  - done.
Qed.

Lemma expiry_int64 now ttl e : idempotencyExpiry now ttl = Ok e → in_int64 e.
Proof.
  unfold idempotencyExpiry, in_int64, time_UnixNano, wrap_int64, int64_min, int64_max.
  intros H. repeat case_match; simplify_eq; [lia|].
  pose proof (Z.mod_pos_bound (now + ttl + 2 ^ 63) (2 ^ 64)). lia.
Qed.

Lemma owned_claim_ok v token p :
  owned_claim v token = Ok p → unmarshalClaim v = Ok p ∧ cp_Token p = token.
Proof.
  unfold owned_claim. repeat case_match; intros; simplify_eq; go_bool. done.
Qed.

(** ** Stepping *)
Definition wok (w : world) : Prop := view_ok (w_view w) ∧ in_int64 (w_now w).

Lemma wle_wok w w' : wle w w' → wok w'.
Proof. by intros []. Qed.

Lemma wle_refl w : wok w → wle w w.
Proof. intros [V T]. split; [set_solver|reflexivity|lia|done|done]. Qed.

Lemma safe_call {A} r (f : resp r → prog resp A) w Q :
  (∀ w1, wle w w1 → guard r w1 ∧
     ∀ x w2, answered w1 r x w2 → wle w1 w2 → safe (f x) w2 Q) →
  safe (call r ≫= f) w Q.
Proof. intros H. exact H. Qed.

Lemma safe_harmless {A} r (f : resp r → prog resp A) w Q :
  harmless r = true →
  (∀ x w1 w2, answered w1 r x w2 → wle w w1 → wle w w2 → wok w1 → safe (f x) w2 Q) →
  safe (call r ≫= f) w Q.
Proof.
  intros Hr H. apply safe_call. intros w1 Hw1. split; [by apply guard_harmless|].
  intros x w2 An Hw2. eapply H; [exact An|done|by eapply wle_trans|by eapply wle_wok].
Qed.

Lemma safe_ctx_Err {A} c (f : option error → prog resp A) w Q :
  wok w → (∀ x w', wle w w' → safe (f x) w' Q) → safe (ctx_Err c ≫= f) w Q.
Proof.
  intros Hw H. destruct c; cbn [ctx_Err]; try (apply H, wle_refl, Hw);
    (apply safe_harmless; [done|]; intros x w1 w2 An H1 H2 O1; by apply H).
Qed.

Lemma safe_track {A} (p : prog resp A) w0 w Q :
  wle w0 w → safe p w Q → safe p w (λ a w', Q a w' ∧ wle w0 w').
Proof.
  revert w. induction p as [a|r k IH]; cbn; intros w Hw Hp; [done|].
  intros w1 H1. destruct (Hp w1 H1) as [G N]. split; [done|]. intros x w2 An H2.
  apply IH; [|by apply N]. eapply wle_trans; [exact Hw|]. by eapply wle_trans.
Qed.

Lemma safe_mono {A} (p : prog resp A) w (Q Q' : A → world → Prop) :
  (∀ a w', Q a w' → Q' a w') → safe p w Q → safe p w Q'.
Proof.
  intros HQ. revert w. induction p as [a|r k IH]; cbn; intros w Hp; [by apply HQ|].
  intros w1 H1. destruct (Hp w1 H1) as [G N]. split; [done|]. intros x w2 An H2. eauto.
Qed.

(** Sequencing when the first program only has to be safe. *)
Lemma safe_seq {A B} (p : prog resp A) (f : A → prog resp B) w Q :
  wok w → safe p w (λ _ _, True) → (∀ a w', wle w w' → safe (f a) w' Q) → safe (p ≫= f) w Q.
Proof.
  intros Hw Hp Hf. apply safe_bind. eapply safe_mono; [|apply safe_track, Hp; by apply wle_refl].
  intros a w' [_ H]. by apply Hf.
Qed.

Lemma safe_mapKVFailure c e w : wok w → safe (mapKVFailure c e) w (λ _ _, True).
Proof. intros Hw. apply safe_ctx_Err; [done|]. by intros [x|] w' Hw'. Qed.

Lemma safe_mapIdempotencyKVError c e w : wok w → safe (mapIdempotencyKVError c e) w (λ _ _, True).
Proof. intros Hw. apply safe_ctx_Err; [done|]. by intros [x|] w' Hw'. Qed.
End Safe.

(** Move every fact of the context from [w] to the later [w']. *)
Ltac advance H :=
  match type of H with
  | wle ?w ?w' =>
      repeat match goal with
      | F : knows (w_view w) _ _ _ |- _ => apply (knows_mono _ _ _ _ _ (wle_view _ _ H)) in F
      | F : _ ∈ w_own w |- _ => apply (wle_own _ _ H) in F
      | F : replaceable w _, O : wok w |- _ => apply (replaceable_mono _ _ _ (proj2 O) H) in F
      end;
      let O := fresh "O" in
      pose proof (wle_wok _ _ H) as O
  end.

(** One step of the proof that a program is safe: a context check, an error
    mapping, a harmless call, a branch, or a return. *)
Ltac safe_step :=
  match goal with
  | |- safe (mapKVFailure _ _ ≫= _) _ _ =>
      apply safe_seq; [done|by apply safe_mapKVFailure|];
      let H := fresh "Hw" in intros ? ? H; advance H
  | |- safe (mapIdempotencyKVError _ _) _ _ => apply safe_mapIdempotencyKVError; done
  | |- safe (ctx_Err _ ≫= _) _ _ =>
      apply safe_ctx_Err; [done|]; let H := fresh "Hw" in intros ? ? H; advance H
  | |- safe (call _ ≫= _) _ _ =>
      apply safe_harmless; [reflexivity|];
      let An := fresh "An" in let H1 := fresh "Hw" in let H := fresh "Hw" in
      intros ? ? ? An H1 H ?; advance H
  | |- safe (mret _) _ (λ _ _, True) => exact I
  | |- safe (if ?b then _ else _) _ _ => destruct b eqn:?
  | |- safe (match ?x with _ => _ end) _ _ => destruct x eqn:?
  end.

Section Methods.
Context {EM : ErrorModel} {K : Kernel EM} {JT : JsonText EM} {JL : JsonTextLaws JT} {EJ : EntryJson}.

Abbreviation only_safe := (λ _ _, True).

Lemma safe_decodeKVEntry v w : wok w → safe (decodeKVEntry v) w only_safe.
Proof. intros Ho. unfold decodeKVEntry. repeat safe_step. Qed.

Lemma safe_loadEntry c ctx key w : wok w → safe (loadEntry c ctx key) w only_safe.
Proof. intros Ho. unfold loadEntry. repeat safe_step. by apply safe_decodeKVEntry. Qed.

Lemma safe_Get c ctx key w : wok w → safe (Get c ctx key) w only_safe.
Proof.
  intros Ho. unfold Get. apply safe_seq; [done|by apply safe_loadEntry|].
  intros [[e f] [err|]] w' Hw; exact I.
Qed.

Lemma safe_marshalKVEntry e ttl w : wok w → safe (marshalKVEntry e ttl) w only_safe.
Proof. intros Ho. unfold marshalKVEntry. repeat safe_step. Qed.

Lemma safe_put {A} b key v (f : result error Z → prog resp A) w Q :
  (∀ x w', wle w w' → safe (f x) w' Q) →
  safe (call (RKvPut b (entryPrefix +:+ key) v) ≫= f) w Q.
Proof.
  intros H. apply safe_call. intros w1 Hw1. split; [apply guard_put|].
  intros x w2 _ Hw2. apply H. by eapply wle_trans.
Qed.

Lemma safe_Set c ctx key e ttl w : wok w → safe (Set_ c ctx key e ttl) w only_safe.
Proof.
  intros Ho. unfold Set_. repeat safe_step. apply safe_seq; [done|by apply safe_marshalKVEntry|].
  intros r w1 H1. advance H1. repeat safe_step. apply safe_put. by intros ? ? _.
Qed.

(** An update or delete of a claim at a revision the caller has read. *)
Lemma safe_update {A} b k v r v0 (f : result error Z → prog resp A) w Q :
  wok w → knows (w_view w) (b, k) r v0 → replaceable w v0 →
  (∀ x w1 w', answered w1 (RKvUpdate b k v r) x w' → wok w1 → wle w w' → safe (f x) w' Q) →
  safe (call (RKvUpdate b k v r) ≫= f) w Q.
Proof.
  intros Ho Hk Hr H. apply safe_call. intros w1 Hw1. advance Hw1.
  split; [by eapply guard_update|]. intros x w2 An Hw2. eapply H; [exact An|done|].
  by eapply wle_trans.
Qed.

Lemma safe_delete {A} b k r v0 (f : option error → prog resp A) w Q :
  wok w → knows (w_view w) (b, k) r v0 → replaceable w v0 →
  (∀ x w', wle w w' → safe (f x) w' Q) →
  safe (call (RKvDelete b k r) ≫= f) w Q.
Proof.
  intros Ho Hk Hr H. apply safe_call. intros w1 Hw1. advance Hw1.
  split; [by eapply guard_delete|]. intros x w2 An Hw2. apply H. by eapply wle_trans.
Qed.

Lemma safe_retryCreateClaim ctx b k token data w :
  wok w → safe (retryCreateClaim ctx b k token data) w only_safe.
Proof. intros Ho. unfold retryCreateClaim. repeat safe_step. Qed.

Lemma safe_replaceExpiredClaim ctx b k token data r v0 w :
  wok w → knows (w_view w) (b, k) r v0 → replaceable w v0 →
  safe (replaceExpiredClaim ctx b k token data r) w only_safe.
Proof.
  intros Ho Hk Hr. unfold replaceExpiredClaim. eapply safe_update; [done..|].
  intros x w1 w2 _ _ Hw. advance Hw. repeat safe_step. by apply safe_retryCreateClaim.
Qed.

(** A claim is replaced only when it has expired. *)
Lemma safe_resolveExistingClaim ctx b k h token now data v r w :
  wok w → knows (w_view w) (b, k) r v → in_int64 now → now ≤ w_now w →
  safe (resolveExistingClaim ctx b k h token now data v r) w only_safe.
Proof.
  intros Ho Hk Hn Hle. unfold resolveExistingClaim.
  destruct (unmarshalClaim v) as [q|e] eqn:Eq; [|exact I]. repeat safe_step.
  eapply safe_replaceExpiredClaim; [done..|]. intros p Hp. right.
  assert (p = q) as -> by congruence. go_bool.
  pose proof (unixnano_mono now (w_now w) Hn (proj2 Ho) Hle). lia.
Qed.

Lemma safe_createClaim ctx b k h token now data w :
  wok w → in_int64 now → now ≤ w_now w →
  safe (createClaim ctx b k h token now data) w only_safe.
Proof.
  intros Ho Hn Hle. unfold createClaim. safe_step. safe_step; [exact I|]. safe_step.
  safe_step; [exact I|].
  apply safe_harmless; [done|]. intros y w3 w4 Ag _ Hw4 _. advance Hw4.
  destruct y as [[v r]|ge]; [|repeat safe_step; by apply safe_retryCreateClaim].
  apply safe_resolveExistingClaim; [done| |done|].
  - eapply get_knows; [exact Ag|apply (wle_ok _ _ Hw4)].
  - repeat match goal with H : wle _ _ |- _ => apply wle_now in H end. lia.
Qed.

Lemma safe_newKVClaimToken w : wok w → safe newKVClaimToken w only_safe.
Proof. intros Ho. unfold newKVClaimToken. repeat safe_step. Qed.

Lemma safe_Claim c ctx key h ttl w : wok w → safe (Claim c ctx key h ttl) w only_safe.
Proof.
  intros Ho. unfold Claim. do 4 (safe_step; try exact I).
  apply safe_seq; [done|by apply safe_loadEntry|]. intros [[e f] err] w1 Hw1. advance Hw1.
  destruct err as [err|]; [by destruct f|]. destruct f; [by repeat safe_step|].
  apply safe_harmless; [done|]. intros now w2 w3 An _ Hw3 [_ Hc]. advance Hw3.
  destruct An as [_ Hnow Hclock _]. cbn in Hclock.
  safe_step; [|exact I]. apply safe_seq; [done|by apply safe_newKVClaimToken|].
  intros tok w4 Hw4. advance Hw4. repeat (safe_step; try exact I).
  apply safe_createClaim; [done|congruence|].
  repeat match goal with H : wle _ _ |- _ => apply wle_now in H end. lia.
Qed.

(** ** Methods that need a token: the caller must own it *)

(** Reading a claim: its revision is known. *)
Lemma safe_get {A} b k (f : result error (string * Z) → prog resp A) w Q :
  (∀ e w', wle w w' → safe (f (Err e)) w' Q) →
  (∀ v r w', wle w w' → knows (w_view w') (b, k) r v → safe (f (Ok (v, r))) w' Q) →
  safe (call (RKvGet b k) ≫= f) w Q.
Proof.
  intros He Hv. apply safe_harmless; [done|]. intros [[v r]|e] w1 w2 An _ Hw _; [|by apply He].
  apply Hv; [done|]. eapply get_knows; [exact An|apply (wle_ok _ _ Hw)].
Qed.

(** The document a renewal or an extension writes is the caller's again. *)
Lemma renewed_replaceable w v token p now ttl e s :
  owned_claim v token = Ok p → token ∈ w_own w → idempotencyExpiry now ttl = Ok e →
  json_Marshal (claim_to_json (mkClaimPayload (cp_Token p) (cp_RequestHash p) e)) = Ok s →
  replaceable w s.
Proof.
  intros Hc Ho He Hs. apply owned_claim_ok in Hc as [Hu <-].
  eapply replaceable_own; [apply (claim_text_roundtrip (mkClaimPayload (cp_Token p) (cp_RequestHash p) e))|done].
  - apply unmarshal_utf8 in Hu. exact Hu.
  - by eapply expiry_int64.
  - done.
Qed.

Lemma owned_replaceable w v token p :
  owned_claim v token = Ok p → token ∈ w_own w → replaceable w v.
Proof. intros Hc Ho. apply owned_claim_ok in Hc as [Hu <-]. by eapply replaceable_own. Qed.

Definition extended (b key : string) (r : result error Z) (w : world) : Prop :=
  wok w ∧ ∀ n, r = Ok n → ∃ v, knows (w_view w) (claim_key b key) n v ∧ replaceable w v.

Lemma extended_err b key e w : wok w → extended b key (Err e) w.
Proof. by split. Qed.

Lemma safe_extend b ctx key token w :
  wok w → token ∈ w_own w →
  safe (extendClaimForCompletion b ctx key token) w (extended b key).
Proof.
  intros Ho Ht. unfold extendClaimForCompletion. apply safe_get.
  { intros e w1 Hw. advance Hw. safe_step. by apply extended_err. }
  intros v r u1 Hu1 Hk. advance Hu1.
  destruct (owned_claim v token) as [p|e] eqn:Eo; [|by apply extended_err].
  safe_step. safe_step; [by apply extended_err|].
  destruct (idempotencyExpiry _ _) eqn:Ee; [|by apply extended_err].
  destruct (json_Marshal _) as [s|e] eqn:Es; [|by apply extended_err].
  safe_step. safe_step; [by apply extended_err|].
  eapply safe_update; [done|exact Hk|by eapply owned_replaceable|].
  intros [n|e] u2 u3 Au Hu2 Hu3; advance Hu3; [|safe_step; by apply extended_err].
  split; [done|]. intros m Hm. simplify_eq. exists s. split.
  - eapply update_knows; [exact Au|apply Hu2].
  - by eapply renewed_replaceable.
Qed.

Lemma safe_Complete c ctx key token e ttl w :
  wok w → token ∈ w_own w → safe (Complete c ctx key token e ttl) w only_safe.
Proof.
  intros Ho Ht. unfold Complete. do 4 (safe_step; try exact I).
  apply safe_seq; [done|by apply safe_marshalKVEntry|]. intros d w1 Hw1. advance Hw1.
  safe_step; [|exact I]. apply safe_bind. eapply safe_mono; [|by apply safe_extend].
  intros [n|err] w2 [O2 Hn]; [|exact I]. destruct (Hn n eq_refl) as (v & Hk & Hr). clear Hn.
  safe_step. safe_step; [exact I|]. apply safe_put. intros y u3 Hu3. advance Hu3.
  safe_step; [|by repeat safe_step]. safe_step. safe_step; [exact I|].
  eapply safe_delete; [done|exact Hk|done|]. intros z u4 Hu4. advance Hu4. by repeat safe_step.
Qed.

Lemma safe_Release c ctx key token w :
  wok w → token ∈ w_own w → safe (Release c ctx key token) w only_safe.
Proof.
  intros Ho Ht. unfold Release. do 4 (safe_step; try exact I).
  apply safe_get. { intros e u1 Hu. advance Hu. by repeat safe_step. }
  intros v r u1 Hu1 Hk. advance Hu1. destruct (unmarshalClaim v) as [p|e] eqn:Eu; [|exact I].
  destruct (str_eqb (cp_Token p) token) eqn:Et; [|exact I]. go_bool. subst token.
  eapply safe_delete; [done|exact Hk|by eapply replaceable_own|].
  intros y u2 Hu2. advance Hu2. by repeat safe_step.
Qed.

Lemma safe_RenewClaim c ctx key token ttl w :
  wok w → token ∈ w_own w → safe (RenewClaim c ctx key token ttl) w only_safe.
Proof.
  intros Ho Ht. unfold RenewClaim. do 4 (safe_step; try exact I).
  apply safe_get. { intros e u1 Hu. advance Hu. by repeat safe_step. }
  intros v r u1 Hu1 Hk. advance Hu1.
  destruct (owned_claim v token) as [p|e] eqn:Eo; [|exact I]. repeat (safe_step; try exact I).
  eapply safe_update; [done|exact Hk|by eapply owned_replaceable|].
  intros y u2 u3 _ _ Hu3. advance Hu3. by repeat safe_step.
Qed.
End Methods.
