(* ===== verification/MemKV.v ===== *)
(** * A concrete world to run the programs in

    An in-memory key-value server that satisfies the bucket contract, with a
    clock and a source of distinct random bytes, and concrete instances of the
    interfaces of other packages.  It shows that the hypotheses of the theorems
    can hold and evaluates the programs on examples. *)

From S2P Require Import Prelude Effects Errors World Json IdemKV KVContract.
Import GoErr JsonModel.

Local Open Scope Z_scope.

#[export] Instance kernel : Kernel GoErr.model := {|
  value := string;
  codec_Default := Ok;
  json_Marshal_any := Ok;
  xerr_Public := GoErr.message;
  time_MarshalJSON t := Ok (JInt t);
  header_Get h k := match h !! k with Some (x :: _) => x | _ => "" end;
  sha256_Sum256 s := s;
  DefaultIdempotencyLeaseTTL := 30 * time_Second
|}.

#[export] Instance entry_json : EntryJson := {|
  entry_to_json e := JObj [("status", JInt (e_Status e)); ("body", JStr (e_Body e));
                           ("at", JInt (e_StoredAt e)); ("hash", JStr (e_RequestHash e))];
  entry_of_json j :=
    match j with
    | JObj [(_, JInt s); (_, JStr b); (_, JInt t); (_, JStr h)] => Some (mkEntry s b t h)
    | JObj _ | JNull => Some empty_entry
    | _ => None
    end
|}.

#[export] Instance entry_json_laws : EntryJsonLaws entry_json.
Proof. split; [by intros []|done]. Qed.

Record mem := mkMem { m_view : kvview; m_now : Z; m_rand : nat }.

Definition set_view (a : kvview) (m : mem) : mem := mkMem a (m_now m) (m_rand m).

Definition mem_fail {A : Type} (s : sentinel) : result goerr A := Err (ESentinel s).

Definition rand_bytes (n c : nat) : string :=
  String.string_of_list_ascii (repeat (Ascii.ascii_of_nat c) n).

(** The token the [c]-th claim draws. *)
Definition token_no (c : nat) : string := hex_encode (rand_bytes 16 c).

(** One answer of the server; requests of other components get a neutral one. *)
Definition mem_handler : handler resp mem := λ r m,
  let a := m_view m in
  let next := seqno a + 1 in
  match r as r0 return resp r0 * mem with
  | RCtxErr _ => (None, m)
  | RNow => (m_now m, m)
  | RRandRead n => (Ok (rand_bytes n (m_rand m)), mkMem a (m_now m) (S (m_rand m)))
  | RKvGet b k =>
      (match live a !! (b, k), rev a !! (b, k) with
       | Some v, Some r => Ok (v, r)
       | None, _ => mem_fail nats_ErrKeyNotFound
       | _, _ => mem_fail nats_ErrTimeout
       end, m)
  | RKvCreate b k v =>
      match live a !! (b, k) with
      | None => (Ok next, set_view (put_view (b, k) v next a) m)
      | Some _ => (mem_fail nats_ErrKeyExists, m)
      end
  | RKvUpdate b k v r =>
      if bool_decide (rev a !! (b, k) = Some r)
      then (Ok next, set_view (put_view (b, k) v next a) m)
      else (mem_fail nats_ErrKeyRevisionMismatch, m)
  | RKvPut b k v => (Ok next, set_view (put_view (b, k) v next a) m)
  | RKvDelete b k r =>
      if bool_decide (rev a !! (b, k) = Some r)
      then (None, set_view (del_view (b, k) next a) m)
      else (Some (ESentinel nats_ErrKeyRevisionMismatch), m)
  | RKeyValue _ | RCreateKeyValue _ => (None, m)
  | RKvStatusTTL _ => (Ok 0, m)
  | RStreamInfo _ => (mem_fail nats_ErrStreamNotFound, m)
  | RAddStream _ | RUpdateStream _ => (None, m)
  | RConsumerInfo _ _ => (mem_fail nats_ErrConsumerNotFound, m)
  | RUpdateConsumer _ _ => (None, m)
  | RPullSubscribe _ _ _ => (Ok 0%nat, m)
  | RUnsubscribe _ => (None, m)
  | RFetch _ _ _ => (Ok [], m)
  | RStoreGet _ _ => (None, m)
  | RStoreSet _ _ _ _ => (tt, m)
  | RClaim _ _ _ _ => (Ok (acquired "token"), m)
  | RComplete _ _ _ _ _ | RRelease _ _ _ => (None, m)
  | RStartRenewal _ _ _ => (tt, m)
  | RStopRenewal => (None, m)
  | RExecute _ => (Done (Ok "done"), m)
  | RMetadata => (Ok (mkMeta 1 "stream" 1), m)
  | RAckSync _ | RNakWithDelay _ _ | RTerm _ | RJsPublish _ _ _ _ => (None, m)
  | RConnIsClosed => (false, m)
  | RSleep _ _ => (true, m)
  | REnsureConn _ => (Ok 0%nat, m)
  | REnsureJetStream | RJetstreamNew _ | RJsKeyValue _ _ | RJsObjectStore _ _ => (None, m)
  | RJkGet _ _ _ => (mem_fail jetstream_ErrKeyNotFound, m)
  | RJkPut _ _ _ _ | RJkCreate _ _ _ _ _ | RJkUpdate _ _ _ _ _ => (Ok 1, m)
  | RJkDelete _ _ _ _ | RJoDelete _ _ _ => (None, m)
  | RObjectStore _ | RObjClose _ => (None, m)
  | RObjGet _ _ _ => (Ok 0%nat, m)
  | RObjRead _ _ => (("object", None), m)
  | RObjPutBytes _ _ name data => (Ok (mkObjectInfo name (Z.of_nat (String.length data)) 1 "" 0 false), m)
  | RKvWatch _ _ | RObjWatch _ => (Ok 0%nat, m)
  | RKvNext _ => (None, m)
  | RObjNext _ => (None, m)
  | RWatcherStop _ => (None, m)
  | RExecuteInput _ _ => (Done (Ok "done"), m)
  | RPublishMsg _ | RJsPublishMsg _ _ => (None, m)
  | RRequestMsg _ msg => (Ok msg, m)
  | RAddService _ | RSubscribe _ _ => (Ok 0%nat, m)
  | RAddEndpoint _ _ _ | RServiceStop _ | RRespond _ | RRespondError _ _ => (None, m)
  | RFlush _ | RStartEmbedded | RLastError | RCloseTransport => (None, m)
  | RStopEmbedded | RCancelRun | RWorkersWait => (tt, m)
  | RWaitClosed _ => (false, m)
  end.

(** The server keeps the contract of a bucket. *)
Lemma mem_sound r m x m' :
  mem_handler r m = (x, m') → kv_contract r x (m_view m) (m_view m').
Proof.
  destruct m as [a now rnd]. destruct r; cbn; intros H; try (by simplify_eq).
  - simplify_eq. split; [done|].
    destruct (live a !! _) eqn:E1; [|done]. destruct (rev a !! _) eqn:E2; [done|].
    intros [H|H]; by vm_compute in H.
  - destruct (live a !! _) eqn:E; simplify_eq; [by left|]. cbn. split; [done|]. split; [lia|done].
  - case_bool_decide; simplify_eq; [|by left]. cbn. split; [by right|]. split; [lia|done].
  - simplify_eq. cbn. split; [lia|done].
  - case_bool_decide; simplify_eq; [|by left]. eexists. split; [by right|]. split; [|done]. lia.
Qed.

(** The same as an instance of the server interface; the clock and the random
    source are answered freely here. *)
#[export] Instance server : KVServer := {|
  kvstate := kvview;
  kv_view := λ a, a;
  kv_answer a r x a' := kv_contract r x a a'
|}.

#[export] Instance server_laws : KVServerLaws server.
Proof. by split. Qed.

(** Run the first [n] calls of a program. *)
Fixpoint exec_n {A} (n : nat) (p : prog resp A) (m : mem) : prog resp A * mem :=
  match n, p with
  | S n', Vis r k => let '(x, m') := mem_handler r m in exec_n n' (k x) m'
  | _, _ => (p, m)
  end.

Definition empty_view : kvview := mkView ∅ ∅ 0.
Definition ledger : option KVIdempotencyCoordinator := Some (mkCoordinator (Some "LEDGER")).
