(* ===== verification/IdemKVSystem.v ===== *)
(** * Coordinators on many nodes sharing one bucket

    The distributed system src/tnats/idempotency_kv.go is written for: nodes that
    run coordinator methods concurrently, in any number of threads, on one
    key-value server.  A step is one external call of one thread (so the methods
    interleave between any two calls), the start of a method, the end or crash of
    a thread at any point, or the passage of time.  A node may pass a token to
    Complete, Release or RenewClaim only if it drew that token in a Claim of its
    own; random tokens are never drawn twice.  All nodes read one clock. *)

From stdpp Require Import relations.
From S2P Require Import Prelude Effects Errors World Json IdemKV KVContract KVGuard IdemKVSafe.
From S2P Require Import MemKV.

Local Open Scope Z_scope.

Section System.
Context {EM : ErrorModel} {K : Kernel EM} {JT : JsonText EM} {JL : JsonTextLaws JT} {EJ : EntryJson}.
Context {SV : KVServer} {SL : KVServerLaws SV}.

Inductive op :=
| OpGet (c : option KVIdempotencyCoordinator) (ctx : option context) (key : string)
| OpSet (c : option KVIdempotencyCoordinator) (ctx : option context) (key : string)
    (e : IdempotencyEntry) (ttl : Z)
| OpClaim (c : option KVIdempotencyCoordinator) (ctx : option context) (key hash : string) (ttl : Z)
| OpComplete (c : option KVIdempotencyCoordinator) (ctx : option context) (key token : string)
    (e : IdempotencyEntry) (ttl : Z)
| OpRelease (c : option KVIdempotencyCoordinator) (ctx : option context) (key token : string)
| OpRenew (c : option KVIdempotencyCoordinator) (ctx : option context) (key token : string) (ttl : Z).

Definition ignore {A} (p : prog resp A) : prog resp unit := p ≫= λ _, mret tt.

Definition op_prog (o : op) : prog resp unit :=
  match o with
  | OpGet c ctx key => ignore (Get c ctx key)
  | OpSet c ctx key e ttl => Set_ c ctx key e ttl
  | OpClaim c ctx key h ttl => ignore (Claim c ctx key h ttl)
  | OpComplete c ctx key t e ttl => ignore (Complete c ctx key t e ttl)
  | OpRelease c ctx key t => ignore (Release c ctx key t)
  | OpRenew c ctx key t ttl => ignore (RenewClaim c ctx key t ttl)
  end.

Definition op_token (o : op) : option string :=
  match o with
  | OpComplete _ _ _ t _ _ | OpRelease _ _ _ t | OpRenew _ _ _ t _ => Some t
  | _ => None
  end.

Record sys := mkSys {
  sy_kv : kvstate;
  sy_now : Z;
  sy_own : nat → gset string;        (* the tokens each node drew *)
  sy_used : gset string;             (* every token drawn so far *)
  sy_threads : gmap nat (nat * prog resp unit)
}.

Definition set_threads (f : gmap nat (nat * prog resp unit) → gmap nat (nat * prog resp unit))
    (σ : sys) : sys :=
  mkSys (sy_kv σ) (sy_now σ) (sy_own σ) (sy_used σ) (f (sy_threads σ)).

Definition give (n : nat) (ts : gset string) (own : nat → gset string) : nat → gset string :=
  λ m, if decide (m = n) then own m ∪ ts else own m.

(** [step σ l σ']: [l] is the node that acts, if any. *)
Inductive step (σ : sys) : option nat → sys → Prop :=
| step_tick t :
    sy_now σ ≤ t → in_int64 t →
    step σ None (mkSys (sy_kv σ) t (sy_own σ) (sy_used σ) (sy_threads σ))
| step_start i n o :
    sy_threads σ !! i = None →
    (∀ t, op_token o = Some t → t ∈ sy_own σ n) →
    step σ (Some n) (set_threads <[ i := (n, op_prog o) ]> σ)
| step_stop i n p :
    sy_threads σ !! i = Some (n, p) →
    step σ (Some n) (set_threads (delete i) σ)
| step_call i n r k x s' :
    sy_threads σ !! i = Some (n, Vis r k) →
    kv_answer (sy_kv σ) r x s' →
    clock_ok (sy_now σ) r x →
    drawn r x ## sy_used σ →
    step σ (Some n)
      (mkSys s' (sy_now σ) (give n (drawn r x) (sy_own σ)) (sy_used σ ∪ drawn r x)
         (<[ i := (n, k x) ]> (sy_threads σ))).

Definition any_step (σ σ' : sys) : Prop := ∃ l, step σ l σ'.
Definition step_without (n : nat) (σ σ' : sys) : Prop := ∃ l, step σ l σ' ∧ l ≠ Some n.

Definition view (σ : sys) : kvview := kv_view (sy_kv σ).

Record initial (σ : sys) : Prop := {
  in_view : view_ok (view σ);
  in_clock : in_int64 (sy_now σ);
  in_disjoint n m : n ≠ m → sy_own σ n ## sy_own σ m;
  in_used n : sy_own σ n ⊆ sy_used σ;
  in_idle : sy_threads σ = ∅
}.

Definition reachable (σ : sys) : Prop := ∃ σ0, initial σ0 ∧ rtc any_step σ0 σ.

(** ** The invariant *)
Definition world_of (σ : sys) (n : nat) : world := mkWorld (sy_own σ n) (view σ) (sy_now σ).

Record inv (σ : sys) : Prop := {
  iv_view : view_ok (view σ);
  iv_clock : in_int64 (sy_now σ);
  iv_disjoint n m : n ≠ m → sy_own σ n ## sy_own σ m;
  iv_used n : sy_own σ n ⊆ sy_used σ;
  iv_safe i n p : sy_threads σ !! i = Some (n, p) → safe p (world_of σ n) (λ _ _, True)
}.

Lemma initial_inv σ : initial σ → inv σ.
Proof.
  intros [V C D U I]. split; try done. intros i n p. rewrite I. by rewrite lookup_empty.
Qed.

Lemma safe_ignore {A} (p : prog resp A) w :
  wok w → safe p w (λ _ _, True) → safe (ignore p) w (λ _ _, True).
Proof. intros. by apply safe_seq. Qed.

Lemma safe_op o w :
  wok w → (∀ t, op_token o = Some t → t ∈ w_own w) → safe (op_prog o) w (λ _ _, True).
Proof.
  intros Hw Ht. destruct o; cbn; try apply safe_ignore;
    auto using safe_Get, safe_Set, safe_Claim, safe_Complete, safe_Release, safe_RenewClaim.
Qed.

Lemma give_same n ts own : give n ts own n = own n ∪ ts.
Proof. unfold give. by rewrite decide_True. Qed.

Lemma give_other n m ts own : m ≠ n → give n ts own m = own m.
Proof. intros. unfold give. by rewrite decide_False. Qed.

(** What a step does to the world of every node. *)
Lemma step_wle σ l σ' n : inv σ → step σ l σ' → wle (world_of σ n) (world_of σ' n).
Proof.
  intros I St. destruct St as [t Ht Hc| | |i n' r k x s' Hi Ha Hc Hd].
  - split; cbn; [done|reflexivity|lia|apply I|done].
  - apply wle_refl. split; apply I.
  - apply wle_refl. split; apply I.
  - apply kv_sound in Ha. destruct (contract_evolves _ _ _ _ Ha (iv_view _ I)) as [E V].
    split; cbn; try done; try lia; [|apply I].
    destruct (decide (n = n')) as [->|]; [rewrite give_same|rewrite give_other by done]; set_solver.
Qed.

(** A thread's own call takes the world of its node to the next one. *)
Lemma call_answered σ i n r k x s' :
  sy_threads σ !! i = Some (n, Vis r k) → kv_answer (sy_kv σ) r x s' →
  clock_ok (sy_now σ) r x →
  answered (world_of σ n) r x
    (mkWorld (give n (drawn r x) (sy_own σ) n) (kv_view s') (sy_now σ)).
Proof. intros Hi Ha Hc. split; cbn; try done; [by apply kv_sound|apply give_same]. Qed.

Lemma step_safe σ l σ' i n p :
  inv σ → step σ l σ' → sy_threads σ' !! i = Some (n, p) →
  safe p (world_of σ' n) (λ _ _, True).
Proof.
  intros I St Hi. pose proof (step_wle σ l σ' n I St) as Hw.
  assert (Hold : sy_threads σ !! i = Some (n, p) → safe p (world_of σ' n) (λ _ _, True)).
  { intros H. eapply safe_wle; [exact Hw|]. by eapply iv_safe. }
  destruct St as [t|j m o Hj Ht|j m q Hj|j m r k x s' Hj Ha Hc Hd]; cbn in Hi; [auto| | |].
  - apply lookup_insert_Some in Hi as [[<- H]|[_ H]]; [|auto]. simplify_eq.
    apply safe_op; [split; apply I|done].
  - apply lookup_delete_Some in Hi as [_ H]. auto.
  - apply lookup_insert_Some in Hi as [[<- H]|[_ H]]; [|auto]. simplify_eq.
    pose proof (iv_safe _ I _ _ _ Hj (world_of σ n)) as [_ Hn].
    { apply wle_refl. split; apply I. }
    apply (Hn x); [|exact Hw]. by apply (call_answered σ j n r k x s').
Qed.

Lemma step_inv σ l σ' : inv σ → step σ l σ' → inv σ'.
Proof.
  intros I St. pose proof (step_wle σ l σ' 0%nat I St) as [_ _ _ V C].
  split; [exact V|exact C| | |by intros; eapply step_safe];
    destruct St as [| | |i n' r k x s' _ _ _ Hd]; try apply I; cbn.
  - intros n m Hn. pose proof (iv_disjoint _ I n m Hn). pose proof (iv_used _ I n).
    pose proof (iv_used _ I m). unfold give. repeat case_decide; subst; set_solver.
  - intros n. pose proof (iv_used _ I n). unfold give. case_decide; set_solver.
Qed.

Lemma reachable_inv σ : reachable σ → inv σ.
Proof.
  intros (σ0 & H0 & Hr). apply initial_inv in H0. induction Hr as [|σ σ1 σ2 [l St] _ IH]; [done|].
  apply IH. by eapply step_inv.
Qed.

(** ** Claims along a step *)
Lemma step_claim σ l σ' b key p :
  inv σ → step σ l σ' → active (view σ) (sy_now σ) b key p →
  (∀ n, l = Some n → cp_Token p ∉ sy_own σ n) →
  untouched (claim_key b key) (view σ) (view σ').
Proof.
  intros I St Ha Hn. destruct St as [| | |i n r k x s' Hi Hans Hc Hd]; try done.
  pose proof (iv_safe _ I _ _ _ Hi (world_of σ n)) as [G _].
  { apply wle_refl. split; apply I. }
  eapply (G x); [by apply kv_sound|exact Ha|by apply Hn].
Qed.

Lemma active_untouched a a' t t' b key p :
  active a t b key p → untouched (claim_key b key) a a' → time_UnixNano t' < cp_ExpiresAt p →
  active a' t' b key p.
Proof. intros (v & Hl & Hu & _) [L _] Ht. exists v. by rewrite L. Qed.

Lemma untouched_trans k a b c : untouched k a b → untouched k b c → untouched k a c.
Proof. intros [] []. split; congruence. Qed.

Lemma step_own σ l σ' n : step σ l σ' → sy_own σ n ⊆ sy_own σ' n.
Proof.
  intros []; cbn; try done. unfold give. case_decide; set_solver.
Qed.

Lemma run_now σ σ' n : inv σ → rtc (step_without n) σ σ' → sy_now σ ≤ sy_now σ' ∧ in_int64 (sy_now σ').
Proof.
  intros I Hr. induction Hr as [|σ σ1 σ2 (l & St & _) _ IH]; [split; [lia|apply I]|].
  destruct (IH (step_inv _ _ _ I St)) as [H1 H2]. split; [|done].
  pose proof (step_wle σ l σ1 0%nat I St) as [_ _ H _ _]. cbn in H. lia.
Qed.

Lemma run_claim σ σ' n b key p :
  inv σ → rtc (step_without n) σ σ' → active (view σ) (sy_now σ) b key p →
  cp_Token p ∈ sy_own σ n → time_UnixNano (sy_now σ') < cp_ExpiresAt p →
  untouched (claim_key b key) (view σ) (view σ').
Proof.
  intros I Hr. induction Hr as [|σ σ1 σ2 (l & St & Hl) Hr IH]; [done|].
  intros Ha Ho Ht. pose proof (step_inv _ _ _ I St) as I1.
  destruct (run_now _ _ _ I1 Hr) as [Hnow Hc].
  assert (U : untouched (claim_key b key) (view σ) (view σ1)).
  { eapply step_claim; [done..|]. intros m Hm Hin. simplify_eq.
    assert (m ≠ n) as Hmn by congruence. pose proof (iv_disjoint _ I m n Hmn). set_solver. }
  eapply untouched_trans; [exact U|]. apply IH; [done| | |done].
  - eapply active_untouched; [done..|].
    pose proof (unixnano_mono _ _ (iv_clock _ I1) Hc Hnow). lia.
  - by apply (step_own _ _ _ n St).
Qed.

(** ** Theorems *)

(** C1: Exclusivity: in every reachable state, whatever the interleaving and the
    failures, a step that changes the claim stored under an idempotency key before
    it expires is a step of a node that owns the claim's token, and no other node
    owns that token. *)
Theorem claim_exclusive σ l σ' b key p :
  reachable σ → step σ l σ' → active (view σ) (sy_now σ) b key p →
  untouched (claim_key b key) (view σ) (view σ') ∨
  ∃ n, l = Some n ∧ cp_Token p ∈ sy_own σ n ∧ ∀ m, cp_Token p ∈ sy_own σ m → m = n.
Proof.
  intros I%reachable_inv St Ha.
  destruct (decide (Exists (λ n, cp_Token p ∈ sy_own σ n) (option_list l))) as [H|H].
  - right. apply Exists_exists in H as (n & Hl & Hn). destruct l; cbn in Hl; [|set_solver].
    apply list_elem_of_singleton in Hl as ->. exists n0. split; [done|]. split; [done|].
    intros m Hm. destruct (decide (m = n0)) as [|Hne]; [done|].
    pose proof (iv_disjoint _ I m n0 Hne). set_solver.
  - left. eapply step_claim; [done..|]. intros n -> Hn. apply H. cbn. by constructor.
Qed.

(** C2: Lease stability: once a node holds a claim, no run in which that node does
    not act changes the claim before it expires, so no other node can acquire,
    complete, release or renew it in the meantime. *)
Theorem lease_stable σ σ' n b key p :
  reachable σ → rtc (step_without n) σ σ' → active (view σ) (sy_now σ) b key p →
  cp_Token p ∈ sy_own σ n → time_UnixNano (sy_now σ') < cp_ExpiresAt p →
  active (view σ') (sy_now σ') b key p ∧
  rev (view σ') !! claim_key b key = rev (view σ) !! claim_key b key.
Proof.
  intros I%reachable_inv Hr Ha Ho Ht. pose proof (run_claim _ _ _ _ _ _ I Hr Ha Ho Ht) as U.
  split; [by eapply active_untouched|apply U].
Qed.
End System.

(** ** The hypotheses can hold: a node holds a claim, another one tries to claim *)
Section Witnesses.
Import GoErr JsonModel.

Definition held_payload : kvClaimPayload := mkClaimPayload "T" "h" 1000.
Definition held_doc : string := marshal (claim_to_json held_payload).
Definition held_view : kvview := put_view (claim_key "LEDGER" "k") held_doc 1 empty_view.

Definition node1_holds : sys :=
  mkSys (SV := server) held_view 5 (λ n, if decide (n = 1%nat) then {[ "T" ]} else ∅) {[ "T" ]} ∅.

Definition node2_claims : sys :=
  set_threads <[ 0%nat := (2%nat, op_prog (OpClaim ledger None "k" "h" 10)) ]> node1_holds.

Lemma held_active now : time_UnixNano now < 1000 → active held_view now "LEDGER" "k" held_payload.
Proof. intros H. exists held_doc. split; [reflexivity|]. split; [reflexivity|done]. Qed.

Lemma node1_holds_initial : initial node1_holds.
Proof.
  split; cbn; try done.
  - apply put_ok; [cbn; lia|]. split; cbn; [done|done|lia].
  - intros n m Hn. repeat case_decide; set_solver.
  - intros n. case_decide; set_solver.
Qed.

Lemma node2_claims_step : step node1_holds (Some 2%nat) node2_claims.
Proof. by apply step_start. Qed.

Lemma node2_claims_reachable : reachable node2_claims.
Proof.
  exists node1_holds. split; [apply node1_holds_initial|]. apply rtc_once.
  exists (Some 2%nat). apply node2_claims_step.
Qed.

Lemma node2_call : ∃ σ, step node2_claims (Some 2%nat) σ.
Proof.
  eexists. eapply (step_call node2_claims 0%nat 2%nat (RKvGet "LEDGER" "entry.k") _
    (Err (ESentinel nats_ErrKeyNotFound)) held_view).
  - reflexivity.
  - split; reflexivity.
  - done.
  - set_solver.
Qed.

Lemma claim_exclusive_witness :
  ∃ σ', step node2_claims (Some 2%nat) σ' ∧
  (untouched (claim_key "LEDGER" "k") (view node2_claims) (view σ') ∨
   ∃ n, Some 2%nat = Some n ∧ cp_Token held_payload ∈ sy_own node2_claims n ∧
        ∀ m, cp_Token held_payload ∈ sy_own node2_claims m → m = n).
Proof.
  destruct node2_call as [σ' St]. exists σ'. split; [exact St|].
  apply (claim_exclusive node2_claims (Some 2%nat) σ' "LEDGER" "k" held_payload
           node2_claims_reachable St).
  apply held_active. reflexivity.
Defined.

Lemma lease_stable_witness :
  active (view node2_claims) 5 "LEDGER" "k" held_payload ∧
  rev (view node2_claims) !! claim_key "LEDGER" "k" = Some 1.
Proof.
  apply (lease_stable node1_holds node2_claims 1%nat "LEDGER" "k" held_payload).
  - exists node1_holds. split; [apply node1_holds_initial|]. constructor.
  - apply rtc_once. exists (Some 2%nat). split; [apply node2_claims_step|congruence].
  - apply held_active. reflexivity.
  - cbn. set_solver.
  - reflexivity.
Defined.
End Witnesses.
