(* ===== verification/IdemKVTraces.v ===== *)
(** * What the coordinator methods write

    Theorems about every run of a method ([Effects.runs]): which writes the
    bucket acknowledged, in which order, and how they relate to the result, for
    all answers of the bucket, the clock, the context and the random source. *)

From S2P Require Import Prelude Effects Errors World Json IdemKV KVContract KVGuard IdemKVSafe MemKV.

Local Open Scope Z_scope.

Section Traces.
Context {EM : ErrorModel} {K : Kernel EM} {JT : JsonText EM} {EJ : EntryJson}.

(** The write an event acknowledged: the key and its new value ([None]: deleted). *)
Definition committed (e : event resp) : option (kvkey * option string) :=
  match ev_req e as r return resp r → option (kvkey * option string) with
  | RKvCreate b k v | RKvPut b k v => λ x, match x with Ok _ => Some ((b, k), Some v) | Err _ => None end
  | RKvUpdate b k v _ => λ x, match x with Ok _ => Some ((b, k), Some v) | Err _ => None end
  | RKvDelete b k _ => λ x, match x with None => Some ((b, k), None) | Some _ => None end
  | _ => λ _, None
  end (ev_resp e).

Definition commits (tr : list (event resp)) : list (kvkey * option string) := omap committed tr.

Lemma commits_app t1 t2 : commits (t1 ++ t2) = commits t1 ++ commits t2.
Proof. apply omap_app. Qed.

(** Every run satisfies [Q] of its commits and its result. *)
Definition csat {A} (p : prog resp A) (Q : list (kvkey * option string) → A → Prop) : Prop :=
  sat p (λ tr a, Q (commits tr) a).

Arguments csat : simpl never.

Lemma csat_runs {A} (p : prog resp A) Q tr a : csat p Q → runs p tr a → Q (commits tr) a.
Proof. intros H. by apply (proj1 (sat_runs p _) H). Qed.

Lemma csat_mono {A} (p : prog resp A) (Q Q' : list (kvkey * option string) → A → Prop) :
  (∀ l a, Q l a → Q' l a) → csat p Q → csat p Q'.
Proof. intros H. apply sat_mono. eauto. Qed.

Lemma csat_ret {A} (a : A) (Q : list (kvkey * option string) → A → Prop) : Q [] a → csat (mret a) Q.
Proof. done. Qed.

Lemma csat_bind {A B} (p : prog resp A) (f : A → prog resp B) Q :
  csat p (λ l a, csat (f a) (λ l' b, Q (l ++ l') b)) → csat (p ≫= f) Q.
Proof.
  intros H. apply sat_bind. eapply sat_mono; [|exact H]. cbn. intros tr a H'.
  eapply sat_mono; [|exact H']. cbn. intros tr' b. by rewrite commits_app.
Qed.

Definition silent {A} (p : prog resp A) : Prop := csat p (λ l _, l = []).

Lemma csat_silent {A B} (p : prog resp A) (f : A → prog resp B) Q :
  silent p → (∀ a, csat (f a) Q) → csat (p ≫= f) Q.
Proof.
  intros Hp Hf. apply csat_bind. eapply csat_mono; [|exact Hp]. cbn. intros l a ->. apply Hf.
Qed.

Lemma csat_call {A} r (f : resp r → prog resp A) Q :
  (∀ x, csat (f x) (λ l a, Q (option_list (committed (Ev r x)) ++ l) a)) → csat (call r ≫= f) Q.
Proof.
  intros H x. eapply sat_mono; [|apply (H x)]. cbn. intros tr a.
  unfold commits. cbn [omap list_omap]. by destruct (committed (Ev r x)).
Qed.

Lemma silent_ctx_Err c : silent (ctx_Err c).
Proof. by destruct c. Qed.
Lemma silent_mapKVFailure c e : silent (mapKVFailure c e).
Proof. unfold mapKVFailure. apply csat_silent; [apply silent_ctx_Err|]. by intros []. Qed.
Lemma silent_mapIdempotencyKVError c e : silent (mapIdempotencyKVError c e).
Proof. unfold mapIdempotencyKVError. apply csat_silent; [apply silent_ctx_Err|]. by intros []. Qed.
End Traces.

#[export] Hint Resolve silent_ctx_Err silent_mapKVFailure silent_mapIdempotencyKVError : tnats.

(** Symbolic execution of a program whose postcondition reads the commits. *)
Ltac commit_step :=
  match goal with
  | |- csat (mret _) _ => apply csat_ret
  | |- csat (mapIdempotencyKVError _ _) _ =>
      eapply csat_mono; [|apply silent_mapIdempotencyKVError]; cbn; intros ? ? ->
  | |- csat (call _ ≫= _) _ => apply csat_call; intros ?
  | |- csat (_ ≫= _) _ => apply csat_silent; [solve [auto with tnats]|]; intros ?
  | |- csat (if ?b then _ else _) _ => destruct b eqn:?
  | |- csat (match ?x with _ => _ end) _ => destruct x eqn:?
  | |- silent _ => unfold silent
  end.

Section Results.
Context {EM : ErrorModel} {K : Kernel EM} {JT : JsonText EM} {EJ : EntryJson}.

Lemma silent_decodeKVEntry v : silent (decodeKVEntry v).
Proof. unfold decodeKVEntry. by repeat commit_step. Qed.

Lemma silent_loadEntry c ctx key : silent (loadEntry c ctx key).
Proof. unfold loadEntry. repeat commit_step; try done. apply silent_decodeKVEntry. Qed.

Lemma silent_marshalKVEntry e ttl : silent (marshalKVEntry e ttl).
Proof. unfold marshalKVEntry. by repeat commit_step. Qed.

Lemma silent_Get c ctx key : silent (Get c ctx key).
Proof.
  unfold Get. apply csat_silent; [apply silent_loadEntry|]. by intros [[e f] [err|]].
Qed.

(** The commits a claim attempt is allowed: one write of its own document when it
    acquires the claim, none otherwise. *)
Definition claim_writes (k : kvkey) (token data : string) (l : list (kvkey * option string))
    (r : result error IdempotencyClaim) : Prop :=
  (l = [(k, Some data)] ∧ r = Ok (acquired token)) ∨
  (l = [] ∧ ∀ c, r = Ok c → cl_State c ≠ ClaimAcquired).

Lemma claim_writes_err k token data e : claim_writes k token data [] (Err e).
Proof. by right. Qed.

Lemma claim_writes_state k token data s :
  s ≠ ClaimAcquired → claim_writes k token data [] (Ok (claim_of s)).
Proof. intros. right. split; [done|]. intros. by simplify_eq. Qed.

Lemma claim_writes_acquired k token data : claim_writes k token data [(k, Some data)] (Ok (acquired token)).
Proof. by left. Qed.
End Results.

#[export] Hint Resolve silent_decodeKVEntry silent_loadEntry silent_marshalKVEntry silent_Get
  claim_writes_err claim_writes_state claim_writes_acquired : tnats.

Section ClaimResults.
Context {EM : ErrorModel} {K : Kernel EM} {JT : JsonText EM} {EJ : EntryJson}.

Lemma retryCreateClaim_writes ctx b k token data :
  csat (retryCreateClaim ctx b k token data) (claim_writes (b, k) token data).
Proof. unfold retryCreateClaim. repeat commit_step; cbn; auto with tnats. Qed.

Lemma replaceExpiredClaim_writes ctx b k token data r :
  csat (replaceExpiredClaim ctx b k token data r) (claim_writes (b, k) token data).
Proof.
  unfold replaceExpiredClaim. repeat commit_step; cbn; auto with tnats.
  apply retryCreateClaim_writes.
Qed.

Lemma createClaim_writes ctx b k h token now data :
  csat (createClaim ctx b k h token now data) (claim_writes (b, k) token data).
Proof.
  unfold createClaim, resolveExistingClaim.
  repeat commit_step; auto with tnats;
    first [apply retryCreateClaim_writes|apply replaceExpiredClaim_writes|by apply claim_writes_state].
Qed.
End ClaimResults.

Section ClaimTheorem.
Context {EM : ErrorModel} {K : Kernel EM} {JT : JsonText EM} {EJ : EntryJson}.

(** The lease a claim asks for. *)
Definition lease (ttl : Z) : Z := if ttl <=? 0 then DefaultIdempotencyLeaseTTL else ttl.

Definition claim_spec (c : option KVIdempotencyCoordinator) (key h : string) (ttl : Z)
    (tr : list (event resp)) (r : result error IdempotencyClaim) : Prop :=
  (∃ b now bytes e data,
     bucket_of c = Some b ∧ Ev RNow now ∈ tr ∧ Ev (RRandRead 16) (Ok bytes) ∈ tr ∧
     idempotencyExpiry now (lease ttl) = Ok e ∧
     json_Marshal (claim_to_json (mkClaimPayload (hex_encode bytes) h e)) = Ok data ∧
     commits tr = [(claim_key b key, Some data)] ∧ r = Ok (acquired (hex_encode bytes))) ∨
  (commits tr = [] ∧ ∀ cl, r = Ok cl → cl_State cl ≠ ClaimAcquired).

Lemma claim_spec_none c key h ttl tr r :
  commits tr = [] → (∀ cl, r = Ok cl → cl_State cl ≠ ClaimAcquired) → claim_spec c key h ttl tr r.
Proof. by right. Qed.

Lemma sat_silent {A B} (p : prog resp A) (f : A → prog resp B) (Q : list (event resp) → B → Prop) :
  silent p → (∀ t a, commits t = [] → sat (f a) (λ t' b, Q (t ++ t') b)) → sat (p ≫= f) Q.
Proof. intros Hp Hf. by apply (sat_then p f (λ t, commits t = [])). Qed.

Lemma claim_spec_sat c ctx key h ttl : sat (Claim c ctx key h ttl) (claim_spec c key h ttl).
Proof.
  unfold Claim. apply sat_silent; [auto with tnats|]. intros t0 [e|] H0.
  { apply claim_spec_none; [by rewrite app_nil_r|done]. }
  destruct (bucket_of c) as [b|] eqn:Hb; [|by apply claim_spec_none; [rewrite app_nil_r|]].
  destruct (str_empty key); [by apply claim_spec_none; [rewrite app_nil_r|]|].
  apply sat_silent; [auto with tnats|]. intros t1 [[e f] err] H1.
  assert (Hq : commits (t0 ++ t1) = []) by (by rewrite commits_app, H0, H1).
  destruct err as [err|]; [destruct f; by apply claim_spec_none; [rewrite app_nil_r|]|].
  destruct f.
  { destruct (_ && _)%bool; (apply claim_spec_none; [by rewrite app_nil_r|]; intros ? [= <-]; done). }
  apply sat_call. intros now. fold (lease ttl).
  destruct (idempotencyExpiry now (lease ttl)) as [exp|err] eqn:Hexp;
    [|by apply claim_spec_none; [rewrite app_assoc, commits_app, Hq|]].
  unfold newKVClaimToken. apply sat_bind, sat_call. intros [bytes|err]; cbn [sat mret prog_mret].
  2:{ apply claim_spec_none; [by rewrite app_assoc, commits_app, Hq|done]. }
  destruct (json_Marshal _) as [data|err] eqn:Hdata;
    [|by apply claim_spec_none; [rewrite app_assoc, commits_app, Hq|]].
  apply sat_silent; [auto with tnats|]. intros t2 [e2|] H2; cbn [app].
  { apply claim_spec_none; [|done]. rewrite app_nil_r, app_assoc, commits_app, Hq. exact H2. }
  eapply sat_mono; [|apply (createClaim_writes _ b (claimPrefix +:+ key))]. cbn. intros t3 r H3.
  assert (Hc : commits (t0 ++ t1 ++ Ev RNow now :: Ev (RRandRead 16) (Ok bytes) :: t2 ++ t3) = commits t3).
  { rewrite app_assoc, commits_app, Hq. change (commits (t2 ++ t3) = commits t3).
    by rewrite commits_app, H2. }
  destruct H3 as [[H3 ->]|[H3 Hr]]; [left|right; by rewrite Hc].
  exists b, now, bytes, exp, data. rewrite Hc. set_solver.
Qed.

(** C7: Claim reports Acquired exactly when the bucket acknowledged one write: the
    caller's own claim document, with the fresh random token it returns, the
    request hash, and the expiry computed from the clock it read; in every other
    case (completed, in progress, conflict, any error) no write was acknowledged. *)
Theorem Claim_acquires_by_one_write c ctx key h ttl tr r :
  runs (Claim c ctx key h ttl) tr r → claim_spec c key h ttl tr r.
Proof. intros Hr. by apply (proj1 (sat_runs _ _) (claim_spec_sat c ctx key h ttl)). Qed.
End ClaimTheorem.

Section CompleteTheorem.
Context {EM : ErrorModel} {K : Kernel EM} {JT : JsonText EM} {EJ : EntryJson}.

(** The caller's claim was read, found to be its own and unexpired, and replaced at
    the revision read by the same claim with a later expiry. *)
Definition took_over (b key token : string) (tr : list (event resp)) (doc : string) (n : Z) : Prop :=
  ∃ v r p now e,
    Ev (RKvGet b (claimPrefix +:+ key)) (Ok (v, r)) ∈ tr ∧ owned_claim v token = Ok p ∧
    Ev RNow now ∈ tr ∧ time_UnixNano now < cp_ExpiresAt p ∧
    idempotencyExpiry now DefaultIdempotencyLeaseTTL = Ok e ∧
    json_Marshal (claim_to_json (mkClaimPayload token (cp_RequestHash p) e)) = Ok doc ∧
    Ev (RKvUpdate b (claimPrefix +:+ key) doc r) (Ok n) ∈ tr.

Lemma took_over_mono b key token t1 tr t2 doc n :
  took_over b key token tr doc n → took_over b key token (t1 ++ tr ++ t2) doc n.
Proof.
  intros (v & r & p & now & e & H1 & H2 & H3 & H4 & H5 & H6 & H7).
  exists v, r, p, now, e. set_solver.
Qed.

Definition extend_spec (b key token : string) (tr : list (event resp)) (x : result error Z) : Prop :=
  (commits tr = [] ∧ is_ok x = false) ∨
  ∃ doc n, x = Ok n ∧ commits tr = [(claim_key b key, Some doc)] ∧ took_over b key token tr doc n.

Lemma extend_fails b key token tr e : commits tr = [] → extend_spec b key token tr (Err e).
Proof. by left. Qed.

Lemma extend_spec_sat b ctx key token :
  sat (extendClaimForCompletion b ctx key token) (extend_spec b key token).
Proof.
  unfold extendClaimForCompletion. apply sat_call. intros [[v r]|e].
  2:{ apply sat_silent; [auto with tnats|]. intros t a H. apply extend_fails. by rewrite app_nil_r. }
  destruct (owned_claim v token) as [p|e] eqn:Eo; [|by apply extend_fails].
  apply sat_call. intros now. destruct (_ <=? _) eqn:Ex; [by apply extend_fails|].
  destruct (idempotencyExpiry _ _) as [e|] eqn:Ee; [|by apply extend_fails].
  destruct (json_Marshal _) as [doc|] eqn:Ed; [|by apply extend_fails].
  apply sat_silent; [auto with tnats|]. intros t [e1|] Ht; [apply extend_fails; by rewrite app_nil_r|].
  apply sat_call. intros [n|err]; cbn [sat mret prog_mret].
  2:{ apply sat_silent; [auto with tnats|]. intros t' a H'. apply extend_fails.
      rewrite app_nil_r. change (commits (t ++ Ev (RKvUpdate b (claimPrefix +:+ key) doc r) (Err err) :: t') = []).
      rewrite commits_app, Ht. exact H'. }
  right. exists doc, n. split; [done|]. split.
  - change (commits (t ++ [Ev (RKvUpdate b (claimPrefix +:+ key) doc r) (Ok n)])
            = [(claim_key b key, Some doc)]). by rewrite commits_app, Ht.
  - pose proof (owned_claim_ok _ _ _ Eo) as [_ <-]. go_bool. exists v, r, p, now, e. set_solver.
Qed.

(** The three writes of a completion, in order. *)
Definition completion (b key doc entryDoc : string) : list (kvkey * option string) :=
  [(claim_key b key, Some doc); (entry_key b key, Some entryDoc); (claim_key b key, None)].

Definition complete_spec (c : option KVIdempotencyCoordinator) (key token : string)
    (entry : IdempotencyEntry) (ttl : Z) (tr : list (event resp)) (r : option error) : Prop :=
  (commits tr = [] ∧ is_Some r) ∨
  ∃ b doc n entryDoc now e i,
    bucket_of c = Some b ∧ took_over b key token tr doc n ∧
    Ev RNow now ∈ tr ∧ idempotencyExpiry now ttl = Ok e ∧
    json_Marshal (payload_to_json (mkEntryPayload (Some entry) e)) = Ok entryDoc ∧
    commits tr = take i (completion b key doc entryDoc) ∧ (0 < i ≤ 3)%nat ∧
    (r = None ↔ i = 3%nat) ∧ (i = 3%nat → Ev (RKvDelete b (claimPrefix +:+ key) n) None ∈ tr).

Lemma complete_fails c key token entry ttl tr e :
  commits tr = [] → complete_spec c key token entry ttl tr (Some e).
Proof. left. eauto. Qed.

(** marshalKVEntry reads the clock once. *)
Lemma marshalKVEntry_sat entry ttl :
  sat (marshalKVEntry entry ttl) (λ tr x, commits tr = [] ∧ ∀ s, x = Ok s → ∃ now e,
    Ev RNow now ∈ tr ∧ idempotencyExpiry now ttl = Ok e ∧
    json_Marshal (payload_to_json (mkEntryPayload (Some entry) e)) = Ok s).
Proof.
  unfold marshalKVEntry. apply sat_call. intros now.
  destruct (idempotencyExpiry now ttl) as [e|] eqn:Ee; cbn; [|done].
  split; [done|]. intros s Hs. exists now, e. set_solver.
Qed.

Lemma mapIdempotencyKVError_some ctx e :
  sat (mapIdempotencyKVError ctx (Some e)) (λ tr r, commits tr = [] ∧ is_Some r).
Proof.
  unfold mapIdempotencyKVError. apply sat_silent; [auto with tnats|].
  intros t [x|] Ht; cbn; rewrite app_nil_r; eauto.
Qed.

(** The last part of Complete, once the claim is taken over: which of the
    remaining two writes were acknowledged. *)
Definition finish (b : string) (ctx : context) (key entryData : string) (n : Z) : prog resp (option error) :=
  ctxErr ← ctx_Err ctx;
  match ctxErr with
  | Some e => mret (Some e)
  | None =>
      put ← call (RKvPut b (entryPrefix +:+ key) entryData);
      match put with
      | Err err => e ← mapKVFailure ctx err; mret (Some e)
      | Ok _ =>
          ctxErr ← ctx_Err ctx;
          match ctxErr with
          | Some e => mret (Some e)
          | None =>
              del ← call (RKvDelete b (claimPrefix +:+ key) n);
              match del with
              | Some err => mapIdempotencyKVError ctx (Some err)
              | None => mret None
              end
          end
      end
  end.

Definition finish_spec (b key entryData : string) (n : Z) (tr : list (event resp)) (r : option error) : Prop :=
  ∃ i, commits tr = take i [(entry_key b key, Some entryData); (claim_key b key, None)] ∧
    (i ≤ 2)%nat ∧ (r = None ↔ i = 2%nat) ∧
    (i = 2%nat → Ev (RKvDelete b (claimPrefix +:+ key) n) None ∈ tr).

Lemma finish_fails b key d n tr e i :
  commits tr = take i [(entry_key b key, Some d); (claim_key b key, None)] → (i < 2)%nat →
  finish_spec b key d n tr (Some e).
Proof. intros H Hi. exists i. split; [done|]. split; [lia|]. split; [split; [done|lia]|lia]. Qed.

Lemma finish_sat b ctx key d n : sat (finish b ctx key d n) (finish_spec b key d n).
Proof.
  unfold finish. apply sat_silent; [auto with tnats|]. intros t0 [e|] H0.
  { apply (finish_fails _ _ _ _ _ _ 0); [by rewrite app_nil_r|lia]. }
  apply sat_call. intros [m|err].
  2:{ apply sat_silent; [auto with tnats|]. intros t1 e H1. apply (finish_fails _ _ _ _ _ _ 0); [|lia].
      rewrite app_nil_r, commits_app, H0. exact H1. }
  apply sat_silent; [auto with tnats|]. intros t1 [e|] H1.
  { apply (finish_fails _ _ _ _ _ _ 1); [|lia]. rewrite app_nil_r, commits_app, H0. cbn [app].
    unfold commits in *. cbn. by rewrite H1. }
  apply sat_call. intros [err|]; cbn [sat mret prog_mret].
  - eapply sat_mono; [|apply mapIdempotencyKVError_some]. intros t2 r [H2 [e ->]].
    apply (finish_fails _ _ _ _ _ _ 1); [|lia]. rewrite commits_app, H0. unfold commits in *. cbn.
    rewrite omap_app, H1. cbn. by rewrite H2.
  - exists 2%nat. split; [|set_solver by lia].
    rewrite commits_app, H0. unfold commits in *. cbn. by rewrite omap_app, H1.
Qed.

Lemma complete_spec_sat c ctx key token entry ttl :
  sat (Complete c ctx key token entry ttl) (complete_spec c key token entry ttl).
Proof.
  unfold Complete. apply sat_silent; [auto with tnats|]. intros t0 [e|] H0.
  { apply complete_fails. by rewrite app_nil_r. }
  destruct (bucket_of c) as [b|] eqn:Hb; [|apply complete_fails; by rewrite app_nil_r].
  destruct (_ || _)%bool; [apply complete_fails; by rewrite app_nil_r|].
  apply sat_bind. eapply sat_mono; [|apply marshalKVEntry_sat]. intros t1 [d|err] [H1 Hd].
  2:{ apply complete_fails. by rewrite app_nil_r, commits_app, H0, H1. }
  apply sat_bind. eapply sat_mono; [|apply extend_spec_sat]. intros t2 x [[H2 Hx]|(doc & n & -> & H2 & Ht)].
  { destruct x; [done|]. apply complete_fails. by rewrite app_nil_r, !commits_app, H0, H1, H2. }
  eapply sat_mono; [|apply (finish_sat b _ key d n)]. cbn. intros t3 r (i & H3 & Hi & Hr & He).
  destruct (Hd d eq_refl) as (now & e & Hn & Hexp & Hm). right.
  exists b, doc, n, d, now, e, (S i). split; [done|]. split.
  { rewrite app_assoc. by apply took_over_mono. }
  split; [set_solver|]. do 2 (split; [done|]). split.
  { by rewrite !commits_app, H0, H1, H2, H3. }
  split; [lia|]. split; [rewrite Hr; lia|]. intros Hi3. assert (i = 2%nat) as Hi2 by lia.
  specialize (He Hi2). set_solver.
Qed.

(** C6: Completion order: Complete stores the result only after it has re-read the
    claim, found it to be the caller's own and unexpired, and extended it at the
    revision read; it deletes the claim (at the revision of that extension) only
    after the result is stored; it reports success exactly when all three writes
    were acknowledged, and an error otherwise. *)
Theorem Complete_ordered c ctx key token entry ttl tr r :
  runs (Complete c ctx key token entry ttl) tr r → complete_spec c key token entry ttl tr r.
Proof. intros Hr. by apply (proj1 (sat_runs _ _) (complete_spec_sat c ctx key token entry ttl)). Qed.
End CompleteTheorem.

Section GetTheorem.
Context {EM : ErrorModel} {K : Kernel EM} {JT : JsonText EM} {EJ : EntryJson}.

(** The only two reasons to report that a request has no stored result. *)
Definition really_absent (b key : string) (tr : list (event resp)) : Prop :=
  (∃ err, Ev (RKvGet b (entryPrefix +:+ key)) (Err err) ∈ tr ∧
     (errors_Is err nats_ErrKeyNotFound = true ∨ errors_Is err nats_ErrKeyDeleted = true)) ∨
  (∃ v r j p now, Ev (RKvGet b (entryPrefix +:+ key)) (Ok (v, r)) ∈ tr ∧
     json_Unmarshal v = Ok j ∧ payload_of_json j = Some p ∧ ep_ExpiresAt p ≠ 0 ∧
     Ev RNow now ∈ tr ∧ ep_ExpiresAt p ≤ time_UnixNano now).

Lemma decodeKVEntry_absent v :
  sat (decodeKVEntry v) (λ tr x, x.1.2 = false → ∃ j p now,
    json_Unmarshal v = Ok j ∧ payload_of_json j = Some p ∧ ep_ExpiresAt p ≠ 0 ∧
    Ev RNow now ∈ tr ∧ ep_ExpiresAt p ≤ time_UnixNano now).
Proof.
  unfold decodeKVEntry. destruct (json_Unmarshal v) as [j|] eqn:Ej; [|done].
  destruct j as [| | | | | |fs]; try done; try (by destruct (entry_of_json _)).
  destruct (existsb _ fs); [|by destruct (entry_of_json _)].
  destruct (payload_of_json (JObj fs)) as [p|] eqn:Ep; [|done]. destruct (ep_Entry p); [|done].
  destruct (_ =? 0) eqn:E0; [done|]. apply sat_call. intros now.
  destruct (_ <=? _) eqn:E1; [|done]. intros _. go_bool. exists (JObj fs), p, now. set_solver.
Qed.

Lemma loadEntry_absent c ctx key :
  sat (loadEntry c ctx key) (λ tr x, x.1.2 = false → x.2 = None →
    ∃ b, bucket_of c = Some b ∧ really_absent b key tr).
Proof.
  unfold loadEntry. apply sat_silent; [auto with tnats|]. intros t0 [e|] _; [done|].
  destruct (bucket_of c) as [b|] eqn:Eb; [|done]. destruct (str_empty key); [done|].
  apply sat_call. intros [[v r]|err].
  - apply sat_silent; [auto with tnats|]. intros t1 [e|] _; [done|].
    eapply sat_mono; [|apply decodeKVEntry_absent]. cbn. intros t2 x H Hx _.
    destruct (H Hx) as (j & p & now & H1 & H2 & H3 & H4 & H5). exists b. split; [done|].
    right. exists v, r, j, p, now. set_solver.
  - destruct (_ || _)%bool eqn:Eo.
    + intros _ _. exists b. split; [done|]. left. exists err. go_bool. set_solver.
    + apply sat_silent; [auto with tnats|]. done.
Qed.

(** The ledger fails closed: Get reports a missing result only when the bucket
    said that the key does not exist (or was deleted) or when the stored result has
    expired; a failed or cancelled lookup, an unreadable document or a missing
    bucket is reported as found, so the request is not executed on their account. *)
Theorem Get_fails_closed c ctx key tr e :
  runs (Get c ctx key) tr (e, false) → ∃ b, bucket_of c = Some b ∧ really_absent b key tr.
Proof.
  intros Hr. unfold Get in Hr. apply runs_bind in Hr as (t1 & t2 & [[e1 f1] err] & -> & H1 & H2).
  pose proof (proj1 (sat_runs _ _) (loadEntry_absent c (idempotencyContext ctx) key) _ _ H1) as Ha.
  destruct err as [err|]; cbn in H2; destruct H2 as [-> [= -> ?]]. subst f1.
  rewrite app_nil_r. by apply Ha.
Qed.
End GetTheorem.

Section Provisioning.
Context {EM : ErrorModel} {K : Kernel EM} {JT : JsonText EM} {EJ : EntryJson}.
Abbreviation evt := (@Ev req resp).

Definition no_ttl (name : string) (tr : list (event resp)) : Prop :=
  ∃ ttl, evt (RKvStatusTTL name) (Ok ttl) ∈ tr ∧ ttl ≤ 0.

(** Only the age limit of the bucket's stream is changed. *)
Definition only_age (name : string) (tr : list (event resp)) : Prop :=
  ∀ cfg' x, evt (RUpdateStream cfg') x ∈ tr → sc_MaxAge cfg' = 0 ∧ ∃ cfg,
    evt (RStreamInfo ("KV_" +:+ name)) (Ok cfg) ∈ tr ∧ sc_Name cfg' = sc_Name cfg ∧
    sc_Subjects cfg' = sc_Subjects cfg ∧ sc_Storage cfg' = sc_Storage cfg ∧
    sc_Retention cfg' = sc_Retention cfg ∧ sc_Discard cfg' = sc_Discard cfg ∧ sc_Other cfg' = sc_Other cfg.

Lemma only_age_skip name e tr :
  (∀ cfg, ev_req e ≠ RUpdateStream cfg) → only_age name tr → only_age name (e :: tr).
Proof.
  intros He H cfg' x Hin. apply elem_of_cons in Hin as [<-|Hin]; [by destruct (He cfg')|].
  destruct (H _ _ Hin) as (Hm & cfg & Hi & Hc). split; [done|]. exists cfg. set_solver.
Qed.

Lemma only_age_nil name : only_age name [].
Proof. intros cfg x H. by apply elem_of_nil in H. Qed.

Lemma removeMaxAge_sat name :
  sat (removeIdempotencyBucketMaxAge name) (λ tr r, only_age name tr ∧ (r = None → no_ttl name tr)).
Proof.
  pose proof (only_age_nil name) as Hnil.
  unfold removeIdempotencyBucketMaxAge. apply sat_call. intros [ttl|e]; [|by split; [apply only_age_skip|]].
  destruct (ttl <=? 0) eqn:E.
  { split; [by apply only_age_skip|]. intros _. exists ttl. go_bool. set_solver. }
  apply sat_call. intros [cfg|e]; [|by split; [repeat apply only_age_skip|]].
  apply sat_call. intros x.
  assert (Hu : ∀ t, only_age name t → only_age name
    (evt (RKvStatusTTL name) (Ok ttl) :: evt (RStreamInfo ("KV_" +:+ name)) (Ok cfg) ::
     evt (RUpdateStream {| sc_Name := sc_Name cfg; sc_Subjects := sc_Subjects cfg;
       sc_Storage := sc_Storage cfg; sc_Retention := sc_Retention cfg; sc_Discard := sc_Discard cfg;
       sc_MaxAge := 0; sc_Other := sc_Other cfg |}) x :: t)).
  { intros t Ht cfg' y Hin. apply elem_of_cons in Hin as [Hin|Hin]; [apply (f_equal ev_req) in Hin; done|].
    apply elem_of_cons in Hin as [Hin|Hin]; [apply (f_equal ev_req) in Hin; done|].
    apply elem_of_cons in Hin as [Hin|Hin].
    - apply (f_equal ev_req) in Hin. cbn in Hin. injection Hin as ->. split; [done|]. exists cfg. set_solver.
    - destruct (Ht _ _ Hin) as (Hm & cfg0 & Hi & Hc). split; [done|]. exists cfg0. set_solver. }
  destruct x as [e|]; [by split; [apply Hu|]|].
  apply sat_call. intros [ttl2|e]; [|by split; [apply Hu, only_age_skip|]].
  destruct (0 <? ttl2) eqn:E2; (split; [by apply Hu, only_age_skip|]); [done|].
  intros _. exists ttl2. go_bool. set_solver.
Qed.

(** A coordinator is handed out only for a bucket without physical expiry: when
    NewKVIdempotencyCoordinator succeeds, the bucket it names has been read back
    without a TTL (so the server cannot drop a claim or a result early), and the only
    stream configuration it ever wrote is the bucket's own with the age limit set to
    zero and nothing else changed. *)
Theorem New_bucket_never_expires js names tr r :
  runs (NewKVIdempotencyCoordinator js names) tr r →
  match r with
  | Ok c => ∃ name, coord_kv c = Some name ∧ name ≠ "" ∧ no_ttl name tr ∧ only_age name tr
  | Err _ => True
  end.
Proof.
  revert tr r. apply (proj1 (sat_runs _ (λ tr r, match r with
    | Ok c => ∃ name, coord_kv c = Some name ∧ name ≠ "" ∧ no_ttl name tr ∧ only_age name tr
    | Err _ => True end))).
  unfold NewKVIdempotencyCoordinator. destruct (negb js); [done|]. destruct (1 <? _)%nat; [done|].
  set (name := match names with [n] => if str_empty n then defaultIdempotencyBucket else n
               | _ => defaultIdempotencyBucket end).
  assert (Hname : name ≠ "").
  { unfold name. destruct names as [|n []]; [done| |done]. destruct (str_empty n) eqn:E; [done|].
    by apply str_empty_false. }
  clearbody name. apply sat_call. intros err.
  apply (sat_then _ _ (λ t, Forall (λ e, match ev_req e with RUpdateStream _ => False | _ => True end) t)).
  { destruct err as [e|]; [|constructor]. destruct (errors_Is e _); [|constructor].
    intros x. by repeat constructor. }
  intros t [e|] Ht; [done|]. apply sat_bind. eapply sat_mono; [|apply removeMaxAge_sat].
  cbn beta. intros t2 [e|] [Ho Hn]; [done|]. cbn. exists name. split; [done|]. split; [done|].
  rewrite app_nil_r. split.
  - destruct (Hn eq_refl) as (ttl & Hi & Hl). exists ttl. set_solver.
  - apply only_age_skip; [done|]. clear -Ho Ht. induction Ht as [|x t Hx Ht IH]; [exact Ho|].
    apply only_age_skip; [|exact IH]. intros cfg Hc. by rewrite Hc in Hx.
Qed.
End Provisioning.

(** ** Runs on the in-memory server *)
Section Witnesses.
Import GoErr JsonModel.

Definition start : mem := mkMem empty_view 5 0.
Definition first_claim : prog resp (result error IdempotencyClaim) := Claim ledger None "k" "h" 10.
Definition claimed : mem := exec_state mem_handler first_claim start.
Definition an_entry : IdempotencyEntry := mkEntry 200 "body" 7 "h".
Definition first_complete : prog resp (option error) := Complete ledger None "k" (token_no 0) an_entry 0.

Lemma Claim_acquires_by_one_write_witness :
  exec_result mem_handler first_claim start = Ok (acquired (token_no 0)) ∧
  claim_spec ledger "k" "h" 10 (exec_trace mem_handler first_claim start) (Ok (acquired (token_no 0))).
Proof.
  split; [vm_compute; reflexivity|]. apply (Claim_acquires_by_one_write ledger None "k" "h" 10).
  exact (exec_is_run mem_handler first_claim start).
Defined.

Lemma Complete_ordered_witness :
  exec_result mem_handler first_complete claimed = None ∧
  complete_spec ledger "k" (token_no 0) an_entry 0 (exec_trace mem_handler first_complete claimed) None.
Proof.
  split; [vm_compute; reflexivity|]. apply (Complete_ordered ledger None "k" (token_no 0) an_entry 0).
  exact (exec_is_run mem_handler first_complete claimed).
Defined.

Definition new_ledger : prog resp (result error KVIdempotencyCoordinator) :=
  NewKVIdempotencyCoordinator true [].

Lemma New_bucket_never_expires_witness :
  exec_result mem_handler new_ledger start = Ok (mkCoordinator (Some defaultIdempotencyBucket)) ∧
  ∃ name, Some defaultIdempotencyBucket = Some name ∧ name ≠ "" ∧
    no_ttl name (exec_trace mem_handler new_ledger start) ∧ only_age name (exec_trace mem_handler new_ledger start).
Proof.
  split; [reflexivity|].
  exact (New_bucket_never_expires true [] _ _ (exec_is_run mem_handler new_ledger start)).
Defined.

Lemma Get_fails_closed_witness :
  exec_result mem_handler (Get ledger None "k") start = (empty_entry, false) ∧
  ∃ b, bucket_of ledger = Some b ∧
    really_absent b "k" (exec_trace mem_handler (Get ledger None "k") start).
Proof.
  split; [vm_compute; reflexivity|]. apply (Get_fails_closed ledger None "k" _ empty_entry).
  exact (exec_is_run mem_handler (Get ledger None "k") start).
Defined.

(** A request can be executed twice: a second caller whose Claim has already
    looked for a stored result (and found none) acquires the claim after the first
    caller has completed the same request and its result is stored, because the
    stored result is not looked up again once the claim is created. *)
Theorem Claim_reacquires_completed_request :
  let '(rest, m1) := exec_n 1 (Claim ledger None "k" "h" 10) claimed in
  let m2 := exec_state mem_handler first_complete m1 in
  exec_result mem_handler first_complete m1 = None ∧
  exec_result mem_handler (Get ledger None "k") m2 = (an_entry, true) ∧
  exec_result mem_handler rest m2 = Ok (acquired (token_no 1)).
Proof. vm_compute. repeat split. Qed.
End Witnesses.
