(* ===== verification/IdemKVSpec.v ===== *)
(** * The life of a request on a working bucket

    Functional correctness of the coordinator when the bucket, the clock and the
    random source work: [faithful] states what the calls of a working environment
    do, for any implementation of it.  Operations run one after the other; between
    two operations time may pass. *)

From S2P Require Import Prelude Effects Errors World Json IdemKV KVContract KVGuard IdemKVSafe IdemKVTraces MemKV.

Local Open Scope Z_scope.

(** ** Expiry arithmetic *)
Section Expiry.
Context {EM : ErrorModel}.

Lemma idempotencyExpiry_exact now ttl :
  in_int64 now → 0 < ttl ≤ int64_max →
  idempotencyExpiry now ttl =
    if now + ttl <=? int64_max then Ok (now + ttl)
    else Err (app KindBadRequest "idempotency TTL is too large").
Proof.
  unfold idempotencyExpiry, in_int64, time_Sub. intros Hn Ht.
  destruct (ttl <=? 0) eqn:E0; [go_bool; lia|].
  destruct (_ <? ttl) eqn:E1; destruct (_ <=? int64_max) eqn:E2; go_bool;
    unfold int64_min, int64_max in *; try lia; [done|].
  f_equal. apply wrap_int64_id. unfold in_int64, int64_min, int64_max. lia.
Qed.

(** Expiry arithmetic never wraps: for an int64 clock and TTL (nanoseconds),
    idempotencyExpiry is 0 for a TTL that is not positive, the exact sum of clock and
    TTL when that fits int64, and an error otherwise; so a stored expiry is never a
    wrapped-around time in the past. *)
Theorem idempotencyExpiry_bounds now ttl :
  in_int64 now → in_int64 ttl →
  match idempotencyExpiry now ttl with
  | Ok e => in_int64 e ∧ e = (if ttl <=? 0 then 0 else now + ttl)
  | Err _ => 0 < ttl ∧ int64_max < now + ttl
  end.
Proof.
  intros Hn Ht. destruct (ttl <=? 0) eqn:E.
  - unfold idempotencyExpiry. rewrite E. unfold in_int64, int64_min, int64_max. lia.
  - go_bool. unfold in_int64 in Ht. rewrite idempotencyExpiry_exact by (done || lia).
    destruct (now + ttl <=? int64_max) eqn:E2; go_bool; [|lia]. unfold in_int64 in *. lia.
Qed.
End Expiry.

Section Spec.
Context {EM : ErrorModel} {K : Kernel EM} {JT : JsonText EM} {JL : JsonTextLaws JT}.
Context {EJ : EntryJson} {EL : EntryJsonLaws EJ}.

(** ** A working environment *)
Section Env.
Context {S : Type} (h : handler resp S) (vw : S → kvview) (now : S → Z).

(** The call answered [x] and changed the bucket to [a]. *)
Definition does (r : req) (s : S) (x : resp r) (a : kvview) : Prop :=
  (h r s).1 = x ∧ vw (h r s).2 = a ∧ now (h r s).2 = now s.

Record faithful : Prop := {
  fa_view s : view_ok (vw s);
  fa_clock s : 0 ≤ now s ∧ in_int64 (now s);
  fa_now s : does RNow s (now s) (vw s);
  fa_ctx c s : does (RCtxErr c) s None (vw s);
  fa_rand n s : ∃ bytes, String.length bytes = n ∧ does (RRandRead n) s (Ok bytes) (vw s);
  fa_get_ok b k s v r : live (vw s) !! (b, k) = Some v → rev (vw s) !! (b, k) = Some r →
    does (RKvGet b k) s (Ok (v, r)) (vw s);
  fa_get_none b k s : live (vw s) !! (b, k) = None →
    ∃ e, errors_Is e nats_ErrKeyNotFound = true ∧ does (RKvGet b k) s (Err e) (vw s);
  fa_create_ok b k v s : live (vw s) !! (b, k) = None →
    ∃ n, does (RKvCreate b k v) s (Ok n) (put_view (b, k) v n (vw s));
  fa_create_exists b k v v' s : live (vw s) !! (b, k) = Some v' →
    ∃ e, errors_Is e nats_ErrKeyExists = true ∧ does (RKvCreate b k v) s (Err e) (vw s);
  fa_update_ok b k v r s : rev (vw s) !! (b, k) = Some r →
    ∃ n, does (RKvUpdate b k v r) s (Ok n) (put_view (b, k) v n (vw s));
  fa_put b k v s : ∃ n, does (RKvPut b k v) s (Ok n) (put_view (b, k) v n (vw s));
  fa_delete b k r s : rev (vw s) !! (b, k) = Some r →
    ∃ n, does (RKvDelete b k r) s None (del_view (b, k) n (vw s))
}.

(** The run of [p] from [s] ends with a result and a state that satisfy [Q]. *)
Definition wp {A} (p : prog resp A) (s : S) (Q : A → S → Prop) : Prop :=
  Q (exec_result h p s) (exec_state h p s).

Lemma wp_ret {A} (a : A) s (Q : A → S → Prop) : Q a s → wp (mret a) s Q.
Proof. done. Qed.

Lemma wp_mono {A} (p : prog resp A) s (Q Q' : A → S → Prop) :
  (∀ a s', Q a s' → Q' a s') → wp p s Q → wp p s Q'.
Proof. unfold wp. auto. Qed.

Lemma wp_bind {A B} (p : prog resp A) (f : A → prog resp B) s Q :
  wp p s (λ a s1, wp (f a) s1 Q) → wp (p ≫= f) s Q.
Proof.
  unfold wp, exec_result, exec_state. rewrite exec_bind.
  destruct (exec h p s) as [[a t1] s1]. cbn. by destruct (exec h (f a) s1) as [[b t2] s2].
Qed.

Lemma wp_call {A} r (f : resp r → prog resp A) s x a Q :
  does r s x a → (∀ s1, vw s1 = a → now s1 = now s → wp (f x) s1 Q) → wp (call r ≫= f) s Q.
Proof.
  intros (Hx & Hv & Hn) H. specialize (H _ Hv Hn). unfold wp, exec_result, exec_state in *. cbn.
  destruct (h r s) as [x' s1]. cbn in *. subst x'. by destruct (exec h (f x) s1) as [[? ?] ?].
Qed.

Context (F : faithful).

Lemma wp_ctx_Err {A} c (f : option error → prog resp A) s Q :
  (∀ s1, vw s1 = vw s → now s1 = now s → wp (f None) s1 Q) → wp (ctx_Err c ≫= f) s Q.
Proof.
  intros H. destruct c; cbn [ctx_Err]; try (by apply H); (eapply wp_call; [apply (fa_ctx F)|done]).
Qed.

Lemma unixnano_now s : time_UnixNano (now s) = now s.
Proof. apply wrap_int64_id, (fa_clock F). Qed.

(** ** What the bucket holds *)
Definition holds (a : kvview) (b key : string) (p : kvClaimPayload) : Prop :=
  ∃ v r, live a !! claim_key b key = Some v ∧ rev a !! claim_key b key = Some r ∧
         unmarshalClaim v = Ok p.

Definition unclaimed (a : kvview) (b key : string) : Prop := live a !! claim_key b key = None.

Definition stored (a : kvview) (b key : string) (e : IdempotencyEntry) (exp : Z) : Prop :=
  ∃ v, live a !! entry_key b key = Some v ∧
       json_Unmarshal v = Ok (payload_to_json (mkEntryPayload (Some e) exp)) ∧ in_int64 exp.

Definition expired (exp t : Z) : bool := (negb (exp =? 0) && (exp <=? t))%bool.

(** No result that is still valid at [t]. *)
Definition no_result (a : kvview) (t : Z) (b key : string) : Prop :=
  live a !! entry_key b key = None ∨ ∃ e exp, stored a b key e exp ∧ expired exp t = true.

(** Every other key is left alone. *)
Definition only_claim (a a' : kvview) (b key : string) : Prop :=
  ∀ k, k ≠ claim_key b key → live a' !! k = live a !! k.

Lemma payload_roundtrip e exp :
  in_int64 exp → payload_of_json (payload_to_json (mkEntryPayload (Some e) exp))
                 = Some (mkEntryPayload (Some e) exp).
Proof.
  unfold in_int64, payload_of_json, decode_struct, payload_to_json. cbn [ep_Entry ep_ExpiresAt decode_fields].
  intros He. unfold payload_step at 1. change (field_is "entry" "entry") with true. cbn iota.
  pose proof (entry_not_null e) as Hn. pose proof (entry_roundtrip e) as Hr.
  destruct (entry_to_json e); try done; rewrite Hr;
    (cbn; unfold payload_step; change (field_is "entry" "exp") with false;
     change (field_is "exp" "exp") with true; cbn;
     destruct (int64_min <=? exp) eqn:E1; [|go_bool; lia];
     destruct (exp <=? int64_max) eqn:E2; [|go_bool; lia]; done).
Qed.

Lemma wp_decodeKVEntry s v e exp Q :
  json_Unmarshal v = Ok (payload_to_json (mkEntryPayload (Some e) exp)) → in_int64 exp →
  (∀ s1, vw s1 = vw s → now s1 = now s →
     Q (if expired exp (now s) then (empty_entry, false, None) else (e, true, None)) s1) →
  wp (decodeKVEntry v) s Q.
Proof.
  intros Hv He HQ. unfold decodeKVEntry. rewrite Hv. cbn [payload_to_json existsb].
  change (str_eqb ("entry", _).1 "entry") with true. cbn [orb].
  fold (payload_to_json (mkEntryPayload (Some e) exp)). rewrite payload_roundtrip by done.
  cbn [ep_Entry ep_ExpiresAt]. unfold expired in HQ.
  destruct (exp =? 0) eqn:E0; [apply wp_ret; by apply HQ|].
  eapply wp_call; [apply (fa_now F)|]. intros s1 V1 N1. rewrite unixnano_now.
  cbn [negb andb] in HQ. destruct (exp <=? now s) eqn:E1; apply wp_ret; by apply HQ.
Qed.

Lemma wp_loadEntry_none c ctx b key s Q :
  bucket_of c = Some b → key ≠ "" → no_result (vw s) (now s) b key →
  (∀ s1 e, vw s1 = vw s → now s1 = now s → Q (e, false, None) s1) →
  wp (loadEntry c ctx key) s Q.
Proof.
  intros Hb Hk Hn HQ. unfold loadEntry. apply wp_ctx_Err. intros s1 V1 N1. rewrite Hb.
  apply str_empty_false in Hk. rewrite Hk. rewrite <- V1, <- N1 in Hn.
  destruct Hn as [Hn|(e & exp & (v & Hl & Hj & Hi) & Hx)].
  - destruct (fa_get_none F b (entryPrefix +:+ key) s1 Hn) as (e & He & Hd).
    eapply wp_call; [exact Hd|]. intros s2 V2 N2. cbn beta iota. rewrite He. cbn [orb].
    apply wp_ret. apply HQ; congruence.
  - destruct (vo_live _ (fa_view F s1) _ _ Hl) as [r Hr].
    eapply wp_call; [by apply (fa_get_ok F)|]. intros s2 V2 N2. apply wp_ctx_Err. intros s3 V3 N3.
    eapply wp_decodeKVEntry; [done..|]. intros s4 V4 N4. rewrite N3, N2, Hx. apply HQ; congruence.
Qed.

Lemma wp_loadEntry_stored c ctx b key e exp s Q :
  bucket_of c = Some b → key ≠ "" → stored (vw s) b key e exp → expired exp (now s) = false →
  (∀ s1, vw s1 = vw s → now s1 = now s → Q (e, true, None) s1) →
  wp (loadEntry c ctx key) s Q.
Proof.
  intros Hb Hk (v & Hl & Hj & Hi) Hx HQ. unfold loadEntry. apply wp_ctx_Err. intros s1 V1 N1.
  rewrite Hb. apply str_empty_false in Hk. rewrite Hk. rewrite <- V1 in Hl.
  destruct (vo_live _ (fa_view F s1) _ _ Hl) as [r Hr].
  eapply wp_call; [by apply (fa_get_ok F)|]. intros s2 V2 N2. apply wp_ctx_Err. intros s3 V3 N3.
  eapply wp_decodeKVEntry; [done..|]. intros s4 V4 N4. rewrite N3, N2, N1, Hx. apply HQ; congruence.
Qed.

(** ** Claim *)

(** encoding/json never fails on the documents of the ledger. *)
Hypothesis marshal_total : ∀ j, ∃ t, json_Marshal j = Ok t.

Lemma wp_marshal {A} (P : string → prog resp A) (E : error → prog resp A) j s Q :
  (∀ t, json_Marshal j = Ok t → wp (P t) s Q) →
  wp (match json_Marshal j with Err e => E e | Ok t => P t end) s Q.
Proof. intros H. destruct (marshal_total j) as [t Ht]. rewrite Ht. auto. Qed.

Lemma wp_Claim_start c ctx b key hash ttl s Q :
  bucket_of c = Some b → key ≠ "" → no_result (vw s) (now s) b key →
  0 < lease ttl → now s + lease ttl ≤ int64_max →
  (∀ s1 token data ctx',
     vw s1 = vw s → now s1 = now s → token ≠ "" → utf8_valid token = true →
     json_Marshal (claim_to_json (mkClaimPayload token hash (now s + lease ttl))) = Ok data →
     wp (createClaim ctx' b (claimPrefix +:+ key) hash token (now s) data) s1 Q) →
  wp (Claim c ctx key hash ttl) s Q.
Proof.
  intros Hb Hk Hn Hl Hm HQ. unfold Claim. apply wp_ctx_Err. intros s1 V1 N1. rewrite Hb.
  pose proof (proj2 (str_empty_false key) Hk) as Hk'. rewrite Hk'. fold (lease ttl).
  apply wp_bind. eapply wp_loadEntry_none; [done..|by rewrite V1, N1|]. intros s2 e V2 N2. cbn beta iota.
  eapply wp_call; [apply (fa_now F)|]. intros s3 V3 N3. cbn beta.
  rewrite N2, N1, idempotencyExpiry_exact;
    [|apply (fa_clock F)|unfold int64_max in *; pose proof (fa_clock F s); lia].
  rewrite (proj2 (Z.leb_le _ _) Hm).
  unfold newKVClaimToken. destruct (fa_rand F 16 s3) as (bytes & Hlen & Hd).
  apply wp_bind. eapply wp_call; [exact Hd|]. intros s4 V4 N4. apply wp_ret. cbn beta iota.
  apply wp_marshal. intros data Hdata. apply wp_ctx_Err. intros s5 V5 N5.
  apply HQ; [congruence|congruence| |apply hex_utf8|done].
  intros Hx. apply (f_equal String.length) in Hx. rewrite hex_length, Hlen in Hx. done.
Qed.

(** A claim document written by the coordinator is the one that is read back. *)
Lemma holds_put a b key token hash exp data n :
  utf8_valid token = true → utf8_valid hash = true → in_int64 exp →
  json_Marshal (claim_to_json (mkClaimPayload token hash exp)) = Ok data →
  holds (put_view (claim_key b key) data n a) b key (mkClaimPayload token hash exp).
Proof.
  intros Ht Hh He Hd. exists data, n. cbn. rewrite !lookup_insert_eq. do 2 (split; [done|]).
  apply claim_text_roundtrip; [|done|done]. unfold payload_utf8. cbn. by rewrite Ht, Hh.
Qed.

Lemma only_claim_put a b key v n : only_claim a (put_view (claim_key b key) v n a) b key.
Proof. intros k Hk. cbn. by rewrite lookup_insert_ne. Qed.

Lemma only_claim_del a b key n : only_claim a (del_view (claim_key b key) n a) b key.
Proof. intros k Hk. cbn. by rewrite lookup_delete_ne. Qed.

(** The claim is now held under a new token until [now + lease]. *)
Definition acquires (b key hash : string) (ttl : Z) (s : S)
    (r : result error IdempotencyClaim) (s' : S) : Prop :=
  ∃ token, token ≠ "" ∧ r = Ok (acquired token) ∧ now s' = now s ∧
    holds (vw s') b key (mkClaimPayload token hash (now s + lease ttl)) ∧
    only_claim (vw s) (vw s') b key.

Lemma lease_int64 s ttl : 0 < lease ttl → now s + lease ttl ≤ int64_max → in_int64 (now s + lease ttl).
Proof. pose proof (fa_clock F s). unfold in_int64, int64_min, int64_max in *. lia. Qed.

Lemma wp_Claim_free c ctx b key hash ttl s :
  bucket_of c = Some b → key ≠ "" → utf8_valid hash = true →
  0 < lease ttl → now s + lease ttl ≤ int64_max →
  no_result (vw s) (now s) b key → unclaimed (vw s) b key →
  wp (Claim c ctx key hash ttl) s (acquires b key hash ttl s).
Proof.
  intros Hb Hk Hu Hl Hm Hn Hc. eapply wp_Claim_start; [done..|].
  intros s1 token data ctx' V1 N1 Ht Htu Hd. unfold createClaim. rewrite <- V1 in Hc.
  destruct (fa_create_ok F b (claimPrefix +:+ key) data s1 Hc) as [n Hdo].
  eapply wp_call; [exact Hdo|]. intros s2 V2 N2. apply wp_ret. exists token.
  do 2 (split; [done|]). split; [congruence|]. rewrite V2, <- V1. split.
  - apply holds_put; [done..|by apply lease_int64|done].
  - apply only_claim_put.
Qed.

(** A claim another caller holds. *)
Definition mismatch (stored_hash hash : string) : bool :=
  (negb (str_empty stored_hash) && negb (str_eqb stored_hash hash))%bool.

Lemma wp_Claim_held c ctx b key hash ttl s p Q :
  bucket_of c = Some b → key ≠ "" →
  0 < lease ttl → now s + lease ttl ≤ int64_max →
  no_result (vw s) (now s) b key → holds (vw s) b key p → cp_Token p ≠ "" → 0 < cp_ExpiresAt p →
  (∀ s1 token data ctx' r v,
     vw s1 = vw s → now s1 = now s → token ≠ "" → utf8_valid token = true →
     json_Marshal (claim_to_json (mkClaimPayload token hash (now s + lease ttl))) = Ok data →
     rev (vw s1) !! claim_key b key = Some r → unmarshalClaim v = Ok p →
     wp (resolveExistingClaim ctx' b (claimPrefix +:+ key) hash token (now s) data v r) s1 Q) →
  wp (Claim c ctx key hash ttl) s Q.
Proof.
  intros Hb Hk Hl Hm Hn (v & r & Hv & Hr & Hp) Ht He HQ. eapply wp_Claim_start; [done..|].
  intros s1 token data ctx' V1 N1 Ht1 Htu Hd. unfold createClaim. rewrite <- V1 in Hv, Hr.
  destruct (fa_create_exists F b (claimPrefix +:+ key) data v s1 Hv) as (e & Hee & Hdo).
  eapply wp_call; [exact Hdo|]. intros s2 V2 N2. cbn beta iota. apply wp_ctx_Err. intros s3 V3 N3.
  eapply wp_call; [apply (fa_get_ok F _ _ _ v r); rewrite V3, V2; done|]. intros s4 V4 N4. cbn beta iota.
  apply HQ; [congruence|congruence|done|done|done| |done]. by rewrite V4, V3, V2.
Qed.

Lemma wp_Claim_busy c ctx b key hash ttl s p :
  bucket_of c = Some b → key ≠ "" →
  0 < lease ttl → now s + lease ttl ≤ int64_max →
  no_result (vw s) (now s) b key → holds (vw s) b key p → cp_Token p ≠ "" →
  now s < cp_ExpiresAt p →
  wp (Claim c ctx key hash ttl) s (λ r s',
    r = Ok (claim_of (if mismatch (cp_RequestHash p) hash then ClaimConflict else ClaimInProgress)) ∧
    vw s' = vw s ∧ now s' = now s).
Proof.
  intros Hb Hk Hl Hm Hn Hp Ht He. pose proof (fa_clock F s) as [Hc _].
  eapply wp_Claim_held; [done..|lia|]. intros s1 token data ctx' r v V1 N1 _ _ _ _ Hu.
  unfold resolveExistingClaim. rewrite Hu. apply str_empty_false in Ht. rewrite Ht.
  rewrite (proj2 (Z.leb_gt _ _)) by lia. cbn [orb]. unfold mismatch.
  destruct (_ && _)%bool; [by apply wp_ret|]. rewrite unixnano_now.
  rewrite (proj2 (Z.ltb_lt _ _)) by lia. by apply wp_ret.
Qed.

Lemma wp_Claim_expired c ctx b key hash ttl s p :
  bucket_of c = Some b → key ≠ "" → utf8_valid hash = true →
  0 < lease ttl → now s + lease ttl ≤ int64_max →
  no_result (vw s) (now s) b key → holds (vw s) b key p → cp_Token p ≠ "" →
  0 < cp_ExpiresAt p ≤ now s → mismatch (cp_RequestHash p) hash = false →
  wp (Claim c ctx key hash ttl) s (acquires b key hash ttl s).
Proof.
  intros Hb Hk Hu Hl Hm Hn Hp Ht He Hh.
  eapply wp_Claim_held; [done..|lia|]. intros s1 token data ctx' r v V1 N1 Ht1 Htu Hd Hr Hun.
  unfold resolveExistingClaim. rewrite Hun. apply str_empty_false in Ht. rewrite Ht.
  rewrite (proj2 (Z.leb_gt _ _)) by lia. cbn [orb]. unfold mismatch in Hh. rewrite Hh.
  rewrite unixnano_now, (proj2 (Z.ltb_ge _ _)) by lia. unfold replaceExpiredClaim.
  destruct (fa_update_ok F b (claimPrefix +:+ key) data r s1 Hr) as [n Hdo].
  eapply wp_call; [exact Hdo|]. intros s2 V2 N2. apply wp_ret. exists token.
  do 2 (split; [done|]). split; [congruence|]. rewrite V2, <- V1. split.
  - apply holds_put; [done..|by apply lease_int64|done].
  - apply only_claim_put.
Qed.

Lemma wp_Claim_completed c ctx b key hash ttl s e exp :
  bucket_of c = Some b → key ≠ "" → stored (vw s) b key e exp → expired exp (now s) = false →
  wp (Claim c ctx key hash ttl) s (λ r s',
    r = Ok (if mismatch (e_RequestHash e) hash then claim_of ClaimConflict
            else {| cl_State := ClaimCompleted; cl_Entry := e; cl_Token := "" |}) ∧
    vw s' = vw s ∧ now s' = now s).
Proof.
  intros Hb Hk Hst Hx. unfold Claim. apply wp_ctx_Err. intros s1 V1 N1. rewrite Hb.
  rewrite (proj2 (str_empty_false key) Hk). apply wp_bind.
  eapply wp_loadEntry_stored; [done|done|rewrite V1; exact Hst|by rewrite N1|].
  intros s2 V2 N2. cbn beta iota. unfold mismatch.
  destruct (_ && _)%bool; apply wp_ret; (split; [done|]); split; congruence.
Qed.

(** ** Complete *)

(** The expiry of a result: 0 (never) for a TTL that is not positive. *)
Definition result_expiry (t ttl : Z) : Z := if ttl <=? 0 then 0 else t + ttl.
Definition ttl_ok (t ttl : Z) : Prop := ttl ≤ 0 ∨ t + ttl ≤ int64_max.

Lemma expiry_ok s ttl :
  ttl_ok (now s) ttl → idempotencyExpiry (now s) ttl = Ok (result_expiry (now s) ttl).
Proof.
  intros Ht. pose proof (fa_clock F s) as [H0 Hi]. unfold result_expiry.
  destruct (ttl <=? 0) eqn:E.
  - unfold idempotencyExpiry. by rewrite E.
  - go_bool. destruct Ht as [Ht|Ht]; [lia|].
    rewrite idempotencyExpiry_exact; [|done|unfold int64_max in *; lia].
    by rewrite (proj2 (Z.leb_le _ _) Ht).
Qed.

Lemma result_expiry_int64 s ttl : ttl_ok (now s) ttl → in_int64 (result_expiry (now s) ttl).
Proof. intros H. eapply expiry_int64. by apply expiry_ok. Qed.

Lemma stored_put a b key e exp v n :
  json_utf8 (entry_to_json e) = true → in_int64 exp →
  json_Marshal (payload_to_json (mkEntryPayload (Some e) exp)) = Ok v →
  stored (put_view (entry_key b key) v n a) b key e exp.
Proof.
  intros He Hi Hv. exists v. cbn. rewrite lookup_insert_eq. split; [done|]. split; [|done].
  eapply json_roundtrip; [|done].
  change ((true && json_utf8 (entry_to_json e)) && (true && true) = true)%bool. by rewrite He.
Qed.

Lemma wp_marshalKVEntry entry ttl s Q :
  ttl_ok (now s) ttl →
  (∀ s1 v, vw s1 = vw s → now s1 = now s →
     json_Marshal (payload_to_json (mkEntryPayload (Some entry) (result_expiry (now s) ttl))) = Ok v →
     Q (Ok v) s1) →
  wp (marshalKVEntry entry ttl) s Q.
Proof.
  intros Ht HQ. unfold marshalKVEntry. eapply wp_call; [apply (fa_now F)|]. intros s1 V1 N1.
  cbn beta. rewrite expiry_ok by done.
  destruct (marshal_total (payload_to_json (mkEntryPayload (Some entry) (result_expiry (now s) ttl)))) as [v Hv].
  rewrite Hv. apply wp_ret. by apply HQ.
Qed.

(** The stored claim belongs to [token] and has not expired. *)
Definition owns (s : S) (b key token : string) (p : kvClaimPayload) : Prop :=
  holds (vw s) b key p ∧ cp_Token p = token ∧ now s < cp_ExpiresAt p.

Lemma owned_claim_own v p : unmarshalClaim v = Ok p → cp_Token p ≠ "" → 0 < cp_ExpiresAt p →
  owned_claim v (cp_Token p) = Ok p.
Proof.
  intros Hv Ht He. unfold owned_claim. rewrite Hv. apply str_empty_false in Ht. rewrite Ht.
  rewrite (proj2 (Z.leb_gt _ _)) by lia. cbn [orb]. by rewrite str_eqb_refl.
Qed.

Lemma wp_extend b ctx key token s p Q :
  token ≠ "" → owns s b key token p → 0 < DefaultIdempotencyLeaseTTL →
  ttl_ok (now s) DefaultIdempotencyLeaseTTL →
  (∀ s1 v n, vw s1 = put_view (claim_key b key) v n (vw s) → now s1 = now s → Q (Ok n) s1) →
  wp (extendClaimForCompletion b ctx key token) s Q.
Proof.
  intros Ht ((v & r & Hl & Hr & Hu) & <- & He) Hd Hm HQ. pose proof (fa_clock F s) as [H0 _].
  unfold extendClaimForCompletion. eapply wp_call; [by apply (fa_get_ok F)|]. intros s1 V1 N1.
  cbn beta iota. rewrite owned_claim_own by (done || lia).
  eapply wp_call; [apply (fa_now F)|]. intros s2 V2 N2. cbn beta. rewrite unixnano_now, N1.
  rewrite (proj2 (Z.leb_gt _ _)) by lia. rewrite expiry_ok by done. apply wp_marshal. intros t Htx.
  apply wp_ctx_Err. intros s3 V3 N3. assert (V : vw s3 = vw s) by congruence.
  destruct (fa_update_ok F b (claimPrefix +:+ key) t r s3) as [n Hdo]; [by rewrite V|].
  eapply wp_call; [exact Hdo|]. intros s4 V4 N4. apply wp_ret. eapply (HQ _ t n); [|congruence]. by rewrite V4, V.
Qed.

Lemma wp_Complete_owner c ctx b key token entry ttl s p :
  bucket_of c = Some b → key ≠ "" → token ≠ "" → owns s b key token p →
  0 < DefaultIdempotencyLeaseTTL → ttl_ok (now s) DefaultIdempotencyLeaseTTL →
  ttl_ok (now s) ttl → json_utf8 (entry_to_json entry) = true →
  wp (Complete c ctx key token entry ttl) s (λ r s',
    r = None ∧ now s' = now s ∧ unclaimed (vw s') b key ∧
    stored (vw s') b key entry (result_expiry (now s) ttl)).
Proof.
  intros Hb Hk Ht Ho Hd Hm Httl Hu. unfold Complete. apply wp_ctx_Err. intros s1 V1 N1. rewrite Hb.
  rewrite (proj2 (str_empty_false key) Hk), (proj2 (str_empty_false token) Ht). cbn [orb].
  apply wp_bind, wp_marshalKVEntry; [by rewrite N1|]. intros s2 d V2 N2 Hdd. apply wp_bind.
  eapply (wp_extend _ _ _ _ _ p); [done| |done|by rewrite N2, N1|].
  { destruct Ho as (H1 & H2 & H3). split; [by rewrite V2, V1|]. split; [done|]. rewrite N2, N1. exact H3. }
  intros s3 v n V3 N3. cbn beta iota. apply wp_ctx_Err. intros s4 V4 N4.
  destruct (fa_put F b (entryPrefix +:+ key) d s4) as [m Hput].
  eapply wp_call; [exact Hput|]. intros s5 V5 N5. cbn beta iota. apply wp_ctx_Err. intros s6 V6 N6.
  destruct (fa_delete F b (claimPrefix +:+ key) n s6) as [q Hdel].
  { rewrite V6, V5, V4, V3. cbn. rewrite lookup_insert_ne by (intros H; by simplify_eq).
    apply lookup_insert_eq. }
  eapply wp_call; [exact Hdel|]. intros s7 V7 N7. apply wp_ret. split; [done|]. split; [congruence|].
  rewrite V7, V6, V5. split; [apply lookup_delete_eq|].
  destruct (stored_put (vw s4) b key entry (result_expiry (now s) ttl) d m) as (v' & Hl & Hj); [done| | |].
  - by apply result_expiry_int64.
  - rewrite N1 in Hdd. exact Hdd.
  - exists v'. split; [|done]. cbn. rewrite lookup_delete_ne; [exact Hl|]. apply claim_not_entry.
Qed.

(** Whoever does not own an unexpired claim cannot complete. *)
Definition not_owner (s : S) (b key token : string) : Prop :=
  unclaimed (vw s) b key ∨
  ∃ p, holds (vw s) b key p ∧ (cp_Token p ≠ token ∨ cp_ExpiresAt p ≤ now s).

Lemma owned_claim_foreign v token p :
  unmarshalClaim v = Ok p → cp_Token p ≠ token → ∃ e, owned_claim v token = Err e.
Proof.
  intros Hv Ht. unfold owned_claim. rewrite Hv. apply str_eqb_neq in Ht. rewrite Ht.
  destruct (_ || _)%bool; eauto.
Qed.

Lemma wp_mapKVFailure ctx e s (Q : error → S → Prop) :
  (∀ e' s', vw s' = vw s → now s' = now s → Q e' s') → wp (mapKVFailure ctx e) s Q.
Proof. intros HQ. unfold mapKVFailure. apply wp_ctx_Err. intros s1 V1 N1. apply wp_ret. auto. Qed.

Lemma wp_mapIdempotencyKVError ctx e s (Q : option error → S → Prop) :
  (∀ s', vw s' = vw s → now s' = now s → Q (MapError e) s') → wp (mapIdempotencyKVError ctx e) s Q.
Proof. intros HQ. unfold mapIdempotencyKVError. apply wp_ctx_Err. intros s1 V1 N1. apply wp_ret. auto. Qed.

Lemma wp_extend_foreign b ctx key token s :
  not_owner s b key token →
  wp (extendClaimForCompletion b ctx key token) s (λ r s',
    is_ok r = false ∧ vw s' = vw s ∧ now s' = now s).
Proof.
  intros [Hc|(p & (v & r & Hl & Hr & Hu) & Hp)]; unfold extendClaimForCompletion.
  - destruct (fa_get_none F b (claimPrefix +:+ key) s Hc) as (e & He & Hd).
    eapply wp_call; [exact Hd|]. intros s1 V1 N1. cbn beta iota. apply wp_bind, wp_mapKVFailure.
    intros e' s2 V2 N2. apply wp_ret. split; [done|]. split; congruence.
  - eapply wp_call; [by apply (fa_get_ok F)|]. intros s1 V1 N1. cbn beta iota.
    destruct (owned_claim v token) as [q|e] eqn:Eo; [|by apply wp_ret].
    destruct (owned_claim_ok _ _ _ Eo) as [Hq Hqt]. assert (q = p) as -> by congruence.
    destruct Hp as [Hp|Hp]; [done|].
    eapply wp_call; [apply (fa_now F)|]. intros s2 V2 N2. cbn beta. rewrite unixnano_now, N1.
    rewrite (proj2 (Z.leb_le _ _) Hp). apply wp_ret. split; [done|]. split; congruence.
Qed.

Lemma wp_Complete_foreign c ctx b key token entry ttl s :
  bucket_of c = Some b → ttl_ok (now s) ttl → not_owner s b key token →
  wp (Complete c ctx key token entry ttl) s (λ r s', is_Some r ∧ vw s' = vw s ∧ now s' = now s).
Proof.
  intros Hb Httl Ho. unfold Complete. apply wp_ctx_Err. intros s1 V1 N1. rewrite Hb.
  destruct (_ || _)%bool; [apply wp_ret; eauto|].
  apply wp_bind, wp_marshalKVEntry; [by rewrite N1|]. intros s2 d V2 N2 _. apply wp_bind.
  eapply wp_mono; [|apply wp_extend_foreign].
  - intros [n|e] s3 (Hr & V3 & N3); [done|]. apply wp_ret. split; [eauto|]. split; congruence.
  - unfold not_owner, unclaimed in *. rewrite V2, V1, N2, N1. exact Ho.
Qed.

(** ** Release and RenewClaim *)
Lemma wp_Release_owner c ctx b key token s p :
  bucket_of c = Some b → key ≠ "" → token ≠ "" → holds (vw s) b key p → cp_Token p = token →
  wp (Release c ctx key token) s (λ r s',
    r = None ∧ now s' = now s ∧ unclaimed (vw s') b key ∧ only_claim (vw s) (vw s') b key).
Proof.
  intros Hb Hk Ht (v & r & Hl & Hr & Hu) Hp. unfold Release. apply wp_ctx_Err. intros s1 V1 N1.
  rewrite Hb, (proj2 (str_empty_false key) Hk), (proj2 (str_empty_false token) Ht). cbn [orb].
  rewrite <- V1 in Hl, Hr. eapply wp_call; [by apply (fa_get_ok F)|]. intros s2 V2 N2. cbn beta iota.
  rewrite Hu, Hp, str_eqb_refl. rewrite <- V2 in Hr.
  destruct (fa_delete F b (claimPrefix +:+ key) r s2 Hr) as [q Hdel].
  eapply wp_call; [exact Hdel|]. intros s3 V3 N3. cbn beta iota. apply wp_mapIdempotencyKVError.
  intros s4 V4 N4. split; [done|]. split; [congruence|]. rewrite V4, V3, V2, V1.
  split; [apply lookup_delete_eq|apply only_claim_del].
Qed.

Lemma wp_Release_foreign c ctx b key token s p :
  bucket_of c = Some b → key ≠ "" → token ≠ "" → holds (vw s) b key p → cp_Token p ≠ token →
  wp (Release c ctx key token) s (λ r s', r = None ∧ vw s' = vw s ∧ now s' = now s).
Proof.
  intros Hb Hk Ht (v & r & Hl & Hr & Hu) Hp. unfold Release. apply wp_ctx_Err. intros s1 V1 N1.
  rewrite Hb, (proj2 (str_empty_false key) Hk), (proj2 (str_empty_false token) Ht). cbn [orb].
  rewrite <- V1 in Hl, Hr. eapply wp_call; [by apply (fa_get_ok F)|]. intros s2 V2 N2. cbn beta iota.
  rewrite Hu. apply str_eqb_neq in Hp. rewrite Hp. apply wp_ret. split; [done|]. split; congruence.
Qed.

Lemma wp_Renew_owner c ctx b key token ttl s p :
  bucket_of c = Some b → key ≠ "" → token ≠ "" → owns s b key token p →
  0 < lease ttl → now s + lease ttl ≤ int64_max →
  wp (RenewClaim c ctx key token ttl) s (λ r s',
    r = None ∧ now s' = now s ∧ only_claim (vw s) (vw s') b key ∧
    holds (vw s') b key (mkClaimPayload token (cp_RequestHash p) (now s + lease ttl))).
Proof.
  intros Hb Hk Ht ((v & r & Hl & Hr & Hu) & Hp & He) Hd Hm. pose proof (fa_clock F s) as [H0 _].
  unfold RenewClaim. apply wp_ctx_Err. intros s1 V1 N1.
  rewrite Hb, (proj2 (str_empty_false key) Hk), (proj2 (str_empty_false token) Ht). cbn [orb].
  rewrite <- V1 in Hl, Hr. eapply wp_call; [by apply (fa_get_ok F)|]. intros s2 V2 N2. cbn beta iota.
  subst token. rewrite owned_claim_own by (done || lia).
  eapply wp_call; [apply (fa_now F)|]. intros s3 V3 N3. cbn beta. rewrite unixnano_now, N2, N1.
  rewrite (proj2 (Z.leb_gt _ _)) by lia. fold (lease ttl).
  rewrite idempotencyExpiry_exact; [|apply (fa_clock F)|unfold int64_max in *; lia].
  rewrite (proj2 (Z.leb_le _ _) Hm). apply wp_marshal. intros t Htx. apply wp_ctx_Err. intros s4 V4 N4.
  destruct (fa_update_ok F b (claimPrefix +:+ key) t r s4) as [n Hdo]; [by rewrite V4, V3, V2|].
  eapply wp_call; [exact Hdo|]. intros s5 V5 N5. apply wp_ret. split; [done|]. split; [congruence|].
  rewrite V5, V4, V3, V2, V1. split; [apply only_claim_put|].
  apply unmarshal_utf8 in Hu. unfold payload_utf8 in Hu. go_bool.
  apply holds_put; [apply Hu|apply Hu|by apply lease_int64|done].
Qed.

Lemma wp_Renew_foreign c ctx b key token ttl s :
  bucket_of c = Some b → not_owner s b key token →
  wp (RenewClaim c ctx key token ttl) s (λ r s', is_Some r ∧ vw s' = vw s ∧ now s' = now s).
Proof.
  intros Hb Ho. unfold RenewClaim. apply wp_ctx_Err. intros s1 V1 N1. rewrite Hb.
  destruct (_ || _)%bool; [apply wp_ret; eauto|]. unfold not_owner, unclaimed in Ho. rewrite <- V1, <- N1 in Ho.
  destruct Ho as [Hc|(p & (v & r & Hl & Hr & Hu) & Hp)].
  - destruct (fa_get_none F b (claimPrefix +:+ key) s1 Hc) as (e & He & Hd).
    eapply wp_call; [exact Hd|]. intros s2 V2 N2. cbn beta iota. apply wp_mapIdempotencyKVError.
    intros s3 V3 N3. split; [eauto|]. split; congruence.
  - eapply wp_call; [by apply (fa_get_ok F)|]. intros s2 V2 N2. cbn beta iota.
    destruct (owned_claim v token) as [q|e] eqn:Eo; [|apply wp_ret; split; [eauto|]; split; congruence].
    destruct (owned_claim_ok _ _ _ Eo) as [Hq Hqt]. assert (q = p) as -> by congruence.
    destruct Hp as [Hp|Hp]; [done|].
    eapply wp_call; [apply (fa_now F)|]. intros s3 V3 N3. cbn beta. rewrite unixnano_now, N2.
    rewrite (proj2 (Z.leb_le _ _) Hp). apply wp_ret. split; [eauto|]. split; congruence.
Qed.

(** ** Theorems *)
Section Life.
Context (c : option KVIdempotencyCoordinator) (b key hash : string) (ttl : Z).
Hypothesis Hbucket : bucket_of c = Some b.
Hypothesis Hkey : key ≠ "".
Hypothesis Hhash : utf8_valid hash = true.
Hypothesis Hlease : 0 < lease ttl.

(** Time passes and nobody writes. *)
Definition later (s s' : S) : Prop := vw s' = vw s ∧ now s ≤ now s'.

(** The key has no valid result and no claim, and the clock is far from its end. *)
Definition fresh_key (s : S) : Prop :=
  no_result (vw s) (now s) b key ∧ unclaimed (vw s) b key ∧ now s + lease ttl ≤ int64_max.

Lemma no_result_later s s' : no_result (vw s) (now s) b key → only_claim (vw s) (vw s') b key →
  now s ≤ now s' → no_result (vw s') (now s') b key.
Proof.
  intros Hn Ho Ht. specialize (Ho (entry_key b key) (not_eq_sym (claim_not_entry b b key key))).
  unfold no_result, stored, expired in *. rewrite Ho. destruct Hn as [Hn|(e & x & Hs & Hx)]; [by left|].
  right. exists e, x. split; [done|]. go_bool. lia.
Qed.

(** C8: Replay on a working bucket.  Assume that every call of the bucket, the clock and
    the random source succeeds as [faithful] says, that the JSON encoder accepts every
    document, that the operations below run one after the other, and that nobody else
    writes to the bucket between them ([later]).  Then a Claim of a fresh key acquires it;
    the owner's Complete before the lease ends succeeds; and after that, until the stored
    result expires, every Claim of the key returns ClaimCompleted with exactly the stored
    entry - or ClaimConflict when the entry has a request hash and it is another one -
    and writes nothing.  Under concurrent writers the last part is false:
    Claim_reacquires_completed_request (IdemKVTraces) has the run. *)
Theorem claim_complete_replay ctx ctx2 ctx3 s entry rttl :
  fresh_key s → 0 < DefaultIdempotencyLeaseTTL → json_utf8 (entry_to_json entry) = true →
  wp (Claim c ctx key hash ttl) s (λ r1 s1, ∃ token, r1 = Ok (mkClaim ClaimAcquired empty_entry token) ∧
    ∀ s1', later s1 s1' → now s1' < now s + lease ttl →
      ttl_ok (now s1') DefaultIdempotencyLeaseTTL → ttl_ok (now s1') rttl →
      wp (Complete c ctx2 key token entry rttl) s1' (λ r2 s2, r2 = None ∧
        ∀ s2' hash2 ttl2, later s2 s2' → expired (result_expiry (now s1') rttl) (now s2') = false →
          wp (Claim c ctx3 key hash2 ttl2) s2' (λ r3 s3,
            r3 = Ok (if (negb (str_empty (e_RequestHash entry)) && negb (str_eqb (e_RequestHash entry) hash2))%bool then mkClaim ClaimConflict empty_entry ""
                     else {| cl_State := ClaimCompleted; cl_Entry := entry; cl_Token := "" |}) ∧
            vw s3 = vw s2'))).
Proof.
  intros (Hn & Hc & Hm) Hd Hu. eapply wp_mono; [|by apply wp_Claim_free].
  intros r1 s1 (token & Ht & -> & N1 & Hh & Ho). exists token. split; [done|].
  intros s1' [V1 L1] Hx Hd1 Hr. eapply wp_mono; [|eapply wp_Complete_owner; try done].
  2:{ split; [rewrite V1; exact Hh|]. done. }
  intros r2 s2 (-> & N2 & Hcl & Hst). split; [done|]. intros s2' hash2 ttl2 [V2 L2] Hx2.
  eapply wp_mono; [|eapply wp_Claim_completed; [done..|rewrite V2; exact Hst|done]].
  by intros r3 s3 (-> & V3 & N3).
Qed.

(** C9: Lease takeover on a working bucket (the assumptions of [faithful], [later] and the
    total encoder, as for replay): while the first caller's lease lasts, a second Claim
    reports in-progress (conflict for another request hash) and changes nothing; once the
    lease has ended, a second Claim for the same request acquires the key, and from
    then on the first caller can neither complete, renew nor release it. *)
Theorem claim_takeover ctx ctx2 ctx3 s :
  fresh_key s →
  wp (Claim c ctx key hash ttl) s (λ r1 s1, ∃ token, r1 = Ok (mkClaim ClaimAcquired empty_entry token) ∧
    ∀ s1', later s1 s1' → now s1' + lease ttl ≤ int64_max →
      (∀ hash2, now s1' < now s + lease ttl →
         wp (Claim c ctx2 key hash2 ttl) s1' (λ r2 s2,
           r2 = Ok (mkClaim (if mismatch hash hash2 then ClaimConflict else ClaimInProgress) empty_entry "") ∧
           vw s2 = vw s1')) ∧
      (now s + lease ttl ≤ now s1' →
         wp (Claim c ctx2 key hash ttl) s1' (λ r2 s2, ∃ token2, r2 = Ok (mkClaim ClaimAcquired empty_entry token2) ∧
           ∀ s2' entry rttl, later s2 s2' → token2 ≠ token → ttl_ok (now s2') rttl →
             wp (Complete c ctx3 key token entry rttl) s2' (λ r s', is_Some r ∧ vw s' = vw s2') ∧
             wp (RenewClaim c ctx3 key token ttl) s2' (λ r s', is_Some r ∧ vw s' = vw s2') ∧
             wp (Release c ctx3 key token) s2' (λ r s', r = None ∧ vw s' = vw s2')))).
Proof.
  intros (Hn & Hc & Hm). eapply wp_mono; [|by apply wp_Claim_free].
  intros r1 s1 (token & Ht & -> & N1 & Hh & Ho). exists token. split; [done|].
  intros s1' [V1 L1] Hm1. rewrite <- V1 in Hh, Ho.
  assert (Hn1 : no_result (vw s1') (now s1') b key) by (eapply no_result_later; [done..|lia]).
  pose proof (fa_clock F s) as [H0 _]. split.
  - intros hash2 Hx. eapply wp_mono; [|eapply wp_Claim_busy; done]. by intros r2 s2 (-> & V2 & N2).
  - intros Hx. eapply wp_mono; [|eapply wp_Claim_expired; try done; cbn; [lia|]].
    2:{ unfold mismatch. by rewrite str_eqb_refl, Bool.andb_false_r. }
    intros r2 s2 (token2 & Ht2 & -> & N2 & Hh2 & Ho2). exists token2. split; [done|].
    intros s2' entry rttl [V2 L2] Hne Hr. rewrite <- V2 in Hh2.
    assert (Hno : not_owner s2' b key token) by (right; eexists; split; [exact Hh2|by left]).
    split; [|split].
    + eapply wp_mono; [|by eapply wp_Complete_foreign]. by intros r s' (H & V & _).
    + eapply wp_mono; [|by eapply wp_Renew_foreign]. by intros r s' (H & V & _).
    + eapply wp_mono; [|by eapply wp_Release_foreign]. by intros r s' (H & V & _).
Qed.

(** Release and renewal: a renewed claim keeps later callers out until the new
    expiry, past the end of the original lease; a released key can be claimed again
    at once. *)
Theorem claim_renew_release ctx ctx2 ctx3 s :
  fresh_key s →
  wp (Claim c ctx key hash ttl) s (λ r1 s1, ∃ token, r1 = Ok (acquired token) ∧
    ∀ s1', later s1 s1' → now s1' < now s + lease ttl → now s1' + lease ttl ≤ int64_max →
      wp (RenewClaim c ctx2 key token ttl) s1' (λ r2 s2, r2 = None ∧
        ∀ s2', later s2 s2' → now s2' < now s1' + lease ttl → now s2' + lease ttl ≤ int64_max →
          wp (Claim c ctx3 key hash ttl) s2' (λ r3 s3,
            r3 = Ok (claim_of ClaimInProgress) ∧ vw s3 = vw s2') ∧
          wp (Release c ctx3 key token) s2' (λ r3 s3, r3 = None ∧
            wp (Claim c ctx3 key hash ttl) s3 (λ r4 s4, ∃ token4, r4 = Ok (acquired token4))))).
Proof.
  intros (Hn & Hc & Hm). eapply wp_mono; [|by apply wp_Claim_free].
  intros r1 s1 (token & Ht & -> & N1 & Hh & Ho). exists token. split; [done|].
  intros s1' [V1 L1] Hx Hm1. rewrite <- V1 in Hh, Ho.
  eapply wp_mono; [|eapply wp_Renew_owner; try done]. intros r2 s2 (-> & N2 & Ho2 & Hh2).
  split; [done|]. intros s2' [V2 L2] Hx2 Hm2. rewrite <- V2 in Hh2, Ho2.
  assert (Hn2 : no_result (vw s2') (now s2') b key).
  { eapply no_result_later; [exact Hn| |lia]. intros k Hk. by rewrite Ho2, Ho. }
  split.
  - eapply wp_mono; [|eapply wp_Claim_busy; done]. intros r3 s3 (-> & V3 & _). cbn.
    unfold mismatch. by rewrite str_eqb_refl, Bool.andb_false_r.
  - eapply wp_mono; [|by eapply wp_Release_owner]. intros r3 s3 (-> & N3 & Hc3 & Ho3).
    split; [done|]. eapply wp_mono; [|apply wp_Claim_free; try done].
    + intros r4 s4 (token4 & _ & -> & _). eauto.
    + by rewrite N3.
    + eapply no_result_later; [exact Hn2|exact Ho3|lia].
Qed.
End Life.
End Env.
End Spec.

(** ** The in-memory server works *)
Module MemFaithful.
Import GoErr JsonModel.

Definition good (m : mem) : Prop := view_ok (m_view m) ∧ 0 ≤ m_now m ≤ int64_max.
Definition state : Type := { m : mem | good m }.

Lemma mem_now r m : m_now (mem_handler r m).2 = m_now m.
Proof. destruct m. destruct r; cbn; repeat case_match; done. Qed.

Lemma mem_good r m : good m → good (mem_handler r m).2.
Proof.
  intros [V T]. split; [|by rewrite mem_now].
  destruct (mem_handler r m) as [x m'] eqn:E. apply mem_sound in E.
  by apply (contract_evolves _ _ _ _ E).
Qed.

Definition run : handler resp state := λ r s,
  ((mem_handler r (`s)).1, (mem_handler r (`s)).2 ↾ mem_good r (`s) (proj2_sig s)).

Definition vw (s : state) : kvview := m_view (`s).
Definition now (s : state) : Z := m_now (`s).

Lemma rand_length n c : String.length (rand_bytes n c) = n.
Proof.
  unfold rand_bytes. induction n as [|n IH]; cbn; [done|]. by f_equal.
Qed.

Lemma works : faithful run vw now.
Proof.
  assert (Hnow : ∀ r s, now (run r s).2 = now s) by (intros; apply mem_now).
  split; unfold does.
  - intros [m [V T]]. exact V.
  - intros [m [V T]]. unfold now, in_int64, int64_min, int64_max in *. cbn. lia.
  - intros s. split; [done|]. split; [done|]. apply Hnow.
  - intros c s. split; [done|]. split; [done|]. apply Hnow.
  - intros n s. exists (rand_bytes n (m_rand (`s))). split; [apply rand_length|]. done.
  - intros b k [m Hm] v r Hl Hr. split; [|done]. unfold vw in *. cbn in *. by rewrite Hl, Hr.
  - intros b k [m Hm] Hl. exists (ESentinel nats_ErrKeyNotFound). split; [done|]. split; [|done].
    unfold vw in *. cbn in *. by rewrite Hl.
  - intros b k v [m Hm] Hl. exists (seqno (m_view m) + 1). unfold vw, now, run in *. cbn in *. by rewrite Hl.
  - intros b k v v' [m Hm] Hl. exists (ESentinel nats_ErrKeyExists). split; [done|].
    unfold vw, now, run in *. cbn in *. by rewrite Hl.
  - intros b k v r [m Hm] Hr. exists (seqno (m_view m) + 1). unfold vw, now, run in *. cbn in *.
    by rewrite bool_decide_true.
  - intros b k v s. by exists (seqno (m_view (`s)) + 1).
  - intros b k r [m Hm] Hr. exists (seqno (m_view m) + 1). unfold vw, now, run in *. cbn in *.
    by rewrite bool_decide_true.
Qed.

Lemma marshal_total j : ∃ t, json_Marshal j = Ok t.
Proof. by eexists. Qed.

Lemma start_good : good (mkMem empty_view 5 0).
Proof. split; [|cbn; unfold int64_max; lia]. split; cbn; [done|done|lia]. Qed.

Definition start : state := mkMem empty_view 5 0 ↾ start_good.

Lemma start_fresh : fresh_key vw now "LEDGER" "k" 10 start.
Proof. split; [by left|]. split; [done|]. vm_compute. done. Qed.
End MemFaithful.

Section Witnesses.
Import GoErr JsonModel MemFaithful.

Definition first : prog resp (result error IdempotencyClaim) := Claim ledger None "k" "h" 10.
Definition ledger_entry : IdempotencyEntry := mkEntry 200 "body" 7 "h".

Lemma idempotencyExpiry_bounds_witness :
  in_int64 (int64_max - 5) ∧
  match idempotencyExpiry (int64_max - 5) 10 with
  | Ok e => in_int64 e ∧ e = (if 10 <=? 0 then 0 else int64_max - 5 + 10)
  | Err _ => 0 < 10 ∧ int64_max < int64_max - 5 + 10
  end.
Proof.
  split; [vm_compute; intuition congruence|].
  apply (idempotencyExpiry_bounds (int64_max - 5) 10); vm_compute; intuition congruence.
Defined.

Lemma claim_complete_replay_witness :
  ∃ token, exec_result run first start = Ok (acquired token) ∧
    exec_result run (Complete ledger None "k" token ledger_entry 0) (exec_state run first start) = None.
Proof.
  destruct (claim_complete_replay run vw now works marshal_total ledger "LEDGER" "k" "h" 10
              eq_refl ltac:(done) eq_refl ltac:(done) None None None start ledger_entry 0
              start_fresh ltac:(done) eq_refl) as (token & H1 & H2).
  exists token. split; [exact H1|]. apply (H2 (exec_state run first start)); vm_compute; intuition congruence.
Defined.

Lemma claim_takeover_witness :
  ∃ token, exec_result run first start = Ok (acquired token) ∧
    exec_result run first (exec_state run first start) = Ok (claim_of ClaimInProgress).
Proof.
  destruct (claim_takeover run vw now works marshal_total ledger "LEDGER" "k" "h" 10
              eq_refl ltac:(done) eq_refl ltac:(done) None None None start start_fresh)
    as (token & H1 & H2).
  exists token. split; [exact H1|]. apply (H2 (exec_state run first start)); vm_compute; intuition congruence.
Defined.

Lemma claim_renew_release_witness :
  ∃ token, exec_result run first start = Ok (acquired token) ∧
    exec_result run (RenewClaim ledger None "k" token 10) (exec_state run first start) = None.
Proof.
  destruct (claim_renew_release run vw now works marshal_total ledger "LEDGER" "k" "h" 10
              eq_refl ltac:(done) eq_refl ltac:(done) None None None start start_fresh)
    as (token & H1 & H2).
  exists token. split; [exact H1|]. apply (H2 (exec_state run first start)); vm_compute; intuition congruence.
Defined.
End Witnesses.
