(* ===== verification/IdemExec.v ===== *)
(** * Running an action at most once (src/tnats/idempotency.go)

    Between a message and the mounted action: the request hash, the claim, the
    execution under lease renewal, and the completion or release of the claim.
    The deferred calls of executeWithCoordinator are written where they run. *)

From S2P Require Import Prelude Effects Errors World Json IdemKV KVContract MemKV.

Local Open Scope Z_scope.

Definition idempotencyFinalizeTimeout : Z := 5 * time_Second.

(** ** Bytes *)

(** binary.BigEndian.PutUint64 *)
Fixpoint put_be (n : nat) (z : Z) : list Ascii.ascii :=
  match n with
  | O => []
  | S n' => Ascii.ascii_of_N (Z.to_N (Z.shiftr z (8 * Z.of_nat n') mod 256)) :: put_be n' z
  end.

Definition PutUint64 (z : Z) : list Ascii.ascii := put_be 8 (wrap_uint64 z).

(** copy(dst[off:], src): as many bytes as fit. *)
Definition copy_at (dst : list Ascii.ascii) (off : nat) (src : list Ascii.ascii) : list Ascii.ascii :=
  let n := min (length dst - off) (length src) in
  take off dst ++ take n src ++ drop (off + n) dst.

Definition to_str : list Ascii.ascii → string := String.string_of_list_ascii.
Definition to_bytes : string → list Ascii.ascii := String.list_ascii_of_string.

Section Exec.
Context {EM : ErrorModel} {K : Kernel EM}.

(** sha256.New, Write..., Sum: the digest of what was written. *)
Definition sha256_stream (writes : list (list Ascii.ascii)) : string :=
  sha256_Sum256 (to_str (concat writes)).

Definition msgHash (msg : Msg) : string :=
  let subject := to_bytes (msg_Subject msg) in
  let data := to_bytes (msg_Data msg) in
  let subjectLen := PutUint64 (Z.of_nat (length subject)) in
  let totalLen := (length subjectLen + length subject + length data)%nat in
  if (totalLen <=? 512)%nat then
    let stackBuf := repeat Ascii.zero 512 in
    let stackBuf := copy_at stackBuf 0 subjectLen in
    let stackBuf := copy_at stackBuf (length subjectLen) subject in
    let stackBuf := copy_at stackBuf (length subjectLen + length subject) data in
    hex_encode (sha256_Sum256 (to_str (take totalLen stackBuf)))
  else hex_encode (sha256_stream [subjectLen; subject; data]).

(** ** Results *)

(** A string between double quote characters. *)
Definition in_quotes (s : string) : string :=
  String (Ascii.ascii_of_nat 34) (s +:+ String (Ascii.ascii_of_nat 34) "").

(** ([]byte, error), or a panic that leaves the function. *)
Definition reply : Type := string * option error.

Definition encodeError (c : option codec) (err : error) : reply :=
  let marshal := match c with Some m => m | None => codec_Default end in
  match marshal (xerr_Public err) with
  | Ok encoded => (encoded, Some err)
  | Err _ =>
      match json_Marshal_any (xerr_Public err) with
      | Ok encoded => (encoded, Some err)
      | Err _ => ("{" +:+ in_quotes "error" +:+ ":" +:+ in_quotes "internal" +:+ "," +:+
                  in_quotes "message" +:+ ":" +:+
                  in_quotes "failed to encode error response" +:+ "}", Some err)
      end
  end.

(** c.Marshal(res) on a nil interface panics. *)
Definition codec_Marshal (c : option codec) (v : value) : gores (result error string) :=
  match c with
  | Some m => Done (m v)
  | None => Panic
  end.

(** action.IdempotencyConfig, as far as the transport reads it. *)
Record IdempotencyConfig := mkIdemConfig {
  ic_Header : string;                    (* cfg.Header() *)
  ic_KeyFunc : option (string → string);
  ic_TTL : Z;
  ic_EffectiveLeaseTTL : Z               (* cfg.EffectiveLeaseTTL() *)
}.

(** The store behind the action.IdempotencyStore interface: whether it is a
    coordinator, and whether that coordinator renews leases. *)
Inductive store_kind := LegacyStore | Coordinator (renewer : bool).

(** ** Lease renewal, seen from the main goroutine *)
Definition startCoordinatorLeaseRenewal (renewer : bool) (key token : string) (leaseTTL : Z)
    : prog resp bool :=
  if (negb renewer || (leaseTTL <=? 0))%bool then mret false
  else _ ← call (RStartRenewal key token leaseTTL); mret true.

(** stopRenewal(), then the non-blocking receive from the renewal channel. *)
Definition stopRenewal (started : bool) : prog resp (option error) :=
  if started then call RStopRenewal else mret None.

(** context.WithTimeout(context.WithoutCancel(ctx), idempotencyFinalizeTimeout) *)
Definition finalizeContext (ctx : context) : context :=
  CtxTimeout (WithoutCancel ctx) idempotencyFinalizeTimeout.

Definition payload_conflict : error :=
  app KindConflict "idempotency key already used with a different payload".

Definition executeWithCoordinator (ctx : context) (renewer : bool) (cfg : IdempotencyConfig)
    (key reqHash : string) (c : option codec) : prog resp (gores reply) :=
  let leaseTTL := ic_EffectiveLeaseTTL cfg in
  claim ← call (RClaim ctx key reqHash leaseTTL);
  match claim with
  | Err err => mret (Done (encodeError c err))
  | Ok claim =>
  match cl_State claim with
  | ClaimCompleted =>
      if (negb (str_empty (e_RequestHash (cl_Entry claim)))
          && negb (str_eqb (e_RequestHash (cl_Entry claim)) reqHash))%bool
      then mret (Done (encodeError c payload_conflict))
      else mret (Done (e_Body (cl_Entry claim), None))
  | ClaimConflict => mret (Done (encodeError c payload_conflict))
  | ClaimInProgress =>
      mret (Done (encodeError c (app KindUnavailable "an identical request is currently in progress")))
  | ClaimStateOther _ =>
      mret (Done (encodeError c (app KindInternal "invalid idempotency claim state")))
  | ClaimAcquired =>
      let release (r : gores reply) : prog resp (gores reply) :=
        _ ← call (RRelease (finalizeContext ctx) key (cl_Token claim)); mret r in
      started ← startCoordinatorLeaseRenewal renewer key (cl_Token claim) leaseTTL;
      res ← call (RExecute (CtxCancel ctx));
      renewalErr ← stopRenewal started;
      match res with
      | Panic => release Panic
      | Done r =>
      match renewalErr with
      | Some e => release (Done (encodeError c e))
      | None =>
      match r with
      | Err execErr => release (Done (encodeError c execErr))
      | Ok v =>
      match codec_Marshal c v with
      | Panic => release Panic
      | Done (Err err) =>
          release (Done (encodeError c (appw KindInternal "failed to marshal idempotent response" err)))
      | Done (Ok replyBytes) =>
          now ← call RNow;
          let entry := {| e_Status := 200; e_Body := replyBytes; e_StoredAt := now;
                          e_RequestHash := reqHash |} in
          err ← call (RComplete (finalizeContext ctx) key (cl_Token claim) entry (ic_TTL cfg));
          match err with
          | Some e =>
              release (Done (encodeError c (appw KindConflict "idempotency outcome is indeterminate" e)))
          | None => mret (Done (replyBytes, None))
          end
      end
      end
      end
      end
  end
  end.

Definition executeWithLegacyStore (ctx : context) (cfg : IdempotencyConfig)
    (key reqHash : string) (c : option codec) : prog resp (gores reply) :=
  found ← call (RStoreGet ctx key);
  match found with
  | Some entry =>
      if (negb (str_empty (e_RequestHash entry)) && negb (str_eqb (e_RequestHash entry) reqHash))%bool
      then mret (Done (encodeError c payload_conflict))
      else mret (Done (e_Body entry, None))
  | None =>
      res ← call (RExecute ctx);
      match res with
      | Panic => mret Panic
      | Done (Err execErr) => mret (Done (encodeError c execErr))
      | Done (Ok v) =>
          match codec_Marshal c v with
          | Panic => mret Panic
          | Done (Err err) =>
              mret (Done (encodeError c (appw KindInternal "failed to marshal idempotent response" err)))
          | Done (Ok replyBytes) =>
              now ← call RNow;
              _ ← call (RStoreSet ctx key
                          {| e_Status := 200; e_Body := replyBytes; e_StoredAt := now;
                             e_RequestHash := reqHash |} (ic_TTL cfg));
              mret (Done (replyBytes, None))
          end
      end
  end.

(** The idempotency key of a message. *)
Definition idempotencyKey (cfg : IdempotencyConfig) (msg : Msg) : string :=
  let key := match msg_Header msg with
             | Some h => header_Get h (ic_Header cfg)
             | None => ""
             end in
  let key := if str_empty key
             then match ic_KeyFunc cfg with Some f => f (msg_Data msg) | None => key end
             else key in
  if str_empty key then msgHash msg else key.

Definition executeWithIdempotency (ctx : context) (store : store_kind) (cfg : IdempotencyConfig)
    (msg : Msg) (c : option codec) : prog resp (gores reply) :=
  let key := idempotencyKey cfg msg in
  let reqHash := msgHash msg in
  match store with
  | Coordinator renewer => executeWithCoordinator ctx renewer cfg key reqHash c
  | LegacyStore => executeWithLegacyStore ctx cfg key reqHash c
  end.
End Exec.

(** ** The request hash *)
Lemma copy_at_app (pre post src : list Ascii.ascii) :
  (length src ≤ length post)%nat →
  copy_at (pre ++ post) (length pre) src = pre ++ src ++ drop (length src) post.
Proof.
  intros H. unfold copy_at. rewrite length_app.
  replace (min _ _) with (length src) by lia.
  by rewrite take_app_length, firstn_all, <- drop_drop, drop_app_length.
Qed.

Lemma put_be_length n z : length (put_be n z) = n.
Proof. induction n as [|n IH]; cbn; [done|]. by rewrite IH. Qed.

(** The number that big-endian bytes denote. *)
Fixpoint be_val (l : list Ascii.ascii) : Z :=
  match l with
  | [] => 0
  | a :: l' => Z.of_N (Ascii.N_of_ascii a) * 2 ^ (8 * Z.of_nat (length l')) + be_val l'
  end.

Lemma be_val_put_be n z : be_val (put_be n z) = z mod 2 ^ (8 * Z.of_nat n).
Proof.
  induction n as [|n IH]; [by rewrite Z.mod_1_r|]. cbn [put_be be_val].
  rewrite put_be_length, IH.
  pose proof (Z.mod_pos_bound (Z.shiftr z (8 * Z.of_nat n)) 256 ltac:(lia)) as Hb.
  rewrite Ascii.N_ascii_embedding by lia. rewrite Z2N.id by lia.
  rewrite Z.shiftr_div_pow2 by lia. set (p := 2 ^ (8 * Z.of_nat n)).
  assert (Hp : 0 < p) by (apply Z.pow_pos_nonneg; lia).
  replace (2 ^ (8 * Z.of_nat (S n))) with (p * 256).
  2:{ unfold p. replace (8 * Z.of_nat (S n)) with (8 * Z.of_nat n + 8) by lia.
      rewrite Z.pow_add_r by lia. done. }
  rewrite (Z.rem_mul_r z p 256) by lia. lia.
Qed.

Lemma PutUint64_inj a b : in_uint64 a → in_uint64 b → PutUint64 a = PutUint64 b → a = b.
Proof.
  unfold PutUint64, in_uint64, uint64_max. intros Ha Hb H.
  apply (f_equal be_val) in H. rewrite !be_val_put_be in H. unfold wrap_uint64 in H.
  change (8 * Z.of_nat 8) with 64 in H. rewrite !Z.mod_mod, !Z.mod_small in H; lia.
Qed.

Section Hash.
Context {EM : ErrorModel} {K : Kernel EM}.

(** What is hashed: the length of the subject, the subject, the payload. *)
Definition preimage (msg : Msg) : list Ascii.ascii :=
  PutUint64 (Z.of_nat (String.length (msg_Subject msg)))
  ++ to_bytes (msg_Subject msg) ++ to_bytes (msg_Data msg).

Lemma to_bytes_length s : length (to_bytes s) = String.length s.
Proof. induction s; cbn; auto. Qed.

Lemma msgHash_preimage msg : msgHash msg = hex_encode (sha256_Sum256 (to_str (preimage msg))).
Proof.
  unfold msgHash, preimage. rewrite !to_bytes_length.
  set (n := PutUint64 _). set (s := to_bytes (msg_Subject msg)). set (d := to_bytes (msg_Data msg)).
  assert (Hs : String.length (msg_Subject msg) = length s) by (by rewrite <- to_bytes_length).
  rewrite Hs. destruct (_ <=? 512)%nat eqn:E; [|unfold sha256_stream; cbn; by rewrite app_nil_r].
  apply Nat.leb_le in E.
  assert (Hd : String.length (msg_Data msg) = length d) by (by rewrite <- to_bytes_length).
  rewrite Hd in *. do 3 f_equal.
  remember (repeat Ascii.zero 512) as buf eqn:Eb.
  assert (Hbuf : length buf = 512%nat) by (subst; apply repeat_length). clear Eb.
  assert (C : copy_at buf 0 n = n ++ drop (length n) buf) by (apply (copy_at_app [] buf n); lia).
  rewrite C. clear C.
  rewrite copy_at_app by (rewrite length_drop; lia).
  rewrite <- length_app. rewrite (app_assoc n s).
  rewrite copy_at_app by (rewrite !length_drop; lia).
  rewrite <- length_app, (app_assoc (n ++ s) d). rewrite take_app_length. by rewrite <- app_assoc.
Qed.

Lemma to_str_inj a b : to_str a = to_str b → a = b.
Proof.
  intros H. apply (f_equal to_bytes) in H. unfold to_bytes, to_str in H.
  by rewrite !String.list_ascii_of_string_of_list_ascii in H.
Qed.

Lemma to_bytes_inj a b : to_bytes a = to_bytes b → a = b.
Proof.
  intros H. apply (f_equal to_str) in H. unfold to_bytes, to_str in H.
  by rewrite !String.string_of_list_ascii_of_string in H.
Qed.

Lemma preimage_inj m1 m2 :
  in_uint64 (Z.of_nat (String.length (msg_Subject m1))) →
  in_uint64 (Z.of_nat (String.length (msg_Subject m2))) →
  preimage m1 = preimage m2 → msg_Subject m1 = msg_Subject m2 ∧ msg_Data m1 = msg_Data m2.
Proof.
  intros H1 H2 H. unfold preimage in H.
  apply app_inj_1 in H as [Hn H]; [|unfold PutUint64; by rewrite !put_be_length].
  apply PutUint64_inj in Hn; [|done..].
  apply app_inj_1 in H as [Hs Hd]; [|rewrite !to_bytes_length; lia].
  split; by apply to_bytes_inj.
Qed.
End Hash.

Section Theorems.
Context {EM : ErrorModel} {K : Kernel EM}.

(** The request hash identifies the request: two messages (with lengths below
    2^64) have the same hash exactly when subject and payload are equal, unless
    SHA-256 itself collides; in particular moving bytes between subject and payload
    changes the hashed bytes, and the stack-buffer path and the streaming path hash
    the same bytes. *)
Theorem msgHash_identifies m1 m2 :
  in_uint64 (Z.of_nat (String.length (msg_Subject m1))) →
  in_uint64 (Z.of_nat (String.length (msg_Subject m2))) →
  msgHash m1 = msgHash m2 ↔
  (msg_Subject m1 = msg_Subject m2 ∧ msg_Data m1 = msg_Data m2) ∨
  (preimage m1 ≠ preimage m2 ∧
   sha256_Sum256 (to_str (preimage m1)) = sha256_Sum256 (to_str (preimage m2))).
Proof.
  intros H1 H2. rewrite !msgHash_preimage. split.
  - intros H. apply (inj hex_encode) in H.
    destruct (decide (preimage m1 = preimage m2)) as [He|Hn]; [left; by apply preimage_inj|by right].
  - intros [[Hs Hd]|[_ H]]; [|by rewrite H]. unfold preimage. by rewrite Hs, Hd.
Qed.

Abbreviation evt := (@Ev req resp).

(** ** Executions and settlements of a run *)
Definition is_execute (r : req) : bool := match r with RExecute _ => true | _ => false end.
Definition is_release (r : req) : bool := match r with RRelease _ _ _ => true | _ => false end.

Definition count (f : req → bool) (tr : list (event resp)) : nat :=
  length (List.filter (λ e, f (ev_req e)) tr).

(** How a run that owned the claim ended. *)
Inductive settlement (ctx : context) (cfg : IdempotencyConfig) (key h token : string) (c : option codec)
    (x : gores (result error value)) (tr : list (event resp)) : gores reply → Prop :=
| settled_completed v m body (now : Z) :
    x = Done (Ok v) → c = Some m → m v = Ok body → evt RNow now ∈ tr →
    evt (RComplete (finalizeContext ctx) key token (mkEntry 200 body now h) (ic_TTL cfg)) None ∈ tr →
    count is_release tr = 0%nat →
    settlement ctx cfg key h token c x tr (Done (body, None))
| settled_released r tr0 y :
    tr = tr0 ++ [evt (RRelease (finalizeContext ctx) key token) y] →
    count is_release tr0 = 0%nat →
    (∀ body, r ≠ Done (body, None)) → (x = Panic → r = Panic) →
    settlement ctx cfg key h token c x tr r.

Definition coordinator_spec (ctx : context) (cfg : IdempotencyConfig) (key h : string) (c : option codec)
    (tr : list (event resp)) (r : gores reply) : Prop :=
  ∃ claim, head tr = Some (evt (RClaim ctx key h (ic_EffectiveLeaseTTL cfg)) claim) ∧
    ((∃ cl x, claim = Ok cl ∧ cl_State cl = ClaimAcquired ∧ evt (RExecute (CtxCancel ctx)) x ∈ tr ∧
        count is_execute tr = 1%nat ∧ settlement ctx cfg key h (cl_Token cl) c x tr r) ∨
     (length tr = 1%nat ∧ ∃ rep, r = Done rep ∧
        (rep.2 = None → ∃ cl, claim = Ok cl ∧ cl_State cl = ClaimCompleted ∧ rep.1 = e_Body (cl_Entry cl) ∧
           (e_RequestHash (cl_Entry cl) = "" ∨ e_RequestHash (cl_Entry cl) = h)))).

Lemma encodeError_err c e : (encodeError c e).2 = Some e.
Proof. unfold encodeError. repeat case_match; done. Qed.

Lemma encodeError_fails c e body : Done (encodeError c e) ≠ Done (body, None).
Proof. intros [= H]. pose proof (encodeError_err c e) as H'. rewrite H in H'. done. Qed.

(** The run after the claim was acquired and the renewal started: [t0] holds
    neither an execution nor a release. *)
Definition quiet (t : list (event resp)) : Prop :=
  count is_execute t = 0%nat ∧ count is_release t = 0%nat.

Lemma count_app f t1 t2 : count f (t1 ++ t2) = (count f t1 + count f t2)%nat.
Proof. unfold count. by rewrite List.filter_app, length_app. Qed.

(** Every branch that gives the claim up ends with the one release. *)
Lemma settle_released ctx cfg key h token c x tr0 y r :
  count is_release tr0 = 0%nat → (∀ body, r ≠ Done (body, None)) → (x = Panic → r = Panic) →
  settlement ctx cfg key h token c x (tr0 ++ [evt (RRelease (finalizeContext ctx) key token) y]) r.
Proof. intros. by eapply settled_released. Qed.

Lemma start_quiet renewer key token ttl :
  sat (startCoordinatorLeaseRenewal renewer key token ttl) (λ t _, quiet t).
Proof. unfold startCoordinatorLeaseRenewal. by destruct (_ || _)%bool. Qed.

Lemma stop_quiet started : sat (stopRenewal started) (λ t _, quiet t).
Proof. by destruct started. Qed.

Section Owned.
Context (ctx : context) (cfg : IdempotencyConfig) (key h : string) (c : option codec).

Definition claim_event (claim : result error IdempotencyClaim) : event resp :=
  evt (RClaim ctx key h (ic_EffectiveLeaseTTL cfg)) claim.

Lemma spec_replied claim (rep : reply) :
  (rep.2 = None → ∃ cl, claim = Ok cl ∧ cl_State cl = ClaimCompleted ∧ rep.1 = e_Body (cl_Entry cl) ∧
     (e_RequestHash (cl_Entry cl) = "" ∨ e_RequestHash (cl_Entry cl) = h)) →
  coordinator_spec ctx cfg key h c [claim_event claim] (Done rep).
Proof. intros H. exists claim. split; [done|]. right. split; [done|]. eauto. Qed.

Lemma spec_refused claim e :
  coordinator_spec ctx cfg key h c [claim_event claim] (Done (encodeError c e)).
Proof. apply spec_replied. by rewrite encodeError_err. Qed.

(** A run that owned the claim: renewal start [t1], execution, renewal stop [t2],
    the rest [t3]. *)
Definition owned_trace (cl : IdempotencyClaim) t1 x t2 t3 : list (event resp) :=
  claim_event (Ok cl) :: t1 ++ evt (RExecute (CtxCancel ctx)) x :: t2 ++ t3.

Lemma owned_count f cl t1 x t2 t3 :
  f (RClaim ctx key h (ic_EffectiveLeaseTTL cfg)) = false → count f t1 = 0%nat → count f t2 = 0%nat →
  count f (owned_trace cl t1 x t2 t3) =
    ((if f (RExecute (CtxCancel ctx)) then 1 else 0) + count f t3)%nat.
Proof.
  intros Hf H1 H2. unfold owned_trace.
  change (claim_event (Ok cl) :: t1 ++ evt (RExecute (CtxCancel ctx)) x :: t2 ++ t3)
    with ([claim_event (Ok cl)] ++ t1 ++ [evt (RExecute (CtxCancel ctx)) x] ++ t2 ++ t3).
  rewrite !count_app, H1, H2. unfold count at 1 2. cbn. rewrite Hf.
  by destruct (f (RExecute (CtxCancel ctx))).
Qed.

Lemma spec_owned cl t1 x t2 t3 r :
  cl_State cl = ClaimAcquired → quiet t1 → quiet t2 → count is_execute t3 = 0%nat →
  settlement ctx cfg key h (cl_Token cl) c x (owned_trace cl t1 x t2 t3) r →
  coordinator_spec ctx cfg key h c (owned_trace cl t1 x t2 t3) r.
Proof.
  intros Hc [Q1 _] [Q2 _] Q3 Hs. exists (Ok cl). split; [done|]. left. exists cl, x.
  do 2 (split; [done|]). split; [unfold owned_trace; set_solver|]. split; [|exact Hs].
  rewrite owned_count by done. cbn. by rewrite Q3.
Qed.

Lemma spec_released cl t1 x t2 t3 y r :
  cl_State cl = ClaimAcquired → quiet t1 → quiet t2 → quiet t3 →
  (∀ body, r ≠ Done (body, None)) → (x = Panic → r = Panic) →
  coordinator_spec ctx cfg key h c
    (owned_trace cl t1 x t2 (t3 ++ [evt (RRelease (finalizeContext ctx) key (cl_Token cl)) y])) r.
Proof.
  intros Hc [Q1 R1] [Q2 R2] [Q3 R3] Hr Hp. apply spec_owned; [done|done|done|by rewrite count_app, Q3|].
  eapply (settled_released _ _ _ _ _ _ _ _ _ (owned_trace cl t1 x t2 t3)); [| |done|done].
  - unfold owned_trace. by rewrite !app_comm_cons, !app_assoc.
  - rewrite owned_count by done. cbn. done.
Qed.

End Owned.

Lemma coordinator_sat ctx renewer cfg key h c :
  sat (executeWithCoordinator ctx renewer cfg key h c) (coordinator_spec ctx cfg key h c).
Proof.
  unfold executeWithCoordinator. apply sat_call. intros [cl|err]; [|apply spec_refused].
  destruct (cl_State cl) eqn:Est; [|apply spec_refused| |apply spec_refused..].
  2:{ destruct (_ && _)%bool eqn:Eh; [apply spec_refused|]. apply (spec_replied _ _ _ _ _ (Ok cl)). intros _. exists cl.
      do 3 (split; [done|]). go_bool. destruct Eh; auto. }
  apply (sat_then _ _ quiet); [apply start_quiet|]. intros t1 started H1.
  apply sat_call. intros x. apply (sat_then _ _ quiet); [apply stop_quiet|]. intros t2 rerr H2.
  destruct x as [res|]; [|apply sat_call; intros y; by apply (spec_released ctx cfg key h _ cl t1 _ t2 [] y Panic)].
  assert (Hrel : ∀ t3 y e, quiet t3 → coordinator_spec ctx cfg key h c
    (owned_trace ctx cfg key h cl t1 (Done res) t2 (t3 ++ [evt (RRelease (finalizeContext ctx) key (cl_Token cl)) y]))
    (Done (encodeError c e))).
  { intros t3 y e H3. apply spec_released; [done..|apply encodeError_fails|done]. }
  destruct rerr as [e|]; [apply sat_call; intros y; by apply (Hrel [])|].
  destruct res as [v|e]; [|apply sat_call; intros y; by apply (Hrel [])].
  destruct c as [m|]; cbn [codec_Marshal];
    [|apply sat_call; intros y; by apply (spec_released ctx cfg key h _ cl t1 _ t2 [] y Panic)].
  destruct (m v) as [body|e] eqn:Em; [|apply sat_call; intros y; by apply (Hrel [])].
  apply sat_call. intros now. apply sat_call. intros [e|]; [apply sat_call; intros y; by apply (Hrel [_; _])|].
  apply spec_owned; [done..|].
  eapply (settled_completed _ _ _ _ _ _ _ _ v m body now); [done..| | |].
  - unfold owned_trace. set_solver.
  - unfold owned_trace. set_solver.
  - destruct H1, H2. by rewrite owned_count.
Qed.

(** C3: At most one execution, and every owned claim is settled: a run executes the
    action only if its claim was acquired, and then exactly once; it then either
    stores the result (Complete acknowledged, with the reply, the request hash and
    the configured TTL) and never releases the claim, or its last call is the one
    release of the claim under a context that the caller's cancellation cannot
    reach, and the reply is an error (or the action's panic goes on); a claim that is
    not acquired is answered without any further call, with the stored reply only if
    its hash matches. *)
Theorem executeWithCoordinator_settles ctx renewer cfg key h c tr r :
  runs (executeWithCoordinator ctx renewer cfg key h c) tr r →
  coordinator_spec ctx cfg key h c tr r ∧ detached (finalizeContext ctx) = true.
Proof.
  intros Hr. split; [|done].
  by apply (proj1 (sat_runs _ _) (coordinator_sat ctx renewer cfg key h c)).
Qed.
End Theorems.

Section Witnesses.
Import GoErr.

Definition msg_a : Msg := mkMsg "a" "" "bc" None.
Definition msg_ab : Msg := mkMsg "ab" "" "c" None.

Lemma msgHash_identifies_witness : msgHash msg_a ≠ msgHash msg_ab.
Proof.
  intros H. apply (msgHash_identifies msg_a msg_ab) in H; [|vm_compute; intuition congruence..].
  destruct H as [[H _]|[_ H]]; [done|]. by vm_compute in H.
Defined.

Definition any_config : IdempotencyConfig := mkIdemConfig "Idempotency-Key" None 0 30.
Definition one_run : prog resp (gores reply) :=
  executeWithCoordinator (Caller 0) true any_config "k" "h" (Some codec_Default).

Lemma executeWithCoordinator_settles_witness :
  exec_result mem_handler one_run (mkMem empty_view 5 0) = Done ("done", None) ∧
  coordinator_spec (Caller 0) any_config "k" "h" (Some codec_Default)
    (exec_trace mem_handler one_run (mkMem empty_view 5 0)) (Done ("done", None)).
Proof.
  split; [reflexivity|].
  apply (executeWithCoordinator_settles (Caller 0) true any_config "k" "h" (Some codec_Default)).
  exact (exec_is_run mem_handler one_run (mkMem empty_view 5 0)).
Defined.
End Witnesses.
