(* ===== verification/LeaseRenewal.v ===== *)
(** * The lease renewal goroutine (src/tnats/idempotency.go, startCoordinatorLeaseRenewal)

    The goroutine and the stopRenewal closure as two programs that share the mutex
    stateMu, the flag stopped, the channels stop, done and renewalErrors (capacity
    1) and the action's cancellation.  A step is one statement of one of them; a
    state's program counters say which statement comes next. *)

From stdpp Require Import relations.
From S2P Require Import Prelude Effects Errors.

Local Open Scope Z_scope.

(** interval := leaseTTL / 3; if interval <= 0 { interval = leaseTTL } *)
Definition renewalInterval (leaseTTL : Z) : Z :=
  let interval := Z.quot leaseTTL 3 in
  if interval <=? 0 then leaseTTL else interval.

Lemma renewalInterval_bounds ttl :
  0 < ttl → 0 < renewalInterval ttl ≤ ttl ∧ (3 ≤ ttl → 3 * renewalInterval ttl ≤ ttl).
Proof.
  intros H. unfold renewalInterval. rewrite Z.quot_div_nonneg by lia.
  pose proof (Z.div_mod ttl 3 ltac:(lia)). pose proof (Z.mod_pos_bound ttl 3 ltac:(lia)).
  destruct (_ <=? 0) eqn:E; go_bool; lia.
Qed.

Section Renewal.
Context {EM : ErrorModel}.

(** The goroutine: in the select, inside RenewClaim, before stateMu.Lock, before the
    send, before cancelAction, before stateMu.Unlock, before the deferred close(done),
    gone. *)
Inductive gpc :=
| GSelect | GRenew | GLock (e : error) | GSend (e : error) | GCancel | GUnlock | GReturn | GDone.

(** The main goroutine: executing the action; then the statements of stopRenewal. *)
Inductive mpc := MAction | MLock | MSet | MUnlock | MClose | MWait | MStopped.

Inductive owner := ByG | ByM.

Record renewal := mkRenewal {
  rn_g : gpc;
  rn_m : mpc;
  rn_mu : option owner;          (* stateMu *)
  rn_stopped : bool;
  rn_stop : bool;                (* stop is closed *)
  rn_done : bool;                (* done is closed *)
  rn_errors : list error;        (* renewalErrors *)
  rn_cancelled : bool            (* cancelAction was called *)
}.

Definition renewal_start : renewal := mkRenewal GSelect MAction None false false false [] false.

Definition capacity : nat := 1.

Inductive gstep : renewal → renewal → Prop :=
| g_stop m mu s d l c :
    gstep (mkRenewal GSelect m mu s true d l c) (mkRenewal GReturn m mu s true d l c)
| g_tick m mu s x d l c :
    gstep (mkRenewal GSelect m mu s x d l c) (mkRenewal GRenew m mu s x d l c)
| g_renewed m mu s x d l c :
    gstep (mkRenewal GRenew m mu s x d l c) (mkRenewal GSelect m mu s x d l c)
| g_failed e m mu s x d l c :
    gstep (mkRenewal GRenew m mu s x d l c) (mkRenewal (GLock e) m mu s x d l c)
| g_lock e m s x d l c :
    gstep (mkRenewal (GLock e) m None s x d l c)
          (mkRenewal (if s then GUnlock else GSend e) m (Some ByG) s x d l c)
| g_send e m mu s x d l c :
    (length l < capacity)%nat →
    gstep (mkRenewal (GSend e) m mu s x d l c)
          (mkRenewal GCancel m mu s x d (l ++ [mapError e]) c)
| g_cancel m mu s x d l c :
    gstep (mkRenewal GCancel m mu s x d l c) (mkRenewal GUnlock m mu s x d l true)
| g_unlock m mu s x d l c :
    gstep (mkRenewal GUnlock m mu s x d l c) (mkRenewal GReturn m None s x d l c)
| g_return m mu s x d l c :
    gstep (mkRenewal GReturn m mu s x d l c) (mkRenewal GDone m mu s x true l c).

Inductive mstep : renewal → renewal → Prop :=
| m_begin g mu s x d l c :
    mstep (mkRenewal g MAction mu s x d l c) (mkRenewal g MLock mu s x d l c)
| m_lock g s x d l c :
    mstep (mkRenewal g MLock None s x d l c) (mkRenewal g MSet (Some ByM) s x d l c)
| m_set g mu s x d l c :
    mstep (mkRenewal g MSet mu s x d l c) (mkRenewal g MUnlock mu true x d l c)
| m_unlock g mu s x d l c :
    mstep (mkRenewal g MUnlock mu s x d l c) (mkRenewal g MClose None s x d l c)
| m_close g mu s x d l c :
    mstep (mkRenewal g MClose mu s x d l c) (mkRenewal g MWait mu s true d l c)
| m_wait g mu s x l c :
    mstep (mkRenewal g MWait mu s x true l c) (mkRenewal g MStopped mu s x true l c).

Definition rstep (σ σ' : renewal) : Prop := gstep σ σ' ∨ mstep σ σ'.

Definition rreachable (σ : renewal) : Prop := rtc rstep renewal_start σ.

(** ** The invariant *)
Definition g_holds (g : gpc) : bool := match g with GSend _ | GCancel | GUnlock => true | _ => false end.
Definition m_holds (m : mpc) : bool := match m with MSet | MUnlock => true | _ => false end.
Definition m_after_set (m : mpc) : bool :=
  match m with MUnlock | MClose | MWait | MStopped => true | _ => false end.
Definition m_after_close (m : mpc) : bool := match m with MWait | MStopped => true | _ => false end.
Definition g_before_send (g : gpc) : bool :=
  match g with GSelect | GRenew | GLock _ | GSend _ => true | _ => false end.
Definition g_is_done (g : gpc) : bool := match g with GDone => true | _ => false end.
Definition is_stopped (m : mpc) : bool := match m with MStopped => true | _ => false end.

Definition mutex (σ : renewal) : option owner :=
  if g_holds (rn_g σ) then Some ByG else if m_holds (rn_m σ) then Some ByM else None.

Record rinv (σ : renewal) : Prop := {
  ri_excl : (g_holds (rn_g σ) && m_holds (rn_m σ) = false)%bool;
  ri_mu : rn_mu σ = mutex σ;
  ri_stopped : rn_stopped σ = m_after_set (rn_m σ);
  ri_stop : rn_stop σ = m_after_close (rn_m σ);
  ri_done : rn_done σ = g_is_done (rn_g σ);
  ri_empty : g_before_send (rn_g σ) = true → rn_errors σ = [];
  ri_cap : (length (rn_errors σ) ≤ capacity)%nat;
  ri_cancel : rn_errors σ ≠ [] → rn_g σ ≠ GCancel → rn_cancelled σ = true;
  ri_end : is_stopped (rn_m σ) = true → rn_done σ = true
}.

Lemma rinv_start : rinv renewal_start.
Proof. split; cbn; try done; try (unfold capacity; lia). Qed.

Lemma rinv_gstep σ σ' : rinv σ → gstep σ σ' → rinv σ'.
Proof.
  intros [I1 I2 I3 I4 I5 I6 I7 I8 I9] St. unfold mutex, capacity in *.
  destruct St; cbn in *; split; unfold mutex, capacity in *; cbn in *; try done; try (by intros; auto);
    try (by destruct (m_holds m)); try (by destruct s).
  - destruct (m_holds m); [done|]. by destruct s.
  - rewrite length_app. cbn. lia.
Qed.

Lemma rinv_mstep σ σ' : rinv σ → mstep σ σ' → rinv σ'.
Proof.
  intros [I1 I2 I3 I4 I5 I6 I7 I8 I9] St. unfold mutex, capacity in *.
  destruct St; cbn in *; split; unfold mutex, capacity in *; cbn in *; try done; try (by intros; auto);
    try (by destruct (g_holds g)).
Qed.

Lemma rinv_step σ σ' : rinv σ → rstep σ σ' → rinv σ'.
Proof. intros I [St|St]; [by eapply rinv_gstep|by eapply rinv_mstep]. Qed.

Lemma rreachable_inv σ : rreachable σ → rinv σ.
Proof.
  unfold rreachable. pose proof rinv_start as I. revert I. generalize renewal_start as σ0.
  intros σ0 I H. induction H as [|σ1 σ2 σ3 St _ IH]; [done|]. apply IH. by eapply rinv_step.
Qed.

(** ** Progress *)

(** From any state in which stop is closed the goroutine can finish on its own. *)
Lemma goroutine_finishes σ :
  rinv σ → rn_m σ = MWait → ∃ σ', rtc rstep σ σ' ∧ rn_m σ' = MWait ∧ rn_done σ' = true.
Proof.
  intros I Hm. destruct σ as [g m mu s x d l c]. cbn in Hm. subst m.
  pose proof (ri_mu _ I) as Hmu. pose proof (ri_stop _ I) as Hx. pose proof (ri_stopped _ I) as Hs.
  unfold mutex in Hmu. cbn in *. subst x s.
  assert (Hret : ∀ mu' d' l' c', ∃ σ', rtc rstep (mkRenewal GReturn MWait mu' true true d' l' c') σ' ∧
            rn_m σ' = MWait ∧ rn_done σ' = true).
  { intros. eexists. split; [apply rtc_once; left; constructor|done]. }
  assert (Hun : ∀ mu' d' l' c', ∃ σ', rtc rstep (mkRenewal GUnlock MWait mu' true true d' l' c') σ' ∧
            rn_m σ' = MWait ∧ rn_done σ' = true).
  { intros. destruct (Hret None d' l' c') as (σ' & H1 & H2). exists σ'. split; [|done].
    eapply rtc_l; [left; constructor|exact H1]. }
  assert (Hsel : ∃ σ', rtc rstep (mkRenewal GSelect MWait mu true true d l c) σ' ∧
            rn_m σ' = MWait ∧ rn_done σ' = true).
  { destruct (Hret mu d l c) as (σ' & H1 & H2). exists σ'. split; [|done].
    eapply rtc_l; [left; constructor|exact H1]. }
  destruct g; cbn in Hmu; subst mu; auto.
  - destruct Hsel as (σ' & H1 & H2). exists σ'. split; [|done].
    eapply rtc_l; [left; apply g_renewed|exact H1].
  - destruct (Hun (Some ByG) d l c) as (σ' & H1 & H2). exists σ'. split; [|done].
    eapply rtc_l; [left; apply g_lock|exact H1].
  - pose proof (ri_empty _ I eq_refl) as Hl. cbn in Hl. subst l.
    destruct (Hun (Some ByG) d [mapError e] true) as (σ' & H1 & H2). exists σ'. split; [|done].
    eapply rtc_l; [left; apply g_send; cbn; unfold capacity; lia|].
    eapply rtc_l; [left; apply g_cancel|exact H1].
  - destruct (Hun (Some ByG) d l true) as (σ' & H1 & H2). exists σ'. split; [|done].
    eapply rtc_l; [left; apply g_cancel|exact H1].
  - eexists. split; [apply rtc_refl|]. cbn. split; [done|]. apply (ri_done _ I).
Qed.

Definition can_stop (σ : renewal) : Prop := ∃ σ', rtc rstep σ σ' ∧ rn_m σ' = MStopped.

Lemma can_stop_run σ σ' : rtc rstep σ σ' → can_stop σ' → can_stop σ.
Proof. intros H (σ'' & H' & Hm). exists σ''. split; [by etrans|done]. Qed.

Lemma can_stop_m σ σ' : mstep σ σ' → can_stop σ' → can_stop σ.
Proof. intros H. apply can_stop_run, rtc_once. by right. Qed.

Lemma can_stop_wait σ : rinv σ → rn_m σ = MWait → can_stop σ.
Proof.
  intros I Hm. destruct (goroutine_finishes σ I Hm) as ([g m mu s x d l c] & H1 & H2 & H3). cbn in *. subst.
  eapply can_stop_run; [exact H1|]. eexists. split; [apply rtc_once; right; constructor|done].
Qed.

(** Once stopRenewal has the mutex, it gets to the wait. *)
Lemma can_stop_locked σ :
  rinv σ → match rn_m σ with MSet | MUnlock | MClose => True | _ => False end → can_stop σ.
Proof.
  assert (HC : ∀ σ, rinv σ → rn_m σ = MClose → can_stop σ).
  { intros [g m mu s x d l c] I Hm. cbn in Hm. subst m. eapply can_stop_m; [constructor|].
    apply can_stop_wait; [|done]. eapply rinv_step; [exact I|]. right. constructor. }
  assert (HU : ∀ σ, rinv σ → rn_m σ = MUnlock → can_stop σ).
  { intros [g m mu s x d l c] I Hm. cbn in Hm. subst m. eapply can_stop_m; [constructor|].
    apply HC; [|done]. eapply rinv_step; [exact I|]. right. constructor. }
  intros I Hm. destruct (rn_m σ) eqn:E; try done; [|by apply HU|by apply HC].
  destruct σ as [g m mu s x d l c]. cbn in E. subst m. eapply can_stop_m; [constructor|].
  apply HU; [|done]. eapply rinv_step; [exact I|]. right. constructor.
Qed.

(** The goroutine gives the mutex back. *)
Lemma mutex_freed σ :
  rinv σ → rn_m σ = MLock → ∃ σ', rtc rstep σ σ' ∧ rn_m σ' = MLock ∧ rn_mu σ' = None.
Proof.
  intros I Hm. destruct σ as [g m mu s x d l c]. cbn in Hm. subst m.
  pose proof (ri_mu _ I) as Hmu. unfold mutex in Hmu. cbn in *.
  destruct g; cbn in Hmu; subst mu; try (eexists; split; [apply rtc_refl|done]).
  - pose proof (ri_empty _ I eq_refl) as Hl. cbn in Hl. subst l. eexists. split.
    + eapply rtc_l; [left; apply g_send; cbn; unfold capacity; lia|].
      eapply rtc_l; [left; apply g_cancel|]. apply rtc_once. left. apply g_unlock.
    + done.
  - eexists. split; [eapply rtc_l; [left; apply g_cancel|]; apply rtc_once; left; apply g_unlock|done].
  - eexists. split; [apply rtc_once; left; apply g_unlock|done].
Qed.

Lemma rinv_run σ σ' : rinv σ → rtc rstep σ σ' → rinv σ'.
Proof. intros I H. induction H; [done|]. eauto using rinv_step. Qed.

Lemma can_stop_lock σ : rinv σ → rn_m σ = MLock → can_stop σ.
Proof.
  intros I Hm. destruct (mutex_freed σ I Hm) as (σ1 & H1 & Hm1 & Hmu).
  pose proof (rinv_run _ _ I H1) as I1. eapply can_stop_run; [exact H1|].
  destruct σ1 as [g m mu s x d l c]. cbn in *. subst. eapply can_stop_m; [constructor|].
  apply can_stop_locked; [|done]. eapply rinv_step; [exact I1|]. right. constructor.
Qed.

(** ** Theorems *)

(** C14: The renewal channel is safe: in every reachable state the send into
    renewalErrors finds room (so the goroutine never blocks while it holds the
    mutex), an error in the channel means that the action has been cancelled (or is
    about to be, by the statement after the send), and once stopRenewal has returned
    the goroutine is gone: no step changes the channel or the cancellation, so the
    non-blocking receive that follows sees the final outcome. *)
Theorem renewal_channel_safe σ :
  rreachable σ →
  (∀ e, rn_g σ = GSend e → rn_errors σ = []) ∧
  (rn_errors σ ≠ [] → rn_cancelled σ = true ∨ rn_g σ = GCancel) ∧
  (rn_m σ = MStopped → rn_g σ = GDone ∧ ∀ σ', ¬ rstep σ σ').
Proof.
  intros I%rreachable_inv. split; [|split].
  - intros e He. apply (ri_empty _ I). by rewrite He.
  - intros Hl. destruct (decide (rn_cancelled σ = true)) as [Hc|Hc]; [by left|]. right.
    pose proof (ri_cancel _ I Hl) as Hg. destruct (rn_g σ); try done; (exfalso; apply Hc, Hg; done).
  - intros Hm. pose proof (ri_end _ I) as He. rewrite Hm in He. specialize (He eq_refl).
    rewrite (ri_done _ I) in He.
    assert (Hg : rn_g σ = GDone) by (destruct (rn_g σ); done). split; [done|].
    intros σ' [St|St]; destruct St; cbn in *; done.
Qed.

(** C15: stopRenewal returns: from every reachable state, whatever the goroutine is
    doing (waiting, renewing, sending its error), there is a run to the state in
    which stopRenewal has returned; the two goroutines never deadlock. *)
Theorem stopRenewal_returns σ :
  rreachable σ → ∃ σ', rtc rstep σ σ' ∧ rn_m σ' = MStopped.
Proof.
  intros I%rreachable_inv. change (can_stop σ). destruct (rn_m σ) eqn:Em.
  - destruct σ as [g m mu s x d l c]. cbn in Em. subst m. eapply can_stop_m; [constructor|].
    apply can_stop_lock; [|done]. eapply rinv_step; [exact I|]. right. constructor.
  - by apply can_stop_lock.
  - apply can_stop_locked; [done|by rewrite Em].
  - apply can_stop_locked; [done|by rewrite Em].
  - apply can_stop_locked; [done|by rewrite Em].
  - by apply can_stop_wait.
  - exists σ. done.
Qed.
End Renewal.

(** A renewal fails while the action runs: the error is delivered. *)
Section Witnesses.
Import GoErr.

Definition down : @error GoErr.model := ENew "down".

Definition failed_renewal : renewal :=
  mkRenewal GCancel MAction (Some ByG) false false false [mapError down] false.

Lemma failed_renewal_reachable : rreachable failed_renewal.
Proof.
  eapply rtc_l; [left; apply g_tick|]. eapply rtc_l; [left; apply (g_failed down)|].
  eapply rtc_l; [left; apply g_lock|]. apply rtc_once. left.
  apply (g_send down MAction (Some ByG) false false false [] false). cbn. unfold capacity. lia.
Qed.

Lemma renewal_channel_safe_witness :
  rn_errors failed_renewal ≠ [] ∧ (rn_cancelled failed_renewal = true ∨ rn_g failed_renewal = GCancel).
Proof.
  split; [done|]. apply (renewal_channel_safe failed_renewal failed_renewal_reachable). done.
Defined.

Lemma stopRenewal_returns_witness : ∃ σ', rtc rstep failed_renewal σ' ∧ rn_m σ' = MStopped.
Proof. apply (stopRenewal_returns failed_renewal). apply failed_renewal_reachable. Defined.
End Witnesses.
