(* ===== verification/Streams.v ===== *)
(** * Streams, subscriptions and the pull loop (src/tnats/tnats_stream.go,
      consumer.go, tnats_durable.go)

    Provisioning of streams and consumers, opening of pull subscriptions, and the
    loop that fetches and dispatches messages. *)

From S2P Require Import Prelude Effects Errors Subjects Bindings World.

Local Open Scope Z_scope.

Section Streams.
Context {EM : ErrorModel} {K : Kernel EM}.

(** ** ensureStream *)

(** A subject the stream already has, literally or through a wildcard. *)
Definition configured_for (configured : list string) (subject : string) : bool :=
  existsb (λ s, str_eqb s subject || subjectPatternCovers s subject)%bool configured.

(** The loop over the wanted subjects: the new subject list, and updated. *)
Fixpoint add_missing (configured subjects : list string) (updated : bool) : list string * bool :=
  match subjects with
  | [] => (configured, updated)
  | subject :: rest =>
      if configured_for configured subject then add_missing configured rest updated
      else add_missing (configured ++ [subject]) rest true
  end.

Definition set_Subjects (l : list string) (c : StreamConfig) : StreamConfig :=
  {| sc_Name := sc_Name c; sc_Subjects := l; sc_Storage := sc_Storage c;
     sc_Retention := sc_Retention c; sc_Discard := sc_Discard c; sc_MaxAge := sc_MaxAge c;
     sc_Other := sc_Other c |}.

Definition newStreamConfig (name : string) (subjects : list string) : StreamConfig :=
  {| sc_Name := name; sc_Subjects := subjects; sc_Storage := FileStorage;
     sc_Retention := LimitsPolicy; sc_Discard := DiscardOld;
     sc_MaxAge := 7 * 24 * 3600 * time_Second; sc_Other := "" |}.

Definition changed_repeatedly : error :=
  xerr_new KindConflict "nats: stream configuration changed repeatedly during provisioning" None.

Fixpoint ensure_loop (n : nat) (modifier : option (StreamConfig → StreamConfig)) (name : string)
    (subjects : list string) : prog resp (option error) :=
  match n with
  | O => mret (Some changed_repeatedly)
  | S n' =>
      info ← call (RStreamInfo name);
      match info with
      | Err err =>
          if errors_Is err nats_ErrStreamNotFound then
            let cfg := newStreamConfig name subjects in
            let cfg := match modifier with Some f => f cfg | None => cfg end in
            addErr ← call (RAddStream cfg);
            match addErr with
            | None => mret None
            | Some e =>
                if errors_Is e nats_ErrStreamNameAlreadyInUse
                then ensure_loop n' modifier name subjects
                else mret (Some (mapError e))
            end
          else mret (Some (mapError err))
      | Ok cfg =>
          let '(configured, updated) := add_missing (sc_Subjects cfg) subjects false in
          if negb updated then mret None
          else
            updateErr ← call (RUpdateStream (set_Subjects configured cfg));
            match updateErr with
            | Some e => mret (Some (mapError e))
            | None => ensure_loop n' modifier name subjects
            end
      end
  end.

Definition ensureStream (modifier : option (StreamConfig → StreamConfig)) (name : string)
    (subjects : list string) : prog resp (option error) :=
  match subjects with
  | [] => mret None
  | _ => ensure_loop 3 modifier name subjects
  end.

Definition ensureDurableInfra (modifier : option (StreamConfig → StreamConfig)) (b : DurableBinding)
    : prog resp (option error) :=
  err ← ensureStream modifier (d_Stream b) [d_Subject b];
  match err with
  | Some e => mret (Some e)
  | None => ensureStream modifier (d_Stream b +:+ "_DLQ") [d_DeadLetterSubject b]
  end.

Definition ensureConsumerInfra (modifier : option (StreamConfig → StreamConfig)) (b : ConsumerBinding)
    : prog resp (option error) :=
  let subjects := if (0 <? length (c_FilterSubjects b))%nat then c_FilterSubjects b else [c_Subject b] in
  err ← ensureStream modifier (c_Stream b) subjects;
  match err with
  | Some e => mret (Some e)
  | None =>
      if str_empty (c_DeadLetterSubject b) then mret None
      else
        err ← ensureStream modifier (c_Stream b +:+ "_DLQ") [c_DeadLetterSubject b];
        match err with
        | Some e => mret (Some e)
        | None => mret None
        end
  end.

(** ** Subscriptions *)
Definition applyAckPolicyOpts (opts : list SubOpt) (p : AckPolicy) : list SubOpt :=
  match p with
  | AckNone => opts ++ [OptAckNone]
  | AckAll => opts ++ [OptAckAll]
  | AckExplicit => opts ++ [OptAckExplicit]
  | AckPolicyOther _ => opts ++ [OptAckExplicit]
  end.

Definition applyDeliverPolicyOpts (opts : list SubOpt) (b : ConsumerBinding) : list SubOpt :=
  match c_DeliverPolicy b with
  | DeliverLast => opts ++ [OptDeliverLast]
  | DeliverNew => opts ++ [OptDeliverNew]
  | DeliverByStartSequence => opts ++ [OptStartSequence (c_OptStartSeq b)]
  | DeliverByStartTime => opts ++ [OptStartTime (c_OptStartTime b)]
  | DeliverLastPerSubject => opts ++ [OptDeliverLastPerSubject]
  | DeliverAll => opts ++ [OptDeliverAll]
  | DeliverPolicyOther _ => opts ++ [OptDeliverAll]
  end.

Definition applyReplayPolicyOpts (opts : list SubOpt) (p : ReplayPolicy) : list SubOpt :=
  match p with
  | ReplayOriginal => opts ++ [OptReplayOriginal]
  | ReplayInstant => opts ++ [OptReplayInstant]
  | ReplayPolicyOther _ => opts ++ [OptReplayInstant]
  end.

Definition ensureUnlimitedConsumerDeliveries (stream durable : string) : prog resp (option error) :=
  info ← call (RConsumerInfo stream durable);
  match info with
  | Err err => mret (Some (mapError err))
  | Ok config =>
      if cc_MaxDeliver config =? -1 then mret None
      else
        err ← call (RUpdateConsumer stream {| cc_MaxDeliver := -1; cc_Other := cc_Other config |});
        match err with
        | Some e => mret (Some (mapError e))
        | None => mret None
        end
  end.

(** The options of the consumer's subscription, in the order they are passed. *)
Definition consumerOpts (b : ConsumerBinding) : list SubOpt :=
  let opts := [OptBindStream (c_Stream b); OptAckWait (c_AckWait b); OptMaxDeliver (-1);
               OptMaxAckPending (c_MaxAckPending b)] in
  let opts := if (0 <? length (c_FilterSubjects b))%nat
              then opts ++ [OptConsumerFilterSubjects (c_FilterSubjects b)] else opts in
  let opts := applyAckPolicyOpts opts (c_AckPolicy b) in
  let opts := applyDeliverPolicyOpts opts b in
  let opts := applyReplayPolicyOpts opts (c_ReplayPolicy b) in
  let opts := if (0 <? length (c_BackOff b))%nat then opts ++ [OptBackOff (c_BackOff b)] else opts in
  let opts := if 0 <? c_RateLimitBits b then opts ++ [OptRateLimit (c_RateLimitBits b)] else opts in
  if c_HeadersOnly b then opts ++ [OptHeadersOnly] else opts.

(** After PullSubscribe: the delivery check, undoing the subscription on failure. *)
Definition checkedSubscription (subscribed : result error nat) (stream durable : string)
    : prog resp (result error nat) :=
  match subscribed with
  | Err err => mret (Err (mapError err))
  | Ok sub =>
      err ← ensureUnlimitedConsumerDeliveries stream durable;
      match err with
      | Some e => _ ← call (RUnsubscribe sub); mret (Err e)
      | None => mret (Ok sub)
      end
  end.

Definition openConsumerSubscription (b : ConsumerBinding) : prog resp (result error nat) :=
  let subject := if (0 <? length (c_FilterSubjects b))%nat then "" else c_Subject b in
  subscribed ← call (RPullSubscribe subject (c_Durable b) (consumerOpts b));
  checkedSubscription subscribed (c_Stream b) (c_Durable b).

(** t.subs and t.workersWg *)
Record Workers := mkWorkers { t_subs : list nat; t_workersWg : Z }.

(** The subscription is recorded and a worker started for it. *)
Definition start_worker (sub : nat) (w : Workers) : Workers :=
  {| t_subs := t_subs w ++ [sub]; t_workersWg := t_workersWg w + 1 |}.

Definition subscribeConsumer (modifier : option (StreamConfig → StreamConfig)) (b : ConsumerBinding)
    (w : Workers) : prog resp (option error * Workers) :=
  match validateConsumerBinding b with
  | Some err => mret (Some err, w)
  | None =>
      err ← ensureConsumerInfra modifier b;
      match err with
      | Some e => mret (Some e, w)
      | None =>
          sub ← openConsumerSubscription b;
          match sub with
          | Err e => mret (Some e, w)
          | Ok sub => mret (None, start_worker sub w)
          end
      end
  end.

Definition subscribeDurable (modifier : option (StreamConfig → StreamConfig)) (b : DurableBinding)
    (w : Workers) : prog resp (option error * Workers) :=
  match validateDurableBinding b with
  | Some err => mret (Some err, w)
  | None =>
      err ← ensureDurableInfra modifier b;
      match err with
      | Some e => mret (Some e, w)
      | None =>
          subscribed ← call (RPullSubscribe (d_Subject b) (d_Durable b)
            [OptBindStream (d_Stream b); OptAckExplicit; OptAckWait (d_AckWait b); OptMaxDeliver (-1);
             OptMaxAckPending (d_MaxAckPending b)]);
          sub ← checkedSubscription subscribed (d_Stream b) (d_Durable b);
          match sub with
          | Err e => mret (Some e, w)
          | Ok sub => mret (None, start_worker sub w)
          end
      end
  end.

(** ** The pull loop *)
Section Loop.
Context (ctx : context) (sub : nat) (fetchTimeout fetchBatchSize : Z)
  (handle : Msg → prog resp (gores unit)).

(** for _, msg := range msgs { handle(msg) } *)
Fixpoint dispatch (msgs : list Msg) : prog resp (gores unit) :=
  match msgs with
  | [] => mret (Done tt)
  | msg :: rest =>
      r ← handle msg;
      match r with
      | Panic => mret Panic
      | Done _ => dispatch rest
      end
  end.

(** One turn of the loop: true to go on, false to return. *)
Definition fetch_turn : prog resp (gores bool) :=
  ctxErr ← ctx_Err ctx;
  match ctxErr with
  | Some _ => mret (Done false)
  | None =>
      msgs ← call (RFetch (CtxTimeout ctx fetchTimeout) sub fetchBatchSize);
      match msgs with
      | Err err =>
          if (errors_Is err nats_ErrTimeout || errors_Is err context_DeadlineExceeded)%bool
          then mret (Done true)
          else
            ctxErr ← ctx_Err ctx;
            if is_some ctxErr then mret (Done false)
            else if errors_Is err context_Canceled then mret (Done false)
            else
              closed ← call RConnIsClosed;
              if closed : bool then mret (Done false)
              else
                slept ← call (RSleep ctx (50 * time_Millisecond));
                mret (Done slept)
      | Ok msgs =>
          r ← dispatch msgs;
          match r with
          | Panic => mret Panic
          | Done _ => mret (Done true)
          end
      end
  end.

(** At most [fuel] turns; [None]: still running. *)
Fixpoint fetch_loop (fuel : nat) : prog resp (gores (option unit)) :=
  match fuel with
  | O => mret (Done None)
  | S fuel' =>
      r ← fetch_turn;
      match r with
      | Panic => mret Panic
      | Done true => fetch_loop fuel'
      | Done false => mret (Done (Some tt))
      end
  end.

(** The deferred Unsubscribe runs when the loop returns and when the handler
    panics. *)
Definition runFetchLoop (fuel : nat) : prog resp (gores (option unit)) :=
  r ← fetch_loop fuel;
  match r with
  | Done None => mret (Done None)
  | _ => _ ← call (RUnsubscribe sub); mret r
  end.
End Loop.
End Streams.
