(* ===== verification/StreamsProofs.v ===== *)
(** * Correctness of provisioning, subscribing and fetching

    What the broker was asked to do when ensureStream, subscribeConsumer,
    subscribeDurable and runFetchLoop return, for all its answers. *)

From S2P Require Import Prelude Effects Errors Subjects Bindings World Json IdemKV KVContract MemKV Streams.

Local Open Scope Z_scope.

(** ** The subject list *)
Lemma configured_for_app l1 l2 s :
  configured_for (l1 ++ l2) s = (configured_for l1 s || configured_for l2 s)%bool.
Proof. unfold configured_for. apply existsb_app. Qed.

Lemma configured_for_self s : configured_for [s] s = true.
Proof. cbn. by rewrite str_eqb_refl. Qed.

Lemma add_missing_spec conf subs u :
  ∃ extra, add_missing conf subs u = (conf ++ extra, (u || negb (bool_decide (extra = [])))%bool) ∧
    extra ⊆ subs ∧ Forall (λ s, configured_for conf s = false) extra ∧
    Forall (λ s, configured_for (conf ++ extra) s = true) subs.
Proof.
  revert conf u. induction subs as [|s subs IH]; intros conf u; cbn [add_missing].
  - exists []. rewrite app_nil_r, Bool.orb_false_r. split; [done|]. split; [set_solver|]. by split.
  - destruct (configured_for conf s) eqn:E.
    + destruct (IH conf u) as (extra & -> & Hs & Hn & Hf). exists extra. split; [done|].
      split; [set_solver|]. split; [done|]. apply Forall_cons. split; [|done]. rewrite configured_for_app, E. reflexivity.
    + destruct (IH (conf ++ [s]) true) as (extra & -> & Hs & Hn & Hf). exists (s :: extra).
      rewrite <- app_assoc in *. split; [rewrite (bool_decide_false (s :: extra = [])) by done; by rewrite Bool.orb_true_r|].
      split; [set_solver|]. split.
      * constructor; [done|]. eapply Forall_impl; [exact Hn|]. cbn. intros x Hx.
        rewrite configured_for_app in Hx. go_bool. by destruct Hx.
      * constructor; [|done]. cbn beta.
        change (s :: extra) with ([s] ++ extra).
        by rewrite !configured_for_app, configured_for_self, !Bool.orb_true_r.
Qed.

(** A subject list takes a subject in: it has it, or one of its patterns covers it token
    by token ('*' stands for any one token, '>' for any rest that is not empty). *)
Definition taken (l : list string) (s : string) : Prop :=
  ∃ p, p ∈ l ∧ (p = s ∨ covers_tokens (tokens p) (tokens s) = true).

Lemma configured_taken l s : configured_for l s = true ↔ taken l s.
Proof.
  unfold configured_for, taken. rewrite existsb_exists. setoid_rewrite <- list_elem_of_In.
  apply exist_proper. intros p. rewrite subjectPatternCovers_tokens, !orb_true_iff, str_eqb_eq. naive_solver.
Qed.

Lemma not_configured_taken l s : configured_for l s = false ↔ ¬ taken l s.
Proof. rewrite <- configured_taken. by destruct (configured_for l s). Qed.

(** What it means for message subjects. *)
Lemma taken_meaning l s :
  valid_subject s → no_gt s → Forall (λ p, gt_last (tokens p)) l →
  taken l s ↔ ∃ p, p ∈ l ∧ ∀ cs, concrete cs → matches (tokens s) cs → matches (tokens p) cs.
Proof.
  intros Hv Hg Hl. unfold taken. apply exist_proper. intros p.
  split; intros [Hp H]; (split; [done|]); apply (covers_tokens_iff p s Hv Hg); try done;
    by apply (proj1 (Forall_forall _ _) Hl).
Qed.

Section Ensure.
Context {EM : ErrorModel} {K : Kernel EM}.
Abbreviation evt := (@Ev req resp).
Context (modifier : option (StreamConfig → StreamConfig)) (name : string) (subjects : list string).

(** The configuration of a new stream. *)
Definition created_config : StreamConfig :=
  let cfg := mkStream name subjects FileStorage LimitsPolicy DiscardOld 604800000000000 "" in
  match modifier with Some f => f cfg | None => cfg end.

(** A configuration with more subjects, and nothing else changed. *)
Definition extended (cfg : StreamConfig) (extra : list string) : StreamConfig :=
  mkStream (sc_Name cfg) (sc_Subjects cfg ++ extra) (sc_Storage cfg) (sc_Retention cfg) (sc_Discard cfg)
    (sc_MaxAge cfg) (sc_Other cfg).

(** Every update only adds wanted subjects the stream lacked to a configuration that
    was read. *)
Definition updates_extend (tr : list (event resp)) : Prop :=
  ∀ cfg' x, evt (RUpdateStream cfg') x ∈ tr → ∃ cfg extra,
    evt (RStreamInfo name) (Ok cfg) ∈ tr ∧ cfg' = extended cfg extra ∧
    extra ≠ [] ∧ extra ⊆ subjects ∧ Forall (λ s, ¬ taken (sc_Subjects cfg) s) extra ∧
    Forall (taken (sc_Subjects cfg ++ extra)) subjects.

Definition provisioned (tr : list (event resp)) : Prop :=
  (∃ cfg, evt (RStreamInfo name) (Ok cfg) ∈ tr ∧ Forall (taken (sc_Subjects cfg)) subjects) ∨
  evt (RAddStream created_config) None ∈ tr.

Definition ensure_spec (n : nat) (tr : list (event resp)) (r : option error) : Prop :=
  (length tr ≤ 2 * n)%nat ∧ updates_extend tr ∧ (r = None → provisioned tr).

Lemma updates_extend_none tr : (∀ cfg x, evt (RUpdateStream cfg) x ∉ tr) → updates_extend tr.
Proof. intros H cfg x Hx. exfalso. by eapply H. Qed.

Lemma updates_extend_app t1 t2 : updates_extend t1 → updates_extend t2 → updates_extend (t1 ++ t2).
Proof.
  intros H1 H2 cfg' x Hx. apply elem_of_app in Hx as [Hx|Hx];
    [destruct (H1 _ _ Hx) as (cfg & extra & Hi & H)|destruct (H2 _ _ Hx) as (cfg & extra & Hi & H)];
    (exists cfg, extra; split; [set_solver|done]).
Qed.

Lemma provisioned_app t1 t2 : provisioned t2 → provisioned (t1 ++ t2).
Proof. intros [(cfg & Hi & H)|H]; [left; exists cfg; set_solver|right; set_solver]. Qed.

Lemma ensure_spec_next n t tr r :
  (length t ≤ 2)%nat → updates_extend t → ensure_spec n tr r → ensure_spec (S n) (t ++ tr) r.
Proof.
  intros Hl Hu (H1 & H2 & H3). split; [rewrite length_app; lia|].
  split; [by apply updates_extend_app|]. intros Hr. by apply provisioned_app, H3.
Qed.

Lemma ensure_spec_stop n tr r :
  (length tr ≤ 2)%nat → updates_extend tr → (r = None → provisioned tr) → ensure_spec (S n) tr r.
Proof. intros. split; [lia|done]. Qed.

(** An event list without updates. *)
Lemma no_update_event r x : (∀ cfg, r ≠ RUpdateStream cfg) → updates_extend [evt r x].
Proof.
  intros H. apply updates_extend_none. intros cfg y Hin%list_elem_of_singleton.
  apply (f_equal ev_req) in Hin. cbn in Hin. by eapply H.
Qed.

Lemma update_event cfg extra x :
  extra ≠ [] → extra ⊆ subjects → Forall (λ s, ¬ taken (sc_Subjects cfg) s) extra →
  Forall (taken (sc_Subjects cfg ++ extra)) subjects →
  updates_extend [evt (RStreamInfo name) (Ok cfg); evt (RUpdateStream (set_Subjects (sc_Subjects cfg ++ extra) cfg)) x].
Proof.
  intros He Hs Hn Hf cfg' y Hin. apply elem_of_cons in Hin as [Hin|Hin%list_elem_of_singleton];
    apply (f_equal ev_req) in Hin; cbn in Hin; [done|].
  injection Hin as ->. exists cfg, extra. split; [set_solver|done].
Qed.

Lemma ensure_loop_sat n : sat (ensure_loop n modifier name subjects) (ensure_spec n).
Proof.
  induction n as [|n IH].
  { split; [cbn; lia|]. split; [|done]. apply updates_extend_none. set_solver. }
  cbn [ensure_loop]. apply sat_call. intros [cfg|err].
  - destruct (add_missing_spec (sc_Subjects cfg) subjects false) as (extra & -> & Hs & Hn & Hf).
    setoid_rewrite not_configured_taken in Hn. setoid_rewrite configured_taken in Hf. cbn [orb]. case_bool_decide as He; cbn [negb].
    + apply ensure_spec_stop; [cbn; lia|by apply no_update_event|]. intros _. left. exists cfg.
      subst extra. rewrite app_nil_r in Hf. set_solver.
    + apply sat_call. intros [e|].
      * apply ensure_spec_stop; [cbn; lia|by apply update_event|done].
      * eapply sat_mono; [|exact IH]. intros t r H.
        apply (ensure_spec_next n [_; _] t r); [cbn; lia|by apply update_event|done].
  - destruct (errors_Is err nats_ErrStreamNotFound).
    2:{ apply ensure_spec_stop; [cbn; lia|by apply no_update_event|done]. }
    change (newStreamConfig name subjects) with (mkStream name subjects FileStorage LimitsPolicy DiscardOld 604800000000000 "").
    fold created_config. apply sat_call. intros x.
    assert (Hu : updates_extend [evt (RStreamInfo name) (Err err); evt (RAddStream created_config) x]).
    { apply (updates_extend_app [_] [_]); by apply no_update_event. }
    destruct x as [e|].
    + destruct (errors_Is e nats_ErrStreamNameAlreadyInUse).
      * eapply sat_mono; [|exact IH]. intros t r H.
        apply (ensure_spec_next n [_; _] t r); [cbn; lia|done|done].
      * apply ensure_spec_stop; [cbn; lia|done|done].
    + apply ensure_spec_stop; [cbn; lia|done|]. intros _. right. set_solver.
Qed.
End Ensure.

(** ** Subscriptions *)
Section Subscribe.
Context {EM : ErrorModel} {K : Kernel EM}.
Abbreviation evt := (@Ev req resp).

Definition is_subscribe (r : req) : bool :=
  match r with RPullSubscribe _ _ _ | RUnsubscribe _ => true | _ => false end.

(** A trace that neither subscribes nor unsubscribes. *)
Definition no_subscription (tr : list (event resp)) : Prop :=
  Forall (λ e, is_subscribe (ev_req e) = false) tr.

Lemma ensure_loop_quiet n modifier name subjects :
  sat (ensure_loop n modifier name subjects) (λ t _, no_subscription t).
Proof.
  unfold no_subscription. induction n as [|n IH]; cbn [ensure_loop]; [constructor|].
  apply sat_call. intros [cfg|err].
  - destruct (add_missing _ _ _) as [l u]. destruct (negb u); [by repeat constructor|].
    apply sat_call. intros [e|]; [by repeat constructor|]. eapply sat_mono; [|exact IH].
    cbn beta. intros t _ Ht. by repeat constructor.
  - destruct (errors_Is err _); [|by repeat constructor]. apply sat_call.
    intros [e|]; [|by repeat constructor]. destruct (errors_Is e _); [|by repeat constructor].
    eapply sat_mono; [|exact IH]. cbn beta. intros t _ Ht. by repeat constructor.
Qed.

Lemma ensureStream_quiet modifier name subjects :
  sat (ensureStream modifier name subjects) (λ t _, no_subscription t).
Proof. unfold ensureStream. destruct subjects; [constructor|apply ensure_loop_quiet]. Qed.

Lemma infra_quiet (p q : prog resp (option error)) :
  sat p (λ t _, no_subscription t) → sat q (λ t _, no_subscription t) →
  sat (err ← p; match err with Some e => mret (Some e) | None => q end) (λ t _, no_subscription t).
Proof.
  intros Hp Hq. apply (sat_then _ _ no_subscription); [done|]. intros t [e|] Ht.
  - cbn. by rewrite app_nil_r.
  - eapply sat_mono; [|exact Hq]. cbn beta. intros t' _ Ht'. by apply Forall_app.
Qed.

Lemma consumer_infra_quiet modifier b :
  sat (ensureConsumerInfra modifier b) (λ t _, no_subscription t).
Proof.
  apply infra_quiet; [apply ensureStream_quiet|]. destruct (str_empty _); [constructor|].
  apply infra_quiet; [apply ensureStream_quiet|constructor].
Qed.

Lemma durable_infra_quiet modifier b :
  sat (ensureDurableInfra modifier b) (λ t _, no_subscription t).
Proof. apply infra_quiet; apply ensureStream_quiet. Qed.

(** The consumer's own delivery limit is off. *)
Definition unlimited (stream durable : string) (tr : list (event resp)) : Prop :=
  (∃ cfg, evt (RConsumerInfo stream durable) (Ok cfg) ∈ tr ∧ cc_MaxDeliver cfg = -1) ∨
  (∃ cfg, evt (RUpdateConsumer stream cfg) None ∈ tr ∧ cc_MaxDeliver cfg = -1).

(** How opening a subscription ends: one live, unlimited subscription, or an error
    and nothing left behind. *)
Inductive opened (stream durable subject : string) (opts : list SubOpt) :
  list (event resp) → result error nat → Prop :=
| op_refused t err e :
    no_subscription t →
    opened stream durable subject opts (t ++ [evt (RPullSubscribe subject durable opts) (Err err)]) (Err e)
| op_undone t sub t' y e :
    no_subscription t → no_subscription t' →
    opened stream durable subject opts
      (t ++ evt (RPullSubscribe subject durable opts) (Ok sub) :: t' ++ [evt (RUnsubscribe sub) y]) (Err e)
| op_open t sub t' :
    no_subscription t → no_subscription t' → unlimited stream durable t' →
    opened stream durable subject opts (t ++ evt (RPullSubscribe subject durable opts) (Ok sub) :: t') (Ok sub).

Lemma unlimited_sat stream durable :
  sat (ensureUnlimitedConsumerDeliveries stream durable)
    (λ t r, no_subscription t ∧ (r = None → unlimited stream durable t)).
Proof.
  unfold ensureUnlimitedConsumerDeliveries. apply sat_call. intros [cfg|e]; [|by split; [repeat constructor|]].
  destruct (cc_MaxDeliver cfg =? -1) eqn:E.
  - split; [by repeat constructor|]. intros _. left. exists cfg. go_bool. set_solver.
  - apply sat_call. intros [e|]; (split; [by repeat constructor|]); [done|]. intros _. right.
    exists {| cc_MaxDeliver := -1; cc_Other := cc_Other cfg |}. set_solver.
Qed.

Lemma checked_sat t stream durable subject opts x :
  no_subscription t →
  sat (checkedSubscription x stream durable) (λ t' r,
    opened stream durable subject opts (t ++ evt (RPullSubscribe subject durable opts) x :: t') r).
Proof.
  intros Ht. destruct x as [sub|err]; cbn [checkedSubscription]; [|by constructor].
  apply sat_bind. eapply sat_mono; [|apply unlimited_sat]. cbn. intros t' [e|] [Ht' Hu].
  - intros y. by constructor.
  - cbn. rewrite app_nil_r. constructor; auto.
Qed.

(** ** Results of subscribing *)
Definition subscribed (stream durable subject : string) (opts : list SubOpt) (w : Workers)
    (tr : list (event resp)) (r : option error * Workers) : Prop :=
  (no_subscription tr ∧ is_Some r.1 ∧ r.2 = w) ∨
  ∃ x, opened stream durable subject opts tr x ∧
    match x with
    | Ok sub => r = (None, mkWorkers (t_subs w ++ [sub]) (t_workersWg w + 1))
    | Err e => r = (Some e, w)
    end.

Definition subscribe_subject (b : ConsumerBinding) : string :=
  if (0 <? length (c_FilterSubjects b))%nat then "" else c_Subject b.

Lemma subscribed_close stream durable subject opts w tr x :
  opened stream durable subject opts tr x →
  sat (match x with Err e => mret (Some e, w) | Ok sub => mret (None, start_worker sub w) end)
    (λ t r, subscribed stream durable subject opts w (tr ++ t) r).
Proof. intros H. destruct x; cbn; rewrite app_nil_r; right; (eexists; split; [exact H|done]). Qed.

Lemma subscribeConsumer_sat modifier b w :
  sat (subscribeConsumer modifier b w)
    (subscribed (c_Stream b) (c_Durable b) (subscribe_subject b) (consumerOpts b) w).
Proof.
  unfold subscribeConsumer. destruct (validateConsumerBinding b) as [e|]; [left; repeat split; eauto; constructor|].
  apply (sat_then _ _ no_subscription); [apply consumer_infra_quiet|]. intros t [e|] Ht.
  { cbn. rewrite app_nil_r. left. eauto. }
  apply sat_bind. unfold openConsumerSubscription. fold (subscribe_subject b).
  apply sat_call. intros x. eapply sat_mono; [|by apply (checked_sat t)].
  cbn beta. intros t' r H. eapply sat_mono; [|apply (subscribed_close _ _ _ _ w _ _ H)]. cbn.
  intros t'' r' H'. by rewrite <- app_assoc in H'.
Qed.

Definition durableOpts (b : DurableBinding) : list SubOpt :=
  [OptBindStream (d_Stream b); OptAckExplicit; OptAckWait (d_AckWait b); OptMaxDeliver (-1);
   OptMaxAckPending (d_MaxAckPending b)].

Lemma subscribeDurable_sat modifier b w :
  sat (subscribeDurable modifier b w)
    (subscribed (d_Stream b) (d_Durable b) (d_Subject b) (durableOpts b) w).
Proof.
  unfold subscribeDurable. destruct (validateDurableBinding b) as [e|]; [left; repeat split; eauto; constructor|].
  apply (sat_then _ _ no_subscription); [apply durable_infra_quiet|]. intros t [e|] Ht.
  { cbn. rewrite app_nil_r. left. eauto. }
  fold (durableOpts b). apply sat_call. intros x. apply sat_bind.
  eapply sat_mono; [|by apply (checked_sat t)].
  cbn beta. intros t' r H. eapply sat_mono; [|apply (subscribed_close _ _ _ _ w _ _ H)]. cbn.
  intros t'' r' H'. by rewrite <- app_assoc in H'.
Qed.
End Subscribe.

(** ** The options of a consumer's subscription *)
Inductive optkind :=
| KStream | KAckWait | KMaxDeliver | KMaxAckPending | KFilter | KAck | KStart | KReplay | KBackOff | KRate | KHeaders.
#[global] Instance optkind_eq_dec : EqDecision optkind.
Proof. solve_decision. Defined.

Definition kind_of (o : SubOpt) : optkind :=
  match o with
  | OptBindStream _ => KStream | OptAckWait _ => KAckWait | OptMaxDeliver _ => KMaxDeliver
  | OptMaxAckPending _ => KMaxAckPending | OptConsumerFilterSubjects _ => KFilter
  | OptAckNone | OptAckAll | OptAckExplicit => KAck
  | OptDeliverLast | OptDeliverNew | OptStartSequence _ | OptStartTime _ | OptDeliverLastPerSubject
  | OptDeliverAll => KStart
  | OptReplayOriginal | OptReplayInstant => KReplay
  | OptBackOff _ => KBackOff | OptRateLimit _ => KRate | OptHeadersOnly => KHeaders
  end.

(** The options of a kind, in order. *)
Definition opts_of (k : optkind) (opts : list SubOpt) : list SubOpt := filter (λ o, kind_of o = k) opts.

(** What a binding asks the broker for. *)
Definition wanted_opts (b : ConsumerBinding) (k : optkind) : list SubOpt :=
  match k with
  | KStream => [OptBindStream (c_Stream b)]
  | KAckWait => [OptAckWait (c_AckWait b)]
  | KMaxDeliver => [OptMaxDeliver (-1)]
  | KMaxAckPending => [OptMaxAckPending (c_MaxAckPending b)]
  | KFilter => match c_FilterSubjects b with [] => [] | l => [OptConsumerFilterSubjects l] end
  | KAck => [match c_AckPolicy b with AckNone => OptAckNone | AckAll => OptAckAll | _ => OptAckExplicit end]
  | KStart => [match c_DeliverPolicy b with
               | DeliverLast => OptDeliverLast | DeliverNew => OptDeliverNew
               | DeliverByStartSequence => OptStartSequence (c_OptStartSeq b)
               | DeliverByStartTime => OptStartTime (c_OptStartTime b)
               | DeliverLastPerSubject => OptDeliverLastPerSubject
               | _ => OptDeliverAll
               end]
  | KReplay => [match c_ReplayPolicy b with ReplayOriginal => OptReplayOriginal | _ => OptReplayInstant end]
  | KBackOff => match c_BackOff b with [] => [] | l => [OptBackOff l] end
  | KRate => if 0 <? c_RateLimitBits b then [OptRateLimit (c_RateLimitBits b)] else []
  | KHeaders => if c_HeadersOnly b then [OptHeadersOnly] else []
  end.

Lemma opts_of_app k l1 l2 : opts_of k (l1 ++ l2) = opts_of k l1 ++ opts_of k l2.
Proof. apply filter_app. Qed.

Lemma opts_of_if k (c : bool) l x : opts_of k (if c then l ++ x else l) = opts_of k l ++ opts_of k (if c then x else []).
Proof. destruct c; [apply opts_of_app|by rewrite app_nil_r]. Qed.

Lemma opts_of_ack k l p : opts_of k (applyAckPolicyOpts l p) = opts_of k l ++ opts_of k (applyAckPolicyOpts [] p).
Proof. destruct p; apply opts_of_app. Qed.
Lemma opts_of_deliver k l b : opts_of k (applyDeliverPolicyOpts l b) = opts_of k l ++ opts_of k (applyDeliverPolicyOpts [] b).
Proof. unfold applyDeliverPolicyOpts. destruct (c_DeliverPolicy b); apply opts_of_app. Qed.
Lemma opts_of_replay k l p : opts_of k (applyReplayPolicyOpts l p) = opts_of k l ++ opts_of k (applyReplayPolicyOpts [] p).
Proof. destruct p; apply opts_of_app. Qed.

Lemma consumerOpts_wanted b k : opts_of k (consumerOpts b) = wanted_opts b k.
Proof.
  unfold consumerOpts. cbv zeta. rewrite !opts_of_if, opts_of_replay, opts_of_deliver, opts_of_ack, !opts_of_if.
  unfold applyDeliverPolicyOpts.
  destruct k; cbn [wanted_opts];
    first [by destruct (c_FilterSubjects b), (c_BackOff b), (0 <? c_RateLimitBits b), (c_HeadersOnly b);
              destruct (c_AckPolicy b); destruct (c_DeliverPolicy b); destruct (c_ReplayPolicy b)].
Qed.

(** ** The pull loop *)
Section Loop.
Context {EM : ErrorModel} {K : Kernel EM}.
Abbreviation evt := (@Ev req resp).
Context (ctx : context) (sub : nat) (fetchTimeout batch : Z) (handle : Msg → prog resp (gores unit)).

Abbreviation fetch := (RFetch (CtxTimeout ctx fetchTimeout) sub batch).

(** The context was asked, where asking is a call, and had not ended. *)
Definition asked (t : list (event resp)) : Prop := t = [] ∨ t = [evt (RCtxErr ctx) None].

Definition timed_out (err : error) : Prop :=
  errors_Is err nats_ErrTimeout = true ∨ errors_Is err context_DeadlineExceeded = true.

(** The calls after a fetch error that end the loop, and what they answered. *)
Inductive gave_up (err : error) : list (event resp) → Prop :=
| gave_context e : gave_up err [evt (RCtxErr ctx) (Some e)]
| gave_cancelled t : asked t → errors_Is err context_Canceled = true → gave_up err t
| gave_closed t : asked t → gave_up err (t ++ [evt RConnIsClosed true])
| gave_asleep t :
    asked t → gave_up err (t ++ [evt RConnIsClosed false; evt (RSleep ctx (50 * time_Millisecond)) false]).

(** A turn that hands on messages hands on what was fetched, in order. *)
Inductive handled : list Msg → list (event resp) → gores unit → Prop :=
| handled_all : handled [] [] (Done tt)
| handled_one msg rest t1 t2 r :
    runs (handle msg) t1 (Done tt) → handled rest t2 r → handled (msg :: rest) (t1 ++ t2) r
| handled_panic msg rest t : runs (handle msg) t Panic → handled (msg :: rest) t Panic.

Lemma dispatch_handled msgs : sat (dispatch handle msgs) (handled msgs).
Proof.
  induction msgs as [|msg msgs IH]; cbn [dispatch]; [constructor|].
  apply sat_bind, sat_runs. intros t1 [[]|] H1.
  - eapply sat_mono; [|exact IH]. cbn. intros t2 r H2. by constructor.
  - cbn. rewrite app_nil_r. by constructor.
Qed.

(** One turn: the context has ended; or messages were fetched and all of them handled, in
    order; or the fetch failed and nothing was handled - a timeout goes on at once, any
    other error ends the loop for a reason or goes on after a pause. *)
Inductive turn : list (event resp) → gores bool → Prop :=
| turn_context e : turn [evt (RCtxErr ctx) (Some e)] (Done false)
| turn_handled t0 msgs t r :
    asked t0 → handled msgs t r →
    turn (t0 ++ evt fetch (Ok msgs) :: t) (match r with Panic => Panic | Done _ => Done true end)
| turn_timeout t0 err : asked t0 → timed_out err → turn (t0 ++ [evt fetch (Err err)]) (Done true)
| turn_stop t0 err t :
    asked t0 → ¬ timed_out err → gave_up err t → turn (t0 ++ evt fetch (Err err) :: t) (Done false)
| turn_retry t0 err t :
    asked t0 → ¬ timed_out err → errors_Is err context_Canceled = false → asked t →
    turn (t0 ++ evt fetch (Err err) :: t ++
          [evt RConnIsClosed false; evt (RSleep ctx (50 * time_Millisecond)) true]) (Done true).

Lemma ctx_asked : sat (ctx_Err ctx) (λ t x,
  match x with None => asked t | Some e => t = [evt (RCtxErr ctx) (Some e)] end).
Proof.
  unfold asked. assert (C : sat (call (RCtxErr ctx)) (λ t x,
    match x with None => t = [] ∨ t = [evt (RCtxErr ctx) None] | Some e => t = [evt (RCtxErr ctx) (Some e)] end)).
  { intros [e|]; cbn; auto. }
  destruct ctx; first [exact C|by left].
Qed.

Lemma turn_sat : sat (fetch_turn ctx sub fetchTimeout batch handle) turn.
Proof.
  unfold fetch_turn. apply sat_bind. eapply sat_mono; [|apply ctx_asked].
  intros t0 [e|] H0; [subst t0; constructor|].
  apply sat_call. intros [msgs|err].
  { apply sat_bind. eapply sat_mono; [|apply dispatch_handled]. cbn. intros t r Hr.
    destruct r as [[]|]; cbn; rewrite app_nil_r; [apply (turn_handled t0 msgs t (Done tt))|
      apply (turn_handled t0 msgs t Panic)]; done. }
  destruct (_ || _)%bool eqn:Et; [apply turn_timeout; [done|]; unfold timed_out; by go_bool|].
  assert (Hn : ¬ timed_out err) by (unfold timed_out; go_bool; destruct Et as [-> ->]; naive_solver).
  apply sat_bind. eapply sat_mono; [|apply ctx_asked]. intros t1 [e|] H1; cbn [is_some].
  { subst t1. apply turn_stop; [done..|constructor]. }
  destruct (errors_Is err context_Canceled) eqn:Ec.
  { cbn. rewrite app_nil_r. by apply turn_stop, gave_cancelled. }
  apply sat_call. intros [].
  { apply turn_stop; [done..|]. by apply gave_closed. }
  apply sat_call. intros [].
  - by apply turn_retry.
  - apply turn_stop; [done..|]. by apply gave_asleep.
Qed.

(** A whole run of the loop: turns that go on, then one that ends it (or the fuel). *)
Inductive loop : list (event resp) → gores (option unit) → Prop :=
| loop_fuel : loop [] (Done None)
| loop_turn t1 t2 r : turn t1 (Done true) → loop t2 r → loop (t1 ++ t2) r
| loop_end t : turn t (Done false) → loop t (Done (Some tt))
| loop_panic t : turn t Panic → loop t Panic.

Lemma loop_sat fuel : sat (fetch_loop ctx sub fetchTimeout batch handle fuel) loop.
Proof.
  induction fuel as [|fuel IH]; cbn [fetch_loop]; [constructor|].
  apply sat_bind. eapply sat_mono; [|apply turn_sat]. intros t [[]|] Ht.
  - eapply sat_mono; [|exact IH]. cbn. intros t2 r H2. by constructor.
  - cbn. rewrite app_nil_r. by constructor.
  - cbn. rewrite app_nil_r. by constructor.
Qed.

Definition loop_closed (tr : list (event resp)) (r : gores (option unit)) : Prop :=
  match r with
  | Done None => loop tr r
  | _ => ∃ t y, tr = t ++ [evt (RUnsubscribe sub) y] ∧ loop t r
  end.

Lemma run_loop_sat fuel : sat (runFetchLoop ctx sub fetchTimeout batch handle fuel) loop_closed.
Proof.
  unfold runFetchLoop. apply sat_bind. eapply sat_mono; [|apply loop_sat].
  intros t [[[]|]|] Ht.
  - intros y. by exists t, y.
  - cbn. by rewrite app_nil_r.
  - intros y. by exists t, y.
Qed.
End Loop.

(** ** Theorems *)
Section Theorems.
Context {EM : ErrorModel} {K : Kernel EM}.
Abbreviation evt := (@Ev req resp).



(** C39: The pull loop: for any message handler, every run of runFetchLoop is a
    sequence of turns, each of which asks the context, then fetches once, and then hands
    on all the fetched messages, each once and in the order fetched, or, after a fetch
    error, handles nothing and goes on (at once after a timeout, otherwise after a pause).
    It returns only because the context ended, the fetch was cancelled or the connection
    is closed (a timeout never stops it); and when it returns or its handler panics, the
    subscription is closed by its last call. *)
Theorem runFetchLoop_sound ctx sub fetchTimeout batch handle fuel tr r :
  runs (runFetchLoop ctx sub fetchTimeout batch handle fuel) tr r →
  loop_closed ctx sub fetchTimeout batch handle tr r.
Proof. by apply (proj1 (sat_runs _ _) (run_loop_sat ctx sub fetchTimeout batch handle fuel)). Qed.
End Theorems.

(** ** Builders *)
Section Builders.
Context {EM : ErrorModel} {EL : ErrorLaws EM}.

(** [b'] is accepted exactly under [P], and differs from [b] in the options of kind [k]
    only, which become [l]. *)
Definition builds (b b' : ConsumerBinding) (P : Prop) (k : optkind) (l : list SubOpt) : Prop :=
  (validateConsumerBinding b' = None ↔ P) ∧
  opts_of k (consumerOpts b') = l ∧ ∀ k', k' ≠ k → opts_of k' (consumerOpts b') = opts_of k' (consumerOpts b).

Lemma builds_intro b b' P k l :
  (consumer_valid b' ↔ P) → wanted_opts b' k = l → (∀ k', k' ≠ k → wanted_opts b' k' = wanted_opts b k') →
  builds b b' P k l.
Proof.
  intros HP Hl Hk. split; [by rewrite validateConsumerBinding_none|]. rewrite consumerOpts_wanted. split; [done|].
  intros k' Hn. rewrite !consumerOpts_wanted. by apply Hk.
Qed.

(** Validity of a changed binding from that of the original. *)
Local Ltac rebuild H :=
  destruct H as [? ? ? ? ? ? ? ? ? ? ? ? ? ?]; simpl in *; constructor; simpl in *; eauto.
Local Ltac changed := intros k' Hk'; destruct k'; done.

End Builders.

(** ** Runs on the in-memory world *)
Section Witnesses.
Import GoErr.

Definition m0 : mem := mkMem empty_view 5 0.

Definition provision : prog resp (option error) := ensureStream None "ORDERS" ["orders.new"].


Definition loop3 : prog resp (gores (option unit)) :=
  runFetchLoop (Caller 0) 0 time_Second 1 (λ _, mret (Done tt)) 3.

Lemma runFetchLoop_sound_witness :
  exec_result mem_handler loop3 m0 = Done None ∧
  loop_closed (Caller 0) 0 time_Second 1 (λ _, mret (Done tt)) (exec_trace mem_handler loop3 m0) (Done None).
Proof.
  split; [reflexivity|].
  apply (runFetchLoop_sound (Caller 0) 0 time_Second 1 (λ _, mret (Done tt)) 3).
  exact (exec_is_run mem_handler loop3 m0).
Defined.


End Witnesses.
