(* ===== verification/Delivery.v ===== *)
(** * Handling one delivered message (src/tnats/consumer.go, tnats_durable.go)

    What the pull-consumer handlers do with a message: the delivery limit, the
    action (possibly under idempotency), acknowledgement, delayed redelivery,
    dead-lettering and termination.  The request context of xctx.NewScope and
    extractContextHeaders only adds values to the caller's context, so it is [ctx]
    here; logging is left out. *)

From S2P Require Import Prelude Effects Errors World Json Bindings IdemKV IdemExec.

Local Open Scope Z_scope.

Definition defaultShutdownTimeout : Z := 5 * time_Second.

(** context.WithTimeout(context.WithoutCancel(ctx), defaultShutdownTimeout) *)
Definition ackContext (ctx : context) : context := CtxTimeout (WithoutCancel ctx) defaultShutdownTimeout.

(** ** Limits and delays *)

(** uint64(maxDeliver), and whether the limit is usable. *)
Definition maxDeliveryLimit (maxDeliver : Z) : Z * bool :=
  if maxDeliver <=? 0 then (0, false) else (wrap_uint64 maxDeliver, true).

Definition maxDeliverReached (deliveries maxDeliver : Z) : bool :=
  let '(limit, ok) := maxDeliveryLimit maxDeliver in (negb ok || (limit <=? deliveries))%bool.

Definition maxDeliverExceeded (deliveries maxDeliver : Z) : bool :=
  let '(limit, ok) := maxDeliveryLimit maxDeliver in (negb ok || (limit <? deliveries))%bool.

Definition backoffIndex (deliveries count : Z) : Z :=
  if ((count <=? 1) || (deliveries <=? 1))%bool then 0
  else
    let last := wrap_int64 (count - 1) in
    let lastDelivery := wrap_uint64 last in
    if lastDelivery <=? wrap_uint64 (deliveries - 1) then last
    else wrap_int64 (wrap_uint64 (deliveries - 1)).

(** l[i]: out of range panics. *)
Definition go_index {A} (l : list A) (i : Z) : gores A :=
  if i <? 0 then Panic else match l !! Z.to_nat i with Some a => Done a | None => Panic end.

Section Delivery.
Context {EM : ErrorModel} {K : Kernel EM} {JT : JsonText EM}.

Definition retryAfter (err : error) : Z := default 0 (as_RetryAfter err).

Definition consumerRetryDelay (b : ConsumerBinding) (deliveries : Z) (execErr : error) : gores Z :=
  let delay := retryAfter execErr in
  if 0 <? delay then Done delay
  else if (0 <? length (c_BackOff b))%nat then
    go_index (c_BackOff b) (backoffIndex deliveries (Z.of_nat (length (c_BackOff b))))
  else Done time_Second.

Definition durableRetryDelay (err : error) (fallback : Z) : Z :=
  let delay := retryAfter err in if 0 <? delay then delay else fallback.

(** ** Dead letters *)
Record DeadLetter := mkDeadLetter {
  dl_Stream : string; dl_Subject : string; dl_Durable : string; dl_Deliveries : Z;
  dl_FailedAt : Z; dl_Error : string; dl_Payload : string; dl_Headers : gmap string string }.

Definition dead_to_json (failedAt : json) (d : DeadLetter) : json :=
  JObj ([("stream", JStr (dl_Stream d)); ("subject", JStr (dl_Subject d)); ("durable", JStr (dl_Durable d));
         ("deliveries", JInt (dl_Deliveries d)); ("failed_at", failedAt); ("error", JStr (dl_Error d));
         ("payload", match dl_Payload d with EmptyString => JNull | p => JStr (b64_encode p) end)]
        ++ if decide (dl_Headers d = ∅) then [] else [("headers", map_to_json (dl_Headers d))]).

Definition json_Marshal_DeadLetter (d : DeadLetter) : result error string :=
  match time_MarshalJSON (dl_FailedAt d) with
  | Err e => Err e
  | Ok t => json_Marshal (dead_to_json t d)
  end.

(** The first value of every header that has one. *)
Definition first_headers (h : option header) : gmap string string :=
  match h with
  | None => ∅
  | Some h => omap head h
  end.

Definition dlqMsgID (md : MsgMetadata) : string :=
  md_Stream md +:+ ":" +:+ pretty (Z.to_N (md_StreamSeq md)).

Definition dlqConsumerMessage (ctx : context) (b : ConsumerBinding) (msg : Msg) (execErr : error)
    (deliveries : Z) (terminate : bool) : prog resp (option error) :=
  now ← call RNow;
  let dead := {| dl_Stream := c_Stream b; dl_Subject := msg_Subject msg; dl_Durable := c_Durable b;
                 dl_Deliveries := deliveries; dl_FailedAt := now; dl_Error := error_Error execErr;
                 dl_Payload := msg_Data msg; dl_Headers := first_headers (msg_Header msg) |} in
  match json_Marshal_DeadLetter dead with
  | Err err => mret (Some (fmt_Errorf_w "marshal dead-letter message" err))
  | Ok payload =>
      metaInfo ← call RMetadata;
      match metaInfo with
      | Err err => mret (Some (mapError err))
      | Ok md =>
          err ← call (RJsPublish ctx (c_DeadLetterSubject b) payload (dlqMsgID md));
          match err with
          | Some e => mret (Some (mapError e))
          | None =>
              if terminate then
                err ← call (RTerm ctx);
                match err with
                | Some e => mret (Some (mapError e))
                | None => mret None
                end
              else mret None
          end
      end
  end.

Definition nakConsumerMessage (ctx : context) (b : ConsumerBinding) (deliveries : Z) (execErr : error)
    : prog resp (gores unit) :=
  match consumerRetryDelay b deliveries execErr with
  | Panic => mret Panic
  | Done delay => _ ← call (RNakWithDelay ctx delay); mret (Done tt)
  end.

(** ** The action *)

(** action.Meta, as far as the handlers read it. *)
Record Meta := mkMetaData { me_IdempotencyEnabled : bool; me_Idempotency : IdempotencyConfig }.

(** The error of the action, run with or without the idempotency layer. *)
Definition run_action (ctx : context) (store : store_kind) (c : option codec) (meta : option Meta) (msg : Msg)
    : prog resp (gores (option error)) :=
  match meta with
  | Some (mkMetaData true cfg) =>
      r ← executeWithIdempotency ctx store cfg msg c;
      match r with
      | Panic => mret Panic
      | Done (_, err) => mret (Done err)
      end
  | _ =>
      r ← call (RExecute ctx);
      match r with
      | Panic => mret Panic
      | Done (Ok _) => mret (Done None)
      | Done (Err e) => mret (Done (Some e))
      end
  end.

Definition consumer_exceeded : error :=
  app KindInternal "consumer delivery limit exceeded; retrying dead-letter handling".

Definition handleConsumerMessage (ctx : context) (store : store_kind) (c : option codec)
    (b : ConsumerBinding) (meta : option Meta) (msg : Msg) : prog resp (gores unit) :=
  let ackCtx := ackContext ctx in
  (* after the delivery checks *)
  let execute (deliveries : Z) : prog resp (gores unit) :=
    r ← run_action ctx store c meta msg;
    match r with
    | Panic => mret Panic
    | Done None =>
        if bool_decide (c_AckPolicy b = AckNone) then mret (Done tt)
        else _ ← call (RAckSync ackCtx); mret (Done tt)
    | Done (Some execErr) =>
        if bool_decide (c_AckPolicy b = AckNone) then
          if str_empty (c_DeadLetterSubject b) then mret (Done tt)
          else _ ← dlqConsumerMessage ackCtx b msg execErr 1 false; mret (Done tt)
        else if maxDeliverReached deliveries (c_MaxDeliver b) then
          if str_empty (c_DeadLetterSubject b) then _ ← call (RTerm ackCtx); mret (Done tt)
          else
            err ← dlqConsumerMessage ackCtx b msg execErr deliveries true;
            match err with
            | Some _ => nakConsumerMessage ackCtx b deliveries execErr
            | None => mret (Done tt)
            end
        else nakConsumerMessage ackCtx b deliveries execErr
    end in
  if bool_decide (c_AckPolicy b = AckNone) then execute 1
  else
    metaInfo ← call RMetadata;
    match metaInfo with
    | Err metadataErr => nakConsumerMessage ackCtx b 1 (mapError metadataErr)
    | Ok md =>
        let deliveries := md_NumDelivered md in
        if maxDeliverExceeded deliveries (c_MaxDeliver b) then
          if str_empty (c_DeadLetterSubject b) then _ ← call (RTerm ackCtx); mret (Done tt)
          else
            err ← dlqConsumerMessage ackCtx b msg consumer_exceeded deliveries true;
            match err with
            | Some deadLetterErr => nakConsumerMessage ackCtx b deliveries deadLetterErr
            | None => mret (Done tt)
            end
        else execute deliveries
    end.

(** The zero ConsumerBinding with the three fields the dead-letter path reads. *)
Definition durable_as_consumer (b : DurableBinding) : ConsumerBinding :=
  {| c_Stream := d_Stream b; c_Subject := ""; c_FilterSubjects := []; c_Durable := d_Durable b;
     c_DeliverPolicy := DeliverAll; c_OptStartSeq := 0; c_OptStartTime := time_zero;
     c_AckPolicy := AckExplicit; c_ReplayPolicy := ReplayInstant; c_MaxDeliver := 0; c_AckWait := 0;
     c_MaxAckPending := 0; c_BackOff := []; c_RateLimitBits := 0; c_HeadersOnly := false;
     c_DeadLetterSubject := d_DeadLetterSubject b |}.

Definition durable_exceeded : error :=
  app KindInternal "durable delivery limit exceeded; retrying dead-letter handling".

Definition handleDurableMessage (ctx : context) (store : store_kind) (c : option codec)
    (b : DurableBinding) (meta : option Meta) (msg : Msg) : prog resp (gores unit) :=
  let ackCtx := ackContext ctx in
  metaInfo ← call RMetadata;
  match metaInfo with
  | Err metadataErr =>
      _ ← call (RNakWithDelay ackCtx (durableRetryDelay (mapError metadataErr) (d_RetryDelay b)));
      mret (Done tt)
  | Ok md =>
      let deliveries := md_NumDelivered md in
      if maxDeliverExceeded deliveries (d_MaxDeliver b) then
        err ← dlqConsumerMessage ackCtx (durable_as_consumer b) msg durable_exceeded deliveries true;
        match err with
        | Some e =>
            _ ← call (RNakWithDelay ackCtx (durableRetryDelay e (d_RetryDelay b))); mret (Done tt)
        | None => mret (Done tt)
        end
      else
        r ← run_action ctx store c meta msg;
        match r with
        | Panic => mret Panic
        | Done None => _ ← call (RAckSync ackCtx); mret (Done tt)
        | Done (Some execErr) =>
            if negb (maxDeliverReached deliveries (d_MaxDeliver b)) then
              _ ← call (RNakWithDelay ackCtx (durableRetryDelay execErr (d_RetryDelay b)));
              mret (Done tt)
            else
              err ← dlqConsumerMessage ackCtx (durable_as_consumer b) msg execErr deliveries true;
              match err with
              | Some _ => _ ← call (RNakWithDelay ackCtx (d_RetryDelay b)); mret (Done tt)
              | None => mret (Done tt)
              end
        end
  end.
End Delivery.
