(* ===== verification/DeliveryProofs.v ===== *)
(** * Correctness of message handling

    What the broker sees of one handled message, for all answers of the broker, the
    action and the idempotency layer; and the bound on executions over all the
    redeliveries of a message. *)

From S2P Require Import Prelude Effects Errors World Json Bindings IdemKV IdemExec Delivery KVContract MemKV.
From Stdlib Require Import Ascii.

Local Open Scope Z_scope.

(** ** Limits and delays *)
Lemma maxDeliverExceeded_spec d m :
  0 < m → in_int64 m → maxDeliverExceeded d m = (m <? d).
Proof.
  intros Hm Hi. unfold maxDeliverExceeded, maxDeliveryLimit. rewrite (proj2 (Z.leb_gt _ _) Hm).
  cbn. rewrite wrap_uint64_id; [done|]. unfold in_int64, in_uint64, int64_max, uint64_max in *. lia.
Qed.

Lemma maxDeliverReached_spec d m :
  0 < m → in_int64 m → maxDeliverReached d m = (m <=? d).
Proof.
  intros Hm Hi. unfold maxDeliverReached, maxDeliveryLimit. rewrite (proj2 (Z.leb_gt _ _) Hm).
  cbn. rewrite wrap_uint64_id; [done|]. unfold in_int64, in_uint64, int64_max, uint64_max in *. lia.
Qed.

Lemma backoffIndex_spec d n :
  in_uint64 d → 0 < n → in_int64 n → backoffIndex d n = Z.min (Z.max (d - 1) 0) (n - 1).
Proof.
  unfold in_uint64, in_int64. intros Hd Hn Hi. unfold backoffIndex.
  destruct (_ || _)%bool eqn:E; go_bool; [lia|].
  assert (Hw : wrap_int64 (n - 1) = n - 1)
    by (apply wrap_int64_id; unfold in_int64, int64_min, int64_max in *; lia).
  rewrite Hw, !wrap_uint64_id
    by (unfold in_uint64, int64_max, uint64_max in *; lia).
  destruct (_ <=? _) eqn:E2; go_bool; [lia|].
  rewrite wrap_int64_id; [lia|]. unfold in_int64, int64_min, int64_max, uint64_max in *. lia.
Qed.

Section Delays.
Context {EM : ErrorModel}.

(** A slice has at most 2^63 - 1 elements. *)
Definition backoff_ok (b : ConsumerBinding) : Prop := in_int64 (Z.of_nat (length (c_BackOff b))).

Lemma consumerRetryDelay_total b d e :
  in_uint64 d → backoff_ok b → ∃ delay, consumerRetryDelay b d e = Done delay ∧
    (retryAfter e ≤ 0 → c_BackOff b ≠ [] →
       c_BackOff b !! Z.to_nat (Z.min (Z.max (d - 1) 0) (Z.of_nat (length (c_BackOff b)) - 1)) = Some delay) ∧
    (Forall (λ x, 0 < x) (c_BackOff b) → 0 < delay).
Proof.
  intros Hd Hb. unfold consumerRetryDelay. destruct (0 <? retryAfter e) eqn:E.
  { go_bool. eexists. split; [done|]. split; [lia|done]. }
  destruct (0 <? length (c_BackOff b))%nat eqn:El.
  - apply Nat.ltb_lt in El. rewrite backoffIndex_spec by (done || lia). unfold go_index.
    rewrite (proj2 (Z.ltb_ge _ _)) by lia.
    destruct (c_BackOff b !! _) as [x|] eqn:Ex; [|apply lookup_ge_None in Ex; lia].
    exists x. split; [done|]. split; [done|]. intros Hf. by eapply Forall_lookup_1 in Ex.
  - apply Nat.ltb_ge in El. exists time_Second. split; [done|]. split; [|done].
    intros _ Hn. destruct (c_BackOff b); [done|cbn in El; lia].
Qed.
(** The delay before the next delivery: what the error asks for, or the entry of the
    backoff schedule for this delivery (the last one from then on), or one second. *)
Definition scheduled (b : ConsumerBinding) (n : Z) : Z :=
  match c_BackOff b with
  | [] => 1000000000
  | l => default 0 (l !! Z.to_nat (Z.min (Z.max (n - 1) 0) (Z.of_nat (length l) - 1)))
  end.

Definition asked_delay (e : error) (otherwise : Z) : Z :=
  match as_RetryAfter e with
  | Some d => if 0 <? d then d else otherwise
  | None => otherwise
  end.

Definition consumer_delay (b : ConsumerBinding) (n : Z) (e : error) : Z := asked_delay e (scheduled b n).

Lemma asked_delay_retryAfter e o : (if 0 <? retryAfter e then retryAfter e else o) = asked_delay e o.
Proof. unfold retryAfter, asked_delay. by destruct (as_RetryAfter e). Qed.

Lemma consumerRetryDelay_is b n e :
  in_uint64 n → backoff_ok b → consumerRetryDelay b n e = Done (consumer_delay b n e).
Proof.
  intros Hn Hb. destruct (consumerRetryDelay_total b n e Hn Hb) as (d & Hd & Hs & _).
  unfold consumer_delay. rewrite <- asked_delay_retryAfter. unfold scheduled.
  unfold consumerRetryDelay in *. destruct (0 <? retryAfter e) eqn:E; [done|]. go_bool.
  destruct (c_BackOff b) as [|x l] eqn:El; [done|]. rewrite Hd. by rewrite (Hs E).
Qed.
End Delays.

(** ** What the broker is told *)
Section Dispositions.
Context {EM : ErrorModel} {K : Kernel EM} {JT : JsonText EM}.

Abbreviation evt := (@Ev req resp).

Inductive disp :=
| DAck | DNak (delay : Z) | DTerm (ok : bool) | DPub (subject data : string) (ok : bool).

Definition disposition (e : event resp) : option disp :=
  match ev_req e as r return resp r → option disp with
  | RAckSync _ => λ _, Some DAck
  | RNakWithDelay _ d => λ _, Some (DNak d)
  | RTerm _ => λ x, Some (DTerm (negb (is_some x)))
  | RJsPublish _ s d _ => λ x, Some (DPub s d (negb (is_some x)))
  | _ => λ _, None
  end (ev_resp e).

Definition dispositions (tr : list (event resp)) : list disp := omap disposition tr.

Lemma dispositions_app t1 t2 : dispositions (t1 ++ t2) = dispositions t1 ++ dispositions t2.
Proof. apply omap_app. Qed.

(** ** The action *)
Definition calm (n : nat) (t : list (event resp)) : Prop :=
  dispositions t = [] ∧ (count is_execute t ≤ n)%nat.

Lemma calm_app n m t1 t2 : calm n t1 → calm m t2 → calm (n + m) (t1 ++ t2).
Proof.
  intros [D1 C1] [D2 C2]. split; [by rewrite dispositions_app, D1, D2|]. rewrite count_app. lia.
Qed.

Lemma calm_call {A} r (f : resp r → prog resp A) n m :
  (∀ x, calm n [evt r x]) → (∀ x, sat (f x) (λ t _, calm m t)) →
  sat (call r ≫= f) (λ t _, calm (n + m) t).
Proof.
  intros Hr Hf. apply sat_call. intros x. eapply sat_mono; [|apply Hf]. cbn. intros t _ Ht.
  by apply (calm_app n m [evt r x] t).
Qed.

(** A call that is neither an execution nor a disposition. *)
Definition neutral (r : req) : bool :=
  match r with
  | RExecute _ | RAckSync _ | RNakWithDelay _ _ | RTerm _ | RJsPublish _ _ _ _ => false
  | _ => true
  end.

Lemma calm_neutral {A} r (f : resp r → prog resp A) m :
  neutral r = true → (∀ x, sat (f x) (λ t _, calm m t)) → sat (call r ≫= f) (λ t _, calm m t).
Proof.
  intros Hr. apply (calm_call r f 0). intros x. split; destruct r; done || (cbn; lia).
Qed.

Lemma calm_execute {A} c (f : gores (result error value) → prog resp A) :
  (∀ x, sat (f x) (λ t _, calm 0 t)) → sat (call (RExecute c) ≫= f) (λ t _, calm 1 t).
Proof. apply (calm_call (RExecute c) f 1 0). intros x. split; [done|cbn; lia]. Qed.

Lemma calm_ret {A} (a : A) n : sat (mret a) (λ (t : list (event resp)) _, calm n t).
Proof. split; [done|cbn; lia]. Qed.

Lemma calm_bind {A B} (p : prog resp A) (f : A → prog resp B) n m :
  sat p (λ t _, calm n t) → (∀ a, sat (f a) (λ t _, calm m t)) → sat (p ≫= f) (λ t _, calm (n + m) t).
Proof.
  intros Hp Hf. apply (sat_then p f (calm n)); [done|]. intros t a Ht.
  eapply sat_mono; [|apply Hf]. cbn. intros t' _ Ht'. by apply calm_app.
Qed.
End Dispositions.

Ltac calm_step :=
  match goal with
  | |- sat (mret _) _ => apply calm_ret
  | |- sat (call (RExecute _) ≫= _) _ => apply calm_execute; intros ?
  | |- sat (call _ ≫= _) _ => apply calm_neutral; [reflexivity|]; intros ?
  | |- sat (if ?b then _ else _) _ => destruct b eqn:?
  | |- sat (match ?x with _ => _ end) _ => destruct x eqn:?
  end.

Section Actions.
Context {EM : ErrorModel} {K : Kernel EM} {JT : JsonText EM}.

Lemma start_calm renewer key token ttl :
  sat (startCoordinatorLeaseRenewal renewer key token ttl) (λ t _, calm 0 t).
Proof. unfold startCoordinatorLeaseRenewal. repeat calm_step. Qed.

Lemma stop_calm started : sat (stopRenewal started) (λ t _, calm 0 t).
Proof. destruct started; [|apply calm_ret]. intros x. split; [done|cbn; lia]. Qed.

Lemma coordinator_calm ctx renewer cfg key h c :
  sat (executeWithCoordinator ctx renewer cfg key h c) (λ t _, calm 1 t).
Proof.
  unfold executeWithCoordinator. repeat calm_step.
  apply (calm_bind _ _ 0 1); [apply start_calm|]. intros started. calm_step.
  apply (calm_bind _ _ 0 0); [apply stop_calm|]. intros err. repeat calm_step.
Qed.

Lemma legacy_calm ctx cfg key h c :
  sat (executeWithLegacyStore ctx cfg key h c) (λ t _, calm 1 t).
Proof. unfold executeWithLegacyStore. repeat calm_step. Qed.

(** What running the action comes to: one call of it, or a run of the idempotency layer. *)
Definition acted (ctx : context) (store : store_kind) (c : option codec) (meta : option Meta) (msg : Msg)
    (t : list (event resp)) (x : gores (option error)) : Prop :=
  match meta with
  | Some (mkMetaData true cfg) => ∃ r, runs (executeWithIdempotency ctx store cfg msg c) t r ∧
      x = match r with Panic => Panic | Done (_, err) => Done err end
  | _ => ∃ r, t = [Ev (RExecute ctx) r] ∧
      x = match r with Panic => Panic | Done (Ok _) => Done None | Done (Err e) => Done (Some e) end
  end.

Lemma run_action_acted ctx store c meta msg t x :
  runs (run_action ctx store c meta msg) t x → acted ctx store c meta msg t x.
Proof.
  unfold run_action, acted.
  assert (E : runs (r ← call (RExecute ctx);
      match r with
      | Panic => mret Panic
      | Done (Ok _) => mret (Done None)
      | Done (Err e) => mret (Done (Some e))
      end) t x → ∃ r, t = [Ev (RExecute ctx) r] ∧
      x = match r with Panic => Panic | Done (Ok _) => Done None | Done (Err e) => Done (Some e) end).
  { intros (r & t' & -> & H). exists r. destruct r as [[v|e]|]; destruct H as [-> ->]; done. }
  destruct meta as [[[] cfg]|]; [|exact E..].
  intros (t1 & t2 & r & -> & H1 & H2)%runs_bind. exists r.
  destruct r as [[body err]|]; destruct H2 as [-> ->]; by rewrite app_nil_r.
Qed.

(** It runs at most once and says nothing to the broker. *)
Lemma idempotency_calm ctx store cfg msg c : sat (executeWithIdempotency ctx store cfg msg c) (λ t _, calm 1 t).
Proof. unfold executeWithIdempotency. destruct store; [apply legacy_calm|apply coordinator_calm]. Qed.

Lemma acted_calm ctx store c meta msg t x : acted ctx store c meta msg t x → calm 1 t.
Proof.
  unfold acted. destruct meta as [[[] cfg]|].
  - intros (r & H & _). exact (proj1 (sat_runs _ _) (idempotency_calm ctx store cfg msg c) _ _ H).
  - intros (r & -> & _). by split.
  - intros (r & -> & _). by split.
Qed.

(** ** Dead-lettering *)

(** The dead letter of a message: where it came from, how often it was delivered, the
    error, and the message's own data and headers. *)
Definition dead_letter (stream durable : string) (msg : Msg) (e : error) (n : Z) (payload : string) : Prop :=
  ∃ failedAt, json_Marshal_DeadLetter
    (mkDeadLetter stream (msg_Subject msg) durable n failedAt (error_Error e) (msg_Data msg)
       (first_headers (msg_Header msg))) = Ok payload.

Inductive dead_lettered (dlq : string) (letter : string → Prop) : list disp → option error → Prop :=
| dl_done d : letter d → dead_lettered dlq letter [DPub dlq d true; DTerm true] None
| dl_unsent e : dead_lettered dlq letter [] (Some e)
| dl_refused d e : letter d → dead_lettered dlq letter [DPub dlq d false] (Some e)
| dl_unterminated d e : letter d → dead_lettered dlq letter [DPub dlq d true; DTerm false] (Some e).

Lemma dlq_sat ctx b msg e d :
  sat (dlqConsumerMessage ctx b msg e d true)
    (λ t r, dead_lettered (c_DeadLetterSubject b) (dead_letter (c_Stream b) (c_Durable b) msg e d) (dispositions t) r ∧
       count is_execute t = 0%nat).
Proof.
  unfold dlqConsumerMessage. apply sat_call. intros now.
  destruct (json_Marshal_DeadLetter _) as [payload|] eqn:Ep; [|split; [constructor|done]].
  assert (L : dead_letter (c_Stream b) (c_Durable b) msg e d payload) by (by exists now).
  apply sat_call. intros [md|err]; [|split; [constructor|done]].
  apply sat_call. intros [err|]; [split; [by constructor|done]|].
  apply sat_call. intros [err|]; (split; [by constructor|done]).
Qed.
End Actions.

Section Consumer.
Context {EM : ErrorModel} {K : Kernel EM} {JT : JsonText EM}.
Abbreviation evt := (@Ev req resp).

(** Delivery counts are uint64. *)
Definition typed (tr : list (event resp)) : Prop :=
  ∀ md, evt RMetadata (Ok md) ∈ tr → in_uint64 (md_NumDelivered md).

(** Giving a message up: terminated if there is no dead-letter subject; otherwise
    its dead letter is published there and then it is terminated, or, when one of the two
    failed with the error [x], it is redelivered after the positive delay [delay x]. *)
Definition given_up (dlq : string) (letter : string → Prop) (delay : error → Z) (l : list disp) : Prop :=
  if str_empty dlq then ∃ ok, l = [DTerm ok]
  else ∃ l' r, dead_lettered dlq letter l' r ∧
    match r with None => l = l' | Some x => 0 < delay x ∧ l = l' ++ [DNak (delay x)] end.

Lemma given_up_ext dlq letter d1 d2 l :
  (∀ x, d1 x = d2 x) → given_up dlq letter d1 l → given_up dlq letter d2 l.
Proof.
  intros E. unfold given_up. destruct (str_empty dlq); [done|]. intros (l' & r & H & Hr). exists l', r.
  split; [done|]. destruct r as [x|]; [|done]. by rewrite <- E.
Qed.

Section Binding.
Context (ctx : context) (store : store_kind) (c : option codec) (b : ConsumerBinding)
  (meta : option Meta) (msg : Msg).

(** After the action: acknowledged exactly on success, redelivered below the limit,
    given up at the limit. *)
Definition consumer_after (n : Z) (x : gores (option error)) (l : list disp) (r : gores unit) : Prop :=
  match x with
  | Panic => l = [] ∧ r = Panic
  | Done None => l = [DAck] ∧ r = Done tt
  | Done (Some e) =>
      r = Done tt ∧
      if n <? c_MaxDeliver b then 0 < consumer_delay b n e ∧ l = [DNak (consumer_delay b n e)]
      else given_up (c_DeadLetterSubject b) (dead_letter (c_Stream b) (c_Durable b) msg e n)
             (λ _, consumer_delay b n e) l
  end.

Inductive consumer_outcome : list (event resp) → gores unit → Prop :=
| co_unreadable e y :
    0 < consumer_delay b 1 (mapError e) →
    consumer_outcome [evt RMetadata (Err e);
                      evt (RNakWithDelay (ackContext ctx) (consumer_delay b 1 (mapError e))) y] (Done tt)
| co_exceeded md t :
    c_MaxDeliver b < md_NumDelivered md → count is_execute t = 0%nat →
    given_up (c_DeadLetterSubject b)
      (dead_letter (c_Stream b) (c_Durable b) msg consumer_exceeded (md_NumDelivered md))
      (consumer_delay b (md_NumDelivered md)) (dispositions t) →
    consumer_outcome (evt RMetadata (Ok md) :: t) (Done tt)
| co_executed md t1 t2 x r :
    md_NumDelivered md ≤ c_MaxDeliver b → acted ctx store c meta msg t1 x →
    count is_execute t2 = 0%nat →
    consumer_after (md_NumDelivered md) x (dispositions t2) r →
    consumer_outcome (evt RMetadata (Ok md) :: t1 ++ t2) r.

Hypothesis Hvalid : consumer_valid b.
Hypothesis Hack : c_AckPolicy b ≠ AckNone.
Hypothesis Hmax : in_int64 (c_MaxDeliver b).

Lemma valid_backoff_ok : backoff_ok b.
Proof.
  pose proof (cv_backoffLen _ Hvalid). unfold backoff_ok, in_int64, int64_min, int64_max in *. lia.
Qed.

Lemma retry_delay n e :
  in_uint64 n → consumerRetryDelay b n e = Done (consumer_delay b n e) ∧ 0 < consumer_delay b n e.
Proof.
  intros Hn. pose proof (consumerRetryDelay_is b n e Hn valid_backoff_ok) as E. split; [done|].
  destruct (consumerRetryDelay_total b n e Hn valid_backoff_ok) as (d & Hd & _ & Hp).
  rewrite E in Hd. injection Hd as ->. apply Hp. apply (cv_backoff _ Hvalid).
Qed.

(** The dead-letter attempt of both give-up paths. *)
Lemma give_up_sat msg' e n e' :
  in_uint64 n →
  sat (err ← dlqConsumerMessage (ackContext ctx) b msg' e n true;
       match err with
       | Some x => nakConsumerMessage (ackContext ctx) b n (e' x)
       | None => mret (Done tt)
       end)
    (λ t r, r = Done tt ∧ count is_execute t = 0%nat ∧
       (c_DeadLetterSubject b ≠ "" →
        given_up (c_DeadLetterSubject b) (dead_letter (c_Stream b) (c_Durable b) msg' e n)
          (λ x, consumer_delay b n (e' x)) (dispositions t))).
Proof.
  intros Hn. apply sat_bind. eapply sat_mono; [|apply dlq_sat]. cbn. intros t r [Hd Hc].
  destruct r as [x|].
  - unfold nakConsumerMessage. destruct (retry_delay n (e' x) Hn) as (Hr & Hp). rewrite Hr.
    intros y. cbn. split; [done|]. split; [by rewrite count_app, Hc|]. intros Hs.
    apply str_empty_false in Hs. unfold given_up. rewrite Hs. exists (dispositions t), (Some x).
    split; [done|]. split; [done|]. by rewrite dispositions_app.
  - cbn. rewrite app_nil_r. split; [done|]. split; [done|]. intros Hs. apply str_empty_false in Hs.
    unfold given_up. rewrite Hs. by exists (dispositions t), None.
Qed.

Lemma given_up_term letter delay ok :
  c_DeadLetterSubject b = "" → given_up (c_DeadLetterSubject b) letter delay [DTerm ok].
Proof. intros ->. exists ok. done. Qed.

(** The part of the handler after the delivery checks. *)
Lemma consumer_after_sat n :
  in_uint64 n →
  sat (r ← run_action ctx store c meta msg;
       match r with
       | Panic => mret Panic
       | Done None =>
           if bool_decide (c_AckPolicy b = AckNone) then mret (Done tt)
           else _ ← call (RAckSync (ackContext ctx)); mret (Done tt)
       | Done (Some execErr) =>
           if bool_decide (c_AckPolicy b = AckNone) then
             if str_empty (c_DeadLetterSubject b) then mret (Done tt)
             else _ ← dlqConsumerMessage (ackContext ctx) b msg execErr 1 false; mret (Done tt)
           else if maxDeliverReached n (c_MaxDeliver b) then
             if str_empty (c_DeadLetterSubject b) then _ ← call (RTerm (ackContext ctx)); mret (Done tt)
             else
               err ← dlqConsumerMessage (ackContext ctx) b msg execErr n true;
               match err with
               | Some _ => nakConsumerMessage (ackContext ctx) b n execErr
               | None => mret (Done tt)
               end
           else nakConsumerMessage (ackContext ctx) b n execErr
       end)
    (λ t r, ∃ t1 t2 x, t = t1 ++ t2 ∧ acted ctx store c meta msg t1 x ∧
       count is_execute t2 = 0%nat ∧ consumer_after n x (dispositions t2) r).
Proof.
  intros Hn. pose proof (cv_maxDeliver _ Hvalid) as Hm.
  apply sat_bind. apply sat_runs. intros t1 x Hx%run_action_acted.
  assert (Hgo : ∀ (p : prog resp (gores unit)),
    sat p (λ t2 r, count is_execute t2 = 0%nat ∧ consumer_after n x (dispositions t2) r) →
    sat p (λ t2 r, ∃ t1' t2' x', t1 ++ t2 = t1' ++ t2' ∧ acted ctx store c meta msg t1' x' ∧
       count is_execute t2' = 0%nat ∧ consumer_after n x' (dispositions t2') r)).
  { intros p. apply sat_mono. intros t2 r [H1 H2]. by exists t1, t2, x. }
  apply Hgo. clear Hgo. rewrite bool_decide_false by done.
  destruct x as [[e|]|]; [|by intros y|done].
  rewrite maxDeliverReached_spec by done. unfold consumer_after.
  destruct (c_MaxDeliver b <=? n) eqn:El.
  - rewrite (proj2 (Z.ltb_ge n (c_MaxDeliver b))) by (go_bool; lia).
    destruct (str_empty (c_DeadLetterSubject b)) eqn:Es.
    + intros y. split; [done|]. split; [done|]. apply str_empty_true in Es. by apply given_up_term.
    + eapply sat_mono; [|apply (give_up_sat msg e n (λ _, e) Hn)]. cbn. intros t r (-> & Hc & Hg).
      split; [done|]. split; [done|]. apply Hg. by apply str_empty_false.
  - rewrite (proj2 (Z.ltb_lt n (c_MaxDeliver b))) by (go_bool; lia).
    unfold nakConsumerMessage. destruct (retry_delay n e Hn) as (Hr & Hp). rewrite Hr. by intros y.
Qed.

Lemma consumer_sat :
  sat (handleConsumerMessage ctx store c b meta msg) (λ tr r, typed tr → consumer_outcome tr r).
Proof.
  unfold handleConsumerMessage. rewrite bool_decide_false by done. apply sat_call. intros [md|e].
  2:{ unfold nakConsumerMessage. destruct (retry_delay 1 (mapError e)) as (Hr & Hp); [done|].
      rewrite Hr. intros y _. by constructor. }
  destruct (decide (in_uint64 (md_NumDelivered md))) as [Hn|Hn].
  2:{ apply sat_runs. intros tr r _ Ht. exfalso. apply Hn, Ht. set_solver. }
  rewrite maxDeliverExceeded_spec by (apply Hvalid || done).
  destruct (c_MaxDeliver b <? md_NumDelivered md) eqn:El; go_bool.
  - destruct (str_empty (c_DeadLetterSubject b)) eqn:Es.
    + intros y _. apply co_exceeded; [done|done|]. apply str_empty_true in Es. by apply given_up_term.
    + eapply sat_mono; [|apply (give_up_sat msg consumer_exceeded _ (λ x, x) Hn)].
      cbn. intros t r (-> & Hc & Hg) _. apply co_exceeded; [done|done|]. apply Hg. by apply str_empty_false.
  - pose proof (consumer_after_sat _ Hn) as Hs. rewrite bool_decide_false in Hs by done.
    eapply sat_mono; [|exact Hs]. cbn. intros t r (t1 & t2 & x & -> & H1 & H2 & H3) _.
    by eapply co_executed.
Qed.
End Binding.
End Consumer.

Section Durable.
Context {EM : ErrorModel} {K : Kernel EM} {JT : JsonText EM}.
Abbreviation evt := (@Ev req resp).
Context (ctx : context) (store : store_kind) (c : option codec) (b : DurableBinding)
  (meta : option Meta) (msg : Msg).

Definition durable_after (n : Z) (x : gores (option error)) (l : list disp) (r : gores unit) : Prop :=
  match x with
  | Panic => l = [] ∧ r = Panic
  | Done None => l = [DAck] ∧ r = Done tt
  | Done (Some e) =>
      r = Done tt ∧
      if n <? d_MaxDeliver b then l = [DNak (asked_delay e (d_RetryDelay b))]
      else given_up (d_DeadLetterSubject b) (dead_letter (d_Stream b) (d_Durable b) msg e n) (λ _, d_RetryDelay b) l
  end.

Inductive durable_outcome : list (event resp) → gores unit → Prop :=
| do_unreadable e y :
    0 < asked_delay (mapError e) (d_RetryDelay b) →
    durable_outcome [evt RMetadata (Err e);
                     evt (RNakWithDelay (ackContext ctx) (asked_delay (mapError e) (d_RetryDelay b))) y] (Done tt)
| do_exceeded md t :
    d_MaxDeliver b < md_NumDelivered md → count is_execute t = 0%nat →
    given_up (d_DeadLetterSubject b)
      (dead_letter (d_Stream b) (d_Durable b) msg durable_exceeded (md_NumDelivered md))
      (λ x, asked_delay x (d_RetryDelay b)) (dispositions t) →
    durable_outcome (evt RMetadata (Ok md) :: t) (Done tt)
| do_executed md t1 t2 x r :
    md_NumDelivered md ≤ d_MaxDeliver b → acted ctx store c meta msg t1 x →
    count is_execute t2 = 0%nat →
    durable_after (md_NumDelivered md) x (dispositions t2) r →
    durable_outcome (evt RMetadata (Ok md) :: t1 ++ t2) r.

Hypothesis Hvalid : durable_valid b.
Hypothesis Hmax : in_int64 (d_MaxDeliver b).

Lemma durable_delay e :
  durableRetryDelay e (d_RetryDelay b) = asked_delay e (d_RetryDelay b) ∧ 0 < asked_delay e (d_RetryDelay b).
Proof.
  split; [apply asked_delay_retryAfter|]. rewrite <- asked_delay_retryAfter.
  pose proof (dv_retryDelay _ Hvalid). destruct (0 <? retryAfter e) eqn:E; go_bool; lia.
Qed.

Lemma durable_give_up e n (delay : error → Z) :
  (∀ x, 0 < delay x) →
  sat (err ← dlqConsumerMessage (ackContext ctx) (durable_as_consumer b) msg e n true;
       match err with
       | Some x => _ ← call (RNakWithDelay (ackContext ctx) (delay x)); mret (Done tt)
       | None => mret (Done tt)
       end)
    (λ t r, r = Done tt ∧ count is_execute t = 0%nat ∧
       given_up (d_DeadLetterSubject b) (dead_letter (d_Stream b) (d_Durable b) msg e n) delay (dispositions t)).
Proof.
  intros Hp. apply sat_bind. eapply sat_mono; [|apply dlq_sat]. cbn. intros t r [Hd Hc].
  pose proof (dv_deadLetter _ Hvalid) as Hs. apply str_empty_false in Hs. unfold given_up. rewrite Hs.
  destruct r as [x|].
  - intros y. cbn. split; [done|]. split; [by rewrite count_app, Hc|].
    exists (dispositions t), (Some x). split; [done|]. split; [done|].
    by rewrite dispositions_app.
  - cbn. rewrite app_nil_r. split; [done|]. split; [done|]. by exists (dispositions t), None.
Qed.

Lemma durable_sat : sat (handleDurableMessage ctx store c b meta msg) durable_outcome.
Proof.
  unfold handleDurableMessage. pose proof (dv_maxDeliver _ Hvalid) as Hm.
  apply sat_call. intros [md|e]; [|rewrite (proj1 (durable_delay _)); intros y; constructor; apply durable_delay].
  rewrite maxDeliverExceeded_spec by done.
  destruct (d_MaxDeliver b <? md_NumDelivered md) eqn:El; go_bool.
  - eapply sat_mono; [|apply (durable_give_up durable_exceeded (md_NumDelivered md)
                                (λ x, durableRetryDelay x (d_RetryDelay b)))].
    2:{ intros x. cbn beta. rewrite (proj1 (durable_delay x)). apply durable_delay. }
    cbn. intros t r (-> & Hc & Hg). apply do_exceeded; [done..|].
    eapply given_up_ext; [|exact Hg]. intros x. apply durable_delay.
  - apply sat_bind, sat_runs. intros t1 x Hx%run_action_acted.
    assert (Hgo : ∀ p : prog resp (gores unit),
      sat p (λ t2 r, count is_execute t2 = 0%nat ∧
                     durable_after (md_NumDelivered md) x (dispositions t2) r) →
      sat p (λ t2 r, durable_outcome (evt RMetadata (Ok md) :: t1 ++ t2) r)).
    { intros p. apply sat_mono. intros t2 r [H1 H2]. by eapply do_executed. }
    apply Hgo. clear Hgo. destruct x as [[e|]|]; [|by intros y|done].
    rewrite maxDeliverReached_spec by done. unfold durable_after.
    destruct (d_MaxDeliver b <=? md_NumDelivered md) eqn:Er; cbn [negb].
    + rewrite (proj2 (Z.ltb_ge _ _)) by (go_bool; lia).
      eapply sat_mono; [|apply (durable_give_up e (md_NumDelivered md) (λ _, d_RetryDelay b))].
      * cbn. intros t r (-> & Hc & Hg). done.
      * intros _. apply (dv_retryDelay _ Hvalid).
    + rewrite (proj2 (Z.ltb_lt _ _)) by (go_bool; lia). rewrite (proj1 (durable_delay e)). by intros y.
Qed.
End Durable.

(** ** Dead-letter message ids *)

(** The digits of a number hold no colon. *)
Definition no_colon (s : string) : Prop := ":"%char ∉ String.list_ascii_of_string s.

Lemma pretty_char_colon x : pretty_N_char x ≠ ":"%char.
Proof. unfold pretty_N_char. by repeat case_match. Qed.

Lemma pretty_go_colon x s : no_colon s → no_colon (pretty_N_go x s).
Proof.
  revert s. induction (N.lt_wf_0 x) as [x _ IH]. intros s Hs.
  destruct (decide (0 < x)%N) as [Hx|Hx].
  - rewrite pretty_N_go_step by done. apply IH; [apply N.div_lt; lia|].
    unfold no_colon in *. cbn. pose proof (pretty_char_colon (x `mod` 10)). set_solver.
  - assert (x = 0%N) as -> by lia. by rewrite pretty_N_go_0.
Qed.

Lemma pretty_no_colon (n : N) : no_colon (pretty n).
Proof.
  unfold pretty, pretty_N. case_decide; [unfold no_colon; cbn; set_solver|].
  apply pretty_go_colon. unfold no_colon. cbn. set_solver.
Qed.

Lemma split_last_colon (a1 a2 d1 d2 : list Ascii.ascii) :
  ":"%char ∉ d1 → ":"%char ∉ d2 → a1 ++ ":"%char :: d1 = a2 ++ ":"%char :: d2 → a1 = a2 ∧ d1 = d2.
Proof.
  revert a2. induction a1 as [|x a1 IH]; intros [|y a2] H1 H2 H; cbn in H; simplify_eq; [done| | |].
  - set_solver.
  - set_solver.
  - destruct (IH a2) as [-> ->]; done.
Qed.

Lemma dlqMsgID_inj m1 m2 :
  0 ≤ md_StreamSeq m1 → 0 ≤ md_StreamSeq m2 → dlqMsgID m1 = dlqMsgID m2 →
  md_Stream m1 = md_Stream m2 ∧ md_StreamSeq m1 = md_StreamSeq m2.
Proof.
  intros P1 P2 H. unfold dlqMsgID in H. apply (f_equal String.list_ascii_of_string) in H.
  assert (Happ : ∀ a b, String.list_ascii_of_string (a +:+ b)
                   = String.list_ascii_of_string a ++ String.list_ascii_of_string b).
  { induction a as [|x a IH]; intros b; [done|].
    change (x :: String.list_ascii_of_string (a +:+ b)
            = x :: (String.list_ascii_of_string a ++ String.list_ascii_of_string b)). by rewrite IH. }
  rewrite !Happ in H. cbn in H. apply split_last_colon in H as [Hs Hd]; [|apply pretty_no_colon..].
  apply (f_equal String.string_of_list_ascii) in Hs, Hd.
  rewrite !String.string_of_list_ascii_of_string in Hs, Hd. split; [done|].
  apply (inj pretty) in Hd. lia.
Qed.

(** ** Executions over redeliveries *)
Lemma sum_bounded (l : list nat) (n : nat) :
  (∀ i x, l !! i = Some x → (x ≤ 1)%nat ∧ (n ≤ i → x = 0)%nat) → (sum_list l ≤ n)%nat.
Proof.
  revert n. induction l as [|x l IH]; intros n H; [cbn; lia|].
  destruct (H 0%nat x eq_refl) as [H1 H2]. destruct n as [|n].
  - assert (x = 0%nat) as -> by (apply H2; lia). apply (IH 0%nat). intros i y Hy.
    destruct (H (S i) y Hy) as [H3 H4]. split; [done|]. intros _. apply H4. lia.
  - cbn. assert (sum_list l ≤ n)%nat; [|lia]. apply IH. intros i y Hy.
    destruct (H (S i) y Hy) as [H3 H4]. split; [done|]. intros Hi. apply H4. lia.
Qed.

Section Bounds.
Context {EM : ErrorModel} {K : Kernel EM} {JT : JsonText EM}.
Abbreviation evt := (@Ev req resp).

(** A run executes at most once, and only within the limit. *)
Definition executes_within (limit : Z) (tr : list (event resp)) : Prop :=
  count is_execute tr = 0%nat ∨
  (count is_execute tr ≤ 1)%nat ∧ ∃ md, evt RMetadata (Ok md) ∈ tr ∧ md_NumDelivered md ≤ limit.

Lemma executed_within ctx store c meta msg md t1 t2 x limit :
  md_NumDelivered md ≤ limit → acted ctx store c meta msg t1 x →
  count is_execute t2 = 0%nat → executes_within limit (evt RMetadata (Ok md) :: t1 ++ t2).
Proof.
  intros Hn Hx Hc. right.
  pose proof (acted_calm _ _ _ _ _ _ _ Hx) as [_ H1].
  split; [|exists md; set_solver].
  change (count is_execute (t1 ++ t2) ≤ 1)%nat. rewrite count_app. lia.
Qed.

Lemma consumer_executes ctx store c b meta msg tr r :
  (typed tr → consumer_outcome ctx store c b meta msg tr r) → typed tr →
  executes_within (c_MaxDeliver b) tr.
Proof.
  intros H Ht. destruct (H Ht); [by left|by left|by eapply executed_within].
Qed.

Lemma durable_executes ctx store c b meta msg tr r :
  durable_outcome ctx store c b meta msg tr r → executes_within (d_MaxDeliver b) tr.
Proof. intros []; [by left|by left|by eapply executed_within]. Qed.

Lemma bounded_by limit (hist : list (list (event resp))) :
  (∀ i tr md, hist !! i = Some tr → evt RMetadata (Ok md) ∈ tr → Z.of_nat i < md_NumDelivered md) →
  0 < limit → Forall (executes_within limit) hist →
  Z.of_nat (sum_list (count is_execute <$> hist)) ≤ limit.
Proof.
  intros Hnum Hl Hf. assert (sum_list (count is_execute <$> hist) ≤ Z.to_nat limit)%nat; [|lia].
  apply sum_bounded. intros i x Hx. rewrite list_lookup_fmap in Hx.
  destruct (hist !! i) as [tr|] eqn:Ei; cbn in Hx; simplify_eq.
  destruct (Forall_lookup_1 _ _ _ _ Hf Ei) as [H0|[H1 (md & Hmd & Hle)]].
  - rewrite H0. split; lia.
  - split; [done|]. intros Hi. pose proof (Hnum i tr md Ei Hmd). lia.
Qed.

(** A message was published to [s] under the id [i], successfully or not. *)
Definition published (tr : list (event resp)) (s i : string) : Prop :=
  ∃ c d x, evt (RJsPublish c s d i) x ∈ tr.

(** What the dead-letter path publishes. *)
Lemma dlq_published ctx b msg e n k tr r c s d i x :
  runs (dlqConsumerMessage ctx b msg e n k) tr r → evt (RJsPublish c s d i) x ∈ tr →
  ∃ md, evt RMetadata (Ok md) ∈ tr ∧ s = c_DeadLetterSubject b ∧ i = dlqMsgID md.
Proof.
  revert tr r. apply (proj1 (sat_runs _ (λ tr (_ : option error), evt (RJsPublish c s d i) x ∈ tr →
    ∃ md, evt RMetadata (Ok md) ∈ tr ∧ s = c_DeadLetterSubject b ∧ i = dlqMsgID md))).
  unfold dlqConsumerMessage. apply sat_call. intros now.
  destruct (json_Marshal_DeadLetter _); [|cbn; set_solver].
  apply sat_call. intros [md|err]; [|cbn; set_solver].
  assert (Hhead : ∀ payload y t, evt (RJsPublish c s d i) x ∈
      evt RNow now :: evt RMetadata (Ok md) ::
      evt (RJsPublish ctx (c_DeadLetterSubject b) payload (dlqMsgID md)) y :: t →
      evt (RJsPublish c s d i) x ∉ t →
    ∃ md', evt RMetadata (Ok md') ∈ (evt RNow now :: evt RMetadata (Ok md) ::
      evt (RJsPublish ctx (c_DeadLetterSubject b) payload (dlqMsgID md)) y :: t) ∧
      s = c_DeadLetterSubject b ∧ i = dlqMsgID md').
  { intros payload y t Hin Hn. exists md. split; [set_solver|].
    apply elem_of_cons in Hin as [Hin|Hin]; [by inversion Hin|].
    apply elem_of_cons in Hin as [Hin|Hin]; [by inversion Hin|].
    apply elem_of_cons in Hin as [Hin|Hin]; [by inversion Hin|done]. }
  apply sat_call. intros [err|]; [cbn; intros Hin; eapply Hhead; [exact Hin|set_solver]|].
  destruct k; [|cbn; intros Hin; eapply Hhead; [exact Hin|set_solver]].
  apply sat_call. intros [err|]; cbn; intros Hin; (eapply Hhead; [exact Hin|set_solver]).
Qed.
End Bounds.

Section Theorems.
Context {EM : ErrorModel} {K : Kernel EM} {JT : JsonText EM}.
Abbreviation evt := (@Ev req resp).

(** C4: Message disposition of pull consumers: for a binding that passes validation
    and acknowledges, every run of handleConsumerMessage is one of three: the
    metadata is unreadable and the message is redelivered; the delivery count exceeds
    MaxDeliver, the action is not run and the message is given up; or the action is run
    (one call of it, or a run of the idempotency layer), and the message is acknowledged
    exactly when it succeeded, redelivered below the limit, and given up at the limit.
    Giving up means: terminate without a dead-letter subject; otherwise publish the dead
    letter, with the message's data, there and then terminate, or redeliver if either
    failed, so a message is never terminated before its dead letter is stored.  The delay
    of every redelivery is positive: the RetryAfter of the error when it has one, else the
    entry of the backoff schedule for the delivery count, else one second. *)
Theorem consumer_disposes ctx store c b meta msg tr r :
  validateConsumerBinding b = None → c_AckPolicy b ≠ AckNone → in_int64 (c_MaxDeliver b) →
  runs (handleConsumerMessage ctx store c b meta msg) tr r → typed tr →
  consumer_outcome ctx store c b meta msg tr r.
Proof.
  intros Hv%validateConsumerBinding_none Ha Hm Hr Ht.
  by apply (proj1 (sat_runs _ _) (consumer_sat ctx store c b meta msg Hv Ha Hm)).
Qed.

(** C13: Message disposition of durable work: the same three cases for a DurableBinding
    that passes validation (which requires a dead-letter subject).  Every redelivery delay
    is positive; it is the RetryAfter of the error when that is positive and the binding's
    RetryDelay otherwise - of the mapped metadata error, of the action's error below the
    limit, of the dead-lettering error above it - and always RetryDelay when the dead
    letter of a failed action at the limit could not be delivered. *)
Theorem durable_disposes ctx store c b meta msg tr r :
  validateDurableBinding b = None → in_int64 (d_MaxDeliver b) →
  runs (handleDurableMessage ctx store c b meta msg) tr r →
  durable_outcome ctx store c b meta msg tr r.
Proof.
  intros Hv%validateDurableBinding_none Hm Hr.
  by apply (proj1 (sat_runs _ _) (durable_sat ctx store c b meta msg Hv Hm)).
Qed.

(** Fire-and-forget: with AckNone a validated consumer only runs the action, at
    most once; nothing is acknowledged, redelivered, terminated or dead-lettered. *)
Theorem acknone_only_executes ctx store c b meta msg tr r :
  validateConsumerBinding b = None → c_AckPolicy b = AckNone →
  runs (handleConsumerMessage ctx store c b meta msg) tr r →
  (∃ x, runs (run_action ctx store c meta msg) tr x ∧ (r = Panic ↔ x = Panic)) ∧
  dispositions tr = [] ∧ (count is_execute tr ≤ 1)%nat.
Proof.
  intros Hv%validateConsumerBinding_none Ha Hr. unfold handleConsumerMessage in Hr.
  pose proof (cv_deadLetter _ Hv Ha) as Hs. apply str_empty_true in Hs.
  rewrite bool_decide_true in Hr by done. apply runs_bind in Hr as (t1 & t2 & x & -> & H1 & H2).
  assert (t2 = [] ∧ (r = Panic ↔ x = Panic)) as [-> Hx].
  { destruct x as [[e|]|]; rewrite ?Hs in H2; cbn in H2; destruct H2 as [-> ->]; done. }
  rewrite app_nil_r. split; [by exists x|].
  exact (acted_calm _ _ _ _ _ _ _ (run_action_acted _ _ _ _ _ _ _ H1)).
Qed.

(** Dead letters are identified by the message they replace: every message that
    dlqConsumerMessage publishes goes to the dead-letter subject under the id
    "<stream>:<sequence>" of the failed message, and two dead letters have the same
    id only if they come from the same message of the same stream (whatever colons
    the stream name holds), so broker-side deduplication drops only repeats. *)
Theorem dead_letter_identified ctx1 b1 msg1 e1 n1 k1 tr1 r1 ctx2 b2 msg2 e2 n2 k2 tr2 r2 s1 i1 s2 i2 :
  runs (dlqConsumerMessage ctx1 b1 msg1 e1 n1 k1) tr1 r1 → published tr1 s1 i1 →
  runs (dlqConsumerMessage ctx2 b2 msg2 e2 n2 k2) tr2 r2 → published tr2 s2 i2 →
  s1 = c_DeadLetterSubject b1 ∧
  ∃ m1 m2, evt RMetadata (Ok m1) ∈ tr1 ∧ evt RMetadata (Ok m2) ∈ tr2 ∧ i1 = dlqMsgID m1 ∧
    (0 ≤ md_StreamSeq m1 → 0 ≤ md_StreamSeq m2 → i1 = i2 →
     md_Stream m1 = md_Stream m2 ∧ md_StreamSeq m1 = md_StreamSeq m2).
Proof.
  intros H1 (? & ? & ? & P1) H2 (? & ? & ? & P2).
  destruct (dlq_published _ _ _ _ _ _ _ _ _ _ _ _ _ H1 P1) as (m1 & M1 & -> & ->).
  destruct (dlq_published _ _ _ _ _ _ _ _ _ _ _ _ _ H2 P2) as (m2 & M2 & -> & ->).
  split; [done|]. exists m1, m2. do 3 (split; [done|]). apply dlqMsgID_inj.
Qed.

(** C5: The delivery limit bounds executions: over all the deliveries of one message
    (the i-th of which the broker numbers at least i), the action is executed at
    most MaxDeliver times in total, by a pull consumer as by a durable one, however
    the calls fail and whether or not idempotency is enabled. *)
Theorem executions_bounded ctx store c meta msg (hist : list (list (event resp))) :
  (∀ i tr md, hist !! i = Some tr → evt RMetadata (Ok md) ∈ tr → Z.of_nat i < md_NumDelivered md) →
  (∀ b, validateConsumerBinding b = None → c_AckPolicy b ≠ AckNone → in_int64 (c_MaxDeliver b) →
     Forall (λ tr, typed tr ∧ ∃ r, runs (handleConsumerMessage ctx store c b meta msg) tr r) hist →
     Z.of_nat (sum_list (count is_execute <$> hist)) ≤ c_MaxDeliver b) ∧
  (∀ b, validateDurableBinding b = None → in_int64 (d_MaxDeliver b) →
     Forall (λ tr, ∃ r, runs (handleDurableMessage ctx store c b meta msg) tr r) hist →
     Z.of_nat (sum_list (count is_execute <$> hist)) ≤ d_MaxDeliver b).
Proof.
  intros Hnum. split.
  - intros b Hv Ha Hm Hf. apply validateConsumerBinding_none in Hv.
    apply (bounded_by (c_MaxDeliver b) hist Hnum); [apply Hv|].
    eapply Forall_impl; [exact Hf|]. cbn. intros tr [Ht [r Hr]].
    eapply consumer_executes; [|exact Ht].
    exact (proj1 (sat_runs _ _) (consumer_sat ctx store c b meta msg Hv Ha Hm) _ _ Hr).
  - intros b Hv Hm Hf. apply validateDurableBinding_none in Hv.
    apply (bounded_by (d_MaxDeliver b) hist Hnum); [apply Hv|].
    eapply Forall_impl; [exact Hf|]. cbn. intros tr [r Hr]. eapply durable_executes.
    exact (proj1 (sat_runs _ _) (durable_sat ctx store c b meta msg Hv Hm) _ _ Hr).
Qed.
End Theorems.

(** ** Runs on the in-memory world *)
Section Witnesses.
Import GoErr JsonModel.

Definition orders : ConsumerBinding := ToDeadLetter (Consumer "ORDERS" "orders.new" "worker") "orders.dead".
Definition jobs : DurableBinding := DurableWork "JOBS" "jobs.run" "worker" "jobs.dead".
Definition notices : ConsumerBinding := WithAckPolicy (Consumer "NOTICES" "n" "worker") AckNone.
Definition a_msg : Msg := mkMsg "orders.new" "" "data" None.
Definition m0 : mem := mkMem empty_view 5 0.

Definition run_orders : prog resp (gores unit) :=
  handleConsumerMessage (Caller 0) LegacyStore (Some codec_Default) orders None a_msg.
Definition run_jobs : prog resp (gores unit) :=
  handleDurableMessage (Caller 0) LegacyStore (Some codec_Default) jobs None a_msg.
Definition run_notices : prog resp (gores unit) :=
  handleConsumerMessage (Caller 0) LegacyStore (Some codec_Default) notices None a_msg.

(** The metadata a trace holds. *)
Definition metadata_of (e : event resp) : option (result error MsgMetadata) :=
  match ev_req e as r return resp r → option (result error MsgMetadata) with
  | RMetadata => λ x, Some x
  | _ => λ _, None
  end (ev_resp e).

Lemma run_orders_trace : exec_trace mem_handler run_orders m0 =
  [@Ev req resp RMetadata (Ok (mkMeta 1 "stream" 1));
   @Ev req resp (RExecute (Caller 0)) (Done (Ok "done"));
   @Ev req resp (RAckSync (ackContext (Caller 0))) None].
Proof. reflexivity. Qed.

Lemma run_orders_metadata md :
  @Ev req resp RMetadata (Ok md) ∈ exec_trace mem_handler run_orders m0 → md = mkMeta 1 "stream" 1.
Proof.
  rewrite run_orders_trace, !elem_of_cons. intros [H|[H|[H|H]]]; [..|by apply elem_of_nil in H];
    apply (f_equal metadata_of) in H; cbn in H; congruence.
Qed.

Lemma run_orders_typed : typed (exec_trace mem_handler run_orders m0).
Proof. intros md ->%run_orders_metadata. vm_compute. intuition congruence. Qed.

Lemma consumer_disposes_witness :
  exec_result mem_handler run_orders m0 = Done tt ∧
  consumer_outcome (Caller 0) LegacyStore (Some codec_Default) orders None a_msg
    (exec_trace mem_handler run_orders m0) (Done tt).
Proof.
  split; [reflexivity|].
  apply (consumer_disposes (Caller 0) LegacyStore (Some codec_Default) orders None a_msg);
    [reflexivity|done|vm_compute; intuition congruence| |apply run_orders_typed].
  exact (exec_is_run mem_handler run_orders m0).
Defined.

Lemma durable_disposes_witness :
  exec_result mem_handler run_jobs m0 = Done tt ∧
  durable_outcome (Caller 0) LegacyStore (Some codec_Default) jobs None a_msg
    (exec_trace mem_handler run_jobs m0) (Done tt).
Proof.
  split; [reflexivity|].
  apply (durable_disposes (Caller 0) LegacyStore (Some codec_Default) jobs None a_msg);
    [reflexivity|vm_compute; intuition congruence|].
  exact (exec_is_run mem_handler run_jobs m0).
Defined.

Lemma acknone_only_executes_witness :
  exec_result mem_handler run_notices m0 = Done tt ∧
  dispositions (exec_trace mem_handler run_notices m0) = [] ∧
  (count is_execute (exec_trace mem_handler run_notices m0) ≤ 1)%nat.
Proof.
  split; [reflexivity|].
  apply (acknone_only_executes (Caller 0) LegacyStore (Some codec_Default) notices None a_msg
           (exec_trace mem_handler run_notices m0) (Done tt)); [reflexivity|done|].
  exact (exec_is_run mem_handler run_notices m0).
Defined.

Definition dead_run : prog resp (option error) :=
  dlqConsumerMessage (Caller 0) orders a_msg consumer_exceeded 6 true.

Lemma dead_letter_identified_witness :
  published (exec_trace mem_handler dead_run m0) "orders.dead" "stream:1" ∧
  ∃ m, @Ev req resp RMetadata (Ok m) ∈ exec_trace mem_handler dead_run m0 ∧ "stream:1" = dlqMsgID m.
Proof.
  pose proof (exec_is_run mem_handler dead_run m0) as R. unfold dead_run in R at 1.
  assert (P : published (exec_trace mem_handler dead_run m0) "orders.dead" "stream:1").
  { do 3 eexists. apply (list_elem_of_lookup_2 _ 2). reflexivity. }
  split; [exact P|].
  destruct (dead_letter_identified (Caller 0) orders a_msg consumer_exceeded 6 true
    (exec_trace mem_handler dead_run m0) (exec_result mem_handler dead_run m0)
    (Caller 0) orders a_msg consumer_exceeded 6 true
    (exec_trace mem_handler dead_run m0) (exec_result mem_handler dead_run m0)
    "orders.dead" "stream:1" "orders.dead" "stream:1" R P R P) as (_ & m1 & m2 & H1 & _ & H2 & _).
  by exists m1.
Defined.

Lemma executions_bounded_witness :
  Z.of_nat (sum_list (count is_execute <$> [exec_trace mem_handler run_orders m0])) ≤ 5.
Proof.
  destruct (executions_bounded (Caller 0) LegacyStore (Some codec_Default) None a_msg
              [exec_trace mem_handler run_orders m0]) as [H _].
  - intros [|i] tr md Hi Hin; [|done]. cbn in Hi. injection Hi as <-.
    by rewrite (run_orders_metadata md Hin).
  - apply (H orders); [reflexivity|done|vm_compute; intuition congruence|].
    constructor; [|constructor]. split; [apply run_orders_typed|]. eexists.
    exact (exec_is_run mem_handler run_orders m0).
Defined.
End Witnesses.
