(* ===== verification/KVOps.v ===== *)
(** * Key-value operations (src/tnats/kv_operations.go)

    GetKV, PutKV, CreateKV, UpdateKV and DeleteKV: validation, the bucket handle, one
    call to the bucket, and the mapping of its error. *)

From S2P Require Import Prelude Effects Errors World.

Local Open Scope Z_scope.

Section KVOps.
Context {EM : ErrorModel} {K : Kernel EM}.

Record KVEntry := mkKVE {
  kve_Bucket : string; kve_Key : string; kve_Value : string; kve_Revision : Z; kve_Created : Z }.

Definition kvEntry (entry : KeyValueEntry) : KVEntry :=
  {| kve_Bucket := ke_Bucket entry; kve_Key := ke_Key entry; kve_Value := ke_Value entry;
     kve_Revision := ke_Revision entry; kve_Created := ke_Created entry |}.

Definition bad_request (msg : string) : error := xerr_new KindBadRequest msg None.

(** The bucket handle is named by the bucket; [None]: it is there. *)
Definition keyValue (ctx : context) (bucket : string) : prog resp (option error) :=
  if str_empty bucket then mret (Some (bad_request "nats kv: bucket is required"))
  else
    nc ← call (REnsureConn ctx);
    match nc with
    | Err err => mret (Some err)
    | Ok nc =>
        err ← call (RJetstreamNew nc);
        match err with
        | Some err => mret (Some (mapError err))
        | None =>
            err ← call (RJsKeyValue ctx bucket);
            match err with
            | Some err => mret (Some (mapKVErr err bucket ""))
            | None => mret None
            end
        end
    end.

(** The last two statements of every operation. *)
Definition mapped {A B} (bucket key : string) (f : A → B) (r : result error A) : result error B :=
  match r with
  | Ok a => Ok (f a)
  | Err err => Err (mapKVErr err bucket key)
  end.

Definition GetKV (ctx : context) (bucket key : string) : prog resp (result error KVEntry) :=
  if str_empty key then mret (Err (bad_request "nats kv: key is required"))
  else
    err ← keyValue ctx bucket;
    match err with
    | Some err => mret (Err err)
    | None => entry ← call (RJkGet ctx bucket key); mret (mapped bucket key kvEntry entry)
    end.

Definition PutKV (ctx : context) (bucket key val : string) : prog resp (result error Z) :=
  if str_empty key then mret (Err (bad_request "nats kv: key is required"))
  else
    err ← keyValue ctx bucket;
    match err with
    | Some err => mret (Err err)
    | None => revision ← call (RJkPut ctx bucket key val); mret (mapped bucket key id revision)
    end.

Definition CreateKV (ctx : context) (bucket key val : string) (ttl : Z) : prog resp (result error Z) :=
  if str_empty key then mret (Err (bad_request "nats kv: key is required"))
  else if ttl <? 0 then mret (Err (bad_request "nats kv: ttl must not be negative"))
  else
    err ← keyValue ctx bucket;
    match err with
    | Some err => mret (Err err)
    | None =>
        revision ← call (RJkCreate ctx bucket key val (if 0 <? ttl then Some ttl else None));
        mret (mapped bucket key id revision)
    end.

Definition UpdateKV (ctx : context) (bucket key val : string) (expectedRevision : Z)
    : prog resp (result error Z) :=
  if str_empty key then mret (Err (bad_request "nats kv: key is required"))
  else if expectedRevision =? 0
       then mret (Err (bad_request "nats kv: expected revision must be greater than zero"))
  else
    err ← keyValue ctx bucket;
    match err with
    | Some err => mret (Err err)
    | None =>
        revision ← call (RJkUpdate ctx bucket key val expectedRevision);
        mret (mapped bucket key id revision)
    end.

Definition DeleteKV (ctx : context) (bucket key : string) (expectedRevision : option Z)
    : prog resp (option error) :=
  if str_empty key then mret (Some (bad_request "nats kv: key is required"))
  else
    err ← keyValue ctx bucket;
    match err with
    | Some err => mret (Some err)
    | None =>
        match expectedRevision with
        | Some 0 => mret (Some (bad_request "nats kv: expected revision must be greater than zero"))
        | _ =>
            err ← call (RJkDelete ctx bucket key expectedRevision);
            match err with
            | Some err => mret (Some (mapKVErr err bucket key))
            | None => mret None
            end
        end
    end.

(** ** Theorems *)
Abbreviation evt := (@Ev req resp).

(** What a call wrote to a bucket. *)
Inductive kvwrite :=
| WPut (bucket key val : string) (revision : Z)
| WCreate (bucket key val : string) (keyTTL : option Z) (revision : Z)
| WUpdate (bucket key val : string) (expected revision : Z)
| WDelete (bucket key : string) (expected : option Z).

Definition write_of (e : event resp) : option kvwrite :=
  match ev_req e as r return resp r → option kvwrite with
  | RJkPut _ b k v => λ x, match x with Ok n => Some (WPut b k v n) | Err _ => None end
  | RJkCreate _ b k v ttl => λ x, match x with Ok n => Some (WCreate b k v ttl n) | Err _ => None end
  | RJkUpdate _ b k v r => λ x, match x with Ok n => Some (WUpdate b k v r n) | Err _ => None end
  | RJkDelete _ b k r => λ x, match x with None => Some (WDelete b k r) | Some _ => None end
  | _ => λ _, None
  end (ev_resp e).

Definition writes (tr : list (event resp)) : list kvwrite := omap write_of tr.

Lemma keyValue_sat ctx bucket :
  sat (keyValue ctx bucket) (λ tr r, writes tr = [] ∧ (r = None → bucket ≠ "")).
Proof.
  unfold keyValue. destruct (str_empty bucket) eqn:E; [done|].
  go_bool. cbn. intros [nc|e]; [|done]. intros [e|]; [done|]. by intros [e|].
Qed.

(** An operation: after the handle, one call. *)
Lemma operation_sat {A} ctx bucket (f : error → A) (p : prog resp A) (Q : list kvwrite → A → Prop) :
  (∀ e, Q [] (f e)) → (bucket ≠ "" → sat p (λ tr r, Q (writes tr) r)) →
  sat (err ← keyValue ctx bucket; match err with Some e => mret (f e) | None => p end)
    (λ tr r, Q (writes tr) r).
Proof.
  intros He Hp. apply sat_bind. eapply sat_mono; [|apply keyValue_sat]. cbn beta.
  intros t [e|] [Ht Hb].
  - cbn. rewrite app_nil_r, Ht. apply He.
  - eapply sat_mono; [|by apply Hp, Hb]. cbn beta. intros t' r H.
    unfold writes in *. by rewrite omap_app, Ht.
Qed.

Lemma PutKV_sat ctx bucket key val :
  sat (PutKV ctx bucket key val) (λ tr r,
    match r with Ok n => writes tr = [WPut bucket key val n] | Err _ => writes tr = [] end).
Proof.
  unfold PutKV. destruct (str_empty key); [done|].
  apply (operation_sat ctx bucket Err _ (λ w r, match r with Ok n => w = [WPut bucket key val n] | Err _ => w = [] end));
    [done|]. intros _. by intros [n|e].
Qed.

Lemma CreateKV_sat ctx bucket key val ttl :
  sat (CreateKV ctx bucket key val ttl) (λ tr r,
    match r with
    | Ok n => 0 ≤ ttl ∧ writes tr = [WCreate bucket key val (if 0 <? ttl then Some ttl else None) n]
    | Err _ => writes tr = []
    end).
Proof.
  unfold CreateKV. destruct (str_empty key); [done|]. destruct (ttl <? 0) eqn:Et; [done|]. go_bool.
  apply (operation_sat ctx bucket Err _ (λ w r, match r with
    | Ok n => 0 ≤ ttl ∧ w = [WCreate bucket key val (if 0 <? ttl then Some ttl else None) n] | Err _ => w = [] end));
    [done|]. intros _. by intros [n|e].
Qed.

Lemma UpdateKV_sat ctx bucket key val rev :
  sat (UpdateKV ctx bucket key val rev) (λ tr r,
    match r with Ok n => rev ≠ 0 ∧ writes tr = [WUpdate bucket key val rev n] | Err _ => writes tr = [] end).
Proof.
  unfold UpdateKV. destruct (str_empty key); [done|]. destruct (rev =? 0) eqn:Er; [done|]. go_bool.
  apply (operation_sat ctx bucket Err _ (λ w r, match r with
    | Ok n => rev ≠ 0 ∧ w = [WUpdate bucket key val rev n] | Err _ => w = [] end));
    [done|]. intros _. by intros [n|e].
Qed.

Lemma DeleteKV_sat ctx bucket key orev :
  sat (DeleteKV ctx bucket key orev) (λ tr r,
    match r with None => orev ≠ Some 0 ∧ writes tr = [WDelete bucket key orev] | Some _ => writes tr = [] end).
Proof.
  unfold DeleteKV. destruct (str_empty key); [done|].
  apply (operation_sat ctx bucket Some _ (λ w r, match r with
    | None => orev ≠ Some 0 ∧ w = [WDelete bucket key orev] | Some _ => w = [] end));
    [done|]. intros _. destruct orev as [[|p|p]|]; cbn; try done; by intros [e|].
Qed.


(** The kinds that callers see. *)
Definition kv_kind (s : sentinel) : option Kind :=
  match s with
  | jetstream_ErrBucketNotFound | jetstream_ErrKeyNotFound => Some KindNotFound
  | jetstream_ErrKeyExists | jetstream_ErrKeyRevisionMismatch => Some KindConflict
  | jetstream_ErrInvalidKey | jetstream_ErrInvalidBucketName => Some KindBadRequest
  | _ => None
  end.

(** The kind of a failed key-value operation tells the caller what to do: a
    missing bucket or key is NotFound, an existing key or a lost compare-and-set is
    Conflict, a malformed name is BadRequest; and the cause stays visible to errors.Is.
    The code's order of tests does not matter: it holds of every error that is one of
    these sentinels only. *)
Theorem mapKVErr_kinds `{!ErrorLaws EM} err bucket key s k :
  (∀ s', errors_Is err s' = true ↔ s' = s) → kv_kind s = Some k →
  xerr_KindFrom (mapKVErr err bucket key) = k ∧ errors_Is (mapKVErr err bucket key) s = true.
Proof.
  intros Hs Hk. assert (Ht : errors_Is err s = true) by (by apply Hs).
  assert (Hf : ∀ s', s' ≠ s → errors_Is err s' = false).
  { intros s' Hn. destruct (errors_Is err s') eqn:E; [|done]. by apply Hs in E. }
  unfold mapKVErr. destruct s; try done; rewrite ?Hf, ?Ht by done; injection Hk as <-;
    cbn; (split; [apply kind_new|by apply is_cause]).
Qed.
End KVOps.

Section Witnesses.
Import GoErr.

Lemma mapKVErr_kinds_witness :
  xerr_KindFrom (mapKVErr (EWrap "update" (ESentinel jetstream_ErrKeyRevisionMismatch) : error) "b" "k")
  = KindConflict.
Proof.
  apply (mapKVErr_kinds (EWrap "update" (ESentinel jetstream_ErrKeyRevisionMismatch) : @error GoErr.model)
    "b" "k" jetstream_ErrKeyRevisionMismatch KindConflict).
  - intros s'. cbn. rewrite bool_decide_eq_true. split; congruence.
  - reflexivity.
Defined.
End Witnesses.
