(* ===== verification/Objects.v ===== *)
(** * Object store transfers (src/tnats/objectstore.go)

    Reading an object under a limit, and PutObject, GetObject, GetObjectLimited,
    DeleteObject.  An object's reader is its content and how it ends ([None]: EOF); how
    much of it is read is the code's business ([io_CopyN]). *)

From S2P Require Import Prelude Effects Errors Bindings World MemKV KVOps.

Local Open Scope Z_scope.

Definition defaultObjectLimit : Z := 8 * 1024 * 1024.

Definition str_len (s : string) : Z := Z.of_nat (String.length s).

Lemma substring_length n s : String.length (String.substring 0 n s) = (n `min` String.length s)%nat.
Proof.
  revert n. induction s as [|a s IH]; intros [|n]; cbn; try done.
  by rewrite IH.
Qed.

Lemma substring_all n s : (String.length s ≤ n)%nat → String.substring 0 n s = s.
Proof.
  revert n. induction s as [|a s IH]; intros [|n]; cbn; intros H; try done; [lia|].
  rewrite IH; [done|lia].
Qed.

Section Objects.
Context {EM : ErrorModel} {K : Kernel EM}.

(** if maxBytes <= 0 { maxBytes = 8 * 1024 * 1024 } *)
Definition effectiveLimit (maxBytes : Z) : Z := if maxBytes <=? 0 then defaultObjectLimit else maxBytes.

(** io.CopyN into a buffer: the bytes copied, and the error.  No more than [n] bytes
    are taken from the reader; EOF before [n] bytes is reported as io.EOF. *)
Definition io_CopyN (n : Z) (src : string * option error) : string * option error :=
  let '(content, ends) := src in
  if str_len content <? n
  then (content, Some (match ends with Some e => e | None => sentinel_error io_EOF end))
  else (String.substring 0 (Z.to_nat n) content, None).

Definition too_large : error := bad_request "object read limit is too large".

Definition readObjectBytes (ctx : context) (bucket name : string) (maxBytes : Z)
    : prog resp (result error string) :=
  let maxBytes := effectiveLimit maxBytes in
  if maxBytes =? int64_max then mret (Err too_large)
  else
    obj ← call (RObjGet ctx bucket name);
    match obj with
    | Err err => mret (Err (mapError err))
    | Ok obj =>
        let n := wrap_int64 (maxBytes + 1) in
        src ← call (RObjRead obj n);
        let '(buf, readErr) := io_CopyN n src in
        closeErr ← call (RObjClose obj);
        let finish :=
          match closeErr with
          | Some e => Err (mapError e)
          | None =>
              if maxBytes <? str_len buf
              then Err (bad_request ("object " +:+ strconv_Quote name +:+ " exceeds limit of "
                                     +:+ pretty maxBytes +:+ " bytes"))
              else Ok buf
          end in
        match readErr with
        | Some e =>
            if negb (errors_Is e io_EOF) then mret (Err (mapError (errors_Join e closeErr)))
            else mret finish
        | None => mret finish
        end
    end.

Definition need_names : error := bad_request "objectstore requires a bucket and object name".

(** The context and the names are checked before anything is called. *)
Definition checked {A} (ctx : context) (bucket name : string) (p : prog resp (result error A))
    : prog resp (result error A) :=
  err ← ctx_Err ctx;
  match err with
  | Some e => mret (Err e)
  | None => if (str_empty bucket || str_empty name)%bool then mret (Err need_names) else p
  end.

(** EnsureConn, ensureJetStream, js.ObjectStore(bucket). *)
Definition objectStore (ctx : context) (bucket : string) : prog resp (option error) :=
  nc ← call (REnsureConn ctx);
  match nc with
  | Err err => mret (Some err)
  | Ok _ =>
      err ← call REnsureJetStream;
      match err with
      | Some err => mret (Some err)
      | None =>
          err ← call (RObjectStore bucket);
          match err with
          | Some err => mret (Some (mapError err))
          | None => mret None
          end
      end
  end.

Definition PutObject (ctx : context) (bucket name data : string) : prog resp (result error ObjectInfo) :=
  checked ctx bucket name
    (err ← objectStore ctx bucket;
     match err with
     | Some err => mret (Err err)
     | None =>
         info ← call (RObjPutBytes ctx bucket name data);
         match info with
         | Err err => mret (Err (mapError err))
         | Ok info => mret (Ok info)
         end
     end).

Definition GetObjectLimited (ctx : context) (bucket name : string) (maxBytes : Z)
    : prog resp (result error string) :=
  checked ctx bucket name
    (let maxBytes := effectiveLimit maxBytes in
     if maxBytes =? int64_max then mret (Err too_large)
     else
       err ← objectStore ctx bucket;
       match err with
       | Some err => mret (Err err)
       | None => readObjectBytes ctx bucket name maxBytes
       end).

Definition GetObject (ctx : context) (bucket name : string) : prog resp (result error string) :=
  GetObjectLimited ctx bucket name defaultObjectLimit.

Definition DeleteObject (ctx : context) (bucket name : string) : prog resp (option error) :=
  r ← checked ctx bucket name
    (nc ← call (REnsureConn ctx);
     match nc with
     | Err err => mret (Err err)
     | Ok nc =>
         err ← call (RJetstreamNew nc);
         match err with
         | Some err => mret (Err (mapError err))
         | None =>
             err ← call (RJsObjectStore ctx bucket);
             match err with
             | Some err => mret (Err (mapError err))
             | None =>
                 err ← call (RJoDelete ctx bucket name);
                 match MapError err with
                 | Some err => mret (Err err)
                 | None => mret (Ok tt)
                 end
             end
         end
     end);
  mret (match r with Ok _ => None | Err err => Some err end).

(** ** Theorems *)
Abbreviation evt := (@Ev req resp).

Lemma effectiveLimit_pos m : 0 < effectiveLimit m.
Proof. unfold effectiveLimit, defaultObjectLimit. destruct (m <=? 0) eqn:E; go_bool; lia. Qed.

Lemma effectiveLimit_int64 m : in_int64 m → in_int64 (effectiveLimit m).
Proof.
  unfold effectiveLimit, defaultObjectLimit, in_int64, int64_max, int64_min.
  destruct (m <=? 0); lia.
Qed.

Lemma effectiveLimit_idem m : effectiveLimit (effectiveLimit m) = effectiveLimit m.
Proof.
  pose proof (effectiveLimit_pos m). unfold effectiveLimit at 1.
  destruct (_ <=? 0) eqn:E; go_bool; [lia|done].
Qed.

(** The reader ends normally. *)
Definition at_EOF (ends : option error) : Prop :=
  match ends with Some e => errors_Is e io_EOF = true | None => True end.

(** The limit of a read: 8 MiB unless a positive one is given. *)
Definition read_limit (maxBytes : Z) : Z := if 0 <? maxBytes then maxBytes else 8388608.

Lemma read_limit_effective m : effectiveLimit m = read_limit m.
Proof.
  unfold effectiveLimit, read_limit, defaultObjectLimit.
  destruct (m <=? 0) eqn:E1, (0 <? m) eqn:E2; go_bool; done || lia.
Qed.

(** The calls of a read that opened the object: it asks for [limit + 1] bytes and closes. *)
Definition reading (ctx : context) (bucket name : string) (limit : Z) (obj : nat)
    (src : string * option error) (c : option error) : list (event resp) :=
  [evt (RObjGet ctx bucket name) (Ok obj); evt (RObjRead obj (limit + 1)) src; evt (RObjClose obj) c].

(** What a read comes to. *)
Definition read_ok (ctx : context) (bucket name : string) (limit : Z)
    (tr : list (event resp)) (r : result error string) : Prop :=
  match r with
  | Ok data => limit < int64_max ∧ str_len data ≤ limit ∧
      ∃ obj ends, at_EOF ends ∧ tr = reading ctx bucket name limit obj (data, ends) None
  | Err e =>
      (tr = [] ∧ limit = int64_max ∧ xerr_KindFrom e = KindBadRequest) ∨
      limit < int64_max ∧
      ((∃ e0, tr = [evt (RObjGet ctx bucket name) (Err e0)]) ∨
       ∃ obj content ends c, tr = reading ctx bucket name limit obj (content, ends) c ∧
         (c ≠ None ∨ limit < str_len content ∨ ¬ at_EOF ends))
  end.

(** After the copy: the two error tests and the test of the length. *)
Lemma copied_result `{!ErrorLaws EM} limit content ends c buf readErr name :
  0 < limit → io_CopyN (limit + 1) (content, ends) = (buf, readErr) →
  let finish :=
    match c with
    | Some e => Err (mapError e)
    | None => if limit <? str_len buf
              then Err (bad_request ("object " +:+ strconv_Quote name +:+ " exceeds limit of "
                                     +:+ pretty limit +:+ " bytes"))
              else Ok buf
    end in
  match match readErr with
        | Some e => if negb (errors_Is e io_EOF) then Err (mapError (errors_Join e c)) else finish
        | None => finish
        end with
  | Ok data => c = None ∧ data = content ∧ str_len content ≤ limit ∧ at_EOF ends
  | Err _ => c ≠ None ∨ limit < str_len content ∨ ¬ at_EOF ends
  end.
Proof.
  intros Hp. unfold io_CopyN. destruct (str_len content <? limit + 1) eqn:El; intros [= <- <-]; cbv zeta; go_bool.
  - destruct (errors_Is (match ends with Some e => e | None => sentinel_error io_EOF end) io_EOF) eqn:Ee; cbn [negb].
    + destruct c as [e|]; [by left|]. rewrite (proj2 (Z.ltb_ge _ _)) by lia.
      split; [done|]. split; [done|]. split; [lia|]. by destruct ends.
    + right; right. destruct ends as [e|]; cbn; [by rewrite Ee|]. by rewrite is_sentinel in Ee.
  - destruct c as [e|]; [by left|].
    assert (H : limit < str_len (String.substring 0 (Z.to_nat (limit + 1)) content)).
    { unfold str_len in *. rewrite substring_length. lia. }
    rewrite (proj2 (Z.ltb_lt _ _) H). right; left. lia.
Qed.

Lemma readObjectBytes_sat `{!ErrorLaws EM} ctx bucket name maxBytes :
  in_int64 maxBytes →
  sat (readObjectBytes ctx bucket name maxBytes) (read_ok ctx bucket name (read_limit maxBytes)).
Proof.
  intros H64. pose proof (effectiveLimit_pos maxBytes) as Hp.
  pose proof (effectiveLimit_int64 _ H64) as H64'. rewrite read_limit_effective in Hp, H64'.
  unfold readObjectBytes. rewrite read_limit_effective. set (limit := read_limit maxBytes) in *. cbv zeta.
  destruct (limit =? int64_max) eqn:El; go_bool.
  { left. split; [done|]. split; [done|]. apply kind_new. }
  assert (Hl : limit < int64_max) by (unfold in_int64 in H64'; lia).
  rewrite wrap_int64_id by (unfold in_int64, int64_min in *; lia).
  apply sat_call. intros [obj|e]; [|right; split; [done|left; by eexists]].
  apply sat_call. intros [content ends]. destruct (io_CopyN (limit + 1) (content, ends)) as [buf readErr] eqn:Ec.
  apply sat_call. intros c. pose proof (copied_result limit content ends c buf readErr name Hp Ec) as Hr. cbv zeta in Hr.
  assert (Hm : ∀ r : result error string,
    match r with
    | Ok data => c = None ∧ data = content ∧ str_len content ≤ limit ∧ at_EOF ends
    | Err _ => c ≠ None ∨ limit < str_len content ∨ ¬ at_EOF ends
    end → read_ok ctx bucket name limit (reading ctx bucket name limit obj (content, ends) c) r).
  { intros [data|e] Hd; [destruct Hd as (-> & -> & Hs & He); split; [done|]; split; [done|]; by exists obj, ends|].
    right. split; [done|]. right. by exists obj, content, ends, c. }
  destruct readErr as [e|]; [destruct (negb (errors_Is e io_EOF))|]; by apply Hm.
Qed.

(** C25: A read is whole and bounded, for any int64 argument: the limit is the argument, or
    8 MiB when it is not positive.  If the limit is the largest int64, nothing is called
    and the error is a BadRequest; otherwise an object that was opened is asked for
    exactly limit + 1 bytes (a number that does not overflow) and closed, once, whatever
    happens.  Data is returned exactly when the object was opened, its entire content
    reached its EOF within the limit and the close succeeded; it is then that entire
    content, never a truncated one. *)
Theorem readObjectBytes_whole `{!ErrorLaws EM} ctx bucket name maxBytes :
  in_int64 maxBytes →
  sat (readObjectBytes ctx bucket name maxBytes) (read_ok ctx bucket name (read_limit maxBytes)).
Proof. apply readObjectBytes_sat. Qed.
End Objects.

(** The example object of MemKV's world. *)
Section Witnesses.
Import GoErr.

Lemma readObjectBytes_whole_witness :
  exec_result mem_handler (readObjectBytes Background "b" "n" 0) (mkMem empty_view 0 0) = Ok "object" ∧
  sat (readObjectBytes Background "b" "n" int64_max) (read_ok Background "b" "n" int64_max) ∧
  ∃ obj ends, at_EOF ends ∧
    exec_trace mem_handler (readObjectBytes Background "b" "n" 0) (mkMem empty_view 0 0) =
    reading Background "b" "n" 8388608 obj ("object", ends) None.
Proof.
  split; [by vm_compute|]. split.
  - apply (readObjectBytes_whole Background "b" "n" int64_max). unfold in_int64, int64_min, int64_max. lia.
  - pose proof (readObjectBytes_whole Background "b" "n" 0 ltac:(unfold in_int64, int64_min, int64_max; lia)) as H.
    pose proof (proj1 (sat_runs _ _) H _ _ (exec_is_run mem_handler _ (mkMem empty_view 0 0))) as H1.
    exact (proj2 (proj2 H1)).
Defined.
End Witnesses.
