(* ===== verification/Watch.v ===== *)
(** * Watchers (src/tnats/tnats_kv.go, objectstore.go)

    mountKV and mountObjectStore open a watcher and start a goroutine that hands its
    updates to the action, and reopens it with a growing delay when it ends.  The two
    files have the same loop: [Loop] has it once, over the watcher's own operations. *)

From S2P Require Import Prelude Effects Errors Subjects Bindings World KVOps Objects Streams.

Local Open Scope Z_scope.

Section Watch.
Context {EM : ErrorModel} {K : Kernel EM}.

(** ** The loop of watchKV and watchObjectStore *)
Definition initialBackoff : Z := 100 * time_Millisecond.
Definition maxBackoff : Z := 5 * time_Second.

(** The delay after a failure to reopen. *)
Definition nextBackoff (backoff : Z) : Z :=
  if backoff <? maxBackoff then
    let doubled := backoff * 2 in
    if maxBackoff <? doubled then maxBackoff else doubled
  else backoff.

Section Loop.
Context (ctx : context) (open : prog resp (result error nat))
  (consume : nat → nat → prog resp (gores (option unit))).

(** The inner loop, for at most [fuel] attempts: the next watcher, [Some None] when
    the context ended, [None] when still trying. *)
Fixpoint reopen (fuel : nat) (backoff : Z) : prog resp (option (option nat)) :=
  match fuel with
  | O => mret None
  | S fuel' =>
      waited ← call (RSleep ctx backoff);
      if negb waited then mret (Some None)
      else
        nextWatcher ← open;
        match nextWatcher with
        | Err _ => reopen fuel' (nextBackoff backoff)
        | Ok w => mret (Some (Some w))
        end
  end.

(** The outer loop, for at most [fuel] watchers; each is consumed and reopened with
    [fuel] turns as well. *)
Fixpoint watch_loop (fuel turns : nat) (watcher : nat) : prog resp (gores (option unit)) :=
  match fuel with
  | O => mret (Done None)
  | S fuel' =>
      r ← consume turns watcher;
      match r with
      | Panic => mret Panic
      | Done None => mret (Done None)
      | Done (Some _) =>
          ctxErr ← ctx_Err ctx;
          match ctxErr with
          | Some _ => mret (Done (Some tt))
          | None =>
              next ← reopen turns initialBackoff;
              match next with
              | None => mret (Done None)
              | Some None => mret (Done (Some tt))
              | Some (Some w) => watch_loop fuel' turns w
              end
          end
      end
  end.
End Loop.

(** ** Consuming a watcher

    The deferred stop is a sync.Once: the goroutine that waits for the context and the
    end of the loop call watcher.Stop once between them; it is the call at the end. *)
Section Consume.
Context {U : Type} (ctx : context) (next : nat → prog resp (option (option U)))
  (handle : U → prog resp (gores unit)).

Fixpoint consume_loop (turns : nat) (watcher : nat) : prog resp (gores (option unit)) :=
  match turns with
  | O => mret (Done None)
  | S turns' =>
      update ← next watcher;
      match update with
      | None => mret (Done (Some tt))              (* the channel is closed *)
      | Some update =>
          ctxErr ← ctx_Err ctx;
          match ctxErr with
          | Some _ => mret (Done (Some tt))
          | None =>
              match update with
              | None => consume_loop turns' watcher
              | Some u =>
                  r ← handle u;
                  match r with
                  | Panic => mret Panic
                  | Done _ => consume_loop turns' watcher
                  end
              end
          end
      end
  end.

Definition consume (turns : nat) (watcher : nat) : prog resp (gores (option unit)) :=
  r ← consume_loop turns watcher;
  match r with
  | Done (Some _) => _ ← call (RWatcherStop watcher); mret r
  | _ => mret r
  end.
End Consume.

(** ** Key-value watch *)
Definition openKVWatcher (bucket key : string) : prog resp (result error nat) :=
  if str_empty key then call (RKvWatch bucket None) else call (RKvWatch bucket (Some key)).

(** One update: the action's error is only logged. *)
Definition handle_update (ctx : context) (u : KeyUpdate) : prog resp (gores unit) :=
  r ← call (RExecuteInput ctx (InData (ku_Value u)));
  match r with
  | Panic => mret Panic
  | Done _ => mret (Done tt)
  end.

Definition consumeKVUpdates (ctx : context) : nat → nat → prog resp (gores (option unit)) :=
  consume ctx (λ w, call (RKvNext w)) (handle_update ctx).

Definition watchKV (ctx : context) (b : KVBinding) (fuel turns watcher : nat) : prog resp (gores (option unit)) :=
  watch_loop ctx (openKVWatcher (kv_Bucket b) (kv_Key b)) (consumeKVUpdates ctx) fuel turns watcher.

(** The new watcher, for the worker that is started. *)
Definition mountKV (ctx : context) (b : KVBinding) (w : Workers) : prog resp (result error nat * Workers) :=
  if str_empty (kv_Bucket b) then mret (Err (bad_request "KV watcher requires a bucket name"), w)
  else
    err ← ctx_Err ctx;
    match err with
    | Some err => mret (Err err, w)
    | None =>
        err ← call (RKeyValue (kv_Bucket b));
        match err with
        | Some err => mret (Err (mapError err), w)
        | None =>
            watcher ← openKVWatcher (kv_Bucket b) (kv_Key b);
            match watcher with
            | Err err => mret (Err (mapError err), w)
            | Ok watcher =>
                mret (Ok watcher, mkWorkers (t_subs w) (t_workersWg w + 1))
            end
        end
    end.

(** ** Object store watch *)
Definition objectEventFromInfo (b : ObjectBinding) (info : ObjectInfo) : ObjectEvent :=
  {| ev_Bucket := o_Bucket b; ev_Name := oi_Name info;
     ev_Type := if oi_Deleted info then ObjectDelete else ObjectPut;
     ev_Size := oi_Size info; ev_Chunks := oi_Chunks info; ev_Timestamp := oi_ModTime info;
     ev_Data := None |}.

Definition set_Data (d : string) (ev : ObjectEvent) : ObjectEvent :=
  {| ev_Bucket := ev_Bucket ev; ev_Name := ev_Name ev; ev_Type := ev_Type ev; ev_Size := ev_Size ev;
     ev_Chunks := ev_Chunks ev; ev_Timestamp := ev_Timestamp ev; ev_Data := Some d |}.

Definition is_put (t : ObjectEventType) : bool := match t with ObjectPut => true | _ => false end.

Definition handle_object (ctx : context) (b : ObjectBinding) (pattern : string) (info : ObjectInfo)
    : prog resp (gores unit) :=
  if negb (objectNameMatches (oi_Name info) pattern) then mret (Done tt)
  else
    let ev := objectEventFromInfo b info in
    ev ← (if (o_IncludeData b && is_put (ev_Type ev))%bool then
            data ← readObjectBytes ctx (o_Bucket b) (oi_Name info) (o_MaxBytes b);
            mret (match data with Ok data => set_Data data ev | Err _ => ev end)
          else mret ev);
    r ← call (RExecuteInput ctx (InEvent ev));
    match r with
    | Panic => mret Panic
    | Done _ => mret (Done tt)
    end.

Definition consumeObjectEvents (ctx : context) (b : ObjectBinding) (pattern : string)
    : nat → nat → prog resp (gores (option unit)) :=
  consume ctx (λ w, call (RObjNext w)) (handle_object ctx b pattern).

Definition watchObjectStore (ctx : context) (b : ObjectBinding) (pattern : string) (fuel turns watcher : nat)
    : prog resp (gores (option unit)) :=
  watch_loop ctx (call (RObjWatch (o_Bucket b))) (consumeObjectEvents ctx b pattern) fuel turns watcher.

(** The pattern of the started worker. *)
Definition mountPattern (b : ObjectBinding) : string :=
  if str_empty (o_Pattern b) then ">" else o_Pattern b.

Definition mountObjectStore (b : ObjectBinding) (w : Workers) : prog resp (result error nat * Workers) :=
  match validateObjectBinding b with
  | Some err => mret (Err err, w)
  | None =>
      err ← call (RObjectStore (o_Bucket b));
      match err with
      | Some err => mret (Err (mapError err), w)
      | None =>
          watcher ← call (RObjWatch (o_Bucket b));
          match watcher with
          | Err err => mret (Err (mapError err), w)
          | Ok watcher => mret (Ok watcher, mkWorkers (t_subs w) (t_workersWg w + 1))
          end
      end
  end.

(** What the decoder of an object action stores in its target: an event as it is, any
    other target through the codec. *)
Inductive decoded := DEvent (ev : ObjectEvent) | DBytes (data : string).

Definition coerceObjectEvent (marshal : ObjectEvent → result error string) (ev : ObjectEvent)
    (into_event : bool) : result error decoded :=
  if into_event then Ok (DEvent ev)
  else match marshal ev with Err e => Err e | Ok data => Ok (DBytes data) end.
End Watch.
