(* ===== verification/WatchProofs.v ===== *)
(** * Watchers: theorems (src/tnats/tnats_kv.go, objectstore.go)

    The shared loop is verified once, against the laws of a watcher ([WatcherLaws]),
    which the key-value and the object watcher satisfy. *)

From S2P Require Import Prelude Effects Errors Subjects Bindings World MemKV KVOps Objects Streams Watch.

Local Open Scope Z_scope.

(** ** The delays *)

(** The delay before the n-th attempt to reopen: 100 ms doubled n times, at most 5 s. *)
Definition delay (n : nat) : Z := Z.min 5000000000 (100000000 * 2 ^ Z.of_nat n).

Lemma nextBackoff_min b : 0 < b → nextBackoff (Z.min maxBackoff b) = Z.min maxBackoff (b * 2).
Proof.
  intros Hb. unfold nextBackoff. assert (0 < maxBackoff) by done.
  destruct (_ <? _) eqn:E1; [destruct (maxBackoff <? _) eqn:E2|]; go_bool; lia.
Qed.

Lemma nextBackoff_delay n : nextBackoff (delay n) = delay (S n).
Proof.
  unfold delay. change 5000000000 with maxBackoff. rewrite nextBackoff_min.
  - f_equal. rewrite Nat2Z.inj_succ, Z.pow_succ_r by lia. lia.
  - assert (0 < 2 ^ Z.of_nat n) by (apply Z.pow_pos_nonneg; lia). lia.
Qed.

(** The code's delays are that schedule: never below 100 ms (no busy loop), never above
    5 s, never overflowing. *)
Theorem backoff_schedule n :
  Nat.iter n nextBackoff initialBackoff = delay n ∧ initialBackoff ≤ delay n ≤ maxBackoff.
Proof.
  split.
  - induction n as [|n IH]; [done|].
    change (nextBackoff (Nat.iter n nextBackoff initialBackoff) = delay (S n)). by rewrite IH, nextBackoff_delay.
  - unfold delay. assert (1 ≤ 2 ^ Z.of_nat n) by (pose proof (Z.pow_pos_nonneg 2 (Z.of_nat n)); lia).
    unfold maxBackoff, initialBackoff, time_Millisecond, time_Second. lia.
Qed.

Section WatchProofs.
Context {EM : ErrorModel} {K : Kernel EM}.

Abbreviation evt := (@Ev req resp).

(** ** What a run does with watchers *)
Inductive wmark := WOpen (w : nat) | WStop (w : nat) | WWait (d : Z).

Definition wmark_of (e : event resp) : option wmark :=
  match ev_req e as r return resp r → option wmark with
  | RKvWatch _ _ => λ x, match x with Ok w => Some (WOpen w) | Err _ => None end
  | RObjWatch _ => λ x, match x with Ok w => Some (WOpen w) | Err _ => None end
  | RWatcherStop w => λ _, Some (WStop w)
  | RSleep _ d => λ _, Some (WWait d)
  | _ => λ _, None
  end (ev_resp e).

Definition wmarks (tr : list (event resp)) : list wmark := omap wmark_of tr.

Lemma wmarks_app t u : wmarks (t ++ u) = wmarks t ++ wmarks u.
Proof. apply omap_app. Qed.

(** Programs that leave watchers alone. *)
Definition unwatched {A} (p : prog resp A) : Prop := sat p (λ tr _, wmarks tr = []).

Lemma unwatched_ret {A} (a : A) : unwatched (mret a).
Proof. done. Qed.

Lemma unwatched_bind {A B} (p : prog resp A) (f : A → prog resp B) :
  unwatched p → (∀ a, unwatched (f a)) → unwatched (p ≫= f).
Proof.
  intros Hp Hf. apply (sat_then _ _ (λ t, wmarks t = [])); [exact Hp|]. intros t a Ht.
  eapply sat_mono; [|apply Hf]. cbn beta. intros t' _ H. by rewrite wmarks_app, Ht.
Qed.

Lemma unwatched_call r : (∀ x, wmark_of (evt r x) = None) → unwatched (call r).
Proof. intros H x. cbn. unfold wmarks. cbn. by rewrite H. Qed.

Lemma unwatched_ctx c : unwatched (ctx_Err c).
Proof. destruct c; try done; by apply unwatched_call. Qed.

(** After [p], a program whose marks are known. *)
Lemma unwatched_then {A B} (p : prog resp A) (f : A → prog resp B) (Q : list wmark → B → Prop) :
  unwatched p → (∀ a, sat (f a) (λ tr b, Q (wmarks tr) b)) → sat (p ≫= f) (λ tr b, Q (wmarks tr) b).
Proof.
  intros Hp Hf. apply (sat_then _ _ (λ t, wmarks t = [])); [exact Hp|]. intros t a Ht.
  eapply sat_mono; [|apply Hf]. cbn beta. intros t' b H. by rewrite wmarks_app, Ht.
Qed.

(** ** The loop against the laws of a watcher *)
Class WatcherLaws (open : prog resp (result error nat))
    (consume : nat → nat → prog resp (gores (option unit))) : Prop := {
  open_marks : sat open (λ tr r, wmarks tr = match r with Ok w => [WOpen w] | Err _ => [] end);
  consume_marks n w :
    sat (consume n w) (λ tr r, wmarks tr = match r with Done (Some _) => [WStop w] | _ => [] end)
}.

Definition waits (n : nat) : list wmark := (λ i, WWait (delay i)) <$> seq 0 n.

(** The sessions of a watching goroutine: the watcher is stopped before the waits, and
    after them the next one is opened. *)
Inductive sessions : nat → list wmark → gores (option unit) → Prop :=
| ss_busy w r : r = Panic ∨ r = Done None → sessions w [] r
| ss_stopped w n r : r = Done (Some tt) ∨ r = Done None → sessions w (WStop w :: waits n) r
| ss_next w n w' l r : 0 < Z.of_nat n → sessions w' l r →
    sessions w (WStop w :: waits n ++ WOpen w' :: l) r.

Section Loop.
Context (ctx : context) open consume {WL : WatcherLaws open consume}.

Lemma waits_succ n : waits (S n) = waits n ++ [WWait (delay n)].
Proof. unfold waits. rewrite seq_S, fmap_app. done. Qed.

Lemma reopen_sat fuel n :
  sat (reopen ctx open fuel (delay n)) (λ tr r, ∃ m, (n ≤ m)%nat ∧
    waits n ++ wmarks tr = match r with
      | Some (Some w) => waits m ++ [WOpen w]
      | _ => waits m
      end ∧ (∀ w, r = Some (Some w) → (0 < m)%nat)).
Proof.
  revert n. induction fuel as [|fuel IH]; intros n; [exists n; split; [done|by rewrite app_nil_r]|].
  cbn [reopen]. apply sat_call. intros [|]; cbn [negb].
  - apply sat_bind. eapply sat_mono; [|apply open_marks]. cbn beta. intros t [w|e] Ht.
    + exists (S n). split; [lia|]. rewrite app_nil_r.
      change (wmarks (evt (RSleep ctx (delay n)) true :: t)) with (WWait (delay n) :: wmarks t).
      rewrite Ht, waits_succ, <- app_assoc. split; [done|]. intros; lia.
    + rewrite nextBackoff_delay. eapply sat_mono; [|apply IH]. cbn beta.
      intros t' r (m & Hm & H1 & H2). exists m. split; [lia|]. split; [|done].
      rewrite <- H1, waits_succ, <- app_assoc.
      change (wmarks (evt (RSleep ctx (delay n)) true :: t ++ t')) with (WWait (delay n) :: wmarks (t ++ t')).
      by rewrite wmarks_app, Ht.
  - exists (S n). split; [lia|]. by rewrite waits_succ.
Qed.

Lemma watch_loop_sat fuel turns w :
  sat (watch_loop ctx open consume fuel turns w) (λ tr r, sessions w (wmarks tr) r).
Proof.
  revert w. induction fuel as [|fuel IH]; intros w; cbn [watch_loop]; [apply ss_busy; by right|].
  apply sat_bind. eapply sat_mono; [|apply consume_marks]. cbn beta. intros t [[[]|]|] Ht.
  - apply sat_bind. eapply sat_mono; [|apply unwatched_ctx]. cbn beta. intros t1 [e|] H1.
    { cbn. rewrite app_nil_r, wmarks_app, Ht, H1. apply (ss_stopped w 0). by left. }
    apply sat_bind. eapply sat_mono; [|apply (reopen_sat turns 0)]. cbn beta.
    intros t2 r (m & _ & H2 & Hm). cbn [waits] in H2. destruct r as [[w'|]|]; cbn in H2.
    + eapply sat_mono; [|apply IH]. cbn beta. intros t3 r H3.
      rewrite !wmarks_app, Ht, H1, H2. cbn. rewrite <- app_assoc. apply ss_next; [|done].
      specialize (Hm w' eq_refl). lia.
    + cbn. rewrite app_nil_r, !wmarks_app, Ht, H1, H2. apply ss_stopped. by left.
    + cbn. rewrite app_nil_r, !wmarks_app, Ht, H1, H2. apply ss_stopped. by right.
  - cbn. rewrite app_nil_r, Ht. apply ss_busy. by right.
  - cbn. rewrite app_nil_r, Ht. apply ss_busy. by left.
Qed.
End Loop.

(** A consumer whose operations leave watchers alone stops its own, once. *)
Lemma consume_sat {U} ctx (next : nat → prog resp (option (option U))) handle turns w :
  (∀ w, unwatched (next w)) → (∀ u, unwatched (handle u)) →
  sat (consume ctx next handle turns w) (λ tr r, wmarks tr = match r with Done (Some _) => [WStop w] | _ => [] end).
Proof.
  intros Hn Hh. unfold consume.
  assert (H : unwatched (consume_loop ctx next handle turns w)).
  { induction turns as [|turns IH]; cbn [consume_loop]; [done|].
    apply unwatched_bind; [done|]. intros [u|]; [|done].
    apply unwatched_bind; [apply unwatched_ctx|]. intros [e|]; [done|]. destruct u as [u|]; [|done].
    apply unwatched_bind; [done|]. by intros [[]|]. }
  apply (unwatched_then _ _ (λ l r, l = match r with Done (Some _) => [WStop w] | _ => [] end)); [done|].
  by intros [[[]|]|].
Qed.

#[global] Instance kv_watcher_laws ctx bucket key :
  WatcherLaws (openKVWatcher bucket key) (consumeKVUpdates ctx).
Proof.
  split.
  - unfold openKVWatcher. destruct (str_empty key); by intros [w|e].
  - intros n w. apply consume_sat; [intros; by apply unwatched_call|]. intros u.
    unfold handle_update. apply unwatched_bind; [by apply unwatched_call|]. by intros [].
Qed.

Lemma readObjectBytes_unwatched ctx bucket name m : unwatched (readObjectBytes ctx bucket name m).
Proof.
  unfold readObjectBytes. destruct (_ =? _); [done|].
  apply unwatched_bind; [by apply unwatched_call|]. intros [obj|e]; [|done].
  apply unwatched_bind; [by apply unwatched_call|]. intros src.
  destruct (io_CopyN _ src) as [buf [e|]]; (apply unwatched_bind; [by apply unwatched_call|]); intros c; [|done].
  by destruct (negb _).
Qed.

#[global] Instance object_watcher_laws ctx b pattern :
  WatcherLaws (call (RObjWatch (o_Bucket b))) (consumeObjectEvents ctx b pattern).
Proof.
  split; [by intros [w|e]|]. intros n w. apply consume_sat; [intros; by apply unwatched_call|]. intros info.
  unfold handle_object. destruct (negb _); [done|]. apply unwatched_bind.
  - destruct (_ && _)%bool; [|done]. apply unwatched_bind; [apply readObjectBytes_unwatched|done].
  - intros ev. apply unwatched_bind; [by apply unwatched_call|]. by intros [].
Qed.

(** C28: A watching goroutine has one watcher at a time: whatever fails, each watcher
    is stopped exactly once before the goroutine waits, the waits before the next watcher
    last 100 ms, 200 ms, 400 ms and so on up to 5 s, and only then the next watcher is
    opened; when the goroutine returns no watcher is left running.  It holds of the
    key-value watch and of the object watch. *)
Theorem watchers_one_at_a_time ctx kb ob pattern fuel turns w :
  sat (watchKV ctx kb fuel turns w) (λ tr r, sessions w (wmarks tr) r) ∧
  sat (watchObjectStore ctx ob pattern fuel turns w) (λ tr r, sessions w (wmarks tr) r).
Proof. split; apply watch_loop_sat; apply _. Qed.

(** ** Which objects reach the action *)

Definition update_of (e : event resp) : option ObjectInfo :=
  match ev_req e as r return resp r → option ObjectInfo with
  | RObjNext _ => λ x, match x with Some (Some info) => Some info | _ => None end
  | _ => λ _, None
  end (ev_resp e).

Definition execution_of (e : event resp) : option input :=
  match ev_req e as r return resp r → option input with
  | RExecuteInput _ i => λ _, Some i
  | _ => λ _, None
  end (ev_resp e).

(** The objects a watcher announced, and the inputs the action was executed with. *)
Definition updates (tr : list (event resp)) : list ObjectInfo := omap update_of tr.
Definition executions (tr : list (event resp)) : list input := omap execution_of tr.

(** The event of an object: its data is attached only on request, for a stored object,
    and only if it was read whole and is within the limit. *)
Definition event_for (b : ObjectBinding) (info : ObjectInfo) (i : input) : Prop :=
  i = InEvent (objectEventFromInfo b info) ∨
  ∃ d, i = InEvent (set_Data d (objectEventFromInfo b info)) ∧
    o_IncludeData b = true ∧ oi_Deleted info = false ∧ str_len d ≤ effectiveLimit (o_MaxBytes b).

Definition silent {A} (p : prog resp A) (Q : A → Prop) : Prop :=
  sat p (λ tr a, updates tr = [] ∧ executions tr = [] ∧ Q a).

Lemma silent_ctx c : silent (ctx_Err c) (λ _, True).
Proof. by destruct c; try done; intros x. Qed.

Lemma read_silent ctx bucket name m :
  silent (readObjectBytes ctx bucket name m) (λ r, ∀ d, r = Ok d → str_len d ≤ effectiveLimit m).
Proof.
  unfold readObjectBytes. destruct (_ =? _); [done|].
  apply sat_call. intros [obj|e]; [|done]. apply sat_call. intros src.
  destruct (io_CopyN _ src) as [buf e]. apply sat_call. intros c.
  assert (H : ∀ d, match c with Some e => Err (mapError e) | None => if effectiveLimit m <? str_len buf
    then Err (bad_request ("object " +:+ strconv_Quote name +:+ " exceeds limit of " +:+ pretty (effectiveLimit m) +:+ " bytes"))
    else Ok buf end = Ok d → str_len d ≤ effectiveLimit m).
  { intros d. destruct c; [done|]. destruct (_ <? str_len buf) eqn:E; [done|]. intros [= <-]. go_bool. lia. }
  destruct e as [e|]; [|done]. by destruct (negb _).
Qed.

Lemma handle_object_sat ctx b pattern info :
  sat (handle_object ctx b pattern info) (λ tr _, updates tr = [] ∧
    if objectNameMatches (oi_Name info) pattern
    then ∃ i, executions tr = [i] ∧ event_for b info i
    else executions tr = []).
Proof.
  unfold handle_object. destruct (objectNameMatches _ _); cbn [negb]; [|done].
  apply sat_bind.
  assert (H : silent (if (o_IncludeData b && is_put (ev_Type (objectEventFromInfo b info)))%bool then
      data ← readObjectBytes ctx (o_Bucket b) (oi_Name info) (o_MaxBytes b);
      mret (match data with Ok data => set_Data data (objectEventFromInfo b info) | Err _ => objectEventFromInfo b info end)
    else mret (objectEventFromInfo b info)) (λ ev, event_for b info (InEvent ev))).
  { destruct (_ && _)%bool eqn:E; [|split; [done|split; [done|by left]]]. go_bool. destruct E as [E1 E2].
    apply sat_bind. eapply sat_mono; [|apply read_silent]. cbn beta. intros t r (Ht & He & Hr). cbn.
    rewrite app_nil_r. split; [done|split; [done|]]. destruct r as [d|e]; [|by left].
    right. exists d. split; [done|]. split; [done|]. split; [|by apply Hr].
    unfold objectEventFromInfo in E2. cbn in E2. by destruct (oi_Deleted info). }
  eapply sat_mono; [|exact H]. cbn beta. intros t ev (Ht & He & Hev). apply sat_call. intros x.
  unfold updates, executions in *.
  destruct x; cbn; rewrite !omap_app, Ht, He; (split; [done|]); by exists (InEvent ev).
Qed.

Definition wanted (pattern : string) (info : ObjectInfo) : Prop := objectNameMatches (oi_Name info) pattern = true.

#[global] Instance wanted_dec pattern info : Decision (wanted pattern info).
Proof. unfold wanted. apply _. Defined.

(** The executions of a run, against the objects it was told of. *)
Definition delivered (b : ObjectBinding) (pattern : string) (infos : list ObjectInfo) (inputs : list input)
    (r : gores (option unit)) : Prop :=
  ∃ handled dropped, filter (wanted pattern) infos = handled ++ dropped ∧
    Forall2 (event_for b) handled inputs ∧
    (length dropped ≤ 1)%nat ∧ (dropped ≠ [] → r = Done (Some tt)).

Lemma delivered_nil b pattern r : delivered b pattern [] [] r.
Proof. exists [], []. repeat split; try done. cbn. lia. Qed.

Lemma delivered_last b pattern info : delivered b pattern [info] [] (Done (Some tt)).
Proof.
  exists [], (filter (wanted pattern) [info]). repeat split; try done.
  rewrite filter_cons. destruct (decide _); cbn; lia.
Qed.

Lemma delivered_cons b pattern info infos inputs r i :
  delivered b pattern infos inputs r →
  (if objectNameMatches (oi_Name info) pattern then ∃ x, i = [x] ∧ event_for b info x else i = []) →
  delivered b pattern (info :: infos) (i ++ inputs) r.
Proof.
  intros (h & d & H1 & H2 & H3) Hi. rewrite <- (app_nil_l d) in H1.
  destruct (objectNameMatches (oi_Name info) pattern) eqn:Em.
  - destruct Hi as (x & -> & Hx). exists (info :: h), d. rewrite filter_cons_True by done.
    split; [by rewrite H1|]. split; [by constructor|done].
  - subst i. exists h, d. rewrite filter_cons_False by (unfold wanted; congruence). done.
Qed.

(** The object watch delivers every object it is told of, once and in order: the
    executions of the action are those of the announced objects whose name matches the
    pattern, one each, with the object's own metadata and with data only as [event_for]
    allows; only the last one announced may be dropped, when the context has ended
    before its turn.  Nothing else is executed. *)
Theorem object_events_exact ctx b pattern turns w :
  sat (consumeObjectEvents ctx b pattern turns w) (λ tr r, delivered b pattern (updates tr) (executions tr) r).
Proof.
  unfold consumeObjectEvents, consume. apply sat_bind.
  eapply (sat_mono _ (λ tr r, delivered b pattern (updates tr) (executions tr) r)).
  { intros t r H. destruct r as [[[]|]|]; cbn; rewrite ?app_nil_r; try done.
    intros x. unfold updates, executions in *. rewrite !omap_app. cbn. by rewrite !app_nil_r. }
  induction turns as [|turns IH]; cbn [consume_loop]; [apply delivered_nil|].
  apply sat_call. intros [[info|]|]; cbn beta; [| |apply delivered_nil].
  - apply sat_bind. eapply sat_mono; [|apply silent_ctx]. cbn beta. intros t1 [e|] (H1 & H2 & _).
    { cbn. rewrite app_nil_r. unfold updates, executions in *. cbn. rewrite H1, H2. apply delivered_last. }
    apply sat_bind. eapply sat_mono; [|apply handle_object_sat]. cbn beta. intros t2 [[]|] [H3 H4].
    + eapply sat_mono; [|exact IH]. cbn beta. intros t3 r H. unfold updates, executions in *. cbn.
      rewrite !omap_app, H1, H2, H3. by apply (delivered_cons b pattern info _ _ r (omap execution_of t2)).
    + cbn. rewrite app_nil_r. unfold updates, executions in *. cbn.
      rewrite !omap_app, H1, H2, H3. rewrite <- (app_nil_r (omap execution_of t2)).
      apply (delivered_cons b pattern info [] [] _ (omap execution_of t2)); [apply delivered_nil|done].
  - apply sat_bind. eapply sat_mono; [|apply silent_ctx]. cbn beta. intros t1 [e|] (H1 & H2 & _).
    { cbn. rewrite app_nil_r. unfold updates, executions in *. cbn. rewrite H1, H2. apply delivered_nil. }
    eapply sat_mono; [|exact IH]. cbn beta. intros t3 r H. unfold updates, executions in *. cbn.
    by rewrite !omap_app, H1, H2.
Qed.
End WatchProofs.
