(* ===== verification/Headers.v ===== *)
(** * Identity in headers (src/tnats/tnats_context.go, identity.go)

    What a message carries of its sender's context.  The context values (package xctx),
    the header names (packages transport and identity) and nats.Header belong to other
    packages: operations with laws, and a concrete instance. *)

From S2P Require Import Prelude Effects Errors World MemKV.

(** The four identifiers. *)
Inductive ident := RequestID | ExecutionID | TraceID | SpanID.
#[global] Instance ident_eq_dec : EqDecision ident.
Proof. solve_decision. Defined.

Class HeaderOps := {
  xctx : Type;                                   (* a context with values *)
  xctx_From : ident → xctx → string;             (* xctx.RequestIDFrom, ... *)
  xctx_With : ident → xctx → string → xctx;      (* xctx.WithRequestID, ... *)
  transport_Header : ident → string;             (* transport.HeaderRequestID, ... *)
  identity_HeaderExecutionID : string;
  header_Set : string → string → header → header;  (* nats.Header.Set *)
  identity_Propagate : xctx → list (string * string)  (* the headers identity.Propagate sets, in order *)
}.

Class HeaderLaws {EM : ErrorModel} (K : Kernel EM) (HO : HeaderOps) : Prop := {
  from_with i c v : xctx_From i (xctx_With i c v) = v;
  from_with_other i j c v : i ≠ j → xctx_From i (xctx_With j c v) = xctx_From i c;
  header_inj i j : transport_Header i = transport_Header j → i = j;
  header_execution : identity_HeaderExecutionID = transport_Header ExecutionID;
  get_set k v h : header_Get (header_Set k v h) k = v;
  get_set_other k k' v h : k ≠ k' → header_Get (header_Set k v h) k' = header_Get h k';
  get_empty k : header_Get ∅ k = "";
  get_marker i : transport_Header i ≠ "X-NATS-Error"
}.

Section Headers.
Context {EM : ErrorModel} {K : Kernel EM} {HO : HeaderOps}.

Definition set_Header (h : option header) (m : Msg) : Msg :=
  mkMsg (msg_Subject m) (msg_Reply m) (msg_Data m) h.

(** msg.Header.Set(name, v), if the value is not empty. *)
Definition set_nonempty (name v : string) (h : header) : header :=
  if str_empty v then h else header_Set name v h.

Definition injectContextHeaders (ctx : xctx) (msg : Msg) : Msg :=
  let reqID := xctx_From RequestID ctx in
  let execID := xctx_From ExecutionID ctx in
  let traceID := xctx_From TraceID ctx in
  let spanID := xctx_From SpanID ctx in
  if (str_empty reqID && str_empty execID && str_empty traceID && str_empty spanID)%bool then msg
  else
    let h := match msg_Header msg with Some h => h | None => ∅ end in
    let h := set_nonempty (transport_Header RequestID) reqID h in
    let h := set_nonempty (transport_Header ExecutionID) execID h in
    let h := set_nonempty (transport_Header TraceID) traceID h in
    let h := set_nonempty (transport_Header SpanID) spanID h in
    set_Header (Some h) msg.

(** xctx.RequestScope, as far as the transport uses it. *)
Record RequestScope := mkScope {
  sp_Endpoint : string; sp_RequestID : string; sp_TraceID : string; sp_SpanID : string }.

Definition scope_set (i : ident) (v : string) (s : RequestScope) : RequestScope :=
  match i with
  | RequestID => mkScope (sp_Endpoint s) v (sp_TraceID s) (sp_SpanID s)
  | ExecutionID => s
  | TraceID => mkScope (sp_Endpoint s) (sp_RequestID s) v (sp_SpanID s)
  | SpanID => mkScope (sp_Endpoint s) (sp_RequestID s) (sp_TraceID s) v
  end.

(** One of the four statements of extractContextHeaders. *)
Definition extract (h : header) (name : string) (i : ident) (cs : xctx * RequestScope) : xctx * RequestScope :=
  let v := header_Get h name in
  if str_empty v then cs else (xctx_With i cs.1 v, scope_set i v cs.2).

Definition extractContextHeaders (ctx : xctx) (msg : Msg) (scope : RequestScope) : xctx * RequestScope :=
  match msg_Header msg with
  | None => (ctx, scope)
  | Some h =>
      let cs := extract h (transport_Header RequestID) RequestID (ctx, scope) in
      let cs := extract h identity_HeaderExecutionID ExecutionID cs in
      let cs := extract h (transport_Header TraceID) TraceID cs in
      extract h (transport_Header SpanID) SpanID cs
  end.

(** identity.Propagate through the natsWriter. *)
Definition propagateToMsg (ctx : xctx) (msg : Msg) : Msg :=
  let h := match msg_Header msg with Some h => h | None => ∅ end in
  set_Header (Some (foldl (λ h nv, header_Set nv.1 nv.2 h) h (identity_Propagate ctx))) msg.

(** ** The round trip *)
Context {HL : HeaderLaws K HO}.

Lemma get_set_nonempty i j v h :
  header_Get (set_nonempty (transport_Header i) v h) (transport_Header j) =
  if decide (i = j) then (if str_empty v then header_Get h (transport_Header j) else v)
  else header_Get h (transport_Header j).
Proof.
  unfold set_nonempty. destruct (str_empty v) eqn:E; [by destruct (decide _)|].
  destruct (decide (i = j)) as [->|Hn]; [apply get_set|]. apply get_set_other. by intros ?%header_inj.
Qed.

(** The header that the message carries for an identifier. *)
Lemma injected_header ctx msg i :
  (match msg_Header msg with Some h => header_Get h (transport_Header i) | None => "" end) = "" →
  match msg_Header (injectContextHeaders ctx msg) with
  | Some h => header_Get h (transport_Header i) = xctx_From i ctx
  | None => xctx_From i ctx = ""
  end.
Proof.
  intros H0. unfold injectContextHeaders. destruct (_ && _ && _ && _)%bool eqn:E.
  - go_bool. destruct E as [[[E1 E2] E3] E4].
    assert (Hi : xctx_From i ctx = "") by (by destruct i). rewrite Hi. by destruct (msg_Header msg).
  - clear E. set (h0 := match msg_Header msg with Some h => h | None => ∅ end).
    assert (Hh : header_Get h0 (transport_Header i) = "").
    { unfold h0. destruct (msg_Header msg); [done|apply get_empty]. }
    cbn [msg_Header set_Header]. rewrite !get_set_nonempty.
    assert (Hv : ∀ v, (if str_empty v then "" else v) = v).
    { intros v. destruct (str_empty v) eqn:E; [|done]. by apply str_empty_true in E as ->. }
    destruct i; repeat (destruct (decide _); try done); by rewrite Hh.
Qed.

Lemma from_extract h name i j cs :
  xctx_From j (extract h name i cs).1 =
  if (bool_decide (i = j) && negb (str_empty (header_Get h name)))%bool then header_Get h name
  else xctx_From j cs.1.
Proof.
  unfold extract. destruct (str_empty (header_Get h name)); cbn; [by rewrite Bool.andb_false_r|].
  case_bool_decide as Hij; cbn; [subst; apply from_with|]. by rewrite from_with_other.
Qed.

Lemma from_extracted ctx msg scope i h :
  msg_Header msg = Some h →
  xctx_From i (extractContextHeaders ctx msg scope).1 =
  if str_empty (header_Get h (transport_Header i)) then xctx_From i ctx else header_Get h (transport_Header i).
Proof.
  intros E. unfold extractContextHeaders. rewrite E, header_execution, !from_extract.
  destruct i; repeat (case_bool_decide; try done); cbn [andb negb fst]; by destruct (str_empty _).
Qed.

Definition scope_get (i : ident) (s : RequestScope) : option string :=
  match i with
  | RequestID => Some (sp_RequestID s) | ExecutionID => None
  | TraceID => Some (sp_TraceID s) | SpanID => Some (sp_SpanID s)
  end.

Lemma scope_extract h name i j cs :
  scope_get j (extract h name i cs).2 =
  if (bool_decide (i = j) && negb (str_empty (header_Get h name)))%bool
  then (λ _, header_Get h name) <$> scope_get j cs.2 else scope_get j cs.2.
Proof. unfold extract. destruct (str_empty (header_Get h name)), i, j; done. Qed.

(** C24: The caller's identity survives the wire: for a message that carries none of the
    four headers yet, extracting what was injected gives the receiver, for each of
    request, execution, trace and span id, the caller's value where the caller has one
    and the receiver's own otherwise; the request scope is told the same; and the
    subject, reply and payload are untouched. *)
Theorem headers_roundtrip ctx ctx' msg scope i :
  (∀ j, match msg_Header msg with Some h => header_Get h (transport_Header j) | None => "" end = "") →
  let msg' := injectContextHeaders ctx msg in
  let received := extractContextHeaders ctx' msg' scope in
  xctx_From i received.1 = (if str_empty (xctx_From i ctx) then xctx_From i ctx' else xctx_From i ctx) ∧
  scope_get i received.2 =
    (if str_empty (xctx_From i ctx) then scope_get i scope else (λ _, xctx_From i ctx) <$> scope_get i scope) ∧
  msg_Data msg' = msg_Data msg ∧ msg_Subject msg' = msg_Subject msg ∧ msg_Reply msg' = msg_Reply msg.
Proof.
  intros H0 msg' received. pose proof (λ i, injected_header ctx msg i (H0 i)) as Hi. fold msg' in Hi.
  split; [|split].
  - unfold received. destruct (msg_Header msg') as [h|] eqn:E.
    + rewrite (from_extracted _ _ _ _ _ E), (Hi i). done.
    + unfold extractContextHeaders. rewrite E, (Hi i). done.
  - unfold received, extractContextHeaders. destruct (msg_Header msg') as [h|].
    + rewrite header_execution, !scope_extract, !Hi.
      destruct i; repeat (case_bool_decide; try done); cbn [andb negb snd]; by destruct (str_empty _).
    + rewrite (Hi i). done.
  - unfold msg', injectContextHeaders. by destruct (_ && _ && _ && _)%bool.
Qed.
End Headers.

(** ** A concrete instance *)
Module HeaderModel.
Definition name_of (i : ident) : string :=
  match i with
  | RequestID => "X-Request-ID" | ExecutionID => "X-Execution-ID"
  | TraceID => "X-Trace-ID" | SpanID => "X-Span-ID"
  end.

#[export] Instance ops : HeaderOps := {|
  xctx := ident → string;
  xctx_From i c := c i;
  xctx_With i c v := λ j, if decide (i = j) then v else c j;
  transport_Header := name_of;
  identity_HeaderExecutionID := "X-Execution-ID";
  header_Set k v h := <[k := [v]]> h;
  identity_Propagate c := (λ i, (name_of i, c i)) <$> [RequestID; ExecutionID]
|}.

#[export] Instance laws : HeaderLaws kernel ops.
Proof.
  split; cbn.
  - intros i c v. by destruct (decide _).
  - intros i j c v Hn. by destruct (decide _).
  - by intros [] [].
  - done.
  - intros k v h. by rewrite lookup_insert_eq.
  - intros k k' v h Hn. by rewrite lookup_insert_ne.
  - intros k. by rewrite lookup_empty.
  - by intros [].
Qed.
End HeaderModel.

Section Witnesses.
Import HeaderModel.

Lemma headers_roundtrip_witness :
  let caller : xctx := λ i, match i with RequestID => "req-1" | TraceID => "trace-9" | _ => "" end in
  xctx_From RequestID (extractContextHeaders (K := kernel) (λ _, "") (injectContextHeaders caller (mkMsg "s" "" "" None))
    (mkScope "" "" "" "")).1 = "req-1".
Proof.
  intros caller.
  destruct (headers_roundtrip (K := kernel) caller (λ _, "") (mkMsg "s" "" "" None) (mkScope "" "" "" "") RequestID) as [H _];
    [done|exact H].
Defined.
End Witnesses.
