(* ===== verification/Publish.v ===== *)
(** * Publishing and requests (src/tnats/tnats_publish.go)

    Publish, PublishDurable with its cache of provisioned streams, and Request with the
    errors that a remote action sends back. *)

From S2P Require Import Prelude Effects Errors Bindings World KVOps Objects Streams Headers.

Local Open Scope Z_scope.

Definition HeaderErrorMarker : string := "X-NATS-Error".

Section Publish.
Context {EM : ErrorModel} {K : Kernel EM} {HO : HeaderOps}.

(** nats.NewMsg(subject), with its data. *)
Definition NewMsg (subject data : string) : Msg := mkMsg subject "" data (Some ∅).

Definition internal (msg : string) (cause : error) : error := xerr_new KindInternal msg (Some cause).

(** The context of a call is its cancellation ([ctx]) and its values ([vals]). *)
Definition Publish (c : codec) (ctx : context) (vals : xctx) (subject : string) (payload : value)
    : prog resp (option error) :=
  nc ← call (REnsureConn ctx);
  match nc with
  | Err err => mret (Some err)
  | Ok _ =>
      match c payload with
      | Err err => mret (Some (internal "nats: marshal payload" err))
      | Ok body =>
          let msg := propagateToMsg vals (mkMsg subject "" body None) in
          err ← call (RPublishMsg msg);
          match err with
          | Some err => mret (Some (mapError err))
          | None => mret None
          end
      end
  end.

Definition cacheKey (b : DurableBinding) : string := d_Stream b +:+ ":" +:+ d_Subject b.

(** verifiedStreams.Load, ensureDurableInfra, verifiedStreams.Store. *)
Definition verify_stream (modifier : option (StreamConfig → StreamConfig)) (b : DurableBinding)
    (verified : gset string) : prog resp (option error * gset string) :=
  if bool_decide (cacheKey b ∈ verified) then mret (None, verified)
  else
    infraErr ← ensureDurableInfra modifier b;
    match infraErr with
    | Some e => mret (Some e, verified)
    | None => mret (None, {[cacheKey b]} ∪ verified)
    end.

Definition PublishDurable (modifier : option (StreamConfig → StreamConfig)) (c : codec) (ctx : context)
    (vals : xctx) (b : DurableBinding) (payload : value) (verified : gset string)
    : prog resp (option error * gset string) :=
  match validateDurableBinding b with
  | Some err => mret (Some err, verified)
  | None =>
      nc ← call (REnsureConn ctx);
      match nc with
      | Err err => mret (Some err, verified)
      | Ok _ =>
          jsErr ← call REnsureJetStream;
          match jsErr with
          | Some err => mret (Some err, verified)
          | None =>
              '(infraErr, verified) ← verify_stream modifier b verified;
              match infraErr with
              | Some e => mret (Some e, verified)
              | None =>
                  match c payload with
                  | Err err => mret (Some (internal "failed to marshal durable nats payload" err), verified)
                  | Ok data =>
                      let msg := injectContextHeaders vals (NewMsg (d_Subject b) data) in
                      pubErr ← call (RJsPublishMsg ctx msg);
                      match pubErr with
                      | Some err => mret (Some (mapError err), verified)
                      | None => mret (None, verified)
                      end
                  end
              end
          end
      end
  end.

(** The codec's Unmarshal into an xerr.ErrorResponse, and xerr.FromPublic. *)
Class PublicErrors := {
  ErrorResponse : Type;
  er_Error : ErrorResponse → string;
  unmarshal_ErrorResponse : string → result error ErrorResponse;
  xerr_FromPublic : ErrorResponse → option error
}.
Context {PE : PublicErrors}.

(** The error that a marked reply stands for. *)
Definition remote_error (data : string) : error :=
  let opaque := xerr_new KindInternal ("remote nats action error: " +:+ data) None in
  match unmarshal_ErrorResponse data with
  | Ok errResp =>
      if negb (str_empty (er_Error errResp)) then
        match xerr_FromPublic errResp with
        | Some appErr => appErr
        | None => opaque
        end
      else opaque
  | Err _ => opaque
  end.

(** What Request makes of a reply; [unmarshal] is t.codec.Unmarshal into resPtr, absent
    when resPtr is nil.  The result is what was decoded. *)
Definition read_reply (unmarshal : option (string → option error)) (resMsg : Msg) : result error (option string) :=
  let h := match msg_Header resMsg with Some h => h | None => ∅ end in
  if str_eqb (header_Get h HeaderErrorMarker) "1" then Err (remote_error (msg_Data resMsg))
  else
    match unmarshal with
    | Some unmarshal =>
        if (0 <? str_len (msg_Data resMsg)) then
          match unmarshal (msg_Data resMsg) with
          | Some err => Err (internal "failed to unmarshal nats response" err)
          | None => Ok (Some (msg_Data resMsg))
          end
        else Ok None
    | None => Ok None
    end.

Definition Request (c : codec) (ctx : context) (vals : xctx) (subject : string) (payload : value)
    (unmarshal : option (string → option error)) : prog resp (result error (option string)) :=
  nc ← call (REnsureConn ctx);
  match nc with
  | Err err => mret (Err err)
  | Ok _ =>
      match c payload with
      | Err err => mret (Err (internal "failed to marshal nats request" err))
      | Ok data =>
          let reqMsg := injectContextHeaders vals (NewMsg subject data) in
          resMsg ← call (RRequestMsg ctx reqMsg);
          match resMsg with
          | Err reqErr => mret (Err (mapError reqErr))
          | Ok resMsg => mret (read_reply unmarshal resMsg)
          end
      end
  end.
End Publish.
