(* ===== verification/Topic.v ===== *)
(** * Topic and request subscriptions (src/tnats/tnats_runner.go, subscribeTopic)

    The subscription, and the handler that runs the action for a message and answers
    its sender. *)

From S2P Require Import Prelude Effects Errors Bindings World IdemExec Streams Delivery Headers Publish.

Local Open Scope Z_scope.

Section Topic.
Context {EM : ErrorModel} {K : Kernel EM} {HO : HeaderOps}.

(** t.startWorker(): refused on a transport that is closing. *)
Definition startWorker (closing : bool) (w : Workers) : bool * Workers :=
  if closing then (false, w) else (true, mkWorkers (t_subs w) (t_workersWg w + 1)).

(** The action's result as (replyBytes, err). *)
Definition reply_of (c : codec) (res : result error value) : reply :=
  match res with
  | Err execErr => encodeError (Some c) execErr
  | Ok res =>
      match c res with
      | Ok replyBytes => (replyBytes, None)
      | Err err => encodeError (Some c) (internal "failed to marshal response" err)
      end
  end.

(** The message that answers a request. *)
Definition make_reply (to : string) (requestID : string) (r : reply) : Msg :=
  let h := set_nonempty (transport_Header RequestID) requestID ∅ in
  let h := match r.2 with Some _ => header_Set HeaderErrorMarker "1" h | None => h end in
  mkMsg to "" r.1 (Some h).

Definition empty_scope : RequestScope := mkScope "" "" "" "".

(** The goroutine of the handler; [vals] are the values of the run context. *)
Definition topic_worker (ctx : context) (vals : xctx) (store : store_kind) (c : codec) (meta : option Meta)
    (handlerTimeout : Z) (m : Msg) : prog resp (gores unit) :=
  let callCtx := if 0 <? handlerTimeout then CtxTimeout ctx handlerTimeout else ctx in
  let scope := mkScope ("nats." +:+ msg_Subject m) "" "" "" in
  let '(_, scope) := extractContextHeaders vals m scope in
  r ← (match meta with
       | Some (mkMetaData true cfg) => executeWithIdempotency callCtx store cfg m (Some c)
       | _ =>
           res ← call (RExecute callCtx);
           mret (match res with Panic => Panic | Done res => Done (reply_of c res) end)
       end);
  match r with
  | Panic => mret Panic
  | Done r =>
      if negb (str_empty (msg_Reply m))
      then _ ← call (RPublishMsg (make_reply (msg_Reply m) (sp_RequestID scope) r)); mret (Done tt)
      else mret (Done tt)
  end.

(** The handler: the worker is a goroutine, counted by workersWg until it ends. *)
Definition topic_handler (closing : bool) (ctx : context) (vals : xctx) (store : store_kind) (c : codec)
    (meta : option Meta) (handlerTimeout : Z) (m : Msg) (w : Workers) : prog resp (gores Workers) :=
  let '(started, w) := startWorker closing w in
  if negb started then mret (Done w)
  else
    r ← topic_worker ctx vals store c meta handlerTimeout m;
    match r with
    | Panic => mret Panic
    | Done _ => mret (Done (mkWorkers (t_subs w) (t_workersWg w - 1)))
    end.

Definition subscribeTopic (b : TopicBinding) (w : Workers) : prog resp (option error * Workers) :=
  sub ← call (RSubscribe (t_Subject b) (if negb (str_empty (t_QueueGroup b)) then Some (t_QueueGroup b) else None));
  match sub with
  | Err err => mret (Some (mapError err), w)
  | Ok sub => mret (None, mkWorkers (t_subs w ++ [sub]) (t_workersWg w))
  end.
End Topic.
