(* ===== verification/PublishProofs.v ===== *)
(** * Publishing, requests and topic handlers: theorems (src/tnats/tnats_publish.go,
      tnats_runner.go) *)

From S2P Require Import Prelude Effects Errors Bindings Json World MemKV KVOps Objects IdemExec Streams Delivery.
From S2P Require Import StreamsProofs Headers Publish Topic.

Local Open Scope Z_scope.

Section PublishProofs.
Context {EM : ErrorModel} {K : Kernel EM} {HO : HeaderOps} {HL : HeaderLaws K HO}.

Abbreviation evt := (@Ev req resp).

(** ** What is published *)
Inductive route := Core | JetStream (c : context).

Definition publication_of (e : event resp) : option (route * Msg * option error) :=
  match ev_req e as r return resp r → option (route * Msg * option error) with
  | RPublishMsg m => λ x, Some (Core, m, x)
  | RJsPublishMsg c m => λ x, Some (JetStream c, m, x)
  | _ => λ _, None
  end (ev_resp e).

Definition published (tr : list (event resp)) : list (route * Msg * option error) := omap publication_of tr.

(** A message with that subject and data, no reply subject, and the caller's identifiers. *)
Definition carries (vals : xctx) (subject data : string) (m : Msg) : Prop :=
  msg_Subject m = subject ∧ msg_Reply m = "" ∧ msg_Data m = data ∧
  ∀ i, match msg_Header m with
       | Some h => header_Get h (transport_Header i) = xctx_From i vals
       | None => xctx_From i vals = ""
       end.

Lemma injected_carries vals subject data : carries vals subject data (injectContextHeaders vals (NewMsg subject data)).
Proof.
  unfold carries. repeat split; try (unfold injectContextHeaders; by destruct (_ && _ && _ && _)%bool).
  intros i. apply injected_header. cbn. apply get_empty.
Qed.

Definition is_publish (r : req) : bool :=
  match r with RPublishMsg _ | RJsPublishMsg _ _ => true | _ => false end.

Definition unpublishing (r : req) : Prop := is_publish r = false.

Lemma published_app t u : published (t ++ u) = published t ++ published u.
Proof. apply omap_app. Qed.

Lemma unpublished t : Forall (λ e, unpublishing (ev_req e)) t → published t = [].
Proof.
  induction 1 as [|[r x] t Hr _ IH]; [done|]. unfold published in *. cbn [omap list_omap].
  destruct r; try done; exact IH.
Qed.

Lemma ensure_loop_calls n modifier name subjects :
  calls_only unpublishing (ensure_loop n modifier name subjects).
Proof. induction n as [|n IH]; cbn [ensure_loop]; repeat (first [exact IH|calls_step]). Qed.

Lemma durable_infra_calls modifier b : calls_only unpublishing (ensureDurableInfra modifier b).
Proof.
  unfold ensureDurableInfra, ensureStream. repeat (first [apply ensure_loop_calls|calls_step]).
Qed.

Lemma durable_infra_unpublished modifier b t r :
  runs (ensureDurableInfra modifier b) t r → published t = [].
Proof.
  intros Hr. apply unpublished.
  exact (proj1 (sat_runs _ _) (calls_only_sat _ _ (durable_infra_calls modifier b)) _ _ Hr).
Qed.

(** ** The cache of provisioned streams *)

(** Both streams of a binding were provisioned in this run. *)
Definition ensured (modifier : option (StreamConfig → StreamConfig)) (b : DurableBinding)
    (tr : list (event resp)) : Prop :=
  provisioned modifier (d_Stream b) [d_Subject b] tr ∧
  provisioned modifier (d_Stream b +:+ "_DLQ") [d_DeadLetterSubject b] tr.

Lemma provisioned_mono modifier name subjects t t' :
  t ⊆ t' → provisioned modifier name subjects t → provisioned modifier name subjects t'.
Proof. intros Hs [(cfg & Hi & H)|H]; [left; exists cfg; set_solver|right; set_solver]. Qed.

Lemma infra_ensured modifier b t : runs (ensureDurableInfra modifier b) t None → ensured modifier b t.
Proof.
  assert (E : ∀ name s u, runs (ensureStream modifier name [s]) u None → provisioned modifier name [s] u).
  { intros name s u Hu. apply (proj1 (sat_runs _ _) (ensure_loop_sat modifier name [s] 3)) in Hu as (_ & _ & H). by apply H. }
  intros (t1 & t2 & r & -> & H1 & H2)%runs_bind. destruct r as [e|]; [by destruct H2 as [_ ?]|].
  apply E in H1, H2. split; (eapply provisioned_mono; [|done]); set_solver.
Qed.

Lemma verify_stream_runs modifier b v t r v' :
  runs (verify_stream modifier b v) t (r, v') →
  published t = [] ∧
  match r with
  | Some _ => v' = v
  | None => (cacheKey b ∈ v ∧ v' = v) ∨ (ensured modifier b t ∧ v' = {[cacheKey b]} ∪ v)
  end.
Proof.
  unfold verify_stream. case_bool_decide as Hk.
  - intros [-> [= -> ->]]. split; [done|]. by left.
  - intros (t1 & t2 & r1 & -> & H1 & H2)%runs_bind. destruct r1 as [e|]; destruct H2 as [-> [= -> ->]];
      rewrite app_nil_r; (split; [by eapply durable_infra_unpublished|]); [done|].
    right. by split; [apply infra_ensured|].
Qed.

(** What a call of PublishDurable comes to. *)
Definition durable_outcome (modifier : option (StreamConfig → StreamConfig)) (c : codec) (ctx : context) (vals : xctx)
    (b : DurableBinding) (payload : value) (v : gset string) (tr : list (event resp))
    (r : option error) (v' : gset string) : Prop :=
  let key := d_Stream b +:+ ":" +:+ d_Subject b in
  (v' = v ∨ v' = {[key]} ∪ v ∧ ensured modifier b tr) ∧
  (published tr ≠ [] → durable_valid b ∧ (key ∈ v ∨ ensured modifier b tr)) ∧
  match r with
  | None => ∃ data m, c payload = Ok data ∧ carries vals (d_Subject b) data m ∧
      published tr = [(JetStream ctx, m, None)]
  | Some _ => ∀ route m, (route, m, None) ∉ published tr
  end.

(** Nothing was published and the cache is as before. *)
Lemma durable_nothing modifier c ctx vals b payload v tr e :
  published tr = [] → durable_outcome modifier c ctx vals b payload v tr (Some e) v.
Proof.
  intros H. split; [by left|]. rewrite H. split; [done|]. intros route m. apply not_elem_of_nil.
Qed.

(** After verify_stream, [t] being the calls before it. *)
Lemma durable_verified modifier c ctx vals b payload v t t1 t2 v1 r v' :
  durable_valid b → published t = [] → runs (verify_stream modifier b v) t1 (None, v1) →
  runs (match c payload with
        | Err err => mret (Some (internal "failed to marshal durable nats payload" err), v1)
        | Ok data =>
            pubErr ← call (RJsPublishMsg ctx (injectContextHeaders vals (NewMsg (d_Subject b) data)));
            match pubErr with
            | Some err => mret (Some (mapError err), v1)
            | None => mret (None, v1)
            end
        end) t2 (r, v') →
  durable_outcome modifier c ctx vals b payload v (t ++ t1 ++ t2) r v'.
Proof.
  intros Hb Ht Hv H2. apply verify_stream_runs in Hv as [H1 Hv].
  assert (Hm : ensured modifier b t1 → ensured modifier b (t ++ t1 ++ t2)).
  { intros [? ?]. split; (eapply provisioned_mono; [|done]); set_solver. }
  assert (E : v' = v1 ∧ published (t ++ t1 ++ t2) = published t2 ∧
    match r with
    | None => ∃ data m, c payload = Ok data ∧ carries vals (d_Subject b) data m ∧ published t2 = [(JetStream ctx, m, None)]
    | Some _ => ∀ route m, (route, m, None) ∉ published t2
    end).
  { rewrite !published_app, Ht, H1. destruct (c payload) as [data|e].
    - destruct H2 as (x & t3 & -> & H2). destruct x as [e|]; destruct H2 as [-> H2]; injection H2 as -> ->.
      + split; [done|split; [done|]]. intros route m Hm'%list_elem_of_singleton. done.
      + split; [done|split; [done|]]. eexists data, _. split; [done|]. split; [apply injected_carries|done].
    - destruct H2 as [-> [= -> ->]]. split; [done|split; [done|]]. intros route m. apply not_elem_of_nil. }
  destruct E as (-> & E2 & E3). unfold durable_outcome. cbv zeta. rewrite E2. fold (cacheKey b).
  destruct Hv as [[Hk ->]|[He ->]]; (split; [|split; [|exact E3]]); auto.
Qed.

(** C12: PublishDurable publishes into provisioned streams only: nothing is sent unless the
    binding is valid and either both its streams - the stream with the subject, and
    <stream>_DLQ with the dead-letter subject - were provisioned by this call (read to
    take the subject in, or created with it), or the cache already holds the binding's
    key, which is <stream>:<subject>.  The cache only grows, and by that key only, when
    this call provisioned the streams.  Success means that exactly one message was
    published, through JetStream under the caller's context, and acknowledged: the encoded
    payload, on the binding's subject, with the caller's identifiers in its headers.  A
    failure means that none was acknowledged. *)
Theorem PublishDurable_outcome modifier c ctx vals b payload v tr r v' :
  runs (PublishDurable modifier c ctx vals b payload v) tr (r, v') →
  durable_outcome modifier c ctx vals b payload v tr r v'.
Proof.
  unfold PublishDurable. destruct (validateDurableBinding b) as [e|] eqn:Eb.
  { intros [-> [= -> ->]]. by apply durable_nothing. }
  apply validateDurableBinding_none in Eb.
  intros ([nc|e] & t1 & -> & H); [|destruct H as [-> [= -> ->]]; by apply durable_nothing].
  destruct H as ([e|] & t2 & -> & H); [destruct H as [-> [= -> ->]]; by apply durable_nothing|].
  apply (runs_bind (verify_stream modifier b v)) in H as (t3 & t4 & [infraErr v1] & -> & Hv & H). destruct infraErr as [e|].
  - destruct H as [-> [= -> ->]]. apply verify_stream_runs in Hv as [H1 ->]. apply durable_nothing. by rewrite app_nil_r.
  - by eapply (durable_verified _ _ ctx _ _ _ _ [evt (REnsureConn ctx) (Ok nc); evt REnsureJetStream None]).
Qed.

(** The cache key does not name the dead-letter subject, and joins stream and subject
    with a colon that both may contain. *)
Lemma cached_skips modifier c ctx vals b payload v tr r v' :
  cacheKey b ∈ v → runs (PublishDurable modifier c ctx vals b payload v) tr (r, v') →
  Forall (λ e, match ev_req e with
               | REnsureConn _ | REnsureJetStream | RJsPublishMsg _ _ => True | _ => False end) tr.
Proof.
  intros Hk Hr. set (P := λ q, match q with
    | REnsureConn _ | REnsureJetStream | RJsPublishMsg _ _ => True | _ => False end).
  assert (C : calls_only P (PublishDurable modifier c ctx vals b payload v)).
  { unfold PublishDurable, verify_stream. rewrite bool_decide_eq_true_2 by done. repeat calls_step. }
  exact (proj1 (sat_runs _ _) (calls_only_sat P _ C) _ _ Hr).
Qed.

(** The cache of PublishDurable confuses bindings (a defect): two valid bindings
    that differ in their dead-letter subject, or even in their stream, can have the same
    cache key, and once the first is in the cache the second is published with its
    streams never looked at, in every run. *)
Theorem cacheKey_ambiguous :
  let b1 := DurableWork "orders" "orders.new" "w" "orders.dead" in
  let b2 := DurableWork "orders" "orders.new" "w" "other.dead" in
  let b3 := DurableWork "a:b" "c" "w" "dead" in
  let b4 := DurableWork "a" "b:c" "w" "dead" in
  (∀ b, b ∈ [b1; b2; b3; b4] → validateDurableBinding b = None) ∧
  cacheKey b1 = cacheKey b2 ∧ d_DeadLetterSubject b1 ≠ d_DeadLetterSubject b2 ∧
  cacheKey b3 = cacheKey b4 ∧ d_Stream b3 ≠ d_Stream b4 ∧
  ∀ modifier c ctx vals payload tr r v', runs (PublishDurable modifier c ctx vals b2 payload {[cacheKey b1]}) tr (r, v') →
    ∀ name x, evt (RStreamInfo name) x ∉ tr.
Proof.
  intros b1 b2 b3 b4. split; [|split; [done|split; [done|split; [done|split; [done|]]]]].
  - intros b Hb. repeat (apply elem_of_cons in Hb as [->|Hb]; [done|]). by apply elem_of_nil in Hb.
  - intros modifier c ctx vals payload tr r v' Hr name x Hx. apply cached_skips in Hr; [|set_solver].
    rewrite Forall_forall in Hr. exact (Hr _ Hx).
Qed.

(** ** Requests and replies *)
Context {PE : PublicErrors}.

Lemma marked_reply to rid r :
  header_Get (match msg_Header (make_reply to rid r) with Some h => h | None => ∅ end) HeaderErrorMarker =
  match r.2 with Some _ => "1" | None => "" end.
Proof.
  unfold make_reply. cbn. destruct (r.2) as [e|]; [apply get_set|].
  unfold set_nonempty. destruct (str_empty rid); [apply get_empty|].
  rewrite get_set_other; [apply get_empty|apply get_marker].
Qed.

(** The answer to a request. *)
Definition answer_of (e : event resp) : option Msg :=
  match ev_req e as r return resp r → option Msg with
  | RRequestMsg _ _ => λ x, match x with Ok m => Some m | Err _ => None end
  | _ => λ _, None
  end (ev_resp e).

(** How an error is sent: the codec's text of its public form, or JSON's when the codec
    fails, or a fixed text when both do. *)
Definition error_text (c : codec) (e : error) (data : string) : Prop :=
  match c (xerr_Public e), json_Marshal_any (xerr_Public e) with
  | Ok d, _ => data = d
  | Err _, Ok d => data = d
  | Err _, Err _ =>
      data = "{" +:+ in_quotes "error" +:+ ":" +:+ in_quotes "internal" +:+ "," +:+ in_quotes "message" +:+ ":" +:+
             in_quotes "failed to encode error response" +:+ "}"
  end.

Lemma encodeError_text c e : error_text c e (encodeError (Some c) e).1.
Proof.
  unfold error_text, encodeError. destruct (c (xerr_Public e)); [done|]. by destruct (json_Marshal_any (xerr_Public e)).
Qed.

(** The error that a text stands for: the public error it encodes, or an Internal error
    that quotes it. *)
Definition stands_for (data : string) (e : error) : Prop :=
  (∃ errResp, unmarshal_ErrorResponse data = Ok errResp ∧ er_Error errResp ≠ "" ∧ xerr_FromPublic errResp = Some e) ∨
  ((∀ errResp, unmarshal_ErrorResponse data = Ok errResp → er_Error errResp ≠ "" → xerr_FromPublic errResp = None) ∧
   e = xerr_new KindInternal ("remote nats action error: " +:+ data) None).

Lemma remote_error_stands data : stands_for data (remote_error data).
Proof.
  unfold remote_error, stands_for. destruct (unmarshal_ErrorResponse data) as [errResp|] eqn:E; [|right; naive_solver].
  destruct (str_empty (er_Error errResp)) eqn:Ee; cbn [negb]; go_bool; [right; naive_solver|].
  destruct (xerr_FromPublic errResp) as [e|] eqn:Ef; [left|right]; naive_solver.
Qed.

(** What a requester is told of the action's outcome. *)
Definition told (c : codec) (res : result error value) (unmarshal : string → option error)
    (r : result error (option string)) : Prop :=
  match res with
  | Ok v =>
      match c v with
      | Ok body =>
          r = if 0 <? str_len body then
                match unmarshal body with
                | Some err => Err (internal "failed to unmarshal nats response" err)
                | None => Ok (Some body)
                end
              else Ok None
      | Err err => ∃ data e, r = Err e ∧ stands_for data e ∧
          error_text c (xerr_new KindInternal "failed to marshal response" (Some err)) data
      end
  | Err err => ∃ data e, r = Err e ∧ stands_for data e ∧ error_text c err data
  end.

Lemma reply_told c to rid res unmarshal :
  told c res unmarshal (read_reply (Some unmarshal) (make_reply to rid (reply_of c res))).
Proof.
  assert (F : ∀ e, ∃ data e', read_reply (Some unmarshal) (make_reply to rid (encodeError (Some c) e)) = Err e' ∧
    stands_for data e' ∧ error_text c e data).
  { intros e. eexists _, _. split; [|split; [apply remote_error_stands|apply encodeError_text]].
    unfold read_reply. by rewrite marked_reply, encodeError_err. }
  unfold told. destruct res as [v|e]; cbn [reply_of]; [|apply F].
  destruct (c v) as [body|e]; [|apply F]. unfold read_reply. by rewrite marked_reply.
Qed.

(** C23: A requester learns what happened: when the answer to a Request is the reply that
    the handler makes of the action's outcome, Request returns the action's encoded result
    exactly when the action and the encoding succeeded (decoded into the caller's target;
    an empty result leaves the target alone), and otherwise the error that the encoded
    public form of the failure stands for - a failed action never looks like a success,
    nor a success like a failure. *)
Theorem request_reply_faithful c to rid res unmarshal :
  let reply := make_reply to rid (reply_of c res) in
  told c res unmarshal (read_reply (Some unmarshal) reply) ∧
  ∀ c' ctx vals subject payload tr r ctx' m,
    runs (Request c' ctx vals subject payload (Some unmarshal)) tr r →
    evt (RRequestMsg ctx' m) (Ok reply) ∈ tr → told c res unmarshal r.
Proof.
  intros reply. split; [apply reply_told|]. intros c' ctx vals subject payload tr r ctx' m Hr Hin.
  assert (S : sat (Request c' ctx vals subject payload (Some unmarshal)) (λ tr r,
    ∀ e x, e ∈ tr → answer_of e = Some x → r = read_reply (Some unmarshal) x)).
  { unfold Request. apply sat_call. intros [nc|e].
    2:{ by intros e' x ->%list_elem_of_singleton. }
    destruct (c' payload); [|by intros e' x ->%list_elem_of_singleton].
    apply sat_call. intros y. destruct y as [y|e]; intros e' x Hx; apply elem_of_cons in Hx as [Hx|Hx];
      [|apply list_elem_of_singleton in Hx| |apply list_elem_of_singleton in Hx]; subst e'; cbn; try done.
    by intros [= ->]. }
  apply (proj1 (sat_runs _ _)) with (tr := tr) (a := r) in S; [|done].
  rewrite (S _ reply Hin eq_refl). apply reply_told.
Qed.

Lemma idempotent_calls ctx store cfg m c :
  calls_only unpublishing (executeWithIdempotency ctx store cfg m c).
Proof.
  unfold executeWithIdempotency, executeWithLegacyStore, executeWithCoordinator,
    startCoordinatorLeaseRenewal, stopRenewal. cbv zeta.
  repeat calls_step.
Qed.

Lemma worker_balanced w : mkWorkers (t_subs w) (t_workersWg w + 1 - 1) = w.
Proof. destruct w as [l n]. cbn. by rewrite Z.add_simpl_r. Qed.

(** The request id that a message carries. *)
Definition request_id (m : Msg) : string :=
  match msg_Header m with Some h => header_Get h (transport_Header RequestID) | None => "" end.

Lemma scope_request_id vals m endpoint :
  sp_RequestID (extractContextHeaders vals m (mkScope endpoint "" "" "")).2 = request_id m.
Proof.
  unfold extractContextHeaders, request_id, extract. destruct (msg_Header m) as [h|]; [|done]. cbn.
  destruct (str_empty (header_Get h (transport_Header RequestID))) eqn:E;
    [apply str_empty_true in E as ->|]; by repeat (destruct (str_empty _)).
Qed.

(** What running the action of a handler comes to: one execution, its result encoded by
    the codec or its error encoded as one; or a run of the idempotency layer. *)
Definition handled_as (ctx : context) (store : store_kind) (c : codec) (meta : option Meta) (m : Msg)
    (t : list (event resp)) (x : gores reply) : Prop :=
  match meta with
  | Some (mkMetaData true cfg) => runs (executeWithIdempotency ctx store cfg m (Some c)) t x
  | _ => ∃ res, t = [evt (RExecute ctx) res] ∧
      match res with
      | Panic => x = Panic
      | Done (Ok v) =>
          match c v with
          | Ok body => x = Done (body, None)
          | Err err => ∃ data, let e := xerr_new KindInternal "failed to marshal response" (Some err) in
              x = Done (data, Some e) ∧ error_text c e data
          end
      | Done (Err e) => ∃ data, x = Done (data, Some e) ∧ error_text c e data
      end
  end.

Lemma encoded_reply c e : ∃ data, encodeError (Some c) e = (data, Some e) ∧ error_text c e data.
Proof.
  pose proof (encodeError_text c e) as H. pose proof (encodeError_err (Some c) e) as H2.
  destruct (encodeError (Some c) e) as [data err]. cbn in *. subst err. by exists data.
Qed.

Lemma handled_as_sat ctx store c meta m :
  sat (match meta with
       | Some (mkMetaData true cfg) => executeWithIdempotency ctx store cfg m (Some c)
       | _ => res ← call (RExecute ctx);
              mret (match res with Panic => Panic | Done res => Done (reply_of c res) end)
       end) (λ t x, published t = [] ∧ handled_as ctx store c meta m t x).
Proof.
  assert (X : sat (res ← call (RExecute ctx);
              mret (match res with Panic => Panic | Done res => Done (reply_of c res) end))
    (λ t x, published t = [] ∧ handled_as ctx store c None m t x)).
  { intros res. split; [done|]. exists res. split; [done|]. destruct res as [[v|e]|]; [|..|done].
    - cbn [reply_of]. destruct (c v) as [body|err]; [done|].
      destruct (encoded_reply c (internal "failed to marshal response" err)) as (data & -> & H). by exists data.
    - cbn [reply_of]. destruct (encoded_reply c e) as (data & -> & H). by exists data. }
  destruct meta as [[[] cfg]|]; [|exact X..].
  apply sat_runs. intros t x Hr. split; [|exact Hr]. apply unpublished.
  exact (proj1 (sat_runs _ _) (calls_only_sat _ _ (idempotent_calls ctx store cfg m (Some c))) _ _ Hr).
Qed.

(** The message that answers [m] with the outcome [rep]. *)
Definition answers (m : Msg) (rep : reply) (r : Msg) : Prop :=
  msg_Subject r = msg_Reply m ∧ msg_Reply r = "" ∧ msg_Data r = rep.1 ∧
  ∃ h, msg_Header r = Some h ∧ header_Get h (transport_Header RequestID) = request_id m ∧
    header_Get h "X-NATS-Error" = match rep.2 with Some _ => "1" | None => "" end.

Lemma make_reply_answers m rep : answers m rep (make_reply (msg_Reply m) (request_id m) rep).
Proof.
  split; [done|]. split; [done|]. split; [done|]. eexists. split; [done|].
  assert (E : header_Get (set_nonempty (transport_Header RequestID) (request_id m) ∅) (transport_Header RequestID)
    = request_id m).
  { unfold set_nonempty. destruct (str_empty _) eqn:E; [|apply get_set]. go_bool. rewrite E. apply get_empty. }
  split; [|exact (marked_reply (msg_Reply m) (request_id m) rep)].
  destruct (rep.2); [|done]. rewrite get_set_other; [done|]. apply not_eq_sym, get_marker.
Qed.

(** C22: A topic handler answers once: on a transport that is closing the message is
    dropped without running anything.  Otherwise the action is run - one execution under
    the handler's timeout (if positive), or a run of the idempotency layer - and nothing is
    published before it ends.  If it panics, nothing is published at all; if not, exactly
    one message is published when the request names a reply subject: to that subject, with
    the encoded outcome, the request's own id, and the error mark exactly when the outcome
    is an error; and nothing when it names none.  The worker count is given back. *)
Theorem topic_replies_once closing ctx vals store c meta handlerTimeout m w :
  sat (topic_handler closing ctx vals store c meta handlerTimeout m w) (λ tr r,
    if closing then tr = [] ∧ r = Done w
    else ∃ t x, published t = [] ∧
      handled_as (if 0 <? handlerTimeout then CtxTimeout ctx handlerTimeout else ctx) store c meta m t x ∧
      match x with
      | Panic => r = Panic ∧ tr = t
      | Done rep => r = Done w ∧
          if str_empty (msg_Reply m) then tr = t
          else ∃ reply y, tr = t ++ [evt (RPublishMsg reply) y] ∧ answers m rep reply
      end).
Proof.
  unfold topic_handler, startWorker. destruct closing; cbn [negb]; [done|].
  apply sat_bind. unfold topic_worker.
  pose proof (scope_request_id vals m ("nats." +:+ msg_Subject m)) as Hid.
  destruct (extractContextHeaders _ _ _) as [ctx' scope]. cbn [snd] in Hid.
  set (callCtx := if 0 <? handlerTimeout then CtxTimeout ctx handlerTimeout else ctx).
  apply sat_bind. eapply sat_mono; [|apply handled_as_sat]. cbn beta. intros t [rep|] [Hp Hr].
  2:{ cbn. rewrite !app_nil_r. by exists t, Panic. }
  rewrite Hid. destruct (str_empty (msg_Reply m)) eqn:Es; cbn [negb].
  - cbn. rewrite !app_nil_r. exists t, (Done rep). rewrite worker_balanced. done.
  - apply sat_call. intros y. cbn. rewrite ?app_nil_r, worker_balanced. exists t, (Done rep).
    split; [done|]. split; [done|]. split; [done|]. eexists _, y. split; [done|]. apply make_reply_answers.
Qed.
End PublishProofs.

(** ** Witnesses *)
Section Witnesses.
Import GoErr HeaderModel.

#[local] Instance public_errors : PublicErrors (EM := GoErr.model) := {|
  ErrorResponse := string;
  er_Error s := s;
  unmarshal_ErrorResponse s := Ok s;
  xerr_FromPublic _ := None
|}.

Definition plain_codec : codec (K := kernel) := Ok.

(** A first publication: the stream is created, the message sent, the key remembered. *)
Definition work : DurableBinding := DurableWork "orders" "orders.new" "w" "orders.dead".
Definition anonymous : xctx := λ _, "".
Definition publish_work : prog resp (option error * gset string) :=
  PublishDurable None plain_codec Background anonymous work ("payload" : value (Kernel := kernel)) ∅.
Definition first_world : mem := mkMem empty_view 0 0.

Lemma PublishDurable_outcome_witness :
  exec_result mem_handler publish_work first_world = (None, {[cacheKey work]}) ∧
  durable_outcome None plain_codec Background anonymous work ("payload" : value (Kernel := kernel)) ∅
    (exec_trace mem_handler publish_work first_world) None {[cacheKey work]}.
Proof.
  assert (E : exec_result mem_handler publish_work first_world = (None, {[cacheKey work]})) by (vm_compute; reflexivity).
  split; [exact E|].
  apply (PublishDurable_outcome None plain_codec Background anonymous work ("payload" : value (Kernel := kernel)) ∅).
  rewrite <- E. apply exec_is_run.
Defined.

Definition question : Msg := mkMsg "echo" "inbox" "data" None.
Definition ask : prog resp (gores Workers) :=
  topic_handler false Background anonymous LegacyStore plain_codec None 0 question (mkWorkers [] 0).

Lemma topic_replies_once_witness :
  ∃ t reply y, exec_trace mem_handler ask first_world = t ++ [Ev (RPublishMsg reply) y] ∧ published t = [] ∧
    msg_Subject reply = "inbox".
Proof.
  pose proof (topic_replies_once (K := kernel) false Background anonymous LegacyStore plain_codec None 0 question (mkWorkers [] 0)) as H.
  pose proof (proj1 (sat_runs _ _) H _ _ (exec_is_run mem_handler ask first_world)) as (t & [rep|] & Hp & _ & Hr & Ht).
  - destruct Ht as (reply & y & Et & Ha & _). by exists t, reply, y.
  - vm_compute in Hr. discriminate Hr.
Defined.

Lemma request_reply_faithful_witness :
  told (K := kernel) plain_codec (Ok "done") (λ _, None)
    (read_reply (Some (λ _, None)) (make_reply (EM := GoErr.model) "inbox" "req-1" (reply_of plain_codec (Ok "done")))) ∧
  read_reply (K := kernel) (Some (λ _, None)) (make_reply (EM := GoErr.model) "inbox" "req-1" (reply_of plain_codec (Ok "done"))) = Ok (Some "done").
Proof.
  split; [exact (proj1 (request_reply_faithful (K := kernel) plain_codec "inbox" "req-1" (Ok "done") (λ _, None)))|].
  exact (proj1 (request_reply_faithful (K := kernel) plain_codec "inbox" "req-1" (Ok "done") (λ _, None))).
Defined.
End Witnesses.
