(* ===== verification/Micro.v ===== *)
(** * Micro services (src/tnats/micro.go)

    mountMicroServices groups the service bindings of the actions by service name and
    registers each group; the endpoint handler runs the action and responds. *)

From S2P Require Import Prelude Effects Errors Bindings World MemKV IdemExec Streams Delivery Headers Publish Topic.

Local Open Scope Z_scope.

(** An action.AnyAction: whether it is executable, what it describes, its bindings. *)
Section Actions.
Context {EM : ErrorModel} {K : Kernel EM}.

Record AnyAction := mkAction {
  ac_Executable : bool; ac_Describe : option Meta; ac_Bindings : list Binding }.

Record microEndpoint := mkEndpoint { ep_Binding : ServiceBinding; ep_Meta : option Meta }.

(** The service bindings of the executable actions, in order. *)
Definition service_endpoints (actions : list AnyAction) : list microEndpoint :=
  flat_map (λ act,
    if ac_Executable act then
      flat_map (λ b, match b with BService sb => [mkEndpoint sb (ac_Describe act)] | _ => [] end) (ac_Bindings act)
    else []) actions.

(** groups and order, after one more endpoint. *)
Definition add_endpoint (st : gmap string (list microEndpoint) * list string) (ep : microEndpoint)
    : gmap string (list microEndpoint) * list string :=
  let '(groups, order) := st in
  let name := s_Service (ep_Binding ep) in
  let order := if bool_decide (is_Some (groups !! name)) then order else order ++ [name] in
  (<[name := default [] (groups !! name) ++ [ep]]> groups, order).

Definition group_endpoints (actions : list AnyAction) : gmap string (list microEndpoint) * list string :=
  foldl add_endpoint (∅, []) (service_endpoints actions).

Definition endpointOpts (b : ServiceBinding) : list EndpointOpt :=
  [EndpointSubject (s_Subject b)]
  ++ (if negb (str_empty (s_QueueGroup b)) then [EndpointQueueGroup (s_QueueGroup b)] else [])
  ++ (if decide (s_Metadata b = ∅) then [] else [EndpointMetadata (s_Metadata b)]).

Definition registerMicroEndpoint (svc : nat) (ep : microEndpoint) : prog resp (option error) :=
  call (RAddEndpoint svc (s_Endpoint (ep_Binding ep)) (endpointOpts (ep_Binding ep))).

(** The loop over a group's endpoints: the service is stopped at the first failure. *)
Fixpoint register_all (svc : nat) (eps : list microEndpoint) : prog resp (option error) :=
  match eps with
  | [] => mret None
  | ep :: rest =>
      err ← registerMicroEndpoint svc ep;
      match err with
      | Some err => _ ← call (RServiceStop svc); mret (Some err)
      | None => register_all svc rest
      end
  end.

(** The loop over the groups; the services that were started. *)
Fixpoint mount_services (groups : gmap string (list microEndpoint)) (order : list string) (services : list nat)
    : prog resp (gores (option error * list nat)) :=
  match order with
  | [] => mret (Done (None, services))
  | name :: rest =>
      match default [] (groups !! name) with
      | [] => mret Panic                          (* eps[0] *)
      | ep :: eps =>
          let head := ep_Binding ep in
          svc ← call (RAddService (mkServiceConfig (s_Service head) (s_Version head) (s_Description head)
                                     (s_Metadata head)));
          match svc with
          | Err err => mret (Done (Some (mapError err), services))
          | Ok svc =>
              err ← register_all svc (ep :: eps);
              match err with
              | Some err => mret (Done (Some err, services))
              | None => mount_services groups rest (services ++ [svc])
              end
          end
      end
  end.

Definition mountMicroServices (actions : list AnyAction) (services : list nat)
    : prog resp (gores (option error * list nat)) :=
  let '(groups, order) := group_endpoints actions in mount_services groups order services.

(** ** Grouping *)
Abbreviation evt := (@Ev req resp).

Definition service_of (ep : microEndpoint) : string := s_Service (ep_Binding ep).

(** The first occurrence of each name, in order, [seen] being those before. *)
Fixpoint firsts (seen names : list string) : list string :=
  match names with
  | [] => []
  | n :: rest => if bool_decide (n ∈ seen) then firsts seen rest else n :: firsts (seen ++ [n]) rest
  end.

(** The endpoints of a service, in order. *)
Definition endpoints_of (n : string) (eps : list microEndpoint) : list microEndpoint :=
  filter (λ ep, service_of ep = n) eps.

Lemma fold_groups eps groups order :
  (∀ n, is_Some (groups !! n) ↔ n ∈ order) → NoDup order →
  let '(groups', order') := foldl add_endpoint (groups, order) eps in
  order' = order ++ firsts order (service_of <$> eps) ∧ NoDup order' ∧
  (∀ n, is_Some (groups' !! n) ↔ n ∈ order') ∧
  ∀ n, default [] (groups' !! n) = default [] (groups !! n) ++ endpoints_of n eps.
Proof.
  revert groups order. induction eps as [|ep eps IH]; intros groups order Hg Hd.
  { cbn. split; [by rewrite app_nil_r|]. split; [done|split; [done|]]. intros n. by rewrite app_nil_r. }
  cbn [foldl add_endpoint fmap list_fmap firsts]. fold (service_of ep).
  rewrite (bool_decide_ext (is_Some (groups !! service_of ep)) (service_of ep ∈ order)) by apply Hg.
  set (groups1 := <[service_of ep := default [] (groups !! service_of ep) ++ [ep]]> groups).
  assert (Hdef : ∀ n, default [] (groups1 !! n) ++ endpoints_of n eps = default [] (groups !! n) ++ endpoints_of n (ep :: eps)).
  { intros n. unfold groups1, endpoints_of. rewrite filter_cons. destruct (decide (service_of ep = n)) as [<-|Hn].
    - rewrite lookup_insert_eq. cbn. by rewrite <- app_assoc.
    - by rewrite lookup_insert_ne. }
  case_bool_decide as Hin.
  - assert (H1 : ∀ n, is_Some (groups1 !! n) ↔ n ∈ order).
    { intros n. unfold groups1. destruct (decide (service_of ep = n)) as [<-|Hn].
      - rewrite lookup_insert_eq. split; [done|eauto].
      - by rewrite lookup_insert_ne. }
    specialize (IH groups1 order H1 Hd). destruct (foldl _ _ eps) as [g o]. destruct IH as (E1 & E2 & E3 & E4).
    split; [done|split; [done|split; [done|]]]. intros n. by rewrite E4, Hdef.
  - assert (H1 : ∀ n, is_Some (groups1 !! n) ↔ n ∈ order ++ [service_of ep]).
    { intros n. unfold groups1. rewrite elem_of_app, list_elem_of_singleton.
      destruct (decide (service_of ep = n)) as [<-|Hn].
      - rewrite lookup_insert_eq. split; [by right|eauto].
      - rewrite lookup_insert_ne by done. rewrite Hg. split; [by left|]. by intros [?|?]. }
    assert (Hd1 : NoDup (order ++ [service_of ep])).
    { apply NoDup_app. split; [done|]. split; [|apply NoDup_singleton].
      intros x Hx Hx'%list_elem_of_singleton. congruence. }
    specialize (IH groups1 _ H1 Hd1). destruct (foldl _ _ eps) as [g o]. destruct IH as (E1 & E2 & E3 & E4).
    split; [by rewrite E1, <- app_assoc|]. split; [done|split; [done|]]. intros n. by rewrite E4, Hdef.
Qed.

Lemma elem_of_firsts n seen names : n ∈ firsts seen names ↔ n ∈ names ∧ n ∉ seen.
Proof.
  revert seen. induction names as [|m names IH]; intros seen; cbn [firsts].
  { split; [by intros ?%elem_of_nil|by intros [?%elem_of_nil _]]. }
  case_bool_decide as Hm; rewrite !elem_of_cons, IH, ?elem_of_app, ?list_elem_of_singleton.
  - split; [by intros [? ?]; auto|]. intros [[->|?] ?]; done.
  - destruct (decide (n = m)) as [->|Hn]; [by split; auto|].
    split; [intros [?|[? ?]]; [done|]; split; [auto|]; intros ?; auto|].
    intros [[?|?] ?]; [done|]. right. split; [done|]. by intros [?|?].
Qed.

Lemma endpoints_of_nonempty n eps : n ∈ service_of <$> eps ↔ endpoints_of n eps ≠ [].
Proof.
  rewrite list_elem_of_fmap. split.
  - intros (ep & -> & Hin) E. assert (H : ep ∈ endpoints_of (service_of ep) eps) by (by apply list_elem_of_filter).
    rewrite E in H. by apply elem_of_nil in H.
  - intros Hn. destruct (endpoints_of n eps) as [|ep l] eqn:E; [done|]. exists ep.
    assert (H : ep ∈ endpoints_of n eps) by (rewrite E; by left). apply list_elem_of_filter in H as [<- ?]. done.
Qed.

(** The services are the groups of the actions' service bindings: one per name, in
    the order the names first appear, each with all the endpoints of that name in the
    order of the actions, and never empty; every endpoint of every executable action is
    in exactly one service. *)
Theorem micro_groups actions :
  let eps := service_endpoints actions in
  let '(groups, order) := group_endpoints actions in
  order = firsts [] (service_of <$> eps) ∧ NoDup order ∧
  (∀ n, default [] (groups !! n) = endpoints_of n eps) ∧
  (∀ n, n ∈ order ↔ endpoints_of n eps ≠ []) ∧
  ∀ ep n, ep ∈ eps → ep ∈ default [] (groups !! n) ↔ n = service_of ep.
Proof.
  intros eps. pose proof (fold_groups eps ∅ []) as H. unfold group_endpoints. fold eps.
  destruct (foldl _ _ eps) as [groups order].
  destruct H as (E1 & E2 & E3 & E4); [|constructor|].
  { intros n. rewrite lookup_empty. split; [by intros []|by intros ?%elem_of_nil]. }
  assert (E5 : ∀ n, default [] (groups !! n) = endpoints_of n eps) by (intros n; by rewrite E4, lookup_empty).
  split; [done|split; [done|split; [done|split]]].
  - intros n. cbn in E1. rewrite E1, elem_of_firsts, endpoints_of_nonempty. split; [by intros []|].
    intros Hn. split; [done|]. apply not_elem_of_nil.
  - intros ep n Hin. rewrite E5. unfold endpoints_of. rewrite list_elem_of_filter. split; [by intros [<- _]|].
    by intros ->.
Qed.

(** ** Mounting *)

(** The services a run added and stopped. *)
Definition added_of (e : event resp) : option nat :=
  match ev_req e as r return resp r → option nat with
  | RAddService _ => λ x, match x with Ok svc => Some svc | Err _ => None end
  | _ => λ _, None
  end (ev_resp e).
Definition stopped_of (e : event resp) : option nat :=
  match ev_req e as r return resp r → option nat with RServiceStop svc => λ _, Some svc | _ => λ _, None end (ev_resp e).

Definition added (tr : list (event resp)) : list nat := omap added_of tr.
Definition stopped (tr : list (event resp)) : list nat := omap stopped_of tr.

(** The service bindings of the executable actions, in order. *)
Definition service_binding (b : Binding) : option ServiceBinding := match b with BService sb => Some sb | _ => None end.
Definition wanted_services (actions : list AnyAction) : list ServiceBinding :=
  actions ≫= λ act, if ac_Executable act then omap service_binding (ac_Bindings act) else [].

Lemma service_endpoints_wanted actions : ep_Binding <$> service_endpoints actions = wanted_services actions.
Proof.
  unfold service_endpoints, wanted_services. induction actions as [|act actions IH]; [done|].
  cbn. rewrite fmap_app, IH. f_equal. destruct (ac_Executable act); [|done].
  induction (ac_Bindings act) as [|[] bs IHb]; cbn; rewrite ?IHb; done.
Qed.

(** The options of an endpoint: its subject, and its queue group and metadata if it has any. *)
Definition endpoint_opts (b : ServiceBinding) (opts : list EndpointOpt) : Prop :=
  (∀ s, EndpointSubject s ∈ opts ↔ s = s_Subject b) ∧
  (∀ q, EndpointQueueGroup q ∈ opts ↔ q = s_QueueGroup b ∧ q ≠ "") ∧
  (∀ m, EndpointMetadata m ∈ opts ↔ m = s_Metadata b ∧ m ≠ ∅).

Lemma endpointOpts_ok b : endpoint_opts b (endpointOpts b).
Proof.
  unfold endpoint_opts, endpointOpts. destruct (str_empty (s_QueueGroup b)) eqn:Eq, (decide (s_Metadata b = ∅)) as [Em|Em];
    cbn [negb app]; go_bool; rewrite ?Eq, ?Em; (repeat split); intros;
    repeat (rewrite elem_of_cons in * || rewrite elem_of_nil in *); destr_all; simplify_eq; naive_solver.
Qed.

(** The configuration of a service is that of its first binding. *)
Definition config_of (b : ServiceBinding) : ServiceConfig :=
  mkServiceConfig (s_Service b) (s_Version b) (s_Description b) (s_Metadata b).

(** The endpoints of a service added to it, in order. *)
Inductive endpoints_added (svc : nat) : list ServiceBinding → list (event resp) → Prop :=
| ea_nil : endpoints_added svc [] []
| ea_cons b bs opts t :
    endpoint_opts b opts → endpoints_added svc bs t →
    endpoints_added svc (b :: bs) (evt (RAddEndpoint svc (s_Endpoint b) opts) None :: t).

(** The services of the names added, in order, each with its endpoints. *)
Inductive services_added (group : string → list ServiceBinding) : list string → list nat → list (event resp) → Prop :=
| sa_nil : services_added group [] [] []
| sa_cons n names b bs svc svcs t t' :
    group n = b :: bs → endpoints_added svc (b :: bs) t → services_added group names svcs t' →
    services_added group (n :: names) (svc :: svcs) (evt (RAddService (config_of b)) (Ok svc) :: t ++ t').

(** The service of a name was refused; or one of its endpoints was, and it was stopped. *)
Inductive mount_failed (group : string → list ServiceBinding) (n : string) : list (event resp) → Prop :=
| mf_refused b bs e : group n = b :: bs → mount_failed group n [evt (RAddService (config_of b)) (Err e)]
| mf_endpoint b bs svc done bad rest t opts e y :
    group n = b :: bs → b :: bs = done ++ bad :: rest → endpoints_added svc done t → endpoint_opts bad opts →
    mount_failed group n (evt (RAddService (config_of b)) (Ok svc) :: t ++
      [evt (RAddEndpoint svc (s_Endpoint bad) opts) (Some e); evt (RServiceStop svc) y]).

(** What mounting [wanted] leaves behind. *)
Definition mounted (wanted : list ServiceBinding) (services : list nat)
    (tr : list (event resp)) (r : gores (option error * list nat)) : Prop :=
  let names := firsts [] (s_Service <$> wanted) in
  let group n := filter (λ b, s_Service b = n) wanted in
  ∃ svcs err, r = Done (err, services ++ svcs) ∧
    match err with
    | None => services_added group names svcs tr
    | Some _ => ∃ before n rest t1 t2, names = before ++ n :: rest ∧
        services_added group before svcs t1 ∧ mount_failed group n t2 ∧ tr = t1 ++ t2
    end.

Lemma register_all_sat svc eps :
  sat (register_all svc eps) (λ tr r,
    match r with
    | None => endpoints_added svc (ep_Binding <$> eps) tr
    | Some _ => ∃ done bad rest t opts e y, ep_Binding <$> eps = done ++ bad :: rest ∧
        endpoints_added svc done t ∧ endpoint_opts bad opts ∧
        tr = t ++ [evt (RAddEndpoint svc (s_Endpoint bad) opts) (Some e); evt (RServiceStop svc) y]
    end).
Proof.
  induction eps as [|ep eps IH]; cbn [register_all]; [constructor|].
  unfold registerMicroEndpoint. pose proof (endpointOpts_ok (ep_Binding ep)) as Ho. apply sat_call. intros [e|].
  - intros y. eexists [], _, _, [], _, e, y. split; [done|]. split; [constructor|]. by split.
  - eapply sat_mono; [|exact IH]. cbn beta. intros t [e|]; [|by constructor].
    intros (done' & bad & rest & t' & opts & e' & y & E & H1 & H2 & ->).
    exists (ep_Binding ep :: done'), bad, rest,
      (evt (RAddEndpoint svc (s_Endpoint (ep_Binding ep)) (endpointOpts (ep_Binding ep))) None :: t'), opts, e', y.
    cbn. rewrite E. split; [done|].
    split; [by constructor|]. done.
Qed.

Section Groups.
Context (groups : gmap string (list microEndpoint)) (group : string → list ServiceBinding).
Hypothesis Hgroup : ∀ n, ep_Binding <$> default [] (groups !! n) = group n.

Lemma mount_services_sat names services :
  (∀ n, n ∈ names → group n ≠ []) →
  sat (mount_services groups names services) (λ tr r, ∃ svcs err, r = Done (err, services ++ svcs) ∧
    match err with
    | None => services_added group names svcs tr
    | Some _ => ∃ before n rest t1 t2, names = before ++ n :: rest ∧
        services_added group before svcs t1 ∧ mount_failed group n t2 ∧ tr = t1 ++ t2
    end).
Proof.
  revert services. induction names as [|n names IH]; intros services Hg; cbn [mount_services].
  { exists [], None. rewrite app_nil_r. by split; [|constructor]. }
  pose proof (Hg n ltac:(by left)) as Hn. pose proof (Hgroup n) as En.
  destruct (default [] (groups !! n)) as [|ep eps] eqn:E; [by rewrite <- En in Hn|]. cbn in En. symmetry in En.
  apply sat_call. intros [svc|e].
  2:{ exists [], (Some (mapError e)). rewrite app_nil_r. split; [done|]. eexists [], n, names, [], _.
      split; [done|]. split; [constructor|]. split; [|done]. by eapply mf_refused. }
  apply sat_bind. eapply sat_mono; [|apply register_all_sat]. cbn beta. intros t1 [e|].
  - intros (done' & bad & rest & t & opts & e' & y & E1 & H1 & H2 & ->). exists [], (Some e).
    rewrite !app_nil_r. split; [done|]. eexists [], n, names, [], _. split; [done|]. split; [constructor|].
    split; [|done]. by eapply mf_endpoint.
  - intros H1. eapply sat_mono; [|apply IH; intros m Hm; apply Hg; by right]. cbn beta.
    intros t2 r (svcs & err & -> & Hm). exists (svc :: svcs), err. rewrite <- app_assoc. split; [done|].
    destruct err as [e|]; [|by eapply (sa_cons _ _ _ (ep_Binding ep))].
    destruct Hm as (before & m & rest & u1 & u2 & -> & A & B & ->). eexists (n :: before), m, rest, _, u2.
    split; [done|]. split; [by eapply (sa_cons _ _ _ (ep_Binding ep))|]. split; [done|].
    cbn. by rewrite <- app_assoc.
Qed.
End Groups.

Lemma endpoints_of_bindings n eps :
  ep_Binding <$> endpoints_of n eps = filter (λ b, s_Service b = n) (ep_Binding <$> eps).
Proof.
  unfold endpoints_of, service_of. induction eps as [|ep eps IH]; [done|]. cbn [fmap list_fmap].
  rewrite !filter_cons. destruct (decide _); cbn; by rewrite IH.
Qed.

Lemma mountMicroServices_sat actions services :
  sat (mountMicroServices actions services) (mounted (wanted_services actions) services).
Proof.
  pose proof (fold_groups (service_endpoints actions) ∅ []) as H. unfold mountMicroServices, group_endpoints.
  destruct (foldl _ _ _) as [groups order]. destruct H as (E1 & _ & _ & E4); [|constructor|].
  { intros n. rewrite lookup_empty. split; [by intros []|by intros ?%elem_of_nil]. }
  unfold mounted. cbv zeta. rewrite <- service_endpoints_wanted.
  assert (En : order = firsts [] (s_Service <$> (ep_Binding <$> service_endpoints actions))).
  { rewrite E1, <- list_fmap_compose. done. }
  rewrite <- En. apply mount_services_sat.
  - intros n. rewrite E4, lookup_empty. cbn. apply endpoints_of_bindings.
  - intros n Hn Hf. rewrite <- endpoints_of_bindings in Hf. apply fmap_nil_inv in Hf. revert Hf.
    apply endpoints_of_nonempty. rewrite E1 in Hn. by apply elem_of_firsts in Hn as [? _].
Qed.

(** Services and endpoints in the traces. *)
Lemma endpoints_added_accounts svc bs t : endpoints_added svc bs t → added t = [] ∧ stopped t = [].
Proof. induction 1 as [|b bs opts t _ _ [I1 I2]]; [done|]. unfold added, stopped in *. cbn. done. Qed.

Lemma services_added_accounts group names svcs t : services_added group names svcs t → added t = svcs ∧ stopped t = [].
Proof.
  induction 1 as [|n names b bs svc svcs t t' _ He _ [I1 I2]]; [done|].
  apply endpoints_added_accounts in He as [A1 A2]. unfold added, stopped in *. cbn.
  by rewrite !omap_app, A1, A2, I1, I2.
Qed.

Lemma mount_failed_accounts group n t :
  mount_failed group n t → (added t = [] ∧ stopped t = []) ∨ ∃ svc, added t = [svc] ∧ stopped t = [svc].
Proof.
  intros [b bs e _|b bs svc done' bad rest t' opts e y _ _ He _]; [by left|right]. exists svc.
  apply endpoints_added_accounts in He as [A1 A2]. unfold added, stopped in *. cbn.
  by rewrite !omap_app, A1, A2.
Qed.

(** Every service that was added is recorded or stopped. *)
Lemma mounted_accounts wanted services tr r :
  mounted wanted services tr r → ∃ new err, r = Done (err, services ++ new) ∧
    match err with
    | None => added tr = new ∧ stopped tr = []
    | Some _ => (added tr = new ∧ stopped tr = []) ∨ ∃ svc, added tr = new ++ [svc] ∧ stopped tr = [svc]
    end.
Proof.
  intros (svcs & err & -> & H). exists svcs, err. split; [done|]. destruct err as [e|].
  - destruct H as (before & n & rest & t1 & t2 & _ & A%services_added_accounts & B%mount_failed_accounts & ->).
    destruct A as [A1 A2]. unfold added, stopped in *. rewrite !omap_app, A1, A2.
    destruct B as [[-> ->]|(svc & -> & ->)]; [left; by rewrite app_nil_r|right; by exists svc].
  - by apply services_added_accounts in H.
Qed.

(** A service binding was mounted: its service was added and so was its endpoint. *)
Definition service_mounted (tr : list (event resp)) (b : ServiceBinding) : Prop :=
  ∃ svc cfg opts, sv_Name cfg = s_Service b ∧ evt (RAddService cfg) (Ok svc) ∈ tr ∧ endpoint_opts b opts ∧
    evt (RAddEndpoint svc (s_Endpoint b) opts) None ∈ tr.

Lemma endpoints_added_elem svc bs t b :
  endpoints_added svc bs t → b ∈ bs → ∃ opts, endpoint_opts b opts ∧ evt (RAddEndpoint svc (s_Endpoint b) opts) None ∈ t.
Proof.
  induction 1 as [|b' bs opts t Ho _ IH]; [by intros ?%elem_of_nil|]. intros [->|Hb]%elem_of_cons.
  - exists opts. split; [done|by left].
  - destruct (IH Hb) as (opts' & H1 & H2). exists opts'. split; [done|by right].
Qed.

Lemma services_added_elem wanted names svcs t b :
  services_added (λ n, filter (λ b, s_Service b = n) wanted) names svcs t → b ∈ wanted → s_Service b ∈ names →
  service_mounted t b.
Proof.
  remember (λ n, filter (λ b, s_Service b = n) wanted) as group eqn:Eg. intros H Hb.
  induction H as [|n names b0 bs svc svcs t t' En He _ IH]; [by intros ?%elem_of_nil|]. intros [Hn|Hn]%elem_of_cons.
  - assert (Hin : b ∈ group n) by (rewrite Eg; by apply list_elem_of_filter).
    assert (Hs : s_Service b0 = n).
    { assert (H0 : b0 ∈ group n) by (rewrite En; by left). rewrite Eg in H0. by apply list_elem_of_filter in H0 as [? _]. }
    rewrite En in Hin. destruct (endpoints_added_elem _ _ _ _ He Hin) as (opts & H1 & H2).
    exists svc, (config_of b0), opts. cbn. split; [by rewrite Hs|]. set_solver.
  - destruct (IH Hn) as (svc' & cfg & opts & H1 & H2 & H3 & H4). exists svc', cfg, opts. set_solver.
Qed.

Lemma mounted_all wanted services tr services' b :
  mounted wanted services tr (Done (None, services')) → b ∈ wanted → service_mounted tr b.
Proof.
  intros (svcs & err & [= <- ->] & H) Hb. eapply services_added_elem; [exact H|done|].
  apply elem_of_firsts. split; [by apply list_elem_of_fmap_2|apply not_elem_of_nil].
Qed.

(** C27: Mounting the services never panics and never leaks.  The service bindings of the
    executable actions are grouped by service name.  On success one service was added per
    name, in the order the names first appear, with the name, version, description and
    metadata of the first binding of that name, and right after it all the endpoints of
    that name were added to it, in order, each with its own name, subject and (when given)
    queue group and metadata; the services are recorded for the runner to stop.  On
    failure the services completed before are recorded, and the next one was refused, or
    one of its endpoints was and it was stopped - nothing else was added. *)
Theorem mountMicroServices_complete actions services :
  sat (mountMicroServices actions services) (mounted (wanted_services actions) services).
Proof. exact (mountMicroServices_sat actions services). Qed.
End Actions.

(** ** The endpoint handler *)
Section Handler.
Context {EM : ErrorModel} {K : Kernel EM}.

(** Of package xerr: the AppError of an error, its kind's name. *)
Context (xerr_From : error → error) (kind_String : Kind → string).

Definition micro_handler (closing : bool) (ctx : context) (c : codec) (b : ServiceBinding) (w : Workers)
    : prog resp (gores Workers) :=
  let '(started, w) := startWorker closing w in
  if negb started then mret (Done w)
  else
    let reqCtx := if 0 <? s_Timeout b then CtxTimeout ctx (s_Timeout b) else ctx in
    res ← call (RExecute reqCtx);
    let finished := mkWorkers (t_subs w) (t_workersWg w - 1) in
    match res with
    | Panic => mret Panic
    | Done (Err execErr) =>
        let appErr := xerr_From execErr in
        _ ← call (RRespondError (kind_String (xerr_KindFrom appErr)) (error_Error appErr));
        mret (Done finished)
    | Done (Ok res) =>
        match c res with
        | Err mErr =>
            _ ← call (RRespondError (kind_String KindInternal) "response marshal failed");
            mret (Done finished)
        | Ok payload => _ ← call (RRespond payload); mret (Done finished)
        end
    end.

(** The responses of a run. *)
Inductive response := Responded (payload : string) | RespondedError (code description : string).

Definition response_of (e : event resp) : option response :=
  match ev_req e with
  | RRespond p => Some (Responded p)
  | RRespondError code d => Some (RespondedError code d)
  | _ => None
  end.

Definition responses (tr : list (event resp)) : list response := omap response_of tr.

(** A micro endpoint responds once: unless the transport is closing (nothing runs)
    or the action panics, the handler executes the action once, under the endpoint's
    timeout, and sends exactly one response: the encoded result, or the kind and message
    of the action's error, or an Internal error when the result cannot be encoded; the
    worker count is given back. *)
Theorem micro_handler_responds_once closing ctx c b w :
  sat (micro_handler closing ctx c b w) (λ tr r,
    if closing then tr = [] ∧ r = Done w
    else ∃ res, head tr = Some (Ev (resp := resp) (RExecute (if 0 <? s_Timeout b then CtxTimeout ctx (s_Timeout b) else ctx)) res) ∧
      count is_execute tr = 1%nat ∧
      match res with
      | Panic => r = Panic ∧ responses tr = []
      | Done (Err e) => r = Done w ∧
          responses tr = [RespondedError (kind_String (xerr_KindFrom (xerr_From e))) (error_Error (xerr_From e))]
      | Done (Ok v) => r = Done w ∧
          responses tr = [match c v with
                          | Ok payload => Responded payload
                          | Err _ => RespondedError (kind_String KindInternal) "response marshal failed"
                          end]
      end).
Proof.
  assert (B : ∀ w, mkWorkers (t_subs w) (t_workersWg w + 1 - 1) = w).
  { intros [l n]. cbn. by rewrite Z.add_simpl_r. }
  unfold micro_handler, startWorker. destruct closing; cbn [negb]; [done|].
  apply sat_call. intros [[v|e]|].
  - destruct (c v) as [payload|e] eqn:Ec; intros x; exists (Done (Ok v)); rewrite Ec; cbn [t_subs t_workersWg];
      rewrite B; repeat split.
  - intros x. exists (Done (Err e)). cbn [t_subs t_workersWg]. rewrite B. repeat split.
  - exists Panic. repeat split.
Qed.
End Handler.
