(* ===== verification/Runner.v ===== *)
(** * The runner (src/tnats/tnats_runner.go, readiness in tnats.go, from_conn.go)

    Do: one run of the transport, from the connection to the cleanup.  The connection
    itself is the business of Lifecycle; here it is two calls. *)

From S2P Require Import Prelude Effects Errors Bindings World MemKV IdemExec Streams StreamsProofs Delivery.
From S2P Require Import KVOps Objects Watch Headers Publish Topic Micro.

Local Open Scope Z_scope.

Section Runner.
Context {EM : ErrorModel} {K : Kernel EM}.

(** ** Readiness *)

(** t.ready (closed or not), t.readyErr, and whether t.readyOnce has fired. *)
Record readiness := mkReady { rd_closed : bool; rd_err : option error; rd_fired : bool }.

(** New makes the channel; FromConn makes it and closes it. *)
Definition new_ready : readiness := mkReady false None false.
Definition from_conn_ready : readiness := mkReady true None false.

(** close(t.ready) on a closed channel panics, inside readyOnce.Do, with t.mu held. *)
Definition signalReady (err : option error) (rd : readiness) : gores readiness :=
  if rd_fired rd then Done rd
  else if rd_closed rd then Panic
  else Done (mkReady true err true).

(** WaitReady on a ready channel; [None]: it waits for its context. *)
Definition WaitReady (rd : readiness) : option (option error) :=
  if rd_closed rd then Some (rd_err rd) else None.

(** ** Mounting *)
Context (modifier : option (StreamConfig → StreamConfig)).

Definition dropped_watcher (r : result error nat * Workers) : option error * Workers :=
  (match r.1 with Ok _ => None | Err e => Some e end, r.2).

(** One binding of an executable action. *)
Definition mount_binding (ctx : context) (b : Binding) (w : Workers) : prog resp (option error * Workers) :=
  match b with
  | BTopic b => subscribeTopic b w
  | BRequest b => subscribeTopic (mkTopic (r_Subject b) "") w
  | BKV b => r ← mountKV ctx b w; mret (dropped_watcher r)
  | BDurable b => subscribeDurable modifier b w
  | BConsumer b => subscribeConsumer modifier b w
  | BObject b => r ← mountObjectStore b w; mret (dropped_watcher r)
  | BService _ => mret (None, w)
  | OtherBinding _ => mret (None, w)
  end.

Fixpoint mount_bindings (ctx : context) (bs : list Binding) (w : Workers) : prog resp (option error * Workers) :=
  match bs with
  | [] => mret (None, w)
  | b :: rest =>
      r ← mount_binding ctx b w;
      match r.1 with
      | Some err => mret (Some err, r.2)
      | None => mount_bindings ctx rest r.2
      end
  end.

(** The bindings of the executable actions, in the order of the two loops. *)
Definition bindings_of (actions : list AnyAction) : list Binding :=
  flat_map (λ act, if ac_Executable act then ac_Bindings act else []) actions.

Definition mountActions (ctx : context) (actions : list AnyAction) (w : Workers) (services : list nat)
    : prog resp (gores (option error * Workers * list nat)) :=
  r ← mount_bindings ctx (bindings_of actions) w;
  match r.1 with
  | Some err => mret (Done (Some err, r.2, services))
  | None =>
      m ← mountMicroServices actions services;
      match m with
      | Panic => mret Panic
      | Done (err, services) => mret (Done (err, r.2, services))
      end
  end.

(** ** Do *)
Record runner := mkRunner {
  ru_running : bool;
  ru_closing : bool;
  ru_ready : readiness;
  ru_workers : Workers;
  ru_services : list nat
}.

(** How a call of Do ends: it returns an error (nil is success); it panics; or it hangs,
    when a deferred function waits for t.mu, which the panicking goroutine holds. *)
Inductive outcome := Returned (err : option error) (t : runner) | Panicked | Hung.

(** What New and its options, or FromConn, fixed. *)
Record settings := mkSettings { se_initErr : option error; se_embedded : bool; se_actions : list AnyAction }.

Definition set_ready (rd : readiness) (t : runner) : runner :=
  mkRunner (ru_running t) (ru_closing t) rd (ru_workers t) (ru_services t).
Definition set_running (b : bool) (t : runner) : runner :=
  mkRunner b (ru_closing t) (ru_ready t) (ru_workers t) (ru_services t).
Definition set_mounted (w : Workers) (services : list nat) (t : runner) : runner :=
  mkRunner (ru_running t) (ru_closing t) (ru_ready t) w services.
Definition set_closing (b : bool) (t : runner) : runner :=
  mkRunner (ru_running t) b (ru_ready t) (ru_workers t) (ru_services t).

(** signalReady(err); [unwind]: the deferred functions that run when it panics, with
    t.mu held. *)
Definition signal (unwind : prog resp outcome) (err : option error) (t : runner)
    (k : runner → prog resp outcome) : prog resp outcome :=
  match signalReady err (ru_ready t) with
  | Done rd => k (set_ready rd t)
  | Panic => unwind
  end.

(** Only running.Store(false); or stopEmbedded, which takes t.mu; or the cleanup, which
    cancels the run context and then takes t.mu. *)
Definition unwind_plain : prog resp outcome := mret Panicked.
Definition unwind_embedded (embedded : bool) : prog resp outcome := mret (if embedded then Hung else Panicked).
Definition unwind_cleanup : prog resp outcome := _ ← call RCancelRun; mret Hung.

Fixpoint stop_all (services : list nat) : prog resp unit :=
  match services with
  | [] => mret tt
  | svc :: rest => _ ← call (RServiceStop svc); stop_all rest
  end.

Fixpoint unsubscribe_all (subs : list nat) : prog resp unit :=
  match subs with
  | [] => mret tt
  | sub :: rest => _ ← call (RUnsubscribe sub); unsubscribe_all rest
  end.

(** The deferred cleanup; workersWg.Wait returns when every worker has ended. *)
Definition cleanup (t : runner) : prog resp runner :=
  _ ← call RCancelRun;
  _ ← stop_all (ru_services t);
  _ ← unsubscribe_all (t_subs (ru_workers t));
  _ ← call RWorkersWait;
  _ ← call RCloseTransport;
  mret (mkRunner (ru_running t) true (ru_ready t) (mkWorkers [] 0) []).

(** stopEmbedded, if it was started, and running.Store(false). *)
Definition finish (embedded : bool) (err : option error) (t : runner) : prog resp outcome :=
  _ ← (if embedded then call RStopEmbedded else mret tt);
  mret (Returned err (set_running false t)).

(** From the mounted transport to the end of the run. *)
Definition serve (ctx : context) (embedded : bool) (t : runner) : prog resp outcome :=
  let leave err t := (t ← cleanup t; finish embedded err t) in
  flushErr ← call (RFlush (CtxTimeout (CtxCancel ctx) defaultShutdownTimeout));
  match flushErr with
  | Some e => signal unwind_cleanup (Some (mapError e)) t (leave (Some (mapError e)))
  | None =>
      signal unwind_cleanup None t (λ t,
        closed ← call (RWaitClosed (CtxCancel ctx));
        if negb closed then leave None t
        else
          ctxErr ← ctx_Err ctx;
          match ctxErr with
          | Some _ => leave None t
          | None =>
              lastErr ← call RLastError;
              leave (Some (xerr_new KindUnavailable "nats: connection closed" lastErr)) t
          end)
  end.

(** From the connection on. *)
Definition run_connected (ctx : context) (embedded : bool) (actions : list AnyAction) (t : runner) : prog resp outcome :=
  let runCtx := CtxCancel ctx in
  nc ← call (REnsureConn runCtx);
  match nc with
  | Err err => _ ← call RCancelRun; signal (unwind_embedded embedded) (Some err) t (finish embedded (Some err))
  | Ok _ =>
      jsErr ← call REnsureJetStream;
      match jsErr with
      | Some err => _ ← call RCancelRun; signal (unwind_embedded embedded) (Some err) t (finish embedded (Some err))
      | None =>
          m ← mountActions runCtx actions (ru_workers t) (ru_services t);
          match m with
          | Panic => _ ← cleanup t; _ ← (if embedded then call RStopEmbedded else mret tt); mret Panicked
          | Done (mountErr, w, services) =>
              let t := set_mounted w services t in
              match mountErr with
              | Some e => signal unwind_cleanup (Some e) t (λ t, t ← cleanup t; finish embedded (Some e) t)
              | None => serve ctx embedded t
              end
          end
      end
  end.

Definition already_running : error := errors_New "nats transport is already running".

Definition Do (se : settings) (ctx : context) (t : runner) : prog resp outcome :=
  if ru_running t then mret (Returned (Some already_running) t)
  else
    let t := set_closing false (set_running true t) in
    match se_initErr se with
    | Some initErr => signal unwind_plain (Some initErr) t (finish false (Some initErr))
    | None =>
        if se_embedded se then
          err ← call RStartEmbedded;
          match err with
          | Some err => signal unwind_plain (Some err) t (finish false (Some err))
          | None => run_connected ctx true (se_actions se) t
          end
        else run_connected ctx false (se_actions se) t
    end.

(** New(url, opts...) and FromConn(nc), as far as Do goes. *)
Definition New_runner : runner := mkRunner false false new_ready (mkWorkers [] 0) [].
Definition FromConn : runner := mkRunner false false from_conn_ready (mkWorkers [] 0) [].
End Runner.
