(* ===== verification/RunnerProofs.v ===== *)
(** * The runner: theorems (src/tnats/tnats_runner.go) *)

From S2P Require Import Prelude Effects Errors Bindings World MemKV IdemExec Streams StreamsProofs Delivery.
From S2P Require Import KVOps Objects Watch Headers Publish Topic Micro Runner.

Local Open Scope Z_scope.

Section RunnerProofs.
Context {EM : ErrorModel} {K : Kernel EM}.
Context (modifier : option (StreamConfig → StreamConfig)).

Abbreviation evt := (@Ev req resp).

(** ** Accounting for subscriptions *)
Definition opened_of (e : event resp) : option nat :=
  match ev_req e as r return resp r → option nat with
  | RPullSubscribe _ _ _ => λ x, match x with Ok s => Some s | Err _ => None end
  | RSubscribe _ _ => λ x, match x with Ok s => Some s | Err _ => None end
  | _ => λ _, None
  end (ev_resp e).
Definition closed_of (e : event resp) : option nat :=
  match ev_req e as r return resp r → option nat with RUnsubscribe s => λ _, Some s | _ => λ _, None end (ev_resp e).

Definition opened_subs (tr : list (event resp)) : list nat := omap opened_of tr.
Definition closed_subs (tr : list (event resp)) : list nat := omap closed_of tr.

(** The calls that touch neither subscriptions nor services. *)
Definition plain (r : req) : Prop :=
  match r with
  | RPullSubscribe _ _ _ | RSubscribe _ _ | RUnsubscribe _ | RAddService _ | RServiceStop _ => False
  | _ => True
  end.

(** Subscriptions and services of a run. *)
Definition accounts (tr : list (event resp)) : list nat * list nat * list nat * list nat :=
  (opened_subs tr, closed_subs tr, added tr, stopped tr).

Lemma accounts_app t u : accounts (t ++ u) =
  (opened_subs t ++ opened_subs u, closed_subs t ++ closed_subs u, added t ++ added u, stopped t ++ stopped u).
Proof. unfold accounts, opened_subs, closed_subs, added, stopped. by rewrite !omap_app. Qed.

Lemma plain_accounts t : Forall (λ e, plain (ev_req e)) t → accounts t = ([], [], [], []).
Proof.
  unfold accounts, opened_subs, closed_subs, added, stopped.
  induction 1 as [|[r x] t Hr _ IH]; [done|]. injection IH as I1 I2 I3 I4. cbn in *.
  destruct r; cbn; try done; by rewrite I1, I2, I3, I4.
Qed.

Lemma plain_sat {A} (p : prog resp A) :
  calls_only plain p → sat p (λ tr _, accounts tr = ([], [], [], [])).
Proof.
  intros H. eapply sat_mono; [|apply calls_only_sat, H]. cbn beta. intros t _. apply plain_accounts.
Qed.

(** ** Mounting records what it opens *)

(** Every subscription opened is recorded, in order; on an error one more may have been
    opened, and was closed again. *)
Definition subs_kept (w : Workers) (tr : list (event resp)) (r : option error * Workers) : Prop :=
  ∃ new, t_subs r.2 = t_subs w ++ new ∧
    (accounts tr = (new, [], [], []) ∨ ∃ s, r.1 ≠ None ∧ accounts tr = (new ++ [s], [s], [], [])).

Lemma subs_kept_plain w tr r : accounts tr = ([], [], [], []) → t_subs r.2 = t_subs w → subs_kept w tr r.
Proof. intros H E. exists []. rewrite app_nil_r. split; [done|]. by left. Qed.

(** The calls of subscribing to a stream. *)
Definition streaming (r : req) : Prop :=
  match r with RSubscribe _ _ | RAddService _ | RServiceStop _ => False | _ => True end.

Lemma streaming_plain t :
  Forall (λ e, streaming (ev_req e)) t → no_subscription t → accounts t = ([], [], [], []).
Proof.
  intros H1 H2. apply plain_accounts. induction H1 as [|[r x] t Hr _ IH]; [constructor|].
  apply Forall_cons in H2 as [H2 H3]. constructor; [|auto]. cbn in *. by destruct r.
Qed.

Lemma opened_accounts stream durable subject opts tr x :
  Forall (λ e, streaming (ev_req e)) tr → opened stream durable subject opts tr x →
  match x with
  | Ok s => accounts tr = ([s], [], [], [])
  | Err _ => accounts tr = ([], [], [], []) ∨ ∃ s, accounts tr = ([s], [s], [], [])
  end.
Proof.
  intros Hs Ho. destruct Ho as [t err e Hn|t sub t' y e H1 H2|t sub t' H1 H2 _];
    apply Forall_app in Hs as [Hs1 Hs2]; apply Forall_cons in Hs2 as [_ Hs2];
    rewrite accounts_app.
  - pose proof (streaming_plain _ Hs1 Hn) as [= -> -> -> ->]. by left.
  - apply Forall_app in Hs2 as [Hs2 _]. right. exists sub.
    pose proof (streaming_plain _ Hs1 H1) as [= -> -> -> ->].
    pose proof (streaming_plain _ Hs2 H2) as [= E1 E2 E3 E4].
    unfold opened_subs, closed_subs, added, stopped in *. cbn. by rewrite !omap_app, E1, E2, E3, E4.
  - pose proof (streaming_plain _ Hs1 H1) as [= -> -> -> ->].
    pose proof (streaming_plain _ Hs2 H2) as [= E1 E2 E3 E4].
    unfold opened_subs, closed_subs, added, stopped in *. cbn. by rewrite E1, E2, E3, E4.
Qed.

Lemma subscribed_kept stream durable subject opts w tr r :
  Forall (λ e, streaming (ev_req e)) tr → subscribed stream durable subject opts w tr r → subs_kept w tr r.
Proof.
  intros Hs [(Hn & _ & E)|(x & Ho & Hx)].
  - apply subs_kept_plain; [by apply streaming_plain|by rewrite E].
  - apply opened_accounts in Ho; [|done]. destruct x as [s|e]; subst r; cbn [fst snd].
    + exists [s]. split; [done|]. by left.
    + destruct Ho as [Ho|[s Ho]]; [by apply subs_kept_plain|].
      exists []. split; [by rewrite app_nil_r|]. right. by exists s.
Qed.

Lemma ensure_loop_streaming n name subjects : calls_only streaming (ensure_loop n modifier name subjects).
Proof. induction n as [|n IH]; cbn [ensure_loop]; repeat (first [exact IH|calls_step]). Qed.

Ltac streaming_calls :=
  repeat (first [apply ensure_loop_streaming|calls_step]).

Lemma subscribeConsumer_kept b w : sat (subscribeConsumer modifier b w) (subs_kept w).
Proof.
  assert (C : calls_only streaming (subscribeConsumer modifier b w)).
  { unfold subscribeConsumer, ensureConsumerInfra, ensureStream, openConsumerSubscription,
      checkedSubscription, ensureUnlimitedConsumerDeliveries. cbv zeta. streaming_calls. }
  apply sat_runs. intros tr r Hr. eapply subscribed_kept.
  - exact (proj1 (sat_runs _ _) (calls_only_sat _ _ C) _ _ Hr).
  - exact (proj1 (sat_runs _ _) (subscribeConsumer_sat modifier b w) _ _ Hr).
Qed.

Lemma subscribeDurable_kept b w : sat (subscribeDurable modifier b w) (subs_kept w).
Proof.
  assert (C : calls_only streaming (subscribeDurable modifier b w)).
  { unfold subscribeDurable, ensureDurableInfra, ensureStream, checkedSubscription,
      ensureUnlimitedConsumerDeliveries. streaming_calls. }
  apply sat_runs. intros tr r Hr. eapply subscribed_kept.
  - exact (proj1 (sat_runs _ _) (calls_only_sat _ _ C) _ _ Hr).
  - exact (proj1 (sat_runs _ _) (subscribeDurable_sat modifier b w) _ _ Hr).
Qed.

Lemma subscribeTopic_kept b w : sat (subscribeTopic b w) (subs_kept w).
Proof.
  intros [s|e]; [|apply subs_kept_plain; done]. exists [s]. split; [done|]. by left.
Qed.

(** Watchers use no subscription of their own. *)
Lemma watcher_kept (p : prog resp (result error nat * Workers)) w :
  calls_only plain p → sat p (λ _ r, t_subs r.2 = t_subs w) →
  sat (r ← p; mret (dropped_watcher r)) (subs_kept w).
Proof.
  intros Hc Hs. apply sat_bind. apply sat_runs. intros tr r Hr. cbn. apply subs_kept_plain.
  - rewrite app_nil_r. exact (proj1 (sat_runs _ _) (plain_sat _ Hc) _ _ Hr).
  - exact (proj1 (sat_runs _ _) Hs _ _ Hr).
Qed.

Lemma mountKV_kept ctx b w : sat (r ← mountKV ctx b w; mret (dropped_watcher r)) (subs_kept w).
Proof.
  apply watcher_kept; unfold mountKV, openKVWatcher, ctx_Err.
  - destruct ctx; repeat calls_step.
  - destruct (str_empty (kv_Bucket b)), (str_empty (kv_Key b)); destruct ctx;
      repeat (first [apply sat_call; intros ?|sat_step|reflexivity]).
Qed.

Lemma mountObject_kept b w : sat (r ← mountObjectStore b w; mret (dropped_watcher r)) (subs_kept w).
Proof.
  apply watcher_kept; unfold mountObjectStore.
  - repeat calls_step.
  - destruct (validateObjectBinding b); repeat (first [apply sat_call; intros ?|sat_step|reflexivity]).
Qed.

Lemma mount_binding_kept ctx b w : sat (mount_binding modifier ctx b w) (subs_kept w).
Proof.
  destruct b; cbn [mount_binding]; try (by apply subs_kept_plain);
    auto using subscribeTopic_kept, mountKV_kept, mountObject_kept, subscribeConsumer_kept, subscribeDurable_kept.
Qed.

Lemma mount_bindings_kept ctx bs w : sat (mount_bindings modifier ctx bs w) (subs_kept w).
Proof.
  revert w. induction bs as [|b bs IH]; intros w; cbn [mount_bindings]; [by apply subs_kept_plain|].
  apply sat_bind. eapply sat_mono; [|apply mount_binding_kept]. cbn beta. intros t1 [[e|] w1] (new & E & H); cbn [fst snd] in *.
  - cbn. rewrite app_nil_r. exists new. split; [done|]. destruct H as [H|[s [_ H]]]; [by left|right]. by exists s.
  - destruct H as [H1|[s [? _]]]; [|done]. eapply sat_mono; [|apply IH]. cbn beta.
    intros t2 r (new2 & E2 & H2). injection H1 as A1 A2 A3 A4. exists (new ++ new2).
    rewrite E2, E, app_assoc, accounts_app, A1, A2, A3, A4. split; [done|].
    destruct H2 as [[= -> -> -> ->]|(s & Hr & [= -> -> -> ->])]; [by left|right].
    exists s. by rewrite app_assoc.
Qed.

Lemma micro_streamless actions services :
  calls_only (λ r, match r with RPullSubscribe _ _ _ | RSubscribe _ _ | RUnsubscribe _ => False | _ => True end)
    (mountMicroServices actions services).
Proof.
  assert (R : ∀ svc eps, calls_only (λ r, match r with RPullSubscribe _ _ _ | RSubscribe _ _ | RUnsubscribe _ => False | _ => True end)
    (register_all svc eps)).
  { intros svc eps. induction eps as [|ep eps IH]; cbn [register_all]; [done|].
    unfold registerMicroEndpoint. repeat (first [exact IH|calls_step]). }
  unfold mountMicroServices. destruct (group_endpoints actions) as [groups order].
  revert services. induction order as [|n order IH]; intros services; cbn [mount_services]; [done|].
  destruct (default [] _); [done|]. repeat (first [apply IH|apply R|calls_step]).
Qed.

Lemma no_subs t :
  Forall (λ e, match ev_req e with RPullSubscribe _ _ _ | RSubscribe _ _ | RUnsubscribe _ => False | _ => True end) t →
  opened_subs t = [] ∧ closed_subs t = [].
Proof.
  unfold opened_subs, closed_subs. induction 1 as [|[r x] t Hr _ [I1 I2]]; [done|].
  cbn in *. destruct r; cbn; done.
Qed.

(** What is recorded when mounting ends: everything that is not closed or stopped. *)
Definition recorded (w w' : Workers) (services services' : list nat) (tr : list (event resp)) : Prop :=
  ∃ subs svcs, t_subs w' = t_subs w ++ subs ∧ services' = services ++ svcs ∧
    (∀ s, s ∈ opened_subs tr → s ∈ subs ∨ s ∈ closed_subs tr) ∧
    (∀ s, s ∈ added tr → s ∈ svcs ∨ s ∈ stopped tr).

(** ** Mounting mounts every binding *)

(** What the broker has acknowledged of a binding. *)
Definition binding_mounted (tr : list (event resp)) (b : Binding) : Prop :=
  match b with
  | BTopic b => ∃ s, evt (RSubscribe (t_Subject b) (if str_empty (t_QueueGroup b) then None else Some (t_QueueGroup b))) (Ok s) ∈ tr
  | BRequest b => ∃ s, evt (RSubscribe (r_Subject b) None) (Ok s) ∈ tr
  | BKV b => ∃ w, evt (RKvWatch (kv_Bucket b) (if str_empty (kv_Key b) then None else Some (kv_Key b))) (Ok w) ∈ tr
  | BObject b => ∃ w, evt (RObjWatch (o_Bucket b)) (Ok w) ∈ tr
  | BDurable b => ∃ opts s, evt (RPullSubscribe (d_Subject b) (d_Durable b) opts) (Ok s) ∈ tr ∧
      OptBindStream (d_Stream b) ∈ opts
  | BConsumer b => ∃ opts s,
      evt (RPullSubscribe (match c_FilterSubjects b with [] => c_Subject b | _ => "" end) (c_Durable b) opts) (Ok s) ∈ tr ∧
      ∀ k, opts_of k opts = wanted_opts b k
  | BService b => service_mounted tr b
  | OtherBinding _ => True
  end.

(** Every binding of every executable action. *)
Definition all_mounted (actions : list AnyAction) (tr : list (event resp)) : Prop :=
  ∀ act b, act ∈ actions → ac_Executable act = true → b ∈ ac_Bindings act → binding_mounted tr b.

Lemma binding_mounted_mono t t' b : t ⊆ t' → binding_mounted t b → binding_mounted t' b.
Proof.
  intros Hs. destruct b; cbn; try naive_solver.
  intros (svc & cfg & opts & H1 & H2 & H3 & H4). exists svc, cfg, opts. auto.
Qed.

Lemma all_mounted_mono actions t t' : t ⊆ t' → all_mounted actions t → all_mounted actions t'.
Proof. intros Hs H act b H1 H2 H3. eapply binding_mounted_mono; [done|by eapply H]. Qed.

(** Mounting one binding; service bindings are mounted after the others. *)
Definition is_service (b : Binding) : bool := match b with BService _ => true | _ => false end.

Lemma opened_event stream durable subject opts tr sub :
  opened stream durable subject opts tr (Ok sub) → evt (RPullSubscribe subject durable opts) (Ok sub) ∈ tr.
Proof. inversion 1. set_solver. Qed.

Lemma subscribed_event stream durable subject opts w tr r :
  subscribed stream durable subject opts w tr r → r.1 = None →
  ∃ s, evt (RPullSubscribe subject durable opts) (Ok s) ∈ tr.
Proof.
  intros [(_ & [e He] & _)|(x & Ho & Hx)] Hr; [congruence|]. destruct x as [s|e]; subst r; [|done].
  exists s. by eapply opened_event.
Qed.

Lemma watching {A} (p : prog resp (result error nat * A)) (P : list (event resp) → Prop) :
  sat p (λ tr r, is_ok r.1 = true → P tr) →
  sat (r ← p; mret (match r.1 with Ok _ => None | Err e => Some e end : option error, r.2)) (λ tr r, r.1 = None → P tr).
Proof.
  intros H. apply sat_bind. eapply sat_mono; [|exact H]. cbn beta. intros t [[x|e] y] Ht; cbn; rewrite app_nil_r; [auto|done].
Qed.

Lemma mount_binding_mounts ctx b w :
  is_service b = false → sat (mount_binding modifier ctx b w) (λ tr r, r.1 = None → binding_mounted tr b).
Proof.
  intros Hb. destruct b as [b|b|b|b|b|b|b|d]; cbn [mount_binding binding_mounted] in *; try done.
  - unfold subscribeTopic. replace (if negb (str_empty (t_QueueGroup b)) then Some (t_QueueGroup b) else None)
      with (if str_empty (t_QueueGroup b) then None else Some (t_QueueGroup b)) by (by destruct (str_empty _)).
    intros [s|e]; [|done]. intros _. exists s. set_solver.
  - unfold dropped_watcher. apply watching. unfold mountKV, openKVWatcher, ctx_Err.
    destruct (str_empty (kv_Bucket b)); [done|].
    destruct (str_empty (kv_Key b)); destruct ctx;
      repeat (first [apply sat_call; intros ?|sat_step]); cbn; try done; intros _; eexists; repeat first [left|right].
  - unfold subscribeTopic. intros [s|e]; [|done]. intros _. exists s. set_solver.
  - eapply sat_mono; [|apply subscribeDurable_sat]. cbn beta. intros tr r H Hr.
    destruct (subscribed_event _ _ _ _ _ _ _ H Hr) as [s Hs]. eexists _, s. split; [exact Hs|]. unfold durableOpts. set_solver.
  - eapply sat_mono; [|apply subscribeConsumer_sat]. cbn beta. intros tr r H Hr.
    destruct (subscribed_event _ _ _ _ _ _ _ H Hr) as [s Hs]. exists (consumerOpts b), s.
    split; [|apply consumerOpts_wanted]. unfold subscribe_subject in Hs. by destruct (c_FilterSubjects b).
  - unfold dropped_watcher. apply watching. unfold mountObjectStore.
    destruct (validateObjectBinding b); [done|].
    repeat (first [apply sat_call; intros ?|sat_step]); cbn; try done; intros _; eexists; repeat first [left|right].
Qed.

Lemma mount_bindings_mounts ctx bs w :
  sat (mount_bindings modifier ctx bs w) (λ tr r, r.1 = None →
    ∀ b, b ∈ bs → is_service b = false → binding_mounted tr b).
Proof.
  revert w. induction bs as [|b bs IH]; intros w; cbn [mount_bindings]; [by intros _ b ?%elem_of_nil|].
  apply sat_bind. assert (H : sat (mount_binding modifier ctx b w) (λ tr r, r.1 = None →
    is_service b = false → binding_mounted tr b)).
  { destruct (is_service b) eqn:E; [apply sat_runs; intros tr r _ _; done|].
    eapply sat_mono; [|by apply mount_binding_mounts]. cbn beta. auto. }
  eapply sat_mono; [|exact H]. cbn beta. intros t1 [[e|] w1] H1; [done|]. cbn [fst snd] in *.
  eapply sat_mono; [|apply IH]. cbn beta. intros t2 r H2 Hr b' [->|Hb]%elem_of_cons Hs.
  - eapply binding_mounted_mono; [|by apply H1]. set_solver.
  - eapply binding_mounted_mono; [|by apply H2]. set_solver.
Qed.

(** The calls of mounting: none of the runner's own. *)
Definition mounting (r : req) : Prop :=
  match r with
  | RStartEmbedded | RStopEmbedded | REnsureConn _ | REnsureJetStream | RCancelRun | RWorkersWait | RCloseTransport
  | RFlush _ => False
  | _ => True
  end.

Lemma ensure_loop_mounting n name subjects : calls_only mounting (ensure_loop n modifier name subjects).
Proof. induction n as [|n IH]; cbn [ensure_loop]; repeat (first [exact IH|calls_step]). Qed.

Lemma mount_bindings_mounting ctx bs w : calls_only mounting (mount_bindings modifier ctx bs w).
Proof.
  revert w. induction bs as [|b bs IH]; intros w; cbn [mount_bindings]; [done|].
  apply calls_only_bind; [|intros [[e|] w1]; [done|apply IH]].
  destruct b; cbn [mount_binding];
    unfold subscribeTopic, mountKV, openKVWatcher, mountObjectStore, ctx_Err,
      subscribeDurable, subscribeConsumer, ensureDurableInfra, ensureConsumerInfra, ensureStream,
      openConsumerSubscription, checkedSubscription, ensureUnlimitedConsumerDeliveries; cbv zeta;
    try destruct ctx; repeat (first [apply ensure_loop_mounting|calls_step]).
Qed.

Lemma micro_mounting actions services : calls_only mounting (mountMicroServices actions services).
Proof.
  assert (R : ∀ svc eps, calls_only mounting (register_all svc eps)).
  { intros svc eps. induction eps as [|ep eps IH]; cbn [register_all]; [done|].
    unfold registerMicroEndpoint. repeat (first [exact IH|calls_step]). }
  unfold mountMicroServices. destruct (group_endpoints actions) as [groups order].
  revert services. induction order as [|n order IH]; intros services; cbn [mount_services]; [done|].
  destruct (default [] _); [done|]. repeat (first [apply IH|apply R|calls_step]).
Qed.

Lemma mountActions_mounting ctx actions w services :
  sat (mountActions modifier ctx actions w services) (λ tr _, Forall (λ e, mounting (ev_req e)) tr).
Proof.
  apply calls_only_sat. unfold mountActions. apply calls_only_bind; [apply mount_bindings_mounting|].
  intros [[e|] w1]; [done|]. apply calls_only_bind; [apply micro_mounting|]. by intros [[err l]|].
Qed.

Lemma bindings_of_elem actions act b :
  act ∈ actions → ac_Executable act = true → b ∈ ac_Bindings act → b ∈ bindings_of actions.
Proof.
  intros H1 H2 H3. unfold bindings_of. apply list_elem_of_In, in_flat_map. exists act.
  rewrite H2. split; by apply list_elem_of_In.
Qed.

Lemma wanted_services_elem actions act b :
  act ∈ actions → ac_Executable act = true → BService b ∈ ac_Bindings act → b ∈ wanted_services actions.
Proof.
  intros H1 H2 H3. unfold wanted_services. apply list_elem_of_bind. exists act. split; [|done]. rewrite H2.
  apply list_elem_of_omap. by exists (BService b).
Qed.

Lemma mountActions_mounts ctx actions w services :
  sat (mountActions modifier ctx actions w services) (λ tr r,
    ∀ w' services', r = Done (None, w', services') → all_mounted actions tr).
Proof.
  unfold mountActions. apply sat_bind. eapply sat_mono; [|apply mount_bindings_mounts]. cbn beta.
  intros t1 [[e|] w1] H1; [by intros w' s' [= ->]|]. specialize (H1 eq_refl). cbn [fst snd].
  apply sat_bind. eapply sat_mono; [|apply mountMicroServices_sat]. cbn beta.
  intros t2 [[err l]|] H2; [|by intros w' s' ?]. intros w' s' [= -> _ _]. cbn. rewrite app_nil_r.
  intros act b Ha He Hb. destruct (is_service b) eqn:Es.
  - destruct b as [| | | | | |b|]; try done. eapply binding_mounted_mono with (t := t2); [set_solver|].
    eapply mounted_all; [exact H2|]. by eapply wanted_services_elem.
  - eapply binding_mounted_mono with (t := t1); [set_solver|]. apply H1; [|done]. by eapply bindings_of_elem.
Qed.

Lemma mountActions_recorded ctx actions w services :
  sat (mountActions modifier ctx actions w services) (λ tr r,
    ∃ err w' services', r = Done (err, w', services') ∧ recorded w w' services services' tr).
Proof.
  unfold mountActions. apply sat_bind. eapply sat_mono; [|apply mount_bindings_kept]. cbn beta.
  intros t1 [e w1] (new & E & H). cbn [fst snd] in *. destruct e as [e|].
  - cbn. rewrite app_nil_r. exists (Some e), w1, services. split; [done|]. exists new, [].
    split; [done|]. split; [by rewrite app_nil_r|].
    destruct H as [[= -> -> -> ->]|(s & _ & [= -> -> -> ->])]; set_solver.
  - destruct H as [[= A1 A2 A3 A4]|(s & ? & _)]; [|done]. apply sat_bind.
    apply sat_runs. intros t2 r Hr.
    pose proof (proj1 (sat_runs _ _) (calls_only_sat _ _ (micro_streamless actions services)) _ _ Hr) as Hn.
    apply no_subs in Hn as [N1 N2].
    apply (proj1 (sat_runs _ _) (mountMicroServices_sat actions services)) in Hr.
    apply mounted_accounts in Hr as (svcs & err & -> & Hr). cbn. rewrite app_nil_r.
    exists err, w1, (services ++ svcs). split; [done|]. exists new, svcs.
    unfold opened_subs, closed_subs, added, stopped in *. rewrite !omap_app, N1, N2, A1, A2, A3, A4, !app_nil_r.
    split; [done|split; [done|split; [by (intros s; left)|]]]. cbn [app]. destruct err as [err|].
    + destruct Hr as [[-> _]|(s & -> & ->)]; set_solver.
    + destruct Hr as (-> & _). intros s. by left.
Qed.

(** Mounting, all of it. *)
Definition mount_done (actions : list AnyAction) (w : Workers) (services : list nat) (tr : list (event resp))
    (r : gores (option error * Workers * list nat)) : Prop :=
  ∃ err w' services', r = Done (err, w', services') ∧ recorded w w' services services' tr ∧
    Forall (λ e, mounting (ev_req e)) tr ∧ (err = None → all_mounted actions tr).

Lemma mountActions_sat ctx actions w services :
  sat (mountActions modifier ctx actions w services) (mount_done actions w services).
Proof.
  eapply sat_mono; [|apply sat_and; [apply mountActions_recorded|
    apply sat_and; [apply mountActions_mounting|apply mountActions_mounts]]].
  cbn beta. intros tr r ((err & w' & services' & -> & H1) & H2 & H3). exists err, w', services'.
  split; [done|]. split; [done|]. split; [done|]. intros ->. by eapply H3.
Qed.

(** ** The cleanup *)
Lemma stop_all_sat services : sat (stop_all services) (λ tr _, accounts tr = ([], [], [], services)).
Proof.
  induction services as [|s l IH]; cbn [stop_all]; [done|]. apply sat_call. intros x.
  eapply sat_mono; [|exact IH]. cbn beta. intros t _ [= H1 H2 H3 H4].
  unfold accounts, opened_subs, closed_subs, added, stopped in *. cbn. by rewrite H1, H2, H3, H4.
Qed.

Lemma unsubscribe_all_sat subs : sat (unsubscribe_all subs) (λ tr _, accounts tr = ([], subs, [], [])).
Proof.
  induction subs as [|s l IH]; cbn [unsubscribe_all]; [done|]. apply sat_call. intros x.
  eapply sat_mono; [|exact IH]. cbn beta. intros t _ [= H1 H2 H3 H4].
  unfold accounts, opened_subs, closed_subs, added, stopped in *. cbn. by rewrite H1, H2, H3, H4.
Qed.

(** ** The stages of a run *)
Inductive stage := SStarted | SConnect | SJetStream | SCancelled | SWaited | SClosed | SStopped.

Definition stage_of (e : event resp) : option stage :=
  match ev_req e as r return resp r → option stage with
  | RStartEmbedded => λ x, match x with None => Some SStarted | Some _ => None end
  | REnsureConn _ => λ _, Some SConnect
  | REnsureJetStream => λ x, match x with None => Some SJetStream | Some _ => None end
  | RCancelRun => λ _, Some SCancelled
  | RWorkersWait => λ _, Some SWaited
  | RCloseTransport => λ _, Some SClosed
  | RStopEmbedded => λ _, Some SStopped
  | _ => λ _, None
  end (ev_resp e).
Definition stages (tr : list (event resp)) : list stage := omap stage_of tr.

Lemma stages_app t u : stages (t ++ u) = stages t ++ stages u.
Proof. apply omap_app. Qed.

Lemma stageless t : Forall (λ e, ∀ x, stage_of (evt (ev_req e) x) = None) t → stages t = [].
Proof.
  unfold stages. induction 1 as [|[r x] t Hr _ IH]; [done|]. cbn [omap list_omap]. cbn in Hr. by rewrite (Hr x).
Qed.

Lemma mounting_stages t : Forall (λ e, mounting (ev_req e)) t → stages t = [].
Proof.
  intros H. apply stageless. eapply Forall_impl; [exact H|]. intros [r x] Hr. cbn in *. by destruct r.
Qed.

(** The calls that release. *)
Definition releasing (r : req) : Prop := match r with RServiceStop _ | RUnsubscribe _ => True | _ => False end.

Lemma releasing_stages t : Forall (λ e, releasing (ev_req e)) t → stages t = [].
Proof.
  intros H. apply stageless. eapply Forall_impl; [exact H|]. intros [r x] Hr. cbn in *. by destruct r.
Qed.

Lemma stop_all_releasing services : calls_only releasing (stop_all services).
Proof. induction services as [|s l IH]; cbn [stop_all]; repeat (first [exact IH|calls_step]). Qed.
Lemma unsubscribe_all_releasing subs : calls_only releasing (unsubscribe_all subs).
Proof. induction subs as [|s l IH]; cbn [unsubscribe_all]; repeat (first [exact IH|calls_step]). Qed.

(** The cleanup cancels the run context first, then releases, then waits for the workers
    and closes. *)
Lemma cleanup_sat t :
  sat (cleanup t) (λ tr t',
    ∃ x t1 a b, tr = evt RCancelRun x :: t1 ++ [evt RWorkersWait a; evt RCloseTransport b] ∧
      Forall (λ e, releasing (ev_req e)) t1 ∧ accounts t1 = ([], t_subs (ru_workers t), [], ru_services t) ∧
      t' = mkRunner (ru_running t) true (ru_ready t) (mkWorkers [] 0) []).
Proof.
  unfold cleanup. apply sat_call. intros x1. apply sat_bind.
  eapply sat_mono; [|apply sat_and; [apply stop_all_sat|apply calls_only_sat, stop_all_releasing]].
  cbn beta. intros t1 _ [A F1]. apply sat_bind.
  eapply sat_mono; [|apply sat_and; [apply unsubscribe_all_sat|apply calls_only_sat, unsubscribe_all_releasing]].
  cbn beta. intros t2 _ [B F2]. apply sat_call. intros x2. apply sat_call. intros x3. cbn.
  exists x1, (t1 ++ t2), x2, x3. split; [by rewrite <- app_assoc|]. split; [by apply Forall_app|]. split; [|done].
  injection A as A1 A2 A3 A4. injection B as B1 B2 B3 B4.
  unfold accounts, opened_subs, closed_subs, added, stopped in *.
  by rewrite !omap_app, A1, A2, A3, A4, B1, B2, B3, B4, ?app_nil_r.
Qed.

(** ** Readiness *)

(** The channel is closed exactly when readyOnce has fired: so it is after New, and
    signalReady keeps it. *)
Definition consistent (rd : readiness) : Prop := rd_closed rd = rd_fired rd.

Definition signalled (err : option error) (rd : readiness) : readiness :=
  if rd_fired rd then rd else mkReady true err true.

Lemma signal_consistent unwind err t k :
  consistent (ru_ready t) → signal unwind err t k = k (set_ready (signalled err (ru_ready t)) t).
Proof.
  unfold consistent, signal, signalReady, signalled. intros H. destruct (rd_fired (ru_ready t)); [done|]. by rewrite H.
Qed.

Lemma signalled_consistent err rd : consistent rd → consistent (signalled err rd).
Proof. unfold consistent, signalled. by destruct (rd_fired rd) eqn:E; [rewrite E|]. Qed.

(** ** The end of a run *)

(** A transport with no run in progress. *)
Definition idle (t : runner) : Prop :=
  ru_running t = false ∧ t_subs (ru_workers t) = [] ∧ ru_services t = [] ∧ consistent (ru_ready t).

(** Everything opened was closed, everything added was stopped. *)
Definition balanced (tr : list (event resp)) : Prop :=
  (∀ s, s ∈ opened_subs tr → s ∈ closed_subs tr) ∧ (∀ s, s ∈ added tr → s ∈ stopped tr).

Definition when_embedded (embedded : bool) (s : stage) : list stage := if embedded then [s] else [].

(** How a run releases: it opened nothing and, if it got as far as connecting, cancelled
    its context; or it cancelled its context, closed what it had opened, waited for the
    workers and closed the transport, in this order.  An embedded server that was started
    is stopped last. *)
Definition released (embedded : bool) (tr : list (event resp)) : Prop :=
  (accounts tr = ([], [], [], []) ∧
   (stages tr = [] ∨
    stages tr = when_embedded embedded SStarted ++ [SConnect; SCancelled] ++ when_embedded embedded SStopped)) ∨
  ∃ t0 x t1 a b t2,
    tr = t0 ++ evt RCancelRun x :: t1 ++ evt RWorkersWait a :: evt RCloseTransport b :: t2 ∧
    balanced (t0 ++ t1) ∧ Forall (λ e, releasing (ev_req e)) t1 ∧ Forall (λ e, ev_req e = RStopEmbedded) t2 ∧
    stages tr = when_embedded embedded SStarted ++ [SConnect; SJetStream; SCancelled; SWaited; SClosed]
                ++ when_embedded embedded SStopped.

(** The deferred functions of a run that had JetStream. *)
Definition leave (embedded : bool) (err : option error) (t : runner) : prog resp outcome :=
  t ← cleanup t; finish embedded err t.

(** What they do. *)
Definition wound_up (embedded : bool) (subs services : list nat) (tr : list (event resp)) : Prop :=
  ∃ x t1 t2 a b, tr = evt RCancelRun x :: t1 ++ evt RWorkersWait a :: evt RCloseTransport b :: t2 ∧
    Forall (λ e, releasing (ev_req e)) t1 ∧ accounts t1 = ([], subs, [], services) ∧
    Forall (λ e, ev_req e = RStopEmbedded) t2 ∧ stages t2 = when_embedded embedded SStopped.

Definition ended (t : runner) : runner := mkRunner false true (ru_ready t) (mkWorkers [] 0) [].

Lemma leave_sat embedded err t :
  sat (leave embedded err t) (λ tr out,
    wound_up embedded (t_subs (ru_workers t)) (ru_services t) tr ∧ out = Returned err (ended t)).
Proof.
  unfold leave. apply sat_bind. eapply sat_mono; [|apply cleanup_sat]. cbn beta.
  intros tr t' (x & t1 & a & b & -> & F1 & A & ->).
  assert (F : sat (finish embedded err (mkRunner (ru_running t) true (ru_ready t) (mkWorkers [] 0) []))
    (λ t2 out, Forall (λ e, ev_req e = RStopEmbedded) t2 ∧ stages t2 = when_embedded embedded SStopped ∧
       out = Returned err (ended t))).
  { destruct embedded; cbn; auto. }
  eapply sat_mono; [|exact F]. cbn beta. intros t2 out (Hf & Hs & ->). split; [|done].
  exists x, t1, t2, a, b. cbn. by rewrite <- app_assoc.
Qed.

(** Everything was mounted, and after that a flush was confirmed. *)
Definition served (actions : list AnyAction) (tr : list (event resp)) : Prop :=
  ∃ t1 c t2, tr = t1 ++ evt (RFlush c) None :: t2 ∧ all_mounted actions t1.

(** What a run that had JetStream leaves: everything released, the readiness signalled
    with the error that stopped it or, once it served, with nil. *)
Definition run_ended (embedded : bool) (actions : list AnyAction) (t : runner) (before : list stage)
    (tr : list (event resp)) (out : outcome) : Prop :=
  ∃ err t0 x t1 a b t2 sig,
    out = Returned err (ended (set_ready (signalled sig (ru_ready t)) t)) ∧
    tr = t0 ++ evt RCancelRun x :: t1 ++ evt RWorkersWait a :: evt RCloseTransport b :: t2 ∧
    balanced (t0 ++ t1) ∧ Forall (λ e, releasing (ev_req e)) t1 ∧ Forall (λ e, ev_req e = RStopEmbedded) t2 ∧
    stages tr = before ++ [SCancelled; SWaited; SClosed] ++ when_embedded embedded SStopped ∧
    match sig with None => served actions t0 | Some e => err = Some e end.

(** From what mounting recorded to the end of the run. *)
Lemma leave_after tr0 tr1 w w' services services' embedded actions err sig t :
  recorded w w' services services' tr0 → t_subs w = [] → services = [] →
  Forall (λ e, mounting (ev_req e)) tr0 → accounts tr1 = ([], [], [], []) → stages tr1 = [] →
  t_subs (ru_workers t) = t_subs w' → ru_services t = services' →
  match sig with None => served actions (tr0 ++ tr1) | Some e => err = Some e end →
  ∀ t0, ru_ready t = signalled sig (ru_ready t0) →
  sat (leave embedded err t) (λ tr out, run_ended embedded actions t0 [] (tr0 ++ tr1 ++ tr) out).
Proof.
  intros (subs & svcs & Es & Ev & Hs & Hv) Ew -> M0 A1 S1 Et Ets Hsig t0 Er.
  eapply sat_mono; [|apply leave_sat]. cbn beta.
  intros tr out [(x & t1 & t2 & a & b & -> & F1 & A & F & S2) ->].
  exists err, (tr0 ++ tr1), x, t1, a, b, t2, sig. unfold ended. rewrite Er. split; [done|].
  split; [by rewrite <- !app_assoc|]. split; [|split; [done|]; split; [done|]; split; [|done]].
  - injection A1 as B1 B2 B3 B4. injection A as C1 C2 C3 C4.
    unfold balanced, opened_subs, closed_subs, added, stopped in *.
    rewrite !omap_app, B1, B2, B3, B4, C1, C2, C3, C4, Et, Ets, Es, Ev, Ew, !app_nil_r. cbn.
    split; intros s H; [apply Hs in H|apply Hv in H]; set_solver.
  - rewrite !stages_app, S1, (mounting_stages _ M0). change (?x :: t1 ++ ?l) with ([x] ++ t1 ++ l).
    rewrite !stages_app, (releasing_stages _ F1). change (?x :: ?y :: t2) with ([x; y] ++ t2).
    by rewrite stages_app, S2.
Qed.

Lemma ctx_Err_cases c : ctx_Err c = mret None ∨ ctx_Err c = call (RCtxErr c) ≫= mret.
Proof. destruct c; first [by left|by right]. Qed.

Lemma serve_sat ctx embedded actions tr0 w w' services services' t0 :
  recorded w w' services services' tr0 → t_subs w = [] → services = [] → consistent (ru_ready t0) →
  Forall (λ e, mounting (ev_req e)) tr0 → all_mounted actions tr0 →
  sat (serve ctx embedded (set_mounted w' services' t0)) (λ tr out, run_ended embedded actions t0 [] (tr0 ++ tr) out).
Proof.
  intros Hr Ew Es Hc M0 Hall.
  assert (L : ∀ tr1 err sig, accounts tr1 = ([], [], [], []) → stages tr1 = [] →
    match sig with None => served actions (tr0 ++ tr1) | Some e => err = Some e end →
    sat (leave embedded err (set_ready (signalled sig (ru_ready t0)) (set_mounted w' services' t0)))
      (λ tr out, run_ended embedded actions t0 [] (tr0 ++ tr1 ++ tr) out)).
  { intros tr1 err sig A S Hsig. eapply leave_after; eauto. }
  assert (Sv : ∀ c t, served actions (tr0 ++ evt (RFlush c) None :: t)) by (intros c t; by exists tr0, c, t).
  unfold serve. cbv zeta. apply sat_call. intros [e|].
  { rewrite signal_consistent by done. by apply (L [_] _ (Some (mapError e))). }
  rewrite signal_consistent by done. apply sat_call. intros [|]; [|by apply (L [_; _] _ None)].
  cbn [negb]. destruct (ctx_Err_cases ctx) as [-> | ->].
  - apply sat_call. intros lastErr. by apply (L [_; _; _] _ None).
  - apply sat_call. intros [e|]; [by apply (L [_; _; _] _ None)|].
    apply sat_call. intros lastErr. by apply (L [_; _; _; _] _ None).
Qed.

(** ** A whole run *)

(** How a run of an idle transport ends. *)
Definition run_outcome (embedded : bool) (actions : list AnyAction) (t : runner) (before : list stage)
    (tr : list (event resp)) (out : outcome) : Prop :=
  (∃ e closing, out = Returned (Some e) (mkRunner false closing (signalled (Some e) (ru_ready t)) (ru_workers t) (ru_services t)) ∧
     accounts tr = ([], [], [], []) ∧
     stages tr = before ++ [SConnect; SCancelled] ++ when_embedded embedded SStopped) ∨
  run_ended embedded actions t (before ++ [SConnect; SJetStream]) tr out.

Lemma accounts_cons e tr : accounts [e] = ([], [], [], []) → accounts (e :: tr) = accounts tr.
Proof.
  intros A. change (e :: tr) with ([e] ++ tr). unfold accounts in A. apply pair_equal_spec in A as [A A4].
  apply pair_equal_spec in A as [A A3]. apply pair_equal_spec in A as [A1 A2].
  by rewrite accounts_app, A1, A2, A3, A4.
Qed.

Lemma balanced_accounts t u : accounts t = accounts u → balanced u → balanced t.
Proof. intros [= A1 A2 A3 A4]. unfold balanced. by rewrite A1, A2, A3, A4. Qed.

(** One more call before the run. *)
Lemma run_ended_cons embedded actions t before s e tr out :
  accounts [e] = ([], [], [], []) → stages [e] = s → run_ended embedded actions t before tr out →
  run_ended embedded actions t (s ++ before) (e :: tr) out.
Proof.
  intros A St (err & t0 & x & t1 & a & b & t2 & sig & -> & -> & B & F1 & F2 & S & Sg).
  exists err, (e :: t0), x, t1, a, b, t2, sig. split; [done|]. split; [done|].
  split; [|split; [done|]; split; [done|]; split].
  - by eapply balanced_accounts; [apply accounts_cons|].
  - change (e :: t0 ++ ?l) with ([e] ++ (t0 ++ l)). by rewrite stages_app, S, St, <- app_assoc.
  - destruct sig; [done|]. destruct Sg as (u1 & c & u2 & -> & Hm). exists (e :: u1), c, u2. split; [done|].
    eapply all_mounted_mono; [|done]. set_solver.
Qed.

Lemma run_connected_sat ctx embedded actions t :
  ru_running t = true → t_subs (ru_workers t) = [] → ru_services t = [] → consistent (ru_ready t) →
  sat (run_connected modifier ctx embedded actions t) (run_outcome embedded actions t []).
Proof.
  intros Hrun Ew Es Hc.
  assert (N : ∀ e tr0, accounts tr0 = ([], [], [], []) → stages tr0 = [SConnect; SCancelled] →
    sat (signal (unwind_embedded embedded) (Some e) t (finish embedded (Some e)))
      (λ tr out, run_outcome embedded actions t [] (tr0 ++ tr) out)).
  { intros e tr0 A S. rewrite signal_consistent by done. unfold finish, run_outcome.
    destruct embedded; cbn; [intros x|]; left; exists e, (ru_closing t); (split; [done|]).
    - rewrite accounts_app, stages_app, S. split; [by injection A as -> -> -> ->|done].
    - rewrite app_nil_r. by split. }
  unfold run_connected. cbv zeta. apply sat_call. intros [nc|e].
  2:{ apply sat_call. intros x. by apply (N e [_; _]). }
  apply sat_call. intros [e|].
  { apply sat_call. intros x. by apply (N e [_; _; _]). }
  apply sat_bind. eapply sat_mono; [|apply mountActions_sat]. cbn beta.
  intros tr0 r (err & w' & services' & -> & Hr & M0 & Hall).
  assert (G : sat (match err with
      | Some e => signal unwind_cleanup (Some e) (set_mounted w' services' t) (leave embedded (Some e))
      | None => serve ctx embedded (set_mounted w' services' t) end)
      (λ tr out, run_ended embedded actions t [] (tr0 ++ tr) out)).
  { destruct err as [e|].
    - rewrite signal_consistent by done.
      eapply (leave_after tr0 []) with (sig := Some e); eauto.
    - eapply serve_sat; eauto. }
  destruct err; (eapply sat_mono; [|exact G]); cbn beta; intros tr out H; right;
    (apply (run_ended_cons _ _ _ [SJetStream] [SConnect]); [done..|]);
    by apply (run_ended_cons _ _ _ [] [SJetStream]).
Qed.

(** What every run of an idle transport leaves. *)
Definition run_result (embedded : bool) (actions : list AnyAction) (rd : readiness) (tr : list (event resp))
    (out : outcome) : Prop :=
  ∃ err t', out = Returned err t' ∧ idle t' ∧ released embedded tr ∧
    ∃ sig, ru_ready t' = signalled sig rd ∧
      match sig with None => served actions tr | Some e => err = Some e end.

Lemma idle_ended closing rd w : t_subs w = [] → consistent rd → idle (mkRunner false closing rd w []).
Proof. done. Qed.

(** A run that failed before it had JetStream. *)
Lemma failed_result embedded actions rd tr e closing w :
  t_subs w = [] → consistent rd → accounts tr = ([], [], [], []) →
  (stages tr = [] ∨
   stages tr = when_embedded embedded SStarted ++ [SConnect; SCancelled] ++ when_embedded embedded SStopped) →
  run_result embedded actions rd tr (Returned (Some e) (mkRunner false closing (signalled (Some e) rd) w [])).
Proof.
  intros Ew Hc A S. eexists _, _. split; [done|]. split; [by apply idle_ended; [|apply signalled_consistent]|].
  split; [by left|]. by exists (Some e).
Qed.

Lemma run_outcome_result embedded actions t tr out :
  consistent (ru_ready t) → t_subs (ru_workers t) = [] → ru_services t = [] →
  run_outcome embedded actions t (when_embedded embedded SStarted) tr out →
  run_result embedded actions (ru_ready t) tr out.
Proof.
  intros Hc Ew Es [(e & c & -> & A & S)|H].
  - rewrite Es. apply failed_result; auto.
  - destruct H as (err & u0 & x & t1 & a & b & t2 & sig & -> & -> & B & F1 & F2 & S & Sg).
    eexists _, _. split; [done|]. cbn. split; [by apply idle_ended; [|apply signalled_consistent]|].
    split; [right; exists u0, x, t1, a, b, t2; by rewrite <- app_assoc in S|]. exists sig. split; [done|].
    destruct sig; [done|]. destruct Sg as (u1 & c & u2 & -> & Hm). eexists u1, c, _. by rewrite <- app_assoc.
Qed.

(** The embedded server started before. *)
Lemma run_outcome_started actions t tr out e :
  accounts [e] = ([], [], [], []) → stages [e] = [SStarted] → run_outcome true actions t [] tr out →
  run_outcome true actions t (when_embedded true SStarted) (e :: tr) out.
Proof.
  intros A Se [(err & c & -> & B & S)|H]; [left|right].
  - exists err, c. split; [done|]. rewrite accounts_cons by done. split; [done|].
    change (e :: tr) with ([e] ++ tr). by rewrite stages_app, Se, S.
  - by apply (run_ended_cons _ _ _ _ [SStarted]).
Qed.

Lemma Do_sat se ctx t :
  idle t → sat (Do modifier se ctx t) (run_result (se_embedded se) (se_actions se) (ru_ready t)).
Proof.
  intros (Hrun & Ew & Es & Hc). unfold Do. rewrite Hrun. cbv zeta.
  set (t0 := set_closing false (set_running true t)).
  assert (Hf : ∀ e tr, accounts tr = ([], [], [], []) → stages tr = [] →
    sat (signal unwind_plain (Some e) t0 (finish false (Some e)))
      (λ tr' out, run_result (se_embedded se) (se_actions se) (ru_ready t) (tr ++ tr') out)).
  { intros e tr A S. rewrite signal_consistent by done. subst t0. cbn. rewrite app_nil_r. unfold set_running, set_ready, set_closing; cbn. rewrite Es. apply failed_result; auto. }
  destruct (se_initErr se) as [e|]; [by apply (Hf e [])|].
  destruct (se_embedded se).
  - apply sat_call. intros [e|]; [by apply (Hf e [_])|].
    eapply sat_mono; [|by apply run_connected_sat]. cbn beta. intros tr out H.
    apply (run_outcome_result true (se_actions se) t0); [done..|]. by apply run_outcome_started.
  - eapply sat_mono; [|by apply run_connected_sat]. cbn beta. intros tr out H.
    by apply (run_outcome_result false (se_actions se) t0).
Qed.

(** C11: Every run of an idle transport, provided the calls it makes return (workersWg.Wait
    among them, which returns once every worker has ended), returns an error or nil, and
    neither panics nor deadlocks on its own mutex.  Whatever stops it, the run opened nothing,
    and then it cancelled its context if it had tried to connect; or it ends in this order: the
    run context is cancelled, every service added and every subscription opened (those of a
    mounting that failed half-way too) is stopped or closed, the workers are waited for, the
    connection is closed.  An embedded server that was started is stopped last. *)
Theorem Do_releases se ctx t :
  idle t → sat (Do modifier se ctx t) (λ tr out,
    ∃ err t', out = Returned err t' ∧ idle t' ∧ released (se_embedded se) tr).
Proof.
  intros H. eapply sat_mono; [|by apply Do_sat]. cbn beta. intros tr out (err & t' & -> & Hi & Hr & _). eauto.
Qed.

(** C19: When a run of an idle transport ends, WaitReady has an answer.  The first one stands:
    an answer given before the run is kept.  Otherwise it is nil only when every binding of
    every executable action had been acknowledged by the broker (topics, requests, consumers
    and durables subscribed, watchers opened, services and their endpoints added) and a flush
    was confirmed after that; and if it is an error, it is the error the run returned. *)
Theorem Do_readiness se ctx t :
  idle t → sat (Do modifier se ctx t) (λ tr out, ∃ err t' r,
    out = Returned err t' ∧ WaitReady (ru_ready t') = Some r ∧
    match WaitReady (ru_ready t) with
    | Some r0 => r = r0
    | None => match r with None => served (se_actions se) tr | Some e => err = Some e end
    end).
Proof.
  intros H. pose proof H as (_ & _ & _ & Hc). eapply sat_mono; [|by apply Do_sat]. cbn beta.
  intros tr out (err & t' & -> & _ & _ & sig & Hs & Hm). exists err, t'.
  unfold WaitReady, consistent, signalled in *. rewrite Hs, Hc.
  destruct (rd_fired (ru_ready t)); [rewrite Hc|]; cbn; by eexists _.
Qed.

(** A call that never returns. *)
Definition lost (out : outcome) : Prop := out = Panicked ∨ out = Hung.

(** C20: Do on a transport made by FromConn never returns: FromConn closes the readiness
    channel without firing readyOnce, so the run's own signalReady closes a closed channel.
    Every run panics or, when there is anything to clean up, deadlocks on the mutex the
    panicking goroutine holds. *)
Theorem FromConn_Do_never_returns se ctx t :
  ru_running t = false → ru_ready t = from_conn_ready → sat (Do modifier se ctx t) (λ _ out, lost out).
Proof.
  intros Hrun Hrd.
  assert (S : ∀ unwind err t k, ru_ready t = from_conn_ready → signal unwind err t k = unwind).
  { intros unwind err t0 k E. unfold signal, signalReady. by rewrite E. }
  assert (C : ∀ ctx embedded actions t, ru_ready t = from_conn_ready →
    sat (run_connected modifier ctx embedded actions t) (λ _ out, lost out)).
  { intros c embedded actions t0 E. unfold run_connected. cbv zeta.
    assert (L : lost (if embedded then Hung else Panicked)) by (destruct embedded; [by right|by left]).
    assert (U : sat unwind_cleanup (λ _ out, lost out)) by (intros x; by right).
    apply sat_call. intros [nc|e]; [|apply sat_call; intros x; by rewrite S].
    apply sat_call. intros [e|]; [apply sat_call; intros x; by rewrite S|].
    apply sat_bind. eapply sat_mono; [|apply mountActions_recorded]. cbn beta.
    intros tr r ([e|] & w' & services' & -> & _); [by rewrite S|].
    unfold serve. cbv zeta. apply sat_call. intros [e|]; by rewrite S. }
  unfold Do. rewrite Hrun. cbv zeta. destruct (se_initErr se); [rewrite S by done; by left|].
  destruct (se_embedded se); [|by apply C].
  apply sat_call. intros [e|]; [rewrite S by done; by left|by apply C].
Qed.
End RunnerProofs.

(** ** Witnesses *)
Section Witnesses.
Import GoErr.

Definition quiet : settings := mkSettings None false [].

Lemma New_idle : idle New_runner.
Proof. done. Qed.

Lemma Do_releases_witness :
  idle (EM := GoErr.model) New_runner ∧
  sat (Do (K := kernel) None quiet Background New_runner) (λ tr out,
    ∃ err t', out = Returned err t' ∧ idle t' ∧ released false tr).
Proof. split; [exact New_idle|]. apply (Do_releases (K := kernel) None quiet Background New_runner). exact New_idle. Defined.

Lemma Do_readiness_witness :
  sat (Do (K := kernel) None quiet Background New_runner) (λ tr out, ∃ err t' r,
    out = Returned err t' ∧ WaitReady (ru_ready t') = Some r ∧
    match r with None => served [] tr | Some e => err = Some e end).
Proof. apply (Do_readiness (K := kernel) None quiet Background New_runner). exact New_idle. Defined.

Lemma FromConn_Do_never_returns_witness :
  sat (Do (K := kernel) None quiet Background FromConn) (λ _ out, lost out).
Proof. apply (FromConn_Do_never_returns (K := kernel) None quiet Background FromConn); reflexivity. Defined.
End Witnesses.
