(* ===== verification/GoText.v ===== *)
(** * Text of the Go standard library

    The parts of strings, encoding/base64 and time that the flow actions read their
    input with: Cut, Split, TrimSpace, base64.StdEncoding.DecodeString and
    time.ParseDuration.  Strings are byte sequences. *)

From S2P Require Import Prelude Errors Json.
From Stdlib Require Import Ascii ZifyNat SpecFloat.

Local Open Scope Z_scope.

(** ** Package strings *)

(** Cut(s, sep) for a separator of one byte: before, after, found. *)
Fixpoint strings_Cut (sep : ascii) (s : string) : string * string * bool :=
  match s with
  | EmptyString => ("", "", false)
  | String c s' =>
      if decide (c = sep) then ("", s', true)
      else let '(before, after, found) := strings_Cut sep s' in (String c before, after, found)
  end.

(** Split(s, sep) for a separator of one byte. *)
Fixpoint strings_Split (sep : ascii) (s : string) : list string :=
  match s with
  | EmptyString => [""]
  | String c s' =>
      if decide (c = sep) then "" :: strings_Split sep s'
      else match strings_Split sep s' with
           | p :: ps => String c p :: ps
           | [] => [String c ""]
           end
  end.

(** Join(parts, sep). *)
Fixpoint strings_Join (sep : ascii) (parts : list string) : string :=
  match parts with
  | [] => ""
  | [p] => p
  | p :: ps => p +:+ String sep (strings_Join sep ps)
  end.

(** unicode.IsSpace, by the UTF-8 encoding of the rune. *)
Definition space1 (c : ascii) : bool := (byte_in 9 13 c || byte_in 32 32 c)%bool.
Definition space2 (c c1 : ascii) : bool :=
  (byte_in 194 194 c && (byte_in 133 133 c1 || byte_in 160 160 c1))%bool.
Definition space3 (c c1 c2 : ascii) : bool :=
  ((byte_in 225 225 c && byte_in 154 154 c1 && byte_in 128 128 c2)
   || (byte_in 226 226 c && byte_in 128 128 c1
       && (byte_in 128 138 c2 || byte_in 168 169 c2 || byte_in 175 175 c2))
   || (byte_in 226 226 c && byte_in 129 129 c1 && byte_in 159 159 c2)
   || (byte_in 227 227 c && byte_in 128 128 c1 && byte_in 128 128 c2))%bool.

Fixpoint trim_left (s : string) : string :=
  match s with
  | String c s1 =>
      if space1 c then trim_left s1
      else match s1 with
      | String c1 s2 =>
          if space2 c c1 then trim_left s2
          else match s2 with
          | String c2 s3 => if space3 c c1 c2 then trim_left s3 else s
          | EmptyString => s
          end
      | EmptyString => s
      end
  | EmptyString => s
  end.

(** The same on a reversed string. *)
Fixpoint trim_reversed (s : string) : string :=
  match s with
  | String c s1 =>
      if space1 c then trim_reversed s1
      else match s1 with
      | String c1 s2 =>
          if space2 c1 c then trim_reversed s2
          else match s2 with
          | String c2 s3 => if space3 c2 c1 c then trim_reversed s3 else s
          | EmptyString => s
          end
      | EmptyString => s
      end
  | EmptyString => s
  end.

Definition str_rev (s : string) : string :=
  String.string_of_list_ascii (rev (String.list_ascii_of_string s)).

Definition strings_TrimSpace (s : string) : string := str_rev (trim_reversed (str_rev (trim_left s))).

(** ** Package encoding/base64 *)
Definition b64_value (c : ascii) : option nat :=
  if byte_in 65 90 c then Some (nat_of_ascii c - 65)%nat
  else if byte_in 97 122 c then Some (nat_of_ascii c - 97 + 26)%nat
  else if byte_in 48 57 c then Some (nat_of_ascii c - 48 + 52)%nat
  else if byte_in 43 43 c then Some 62%nat
  else if byte_in 47 47 c then Some 63%nat
  else None.

(** The decoder skips line breaks. *)
Fixpoint b64_lines (s : string) : string :=
  match s with
  | EmptyString => EmptyString
  | String c s' => if (byte_in 10 10 c || byte_in 13 13 c)%bool then b64_lines s' else String c (b64_lines s')
  end.

Definition b64_pad : ascii := "="%char.

(** Quantum by quantum; the bits a padded quantum does not need are not checked. *)
Fixpoint b64_quanta (s : string) : option string :=
  match s with
  | EmptyString => Some ""
  | String a (String b (String c (String d s'))) =>
      match b64_value a, b64_value b with
      | Some va, Some vb =>
          let x := ascii_of_nat (va * 4 + vb / 16) in
          if decide (c = b64_pad) then
            if decide (d = b64_pad) then
              match s' with EmptyString => Some (String x "") | _ => None end
            else None
          else
            match b64_value c with
            | None => None
            | Some vc =>
                let y := ascii_of_nat (vb mod 16 * 16 + vc / 4) in
                if decide (d = b64_pad) then
                  match s' with EmptyString => Some (String x (String y "")) | _ => None end
                else
                  match b64_value d, b64_quanta s' with
                  | Some vd, Some rest =>
                      Some (String x (String y (String (ascii_of_nat (vc mod 4 * 64 + vd)) rest)))
                  | _, _ => None
                  end
            end
      | _, _ => None
      end
  | _ => None
  end%nat.

(** base64.StdEncoding.DecodeString; [None]: a CorruptInputError. *)
Definition b64_decode (s : string) : option string := b64_quanta (b64_lines s).

Lemma b64_digit_value n : (n < 64)%nat → b64_value (b64_digit n) = Some n.
Proof. intros H. do 64 (destruct n as [|n]; [reflexivity|]). lia. Qed.

Lemma b64_digit_pad n : b64_digit n ≠ b64_pad.
Proof. do 64 (destruct n as [|n]; [done|]). done. Qed.

Lemma b64_digit_line n : (byte_in 10 10 (b64_digit n) || byte_in 13 13 (b64_digit n))%bool = false.
Proof. do 64 (destruct n as [|n]; [reflexivity|]). reflexivity. Qed.

(** Induction three bytes at a time. *)
Lemma bytes3_ind (P : string → Prop) :
  P "" → (∀ a, P (String a "")) → (∀ a b, P (String a (String b ""))) →
  (∀ a b c s, P s → P (String a (String b (String c s)))) → ∀ s, P s.
Proof.
  intros H0 H1 H2 H3. fix IH 1. intros [|a [|b [|c s]]]; [apply H0|apply H1|apply H2|apply H3, IH].
Qed.

Lemma b64_lines_encode s : b64_lines (b64_encode s) = b64_encode s.
Proof.
  induction s as [|a|a b|a b c s IH] using bytes3_ind; cbn [b64_encode b64_lines]; rewrite ?b64_digit_line; [done..|].
  by rewrite IH.
Qed.

(** [lia] with quotients and remainders. *)
#[local] Ltac Zify.zify_post_hook ::= Z.to_euclidean_division_equations.

Lemma byte_eq c n : (n = nat_of_ascii c)%nat → ascii_of_nat n = c.
Proof. intros ->. apply ascii_nat_embedding. Qed.

(** DecodeString undoes EncodeToString. *)
Lemma b64_decode_encode s : b64_decode (b64_encode s) = Some s.
Proof.
  unfold b64_decode. rewrite b64_lines_encode.
  induction s as [|a|a b|a b c s IH] using bytes3_ind; cbn [b64_encode b64_quanta]; [done|..].
  all: pose proof (nat_ascii_bounded a).
  all: rewrite !b64_digit_value by (try pose proof (nat_ascii_bounded b); try pose proof (nat_ascii_bounded c); lia).
  all: rewrite ?decide_False by apply b64_digit_pad.
  - rewrite !decide_True by done. by rewrite (byte_eq a) by lia.
  - pose proof (nat_ascii_bounded b). rewrite decide_True by done.
    rewrite (byte_eq a) by lia. by rewrite (byte_eq b) by lia.
  - pose proof (nat_ascii_bounded b). pose proof (nat_ascii_bounded c).
    rewrite IH.
    rewrite (byte_eq a) by lia. rewrite (byte_eq b) by lia. by rewrite (byte_eq c) by lia.
Qed.

Lemma str_app_nil s : "" +:+ s = s.
Proof. done. Qed.
Lemma str_app_cons c s t : String c s +:+ t = String c (s +:+ t).
Proof. done. Qed.

(** Cut and Split at the separator. *)
Fixpoint contains (sep : ascii) (s : string) : bool :=
  match s with
  | EmptyString => false
  | String c s' => (bool_decide (c = sep) || contains sep s')%bool
  end.

Lemma cut_found sep a b : contains sep a = false → strings_Cut sep (a +:+ String sep b) = (a, b, true).
Proof.
  induction a as [|c a IH]; rewrite ?str_app_nil, ?str_app_cons; cbn [strings_Cut strings_Split contains]; intros H;
    [by rewrite decide_True|]. go_bool. destruct H as [H1 H2].
  by rewrite decide_False, IH.
Qed.

Lemma cut_missing sep s : contains sep s = false → strings_Cut sep s = (s, "", false).
Proof.
  induction s as [|c s IH]; cbn; intros H; [done|]. go_bool. destruct H as [H1 H2]. by rewrite decide_False, IH.
Qed.

Lemma split_one sep s : contains sep s = false → strings_Split sep s = [s].
Proof.
  induction s as [|c s IH]; cbn; intros H; [done|]. go_bool. destruct H as [H1 H2]. by rewrite decide_False, IH.
Qed.

Lemma split_sep sep a b :
  contains sep a = false → strings_Split sep (a +:+ String sep b) = a :: strings_Split sep b.
Proof.
  induction a as [|c a IH]; rewrite ?str_app_nil, ?str_app_cons; cbn [strings_Cut strings_Split contains]; intros H;
    [by rewrite decide_True|]. go_bool. destruct H as [H1 H2].
  by rewrite decide_False, IH.
Qed.

Lemma split_join sep parts :
  parts ≠ [] → Forall (λ p, contains sep p = false) parts → strings_Split sep (strings_Join sep parts) = parts.
Proof.
  intros Hn H. induction H as [|p ps Hp _ IH]; [done|]. destruct ps as [|q qs]; [by apply split_one|].
  change (strings_Join sep (p :: q :: qs)) with (p +:+ String sep (strings_Join sep (q :: qs))).
  rewrite split_sep by done. by rewrite IH.
Qed.

(** Join with one more byte in the first part, or one more part. *)
Lemma join_cons sep c p ps : strings_Join sep (String c p :: ps) = String c (strings_Join sep (p :: ps)).
Proof. by destruct ps. Qed.

Lemma join_empty sep ps : ps ≠ [] → strings_Join sep ("" :: ps) = String sep (strings_Join sep ps).
Proof. by destruct ps. Qed.

Lemma join_split sep s : strings_Join sep (strings_Split sep s) = s ∧ strings_Split sep s ≠ [].
Proof.
  induction s as [|c s [IH Hn]]; cbn [strings_Split]; [done|]. destruct (decide (c = sep)) as [->|].
  - by rewrite join_empty, IH.
  - destruct (strings_Split sep s) as [|p ps]; [done|]. by rewrite join_cons, IH.
Qed.

Lemma split_pieces sep s : Forall (λ p, contains sep p = false) (strings_Split sep s).
Proof.
  induction s as [|c s IH]; cbn; [by constructor|]. destruct (decide (c = sep)) as [->|Hc]; [by constructor|].
  destruct (strings_Split sep s) as [|p ps]; [by constructor; [cbn; rewrite bool_decide_eq_false_2|]|].
  apply Forall_cons in IH as [H1 H2]. constructor; [|done]. cbn. by rewrite bool_decide_eq_false_2.
Qed.

(** ** time.ParseDuration *)
Definition is_digit (c : ascii) : bool := byte_in 48 57 c.
Definition digit_value (c : ascii) : Z := Z.of_nat (nat_of_ascii c) - 48.

(** The digits at the front as a number, at most 2^63. *)
Fixpoint leadingInt (s : string) (x : Z) : option (Z * string) :=
  match s with
  | String c s' =>
      if is_digit c then
        if 2 ^ 63 / 10 <? x then None
        else
          let x := wrap_uint64 (x * 10 + digit_value c) in
          if 2 ^ 63 <? x then None else leadingInt s' x
      else Some (x, s)
  | EmptyString => Some (x, s)
  end.

(** The digits of a fraction, with their scale; digits that do not fit are dropped. *)
Fixpoint leadingFraction (s : string) (x scale : Z) (overflow : bool) : Z * Z * string :=
  match s with
  | String c s' =>
      if is_digit c then
        if overflow then leadingFraction s' x scale true
        else if (2 ^ 63 - 1) / 10 <? x then leadingFraction s' x scale true
        else
          let y := wrap_uint64 (x * 10 + digit_value c) in
          if 2 ^ 63 <? y then leadingFraction s' x scale true
          else leadingFraction s' y (scale * 10) false
      else (x, scale, s)
  | EmptyString => (x, scale, s)
  end.

(** The unit: everything up to a digit or a dot. *)
Fixpoint leadingUnit (s : string) : string * string :=
  match s with
  | String c s' =>
      if (byte_in 46 46 c || is_digit c)%bool then ("", s)
      else let '(u, rest) := leadingUnit s' in (String c u, rest)
  | EmptyString => ("", "")
  end.

Definition byte (n : nat) : ascii := ascii_of_nat n.

Definition unitMap (u : string) : option Z :=
  if str_eqb u "ns" then Some 1
  else if (str_eqb u "us" || str_eqb u (String (byte 194) (String (byte 181) "s"))
           || str_eqb u (String (byte 206) (String (byte 188) "s")))%bool then Some 1000
  else if str_eqb u "ms" then Some time_Millisecond
  else if str_eqb u "s" then Some time_Second
  else if str_eqb u "m" then Some (60 * time_Second)
  else if str_eqb u "h" then Some (3600 * time_Second)
  else None.

(** float64: conversion from uint64, and truncation to uint64 of a finite value. *)
Definition float64 (z : Z) : spec_float := binary_normalize 53 1024 z 0 false.
Definition float64_trunc (f : spec_float) : Z :=
  match f with
  | S754_finite false m e => Z.shiftl (Zpos m) e
  | S754_finite true m e => - Z.shiftl (Zpos m) e
  | _ => 0
  end.

(** uint64(float64(f) * (float64(unit) / scale)) *)
Definition fraction_of (f unit scale : Z) : Z :=
  wrap_uint64 (float64_trunc
    (SFmul 53 1024 (float64 f) (SFdiv 53 1024 (float64 unit) (float64 scale)))).

(** What is wrong with the text. *)
Inductive duration_error := InvalidDuration | MissingUnit | UnknownUnit (u : string).

(** One number with its unit, added to [d]. *)
Definition duration_term (s : string) (d : Z) : duration_error + (Z * string) :=
  match s with
  | EmptyString => inl InvalidDuration
  | String c _ =>
      if negb (byte_in 46 46 c || is_digit c)%bool then inl InvalidDuration
      else
        match leadingInt s 0 with
        | None => inl InvalidDuration
        | Some (v, s1) =>
            let pre := negb (String.length s =? String.length s1)%nat in
            let '(f, scale, s2, post) :=
              match s1 with
              | String c1 s1' =>
                  if byte_in 46 46 c1 then
                    let '(f, scale, s2) := leadingFraction s1' 0 1 false in
                    (f, scale, s2, negb (String.length s1' =? String.length s2)%nat)
                  else (0, 1, s1, false)
              | EmptyString => (0, 1, s1, false)
              end in
            if negb (pre || post)%bool then inl InvalidDuration
            else
              let '(u, s3) := leadingUnit s2 in
              if str_empty u then inl MissingUnit
              else
                match unitMap u with
                | None => inl (UnknownUnit u)
                | Some unit =>
                    if 2 ^ 63 / unit <? v then inl InvalidDuration
                    else
                      let v := v * unit in
                      let v' := if 0 <? f then wrap_uint64 (v + fraction_of f unit scale) else v in
                      if (0 <? f) && (2 ^ 63 <? v') then inl InvalidDuration
                      else
                        let d := wrap_uint64 (d + v') in
                        if 2 ^ 63 <? d then inl InvalidDuration else inr (d, s3)
                end
        end
  end.

(** The loop; a term takes at least one byte. *)
Fixpoint duration_terms (fuel : nat) (s : string) (d : Z) : duration_error + Z :=
  match fuel with
  | O => inl InvalidDuration
  | S fuel =>
      match s with
      | EmptyString => inr d
      | _ =>
          match duration_term s d with
          | inl e => inl e
          | inr (d, rest) => duration_terms fuel rest d
          end
      end
  end.

(** The sign, and the rest. *)
Definition duration_sign (s : string) : bool * string :=
  match s with
  | String c s' =>
      if byte_in 45 45 c then (true, s') else if byte_in 43 43 c then (false, s') else (false, s)
  | EmptyString => (false, s)
  end.

Definition time_ParseDuration (orig : string) : duration_error + Z :=
  let '(neg, s) := duration_sign orig in
  if str_eqb s "0" then inr 0
  else if str_empty s then inl InvalidDuration
  else
    match duration_terms (S (String.length s)) s 0 with
    | inl e => inl e
    | inr d =>
        if neg then inr (wrap_int64 (- d))
        else if 2 ^ 63 - 1 <? d then inl InvalidDuration else inr d
    end.

Example parse_15m : time_ParseDuration "15m" = inr (900 * time_Second).
Proof. vm_compute. reflexivity. Qed.
Example parse_mixed : time_ParseDuration "1h2m3.5s" = inr (3723500 * time_Millisecond).
Proof. vm_compute. reflexivity. Qed.
Example parse_fraction : time_ParseDuration "-1.333333333h" = inr (- 4799999998800).
Proof. vm_compute. reflexivity. Qed.
Example parse_bad : time_ParseDuration "3" = inl MissingUnit ∧ time_ParseDuration "1day" = inl (UnknownUnit "day").
Proof. vm_compute. split; reflexivity. Qed.

(** time.quote: everything but printable ASCII is escaped byte by byte. *)
Fixpoint time_quote_body (s : string) : string :=
  match s with
  | EmptyString => EmptyString
  | String c s' =>
      let n := nat_of_ascii c in
      let rest := time_quote_body s' in
      if ((n <? 32) || (128 <=? n))%nat%bool
      then "\x" +:+ String (hex_digit (n / 16)) (String (hex_digit (n mod 16)) rest)
      else if (byte_in 34 34 c || byte_in 92 92 c)%bool then String (byte 92) (String c rest)
      else String c rest
  end.

Definition time_quote (s : string) : string :=
  String (byte 34) (time_quote_body s +:+ String (byte 34) EmptyString).

Definition duration_message (orig : string) (e : duration_error) : string :=
  match e with
  | InvalidDuration => "time: invalid duration " +:+ time_quote orig
  | MissingUnit => "time: missing unit in duration " +:+ time_quote orig
  | UnknownUnit u => "time: unknown unit " +:+ time_quote u +:+ " in duration " +:+ time_quote orig
  end.

(** *** The loop ends, and the result is a Duration *)
Lemma leadingInt_length s x v rest : leadingInt s x = Some (v, rest) → (String.length rest ≤ String.length s)%nat.
Proof.
  revert x. induction s as [|c s IH]; intros x; cbn [leadingInt String.length]; [by intros [= _ <-]|].
  destruct (is_digit c); [|by intros [= _ <-]]. destruct (_ <? x); [done|]. cbv zeta.
  destruct (_ <? _); [done|]. intros H%IH. lia.
Qed.

Lemma leadingFraction_length s x scale o f sc rest :
  leadingFraction s x scale o = (f, sc, rest) → (String.length rest ≤ String.length s)%nat.
Proof.
  revert x scale o. induction s as [|c s IH]; intros x scale o; cbn [leadingFraction String.length];
    [by intros [= _ _ <-]|].
  destruct (is_digit c); [|by intros [= _ _ <-]]. destruct o; [intros H%IH; lia|].
  destruct (_ <? x); [intros H%IH; lia|]. cbv zeta. destruct (_ <? _); intros H%IH; lia.
Qed.

Lemma leadingUnit_length s u rest :
  leadingUnit s = (u, rest) → String.length s = (String.length u + String.length rest)%nat.
Proof.
  revert u. induction s as [|c s IH]; intros u; cbn [leadingUnit]; [by intros [= <- <-]|].
  destruct (_ || _)%bool; [by intros [= <- <-]|]. destruct (leadingUnit s) as [u' r].
  intros [= <- <-]. cbn. by rewrite (IH u').
Qed.

Lemma duration_term_spec s d d' rest :
  duration_term s d = inr (d', rest) → (String.length rest < String.length s)%nat ∧ 0 ≤ d' ≤ 2 ^ 63.
Proof.
  unfold duration_term. destruct s as [|c s0]; [done|]. set (s := String c s0).
  destruct (negb _); [done|]. destruct (leadingInt s 0) as [[v s1]|] eqn:E1; [|done].
  apply leadingInt_length in E1. cbv zeta.
  set (frac := match s1 with String c1 s1' => _ | EmptyString => _ end).
  assert (Hf : (String.length frac.1.2 ≤ String.length s1)%nat).
  { unfold frac. destruct s1 as [|c1 s1']; [done|]. destruct (byte_in 46 46 c1); [|done].
    destruct (leadingFraction s1' 0 1 false) as [[f sc] s2] eqn:E. apply leadingFraction_length in E. cbn. lia. }
  destruct frac as [[[f scale] s2] post]. cbn [fst snd] in Hf. destruct (negb _); [done|].
  destruct (leadingUnit s2) as [u s3] eqn:E3. apply leadingUnit_length in E3.
  destruct (str_empty u) eqn:Eu; [done|]. destruct (unitMap u) as [unit|]; [|done].
  destruct (_ <? v); [done|]. destruct (_ && _)%bool; [done|].
  match goal with |- context [2 ^ 63 <? ?x] => set (w := x) end. destruct (2 ^ 63 <? w) eqn:Ew; [done|].
  intros [= <- <-]. split.
  - destruct u; [done|]. cbn in E3. lia.
  - go_bool. split; [apply Z.mod_pos_bound; lia|done].
Qed.

(** More fuel than bytes makes no difference. *)
Lemma duration_terms_fuel n m s d :
  (String.length s < n)%nat → (String.length s < m)%nat → duration_terms n s d = duration_terms m s d.
Proof.
  revert m s d. induction n as [|n IH]; intros m s d Hn Hm; [lia|]. destruct m as [|m]; [lia|].
  cbn [duration_terms]. destruct s as [|c s]; [done|].
  destruct (duration_term (String c s) d) as [e|[d' rest]] eqn:E; [done|].
  apply duration_term_spec in E as [E _]. apply IH; lia.
Qed.

Lemma duration_terms_bound n s d r : 0 ≤ d ≤ 2 ^ 63 → duration_terms n s d = inr r → 0 ≤ r ≤ 2 ^ 63.
Proof.
  revert s d. induction n as [|n IH]; intros s d Hd; cbn [duration_terms]; [done|].
  destruct s as [|c s]; [by intros [= <-]|]. destruct (duration_term (String c s) d) as [e|[d' rest]] eqn:E; [done|].
  apply duration_term_spec in E as [_ E]. by apply IH.
Qed.

Lemma time_ParseDuration_int64 s d : time_ParseDuration s = inr d → in_int64 d.
Proof.
  unfold time_ParseDuration. destruct (duration_sign s) as [neg s'].
  destruct (str_eqb s' "0"); [intros [= <-]; unfold in_int64, int64_min, int64_max; lia|].
  destruct (str_empty s'); [done|]. destruct (duration_terms _ s' 0) as [e|r] eqn:E; [done|].
  apply duration_terms_bound in E; [|lia]. destruct neg.
  - intros [= <-]. unfold in_int64, int64_min, int64_max, wrap_int64.
    pose proof (Z.mod_pos_bound (- r + 2 ^ 63) (2 ^ 64)). lia.
  - destruct (_ <? r) eqn:Er; [done|]. intros [= <-]. go_bool. unfold in_int64, int64_min, int64_max. lia.
Qed.
