(* ===== verification/Flow.v ===== *)
(** * Flow actions on buckets (src/nexssflow/jetstream_actions.go)

    The actions nats.kv.* and nats.object.*: validation and decoding of a request, one
    operation of the transport (KVOps, Objects), encoding of the response. *)

From S2P Require Import Prelude Effects Errors Json World MemKV KVOps Objects GoText.

Local Open Scope Z_scope.

Section Flow.
Context {EM : ErrorModel} {K : Kernel EM}.

(** ** Config (library.go) *)
Record Config := mkConfig {
  cfg_URL : string;
  cfg_Name : string;
  cfg_Timeout : Z;
  cfg_CredsFile : string;
  cfg_Token : string;
  cfg_RootCAFile : string;
  cfg_ClientCertFile : string;
  cfg_ClientKeyFile : string;
  cfg_Production : bool
}.

Definition normalizeConfig (cfg : Config) : Config :=
  {| cfg_URL := if str_empty (cfg_URL cfg) then "nats://127.0.0.1:4222" else cfg_URL cfg;
     cfg_Name := if str_empty (cfg_Name cfg) then "nflow-client" else cfg_Name cfg;
     cfg_Timeout := if cfg_Timeout cfg <=? 0 then 5 * time_Second else cfg_Timeout cfg;
     cfg_CredsFile := cfg_CredsFile cfg;
     cfg_Token := cfg_Token cfg;
     cfg_RootCAFile := cfg_RootCAFile cfg;
     cfg_ClientCertFile := cfg_ClientCertFile cfg;
     cfg_ClientKeyFile := cfg_ClientKeyFile cfg;
     cfg_Production := cfg_Production cfg |}.

(** ** Requests and responses *)
Record KVGetRequest := mkKVGetReq { gq_Bucket : string; gq_Key : string }.

(** [any] values: None is nil. *)
Record KVGetResponse := mkKVGetResp {
  gr_Bucket : string; gr_Key : string; gr_Found : bool; gr_Value : option value;
  gr_Encoding : string; gr_Revision : Z; gr_Created : Z }.

Record KVPutRequest := mkKVPutReq { pq_Bucket : string; pq_Key : string; pq_Value : option value }.
Record KVWriteResponse := mkKVWriteResp { wr_Bucket : string; wr_Key : string; wr_Revision : Z }.
Record KVCreateRequest := mkKVCreateReq {
  cq_Bucket : string; cq_Key : string; cq_Value : option value; cq_TTL : string }.
Record KVUpdateRequest := mkKVUpdateReq {
  uq_Bucket : string; uq_Key : string; uq_Value : option value; uq_Revision : Z }.
Record KVDeleteRequest := mkKVDeleteReq {
  dq_Bucket : string; dq_Key : string; dq_Revision : option Z }.

Record ObjectPutRequest := mkObjPutReq {
  op_Bucket : string; op_Name : string; op_Data : string; op_Encoding : string; op_MaxBytes : Z }.
Record ObjectGetRequest := mkObjGetReq { og_Bucket : string; og_Name : string; og_MaxBytes : Z }.
Record ObjectGetResponse := mkObjGetResp {
  or_Bucket : string; or_Name : string; or_Data : string; or_Encoding : string; or_Size : Z }.
Record ObjectDeleteRequest := mkObjDelReq { od_Bucket : string; od_Name : string }.

(** The maps that nats.object.put and the deletes return. *)
Record ObjectPutResponse := mkObjPutResp {
  opr_bucket : string; opr_name : string; opr_size : Z; opr_chunks : Z; opr_digest : string }.
Record DeleteResponse := mkDelResp { dr_bucket : string; dr_name : string; dr_deleted : bool }.

(** ** Values and limits *)

(** json.Unmarshal into an [any], and base64's CorruptInputError. *)
Class AnyJson := {
  json_Unmarshal_any : string → result error (option value);
  CorruptInputError : string → error;
  value_string : string → value                   (* a Go string as an any *)
}.
Context {AJ : AnyJson}.

Definition bad_request_for (msg : string) (cause : error) : error :=
  xerr_new KindBadRequest msg (Some cause).

Definition validateKVRequest (actionName bucket key : string) : option error :=
  if (str_empty (strings_TrimSpace bucket) || str_empty (strings_TrimSpace key))%bool
  then Some (bad_request (actionName +:+ ": bucket and key are required"))
  else None.

Definition marshalKVValue (v : option value) : result error string :=
  match v with
  | None => Err (errors_New "value is required")
  | Some v => json_Marshal_any v
  end.

Definition decodeKVValue (data : string) : option value * string :=
  match json_Unmarshal_any data with
  | Ok decoded => (decoded, "json")
  | Err _ => (Some (value_string (b64_encode data)), "base64")
  end.

Definition parseKVTTL (raw : string) : result error Z :=
  if str_empty raw then Ok 0
  else
    match time_ParseDuration raw with
    | inl e => Err (errors_New (duration_message raw e))
    | inr ttl =>
        if ttl <? time_Second then Err (errors_New "ttl must be at least one second") else Ok ttl
    end.

Definition defaultFlowObjectMaxBytes : Z := 8 * 1024 * 1024.

Definition objectLimit (maxBytes : Z) : result error Z :=
  if maxBytes <? 0 then Err (errors_New "negative byte limit")
  else if maxBytes =? 0 then Ok defaultFlowObjectMaxBytes
  else Ok maxBytes.

(** ToLower only matters up to equality with these ASCII words: no other rune has one of
    their letters as its lower case. *)
Definition decodeObjectInput (data encoding : string) : result error string :=
  let e := str_lower (strings_TrimSpace encoding) in
  if (str_empty e || str_eqb e "utf-8" || str_eqb e "utf8")%bool then Ok data
  else if str_eqb e "base64" then
    match b64_decode data with
    | Some bytes => Ok bytes
    | None => Err (CorruptInputError data)
    end
  else Err (errors_New ("unsupported encoding " +:+ strconv_Quote encoding +:+ "; use utf-8 or base64")).

(** ** The actions

    The context of every operation is limited by cfg.Timeout. *)
Context (cfg : Config).

Definition callCtx (ctx : context) : context := CtxTimeout ctx (cfg_Timeout cfg).

Definition nats_kv_get (ctx : context) (rq : KVGetRequest) : prog resp (result error KVGetResponse) :=
  match validateKVRequest "nats.kv.get" (gq_Bucket rq) (gq_Key rq) with
  | Some err => mret (Err err)
  | None =>
      entry ← GetKV (callCtx ctx) (gq_Bucket rq) (gq_Key rq);
      match entry with
      | Err err =>
          if errors_Is err jetstream_ErrKeyNotFound
          then mret (Ok (mkKVGetResp (gq_Bucket rq) (gq_Key rq) false None "" 0 time_zero))
          else mret (Err err)
      | Ok entry =>
          let '(v, encoding) := decodeKVValue (kve_Value entry) in
          mret (Ok (mkKVGetResp (gq_Bucket rq) (gq_Key rq) true v encoding (kve_Revision entry) (kve_Created entry)))
      end
  end.

(** The end of the three writes. *)
Definition written (bucket key : string) (revision : result error Z) : result error KVWriteResponse :=
  match revision with
  | Err err => Err err
  | Ok revision => Ok (mkKVWriteResp bucket key revision)
  end.

Definition nats_kv_put (ctx : context) (rq : KVPutRequest) : prog resp (result error KVWriteResponse) :=
  match validateKVRequest "nats.kv.put" (pq_Bucket rq) (pq_Key rq) with
  | Some err => mret (Err err)
  | None =>
      match marshalKVValue (pq_Value rq) with
      | Err err => mret (Err (bad_request_for "nats.kv.put: value must be JSON encodable" err))
      | Ok data =>
          revision ← PutKV (callCtx ctx) (pq_Bucket rq) (pq_Key rq) data;
          mret (written (pq_Bucket rq) (pq_Key rq) revision)
      end
  end.

Definition nats_kv_create (ctx : context) (rq : KVCreateRequest) : prog resp (result error KVWriteResponse) :=
  match validateKVRequest "nats.kv.create" (cq_Bucket rq) (cq_Key rq) with
  | Some err => mret (Err err)
  | None =>
      match marshalKVValue (cq_Value rq) with
      | Err err => mret (Err (bad_request_for "nats.kv.create: value must be JSON encodable" err))
      | Ok data =>
          match parseKVTTL (cq_TTL rq) with
          | Err err => mret (Err (bad_request_for "nats.kv.create: ttl must be at least 1s, for example 15m" err))
          | Ok ttl =>
              revision ← CreateKV (callCtx ctx) (cq_Bucket rq) (cq_Key rq) data ttl;
              mret (written (cq_Bucket rq) (cq_Key rq) revision)
          end
      end
  end.

Definition nats_kv_update (ctx : context) (rq : KVUpdateRequest) : prog resp (result error KVWriteResponse) :=
  match validateKVRequest "nats.kv.update" (uq_Bucket rq) (uq_Key rq) with
  | Some err => mret (Err err)
  | None =>
      if uq_Revision rq =? 0
      then mret (Err (bad_request "nats.kv.update: revision is required and must be greater than zero"))
      else
        match marshalKVValue (uq_Value rq) with
        | Err err => mret (Err (bad_request_for "nats.kv.update: value must be JSON encodable" err))
        | Ok data =>
            revision ← UpdateKV (callCtx ctx) (uq_Bucket rq) (uq_Key rq) data (uq_Revision rq);
            mret (written (uq_Bucket rq) (uq_Key rq) revision)
        end
  end.

Definition nats_kv_delete (ctx : context) (rq : KVDeleteRequest) : prog resp (result error DeleteResponse) :=
  match validateKVRequest "nats.kv.delete" (dq_Bucket rq) (dq_Key rq) with
  | Some err => mret (Err err)
  | None =>
      match dq_Revision rq with
      | Some 0 => mret (Err (bad_request "nats.kv.delete: revision must be greater than zero"))
      | _ =>
          err ← DeleteKV (callCtx ctx) (dq_Bucket rq) (dq_Key rq) (dq_Revision rq);
          match err with
          | Some err => mret (Err err)
          | None => mret (Ok (mkDelResp (dq_Bucket rq) (dq_Key rq) true))
          end
      end
  end.

Definition objectPutAction (ctx : context) (rq : ObjectPutRequest) : prog resp (result error ObjectPutResponse) :=
  if (str_empty (op_Bucket rq) || str_empty (op_Name rq))%bool
  then mret (Err (bad_request "nats.object.put: bucket and name are required"))
  else
    match objectLimit (op_MaxBytes rq) with
    | Err err => mret (Err (bad_request_for "nats.object.put: max_bytes must be zero or positive" err))
    | Ok limit =>
        match decodeObjectInput (op_Data rq) (op_Encoding rq) with
        | Err err => mret (Err (bad_request_for "nats.object.put: invalid data or encoding" err))
        | Ok data =>
            if limit <? str_len data
            then mret (Err (bad_request ("nats.object.put: data is " +:+ pretty (str_len data)
                                         +:+ " bytes; limit is " +:+ pretty limit)))
            else
              info ← PutObject (callCtx ctx) (op_Bucket rq) (op_Name rq) data;
              match info with
              | Err err => mret (Err err)
              | Ok info => mret (Ok (mkObjPutResp (op_Bucket rq) (op_Name rq) (oi_Size info) (oi_Chunks info)
                                       (oi_Digest info)))
              end
        end
    end.

(** The encoding of an object's bytes in a response: text when it is UTF-8. *)
Definition encodeObject (data : string) : string * string :=
  if negb (utf8_valid data) then ("base64", b64_encode data) else ("utf-8", data).

Definition objectGetAction (ctx : context) (rq : ObjectGetRequest) : prog resp (result error ObjectGetResponse) :=
  if (str_empty (og_Bucket rq) || str_empty (og_Name rq))%bool
  then mret (Err (bad_request "nats.object.get: bucket and name are required"))
  else
    match objectLimit (og_MaxBytes rq) with
    | Err err => mret (Err (bad_request_for "nats.object.get: max_bytes must be zero or positive" err))
    | Ok limit =>
        data ← GetObjectLimited (callCtx ctx) (og_Bucket rq) (og_Name rq) limit;
        match data with
        | Err err => mret (Err err)
        | Ok data =>
            let '(encoding, v) := encodeObject data in
            mret (Ok (mkObjGetResp (og_Bucket rq) (og_Name rq) v encoding (str_len data)))
        end
    end.

Definition objectDeleteAction (ctx : context) (rq : ObjectDeleteRequest) : prog resp (result error DeleteResponse) :=
  if (str_empty (od_Bucket rq) || str_empty (od_Name rq))%bool
  then mret (Err (bad_request "nats.object.delete: bucket and name are required"))
  else
    err ← DeleteObject (callCtx ctx) (od_Bucket rq) (od_Name rq);
    match err with
    | Some err => mret (Err err)
    | None => mret (Ok (mkDelResp (od_Bucket rq) (od_Name rq) true))
    end.
End Flow.
