(* ===== verification/FlowProofs.v ===== *)
(** * Flow actions on buckets: theorems (src/nexssflow/jetstream_actions.go) *)

From S2P Require Import Prelude Effects Errors Json World MemKV KVOps Objects GoText Flow.

Local Open Scope Z_scope.

Section FlowProofs.
Context {EM : ErrorModel} {K : Kernel EM} {AJ : AnyJson}.
Context (cfg : Config).

Abbreviation evt := (@Ev req resp).

(** ** Encodings *)
Lemma decode_encodeObject data :
  let '(encoding, v) := encodeObject data in decodeObjectInput v encoding = Ok data.
Proof.
  unfold encodeObject, decodeObjectInput. destruct (utf8_valid data); cbn [negb].
  - reflexivity.
  - change (decodeObjectInput (b64_encode data) "base64" = Ok data). unfold decodeObjectInput.
    change (str_lower (strings_TrimSpace "base64")) with "base64". cbn -[b64_decode b64_encode].
    by rewrite b64_decode_encode.
Qed.

Lemma b64_digit_ascii n : byte_in 0 127 (b64_digit n) = true.
Proof. do 64 (destruct n as [|n]; [reflexivity|]). reflexivity. Qed.

Lemma b64_utf8 s : utf8_valid (b64_encode s) = true.
Proof.
  induction s as [|a|a b|a b c s IH] using bytes3_ind; [done|..]; cbn [b64_encode utf8_valid];
    rewrite !b64_digit_ascii; [done..|]. exact IH.
Qed.

(** ** Failing calls *)

(** A call that answered with an error. *)
Definition failing (e : event resp) : Prop :=
  match ev_req e as r return resp r → Prop with
  | RCtxErr _ | REnsureJetStream | RObjectStore _ | RObjClose _ | RJetstreamNew _ | RJsKeyValue _ _
  | RJkDelete _ _ _ _ => λ x, x ≠ None
  | REnsureConn _ | RObjGet _ _ _ | RObjPutBytes _ _ _ _ | RJkGet _ _ _ | RJkPut _ _ _ _ | RJkCreate _ _ _ _ _
  | RJkUpdate _ _ _ _ _ => λ x, is_ok x = false
  | _ => λ _, False
  end (ev_resp e).
Definition broke (tr : list (event resp)) : Prop := Exists failing tr.

Lemma broke_app t u : broke (t ++ u) ↔ broke t ∨ broke u.
Proof. apply Exists_app. Qed.

(** ** Objects *)

(** The limit asked for: 8 MiB when it is zero. *)
Definition asked_limit (maxBytes : Z) : Z := if maxBytes =? 0 then 8388608 else maxBytes.

Lemma objectLimit_asked m :
  match objectLimit m with Ok limit => 0 ≤ m ∧ limit = asked_limit m ∧ 0 < limit | Err _ => m < 0 end.
Proof.
  unfold objectLimit, asked_limit, defaultFlowObjectMaxBytes. destruct (m <? 0) eqn:E1; [by go_bool|].
  destruct (m =? 0) eqn:E2; go_bool; lia.
Qed.

(** What a run opened, what it read of it, and what the store acknowledged. *)
Definition get_of (e : event resp) : option (string * string * nat) :=
  match ev_req e as r return resp r → option (string * string * nat) with
  | RObjGet _ b n => λ x, match x with Ok obj => Some (b, n, obj) | Err _ => None end
  | _ => λ _, None
  end (ev_resp e).
Definition gets (tr : list (event resp)) : list (string * string * nat) := omap get_of tr.

Definition read_of (e : event resp) : option (nat * (string * option error)) :=
  match ev_req e as r return resp r → option (nat * (string * option error)) with
  | RObjRead obj _ => λ x, Some (obj, x) | _ => λ _, None
  end (ev_resp e).
Definition reads (tr : list (event resp)) : list (nat * (string * option error)) := omap read_of tr.

Definition put_of (e : event resp) : option (string * string * string) :=
  match ev_req e as r return resp r → option (string * string * string) with
  | RObjPutBytes _ b n d => λ x, match x with Ok _ => Some (b, n, d) | Err _ => None end
  | _ => λ _, None
  end (ev_resp e).
Definition puts (tr : list (event resp)) : list (string * string * string) := omap put_of tr.

(** The calls before the object is touched. *)
Definition preparing (r : req) : Prop :=
  match r with RCtxErr _ | REnsureConn _ | REnsureJetStream | RObjectStore _ => True | _ => False end.
Abbreviation prepared := (Forall (λ e, preparing (ev_req e))).

Lemma preparing_reads t : prepared t → gets t = [] ∧ reads t = [] ∧ puts t = [].
Proof.
  unfold gets, reads, puts. induction 1 as [|[r x] t Hr _ (I1 & I2 & I3)]; [done|]. cbn in *. by destruct r.
Qed.

Lemma objectStore_sat ctx bucket :
  sat (objectStore ctx bucket) (λ tr r, prepared tr ∧ (r ≠ None → broke tr)).
Proof.
  eapply sat_and; [apply calls_only_sat; unfold objectStore; repeat calls_step|].
  unfold objectStore, broke. apply sat_call. intros [nc|e]; [|intros _; by left].
  apply sat_call. intros [e|]; [intros _; right; by left|].
  apply sat_call. intros [e|]; [intros _; right; right; by left|cbn; by intros []].
Qed.

Lemma ctx_Err_sat ctx : sat (ctx_Err ctx) (λ tr r, prepared tr ∧ (r ≠ None → broke tr)).
Proof.
  unfold ctx_Err. destruct ctx; cbn; try (split; [done|by intros []]); intros [e|]; (split; [by repeat constructor|]); try (by intros []);
    intros _; by left.
Qed.

(** The prologue of the object operations: [p] runs on an open store. *)
Lemma opened_store_sat {A} ctx bucket name (p : prog resp (result error A)) (Q : list (event resp) → result error A → Prop) :
  (∀ t e, prepared t → bucket = "" ∨ name = "" ∨ broke t → Q t (Err e)) →
  (∀ t, prepared t → sat p (λ tr r, Q (t ++ tr) r)) →
  sat (checked ctx bucket name (err ← objectStore ctx bucket; match err with Some err => mret (Err err) | None => p end)) Q.
Proof.
  intros He Hp. unfold checked. apply sat_bind. eapply sat_mono; [|apply ctx_Err_sat]. cbn beta.
  intros t [e|] [Ht Hb]; [cbn; rewrite app_nil_r; apply He; [done|]; right; right; by apply Hb|].
  destruct (_ || _)%bool eqn:En.
  { cbn. rewrite app_nil_r. go_bool. apply He; [done|]. by destruct En; auto. }
  apply sat_bind. eapply sat_mono; [|apply objectStore_sat]. cbn beta.
  intros t' [e|] [Ht' Hb'].
  - cbn. rewrite app_nil_r. apply He; [by apply Forall_app|]. right; right. apply broke_app. right. by apply Hb'.
  - eapply sat_mono; [|apply (Hp (t ++ t')); by apply Forall_app]. cbn beta. intros tr r. by rewrite app_assoc.
Qed.

(** The one object read was the one asked for, to its end of file. *)
Definition read_whole (bucket name : string) (tr : list (event resp)) (data : string) : Prop :=
  ∃ obj ends, at_EOF ends ∧ gets tr = [(bucket, name, obj)] ∧ reads tr = [(obj, (data, ends))].

(** The object asked for does not fit, or its reader failed. *)
Definition unreadable (bucket name : string) (limit : Z) (tr : list (event resp)) : Prop :=
  ∃ obj content ends, gets tr = [(bucket, name, obj)] ∧ reads tr = [(obj, (content, ends))] ∧
    (limit < str_len content ∨ ¬ at_EOF ends).

Definition object_read (bucket name : string) (limit : Z) (tr : list (event resp)) (r : result error string) : Prop :=
  match r with
  | Ok data => str_len data ≤ limit ∧ read_whole bucket name tr data
  | Err _ => bucket = "" ∨ name = "" ∨ limit = int64_max ∨ broke tr ∨ unreadable bucket name limit tr
  end.

Lemma reading_accounts t ctx bucket name limit obj src c :
  prepared t → let tr := t ++ reading ctx bucket name limit obj src c in
  gets tr = [(bucket, name, obj)] ∧ reads tr = [(obj, src)] ∧ (c ≠ None → broke tr).
Proof.
  intros Ht. destruct (preparing_reads t Ht) as (H1 & H2 & _). unfold gets, reads, broke in *. cbv zeta.
  rewrite !omap_app, H1, H2, Exists_app. split; [done|]. split; [done|]. intros Hc. right. right. right. by left.
Qed.

Lemma read_ok_object ctx bucket name limit t tr r :
  prepared t → read_ok ctx bucket name limit tr r → object_read bucket name limit (t ++ tr) r.
Proof.
  intros Ht. destruct r as [data|e]; cbn.
  - intros (_ & Hl & obj & ends & He & ->). split; [done|]. exists obj, ends. split; [done|].
    pose proof (reading_accounts t ctx bucket name limit obj (data, ends) None Ht) as (H1 & H2 & _). done.
  - intros [(_ & Hl & _)|[_ [[e0 ->]|(obj & content & ends & c & -> & Hr)]]]; [by auto| |].
    + right; right; right; left. apply broke_app. right. by left.
    + pose proof (reading_accounts t ctx bucket name limit obj (content, ends) c Ht) as (H1 & H2 & H3).
      destruct Hr as [Hc|Hr]; [by auto 10|]. right; right; right; right. by exists obj, content, ends.
Qed.

Lemma checked_pull {A} ctx bucket name (c : bool) (p q : prog resp (result error A)) :
  checked ctx bucket name (if c then p else q) = if c then checked ctx bucket name p else checked ctx bucket name q.
Proof. by destruct c. Qed.

Lemma GetObjectLimited_sat `{!ErrorLaws EM} ctx bucket name m :
  in_int64 m → 0 < m → sat (GetObjectLimited ctx bucket name m) (object_read bucket name m).
Proof.
  intros H64 Hm. assert (E : effectiveLimit m = m).
  { unfold effectiveLimit. destruct (m <=? 0) eqn:E; [go_bool; lia|done]. }
  unfold GetObjectLimited. cbv zeta. rewrite E, checked_pull. destruct (m =? int64_max) eqn:El; go_bool.
  - unfold checked. eapply sat_then with (P := λ _, True); [by apply sat_runs|].
    intros t [e|] _; [cbn; rewrite app_nil_r; by auto|]. destruct (_ || _)%bool; cbn; rewrite app_nil_r; by auto.
  - apply opened_store_sat.
    + intros t e _ [->|[->|Hb]]; cbn; auto.
    + intros t Ht. eapply sat_mono; [|by apply readObjectBytes_sat]. cbn beta.
      rewrite <- read_limit_effective, E. intros tr r. by apply read_ok_object.
Qed.

(** A stored object, or the reason why it was not. *)
Definition object_put (bucket name data : string) (tr : list (event resp)) (r : result error ObjectInfo) : Prop :=
  match r with
  | Ok _ => puts tr = [(bucket, name, data)]
  | Err _ => puts tr = [] ∧ (bucket = "" ∨ name = "" ∨ broke tr)
  end.

Lemma PutObject_sat ctx bucket name data :
  sat (PutObject ctx bucket name data) (object_put bucket name data).
Proof.
  unfold PutObject. apply opened_store_sat.
  - intros t e Ht Hr. split; [apply preparing_reads, Ht|done].
  - intros t Ht. destruct (preparing_reads t Ht) as (_ & _ & Hn).
    apply sat_call. intros [info|e]; cbn; unfold puts in *; rewrite omap_app, Hn; [done|]. split; [done|].
    right; right. apply broke_app. right. by left.
Qed.

(** What nats.object.put does with [data]. *)
Definition put_outcome (bucket name data : string) (m : Z) (tr : list (event resp))
    (r : result error ObjectPutResponse) : Prop :=
  match r with
  | Ok rp => puts tr = [(bucket, name, data)] ∧ opr_bucket rp = bucket ∧ opr_name rp = name
  | Err _ => puts tr = [] ∧ (bucket = "" ∨ name = "" ∨ m < 0 ∨ asked_limit m < str_len data ∨ broke tr)
  end.

Lemma objectPut_sat ctx b n d enc m data :
  decodeObjectInput d enc = Ok data →
  sat (objectPutAction cfg ctx (mkObjPutReq b n d enc m)) (put_outcome b n data m).
Proof.
  intros Hd. unfold objectPutAction. cbn [op_Bucket op_Name op_MaxBytes op_Data op_Encoding].
  destruct (_ || _)%bool eqn:En; [go_bool; cbn; by destruct En; auto|].
  pose proof (objectLimit_asked m) as Hm. destruct (objectLimit m) as [limit|e]; [|cbn; by auto].
  destruct Hm as (_ & -> & _). rewrite Hd.
  destruct (asked_limit m <? str_len data) eqn:E; [go_bool; cbn; by auto 10|].
  apply sat_bind. eapply sat_mono; [|apply PutObject_sat]. cbn beta. intros tr [info|e] Hp; cbn; rewrite app_nil_r; [done|].
  destruct Hp as [Hp Hr]. split; [done|]. by destruct Hr as [|[|]]; auto.
Qed.

(** The text of an object in a response. *)
Definition object_text (data : string) (rp : ObjectGetResponse) : Prop :=
  if utf8_valid data then or_Encoding rp = "utf-8" ∧ or_Data rp = data
  else or_Encoding rp = "base64" ∧ or_Data rp = b64_encode data.


(** ** Keys *)

(** What a run read: bucket, key and answer. *)
Definition got_of (e : event resp) : option (string * string * result error KeyValueEntry) :=
  match ev_req e as r return resp r → option (string * string * result error KeyValueEntry) with
  | RJkGet _ b k => λ x, Some (b, k, x) | _ => λ _, None
  end (ev_resp e).
Definition got (tr : list (event resp)) : list (string * string * result error KeyValueEntry) := omap got_of tr.

Lemma keyValue_got ctx bucket :
  sat (keyValue ctx bucket) (λ tr r, (got tr = [] ∧ writes tr = []) ∧ (r ≠ None → bucket = "" ∨ broke tr)).
Proof.
  unfold keyValue. destruct (str_empty bucket) eqn:E; [go_bool; cbn; by auto|].
  unfold broke. cbn. intros [nc|e]; [|split; [done|]; intros _; right; by left].
  intros [e|]; [split; [done|]; intros _; right; right; by left|].
  intros [e|]; (split; [done|]); [intros _; right; right; right; by left|by intros []].
Qed.

(** An operation on a key fails for a reason. *)
Lemma operation_fails {A} ctx b k (r : req) (f : resp r → result error A) :
  (∀ x, is_ok (f x) = false → failing (Ev r x)) →
  sat (err ← keyValue ctx b;
       match err with Some err => mret (Err err) | None => x ← call r; mret (f x) end)
    (λ tr r, is_ok r = false → b = "" ∨ k = "" ∨ broke tr).
Proof.
  intros Hf. apply sat_bind. eapply sat_mono; [|apply keyValue_got]. cbn beta. intros t [e|] [_ Hb].
  - cbn. rewrite app_nil_r. intros _. destruct Hb as [|]; auto.
  - apply sat_call. intros x. cbn. intros Hx. right; right. apply broke_app. right. left. by apply Hf.
Qed.

Lemma mapped_fails {A B} b k (f : A → B) r : is_ok (mapped b k f r) = false → is_ok r = false.
Proof. by destruct r. Qed.

Definition write_fails (b k : string) {A} (tr : list (event resp)) (r : result error A) : Prop :=
  is_ok r = false → b = "" ∨ k = "" ∨ broke tr.

Lemma PutKV_fails ctx b k data : sat (PutKV ctx b k data) (write_fails b k).
Proof.
  unfold PutKV. destruct (str_empty k) eqn:E; [go_bool; intros _; by auto|].
  apply operation_fails. intros x. apply mapped_fails.
Qed.
Lemma CreateKV_fails ctx b k data ttl : 0 ≤ ttl → sat (CreateKV ctx b k data ttl) (write_fails b k).
Proof.
  intros Ht. unfold CreateKV. destruct (str_empty k) eqn:E; [go_bool; intros _; by auto|].
  destruct (ttl <? 0) eqn:E2; [go_bool; lia|]. apply operation_fails. intros x. apply mapped_fails.
Qed.
Lemma UpdateKV_fails ctx b k data rev : rev ≠ 0 → sat (UpdateKV ctx b k data rev) (write_fails b k).
Proof.
  intros Hr. unfold UpdateKV. destruct (str_empty k) eqn:E; [go_bool; intros _; by auto|].
  destruct (rev =? 0) eqn:E2; [go_bool; lia|]. apply operation_fails. intros x. apply mapped_fails.
Qed.
Lemma DeleteKV_fails ctx b k orev :
  orev ≠ Some 0 → sat (DeleteKV ctx b k orev) (λ tr r, r ≠ None → b = "" ∨ k = "" ∨ broke tr).
Proof.
  intros Hr. unfold DeleteKV. destruct (str_empty k) eqn:E; [go_bool; intros _; by auto|].
  apply sat_bind. eapply sat_mono; [|apply keyValue_got]. cbn beta. intros t [e|] [_ Hb].
  - cbn. rewrite app_nil_r. intros _. destruct Hb as [|]; auto.
  - destruct orev as [[|p|p]|]; [done|..]; (apply sat_call; intros [e|]; cbn; [|by intros []]);
      intros _; right; right; apply broke_app; right; by left.
Qed.

Lemma GetKV_sat ctx b k :
  sat (GetKV ctx b k) (λ tr r, writes tr = [] ∧
    ((got tr = [] ∧ is_ok r = false ∧ (b = "" ∨ k = "" ∨ broke tr)) ∨
     ∃ x, got tr = [(b, k, x)] ∧ r = mapped b k kvEntry x ∧ (is_ok x = false → broke tr))).
Proof.
  unfold GetKV. destruct (str_empty k) eqn:E; [go_bool; cbn; by auto 10|].
  apply sat_bind. eapply sat_mono; [|apply keyValue_got]. cbn beta.
  intros t [e|] [[Ht Hw] Hb]; [cbn; rewrite app_nil_r; split; [done|]; left; split; [done|]; split; [done|];
    by destruct Hb as [|]; auto|].
  apply sat_call. intros x. cbn. unfold got, writes in *. rewrite !omap_app, Ht, Hw. split; [done|]. right. exists x.
  split; [done|]. split; [done|]. intros Hx. apply broke_app. right. by left.
Qed.

(** Names that are empty or spaces only. *)
Definition blank (s : string) : Prop := strings_TrimSpace s = "".

Lemma validate_blank action b k :
  match validateKVRequest action b k with
  | Some _ => blank b ∨ blank k
  | None => b ≠ "" ∧ k ≠ ""
  end.
Proof.
  unfold validateKVRequest, blank. destruct (_ || _)%bool eqn:E; go_bool; [done|]. destruct E as [E1 E2].
  split; intros ->; [by apply E1|by apply E2].
Qed.

(** What nats.kv.get makes of the bucket's answer. *)
Definition missing (rq : KVGetRequest) : KVGetResponse :=
  mkKVGetResp (gq_Bucket rq) (gq_Key rq) false None "" 0 time_zero.
Definition present (rq : KVGetRequest) (entry : KeyValueEntry) : KVGetResponse :=
  let '(v, encoding) := decodeKVValue (ke_Value entry) in
  mkKVGetResp (gq_Bucket rq) (gq_Key rq) true v encoding (ke_Revision entry) (ke_Created entry).

Lemma kv_get_sat ctx rq :
  sat (nats_kv_get cfg ctx rq) (λ tr r, writes tr = [] ∧
    (is_ok r = false → blank (gq_Bucket rq) ∨ blank (gq_Key rq) ∨ broke tr) ∧
    ((got tr = [] ∧ (r = Ok (missing rq) ∨ is_ok r = false)) ∨
     (∃ entry, got tr = [(gq_Bucket rq, gq_Key rq, Ok entry)] ∧ r = Ok (present rq entry)) ∨
     (∃ e, got tr = [(gq_Bucket rq, gq_Key rq, Err e)] ∧
        r = let err := mapKVErr e (gq_Bucket rq) (gq_Key rq) in
            if errors_Is err jetstream_ErrKeyNotFound then Ok (missing rq) else Err err))).
Proof.
  unfold nats_kv_get. pose proof (validate_blank "nats.kv.get" (gq_Bucket rq) (gq_Key rq)) as Hv.
  destruct (validateKVRequest _ _ _) as [e|].
  { split; [done|]. split; [by destruct Hv; auto|]. left; by split; [|right]. }
  apply sat_bind. eapply sat_mono; [|apply GetKV_sat]. cbn beta.
  intros tr r [Hw [(Hg & Hr & Hb)|(x & Hg & -> & Hx)]].
  - destruct r as [entry|e]; [done|]. assert (B : broke tr) by (destruct Hv; by destruct Hb as [|[|]]).
    destruct (errors_Is e _); cbn; rewrite app_nil_r; (split; [done|]; split; [by auto|]; left; by auto).
  - destruct x as [entry|e]; cbn [mapped].
    + cbn [kvEntry kve_Value kve_Revision kve_Created]. destruct (decodeKVValue _) as [v enc] eqn:Ed.
      cbn. rewrite app_nil_r. split; [done|]. split; [done|]. right; left. exists entry. unfold present. by rewrite Ed.
    + destruct (errors_Is _ _) eqn:Ei; cbn; rewrite app_nil_r; (split; [done|]; split; [by auto|]);
        right; right; exists e; by rewrite Ei.
Qed.

(** nats.kv.get tells a missing key from a failure: the bucket's answer for a
    missing key is the response Found = false and no error - although the transport had
    already mapped that answer to a NotFound error - while a missing bucket, or any other
    error that is not also a missing key, is reported as the error it was mapped to; and
    an entry is returned with its value decoded, its revision and its creation time. *)
Theorem flow_kv_get_outcome `{!ErrorLaws EM} ctx rq :
  sat (nats_kv_get cfg ctx rq) (λ tr r,
    (∀ entry, got tr = [(gq_Bucket rq, gq_Key rq, Ok entry)] → r = Ok (present rq entry)) ∧
    (∀ e, got tr = [(gq_Bucket rq, gq_Key rq, Err e)] →
       (errors_Is e jetstream_ErrKeyNotFound = true → errors_Is e jetstream_ErrBucketNotFound = false →
          r = Ok (missing rq)) ∧
       (errors_Is (mapKVErr e (gq_Bucket rq) (gq_Key rq)) jetstream_ErrKeyNotFound = false →
          r = Err (mapKVErr e (gq_Bucket rq) (gq_Key rq)))) ∧
    (got tr = [] → ∀ rp, r = Ok rp → gr_Found rp = false)).
Proof.
  eapply sat_mono; [|apply kv_get_sat]. cbn beta zeta.
  intros tr r (_ & _ & [[Hg Hr]|[(entry & Hg & ->)|(e & Hg & ->)]]); rewrite Hg; (split; [|split]); try done.
  - intros _ rp ->. by destruct Hr as [[= ->]|].
  - by intros ? [= ->].
  - intros ? [= <-]. split; [|by intros ->]. intros Hk Hb.
    assert (errors_Is (mapKVErr e (gq_Bucket rq) (gq_Key rq)) jetstream_ErrKeyNotFound = true) as ->; [|done].
    unfold mapKVErr. rewrite Hb, Hk. by apply is_cause.
Qed.

(** ** Writes *)

(** An action that writes: the one write acknowledged under the revision it reports, or no
    write and a reason. *)
Definition write_outcome (b k : string) (reason : Prop) (w : Z → list kvwrite) (tr : list (event resp))
    (r : result error KVWriteResponse) : Prop :=
  match r with
  | Ok rp => ∃ n, rp = mkKVWriteResp b k n ∧ writes tr = w n
  | Err _ => writes tr = [] ∧ (blank b ∨ blank k ∨ reason ∨ broke tr)
  end.

Lemma written_sat (p : prog resp (result error Z)) b k (reason : Prop) (w : Z → list kvwrite) :
  b ≠ "" → k ≠ "" →
  sat p (λ tr r, match r with Ok n => writes tr = w n | Err _ => writes tr = [] end) →
  sat p (write_fails b k) →
  sat (r ← p; mret (written b k r)) (write_outcome b k reason w).
Proof.
  intros Hb Hk H1 H2. apply sat_bind. eapply sat_mono; [|apply sat_and; [exact H1|exact H2]]. cbn beta.
  intros tr [n|e] [Hw Hf]; cbn; rewrite app_nil_r; [by exists n|]. split; [done|].
  by destruct (Hf eq_refl) as [|[|]]; auto.
Qed.

(** The time to live of a key, as written in a request: none, or a Go duration of at least
    one second. *)
Definition ttl_wanted (raw : string) (ttl : option Z) : Prop :=
  match ttl with
  | None => raw = ""
  | Some d => raw ≠ "" ∧ time_ParseDuration raw = inr d ∧ 1000000000 ≤ d
  end.

Lemma ttl_wanted_inj raw a b : ttl_wanted raw a → ttl_wanted raw b → a = b.
Proof. intros Ha Hb. destruct a as [a|], b as [b|]; cbn in *; destruct_and?; congruence. Qed.

Lemma parseKVTTL_wanted raw :
  match parseKVTTL raw with
  | Ok d => 0 ≤ d ∧ ttl_wanted raw (if 0 <? d then Some d else None)
  | Err _ => ∀ ttl, ¬ ttl_wanted raw ttl
  end.
Proof.
  unfold parseKVTTL. destruct (str_empty raw) eqn:E; go_bool; [done|].
  destruct (time_ParseDuration raw) as [e|d] eqn:Ed.
  { intros [d|]; [|done]. intros (_ & E' & _). congruence. }
  destruct (d <? time_Second) eqn:Et; go_bool; unfold time_Second in *.
  - intros [d'|]; [|done]. intros (_ & E' & H). rewrite Ed in E'. injection E' as ->. lia.
  - split; [lia|]. destruct (0 <? d) eqn:E0; go_bool; [done|lia].
Qed.

Lemma kv_put_sat v data ctx b k :
  json_Marshal_any v = Ok data →
  sat (nats_kv_put cfg ctx (mkKVPutReq b k (Some v))) (write_outcome b k False (λ n, [WPut b k data n])).
Proof.
  intros Hm. unfold nats_kv_put. cbn [pq_Bucket pq_Key pq_Value marshalKVValue]. rewrite Hm.
  pose proof (validate_blank "nats.kv.put" b k) as Hv.
  destruct (validateKVRequest _ _ _); [cbn; by destruct Hv; auto|]. destruct Hv as [Hb Hk].
  apply written_sat; [done..|apply PutKV_sat|apply PutKV_fails].
Qed.

Lemma kv_create_sat v data ctx b k raw ttl :
  json_Marshal_any v = Ok data → ttl_wanted raw ttl →
  sat (nats_kv_create cfg ctx (mkKVCreateReq b k (Some v) raw)) (write_outcome b k False (λ n, [WCreate b k data ttl n])).
Proof.
  intros Hm Ht. unfold nats_kv_create. cbn [cq_Bucket cq_Key cq_Value cq_TTL marshalKVValue]. rewrite Hm.
  pose proof (validate_blank "nats.kv.create" b k) as Hv.
  destruct (validateKVRequest _ _ _); [cbn; by destruct Hv; auto|]. destruct Hv as [Hb Hk].
  pose proof (parseKVTTL_wanted raw) as Hp. destruct (parseKVTTL raw) as [d|e]; [|by destruct (Hp ttl)].
  destruct Hp as [Hd Hp]. rewrite (ttl_wanted_inj _ _ _ Ht Hp).
  apply written_sat; [done..| |by apply CreateKV_fails].
  eapply sat_mono; [|apply CreateKV_sat]. cbn beta. by intros tr [n|e] H; [destruct H|].
Qed.

Lemma kv_create_refused v data ctx b k raw :
  json_Marshal_any v = Ok data → (∀ ttl, ¬ ttl_wanted raw ttl) →
  sat (nats_kv_create cfg ctx (mkKVCreateReq b k (Some v) raw)) (λ tr r, tr = [] ∧ is_ok r = false).
Proof.
  intros Hm Ht. unfold nats_kv_create. cbn [cq_Bucket cq_Key cq_Value cq_TTL marshalKVValue]. rewrite Hm.
  destruct (validateKVRequest _ _ _); [done|].
  pose proof (parseKVTTL_wanted raw) as Hp. destruct (parseKVTTL raw) as [d|e]; [|done]. by destruct (Ht _ (proj2 Hp)).
Qed.

Lemma kv_update_sat v data ctx b k rev :
  json_Marshal_any v = Ok data →
  sat (nats_kv_update cfg ctx (mkKVUpdateReq b k (Some v) rev)) (λ tr r,
    (rev = 0 → is_ok r = false) ∧ write_outcome b k (rev = 0) (λ n, [WUpdate b k data rev n]) tr r).
Proof.
  intros Hm. unfold nats_kv_update. cbn [uq_Bucket uq_Key uq_Value uq_Revision marshalKVValue]. rewrite Hm.
  pose proof (validate_blank "nats.kv.update" b k) as Hv.
  destruct (validateKVRequest _ _ _); [cbn; split; [done|]; split; [done|]; by destruct Hv; auto|]. destruct Hv as [Hb Hk].
  destruct (rev =? 0) eqn:Er; go_bool; [cbn; split; [done|]; split; [done|]; by auto|].
  eapply sat_mono; [|apply (written_sat _ b k (rev = 0) (λ n, [WUpdate b k data rev n])); [done..| |by apply UpdateKV_fails]].
  - cbn beta. by split.
  - eapply sat_mono; [|apply UpdateKV_sat]. cbn beta. by intros tr [n|e] H; [destruct H|].
Qed.

Lemma kv_delete_sat ctx b k orev :
  sat (nats_kv_delete cfg ctx (mkKVDeleteReq b k orev)) (λ tr r,
    match r with
    | Ok rp => rp = mkDelResp b k true ∧ orev ≠ Some 0 ∧ writes tr = [WDelete b k orev]
    | Err _ => writes tr = [] ∧ (blank b ∨ blank k ∨ orev = Some 0 ∨ broke tr)
    end).
Proof.
  unfold nats_kv_delete. cbn [dq_Bucket dq_Key dq_Revision].
  pose proof (validate_blank "nats.kv.delete" b k) as Hv.
  destruct (validateKVRequest _ _ _); [cbn; by destruct Hv; auto|]. destruct Hv as [Hb Hk].
  assert (D : orev ≠ Some 0 → sat (err ← DeleteKV (callCtx cfg ctx) b k orev;
    match err with Some err => mret (Err err) | None => mret (Ok (mkDelResp b k true)) end) (λ tr r,
    match r with
    | Ok rp => rp = mkDelResp b k true ∧ orev ≠ Some 0 ∧ writes tr = [WDelete b k orev]
    | Err _ => writes tr = [] ∧ (blank b ∨ blank k ∨ orev = Some 0 ∨ broke tr)
    end)).
  { intros Ho. apply sat_bind. eapply sat_mono; [|apply sat_and; [apply DeleteKV_sat|by apply DeleteKV_fails]].
    cbn beta. intros tr [e|] [H Hf]; cbn; rewrite app_nil_r; [|done]. split; [done|].
    by destruct Hf as [|[|]]; auto. }
  destruct orev as [[|p|p]|]; [cbn; by auto|by apply D..].
Qed.

End FlowProofs.

(** ** Witnesses *)
Section Witnesses.
Import GoErr.

#[local] Instance any_json : AnyJson (EM := GoErr.model) (K := kernel) := {|
  json_Unmarshal_any s := Ok (Some s);
  CorruptInputError _ := errors_New "illegal base64 data";
  value_string s := s
|}.

Definition flow_cfg : Config :=
  normalizeConfig (mkConfig "" "" 0 "" "" "" "" "" false).

Definition start : mem := mkMem empty_view 0 0.


Lemma flow_kv_get_outcome_witness :
  exec_result mem_handler (nats_kv_get flow_cfg Background (mkKVGetReq "b" "k")) start
  = Ok (missing (mkKVGetReq "b" "k")).
Proof.
  pose proof (proj1 (sat_runs _ _) (flow_kv_get_outcome flow_cfg Background (mkKVGetReq "b" "k")) _ _
    (exec_is_run mem_handler _ start)) as (_ & H & _).
  apply (H (ESentinel jetstream_ErrKeyNotFound)); by vm_compute.
Defined.

End Witnesses.
