(* ===== verification/Embedded.v ===== *)
(** * The embedded server (src/tnats/embedded.go)

    Its configuration, startEmbedded and stopEmbedded.  The server itself is a package
    of its own: a server is a number, its operations are calls. *)

From S2P Require Import Prelude Effects Errors.

Local Open Scope Z_scope.

(** natsserver.Options, as far as startEmbedded sets it. *)
Record serverOptions := mkServerOptions {
  so_Host : string; so_Port : Z; so_ServerName : string; so_JetStream : bool; so_StoreDir : string;
  so_MaxPayload : Z; so_MaxConn : Z; so_Username : string; so_Password : string; so_Authorization : string;
  so_Debug : bool; so_Trace : bool; so_NoLog : bool; so_NoSigs : bool }.

Record EmbeddedConfig := mkEmbedded {
  em_Host : string; em_Port : Z; em_JetStream : bool; em_StoreDir : string; em_ServerName : string;
  em_MaxPayload : Z; em_MaxConnections : Z; em_Username : string; em_Password : string; em_Token : string;
  em_Debug : bool; em_Trace : bool; em_NoLog : bool; em_NoSigs : bool; em_StartTimeout : Z;
  em_Options : option (serverOptions → serverOptions) }.

Definition applyDefaults (c : EmbeddedConfig) : EmbeddedConfig :=
  {| em_Host := if str_empty (em_Host c) then "127.0.0.1" else em_Host c;
     em_Port := em_Port c;
     em_JetStream := em_JetStream c;
     em_StoreDir := em_StoreDir c;
     em_ServerName := if str_empty (em_ServerName c) then "nexss-embedded" else em_ServerName c;
     em_MaxPayload := if em_MaxPayload c =? 0 then 8 * 1024 * 1024 else em_MaxPayload c;
     em_MaxConnections := em_MaxConnections c;
     em_Username := em_Username c;
     em_Password := em_Password c;
     em_Token := em_Token c;
     em_Debug := em_Debug c;
     em_Trace := em_Trace c;
     em_NoLog := em_NoLog c;
     em_NoSigs := em_NoSigs c;
     em_StartTimeout := if em_StartTimeout c <=? 0 then 5 * time_Second else em_StartTimeout c;
     em_Options := em_Options c |}.

(** os.MkdirAll and the server. *)
Inductive sreq :=
| SMkdirAll (dir : string)
| SNewServer (opts : serverOptions)
| SStart (srv : nat)
| SReadyForConnections (srv : nat) (timeout : Z)
| SShutdown (srv : nat)
| SWaitForShutdown (srv : nat)
| SClientURL (srv : nat).

Section Embedded.
Context {EM : ErrorModel}.

Definition sresp (r : sreq) : Type :=
  match r with
  | SMkdirAll _ => option error
  | SNewServer _ => result error nat
  | SReadyForConnections _ _ => bool
  | SClientURL _ => string
  | SStart _ | SShutdown _ | SWaitForShutdown _ => unit
  end.

(** natsserver.RANDOM_PORT. *)
Context (RANDOM_PORT : Z).

(** t.embeddedSrv and t.url. *)
Record embedding := mkEmbedding { eb_srv : option nat; eb_url : string }.

Definition server_options (cfg : EmbeddedConfig) : serverOptions :=
  let port := if em_Port cfg =? 0 then RANDOM_PORT else em_Port cfg in
  let opts :=
    {| so_Host := em_Host cfg; so_Port := port; so_ServerName := em_ServerName cfg;
       so_JetStream := em_JetStream cfg; so_StoreDir := em_StoreDir cfg; so_MaxPayload := em_MaxPayload cfg;
       so_MaxConn := em_MaxConnections cfg; so_Username := em_Username cfg; so_Password := em_Password cfg;
       so_Authorization := em_Token cfg; so_Debug := em_Debug cfg; so_Trace := em_Trace cfg;
       so_NoLog := em_NoLog cfg; so_NoSigs := em_NoSigs cfg |} in
  match em_Options cfg with Some f => f opts | None => opts end.

Definition startEmbedded (embedded : option EmbeddedConfig) (t : embedding)
    : prog sresp (option error * embedding) :=
  match embedded with
  | None => mret (None, t)
  | Some cfg =>
      if (em_JetStream cfg && str_empty (em_StoreDir cfg))%bool
      then mret (Some (xerr_new KindBadRequest "tnats: embedded JetStream requires StoreDir" None), t)
      else
        dirErr ← (if em_JetStream cfg then call (SMkdirAll (em_StoreDir cfg)) else mret None);
        match (dirErr : option error) with
        | Some err => mret (Some (xerr_new KindInternal "tnats: cannot create jetstream store dir" (Some err)), t)
        | None =>
            srv ← call (SNewServer (server_options cfg));
            match (srv : result error nat) with
            | Err err =>
                mret (Some (xerr_new KindInternal "tnats: embedded server construction failed" (Some err)), t)
            | Ok srv =>
                _ ← call (SStart srv);
                ready ← call (SReadyForConnections srv (em_StartTimeout cfg));
                if negb ready then
                  _ ← call (SShutdown srv);
                  _ ← call (SWaitForShutdown srv);
                  mret (Some (xerr_new KindUnavailable "tnats: embedded server startup timed out" None), t)
                else
                  clientURL ← call (SClientURL srv);
                  mret (None, mkEmbedding (Some srv) clientURL)
            end
        end
  end.

Definition stopEmbedded (t : embedding) : prog sresp embedding :=
  match eb_srv t with
  | None => mret (mkEmbedding None (eb_url t))
  | Some srv =>
      _ ← call (SShutdown srv);
      _ ← call (SWaitForShutdown srv);
      mret (mkEmbedding None (eb_url t))
  end.

(** ** Theorems *)
Abbreviation evt := (@Ev sreq sresp).

(** The servers a run started, and those it brought down. *)
Definition started_of (e : event sresp) : option nat :=
  match ev_req e with SStart srv => Some srv | _ => None end.
Definition down_of (e : event sresp) : option nat :=
  match ev_req e with SWaitForShutdown srv => Some srv | _ => None end.
Definition started (tr : list (event sresp)) : list nat := omap started_of tr.
Definition down (tr : list (event sresp)) : list nat := omap down_of tr.

(** An embedded server is never left behind: startEmbedded starts at most one
    server; when it fails, the server it started - if any - was shut down and awaited,
    and the transport is as before; when it succeeds, the server accepted connections
    within the timeout and the transport dials that server; JetStream is never started
    without a store directory.  stopEmbedded shuts down exactly the server that was
    recorded and awaits it, and a second stop does nothing. *)
Theorem embedded_no_leak cfg t :
  sat (startEmbedded (Some cfg) t) (λ tr r,
    match r.1 with
    | None => ∃ srv url, r.2 = mkEmbedding (Some srv) url ∧ started tr = [srv] ∧ down tr = [] ∧
        evt (SReadyForConnections srv (em_StartTimeout cfg)) true ∈ tr ∧ evt (SClientURL srv) url ∈ tr ∧
        (em_JetStream cfg = true → em_StoreDir cfg ≠ "" ∧ evt (SMkdirAll (em_StoreDir cfg)) None ∈ tr)
    | Some _ => r.2 = t ∧ down tr = started tr ∧ (length (started tr) ≤ 1)%nat
    end) ∧
  sat (r ← stopEmbedded t; stopEmbedded r) (λ tr r,
    r = mkEmbedding None (eb_url t) ∧
    tr = match eb_srv t with Some srv => [evt (SShutdown srv) tt; evt (SWaitForShutdown srv) tt] | None => [] end).
Proof.
  split.
  - unfold startEmbedded. destruct (em_JetStream cfg && str_empty (em_StoreDir cfg))%bool eqn:E1; [by cbn; auto|].
    destruct (em_JetStream cfg) eqn:Ej; cbn.
    + intros [e|]; cbn; [by auto|]. intros [srv|e]; cbn; [|by auto]. intros [] [|]; cbn; [|by intros [] []; auto].
      intros url. exists srv, url. go_bool. set_solver.
    + intros [srv|e]; cbn; [|by auto]. intros [] [|]; cbn; [|by intros [] []; auto].
      intros url. exists srv, url. set_solver.
  - unfold stopEmbedded. destruct (eb_srv t) as [srv|]; cbn; [by intros [] []|done].
Qed.
End Embedded.
