(* ===== verification/Options.v ===== *)
(** * Construction and production checks (src/tnats/tnats.go, auth.go,
      tnats_production.go)

    New with its options, as far as they decide how the transport connects, and
    ValidateProduction.  An option is a function on the transport under construction;
    the only one that looks outside is WithNKeySeed. *)

From S2P Require Import Prelude Effects Errors World Embedded.

Local Open Scope Z_scope.

(** Files and the caller's validator. *)
Inductive oreq :=
| ONkeyOptionFromSeed (seedFile : string)
| OStat (path : string)
| OReadFile (path : string)
| OValidator.

Section Options.
Context {EM : ErrorModel} {K : Kernel EM}.

Definition oresp (r : oreq) : Type :=
  match r with
  | ONkeyOptionFromSeed _ => option error
  | OStat _ => result error bool        (* IsDir() *)
  | OReadFile _ => result error string
  | OValidator => option error
  end.

(** A nats.Option, by the call that makes it; [NatsOther] is one of the caller's, and
    [NkeyFunc] the function of WithNKeySeedFunc. *)
Inductive natsOption :=
| NatsOther (id : nat)
| NatsName (name : string)
| NatsUserInfo (username password : string)
| NatsToken (token : string)
| NatsNkeySeed (seedFile : string)
| NkeyFunc (id : nat)
| NatsUserCredentials (credsFile : string)
| NatsRootCAs (file : string)
| NatsClientCert (cert key : string)
| NatsSecure.

#[global] Instance natsOption_eq_dec : EqDecision natsOption.
Proof. solve_decision. Defined.

Record ProductionSecurity := mkSecurity {
  ps_CredentialsFile : string; ps_RootCAFile : string; ps_ClientCertFile : string; ps_ClientKeyFile : string }.

(** The fields of a Transport that New and its options set.  [tc_idemStore]: the
    caller's store; None is the in-memory default. *)
Record transport := mkTransport {
  tc_url : string;
  tc_codec : codec;
  tc_idemStore : option nat;
  tc_options : list natsOption;
  tc_productionSecurity : option ProductionSecurity;
  tc_productionValidator : bool;
  tc_streamConfigModifier : option (StreamConfig → StreamConfig);
  tc_fetchBatchSize : Z;
  tc_fetchTimeout : Z;
  tc_embedded : option EmbeddedConfig;
  tc_initErr : option error
}.

Definition set_url (u : string) (t : transport) : transport :=
  let 'mkTransport _ c i o s v m b f e x := t in mkTransport u c i o s v m b f e x.
Definition set_codec (c : codec) (t : transport) : transport :=
  let 'mkTransport u _ i o s v m b f e x := t in mkTransport u c i o s v m b f e x.
Definition set_idemStore (i : nat) (t : transport) : transport :=
  let 'mkTransport u c _ o s v m b f e x := t in mkTransport u c (Some i) o s v m b f e x.
Definition append_options (l : list natsOption) (t : transport) : transport :=
  let 'mkTransport u c i o s v m b f e x := t in mkTransport u c i (o ++ l) s v m b f e x.
Definition set_security (s : ProductionSecurity) (t : transport) : transport :=
  let 'mkTransport u c i o _ v m b f e x := t in mkTransport u c i o (Some s) v m b f e x.
Definition set_validator (v : bool) (t : transport) : transport :=
  let 'mkTransport u c i o s _ m b f e x := t in mkTransport u c i o s v m b f e x.
Definition set_modifier (m : option (StreamConfig → StreamConfig)) (t : transport) : transport :=
  let 'mkTransport u c i o s v _ b f e x := t in mkTransport u c i o s v m b f e x.
Definition set_fetch (b f : Z) (t : transport) : transport :=
  let 'mkTransport u c i o s v m _ _ e x := t in mkTransport u c i o s v m b f e x.
Definition set_embedded (e : EmbeddedConfig) (t : transport) : transport :=
  let 'mkTransport u c i o s v m b f _ x := t in mkTransport u c i o s v m b f (Some e) x.
Definition set_initErr (x : error) (t : transport) : transport :=
  let 'mkTransport u c i o s v m b f e _ := t in mkTransport u c i o s v m b f e (Some x).

(** ** Options *)
Definition Option : Type := transport → prog oresp transport.

Definition pure_option (f : transport → transport) : Option := λ t, mret (f t).

(** A nil codec, store or validator is None. *)
Definition WithCodec (c : option codec) : Option :=
  pure_option (λ t, match c with Some c => set_codec c t | None => t end).
Definition WithIdempotencyStore (s : option nat) : Option :=
  pure_option (λ t, match s with Some s => set_idemStore s t | None => t end).
Definition WithNATSOptions (options : list natsOption) : Option := pure_option (append_options options).
Definition WithFetchBatch (batchSize timeout : Z) : Option :=
  pure_option (λ t,
    let b := if 0 <? batchSize then batchSize else tc_fetchBatchSize t in
    let f := if 0 <? timeout then timeout else tc_fetchTimeout t in
    set_fetch b f t).
Definition WithStreamConfigModifier (modifier : option (StreamConfig → StreamConfig)) : Option :=
  pure_option (set_modifier modifier).

Definition WithProductionSecurity (security : ProductionSecurity) : Option :=
  pure_option (λ t,
    let t := set_security security t in
    let t := if negb (str_empty (ps_RootCAFile security))
             then append_options [NatsRootCAs (ps_RootCAFile security)] t else t in
    let t := if (negb (str_empty (ps_ClientCertFile security)) && negb (str_empty (ps_ClientKeyFile security)))%bool
             then append_options [NatsClientCert (ps_ClientCertFile security) (ps_ClientKeyFile security)] t else t in
    let t := if negb (str_empty (ps_CredentialsFile security))
             then append_options [NatsUserCredentials (ps_CredentialsFile security)] t else t in
    append_options [NatsSecure] t).

Definition WithProductionValidation (validate : bool) : Option := pure_option (set_validator validate).
Definition WithEmbeddedServer (cfg : EmbeddedConfig) : Option := pure_option (set_embedded (applyDefaults cfg)).
Definition WithUserInfo (username password : string) : Option :=
  pure_option (append_options [NatsUserInfo username password]).
Definition WithToken (token : string) : Option := pure_option (append_options [NatsToken token]).
Definition WithNKeySeed (seedFile : string) : Option := λ t,
  err ← call (ONkeyOptionFromSeed seedFile);
  match err with
  | Some err => mret (set_initErr (fmt_Errorf_w ("tnats: invalid nkey seed file " +:+ strconv_Quote seedFile) err) t)
  | None => mret (append_options [NatsNkeySeed seedFile] t)
  end.
Definition WithNKeySeedFunc (seedFunc : nat) : Option := pure_option (append_options [NkeyFunc seedFunc]).
Definition WithJWT (credsFile : string) : Option := pure_option (append_options [NatsUserCredentials credsFile]).
Definition WithTLS (rootCA clientCert clientKey : string) : Option :=
  pure_option (λ t,
    let t := if negb (str_empty rootCA) then append_options [NatsRootCAs rootCA] t else t in
    let t := if (negb (str_empty clientCert) && negb (str_empty clientKey))%bool
             then append_options [NatsClientCert clientCert clientKey] t else t in
    append_options [NatsSecure] t).

(** One write of the builder per further URL. *)
Definition joinNATSURLs (urls : list string) : string :=
  match urls with
  | [] => ""
  | out :: rest => out +:+ foldl (λ b u, b +:+ ("," +:+ u)) "" rest
  end.
Definition WithURLs (primary : string) (extra : list string) : Option :=
  pure_option (set_url (joinNATSURLs (primary :: extra))).

Definition default_transport (rawURL : string) : transport :=
  mkTransport rawURL codec_Default None [] None false None 1 time_Second None None.

(** The loop over the options; a nil option is skipped. *)
Fixpoint apply_options (opts : list (option Option)) (t : transport) : prog oresp transport :=
  match opts with
  | [] => mret t
  | None :: rest => apply_options rest t
  | Some opt :: rest => t ← opt t; apply_options rest t
  end.

Definition New (rawURL : string) (opts : list (option Option)) : prog oresp transport :=
  apply_options opts (default_transport rawURL).

(** ** Production checks *)

(** x509.NewCertPool().AppendCertsFromPEM. *)
Context (AppendCertsFromPEM : string → bool).

Definition validateFile (label path : string) : prog oresp (option error) :=
  if str_empty path then mret (Some (errors_New ("NATS " +:+ label +:+ " path is required")))
  else
    info ← call (OStat path);
    match (info : result error bool) with
    | Err err => mret (Some (fmt_Errorf_w ("NATS " +:+ label +:+ " file") err))
    | Ok isDir =>
        if isDir then mret (Some (errors_New ("NATS " +:+ label +:+ " file " +:+ strconv_Quote path +:+ " is a directory")))
        else mret None
    end.

(** The checks in turn, up to the first that fails. *)
Definition and_then (p q : prog oresp (option error)) : prog oresp (option error) :=
  err ← p;
  match err with
  | Some err => mret (Some err)
  | None => q
  end.

Definition validateProductionFiles (sec : ProductionSecurity) : prog oresp (option error) :=
  and_then (validateFile "credentials" (ps_CredentialsFile sec))
    (and_then (validateFile "root CA" (ps_RootCAFile sec))
       (if (negb (str_empty (ps_ClientCertFile sec)) || negb (str_empty (ps_ClientKeyFile sec)))%bool
        then and_then (validateFile "client cert" (ps_ClientCertFile sec))
                      (and_then (validateFile "client key" (ps_ClientKeyFile sec)) (mret None))
        else mret None)).

Definition validateRootCA (path : string) : prog oresp (option error) :=
  rootPEM ← call (OReadFile path);
  match rootPEM with
  | Err err => mret (Some (fmt_Errorf_w "read NATS root CA file" err))
  | Ok rootPEM =>
      if negb (AppendCertsFromPEM rootPEM)
      then mret (Some (errors_New ("parse NATS root CA file " +:+ strconv_Quote path)))
      else mret None
  end.

Definition strings_HasPrefix (s p : string) : bool := String.prefix p s.

Definition ValidateProduction (t : transport) : prog oresp (option error) :=
  let u := tc_url t in
  if str_empty u then mret (Some (errors_New "NATS URL is required in production"))
  else if (negb (strings_HasPrefix u "tls://") && negb (strings_HasPrefix u "nats://"))%bool
  then mret (Some (errors_New "NATS URL must use nats:// or tls:// scheme"))
  else
    match tc_productionSecurity t with
    | None =>
        if negb (tc_productionValidator t)
        then mret (Some (errors_New ("NATS production security is required; configure "
               +:+ "tnats.WithProductionSecurity or tnats.WithProductionValidation")))
        else call OValidator
    | Some sec =>
        if str_empty (ps_CredentialsFile sec)
        then mret (Some (errors_New "NATS credentials file is required in production"))
        else if str_empty (ps_RootCAFile sec)
        then mret (Some (errors_New "NATS root CA file is required in production"))
        else
          and_then (validateProductionFiles sec)
            (and_then (validateRootCA (ps_RootCAFile sec))
               (if tc_productionValidator t then call OValidator else mret None))
    end.
End Options.
