(* ===== verification/FlowLibrary.v ===== *)
(** * The flow library (src/nexssflow/library.go)

    NewBundle, the modifiers that turn annotations into bindings, nats.listen, and the
    actions nats.publish, nats.request and nats.publish_durable. *)

From S2P Require Import Prelude Effects Errors Bindings Json World MemKV KVOps Objects IdemExec Streams Delivery.
From S2P Require Import Headers Publish Topic Micro GoText Flow Options.
From Stdlib Require Import Ascii.

Local Open Scope Z_scope.

Definition ID : string := "transportnats".

(** ** NewBundle *)
Section Bundle.
Context {EM : ErrorModel} {K : Kernel EM}.
Context (AppendCertsFromPEM : string → bool).

(** A compiler.Bundle: the transport its library and its shutdown share, and the
    configuration the library normalizes. *)
Record Bundle := mkBundle { bu_ID : string; bu_transport : transport; bu_cfg : Config }.

(** The options of NewBundle, for a normalized configuration. *)
Definition bundle_options (cfg : Config) : list Option :=
  [WithNATSOptions [NatsName (cfg_Name cfg)]] ++
  (if cfg_Production cfg then
     [WithProductionSecurity
        (mkSecurity (cfg_CredsFile cfg) (cfg_RootCAFile cfg) (cfg_ClientCertFile cfg) (cfg_ClientKeyFile cfg))]
   else
     (if negb (str_empty (cfg_CredsFile cfg)) then [WithJWT (cfg_CredsFile cfg)] else [])
     ++ (if negb (str_empty (cfg_Token cfg)) then [WithToken (cfg_Token cfg)] else [])
     ++ (if (negb (str_empty (cfg_RootCAFile cfg)) || negb (str_empty (cfg_ClientCertFile cfg)))%bool
         then [WithTLS (cfg_RootCAFile cfg) (cfg_ClientCertFile cfg) (cfg_ClientKeyFile cfg)] else [])).

Definition NewBundle (cfg : Config) : prog oresp (result error Bundle) :=
  let cfg := normalizeConfig cfg in
  if (negb (str_empty (cfg_CredsFile cfg)) && negb (str_empty (cfg_Token cfg)))%bool
  then mret (Err (errors_New "configure only one of creds_file or token"))
  else if xorb (str_empty (cfg_ClientCertFile cfg)) (str_empty (cfg_ClientKeyFile cfg))
  then mret (Err (errors_New "client_cert_file and client_key_file must be configured together"))
  else
    tr ← New (cfg_URL cfg) (map Some (bundle_options cfg));
    if cfg_Production cfg then
      err ← ValidateProduction AppendCertsFromPEM tr;
      match err with
      | Some err => mret (Err (fmt_Errorf_w "validate production NATS settings" err))
      | None => mret (Ok (mkBundle ID tr (normalizeConfig cfg)))
      end
    else mret (Ok (mkBundle ID tr (normalizeConfig cfg))).

(** The registered factory panics; [decoded] is the result of compiler.Decode. *)
Definition Bundle_factory (decoded : result error Config) : prog oresp (gores Bundle) :=
  match decoded with
  | Err _ => mret Panic
  | Ok cfg =>
      bundle ← NewBundle cfg;
      match bundle with
      | Err _ => mret Panic
      | Ok bundle => mret (Done bundle)
      end
  end.
End Bundle.

(** ** Modifiers *)

(** A binding of this package or of the transport. *)
Inductive FlowBinding := Native (b : Binding) | invalidBinding (reason : string).

Definition colon : ascii := ":"%char.

Definition nats_topic (raw : string) : FlowBinding :=
  let '(subject, queue, _) := strings_Cut "@"%char raw in
  Native (BTopic (Topic (strings_TrimSpace subject) [strings_TrimSpace queue])).

Definition requestModifier (subject : string) : FlowBinding :=
  Native (BRequest (Bindings.Request (strings_TrimSpace subject) [])).

Definition nats_durable (raw : string) : FlowBinding :=
  match strings_Split colon raw with
  | [stream; subject; durable; dlq] => Native (BDurable (DurableWork stream subject durable dlq))
  | _ => invalidBinding "@nats_durable expects stream:subject:durable:dlq"
  end.

Definition nats_consumer (raw : string) : FlowBinding :=
  match strings_Split colon raw with
  | [stream; subject; durable] => Native (BConsumer (Consumer stream subject durable))
  | _ => invalidBinding "@nats_consumer expects stream:subject:durable"
  end.

Definition nats_kv (raw : string) : FlowBinding :=
  let '(bucket, key, ok) := strings_Cut colon raw in
  if negb ok then invalidBinding "@nats_kv expects bucket:key (key may be empty to watch all keys)"
  else Native (BKV (KV (strings_TrimSpace bucket) (strings_TrimSpace key))).

Definition nats_object (raw : string) : FlowBinding :=
  let '(bucket, pattern, ok) := strings_Cut colon raw in
  if negb ok then invalidBinding "@nats_object expects bucket:pattern (pattern may be empty to watch all objects)"
  else Native (BObject (ObjectStore (strings_TrimSpace bucket) (strings_TrimSpace pattern))).

Definition nats_micro (raw : string) : FlowBinding :=
  match strings_Split colon raw with
  | [service; version; endpoint; subject] => Native (BService (Service service version endpoint subject))
  | _ => invalidBinding "@nats_micro expects service:version:endpoint:subject"
  end.

(** The table of Modifiers(). *)
Definition Modifiers : list (string * (string → FlowBinding)) :=
  [("nats_topic", nats_topic); ("nats_request", requestModifier); ("nats-rpc", requestModifier);
   ("nats_durable", nats_durable); ("nats_consumer", nats_consumer); ("nats_kv", nats_kv);
   ("nats_object", nats_object); ("nats_micro", nats_micro)].

(** ** nats.listen *)
Section Listen.
Context {EM : ErrorModel} {K : Kernel EM}.

(** An action: what Transport.Mount takes, with flow bindings and the name it describes. *)
Record FlowAction := mkFlowAction {
  fa_Executable : bool; fa_Describe : option Meta; fa_Name : option string; fa_Bindings : list FlowBinding }.

(** The bindings as the transport's type switches see them. *)
Definition to_binding (b : FlowBinding) : Binding :=
  match b with Native b => b | invalidBinding s => OtherBinding s end.
Definition to_action (a : FlowAction) : AnyAction :=
  mkAction (fa_Executable a) (fa_Describe a) (map to_binding (fa_Bindings a)).

(** contracts.ActionResolver: an action it finds is not nil; [rs_Actions]: the optional
    Actions() method, which may list nil. *)
Record resolver := mkResolver {
  rs_Action : string → option FlowAction; rs_Actions : option (list (option FlowAction)) }.

Definition is_native (f : Binding → bool) (b : FlowBinding) : bool :=
  match b with Native b => f b | invalidBinding _ => false end.

Definition natsBindingCheckers : list (FlowBinding → bool) :=
  [is_native (λ b, match b with BTopic _ => true | _ => false end);
   is_native (λ b, match b with BRequest _ => true | _ => false end);
   is_native (λ b, match b with BDurable _ => true | _ => false end);
   is_native (λ b, match b with BConsumer _ => true | _ => false end);
   is_native (λ b, match b with BKV _ => true | _ => false end);
   is_native (λ b, match b with BObject _ => true | _ => false end);
   is_native (λ b, match b with BService _ => true | _ => false end)].

Definition filterNATSBoundActions (actions : list (option FlowAction)) : list FlowAction :=
  omap (λ act,
    match act with
    | None => None
    | Some act => if existsb (λ b, existsb (λ f, f b) natsBindingCheckers) (fa_Bindings act) then Some act else None
    end) actions.

(** The endpoints of the input, when it is a map[string]any. *)
Definition endpoints_of_input (i : option (gmap string json)) : list string :=
  match i with
  | Some m =>
      match m !! "endpoints" with
      | Some (JArr eps) => omap (λ e, match e with JStr s => Some s | _ => None end) eps
      | _ => []
      end
  | None => []
  end.

Fixpoint resolve_all (r : resolver) (names : list string) : result error (list FlowAction) :=
  match names with
  | [] => Ok []
  | name :: rest =>
      match rs_Action r name with
      | None => Err (xerr_new KindNotFound ("nats.listen: endpoint not found: " +:+ name) None)
      | Some act =>
          match resolve_all r rest with
          | Ok acts => Ok (act :: acts)
          | Err err => Err err
          end
      end
  end.

(** The actions to mount. *)
Definition select_actions (r : resolver) (names : list string) : result error (list FlowAction) :=
  match names with
  | _ :: _ => resolve_all r names
  | [] =>
      match filterNATSBoundActions (default [] (rs_Actions r)) with
      | [] => Err (errors_New "nats.listen: no actions found")
      | acts => Ok acts
      end
  end.

(** The first invalid binding, with the name of its action. *)
Definition invalid_of (act : FlowAction) : option (string * string) :=
  head (omap (λ b, match b with invalidBinding bad => Some (default "" (fa_Name act), bad) | _ => None end)
             (fa_Bindings act)).

Definition first_invalid (acts : list FlowAction) : option (string * string) := head (omap invalid_of acts).

Inductive lreq :=
| LMount (acts : list FlowAction)   (* tr.Mount *)
| LStartDo                          (* go: done <- tr.Do(runCtx) *)
| LWaitReady                        (* tr.WaitReady(runCtx) *)
| LCancel                           (* cancel() *)
| LDone                             (* <-done *)
| LCtxErr                           (* ctx.Err() *)
| LSignalReady.                     (* contracts.SignalReady(ctx) *)

Definition lresp (r : lreq) : Type :=
  match r with
  | LMount _ | LStartDo | LCancel | LSignalReady => unit
  | LWaitReady | LDone | LCtxErr => option error
  end.

Definition is_canceled (err : option error) : bool :=
  match err with Some e => errors_Is e context_Canceled | None => false end.

(** From Mount to the end of the run; the deferred cancel comes last. *)
Definition listen_run (acts : list FlowAction) : prog lresp (option error) :=
  _ ← call (LMount acts);
  _ ← call LStartDo;
  waitErr ← call LWaitReady;
  r ← match (waitErr : option error) with
      | Some err =>
          _ ← call LCancel;
          doErr ← call LDone;
          ctxErr ← call LCtxErr;
          if is_canceled ctxErr then mret None
          else
            match (doErr : option error) with
            | Some doErr => mret (Some (xerr_new KindUnavailable "nats.listen: transport failed to start" (Some doErr)))
            | None => mret (Some (xerr_new KindUnavailable "nats.listen: timeout waiting for connection" (Some err)))
            end
      | None =>
          _ ← call LSignalReady;
          err ← call LDone;
          ctxErr ← call LCtxErr;
          if is_canceled ctxErr then mret None else mret err
      end;
  _ ← call LCancel;
  mret r.

Definition listenAction (resolver : option resolver) (i : option (gmap string json)) : prog lresp (option error) :=
  match resolver with
  | None => mret (Some (errors_New "nats.listen: action resolver is nil"))
  | Some r =>
      match select_actions r (endpoints_of_input i) with
      | Err err => mret (Some err)
      | Ok acts =>
          match first_invalid acts with
          | Some (name, bad) =>
              mret (Some (xerr_new KindBadRequest ("nats.listen: action " +:+ strconv_Quote name
                                                   +:+ " has invalid binding: " +:+ bad) None))
          | None => listen_run acts
          end
      end
  end.
End Listen.

(** ** Publishing *)
Section Publishing.
Context {EM : ErrorModel} {K : Kernel EM} {HO : HeaderOps} {PE : PublicErrors}.
Context (c : codec) (modifier : option (StreamConfig → StreamConfig)) (cfg : Config).

Record PublishReq := mkPublishReq { pr_Subject : string; pr_Payload : value }.
Record RequestReq := mkRequestReq { rr_Subject : string; rr_Payload : value }.
Record PublishDurableReq := mkPublishDurableReq {
  pd_Stream : string; pd_Subject : string; pd_Durable : string; pd_DeadLetterSubject : string; pd_Payload : value }.

(** The maps that the two publishing actions return. *)
Record PublishResponse := mkPublishResp { ps_status : string; ps_subject : string; ps_stream : option string }.

Definition publishAction (ctx : context) (vals : xctx) (rq : PublishReq) : prog resp (result error PublishResponse) :=
  if str_empty (pr_Subject rq) then mret (Err (bad_request "nats.publish: subject is required"))
  else
    err ← Publish c (callCtx cfg ctx) vals (pr_Subject rq) (pr_Payload rq);
    match err with
    | Some err => mret (Err err)
    | None => mret (Ok (mkPublishResp "published" (pr_Subject rq) None))
    end.

(** [unmarshal]: the codec's, into an any. *)
Definition requestAction (unmarshal : string → option error) (ctx : context) (vals : xctx) (rq : RequestReq)
    : prog resp (result error (option string)) :=
  if str_empty (rr_Subject rq) then mret (Err (bad_request "nats.request: subject is required"))
  else Request c (callCtx cfg ctx) vals (rr_Subject rq) (rr_Payload rq) (Some unmarshal).

Definition publishDurableAction (ctx : context) (vals : xctx) (rq : PublishDurableReq) (verified : gset string)
    : prog resp (result error PublishResponse * gset string) :=
  if (str_empty (pd_Stream rq) || str_empty (pd_Subject rq) || str_empty (pd_Durable rq)
      || str_empty (pd_DeadLetterSubject rq))%bool
  then mret (Err (bad_request "nats.publish_durable: stream, subject, durable, and dlq are required"), verified)
  else
    let binding := DurableWork (pd_Stream rq) (pd_Subject rq) (pd_Durable rq) (pd_DeadLetterSubject rq) in
    r ← PublishDurable modifier c (callCtx cfg ctx) vals binding (pd_Payload rq) verified;
    match r.1 with
    | Some err => mret (Err err, r.2)
    | None => mret (Ok (mkPublishResp "durable" (pd_Subject rq) (Some (pd_Stream rq))), r.2)
    end.
End Publishing.
