(* ===== verification/FlowLibraryProofs.v ===== *)
(** * The flow library: theorems (src/nexssflow/library.go, src/tnats/tnats_production.go) *)

From S2P Require Import Prelude Effects Errors Bindings Json World MemKV KVOps Objects IdemExec Streams Delivery.
From S2P Require Import Headers Publish Topic Micro GoText Flow Options FlowLibrary.
From Stdlib Require Import Ascii.

Local Open Scope Z_scope.

(** ** Production checks *)
Section Production.
Context {EM : ErrorModel} {K : Kernel EM}.
Context (P : string → bool).

(** The paths found to be files, and the root certificates read, in a run. *)
Definition file_of (e : event oresp) : option string :=
  match ev_req e as r return oresp r → option string with
  | OStat path => λ x, match x with Ok false => Some path | _ => None end
  | _ => λ _, None
  end (ev_resp e).
Definition pem_of (e : event oresp) : option (string * string) :=
  match ev_req e as r return oresp r → option (string * string) with
  | OReadFile path => λ x, match x with Ok pem => Some (path, pem) | Err _ => None end
  | _ => λ _, None
  end (ev_resp e).
Definition accepted (e : event oresp) : bool :=
  match ev_req e as r return oresp r → bool with
  | OValidator => λ x, match x with None => true | Some _ => false end
  | _ => λ _, false
  end (ev_resp e).

Definition files (tr : list (event oresp)) : list string := omap file_of tr.
Definition pems (tr : list (event oresp)) : list (string * string) := omap pem_of tr.

(** What the checks found, in order; none of the paths is empty. *)
Definition found (fs : list string) (ps : list (string * string)) (v : bool) (tr : list (event oresp)) : Prop :=
  files tr = fs ∧ pems tr = ps ∧ existsb accepted tr = v ∧ Forall (λ p, p ≠ "") fs.

Lemma found_app f1 f2 p1 p2 v1 v2 t1 t2 :
  found f1 p1 v1 t1 → found f2 p2 v2 t2 → found (f1 ++ f2) (p1 ++ p2) (v1 || v2) (t1 ++ t2).
Proof.
  intros (F1 & P1 & V1 & N1) (F2 & P2 & V2 & N2). unfold found, files, pems in *.
  rewrite !omap_app, existsb_app, F1, F2, P1, P2, V1, V2, Forall_app. done.
Qed.

(** A check that passes only after finding this. *)
Definition checks (p : prog oresp (option error)) fs ps v : Prop := sat p (λ tr r, r = None → found fs ps v tr).

Lemma checks_nil : checks (mret None) [] [] false.
Proof. intros _. by repeat constructor. Qed.

Lemma checks_then p q f1 f2 p1 p2 v1 v2 :
  checks p f1 p1 v1 → checks q f2 p2 v2 → checks (and_then p q) (f1 ++ f2) (p1 ++ p2) (v1 || v2).
Proof.
  intros Hp Hq. unfold checks, and_then. apply sat_bind. eapply sat_mono; [|exact Hp]. cbn beta.
  intros t1 [e|] H1; [done|]. eapply sat_mono; [|exact Hq]. cbn beta. intros t2 r H2 Hr. by apply found_app; auto.
Qed.

Lemma validateFile_checks label path : checks (validateFile label path) [path] [] false.
Proof.
  unfold checks, validateFile. destruct (str_empty path) eqn:E; [done|]. go_bool.
  intros [[|]|e]; cbn; try done. intros _. split; [done|]. by repeat constructor.
Qed.

(** The files a production configuration names. *)
Definition production_files (sec : ProductionSecurity) : list string :=
  [ps_CredentialsFile sec; ps_RootCAFile sec] ++
  (if (negb (str_empty (ps_ClientCertFile sec)) || negb (str_empty (ps_ClientKeyFile sec)))%bool
   then [ps_ClientCertFile sec; ps_ClientKeyFile sec] else []).

Lemma validateProductionFiles_checks sec :
  checks (validateProductionFiles sec) (production_files sec) [] false.
Proof.
  unfold validateProductionFiles, production_files.
  apply (checks_then _ _ [_] (_ :: _) [] [] false false); [apply validateFile_checks|].
  apply (checks_then _ _ [_] _ [] [] false false); [apply validateFile_checks|].
  destruct (_ || _)%bool; [|apply checks_nil].
  apply (checks_then _ _ [_] [_] [] [] false false); [apply validateFile_checks|].
  apply (checks_then _ _ [_] [] [] [] false false); [apply validateFile_checks|apply checks_nil].
Qed.

Lemma validateRootCA_checks path :
  sat (validateRootCA P path) (λ tr r, r = None → ∃ pem, P pem = true ∧ found [] [(path, pem)] false tr).
Proof.
  unfold validateRootCA. intros [pem|e]; [|done]. cbn. destruct (P pem) eqn:E; cbn; [|done].
  intros _. exists pem. split; [done|]. by repeat constructor.
Qed.

(** A URL that names a NATS server. *)
Definition nats_url (u : string) : Prop :=
  u ≠ "" ∧ (strings_HasPrefix u "tls://" = true ∨ strings_HasPrefix u "nats://" = true).

(** What an accepted transport has been checked for. *)
Definition validated (t : transport) (tr : list (event oresp)) : Prop :=
  nats_url (tc_url t) ∧
  match tc_productionSecurity t with
  | None => tc_productionValidator t = true ∧ existsb accepted tr = true
  | Some sec =>
      (∃ pem, P pem = true ∧ found (production_files sec) [(ps_RootCAFile sec, pem)] (tc_productionValidator t) tr)
  end.

Lemma ValidateProduction_sat t : sat (ValidateProduction P t) (λ tr r, r = None → validated t tr).
Proof.
  unfold ValidateProduction, validated. cbv zeta. destruct (str_empty (tc_url t)) eqn:E1; [done|].
  destruct (_ && _)%bool eqn:E2; [done|].
  assert (U : nats_url (tc_url t)).
  { go_bool. split; [done|]. destruct (strings_HasPrefix (tc_url t) "tls://"), (strings_HasPrefix (tc_url t) "nats://");
      naive_solver. }
  destruct (tc_productionSecurity t) as [sec|].
  - destruct (str_empty (ps_CredentialsFile sec)); [done|]. destruct (str_empty (ps_RootCAFile sec)); [done|].
    unfold and_then at 1. apply sat_bind. eapply sat_mono; [|apply validateProductionFiles_checks]. cbn beta.
    intros t1 [e|] H1; [done|]. specialize (H1 eq_refl).
    unfold and_then. apply sat_bind. eapply sat_mono; [|apply validateRootCA_checks]. cbn beta.
    intros t2 [e|] H2; [done|]. destruct (H2 eq_refl) as (pem & Hp & H2').
    assert (V : checks (if tc_productionValidator t then call OValidator else mret None) [] [] (tc_productionValidator t)).
    { unfold checks. destruct (tc_productionValidator t); [|by apply checks_nil].
      intros [e|]; [done|]. intros _. by repeat constructor. }
    eapply sat_mono; [|exact V]. cbn beta. intros t3 r H3 ->. split; [done|]. exists pem. split; [done|].
    pose proof (found_app _ _ _ _ _ _ _ _ H1 (found_app _ _ _ _ _ _ _ _ H2' (H3 eq_refl))) as H.
    rewrite !app_nil_r in H. exact H.
  - destruct (tc_productionValidator t); cbn [negb]; [|done]. intros [e|]; [done|]. by intros _.
Qed.
End Production.

(** ** NewBundle *)
Section Bundles.
Context {EM : ErrorModel} {K : Kernel EM}.
Context (P : string → bool).

Definition when {A} (b : bool) (l : list A) : list A := if b then l else [].
Definition given (s : string) : bool := negb (str_empty s).

(** The client options of a bundle. *)
Definition bundle_client_options (cfg : Config) : list natsOption :=
  [NatsName (cfg_Name cfg)] ++
  (if cfg_Production cfg then
     when (given (cfg_RootCAFile cfg)) [NatsRootCAs (cfg_RootCAFile cfg)]
     ++ when (given (cfg_ClientCertFile cfg) && given (cfg_ClientKeyFile cfg))
          [NatsClientCert (cfg_ClientCertFile cfg) (cfg_ClientKeyFile cfg)]
     ++ when (given (cfg_CredsFile cfg)) [NatsUserCredentials (cfg_CredsFile cfg)]
     ++ [NatsSecure]
   else
     when (given (cfg_CredsFile cfg)) [NatsUserCredentials (cfg_CredsFile cfg)]
     ++ when (given (cfg_Token cfg)) [NatsToken (cfg_Token cfg)]
     ++ when (given (cfg_RootCAFile cfg) || given (cfg_ClientCertFile cfg))
          (when (given (cfg_RootCAFile cfg)) [NatsRootCAs (cfg_RootCAFile cfg)]
           ++ when (given (cfg_ClientCertFile cfg) && given (cfg_ClientKeyFile cfg))
                [NatsClientCert (cfg_ClientCertFile cfg) (cfg_ClientKeyFile cfg)]
           ++ [NatsSecure])).

Definition bundle_security (cfg : Config) : option ProductionSecurity :=
  if cfg_Production cfg
  then Some (mkSecurity (cfg_CredsFile cfg) (cfg_RootCAFile cfg) (cfg_ClientCertFile cfg) (cfg_ClientKeyFile cfg))
  else None.

Lemma New_bundle cfg :
  ∃ t, New (cfg_URL cfg) (map Some (bundle_options cfg)) = mret t ∧ tc_url t = cfg_URL cfg ∧
    tc_options t = bundle_client_options cfg ∧ tc_productionSecurity t = bundle_security cfg ∧
    tc_productionValidator t = false.
Proof.
  unfold bundle_options, bundle_client_options, bundle_security, New, WithProductionSecurity, WithJWT, WithToken, WithTLS, when, given.
  destruct (cfg_Production cfg), (str_empty (cfg_CredsFile cfg)) eqn:E1, (str_empty (cfg_Token cfg)) eqn:E2,
    (str_empty (cfg_RootCAFile cfg)) eqn:E3, (str_empty (cfg_ClientCertFile cfg)) eqn:E4,
    (str_empty (cfg_ClientKeyFile cfg)) eqn:E5; cbn;
    rewrite ?E1, ?E2, ?E3, ?E4, ?E5; eexists; (split; [reflexivity|]); by repeat split.
Qed.

Lemma normalizeConfig_idem cfg : normalizeConfig (normalizeConfig cfg) = normalizeConfig cfg.
Proof.
  destruct cfg as [u n t c k r cc ck p]. unfold normalizeConfig. cbn [cfg_URL cfg_Name cfg_Timeout cfg_CredsFile
    cfg_Token cfg_RootCAFile cfg_ClientCertFile cfg_ClientKeyFile cfg_Production].
  destruct (str_empty u) eqn:E1, (str_empty n) eqn:E2, (t <=? 0) eqn:E3; rewrite ?E1, ?E2, ?E3; reflexivity.
Qed.

Lemma normalizeConfig_timeout cfg : 0 < cfg_Timeout (normalizeConfig cfg).
Proof. cbn. destruct (_ <=? 0) eqn:E; go_bool; [done|lia]. Qed.

Lemma given_true s : given s = true ↔ s ≠ "".
Proof. unfold given. rewrite negb_true_iff. apply str_empty_false. Qed.
Lemma given_false s : given s = false ↔ s = "".
Proof. unfold given. rewrite negb_false_iff. apply str_empty_true. Qed.

Lemma elem_when {A} (x : A) b l : x ∈ when b l ↔ b = true ∧ x ∈ l.
Proof. unfold when. destruct b; [naive_solver|]. rewrite elem_of_nil. naive_solver. Qed.

Lemma bundle_client_options_spec cfg (opts := bundle_client_options cfg) :
  (cfg_CredsFile cfg = "" ∨ cfg_Token cfg = "") → given (cfg_ClientCertFile cfg) = given (cfg_ClientKeyFile cfg) →
  (cfg_Production cfg = true → cfg_CredsFile cfg ≠ "") →
  (∀ n, NatsName n ∈ opts ↔ n = cfg_Name cfg) ∧
  (NatsSecure ∈ opts ↔ cfg_Production cfg = true ∨ cfg_RootCAFile cfg ≠ "" ∨ cfg_ClientCertFile cfg ≠ "") ∧
  (∀ f, NatsUserCredentials f ∈ opts ↔ f = cfg_CredsFile cfg ∧ f ≠ "") ∧
  (∀ s, NatsToken s ∈ opts ↔ s = cfg_Token cfg ∧ s ≠ "") ∧
  (∀ f, NatsRootCAs f ∈ opts ↔ f = cfg_RootCAFile cfg ∧ f ≠ "") ∧
  (∀ c k, NatsClientCert c k ∈ opts ↔ c = cfg_ClientCertFile cfg ∧ k = cfg_ClientKeyFile cfg ∧ c ≠ "").
Proof.
  subst opts. unfold bundle_client_options. intros H1 H2 H3.
  assert (H2' : cfg_ClientCertFile cfg ≠ "" → cfg_ClientKeyFile cfg ≠ "") by (rewrite <- !given_true; by rewrite H2).
  clear H2. destruct (cfg_Production cfg) eqn:E0.
  all: repeat split; intros;
    repeat first [rewrite elem_of_app in *|rewrite elem_when in *|rewrite elem_of_cons in *|rewrite elem_of_nil in *
      |rewrite andb_true_iff in *|rewrite orb_true_iff in *|rewrite given_true in *]; destr_all; simplify_eq; try tauto.
Qed.

(** The configuration with its defaults: the local server, a client name, five seconds. *)
Definition completed (cfg : Config) : Config := {|
  cfg_URL := if decide (cfg_URL cfg = "") then "nats://127.0.0.1:4222" else cfg_URL cfg;
  cfg_Name := if decide (cfg_Name cfg = "") then "nflow-client" else cfg_Name cfg;
  cfg_Timeout := if decide (cfg_Timeout cfg ≤ 0) then 5000000000 else cfg_Timeout cfg;
  cfg_CredsFile := cfg_CredsFile cfg;
  cfg_Token := cfg_Token cfg;
  cfg_RootCAFile := cfg_RootCAFile cfg;
  cfg_ClientCertFile := cfg_ClientCertFile cfg;
  cfg_ClientKeyFile := cfg_ClientKeyFile cfg;
  cfg_Production := cfg_Production cfg |}.

Lemma normalize_completed cfg : normalizeConfig cfg = completed cfg.
Proof.
  unfold normalizeConfig, completed. f_equal.
  - destruct (str_empty _) eqn:E, (decide _); go_bool; done.
  - destruct (str_empty _) eqn:E, (decide _); go_bool; done.
  - destruct (_ <=? 0) eqn:E, (decide _); go_bool; try done; lia.
Qed.

(** C31: A bundle connects exactly as its configuration says (to the URL and under the name
    given, nats://127.0.0.1:4222 and nflow-client by default), or is not built: it is never
    built from credentials together with a token, or from a client certificate
    without its key; its client options hold the credentials, the token, the root CA and
    the client certificate that were given and no others; TLS is required as soon as a
    root CA, a client certificate or production mode asks for it, and only then; and in
    production mode it is built only after every file it names was found and the root
    CA's certificates were parsed, with a nats:// or tls:// URL. *)
Theorem NewBundle_secure cfg :
  sat (NewBundle P cfg) (λ tr r,
    match r with
    | Err _ => (given (cfg_CredsFile cfg) && given (cfg_Token cfg) = true)%bool ∨
        given (cfg_ClientCertFile cfg) ≠ given (cfg_ClientKeyFile cfg) ∨ cfg_Production cfg = true
    | Ok b =>
        let t := bu_transport b in let opts := tc_options t in
        bu_cfg b = completed cfg ∧ 0 < cfg_Timeout (bu_cfg b) ∧ tc_url t = cfg_URL (completed cfg) ∧
        (∀ n, NatsName n ∈ opts ↔ n = cfg_Name (completed cfg)) ∧
        (cfg_CredsFile cfg = "" ∨ cfg_Token cfg = "") ∧ (cfg_ClientCertFile cfg = "" ↔ cfg_ClientKeyFile cfg = "") ∧
        (NatsSecure ∈ opts ↔ cfg_Production cfg = true ∨ cfg_RootCAFile cfg ≠ "" ∨ cfg_ClientCertFile cfg ≠ "") ∧
        (∀ f, NatsUserCredentials f ∈ opts ↔ f = cfg_CredsFile cfg ∧ f ≠ "") ∧
        (∀ s, NatsToken s ∈ opts ↔ s = cfg_Token cfg ∧ s ≠ "") ∧
        (∀ f, NatsRootCAs f ∈ opts ↔ f = cfg_RootCAFile cfg ∧ f ≠ "") ∧
        (∀ c k, NatsClientCert c k ∈ opts ↔ c = cfg_ClientCertFile cfg ∧ k = cfg_ClientKeyFile cfg ∧ c ≠ "") ∧
        (cfg_Production cfg = true → nats_url (tc_url t) ∧
           ∃ sec pem, tc_productionSecurity t = Some sec ∧ P pem = true ∧
             found (cfg_CredsFile cfg :: cfg_RootCAFile cfg ::
                    when (given (cfg_ClientCertFile cfg)) [cfg_ClientCertFile cfg; cfg_ClientKeyFile cfg])
                   [(cfg_RootCAFile cfg, pem)] false tr)
    end).
Proof.
  unfold NewBundle. rewrite <- normalize_completed. cbv zeta. set (c := normalizeConfig cfg).
  change (cfg_CredsFile cfg) with (cfg_CredsFile c). change (cfg_Token cfg) with (cfg_Token c).
  change (cfg_RootCAFile cfg) with (cfg_RootCAFile c). change (cfg_ClientCertFile cfg) with (cfg_ClientCertFile c).
  change (cfg_ClientKeyFile cfg) with (cfg_ClientKeyFile c). change (cfg_Production cfg) with (cfg_Production c).
  change (negb (str_empty (cfg_CredsFile c))) with (given (cfg_CredsFile c)).
  change (negb (str_empty (cfg_Token c))) with (given (cfg_Token c)).
  destruct (given (cfg_CredsFile c) && given (cfg_Token c))%bool eqn:E1; [by left|].
  destruct (xorb _ _) eqn:E2.
  { right; left. unfold given. by destruct (str_empty _), (str_empty _). }
  assert (H2 : given (cfg_ClientCertFile c) = given (cfg_ClientKeyFile c)).
  { unfold given. by destruct (str_empty _), (str_empty _). }
  assert (H1 : cfg_CredsFile c = "" ∨ cfg_Token c = "").
  { rewrite andb_false_iff, !given_false in E1. done. }
  assert (H2' : cfg_ClientCertFile c = "" ↔ cfg_ClientKeyFile c = "") by (rewrite <- !given_false; by rewrite H2).
  pose proof (bundle_client_options_spec c H1 H2) as Ho.
  destruct (New_bundle c) as (t & -> & Eu & Eo & Es & Ev).
  change (mret t ≫= ?f) with (f t). cbn beta.
  assert (N : normalizeConfig c = c) by apply normalizeConfig_idem. rewrite N.
  pose proof (normalizeConfig_timeout cfg : 0 < cfg_Timeout c) as Ht.
  unfold bundle_security in Es. destruct (cfg_Production c) eqn:Ep.
  - apply sat_bind. eapply sat_mono; [|apply ValidateProduction_sat]. cbn beta.
    intros tr [e|] Hv; cbn [sat]; [by right; right|]. cbn. rewrite app_nil_r.
    destruct (Hv eq_refl) as [Hu Hs]. rewrite Es in Hs. destruct Hs as (pem & Hp & Hf).
    unfold production_files in Hf. cbn [ps_CredentialsFile ps_RootCAFile ps_ClientCertFile ps_ClientKeyFile] in Hf.
    assert (Hc : cfg_CredsFile c ≠ "").
    { destruct Hf as (_ & _ & _ & HF). by apply Forall_cons in HF as [? _]. }
    rewrite Eo, Eu. rewrite Eu in Hu. destruct (Ho (λ _, Hc)) as (O0 & O1 & O2 & O3 & O4 & O5).
    do 11 (split; [done|]). intros _. split; [done|]. eexists _, pem. split; [exact Es|]. split; [done|].
    rewrite Ev in Hf. unfold when. fold (given (cfg_ClientCertFile c)) (given (cfg_ClientKeyFile c)) in Hf.
    rewrite <- H2, orb_diag in Hf. exact Hf.
  - cbn. rewrite Eo, Eu. destruct (Ho ltac:(done)) as (O0 & O1 & O2 & O3 & O4 & O5). by do 11 (split; [done|]).
Qed.
End Bundles.

(** ** Modifiers *)
Section ModifierTheorems.

Definition plain_field (s : string) : Prop := contains colon s = false.

Lemma split_fields parts : parts ≠ [] → Forall plain_field parts → strings_Split colon (strings_Join colon parts) = parts.
Proof. apply split_join. Qed.

(** An annotation parsed into a binding was the binding's fields, joined. *)
Lemma unsplit raw parts : strings_Split colon raw = parts → raw = strings_Join colon parts ∧ Forall plain_field parts.
Proof. intros <-. split; [by destruct (join_split colon raw) as [-> _]|apply split_pieces]. Qed.

(** The bindings that annotations stand for, with the defaults of the transport. *)
Definition durable_of (stream subject durable dlq : string) : Binding :=
  BDurable {| d_Stream := stream; d_Subject := subject; d_Durable := durable; d_DeadLetterSubject := dlq;
    d_MaxDeliver := 5; d_AckWait := 30000000000; d_RetryDelay := 1000000000; d_MaxAckPending := 64 |}.
Definition consumer_of (stream subject durable : string) : Binding :=
  BConsumer {| c_Stream := stream; c_Subject := subject; c_FilterSubjects := []; c_Durable := durable;
    c_DeliverPolicy := DeliverAll; c_OptStartSeq := 0; c_OptStartTime := time_zero; c_AckPolicy := AckExplicit;
    c_ReplayPolicy := ReplayInstant; c_MaxDeliver := 5; c_AckWait := 30000000000; c_MaxAckPending := 256;
    c_BackOff := []; c_RateLimitBits := 0; c_HeadersOnly := false; c_DeadLetterSubject := "" |}.
Definition micro_of (service version endpoint subject : string) : Binding :=
  BService {| s_Service := service; s_Version := version; s_Description := "Nexss action " +:+ endpoint;
    s_Endpoint := endpoint; s_Subject := subject; s_QueueGroup := ""; s_Timeout := 0; s_Metadata := ∅ |}.
Definition kv_of (bucket key : string) : Binding := BKV {| kv_Bucket := bucket; kv_Key := key |}.
Definition object_of (bucket pattern : string) : Binding :=
  BObject {| o_Bucket := bucket; o_Pattern := pattern; o_IncludeData := false; o_MaxBytes := 8388608 |}.

(** C32: Annotations and bindings correspond: the fields of a durable, consumer or micro
    binding, none with a colon, written one after the other with colons, parse to exactly
    that binding with the transport's defaults, and whatever parses to a binding was written like that - so an
    annotation with a missing or a surplus field is never mistaken for another; of a
    key-value or object annotation the first colon separates the bucket from the rest,
    which may contain colons and may be empty; and every binding that a modifier makes is
    one the transport handles. *)
Theorem modifiers_roundtrip :
  (∀ a b c d x, Forall plain_field [a; b; c; d] →
     nats_durable (strings_Join colon [a; b; c; d]) = Native (durable_of a b c d) ∧
     nats_micro (strings_Join colon [a; b; c; d]) = Native (micro_of a b c d) ∧
     nats_consumer (strings_Join colon [a; b; c]) = Native (consumer_of a b c) ∧
     nats_kv (a +:+ String colon x) = Native (kv_of (strings_TrimSpace a) (strings_TrimSpace x)) ∧
     nats_object (a +:+ String colon x) = Native (object_of (strings_TrimSpace a) (strings_TrimSpace x))) ∧
  (∀ raw y, nats_durable raw = Native y → ∃ a b c d,
     raw = strings_Join colon [a; b; c; d] ∧ Forall plain_field [a; b; c; d] ∧ y = durable_of a b c d) ∧
  (∀ raw y, nats_micro raw = Native y → ∃ a b c d,
     raw = strings_Join colon [a; b; c; d] ∧ Forall plain_field [a; b; c; d] ∧ y = micro_of a b c d) ∧
  (∀ raw y, nats_consumer raw = Native y → ∃ a b c,
     raw = strings_Join colon [a; b; c] ∧ Forall plain_field [a; b; c] ∧ y = consumer_of a b c) ∧
  (∀ raw, contains colon raw = false → ∃ e e', nats_kv raw = invalidBinding e ∧ nats_object raw = invalidBinding e') ∧
  (∀ name f raw y, (name, f) ∈ Modifiers → f raw = Native y → CanHandle y = true).
Proof.
  split; [|split; [|split; [|split; [|split]]]].
  - intros a b c d x H. assert (H3 : Forall plain_field [a; b; c]) by (by apply (Forall_app _ [a; b; c] [d]) in H as [? _]).
    unfold nats_durable, nats_micro, nats_consumer, nats_kv, nats_object.
    rewrite !split_fields by done. rewrite cut_found by (by apply Forall_cons in H as [? _]). done.
  - intros raw y. unfold nats_durable.
    destruct (strings_Split colon raw) as [|a [|b [|c [|d [|? ?]]]]] eqn:E; try done. intros [= <-].
    apply unsplit in E as [E F]. by exists a, b, c, d.
  - intros raw y. unfold nats_micro.
    destruct (strings_Split colon raw) as [|a [|b [|c [|d [|? ?]]]]] eqn:E; try done. intros [= <-].
    apply unsplit in E as [E F]. by exists a, b, c, d.
  - intros raw y. unfold nats_consumer.
    destruct (strings_Split colon raw) as [|a [|b [|c [|? ?]]]] eqn:E; try done. intros [= <-].
    apply unsplit in E as [E F]. by exists a, b, c.
  - intros raw H. unfold nats_kv, nats_object. rewrite !cut_missing by done. by eexists _, _.
  - intros name f raw y Hin. unfold Modifiers in Hin.
    repeat (apply elem_of_cons in Hin as [[= -> ->]|Hin]); [..|by apply elem_of_nil in Hin];
      unfold nats_topic, requestModifier, nats_durable, nats_consumer, nats_kv, nats_object, nats_micro;
      repeat case_match; by intros [= <-].
Qed.
End ModifierTheorems.

(** ** nats.listen *)
Section ListenTheorems.
Context {EM : ErrorModel} {K : Kernel EM}.

Abbreviation levt := (@Ev lreq lresp).

(** Actions the transport can bind. *)
Definition nats_bound (act : FlowAction) : bool := existsb CanHandle (map to_binding (fa_Bindings act)).

Lemma checkers_CanHandle b : existsb (λ f, f b) natsBindingCheckers = CanHandle (to_binding b).
Proof. by destruct b as [[]|]. Qed.

Lemma bound_checkers act :
  existsb (λ b, existsb (λ f, f b) natsBindingCheckers) (fa_Bindings act) = nats_bound act.
Proof.
  unfold nats_bound. induction (fa_Bindings act) as [|b bs IH]; [done|]. cbn [existsb map].
  by rewrite checkers_CanHandle, IH.
Qed.

Lemma filter_bound l : filterNATSBoundActions l = filter (λ act, nats_bound act = true) (omap id l).
Proof.
  unfold filterNATSBoundActions. induction l as [|[act|] l IH]; [done| |exact IH].
  cbn [omap list_omap id]. rewrite bound_checkers, filter_cons.
  destruct (nats_bound act) eqn:E; [rewrite decide_True by done|rewrite decide_False by done]; cbn; by rewrite <- IH.
Qed.

(** Listening to everything is listening to what the transport handles: without a
    list of endpoints, nats.listen selects, in order, exactly the actions with a binding
    that Transport.CanHandle accepts - the checkers of the flow library and the type
    switch of the transport agree on every binding - and it fails when there is none. *)
Theorem listen_all_selects r :
  select_actions r [] =
    match filter (λ act, nats_bound act = true) (omap id (default [] (rs_Actions r))) with
    | [] => Err (errors_New "nats.listen: no actions found")
    | acts => Ok acts
    end.
Proof. unfold select_actions. by rewrite filter_bound. Qed.

Lemma first_invalid_none acts :
  first_invalid acts = None ↔ ∀ act bad, act ∈ acts → invalidBinding bad ∉ fa_Bindings act.
Proof.
  assert (I : ∀ act, invalid_of act = None ↔ ∀ bad, invalidBinding bad ∉ fa_Bindings act).
  { intros act. unfold invalid_of. induction (fa_Bindings act) as [|[b|bad] l IH]; cbn; [set_solver|set_solver|].
    split; [done|]. intros H. destruct (H bad). by left. }
  unfold first_invalid. induction acts as [|act acts IH]; [cbn; set_solver|]. cbn [omap list_omap].
  destruct (invalid_of act) as [p|] eqn:E.
  - split; [done|]. intros H. assert (invalid_of act = None) by (apply I; intros bad; apply H; by left). congruence.
  - rewrite IH. pose proof (proj1 (I act) E). set_solver.
Qed.

Lemma first_invalid_some acts p :
  first_invalid acts = Some p → ∃ act bad, act ∈ acts ∧ invalidBinding bad ∈ fa_Bindings act.
Proof.
  unfold first_invalid. intros H. apply head_Some_elem_of, list_elem_of_omap in H as (act & Ha & H).
  unfold invalid_of in H. apply head_Some_elem_of, list_elem_of_omap in H as ([b|bad] & Hb & H); [done|]. by exists act, bad.
Qed.

(** The endpoints named in the input, and the actions they select: those, in order; or, when
    none is named, all those with a binding of the transport, and there must be one. *)
Definition named (i : option (gmap string json)) : list string :=
  match i ≫= (λ m, m !! "endpoints") with
  | Some (JArr eps) => omap (λ e, match e with JStr s => Some s | _ => None end) eps
  | _ => []
  end.

Definition of_transport (act : FlowAction) : bool :=
  existsb (λ b, match b with Native (OtherBinding _) | invalidBinding _ => false | Native _ => true end) (fa_Bindings act).

Definition selected (rs : resolver) (names : list string) (acts : list FlowAction) : Prop :=
  match names with
  | [] => acts ≠ [] ∧ acts = filter (λ act, of_transport act = true) (omap id (default [] (rs_Actions rs)))
  | _ => Forall2 (λ name act, rs_Action rs name = Some act) names acts
  end.

Lemma named_endpoints i : endpoints_of_input i = named i.
Proof. by destruct i. Qed.

Lemma of_transport_bound act : nats_bound act = of_transport act.
Proof.
  unfold nats_bound, of_transport. induction (fa_Bindings act) as [|b bs IH]; [done|]. cbn [existsb map].
  rewrite IH. by destruct b as [[]|].
Qed.

Lemma resolve_all_selected rs names acts :
  resolve_all rs names = Ok acts ↔ Forall2 (λ name act, rs_Action rs name = Some act) names acts.
Proof.
  revert acts. induction names as [|n names IH]; intros acts; cbn [resolve_all].
  - split; [intros [= <-]; constructor|]. by intros ->%Forall2_nil_inv_l.
  - destruct (rs_Action rs n) as [act|] eqn:En.
    2:{ split; [done|]. intros (a & l & H & _)%Forall2_cons_inv_l. congruence. }
    destruct (resolve_all rs names) as [l|e].
    + split; [intros [= <-]; constructor; [done|by apply IH]|].
      intros (a & l' & Ha & H & ->)%Forall2_cons_inv_l. apply IH in H. congruence.
    + split; [done|]. intros (a & l' & _ & H & _)%Forall2_cons_inv_l. by apply IH in H.
Qed.

Lemma filter_of_transport l :
  filterNATSBoundActions l = filter (λ act, of_transport act = true) (omap id l).
Proof. rewrite filter_bound. apply list_filter_iff. intros act. by rewrite of_transport_bound. Qed.

Lemma select_selected rs names acts : select_actions rs names = Ok acts ↔ selected rs names acts.
Proof.
  destruct names as [|n names]; [|apply resolve_all_selected]. unfold select_actions, selected.
  rewrite filter_of_transport. destruct (filter _ _) as [|a l]; naive_solver.
Qed.

(** The caller ended nats.listen itself. *)
Definition canceled_by_caller (ctxErr : option error) : bool :=
  match ctxErr with Some e => errors_Is e context_Canceled | None => false end.

(** C33: nats.listen runs the transport with valid bindings only, tells the truth about
    readiness, and leaves nothing running: either it fails before anything is mounted, which
    it does only if it has no resolver, selects no action (or not all of those named) or
    one with an invalid binding; or it mounts the selected actions - those named, or all
    with a binding of the transport - once, none with an invalid binding, starts the
    transport once, announces the service ready exactly when the transport is, and
    returns only after the run has ended; it returns no error only if its own context was
    canceled or the transport became ready and its run ended without one. *)
Theorem listen_contract resolver i :
  sat (listenAction resolver i) (λ tr r,
    (tr = [] ∧ r ≠ None ∧ ∀ rs acts, resolver = Some rs → selected rs (named i) acts →
       ∃ act bad, act ∈ acts ∧ invalidBinding bad ∈ fa_Bindings act) ∨
    ∃ rs acts d x, resolver = Some rs ∧ selected rs (named i) acts ∧
      (∀ act bad, act ∈ acts → invalidBinding bad ∉ fa_Bindings act) ∧
      ((tr = [levt (LMount acts) tt; levt LStartDo tt; levt LWaitReady None; levt LSignalReady tt;
              levt LDone d; levt LCtxErr x; levt LCancel tt] ∧ r = if canceled_by_caller x then None else d) ∨
       ∃ e, tr = [levt (LMount acts) tt; levt LStartDo tt; levt LWaitReady (Some e); levt LCancel tt;
              levt LDone d; levt LCtxErr x; levt LCancel tt] ∧
         r = if canceled_by_caller x then None
             else Some (match d with
                        | Some doErr => xerr_new KindUnavailable "nats.listen: transport failed to start" (Some doErr)
                        | None => xerr_new KindUnavailable "nats.listen: timeout waiting for connection" (Some e)
                        end))).
Proof.
  unfold listenAction. destruct resolver as [rs|]; [|by left].
  rewrite named_endpoints. destruct (select_actions rs _) as [acts|err] eqn:Es.
  2:{ left. split; [done|]. split; [done|]. intros rs' acts [= <-] H. apply select_selected in H. congruence. }
  pose proof (proj1 (select_selected _ _ _) Es) as Hsel.
  destruct (first_invalid acts) as [[name bad]|] eqn:Ei.
  { left. split; [done|]. split; [done|]. intros rs' acts' [= <-] H. apply select_selected in H.
    assert (acts' = acts) as -> by congruence. by eapply first_invalid_some. }
  pose proof (proj1 (first_invalid_none acts) Ei) as Hv.
  unfold listen_run. change is_canceled with canceled_by_caller. cbn. intros [] [] [e|].
  - intros [] d x. destruct (canceled_by_caller x) eqn:Ex; cbn; [|destruct d as [d|]; cbn]; intros [];
      right; eexists rs, acts, _, x; (split; [done|]; split; [done|]; split; [done|]; right; exists e; split; [done|]);
      by rewrite Ex.
  - intros [] d x. destruct (canceled_by_caller x) eqn:Ex; cbn; intros []; right; exists rs, acts, d, x;
      (split; [done|]; split; [done|]; split; [done|]; left; split; [done|]); by rewrite Ex.
Qed.

(** A mistyped annotation is reported only by name: an action all of whose bindings
    are invalid makes nats.listen fail with BadRequest when it is asked for by name; but
    when nats.listen is asked for everything, the same action is left out without a
    word, and the other actions are mounted. *)
Theorem listen_all_ignores_invalid rs name bad good :
  rs_Action rs name = Some bad → fa_Bindings bad ≠ [] →
  (∀ b, b ∈ fa_Bindings bad → ∃ reason, b = invalidBinding reason) →
  rs_Actions rs = Some [Some bad; Some good] →
  nats_bound good = true → (∀ reason, invalidBinding reason ∉ fa_Bindings good) →
  (∃ msg, listenAction (Some rs) (Some {["endpoints" := JArr [JStr name]]}) =
     mret (Some (xerr_new KindBadRequest msg None))) ∧
  listenAction (Some rs) None = listen_run [good].
Proof.
  intros Hn Hne Hbad Hall Hgood Hok.
  assert (Hb : nats_bound bad = false).
  { unfold nats_bound. clear Hne. induction (fa_Bindings bad) as [|b bs IH]; [done|].
    destruct (Hbad b ltac:(by left)) as [reason ->]. cbn. apply IH. intros b' ?. apply Hbad. by right. }
  split.
  - unfold listenAction. cbn [endpoints_of_input]. rewrite lookup_singleton_eq. cbn. rewrite Hn. cbn.
    destruct (fa_Bindings bad) as [|b bs] eqn:E; [done|]. destruct (Hbad b ltac:(by left)) as [reason ->].
    unfold first_invalid, invalid_of. cbn. rewrite E. cbn. by eexists.
  - unfold listenAction. cbn [endpoints_of_input]. unfold select_actions, filterNATSBoundActions. rewrite Hall. cbn.
    rewrite !bound_checkers, Hb, Hgood.
    assert (first_invalid [good] = None) as ->; [|done]. apply first_invalid_none.
    by intros act reason ->%list_elem_of_singleton.
Qed.
End ListenTheorems.

(** ** Deadlines *)
Section Deadlines.
Context {EM : ErrorModel} {K : Kernel EM} {AJ : AnyJson} {HO : HeaderOps} {PE : PublicErrors}.

(** The context a call is made with, if it takes one. *)
Definition req_ctx (r : req) : option context :=
  match r with
  | RCtxErr c | RFetch c _ _ | RStoreGet c _ | RStoreSet c _ _ _ | RClaim c _ _ _ | RComplete c _ _ _ _
  | RRelease c _ _ | RExecute c | RAckSync c | RNakWithDelay c _ | RTerm c | RJsPublish c _ _ _ | RSleep c _ | REnsureConn c
  | RJsKeyValue c _ | RJkGet c _ _ | RJkPut c _ _ _ | RJkCreate c _ _ _ _ | RJkUpdate c _ _ _ _ | RJkDelete c _ _ _
  | RJsObjectStore c _ | RJoDelete c _ _ | RObjGet c _ _ | RObjPutBytes c _ _ _ | RExecuteInput c _
  | RJsPublishMsg c _ | RRequestMsg c _ | RFlush c | RWaitClosed c => Some c
  | _ => None
  end.

(** The calls without a context that the flow actions make. *)
Definition contextless (r : req) : Prop :=
  match r with
  | REnsureJetStream | RJetstreamNew _ | RObjectStore _ | RObjRead _ _ | RObjClose _
  | RStreamInfo _ | RAddStream _ | RUpdateStream _ | RPublishMsg _ => True
  | _ => False
  end.

(** A call under the timeout, or one of those. *)
Definition limited (ctx : context) (d : Z) (r : req) : Prop :=
  match req_ctx r with Some c => c = CtxTimeout ctx d | None => contextless r end.

Lemma ensure_loop_limited ctx d n m name subjects : calls_only (limited ctx d) (ensure_loop n m name subjects).
Proof. induction n as [|n IH]; cbn [ensure_loop]; repeat (first [exact IH|calls_step]). Qed.

Lemma keyValue_limited ctx d bucket : calls_only (limited ctx d) (keyValue (CtxTimeout ctx d) bucket).
Proof. unfold keyValue. repeat calls_step. Qed.

Lemma checked_limited {A} ctx d bucket name (p : prog resp (result error A)) :
  calls_only (limited ctx d) p → calls_only (limited ctx d) (checked (CtxTimeout ctx d) bucket name p).
Proof. intros Hp. unfold checked, ctx_Err. repeat (first [exact Hp|calls_step]). Qed.

Ltac limited_calls :=
  repeat (first [apply ensure_loop_limited|apply keyValue_limited|apply checked_limited|calls_step]).

(** C34: Deadlines of the flow actions.  In every action of the library but nats.listen
    (which runs until its own context ends), every call that takes a context is made under the
    action's context limited by the timeout: the configured one, or five seconds when that is
    not positive.  The calls they make without a context are the ones listed in [contextless]:
    opening JetStream and its buckets, provisioning a stream, reading and closing an object
    that was opened under the limit, and publishing a message to the connection's buffer. *)
Theorem flow_calls_limited cfg0 ctx c modifier (vals : xctx) verified unmarshal rg rp rc ru rd og op od rpub rreq rdur :
  let cfg := normalizeConfig cfg0 in
  let d := if decide (cfg_Timeout cfg0 ≤ 0) then 5000000000 else cfg_Timeout cfg0 in
  0 < d ∧
  calls_only (limited ctx d) (nats_kv_get cfg ctx rg) ∧ calls_only (limited ctx d) (nats_kv_put cfg ctx rp) ∧
  calls_only (limited ctx d) (nats_kv_create cfg ctx rc) ∧ calls_only (limited ctx d) (nats_kv_update cfg ctx ru) ∧
  calls_only (limited ctx d) (nats_kv_delete cfg ctx rd) ∧ calls_only (limited ctx d) (objectGetAction cfg ctx og) ∧
  calls_only (limited ctx d) (objectPutAction cfg ctx op) ∧ calls_only (limited ctx d) (objectDeleteAction cfg ctx od) ∧
  calls_only (limited ctx d) (publishAction c cfg ctx vals rpub) ∧
  calls_only (limited ctx d) (requestAction c cfg unmarshal ctx vals rreq) ∧
  calls_only (limited ctx d) (publishDurableAction c modifier cfg ctx vals rdur verified).
Proof.
  cbv zeta. change (if decide (cfg_Timeout cfg0 ≤ 0) then 5000000000 else cfg_Timeout cfg0)
    with (cfg_Timeout (completed cfg0)). rewrite <- normalize_completed.
  split; [apply normalizeConfig_timeout|]. generalize (normalizeConfig cfg0) as cfg. intros cfg.
  repeat match goal with |- _ ∧ _ => split end.
  - unfold nats_kv_get, GetKV, callCtx. limited_calls.
  - unfold nats_kv_put, PutKV, callCtx. limited_calls.
  - unfold nats_kv_create, CreateKV, callCtx. limited_calls.
  - unfold nats_kv_update, UpdateKV, callCtx. limited_calls.
  - unfold nats_kv_delete, DeleteKV, callCtx. limited_calls.
  - unfold objectGetAction, GetObjectLimited, objectStore, readObjectBytes, callCtx. cbv zeta. limited_calls.
  - unfold objectPutAction, PutObject, objectStore, callCtx. limited_calls.
  - unfold objectDeleteAction, DeleteObject, callCtx. limited_calls.
  - unfold publishAction, Publish, callCtx. limited_calls.
  - unfold requestAction, Request, callCtx. limited_calls.
  - unfold publishDurableAction, PublishDurable, verify_stream, ensureDurableInfra, ensureStream, callCtx. cbv zeta.
    limited_calls.
Qed.
End Deadlines.

(** ** Witnesses *)
Section Witnesses.
Import GoErr.

Lemma listen_all_ignores_invalid_witness :
  ∃ rs good, listenAction (EM := GoErr.model) (Some rs) None = listen_run [good].
Proof.
  set (bad := mkFlowAction true None (Some "jobs") [nats_durable "JOBS:jobs"]).
  set (good := mkFlowAction true None (Some "echo") [requestModifier "echo"]).
  exists (mkResolver (λ _, Some bad) (Some [Some bad; Some good])), good.
  apply (listen_all_ignores_invalid (EM := GoErr.model) (mkResolver (λ _, Some bad) (Some [Some bad; Some good])) "jobs" bad good).
  - reflexivity.
  - done.
  - intros b ->%list_elem_of_singleton. by eexists.
  - reflexivity.
  - reflexivity.
  - intros reason ?%list_elem_of_singleton. discriminate.
Defined.
End Witnesses.
