(* ===== verification/Lifecycle.v ===== *)
(** * The connection lifecycle (src/tnats/lazy.go, tnats_stream.go, tnats_runner.go)

    EnsureConn, Close and ensureJetStream as programs over the transport's fields.
    A call ([lreq]) is what one goroutine does without interruption: a section under
    t.mu, an operation on the connect gate, a call of the NATS client or of a
    context.  [lstep] says what each does to the fields and what it may answer, so a
    system of goroutines is an interleaving of these programs (LifecycleSystem). *)

From S2P Require Import Prelude Effects Errors World.

Section Lifecycle.
Context {EM : ErrorModel}.

(** Connections and connect contexts are named by numbers; a JetStream context is
    named by the connection it was made from. *)
(** Which channel of the select was ready; [SCtxDone e]: ctx.Done(), with the error
    that ctx.Err() reports from then on. *)
Inductive selected := SConnected | SClosed | SCtxDone (e : error) | SConnectCtxDone.

Inductive lreq :=
| LCtxErr (c : context)
| LReadConnection
| LIsClosed (nc : nat)
| LLockGate (c : context)
| LWaitGate                        (* the send of Close, without a context *)
| LUnlockGate
| LReadURL
| LWithCancel (c : context)
| LSetConnectCancel (k : nat)
| LClearConnectCancel
| LCancel (k : nat)
| LConnect (url : string)
| LConnectCtxErr (k : nat)
| LIsConnected (nc : nat)
| LSelect (c : context) (k : nat)
| LLastError (nc : nat)
| LCloseConn (nc : nat)
| LJetStream (nc : nat)
| LStoreConnection (nc : nat)      (* and the JetStream context made from it *)
| LSetClosing
| LResetClosing
| LMarkClosing
| LTakeConnection
| LEnsureJetStream.

Definition lresp (r : lreq) : Type :=
  match r with
  | LCtxErr _ | LLockGate _ | LConnectCtxErr _ | LLastError _ | LJetStream _ => option error
  | LReadConnection => option nat * option error * bool * bool
  | LIsClosed _ | LSetConnectCancel _ | LIsConnected _ | LStoreConnection _ => bool
  | LUnlockGate | LWaitGate | LClearConnectCancel | LCancel _ | LCloseConn _ | LResetClosing | LMarkClosing => unit
  | LReadURL => string
  | LWithCancel _ => nat
  | LConnect _ | LEnsureJetStream => result error nat
  | LSelect _ _ => selected
  | LSetClosing => option nat
  | LTakeConnection => option nat * bool
  end.

Definition unavailable (msg : string) : error := xerr_new KindUnavailable msg None.

(** ** The programs *)

(** [None]: the cached state is not ready. *)
Definition cachedConnection : prog lresp (option (result error nat)) :=
  s ← call LReadConnection;
  let '(nc, initErr, providedConn, closing) := s in
  match initErr with
  | Some e => mret (Some (Err (mapError e)))
  | None =>
      if closing : bool then mret (Some (Err (unavailable "nats: transport is closed")))
      else if providedConn : bool then
        let gone := unavailable "nats: caller-supplied connection is closed" in
        match nc with
        | None => mret (Some (Err gone))
        | Some c =>
            closed ← call (LIsClosed c);
            mret (Some (if closed : bool then Err gone else Ok c))
        end
      else
        match nc with
        | None => mret None
        | Some c =>
            closed ← call (LIsClosed c);
            mret (if closed : bool then None else Some (Ok c))
        end
  end.

(** The loop, for at most [fuel] turns; [None]: still waiting. *)
Fixpoint waitForInitialConnection (fuel : nat) (ctx : context) (connectCtx nc : nat)
    : prog lresp (option (option error)) :=
  match fuel with
  | O => mret None
  | S fuel' =>
      err ← call (LCtxErr ctx);
      match err with
      | Some e => mret (Some (Some e))
      | None =>
          cancelled ← call (LConnectCtxErr connectCtx);
          if is_some cancelled
          then mret (Some (Some (unavailable "nats: transport closed during initial connection")))
          else
            isConnected ← call (LIsConnected nc);
            if isConnected : bool then mret (Some None)
            else
              chosen ← call (LSelect ctx connectCtx);
              match chosen with
              | SConnected => waitForInitialConnection fuel' ctx connectCtx nc
              | SClosed =>
                  err ← call (LLastError nc);
                  match err with
                  | Some e => mret (Some (Some (mapError e)))
                  | None => mret (Some (Some (unavailable "nats: connection closed before initial connection")))
                  end
              | SCtxDone e => mret (Some (Some e))
              | SConnectCtxDone =>
                  mret (Some (Some (unavailable "nats: transport closed during initial connection")))
              end
      end
  end.

(** From nats.Connect to the connection that is returned. *)
Definition dial (fuel : nat) (ctx : context) (connectCtx : nat) (rawURL : string)
    : prog lresp (option (result error nat)) :=
  dialed ← call (LConnect rawURL);
  match dialed with
  | Err err =>
      ctxErr ← call (LCtxErr ctx);
      match ctxErr with
      | Some e => mret (Some (Err e))
      | None => mret (Some (Err (mapError err)))
      end
  | Ok dialed =>
      waited ← waitForInitialConnection fuel ctx connectCtx dialed;
      match waited with
      | None => mret None
      | Some (Some e) => _ ← call (LCloseConn dialed); mret (Some (Err e))
      | Some None =>
          jsErr ← call (LJetStream dialed);
          match jsErr with
          | Some e => _ ← call (LCloseConn dialed); mret (Some (Err (mapError e)))
          | None =>
              stored ← call (LStoreConnection dialed);
              if stored : bool then mret (Some (Ok dialed))
              else
                _ ← call (LCloseConn dialed);
                mret (Some (Err (unavailable "nats: transport closed during connection setup")))
          end
      end
  end.

Definition dialConnection (fuel : nat) (ctx : context) : prog lresp (option (result error nat)) :=
  rawURL ← call LReadURL;
  if str_empty rawURL then mret (Some (Err (xerr_new KindInternal "nats: URL is required to dial" None)))
  else
    connectCtx ← call (LWithCancel ctx);
    registered ← call (LSetConnectCancel connectCtx);
    if negb registered then
      _ ← call (LCancel connectCtx);
      mret (Some (Err (unavailable "nats: transport is closed")))
    else
      r ← dial fuel ctx connectCtx rawURL;
      match r with
      | None => mret None
      | Some r =>
          (* the deferred function *)
          _ ← call LClearConnectCancel;
          _ ← call (LCancel connectCtx);
          mret (Some r)
      end.

(** Under the gate: after lockConnect, up to the deferred unlockConnect. *)
Definition gated (fuel : nat) (ctx : context) : prog lresp (option (result error nat)) :=
  err ← call (LCtxErr ctx);
  match err with
  | Some e => mret (Some (Err e))
  | None =>
      state ← cachedConnection;
      match state with
      | Some r => mret (Some r)
      | None => dialConnection fuel ctx
      end
  end.

Definition EnsureConn (fuel : nat) (ctx : option context) : prog lresp (option (result error nat)) :=
  match ctx with
  | None => mret (Some (Err (xerr_new KindBadRequest "nats: context is required" None)))
  | Some ctx =>
      err ← call (LCtxErr ctx);
      match err with
      | Some e => mret (Some (Err e))
      | None =>
          state ← cachedConnection;
          match state with
          | Some r => mret (Some r)
          | None =>
              err ← call (LLockGate ctx);
              match err with
              | Some e => mret (Some (Err e))
              | None =>
                  r ← gated fuel ctx;
                  match r with
                  | None => mret None
                  | Some r => _ ← call LUnlockGate; mret (Some r)
                  end
              end
          end
      end
  end.

Definition Close : prog lresp (option error) :=
  cancelConnect ← call LSetClosing;
  _ ← (match cancelConnect with
       | Some k => call (LCancel k)
       | None => mret tt
       end);
  _ ← call LWaitGate;
  taken ← call LTakeConnection;
  let '(nc, providedConn) := taken in
  _ ← (match nc with
       | Some c => if (providedConn : bool) then mret tt else call (LCloseConn c)
       | None => mret tt
       end);
  _ ← call LUnlockGate;
  mret None.

(** Connected reports whether EnsureConn has already succeeded. *)
Definition Connected : prog lresp bool :=
  s ← call LReadConnection;
  match s.1.1.1 with
  | None => mret false
  | Some c => closed ← call (LIsClosed c); mret (negb closed)
  end.

(** The beginning of Do, and the end of its deferred function. *)
Definition do_opens : prog lresp unit := call LResetClosing.
Definition do_closes : prog lresp (option error) := _ ← call LMarkClosing; Close.

(** ** The fields and what the sections do to them *)
Record tstate := mkT {
  t_conn : option nat;
  t_js : option nat;
  t_url : string;
  t_initErr : option error;
  t_providedConn : bool;
  t_closing : bool;
  t_connectCancel : option nat;
  t_connectGate : bool;            (* the slot of the channel is taken *)
  w_given : option nat;            (* the connection passed to FromConn *)
  w_opened : gset nat;             (* connections nats.Connect returned *)
  w_closed : gset nat;             (* connections that are closed *)
  w_cancelled : gset nat           (* connect contexts that are cancelled *)
}.

Definition set_conn (c j : option nat) (s : tstate) : tstate :=
  mkT c j (t_url s) (t_initErr s) (t_providedConn s) (t_closing s) (t_connectCancel s)
      (t_connectGate s) (w_given s) (w_opened s) (w_closed s) (w_cancelled s).
Definition set_url (u : string) (s : tstate) : tstate :=
  mkT (t_conn s) (t_js s) u (t_initErr s) (t_providedConn s) (t_closing s) (t_connectCancel s)
      (t_connectGate s) (w_given s) (w_opened s) (w_closed s) (w_cancelled s).
Definition set_closing (b : bool) (s : tstate) : tstate :=
  mkT (t_conn s) (t_js s) (t_url s) (t_initErr s) (t_providedConn s) b (t_connectCancel s)
      (t_connectGate s) (w_given s) (w_opened s) (w_closed s) (w_cancelled s).
Definition set_connectCancel (k : option nat) (s : tstate) : tstate :=
  mkT (t_conn s) (t_js s) (t_url s) (t_initErr s) (t_providedConn s) (t_closing s) k
      (t_connectGate s) (w_given s) (w_opened s) (w_closed s) (w_cancelled s).
Definition set_gate (b : bool) (s : tstate) : tstate :=
  mkT (t_conn s) (t_js s) (t_url s) (t_initErr s) (t_providedConn s) (t_closing s) (t_connectCancel s)
      b (w_given s) (w_opened s) (w_closed s) (w_cancelled s).
Definition add_opened (c : nat) (s : tstate) : tstate :=
  mkT (t_conn s) (t_js s) (t_url s) (t_initErr s) (t_providedConn s) (t_closing s) (t_connectCancel s)
      (t_connectGate s) (w_given s) ({[c]} ∪ w_opened s) (w_closed s) (w_cancelled s).
Definition add_closed (c : nat) (s : tstate) : tstate :=
  mkT (t_conn s) (t_js s) (t_url s) (t_initErr s) (t_providedConn s) (t_closing s) (t_connectCancel s)
      (t_connectGate s) (w_given s) (w_opened s) ({[c]} ∪ w_closed s) (w_cancelled s).
Definition add_cancelled (k : nat) (s : tstate) : tstate :=
  mkT (t_conn s) (t_js s) (t_url s) (t_initErr s) (t_providedConn s) (t_closing s) (t_connectCancel s)
      (t_connectGate s) (w_given s) (w_opened s) (w_closed s) ({[k]} ∪ w_cancelled s).

(** New and FromConn, as far as these fields go. *)
Definition new_state (rawURL : string) (initErr : option error) : tstate :=
  mkT None None rawURL initErr false false None false None ∅ ∅ ∅.

Definition from_conn_state (nc : option nat) (connectedUrl : string) (js : option nat) : tstate :=
  mkT nc (match nc with Some _ => js | None => None end)
      (match nc with Some _ => connectedUrl | None => "" end) None true false None false nc ∅ ∅ ∅.

(** The section of ensureJetStream; [ext] is the answer of t.conn.JetStream(). *)
Definition ensureJetStream (ext : option error) (s : tstate) : result error nat * tstate :=
  match t_js s with
  | Some j => (Ok j, s)
  | None =>
      match t_conn s with
      | None => (Err (unavailable "nats: connection not ready"), s)
      | Some c =>
          match ext with
          | Some e => (Err (mapError e), s)
          | None => (Ok c, set_conn (t_conn s) (Some c) s)
          end
      end
  end.

(** The section of dialConnection that stores the connection. *)
Definition store_connection (nc : nat) (s : tstate) : bool * tstate :=
  if t_closing s then (false, s) else (true, set_conn (Some nc) (Some nc) s).

(** The section of dialConnection that registers the cancellation. *)
Definition register_cancel (k : nat) (s : tstate) : bool * tstate :=
  if t_closing s then (false, s) else (true, set_connectCancel (Some k) s).

(** What a call may answer and do.  A caller's context may end at any time; a
    connect context ends with it, or by its cancel function. *)
Definition lstep (s : tstate) (r : lreq) : lresp r → tstate → Prop :=
  match r with
  | LCtxErr _ => λ _ s', s' = s
  | LReadConnection => λ x s', x = (t_conn s, t_initErr s, t_providedConn s, t_closing s) ∧ s' = s
  | LIsClosed c => λ x s', x = bool_decide (c ∈ w_closed s) ∧ s' = s
  | LWaitGate => λ _ s', t_connectGate s = false ∧ s' = set_gate true s
  | LLockGate _ => λ x s',
      match x with
      | None => t_connectGate s = false ∧ s' = set_gate true s
      | Some _ => s' = s
      end
  | LUnlockGate => λ _ s', t_connectGate s = true ∧ s' = set_gate false s
  | LReadURL => λ x s', x = t_url s ∧ s' = s
  | LWithCancel _ => λ k s', k ∉ w_cancelled s ∧ s' = s
  | LSetConnectCancel k => λ x s', (x, s') = register_cancel k s
  | LClearConnectCancel => λ _ s', s' = set_connectCancel None s
  | LCancel k => λ _ s', s' = add_cancelled k s
  | LConnect _ => λ x s',
      match x with
      | Ok c => c ∉ w_opened s ∧ w_given s ≠ Some c ∧ s' = add_opened c s
      | Err _ => s' = s
      end
  | LConnectCtxErr k => λ x s', (k ∈ w_cancelled s → is_some x = true) ∧ s' = s
  | LIsConnected c => λ x s', (x = true → c ∉ w_closed s) ∧ s' = s
  | LSelect _ _ => λ _ s', s' = s
  | LLastError _ => λ _ s', s' = s
  | LCloseConn c => λ _ s', s' = add_closed c s
  | LJetStream _ => λ _ s', s' = s
  | LStoreConnection c => λ x s', (x, s') = store_connection c s
  | LSetClosing => λ x s', x = t_connectCancel s ∧ s' = set_closing true s
  | LResetClosing => λ _ s', s' = set_closing false s
  | LMarkClosing => λ _ s', s' = set_closing true s
  | LTakeConnection => λ x s', x = (t_conn s, t_providedConn s) ∧ s' = set_conn None None s
  | LEnsureJetStream => λ x s', ∃ ext, (x, s') = ensureJetStream ext s
  end.
End Lifecycle.
