(* ===== verification/LifecycleSystem.v ===== *)
(** * Goroutines that share a transport

    The system: any number of goroutines that run EnsureConn, Close, ensureJetStream
    and the beginning and end of Do on one transport, interleaved call by call, while
    connections close on their own.  A typestate discipline ([follows]) says what a
    goroutine may call and what it owns meanwhile; the programs of Lifecycle follow
    it, and every system of goroutines that follow it keeps the invariant [linv]. *)

From stdpp Require Import relations.
From S2P Require Import Prelude Effects Errors World Lifecycle.

Section System.
Context {EM : ErrorModel}.

(** ** What a goroutine owns *)
Record phase := mkPhase {
  ph_gate : bool;                     (* it holds the connect gate *)
  ph_seen : option (option nat);      (* t.conn, read while holding the gate *)
  ph_free : bool;                     (* it then saw no initErr, no provided connection *)
  ph_clear : bool;                    (* ... and that the old connection is gone *)
  ph_conn : option nat;               (* a connection it must store or close *)
  ph_ctx : option nat;                (* a connect context it must cancel *)
  ph_registered : bool;               (* whose cancel function is t.connectCancel *)
  ph_marked : bool;                   (* it set closing and has not read connectCancel *)
  ph_pending : option nat;            (* a cancel function it has yet to call *)
  ph_closing : bool                   (* it set closing and has not taken t.conn *)
}.

Definition idle : phase := mkPhase false None false false None None false false None false.

Definition with_gate (b : bool) (p : phase) : phase :=
  mkPhase b None false false (ph_conn p) (ph_ctx p) (ph_registered p) (ph_marked p) (ph_pending p) (ph_closing p).
Definition with_seen (c : option nat) (free clear : bool) (p : phase) : phase :=
  mkPhase (ph_gate p) (Some c) free clear (ph_conn p) (ph_ctx p) (ph_registered p) (ph_marked p) (ph_pending p) (ph_closing p).
Definition with_conn (c : option nat) (p : phase) : phase :=
  mkPhase (ph_gate p) (ph_seen p) (ph_free p) (ph_clear p) c (ph_ctx p) (ph_registered p) (ph_marked p) (ph_pending p) (ph_closing p).
Definition with_ctx (k : option nat) (r : bool) (p : phase) : phase :=
  mkPhase (ph_gate p) (ph_seen p) (ph_free p) (ph_clear p) (ph_conn p) k r (ph_marked p) (ph_pending p) (ph_closing p).
Definition with_close (m : bool) (k : option nat) (c : bool) (p : phase) : phase :=
  mkPhase (ph_gate p) (ph_seen p) (ph_free p) (ph_clear p) (ph_conn p) (ph_ctx p) (ph_registered p) m k c.

(** ** The discipline *)

(** Who has begun to close the transport reads the cancel function next, and calls it
    next. *)
Definition owes (p : phase) (r : lreq) : Prop :=
  if ph_marked p then r = LSetClosing
  else match ph_pending p with Some k => r = LCancel k | None => True end.

Definition may (p : phase) (r : lreq) : Prop :=
  match r with
  | LLockGate _ | LWaitGate => ph_gate p = false
  | LUnlockGate =>
      ph_gate p = true ∧ ph_conn p = None ∧ ph_ctx p = None ∧ ph_registered p = false
  | LWithCancel _ => ph_gate p = true ∧ ph_ctx p = None ∧ ph_registered p = false
  | LSetConnectCancel k => ph_gate p = true ∧ ph_ctx p = Some k ∧ ph_registered p = false
  | LClearConnectCancel => ph_gate p = true
  | LCancel k => (ph_ctx p = Some k ∧ ph_registered p = false) ∨ (ph_gate p = false ∧ ph_pending p = Some k)
  | LConnect url => ph_gate p = true ∧ ph_clear p = true ∧ ph_conn p = None ∧ url ≠ ""
  | LCloseConn c => ph_conn p = Some c
  | LStoreConnection c => ph_conn p = Some c ∧ ph_gate p = true ∧ ph_clear p = true
  | LSetClosing => ph_gate p = false ∧ ph_pending p = None
  | LMarkClosing => ph_gate p = false
  | LTakeConnection => ph_gate p = true ∧ ph_conn p = None ∧ ph_marked p = false ∧ ph_pending p = None
  | _ => True
  end.

Definition allowed (p : phase) (r : lreq) : Prop := owes p r ∧ may p r.

Definition next (p : phase) (r : lreq) : lresp r → phase :=
  match r with
  | LLockGate _ => λ x, match x with None => with_gate true p | Some _ => p end
  | LWaitGate => λ _, with_gate true p
  | LUnlockGate => λ _, with_gate false p
  | LReadConnection => λ x,
      let '(nc, initErr, providedConn, _) := x in
      let free := negb (is_some initErr || providedConn) in
      if ph_gate p then with_seen nc free (free && negb (is_some nc)) p else p
  | LIsClosed c => λ x,
      if ph_gate p && bool_decide (ph_seen p = Some (Some c)) && ph_free p && x
      then with_seen (Some c) true true p else p
  | LWithCancel _ => λ k, with_ctx (Some k) false p
  | LSetConnectCancel k => λ x, with_ctx (Some k) x p
  | LClearConnectCancel => λ _, with_ctx (ph_ctx p) false p
  | LCancel k => λ _,
      if ph_gate p then with_ctx None (ph_registered p) p else with_close (ph_marked p) None (ph_closing p) p
  | LConnect _ => λ x, match x with Ok c => with_conn (Some c) p | Err _ => p end
  | LCloseConn _ => λ _, with_conn None p
  | LStoreConnection c => λ x, if x then with_conn None (with_seen (Some c) (ph_free p) false p) else p
  | LSetClosing => λ x, with_close false x true p
  | LMarkClosing => λ _, with_close true (ph_pending p) true p
  | LTakeConnection => λ x,
      with_close false None false
        (with_conn (if x.2 then None else x.1) (with_seen None (ph_free p) false p))
  | _ => λ _, p
  end.

(** A program follows the discipline from a phase, and ends where [Q] holds. *)
Fixpoint follows {A} (p : phase) (m : prog lresp A) (Q : phase → A → Prop) : Prop :=
  match m with
  | Ret a => Q p a
  | Vis r k => allowed p r ∧ ∀ x, follows (next p r x) (k x) Q
  end.

Lemma follows_bind {A B} p (m : prog lresp A) (f : A → prog lresp B) Q :
  follows p m (λ p' a, follows p' (f a) Q) → follows p (m ≫= f) Q.
Proof.
  revert p. induction m as [a|r k IH]; intros p; cbn; [done|].
  intros [Ha Hk]. split; [done|]. intros x. exact (IH x _ (Hk x)).
Qed.

Lemma follows_mono {A} p (m : prog lresp A) (Q Q' : phase → A → Prop) :
  (∀ p' a, Q p' a → Q' p' a) → follows p m Q → follows p m Q'.
Proof.
  intros HQ. revert p. induction m as [a|r k IH]; intros p; cbn; [apply HQ|].
  intros [Ha Hk]. split; [done|]. intros x. exact (IH x _ (Hk x)).
Qed.

Lemma follows_call {A} p r (f : lresp r → prog lresp A) Q :
  allowed p r → (∀ x, follows (next p r x) (f x) Q) → follows p (call r ≫= f) Q.
Proof. by split. Qed.

(** A waiting goroutine that is not given another turn ends with [None]. *)
Definition unburdened (p : phase) : Prop := ph_marked p = false ∧ ph_pending p = None.
Definition returns_idle {A} (p : phase) (a : option A) : Prop := (a = None ∧ unburdened p) ∨ p = idle.

(** ** The programs follow it *)

(** cachedConnection without the gate leaves the phase, under the gate it shows that
    there is no live connection when it is not ready. *)
Lemma cachedConnection_outside p :
  ph_gate p = false → unburdened p → follows p cachedConnection (λ p' _, p' = p).
Proof.
  intros Hg [Hm Hp]. destruct p as [g se fr cl co cx re ma pe clo]. cbn in *. subst g ma pe.
  cbn. split; [done|]. intros [[[nc ie] pr] clg]. cbn.
  destruct ie, clg, pr, nc; cbn; auto. all: split; [done|by intros []].
Qed.

Lemma cachedConnection_gated p :
  ph_gate p = true → unburdened p →
  follows p cachedConnection (λ p' r,
    ∃ c free clear, p' = with_seen c free clear p ∧ (r = None → clear = true)).
Proof.
  intros Hg [Hm Hp]. destruct p as [g se fr cl co cx re ma pe clo]. cbn in *. subst g ma pe.
  cbn. split; [done|]. intros [[[nc ie] pr] clg]. cbn.
  destruct ie, clg, pr, nc as [c|]; cbn;
    try (eexists _, _, _; split; [reflexivity|done]);
    (split; [done|]); rewrite ?bool_decide_eq_true_2 by done; intros []; cbn;
    (eexists _, _, _; split; [reflexivity|done]).
Qed.

Lemma wait_follows p fuel ctx k c (Q : phase → option (option error) → Prop) :
  unburdened p → (∀ r, Q p r) → follows p (waitForInitialConnection fuel ctx k c) Q.
Proof.
  intros [Hm Hp] HQ.
  assert (Hw : ∀ r, may p r → allowed p r) by (intros r H; split; [by unfold owes; rewrite Hm, Hp|done]).
  induction fuel as [|fuel IH]; cbn; [apply HQ|].
  split; [by apply Hw|]. intros [e|]; cbn; [apply HQ|]. split; [by apply Hw|].
  intros [e|]; cbn; [apply HQ|]. split; [by apply Hw|]. intros []; cbn; [apply HQ|].
  split; [by apply Hw|]. intros []; cbn; [apply IH|..]; try apply HQ.
  split; [by apply Hw|]. intros [e|]; cbn; apply HQ.
Qed.
(** A phase of EnsureConn under the gate. *)
Definition dialing (se : option (option nat)) (fr cl : bool) (co cx : option nat) (re : bool) : phase :=
  mkPhase true se fr cl co cx re false None false.

Lemma dial_follows fuel ctx k url se fr :
  url ≠ "" →
  follows (dialing se fr true None (Some k) true) (dial fuel ctx k url)
    (λ p r, (r = None ∧ unburdened p) ∨ ∃ se fr cl, p = dialing se fr cl None (Some k) true).
Proof.
  intros Hu. cbn. split; [done|]. intros [c|e]; cbn.
  - apply follows_bind. apply wait_follows; [done|]. intros [[e|]|]; cbn; [|split; [done|]|by left].
    + split; [done|]. intros _. right. by eexists _, _, _.
    + intros [e|]; cbn; [split; [done|]; intros _; right; by eexists _, _, _|].
      split; [done|]. intros []; cbn; [right; by eexists _, _, _|].
      split; [done|]. intros _. right. by eexists _, _, _.
  - split; [done|]. intros [e'|]; cbn; right; by eexists _, _, _.
Qed.

Lemma dialConnection_follows fuel ctx se fr :
  follows (dialing se fr true None None false) (dialConnection fuel ctx)
    (λ p r, (r = None ∧ unburdened p) ∨ ∃ se fr cl, p = dialing se fr cl None None false).
Proof.
  unfold dialConnection. apply follows_call; [done|]. intros url.
  destruct (str_empty url) eqn:Eu; [right; by eexists _, _, _|].
  apply follows_call; [done|]. intros k. apply follows_call; [done|]. intros []; cbn [negb].
  - apply follows_bind. eapply follows_mono; [|apply dial_follows; by go_bool].
    intros p' r [[-> ?]|(se' & fr' & cl' & ->)]; [by left|]. destruct r as [r|]; [|by left].
    cbn. split; [done|]. intros []. cbn. split; [split; [done|by left]|]. intros []. right. by eexists _, _, _.
  - cbn. split; [split; [done|by left]|]. intros []. right. by eexists _, _, _.
Qed.

(** EnsureConn starts and ends owning nothing. *)
Lemma EnsureConn_follows fuel ctx : follows idle (EnsureConn fuel ctx) returns_idle.
Proof.
  unfold EnsureConn. destruct ctx as [ctx|]; [|by right].
  apply follows_call; [done|]. intros [e|]; cbn [next]; [by right|].
  apply follows_bind. eapply follows_mono; [|by apply cachedConnection_outside].
  intros p' [r|] ->; [by right|].
  apply follows_call; [done|]. intros [e|]; cbn [next]; [by right|].
  apply follows_bind. unfold gated.
  apply follows_call; [done|]. intros [e|]; cbn [next]; [cbn; split; [done|]; intros _; by right|].
  apply follows_bind. eapply follows_mono; [|by apply cachedConnection_gated].
  intros p' r (c & free & clear & -> & Hc). destruct r as [r|].
  - cbn. split; [done|]. intros _. by right.
  - rewrite (Hc eq_refl). eapply follows_mono; [|apply (dialConnection_follows fuel ctx (Some c) free)].
    intros p' r [[-> ?]|(se & fr & cl & ->)]; [by left|]. destruct r; [|by left].
    cbn. split; [done|]. intros []. by right.
Qed.

(** Close calls the cancel function it read and closes the connection it took. *)
Lemma Close_follows m c :
  follows (with_close m None c idle) Close (λ p _, p = idle).
Proof.
  unfold Close. apply follows_call; [by destruct m|]. intros k. apply follows_bind.
  assert (H : follows (next (with_close m None c idle) LSetClosing k)
                (match k with Some k => call (LCancel k) | None => mret tt end)
                (λ p _, p = with_close false None true idle)).
  { destruct k; [|done]. split; [split; [done|by right]|]. done. }
  eapply follows_mono; [|exact H]. intros p' ? ->. clear H.
  apply follows_call; [done|]. intros []. apply follows_call; [done|]. intros [nc pr].
  destruct nc as [nc|], pr; cbn; try (split; [done|]); try done.
Qed.

Lemma Close_follows_idle : follows idle Close (λ p _, p = idle).
Proof. apply (Close_follows false false). Qed.

Lemma do_closes_follows : follows idle do_closes (λ p _, p = idle).
Proof. unfold do_closes. apply follows_call; [done|]. intros []. apply (Close_follows true true). Qed.

Lemma Connected_follows : follows idle Connected (λ p _, p = idle).
Proof.
  unfold Connected. apply follows_call; [done|]. intros [[[[nc|] ie] pr] cl]; [|done].
  cbn. split; [done|]. by intros [].
Qed.

Lemma do_opens_follows : follows idle do_opens (λ p _, p = idle).
Proof. by split. Qed.

Lemma ensureJetStream_follows : follows idle (call LEnsureJetStream) (λ p _, p = idle).
Proof. by split. Qed.

(** ** The system *)
Definition goroutine : Type := prog lresp (option unit).

Definition forget {A} (m : prog lresp (option A)) : goroutine :=
  r ← m; mret (match r with Some _ => Some tt | None => None end).
Definition finishes {A} (m : prog lresp A) : goroutine := _ ← m; mret (Some tt).

(** What the code runs on a transport. *)
Inductive starts : goroutine → Prop :=
| start_EnsureConn fuel ctx : starts (forget (EnsureConn fuel ctx))
| start_Close : starts (finishes Close)
| start_Connected : starts (finishes Connected)
| start_ensureJetStream : starts (finishes (call LEnsureJetStream))
| start_do_opens : starts (finishes do_opens)
| start_do_closes : starts (finishes do_closes).

Definition sys : Type := tstate * list (phase * goroutine).

Inductive sstep : sys → sys → Prop :=
| s_start s l m : starts m → sstep (s, l) (s, l ++ [(idle, m)])
| s_call s l i p r k x s' :
    l !! i = Some (p, Vis r k) → lstep s r x s' →
    sstep (s, l) (s', <[i := (next p r x, k x)]> l)
| s_closed c s l : sstep (s, l) (add_closed c s, l)      (* a connection closes *)
| s_url u s l : sstep (s, l) (set_url u s, l).           (* startEmbedded *)

(** A transport built by New or by FromConn. *)
Definition initial (s : tstate) : Prop :=
  (∃ url e, s = new_state url e) ∨
  (∃ nc url js, s = from_conn_state nc url js ∧ (js = None ∨ js = nc)).

Definition lreachable (σ : sys) : Prop := ∃ s, initial s ∧ rtc sstep (s, []) σ.

Lemma starts_follow m : starts m → follows idle m returns_idle.
Proof.
  assert (Hf : ∀ A (m : prog lresp (option A)), follows idle m returns_idle → follows idle (forget m) returns_idle).
  { intros A m' H. unfold forget. apply follows_bind. eapply follows_mono; [|exact H].
    intros p a [[-> ?]| ->]; [by left|by right]. }
  assert (Hg : ∀ A (m : prog lresp A), follows idle m (λ p _, p = idle) → follows idle (finishes m) returns_idle).
  { intros A m' H. unfold finishes. apply follows_bind. eapply follows_mono; [|exact H].
    intros p a ->. by right. }
  destruct 1; auto using EnsureConn_follows, Close_follows_idle, Connected_follows,
    ensureJetStream_follows, do_opens_follows, do_closes_follows.
Qed.

(** ** The invariant *)

(** What a phase says about the fields. *)
Record local (s : tstate) (p : phase) : Prop := {
  lo_outside : ph_gate p = false → ph_seen p = None ∧ ph_free p = false ∧ ph_clear p = false ∧
    ph_conn p = None ∧ ph_ctx p = None ∧ ph_registered p = false;
  lo_seen : ∀ c, ph_seen p = Some c → t_conn s = c;
  lo_free : ph_free p = true → t_providedConn s = false ∧ t_initErr s = None;
  lo_clear : ph_clear p = true → ph_free p = true ∧ ∀ c, t_conn s = Some c → c ∈ w_closed s;
  lo_conn : ∀ c, ph_conn p = Some c → c ∈ w_opened s
}.

(** The gate is held by one goroutine at a time. *)
Record gate_inv (s : tstate) (Φ : list phase) : Prop := {
  gi_unique : ∀ i j p q, Φ !! i = Some p → Φ !! j = Some q →
    ph_gate p = true → ph_gate q = true → i = j;
  gi_taken : ∀ i p, Φ !! i = Some p → ph_gate p = true → t_connectGate s = true
}.

(** Every dialed connection is closed, stored, or somebody's duty. *)
Record own_inv (s : tstate) (Φ : list phase) : Prop := {
  oi_owned : ∀ c, c ∈ w_opened s → c ∈ w_closed s ∨ t_conn s = Some c ∨ Exists (λ p, ph_conn p = Some c) Φ;
  oi_given : t_providedConn s = true → w_opened s = ∅ ∧ (t_conn s = None ∨ t_conn s = w_given s);
  oi_dialed : t_providedConn s = false → ∀ c, t_conn s = Some c → c ∈ w_opened s;
  oi_js : ∀ j, t_js s = Some j → t_conn s = Some j;
  oi_fresh : ∀ c, w_given s = Some c → c ∉ w_opened s
}.

(** A transport marked closed has no connection, or a Close that will take it, and
    the dial in progress is cancelled, or a Close will cancel it. *)
Record close_inv (s : tstate) (Φ : list phase) : Prop := {
  ci_registered : ∀ k, t_connectCancel s = Some k →
    Exists (λ p, ph_registered p = true ∧ ph_ctx p = Some k) Φ;
  ci_closing : t_closing s = true → t_conn s = None ∨ Exists (λ p, ph_closing p = true) Φ;
  ci_pending : t_closing s = true → ∀ k, t_connectCancel s = Some k →
    k ∈ w_cancelled s ∨ Exists (λ p, ph_marked p = true ∨ ph_pending p = Some k) Φ
}.

Record linv (s : tstate) (Φ : list phase) : Prop := {
  li_local : ∀ i p, Φ !! i = Some p → local s p;
  li_gate : gate_inv s Φ;
  li_own : own_inv s Φ;
  li_close : close_inv s Φ
}.

Lemma Exists_at {A} (P : A → Prop) (l : list A) : Exists P l ↔ ∃ i x, l !! i = Some x ∧ P x.
Proof.
  rewrite Exists_exists. split.
  - intros (x & [i Hi]%list_elem_of_lookup & Hx). by exists i, x.
  - intros (i & x & Hi & Hx). exists x. split; [|done]. by eapply list_elem_of_lookup_2.
Qed.

Lemma exists_keep {A} (P : A → Prop) (l : list A) i x y :
  l !! i = Some x → (P x → P y) → Exists P l → Exists P (<[i := y]> l).
Proof.
  intros Hi HP (j & z & Hj & Hz)%Exists_at. apply Exists_at. destruct (decide (i = j)) as [->|Hn].
  - exists j, y. rewrite Hi in Hj. simplify_eq. split; [|auto].
    apply list_lookup_insert_eq. by eapply lookup_lt_Some.
  - exists j, z. by rewrite list_lookup_insert_ne.
Qed.

Lemma exists_now {A} (P : A → Prop) (l : list A) i x y :
  l !! i = Some x → P y → Exists P (<[i := y]> l).
Proof.
  intros Hi HP. apply Exists_at. exists i, y. split; [|done].
  apply list_lookup_insert_eq. by eapply lookup_lt_Some.
Qed.

Lemma lookup_updated {A} (l : list A) i j x y z :
  l !! i = Some x → <[i := y]> l !! j = Some z → (i = j ∧ z = y) ∨ (i ≠ j ∧ l !! j = Some z).
Proof.
  intros Hi Hj. destruct (decide (i = j)) as [->|Hn].
  - rewrite list_lookup_insert_eq in Hj by (by eapply lookup_lt_Some). left. by simplify_eq.
  - rewrite list_lookup_insert_ne in Hj by done. by right.
Qed.
(** ** Every call keeps it *)

(** Turn a step into equations. *)
Ltac lstep_inv :=
  cbn in *; unfold register_cancel, store_connection, ensureJetStream in *;
  repeat match goal with
  | H : _ ∧ _ |- _ => destruct H
  | H : ∃ _, _ |- _ => destruct H
  | H : context [match ?x with _ => _ end] |- _ =>
      lazymatch type of x with prod _ _ => destruct x | _ => destruct x eqn:? end
  | |- context [match ?x with _ => _ end] =>
      lazymatch type of x with prod _ _ => destruct x | _ => destruct x eqn:? end
  end; simplify_eq/=.

Lemma gate_effect s s' p r x :
  may p r → lstep s r x s' →
  (ph_gate (next p r x) = ph_gate p ∧ t_connectGate s' = t_connectGate s) ∨
  (t_connectGate s = false ∧ t_connectGate s' = true) ∨
  (ph_gate p = true ∧ ph_gate (next p r x) = false).
Proof. intros Ha Hs. destruct r; lstep_inv; auto. Qed.

Lemma gate_step s s' Φ i p r x :
  gate_inv s Φ → Φ !! i = Some p → may p r → lstep s r x s' →
  gate_inv s' (<[i := next p r x]> Φ).
Proof.
  intros [U T] Hi Ha Hs. pose proof (gate_effect _ _ _ _ _ Ha Hs) as E. split.
  - intros j k q q' Hj Hk Gj Gk.
    destruct (lookup_updated _ _ _ _ _ _ Hi Hj) as [[<- ->]|[Nj Lj]];
      destruct (lookup_updated _ _ _ _ _ _ Hi Hk) as [[<- ->]|[Nk Lk]]; try done.
    + destruct E as [[E _]|[[E _]|[_ E]]]; [eapply U; eauto; by rewrite <- E| |by rewrite E in Gj].
      pose proof (T _ _ Lk Gk). congruence.
    + destruct E as [[E _]|[[E _]|[_ E]]]; [eapply U; eauto; by rewrite <- E| |by rewrite E in Gk].
      pose proof (T _ _ Lj Gj). congruence.
    + by eapply U.
  - intros j q Hj Gj. destruct E as [[E1 E2]|[[_ E]|[E1 E2]]]; [rewrite E2|done|].
    + destruct (lookup_updated _ _ _ _ _ _ Hi Hj) as [[<- ->]|[Nj Lj]]; [|by eapply T].
      eapply T; [exact Hi|]. by rewrite <- E1.
    + destruct (lookup_updated _ _ _ _ _ _ Hi Hj) as [[<- ->]|[Nj Lj]]; [congruence|].
      by destruct Nj; eapply U.
Qed.

(** Phases without the gate say nothing about the fields; the others keep what they
    know as long as t.conn stays. *)
Lemma local_outside s s' p : ph_gate p = false → local s p → local s' p.
Proof.
  intros G [O _ _ _ _]. destruct (O G) as (E1 & E2 & E3 & E4 & E5 & E6).
  split; [done|by rewrite E1|by rewrite E2|by rewrite E3|by rewrite E4].
Qed.

Definition conn_kept (s s' : tstate) : Prop :=
  t_conn s' = t_conn s ∧ t_providedConn s' = t_providedConn s ∧ t_initErr s' = t_initErr s ∧
  w_closed s ⊆ w_closed s' ∧ w_opened s ⊆ w_opened s'.

Lemma local_kept s s' p : conn_kept s s' → local s p → local s' p.
Proof.
  intros (E1 & E2 & E3 & E4 & E5) [O Se Fr Cl Co]. split.
  - done.
  - intros c Hc. rewrite E1. by apply Se.
  - rewrite E2, E3. done.
  - intros Hc. rewrite E1. destruct (Cl Hc). split; [done|]. intros c Hc'. apply E4. auto.
  - intros c Hc. apply E5, Co, Hc.
Qed.

Lemma conn_effect s s' p r x :
  may p r → lstep s r x s' → conn_kept s s' ∨ ph_gate p = true.
Proof.
  intros Ha Hs. destruct r; lstep_inv; try (right; tauto); left; repeat split; cbn; set_solver.
Qed.

Lemma local_ctx s p k b : ph_gate p = true → local s p → local s (with_ctx k b p).
Proof. intros G [O Se Fr Cl Co]. split; cbn; auto. by rewrite G. Qed.

Lemma local_close s p m k b : local s p → local s (with_close m k b p).
Proof. intros [O Se Fr Cl Co]. split; cbn; auto. Qed.

Lemma local_conn s p c :
  ph_gate p = true → (∀ n, c = Some n → n ∈ w_opened s) → local s p → local s (with_conn c p).
Proof. intros G Hc [O Se Fr Cl Co]. split; cbn; auto. by rewrite G. Qed.

Lemma local_seen s p c fr cl :
  ph_gate p = true → t_conn s = c → (fr = true → t_providedConn s = false ∧ t_initErr s = None) →
  (cl = true → fr = true ∧ ∀ n, t_conn s = Some n → n ∈ w_closed s) →
  local s p → local s (with_seen c fr cl p).
Proof. intros G Hc Hf Hl [O Se Fr Cl Co]. split; cbn; auto; [by rewrite G|by intros; simplify_eq]. Qed.

Lemma local_gate s p b :
  ph_conn p = None → ph_ctx p = None → ph_registered p = false → local s p → local s (with_gate b p).
Proof. intros H1 H2 H3 [O Se Fr Cl Co]. by split; cbn; auto. Qed.

(** What a goroutine learns from its own call. *)
Lemma local_self s s' p r x :
  (t_providedConn s = false → ∀ c, t_conn s = Some c → c ∈ w_opened s) →
  local s p → may p r → lstep s r x s' → local s' (next p r x).
Proof.
  intros D L Ha Hs.
  assert (Lk : conn_kept s s' → local s' p) by (intros; by eapply local_kept).
  assert (K : ∀ s1, t_conn s1 = t_conn s → t_providedConn s1 = t_providedConn s →
    t_initErr s1 = t_initErr s → w_closed s ⊆ w_closed s1 → w_opened s ⊆ w_opened s1 → local s1 p).
  { intros. eapply local_kept; [|exact L]. by repeat split. }
  pose proof (lo_outside _ _ L) as O.
  destruct r; cbn in Ha, Hs; cbn [next].
  all: try (by subst s'; apply K).
  all: try (by destruct Hs as [_ ->]; apply K).
  - destruct Hs as [-> ->]. destruct (ph_gate p) eqn:G; [|done].
    apply local_seen; [done..| | |done].
    + intros [E1 E2]%Bool.negb_true_iff%Bool.orb_false_iff. by destruct (t_initErr s).
    + intros [E1 E2]%Bool.andb_true_iff. split; [done|]. by destruct (t_conn s).
  - destruct Hs as [-> ->]. destruct (_ && _ && _ && _)%bool eqn:E; [|done]. go_bool. destr_all.
    apply local_seen; try done; [by eapply lo_seen|by intros; apply (lo_free _ _ L)|].
    intros _. split; [done|]. intros n Hn. rewrite (lo_seen _ _ L (Some nc)) in Hn by done. by simplify_eq.
  - destruct x; [by subst|]. destruct Hs as [_ ->], (O Ha) as (_ & _ & _ & E1 & E2 & E3).
    apply local_gate; try done. by apply K.
  - destruct Hs as [_ ->], (O Ha) as (_ & _ & _ & E1 & E2 & E3). apply local_gate; try done. by apply K.
  - destruct Hs as [_ ->]. destr_all. apply local_gate; try done. by apply K.
  - destruct Hs as [_ ->]. destr_all. by apply local_ctx.
  - destr_all. apply local_ctx; [done|]. unfold register_cancel in Hs.
    destruct (t_closing s); simplify_eq; [done|by apply K].
  - subst s'. apply local_ctx; [done|by apply K].
  - subst s'. destruct (ph_gate p) eqn:G; [apply local_ctx; [done|]|apply local_close]; by apply K.
  - destr_all. destruct x as [c|e]; [|by subst]. destruct Hs as (_ & _ & ->).
    apply local_conn; [done|intros n [= <-]; cbn; set_solver|apply K; cbn; set_solver].
  - subst s'. assert (G : ph_gate p = true).
    { destruct (ph_gate p); [done|]. destruct (O eq_refl) as (_ & _ & _ & E & _). congruence. }
    apply local_conn; [done..|apply K; cbn; set_solver].
  - destr_all. unfold store_connection in Hs. destruct (t_closing s); simplify_eq; [done|].
    apply local_conn; [done..|]. destruct L as [_ Se Fr Cl Co].
    split; cbn; try done; [by rewrite H0|by intros ? [= <-]].
  - destruct Hs as [-> ->]. apply local_close. by apply K.
  - subst s'. apply local_close. by apply K.
  - destruct Hs as [-> ->]. destr_all. apply local_close. destruct L as [_ Se Fr Cl Co].
    split; cbn; [by rewrite H|by intros ? [= <-]|done|done|].
    intros c Hc. destruct (t_providedConn s) eqn:E; [done|]. by apply D.
  - destruct Hs as [ext Hs]. unfold ensureJetStream in Hs.
    destruct (t_js s), (t_conn s) eqn:Ec, ext; simplify_eq; try done. by apply K.
Qed.
(** Calls that leave connections alone. *)
Lemma own_kept s s' Φ i p p' :
  own_inv s Φ → Φ !! i = Some p → ph_conn p' = ph_conn p →
  t_conn s' = t_conn s → t_js s' = t_js s → t_providedConn s' = t_providedConn s →
  w_given s' = w_given s → w_opened s' = w_opened s → w_closed s ⊆ w_closed s' →
  own_inv s' (<[i := p']> Φ).
Proof.
  intros [I1 I2 I3 I4 I5] Hi Hp E1 E2 E3 E4 E5 E6.
  split; rewrite ?E1, ?E2, ?E3, ?E4, ?E5; try done.
  intros c Hc. destruct (I1 c Hc) as [H|[H|H]]; [left; by apply E6|by right; left|].
  right; right. eapply exists_keep; [done| |exact H]. by rewrite Hp.
Qed.

Lemma own_connect s Φ i p c :
  own_inv s Φ → Φ !! i = Some p → ph_conn p = None → t_providedConn s = false →
  c ∉ w_opened s → w_given s ≠ Some c →
  own_inv (add_opened c s) (<[i := with_conn (Some c) p]> Φ).
Proof.
  intros [I1 I2 I3 I4 I5] Hi Hp Hf Hc Hg. split; cbn.
  - intros c' [<-%elem_of_singleton|Hc']%elem_of_union; [by right; right; eapply exists_now|].
    destruct (I1 c' Hc') as [H|[H|H]]; [by left|by right; left|].
    right; right. eapply exists_keep; [done| |exact H]. by rewrite Hp.
  - by rewrite Hf.
  - intros _ c' Hc'. apply elem_of_union_r. by apply I3.
  - done.
  - intros c' Hc'. apply not_elem_of_union. split; [|by apply I5].
    intros <-%elem_of_singleton. done.
Qed.

Lemma own_close s Φ i p c :
  own_inv s Φ → Φ !! i = Some p → ph_conn p = Some c →
  own_inv (add_closed c s) (<[i := with_conn None p]> Φ).
Proof.
  intros [I1 I2 I3 I4 I5] Hi Hp. split; cbn; try done.
  intros c' Hc'. destruct (decide (c' = c)) as [->|Hn]; [left; set_solver|].
  destruct (I1 c' Hc') as [H|[H|H]]; [left; set_solver|by right; left|].
  right; right. eapply exists_keep; [done| |exact H]. rewrite Hp. by intros [= <-].
Qed.

Lemma own_store s Φ i p p' c :
  own_inv s Φ → local s p → Φ !! i = Some p → ph_conn p = Some c → ph_clear p = true → ph_conn p' = None →
  own_inv (set_conn (Some c) (Some c) s) (<[i := p']> Φ).
Proof.
  intros [I1 I2 I3 I4 I5] L Hi Hp Hc Hp'. destruct (lo_clear _ _ L Hc) as [Hf Hold].
  destruct (lo_free _ _ L Hf) as [Hpr _]. pose proof (lo_conn _ _ L _ Hp) as Ho.
  split; cbn; try done.
  - intros c' Hc'. destruct (decide (c' = c)) as [->|Hn]; [by right; left|].
    destruct (I1 c' Hc') as [H|[H|H]]; [by left|by left; apply Hold|].
    right; right. eapply exists_keep; [done| |exact H]. rewrite Hp. by intros [= <-].
  - by rewrite Hpr.
  - by intros _ c' [= <-].
Qed.

Lemma own_take s Φ i p p' :
  own_inv s Φ → Φ !! i = Some p → ph_conn p = None →
  ph_conn p' = (if t_providedConn s then None else t_conn s) →
  own_inv (set_conn None None s) (<[i := p']> Φ).
Proof.
  intros [I1 I2 I3 I4 I5] Hi Hp Hp'. split; cbn; try done.
  - intros c Hc. destruct (t_providedConn s) eqn:E; [destruct (I2 eq_refl) as [E2 _]; set_solver|].
    destruct (I1 c Hc) as [H|[H|H]]; [by left| |].
    + right; right. eapply exists_now; [done|]. congruence.
    + right; right. eapply exists_keep; [done| |exact H]. by rewrite Hp.
  - intros E. split; [by apply I2|by left].
Qed.

Lemma own_step s s' Φ i p r x :
  own_inv s Φ → local s p → Φ !! i = Some p → may p r → lstep s r x s' →
  own_inv s' (<[i := next p r x]> Φ).
Proof.
  intros I L Hi Ha Hs.
  assert (K : ∀ p' s1, ph_conn p' = ph_conn p → t_conn s1 = t_conn s → t_js s1 = t_js s →
    t_providedConn s1 = t_providedConn s → w_given s1 = w_given s → w_opened s1 = w_opened s →
    w_closed s ⊆ w_closed s1 → own_inv s1 (<[i := p']> Φ)) by (intros; by eapply own_kept).
  destruct r; cbn in Ha, Hs; cbn [next].
  all: try (by subst s'; apply K).
  all: try (by destruct Hs as [_ ->]; apply K).
  - destruct Hs as [-> ->]. destruct (ph_gate p); by apply K.
  - destruct Hs as [-> ->]. destruct (_ && _ && _ && _)%bool; by apply K.
  - destruct x; [by subst; apply K|]. destruct Hs as [_ ->]. by apply K.
  - unfold register_cancel in Hs. destruct (t_closing s); simplify_eq; by apply K.
  - subst s'. destruct (ph_gate p); by apply K.
  - destruct x as [c|e]; [|by subst; apply K]. destruct Hs as (H1 & H2 & ->), Ha as (G1 & G2 & G3 & _).
    apply own_connect; try done. by apply (lo_free _ _ L), (lo_clear _ _ L).
  - subst s'. by apply own_close.
  - destruct Ha as (G1 & G2 & G3). unfold store_connection in Hs.
    destruct (t_closing s); simplify_eq; [by apply K|]. by eapply own_store.
  - destruct Hs as [-> ->], Ha as (G1 & G2 & _). by eapply own_take.
  - destruct Hs as [ext Hs]. unfold ensureJetStream in Hs.
    destruct (t_js s) eqn:Ej, (t_conn s) as [c|] eqn:Ec, ext; simplify_eq; try by apply K.
    destruct I as [I1 I2 I3 I4 I5]. rewrite list_insert_id by done. split; cbn; try done; rewrite ?Ec in *; auto.
Qed.
(** Calls that leave the closing protocol alone. *)
Definition duties_kept (p p' : phase) : Prop :=
  (∀ k, ph_registered p = true ∧ ph_ctx p = Some k → ph_registered p' = true ∧ ph_ctx p' = Some k) ∧
  (ph_closing p = true → ph_closing p' = true) ∧
  (∀ k, ph_marked p = true ∨ ph_pending p = Some k → ph_marked p' = true ∨ ph_pending p' = Some k).

Lemma close_kept s s' Φ i p p' :
  close_inv s Φ → Φ !! i = Some p → duties_kept p p' →
  t_closing s' = t_closing s → t_connectCancel s' = t_connectCancel s → t_conn s' = t_conn s →
  w_cancelled s ⊆ w_cancelled s' → close_inv s' (<[i := p']> Φ).
Proof.
  intros [I1 I2 I3] Hi (D1 & D2 & D3) E1 E2 E3 E4. split; rewrite ?E1, ?E2, ?E3.
  - intros k Hk. eapply exists_keep; [done|apply D1|by apply I1].
  - intros Hc. destruct (I2 Hc) as [H|H]; [by left|right]. by eapply exists_keep; [|apply D2|].
  - intros Hc k Hk. destruct (I3 Hc k Hk) as [H|H]; [left; by apply E4|right].
    by eapply exists_keep; [|apply D3|].
Qed.

(** After [t.closing = false] nothing is owed. *)
Lemma close_open s' Φ :
  t_closing s' = false →
  (∀ k, t_connectCancel s' = Some k → Exists (λ p, ph_registered p = true ∧ ph_ctx p = Some k) Φ) →
  close_inv s' Φ.
Proof. intros E H. by split; rewrite ?E. Qed.

Lemma close_mark s Φ i p p' :
  close_inv s Φ → Φ !! i = Some p → ph_registered p' = ph_registered p → ph_ctx p' = ph_ctx p →
  ph_closing p' = true → ph_marked p' = true ∨ ph_pending p' = t_connectCancel s →
  close_inv (set_closing true s) (<[i := p']> Φ).
Proof.
  intros [I1 I2 I3] Hi E1 E2 E3 E4. split; cbn.
  - intros k Hk. eapply exists_keep; [done| |by apply I1]. by rewrite E1, E2.
  - intros _. right. by eapply exists_now.
  - intros _ k Hk. right. eapply exists_now; [done|]. destruct E4 as [E4|E4]; [by left|right; congruence].
Qed.

Lemma close_cancel s Φ i p p' k :
  close_inv s Φ → Φ !! i = Some p →
  (∀ k', ph_registered p = true ∧ ph_ctx p = Some k' → ph_registered p' = true ∧ ph_ctx p' = Some k') →
  ph_closing p' = ph_closing p → ph_marked p' = ph_marked p →
  ph_pending p' = ph_pending p ∨ ph_pending p = Some k →
  close_inv (add_cancelled k s) (<[i := p']> Φ).
Proof.
  intros [I1 I2 I3] Hi E1 E2 E3 E4. split; cbn.
  - intros k' Hk. eapply exists_keep; [done|apply E1|by apply I1].
  - intros Hc. destruct (I2 Hc) as [H|H]; [by left|right]. eapply exists_keep; [done| |exact H]. by rewrite E2.
  - intros Hc k' Hk. destruct (I3 Hc k' Hk) as [H|H]; [left; set_solver|].
    destruct (decide (k' = k)) as [->|Hn]; [left; set_solver|]. right.
    eapply exists_keep; [done| |exact H]. intros [H'|H']; [left; congruence|].
    destruct E4 as [E4|E4]; [right; congruence|congruence].
Qed.

Lemma close_step s s' Φ i p r x :
  close_inv s Φ → local s p → Φ !! i = Some p → may p r → lstep s r x s' →
  close_inv s' (<[i := next p r x]> Φ).
Proof.
  intros I L Hi Ha Hs. pose proof (lo_outside _ _ L) as O.
  assert (K : ∀ p' s1, duties_kept p p' → t_closing s1 = t_closing s →
    t_connectCancel s1 = t_connectCancel s → t_conn s1 = t_conn s → w_cancelled s ⊆ w_cancelled s1 →
    close_inv s1 (<[i := p']> Φ)) by (intros; by eapply close_kept).
  destruct r; cbn in Ha, Hs; cbn [next].
  all: try (by subst s'; apply K).
  all: try (by destruct Hs as [_ ->]; apply K).
  - destruct Hs as [-> ->]. destruct (ph_gate p); by apply K.
  - destruct Hs as [-> ->]. destruct (_ && _ && _ && _)%bool; by apply K.
  - destruct x; [by subst; apply K|]. destruct Hs as [_ ->]. by apply K.
  - destruct Hs as [_ ->], Ha as (_ & _ & G). apply K; try done. split; [|done]. cbn.
    rewrite G. by intros k [].
  - destruct Ha as (G1 & G2 & G3). unfold register_cancel in Hs.
    destruct (t_closing s) eqn:Ec; simplify_eq.
    + apply K; try done. split; [|done]. rewrite G3. by intros k' [].
    + apply close_open; [done|]. cbn. intros k' [= <-]. by eapply exists_now.
  - subst s'. destruct I as [I1 I2 I3]. split; cbn; [done| |done].
    intros Hc. destruct (I2 Hc) as [H|H]; [by left|right]. by eapply exists_keep.
  - subst s'. destruct (ph_gate p) eqn:G.
    + destruct Ha as [[G1 G2]|[G1 _]]; [|done]. eapply close_cancel; try done; [|by left].
      rewrite G2. by intros k' [].
    + destruct (O eq_refl) as (_ & _ & _ & _ & E1 & E2).
      destruct Ha as [[G1 G2]|[_ G1]]; [congruence|]. eapply close_cancel; try done. by right.
  - destruct x as [c|e]; [destruct Hs as (_ & _ & ->)|subst s']; by apply K.
  - unfold store_connection in Hs. destruct (t_closing s) eqn:Ec; simplify_eq; [by apply K|].
    apply close_open; [done|]. intros k Hk. eapply exists_keep; [done| |by apply (ci_registered _ _ I)]. done.
  - destruct Hs as [-> ->]. eapply close_mark; try done. by right.
  - subst s'. apply close_open; [done|]. intros k Hk. rewrite list_insert_id by done.
    by apply (ci_registered _ _ I).
  - subst s'. eapply close_mark; try done. by left.
  - destruct Hs as [-> ->], Ha as (G1 & G2 & G3 & G4). destruct I as [I1 I2 I3]. split; cbn.
    + intros k Hk. eapply exists_keep; [done| |by apply I1]. done.
    + intros _. by left.
    + intros Hc k Hk. destruct (I3 Hc k Hk) as [H|H]; [by left|right].
      eapply exists_keep; [done| |exact H]. rewrite G3, G4. by intros [].
  - destruct Hs as [ext Hs]. unfold ensureJetStream in Hs.
    destruct (t_js s) eqn:Ej, (t_conn s) as [c|] eqn:Ec, ext; simplify_eq; by apply K.
Qed.
End System.
