(* ===== verification/LifecycleProofs.v ===== *)
(** * The connection lifecycle: theorems (src/tnats/lazy.go)

    What LifecycleSystem's invariant means for the transport - no dialed connection
    is lost, one dial at a time, the caller's connection is left alone - and what one
    EnsureConn does, call by call. *)

From stdpp Require Import relations.
From S2P Require Import Prelude Effects Errors World Lifecycle LifecycleSystem.

Section Theorems.
Context {EM : ErrorModel}.

Abbreviation lev := (@Ev lreq lresp).

(** ** The invariant of the system *)
Definition sinv (σ : sys) : Prop :=
  linv σ.1 (σ.2).*1 ∧ ∀ i p m, σ.2 !! i = Some (p, m) → follows p m returns_idle.

Lemma linv_initial s : initial s → linv s [].
Proof.
  intros H. split; [done|split; done| |].
  - destruct H as [(url & e & ->)|(nc & url & js & -> & Hj)]; split; cbn; try done.
    + intros _. split; [done|]. by right.
    + intros j. destruct nc as [c|]; [|done]. by destruct Hj as [->| ->].
  - destruct H as [(url & e & ->)|(nc & url & js & -> & Hj)]; by split.
Qed.

Lemma linv_start s Φ : linv s Φ → linv s (Φ ++ [idle]).
Proof.
  assert (L : ∀ i p, (Φ ++ [idle]) !! i = Some p → Φ !! i = Some p ∨ p = idle).
  { intros i p [H|[_ H]]%lookup_app_Some; [by left|right].
    apply list_lookup_singleton_Some in H as [_ <-]. done. }
  intros [Lo [U T] [O1 O2 O3 O4 O5] [C1 C2 C3]]. split.
  - intros i p [H| ->]%L; [by eapply Lo|]. by split.
  - split.
    + intros i j p q [Hi| ->]%L [Hj| ->]%L Gp Gq; try done. by eapply U.
    + intros i p [Hi| ->]%L Gp; [by eapply T|done].
  - split; try done. intros c Hc. rewrite Exists_app. destruct (O1 c Hc) as [H|[H|H]]; auto.
  - split.
    + intros k Hk. apply Exists_app. auto.
    + intros Hc. rewrite Exists_app. destruct (C2 Hc); auto.
    + intros Hc k Hk. rewrite Exists_app. destruct (C3 Hc k Hk); auto.
Qed.

(** Changes from outside: a connection closes, the URL is set. *)
Lemma linv_outside s s' Φ :
  conn_kept s s' → t_connectGate s' = t_connectGate s → t_js s' = t_js s → w_given s' = w_given s →
  w_opened s' = w_opened s → t_closing s' = t_closing s → t_connectCancel s' = t_connectCancel s →
  w_cancelled s' = w_cancelled s → linv s Φ → linv s' Φ.
Proof.
  intros K E1 E2 E3 E4 E5 E6 E7 [Lo [U T] [O1 O2 O3 O4 O5] [C1 C2 C3]].
  pose proof K as (K1 & K2 & K3 & K4 & K5). split.
  - intros i p Hi. eapply local_kept; [done|]. by eapply Lo.
  - split; [done|]. by rewrite E1.
  - split; rewrite ?K1, ?K2, ?E2, ?E3, ?E4; try done.
    intros c Hc. destruct (O1 c Hc) as [H|[H|H]]; auto.
  - split; rewrite ?K1, ?E5, ?E6, ?E7; done.
Qed.

Lemma linv_call s s' Φ i p r x :
  linv s Φ → Φ !! i = Some p → may p r → lstep s r x s' → linv s' (<[i := next p r x]> Φ).
Proof.
  intros [Lo G O C] Hi Ha Hs. pose proof (Lo _ _ Hi) as L. split.
  - intros j q Hj. destruct (lookup_updated _ _ _ _ _ _ Hi Hj) as [[<- ->]|[Nj Lj]].
    + eapply local_self; try done. by apply (oi_dialed _ _ O).
    + destruct (conn_effect _ _ _ _ _ Ha Hs) as [K|Gp]; [by eapply local_kept, Lo|].
      apply (local_outside s); [|by eapply Lo]. destruct (ph_gate q) eqn:Gq; [|done].
      destruct Nj. by eapply (gi_unique _ _ G).
  - by eapply gate_step.
  - by eapply own_step.
  - by eapply close_step.
Qed.

Lemma phase_at (l : list (phase * goroutine)) i p m : l !! i = Some (p, m) → l.*1 !! i = Some p.
Proof. intros H. by rewrite list_lookup_fmap, H. Qed.

Lemma sinv_step σ σ' : sstep σ σ' → sinv σ → sinv σ'.
Proof.
  destruct 1 as [s l m Hm|s l i p r k x s' Hi Hs|c s l|u s l]; intros [I F]; cbn in *.
  - split; cbn.
    + rewrite fmap_app. by apply linv_start.
    + intros i p m' [H|[_ H]]%lookup_app_Some; [by eapply F|].
      apply list_lookup_singleton_Some in H as [_ [= <- <-]]. by apply starts_follow.
  - pose proof (F _ _ _ Hi) as [[_ Ha] Hk]. split; cbn.
    + rewrite list_fmap_insert. eapply linv_call; try done. by apply phase_at in Hi.
    + intros j q m Hj. destruct (lookup_updated _ _ _ _ _ _ Hi Hj) as [[<- [= -> ->]]|[_ Lj]];
        [apply Hk|by eapply F].
  - split; [|done]. eapply linv_outside, I; try done. split; [done|]. cbn. set_solver.
  - split; [|done]. by eapply linv_outside, I.
Qed.

Lemma lreachable_inv σ : lreachable σ → sinv σ.
Proof.
  intros (s & Hi & Hr). assert (I : sinv (s, [])) by (split; [by apply linv_initial|done]).
  revert I. induction Hr as [|? ? ? St _ IH]; [done|]. intros I. by eapply IH, sinv_step.
Qed.

(** Every goroutine has returned. *)
Definition all_returned (l : list (phase * goroutine)) : Prop :=
  ∀ i p m, l !! i = Some (p, m) → m = Ret (Some tt).

Lemma returned_idle σ : sinv σ → all_returned σ.2 → ∀ p, p ∈ (σ.2).*1 → p = idle.
Proof.
  intros [_ F] Hr p [i Hi]%list_elem_of_lookup. rewrite list_lookup_fmap in Hi.
  destruct (σ.2 !! i) as [[q m]|] eqn:E; [|done]. injection Hi as <-.
  pose proof (Hr _ _ _ E) as ->. by destruct (F _ _ _ E) as [[? _]|].
Qed.

Lemma returned_none (P : phase → Prop) σ :
  sinv σ → all_returned σ.2 → ¬ P idle → ¬ Exists P (σ.2).*1.
Proof.
  intros I Hr HP (p & Hp & H)%Exists_exists. by rewrite (returned_idle _ I Hr p Hp) in H.
Qed.

(** ** Theorems *)

(** C10: No connection is lost: whatever goroutines call EnsureConn, Close,
    Connected and ensureJetStream, in whatever order their calls interleave, and
    whichever dials fail, when all of them have returned every connection the
    transport dialed and that is still open is the one in t.conn; if the transport is
    then closed, all of them are closed.  No cancel function is left behind, and the
    JetStream context in t.js belongs to the connection in t.conn. *)
Theorem lifecycle_no_leak s l :
  lreachable (s, l) → all_returned l →
  (∀ c, c ∈ w_opened s → c ∉ w_closed s → t_conn s = Some c ∧ t_closing s = false) ∧
  t_connectCancel s = None ∧
  (∀ j, t_js s = Some j → t_conn s = Some j).
Proof.
  intros I%lreachable_inv Hr. pose proof I as [[_ _ O C] _]. cbn in O, C.
  pose proof (λ P H, returned_none P _ I Hr H) as N. cbn in N. split; [|split].
  - intros c Ho Hc. destruct (oi_owned _ _ O c Ho) as [H|[H|H]]; [done| |by destruct (N (λ p, ph_conn p = Some c))].
    split; [done|]. destruct (t_closing s) eqn:E; [|done].
    destruct (ci_closing _ _ C E) as [H'|H']; [congruence|]. by destruct (N (λ p, ph_closing p = true)).
  - destruct (t_connectCancel s) as [k|] eqn:E; [|done]. pose proof (ci_registered _ _ C k E) as H.
    exfalso. revert H. apply N. by intros [].
  - apply (oi_js _ _ O).
Qed.

(** The calls that a goroutine makes between lockConnect and unlockConnect. *)
Definition needs_gate (r : lreq) : bool :=
  match r with
  | LUnlockGate | LWithCancel _ | LSetConnectCancel _ | LClearConnectCancel | LConnect _
  | LStoreConnection _ | LTakeConnection => true
  | _ => false
  end.

Lemma needs_gate_holds p r : may p r → needs_gate r = true → ph_gate p = true.
Proof. destruct r; cbn; try done; tauto. Qed.

(** C16: One dial at a time: a goroutine about to call nats.Connect is the only one
    inside the connect gate (no other is about to dial, store, take or release), and it
    dials only where it may: the URL is not empty, no connection was supplied by the
    caller, no initialisation error is pending, and the connection in t.conn, if there
    is one, is closed.  So a live connection is never replaced. *)
Theorem dial_exclusive s l i p url k :
  lreachable (s, l) → l !! i = Some (p, Vis (LConnect url) k) →
  (∀ j q r k', l !! j = Some (q, Vis r k') → needs_gate r = true → j = i) ∧
  url ≠ "" ∧ t_providedConn s = false ∧ t_initErr s = None ∧
  (∀ c, t_conn s = Some c → c ∈ w_closed s).
Proof.
  intros [[Lo G _ _] F]%lreachable_inv Hi. cbn in *.
  pose proof (F _ _ _ Hi) as [[_ (G1 & G2 & G3 & G4)] _]. pose proof (Lo _ _ (phase_at _ _ _ _ Hi)) as L.
  destruct (lo_clear _ _ L G2) as [Hf Hc]. destruct (lo_free _ _ L Hf) as [Hp He]. split; [|done].
  intros j q r k' Hj Hn. pose proof (F _ _ _ Hj) as [[_ Ha] _].
  eapply (gi_unique _ _ G); [by eapply phase_at|by eapply phase_at|by eapply needs_gate_holds|done].
Qed.

(** The transport closes what it dialed and nothing else: a connection it is
    about to close came from its own nats.Connect and is not the one that was passed
    to FromConn; a transport made from the caller's connection never dials. *)
Theorem closes_only_dialed s l i p c k :
  lreachable (s, l) → l !! i = Some (p, Vis (LCloseConn c) k) →
  c ∈ w_opened s ∧ w_given s ≠ Some c ∧ t_providedConn s = false.
Proof.
  intros [[Lo _ O _] F]%lreachable_inv Hi. cbn in *. pose proof (F _ _ _ Hi) as [[_ Ha] _]. cbn in Ha.
  pose proof (lo_conn _ _ (Lo _ _ (phase_at _ _ _ _ Hi)) _ Ha) as Ho. split; [done|]. split.
  - intros E. by apply (oi_fresh _ _ O c E).
  - destruct (t_providedConn s) eqn:E; [|done]. destruct (oi_given _ _ O E) as [E' _]. set_solver.
Qed.

(** C17: Close reaches a dial that is in progress: on a transport marked closed, the
    dial that is registered has been cancelled, or the very next call of some goroutine
    is that cancel function, or the section of Close that reads it.  Together with the
    check of t.closing at registration, no dial outlives a Close unnoticed. *)
Theorem close_reaches_dial s l k :
  lreachable (s, l) → t_closing s = true → t_connectCancel s = Some k →
  k ∈ w_cancelled s ∨
  ∃ i p r m, l !! i = Some (p, Vis r m) ∧ (r = LCancel k ∨ r = LSetClosing).
Proof.
  intros [[_ _ _ C] F]%lreachable_inv Hc Hk. destruct (ci_pending _ _ C Hc k Hk) as [H|H]; [by left|right].
  cbn in H, F. apply Exists_exists in H as (p & [[q m] [-> [i Hi]%list_elem_of_lookup]]%list_elem_of_fmap & Hp).
  pose proof (F _ _ _ Hi) as Hf. exists i, q. cbn in Hp. destruct m as [a|r m]; cbn in Hf.
  - destruct Hf as [(_ & H1 & H2)| ->]; cbn in Hp; destruct Hp; congruence.
  - exists r, m. split; [done|]. destruct Hf as [[Ho _] _]. unfold owes in Ho.
    destruct (ph_marked q); [by right|]. destruct Hp as [Hp|Hp]; [done|]. rewrite Hp in Ho. by left.
Qed.

(** ** One run of EnsureConn *)

(** What a run does with connections. *)
Inductive mark :=
| Open (c : nat)         (* the cached connection was seen open *)
| Dialed (c : nat)
| Signal                 (* the wait was woken by the connected channel *)
| Cancelled              (* the connect context was seen cancelled *)
| IsUp (c : nat)         (* nc.IsConnected() *)
| Stored (c : nat)
| Closed (c : nat).

#[global] Instance mark_eq_dec : EqDecision mark.
Proof. solve_decision. Defined.

Definition mark_of (e : event lresp) : option mark :=
  match ev_req e as r return lresp r → option mark with
  | LIsClosed c => λ x, if x then None else Some (Open c)
  | LConnect _ => λ x, match x with Ok c => Some (Dialed c) | Err _ => None end
  | LSelect _ _ => λ x, match x with SConnected => Some Signal | _ => None end
  | LConnectCtxErr _ => λ x, match x with Some _ => Some Cancelled | None => None end
  | LIsConnected c => λ x, if x then Some (IsUp c) else None
  | LStoreConnection c => λ x, if x then Some (Stored c) else None
  | LCloseConn c => λ _, Some (Closed c)
  | _ => λ _, None
  end (ev_resp e).

Definition marks (tr : list (event lresp)) : list mark := omap mark_of tr.

Lemma marks_app t u : marks (t ++ u) = marks t ++ marks u.
Proof. apply omap_app. Qed.

(** Its possible runs. *)
Inductive ensured (fuel : nat) : list mark → option (result error nat) → Prop :=
| en_error e : ensured fuel [] (Some (Err e))
| en_cached c : ensured fuel [Open c] (Some (Ok c))
| en_dialed c n : n < fuel →
    ensured fuel (Dialed c :: replicate n Signal ++ [IsUp c; Stored c]) (Some (Ok c))
| en_failed c n w e : n < fuel → w = [] ∨ w = [Cancelled] ∨ w = [IsUp c] →
    ensured fuel (Dialed c :: replicate n Signal ++ w ++ [Closed c]) (Some (Err e))
| en_waiting c : ensured fuel (Dialed c :: replicate fuel Signal) None.

(** The possible runs of the wait. *)
Inductive waited (fuel : nat) (c : nat) : list mark → option (option error) → Prop :=
| wa_connected n : n < fuel → waited fuel c (replicate n Signal ++ [IsUp c]) (Some None)
| wa_failed n w e : n < fuel → w = [] ∨ w = [Cancelled] →
    waited fuel c (replicate n Signal ++ w) (Some (Some e))
| wa_waiting : waited fuel c (replicate fuel Signal) None.

Lemma waited_signal fuel c l r : waited fuel c l r → waited (S fuel) c (Signal :: l) r.
Proof.
  destruct 1 as [n H|n w e H Hw|].
  - apply (wa_connected _ _ (S n)). lia.
  - apply (wa_failed _ _ (S n)); [lia|done].
  - apply wa_waiting.
Qed.

Lemma wait_sat fuel ctx k c :
  sat (waitForInitialConnection fuel ctx k c) (λ tr r, waited fuel c (marks tr) r).
Proof.
  induction fuel as [|fuel IH]; cbn; [apply wa_waiting|].
  intros [e|]; cbn; [apply (wa_failed _ _ 0 []); [lia|by left]|].
  intros [e|]; cbn; [apply (wa_failed _ _ 0 [Cancelled]); [lia|by right]|].
  intros []; cbn; [apply (wa_connected _ _ 0); lia|].
  intros [| |e|]; cbn; try (apply (wa_failed _ _ 0 []); [lia|by left]).
  - eapply sat_mono; [|exact IH]. cbn. intros t r. apply waited_signal.
  - intros [e|]; cbn; apply (wa_failed _ _ 0 []); try lia; by left.
Qed.

Lemma cachedConnection_sat :
  sat cachedConnection (λ tr r,
    match r with
    | Some (Ok c) => marks tr = [Open c]
    | _ => marks tr = []
    end).
Proof.
  unfold cachedConnection. cbn. intros [[[nc ie] pr] cl]. cbn.
  destruct ie, cl, pr, nc as [c|]; cbn; try done; by intros [].
Qed.

Lemma dial_sat fuel ctx k url : sat (dial fuel ctx k url) (λ tr r, ensured fuel (marks tr) r).
Proof.
  assert (C : ∀ tr n w e c, marks tr = replicate n Signal ++ w → n < fuel → w = [] ∨ w = [Cancelled] ∨ w = [IsUp c] →
    ensured fuel (Dialed c :: marks (tr ++ [lev (LCloseConn c) tt])) (Some (Err e))).
  { intros tr n w e c E Hn Hw. rewrite marks_app, E, <- app_assoc. cbn. by apply en_failed. }
  unfold dial. cbn. intros [c|e]; cbn.
  - apply sat_bind. eapply sat_mono; [|apply wait_sat]. cbn. intros t r Hw.
    remember (marks t) as l eqn:El. destruct Hw as [n H|n w e H Hw|]; cbn.
    + intros [e|]; cbn; [intros []|intros []; [|intros []]].
      * change (ensured fuel (Dialed c :: marks (t ++ [lev (LJetStream c) (Some e)] ++ [lev (LCloseConn c) tt]))
                  (Some (Err (mapError e)))).
        rewrite app_assoc. eapply (C _ n [IsUp c]); [|done|auto]. rewrite marks_app, <- El. apply app_nil_r.
      * change (ensured fuel (Dialed c :: marks (t ++ [lev (LJetStream c) None; lev (LStoreConnection c) true]))
                  (Some (Ok c))).
        rewrite marks_app, <- El, <- app_assoc. cbn. by apply en_dialed.
      * change (ensured fuel (Dialed c :: marks (t ++ [lev (LJetStream c) None; lev (LStoreConnection c) false] ++ [lev (LCloseConn c) tt]))
                  (Some (Err (unavailable "nats: transport closed during connection setup")))).
        rewrite app_assoc. eapply (C _ n [IsUp c]); [|done|auto]. rewrite marks_app, <- El. apply app_nil_r.
    + intros []. change (ensured fuel (Dialed c :: marks (t ++ [lev (LCloseConn c) tt])) (Some (Err e))).
      eapply (C _ n w); [by rewrite <- El|done|]. destruct Hw; auto.
    + rewrite app_nil_r. change (ensured fuel (Dialed c :: marks t) None). rewrite <- El. apply en_waiting.
  - intros [e'|]; cbn; apply en_error.
Qed.

(** Programs whose runs are as [ensured] says: calls without a mark in front, and a
    deferred function behind, change nothing. *)
Definition esat (fuel : nat) (p : prog lresp (option (result error nat))) : Prop :=
  sat p (λ tr r, ensured fuel (marks tr) r).

Lemma esat_error fuel e : esat fuel (mret (Some (Err e))).
Proof. apply en_error. Qed.

Lemma esat_call fuel r (f : lresp r → prog lresp (option (result error nat))) :
  (∀ x, mark_of (Ev r x) = None) → (∀ x, esat fuel (f x)) → esat fuel (call r ≫= f).
Proof.
  intros Hr Hf. apply sat_vis. intros x. eapply sat_mono; [|apply Hf]. cbn beta. intros t b.
  unfold marks. cbn. by rewrite Hr.
Qed.

Lemma esat_defer fuel p (f : option (result error nat) → prog lresp (option (result error nat))) :
  esat fuel p → f None = mret None →
  (∀ r, sat (f (Some r)) (λ tr r', marks tr = [] ∧ r' = Some r)) → esat fuel (p ≫= f).
Proof.
  intros Hp Hn Hf. apply sat_bind. eapply sat_mono; [|exact Hp]. cbn beta. intros t [r|] H.
  - eapply sat_mono; [|apply Hf]. cbn beta. intros t' r' [E ->]. by rewrite marks_app, E, app_nil_r.
  - rewrite Hn. cbn. by rewrite app_nil_r.
Qed.

Lemma esat_cached fuel (f : option (result error nat) → prog lresp (option (result error nat))) :
  (∀ r, f (Some r) = mret (Some r)) → esat fuel (f None) → esat fuel (cachedConnection ≫= f).
Proof.
  intros Hs Hn. apply sat_bind. eapply sat_mono; [|apply cachedConnection_sat]. cbn beta.
  intros t [[c|e]|] H; rewrite ?Hs; cbn.
  - rewrite app_nil_r, H. apply en_cached.
  - rewrite app_nil_r, H. apply en_error.
  - eapply sat_mono; [|exact Hn]. cbn beta. intros t' r. by rewrite marks_app, H.
Qed.

Lemma dialConnection_esat fuel ctx : esat fuel (dialConnection fuel ctx).
Proof.
  unfold dialConnection. apply esat_call; [done|]. intros url. destruct (str_empty url); [apply esat_error|].
  apply esat_call; [done|]. intros k. apply esat_call; [by intros []|]. intros []; cbn [negb].
  - apply esat_defer; [apply dial_sat|done|]. intros r. by cbn; intros [] [].
  - apply esat_call; [done|]. intros []. apply esat_error.
Qed.

(** What one EnsureConn does.  It returns the cached connection after seeing it
    open, without dialing; or it dials once and returns the dialed connection after
    IsConnected reported true and after storing it; or it fails before dialing; or it
    dials once and fails, and then it has closed what it dialed and stored nothing.
    A call that has not returned is waiting for its one connection, and every turn of
    the wait was paid by a signal. *)
Theorem EnsureConn_runs fuel ctx :
  sat (EnsureConn fuel (Some ctx)) (λ tr r, ensured fuel (marks tr) r).
Proof.
  apply esat_call; [done|]. intros [e|]; [apply esat_error|].
  apply esat_cached; [done|]. apply esat_call; [done|]. intros [e|]; [apply esat_error|].
  apply esat_defer; [|done|intros r; by cbn; intros []].
  apply esat_call; [done|]. intros [e|]; [apply esat_error|].
  apply esat_cached; [done|]. apply dialConnection_esat.
Qed.

Lemma wait_length fuel ctx k c :
  sat (waitForInitialConnection fuel ctx k c) (λ tr _, length tr ≤ 4 * fuel + 1).
Proof.
  induction fuel as [|fuel IH]; cbn; [lia|].
  intros [e|]; cbn; [lia|]. intros [e|]; cbn; [lia|]. intros []; cbn; [lia|].
  intros []; cbn; [|intros [e|]; cbn; lia|lia..].
  eapply sat_mono; [|exact IH]. cbn. lia.
Qed.

Lemma filter_signals n : length (filter (λ m, m = Signal) (replicate n Signal)) = n.
Proof. induction n as [|n IH]; [done|].
  change (replicate (S n) Signal) with (Signal :: replicate n Signal).
  rewrite filter_cons_True by done. cbn [length]. by rewrite IH. Qed.

(** C18: The wait for the initial connection ends: every turn but the last is paid by
    a signal of the connected channel, so a wait that is woken fewer than [fuel] times
    returns within [fuel] turns; once the connect context is seen cancelled it returns
    an error at once; and it returns without an error only after IsConnected. *)
Theorem waitForInitialConnection_returns fuel ctx k c :
  sat (waitForInitialConnection fuel ctx k c) (λ tr r,
    (length (filter (λ m, m = Signal) (marks tr)) < fuel → r ≠ None) ∧
    (Cancelled ∈ marks tr → last (marks tr) = Some Cancelled ∧ ∃ e, r = Some (Some e)) ∧
    (r = Some None → last (marks tr) = Some (IsUp c)) ∧
    length tr ≤ 4 * fuel + 1).
Proof.
  apply sat_runs. intros tr r Hr.
  pose proof (proj1 (sat_runs _ _) (wait_sat fuel ctx k c) _ _ Hr) as Hw.
  pose proof (proj1 (sat_runs _ _) (wait_length fuel ctx k c) _ _ Hr) as Hl. cbn in Hl.
  destruct Hw as [n H|n w e H Hw|]; (split; [|split; [|split; [|done]]]); try done.
  - intros [Hc|Hc]%elem_of_app; [by apply elem_of_replicate in Hc as []|set_solver].
  - intros _. by rewrite last_snoc.
  - intros Hc. split; [|eauto]. destruct Hw as [->| ->]; [|by rewrite last_snoc].
    rewrite app_nil_r in Hc. by apply elem_of_replicate in Hc as [].
  - rewrite filter_signals. lia.
  - intros Hc. by apply elem_of_replicate in Hc as [].
Qed.
End Theorems.

(** ** A world where everything works, to run goroutines in *)
Section Witnesses.
Import GoErr.

(** The answer of a server that is up to a caller that does not give up; [None]: the
    call waits. *)
Definition benign (s : tstate) (r : lreq) : option (lresp r * tstate) :=
  match r as r0 return option (lresp r0 * tstate) with
  | LCtxErr _ => Some (None, s)
  | LReadConnection => Some ((t_conn s, t_initErr s, t_providedConn s, t_closing s), s)
  | LIsClosed c => Some (bool_decide (c ∈ w_closed s), s)
  | LLockGate _ => if t_connectGate s then None else Some (None, set_gate true s)
  | LWaitGate => if t_connectGate s then None else Some (tt, set_gate true s)
  | LUnlockGate => if t_connectGate s then Some (tt, set_gate false s) else None
  | LReadURL => Some (t_url s, s)
  | LWithCancel _ => let k := fresh (w_cancelled s) in Some (k, s)
  | LSetConnectCancel k => Some (register_cancel k s)
  | LClearConnectCancel => Some (tt, set_connectCancel None s)
  | LCancel k => Some (tt, add_cancelled k s)
  | LConnect _ =>
      let c := fresh (w_opened s) in
      if bool_decide (w_given s = Some c) then Some (Err (ESentinel nats_ErrTimeout), s)
      else Some (Ok c, add_opened c s)
  | LConnectCtxErr k =>
      Some (if bool_decide (k ∈ w_cancelled s) then Some (ESentinel nats_ErrTimeout) else None, s)
  | LIsConnected c => Some (bool_decide (c ∉ w_closed s), s)
  | LSelect _ _ => Some (SConnected, s)
  | LLastError _ => Some (None, s)
  | LCloseConn c => Some (tt, add_closed c s)
  | LJetStream _ => Some (None, s)
  | LStoreConnection c => Some (store_connection c s)
  | LSetClosing => Some (t_connectCancel s, set_closing true s)
  | LResetClosing => Some (tt, set_closing false s)
  | LMarkClosing => Some (tt, set_closing true s)
  | LTakeConnection => Some ((t_conn s, t_providedConn s), set_conn None None s)
  | LEnsureJetStream => Some (ensureJetStream None s)
  end.

Lemma benign_step s r x s' : benign s r = Some (x, s') → lstep s r x s'.
Proof.
  destruct r; cbn; intros H; simplify_eq; try done.
  - by destruct (t_connectGate s); simplify_eq.
  - by destruct (t_connectGate s); simplify_eq.
  - by destruct (t_connectGate s); simplify_eq.
  - split; [apply is_fresh|done].
  - case_bool_decide; simplify_eq; [done|]. split; [apply is_fresh|done].
  - split; [|done]. intros Hk. by rewrite bool_decide_eq_true_2.
  - split; [|done]. apply bool_decide_eq_true.
  - by exists None.
Qed.

(** Goroutine [i] makes [n] calls. *)
Fixpoint drive (i n : nat) (σ : sys) : option sys :=
  match n with
  | O => Some σ
  | S n' =>
      match σ.2 !! i with
      | Some (p, Vis r k) =>
          match benign σ.1 r with
          | Some (x, s') => drive i n' (s', <[i := (next p r x, k x)]> σ.2)
          | None => None
          end
      | _ => None
      end
  end.

Lemma drive_reachable i n σ σ' : lreachable σ → drive i n σ = Some σ' → lreachable σ'.
Proof.
  revert σ. induction n as [|n IH]; cbn; intros σ Hr Hd; [by simplify_eq|].
  destruct σ as [s l]. cbn in Hd. destruct (l !! i) as [[p [a|r k]]|] eqn:Ei; try done.
  destruct (benign s r) as [[x s']|] eqn:Eb; [|done].
  apply IH in Hd; [done|]. destruct Hr as (s0 & H0 & Hs). exists s0. split; [done|].
  eapply rtc_r; [exact Hs|]. eapply s_call; [done|]. by apply benign_step.
Qed.

Lemma spawn_reachable s l m : lreachable (s, l) → starts m → lreachable (s, l ++ [(idle, m)]).
Proof.
  intros (s0 & H0 & Hs) Hm. exists s0. split; [done|]. eapply rtc_r; [exact Hs|]. by constructor.
Qed.

Definition fresh_transport : tstate := new_state "nats://localhost" None.
Definition conn_goroutine : goroutine := forget (EnsureConn 1 (Some Background)).
Definition close_goroutine : goroutine := finishes Close.

(** EnsureConn has made [n] calls; then Close has made [m]. *)
Definition after (n m : nat) : option sys :=
  σ ← drive 0 n (fresh_transport, [(idle, conn_goroutine); (idle, close_goroutine)]);
  drive 1 m σ.

Lemma after_reachable n m σ : after n m = Some σ → lreachable σ.
Proof.
  unfold after. intros H. apply bind_Some in H as (σ1 & H1 & H2).
  eapply drive_reachable, H2. eapply drive_reachable, H1.
  change [(idle, conn_goroutine); (idle, close_goroutine)]
    with (([] ++ [(idle, conn_goroutine)]) ++ [(idle, close_goroutine)]).
  apply spawn_reachable; [apply spawn_reachable|]; [|constructor..].
  exists fresh_transport. split; [left; by eexists _, _|apply rtc_refl].
Qed.

Definition state_after (n m : nat) : sys := default (fresh_transport, []) (after n m).

Lemma state_after_reachable n m : lreachable ((state_after n m).1, (state_after n m).2).
Proof.
  rewrite <- surjective_pairing. unfold state_after. destruct (after n m) as [σ|] eqn:E.
  - by eapply after_reachable.
  - exists fresh_transport. split; [left; by eexists _, _|apply rtc_refl].
Qed.

Definition next_call (σ : sys) (i : nat) : option lreq :=
  match σ.2 !! i with Some (_, Vis r _) => Some r | _ => None end.

Lemma next_call_at σ i r : next_call σ i = Some r → ∃ p k, σ.2 !! i = Some (p, Vis r k).
Proof. unfold next_call. destruct (_ !! _) as [[p [a|r' k]]|]; intros H; simplify_eq; eauto. Qed.

Definition has_returned (t : phase * goroutine) : bool :=
  match t.2 with Ret (Some _) => true | _ => false end.

Lemma all_returned_check l : forallb has_returned l = true → all_returned l.
Proof.
  intros H i p m Hi. rewrite forallb_forall in H.
  assert (Hin : In (p, m) l) by (apply list_elem_of_In; by eapply list_elem_of_lookup_2).
  specialize (H _ Hin). destruct m as [[[]|]|]; done.
Qed.

(** EnsureConn alone: it returns after 17 calls. *)
Definition connected : sys :=
  default (fresh_transport, []) (drive 0 17 (fresh_transport, [(idle, conn_goroutine)])).

Lemma connected_reachable : lreachable (connected.1, connected.2).
Proof.
  rewrite <- surjective_pairing. unfold connected.
  destruct (drive _ _ _) as [σ|] eqn:E; cbn.
  - eapply drive_reachable, E. apply (spawn_reachable _ []); [|constructor].
    exists fresh_transport. split; [left; by eexists _, _|apply rtc_refl].
  - exists fresh_transport. split; [left; by eexists _, _|apply rtc_refl].
Qed.

Lemma lifecycle_no_leak_witness : t_conn connected.1 = Some 0%nat ∧ t_closing connected.1 = false.
Proof.
  apply (lifecycle_no_leak connected.1 connected.2 connected_reachable); [|by vm_compute..].
  apply all_returned_check. by vm_compute.
Defined.

Lemma dial_exclusive_witness :
  ∃ k, next_call (state_after 8 0) 0 = Some (LConnect k) ∧ k ≠ "" ∧ t_initErr (state_after 8 0).1 = None.
Proof.
  exists "nats://localhost". split; [by vm_compute|].
  destruct (next_call_at (state_after 8 0) 0 (LConnect "nats://localhost") ltac:(by vm_compute)) as (p & k & H).
  destruct (dial_exclusive _ _ 0 p _ k (state_after_reachable 8 0) H) as (_ & H1 & _ & H2 & _). done.
Defined.

(** Close takes the connection and is about to close it. *)
Lemma closes_only_dialed_witness : 0%nat ∈ w_opened (state_after 17 3).1.
Proof.
  destruct (next_call_at (state_after 17 3) 1 (LCloseConn 0) ltac:(by vm_compute)) as (p & k & H).
  apply (closes_only_dialed _ _ 1 p 0 k (state_after_reachable 17 3) H).
Defined.

(** EnsureConn is inside nats.Connect when Close begins. *)
Lemma close_reaches_dial_witness :
  t_connectCancel (state_after 9 1).1 = Some 0%nat ∧
  (0%nat ∈ w_cancelled (state_after 9 1).1 ∨
   ∃ i p r m, (state_after 9 1).2 !! i = Some (p, Vis r m) ∧ (r = LCancel 0 ∨ r = LSetClosing)).
Proof.
  split; [by vm_compute|].
  apply (close_reaches_dial _ _ 0 (state_after_reachable 9 1)); by vm_compute.
Defined.
End Witnesses.
